(* ===== verification/_CoqProject ===== *)
-Q . S2P
Prelude.v
Arrays.v
Reader.v
Sha256.v
Types.v
Crypto.v
Merkle.v
Ledger.v
LedgerFacts.v
Snapshot.v
Privacy.v
Codec.v
RecordChain.v
Crc32.v
Consensus.v
ConsensusFacts.v
ConsensusCodec.v
Engine.v
EngineFacts.v
Execution.v
ExecutionFacts.v
Frames.v
FramesFacts.v
BlockJournal.v
BlockJournalFacts.v
PersistentExecution.v
PersistentExecutionFacts.v
CometCore.v
CometCoreFacts.v
RecordLog.v
Checkpoint.v
CheckpointFacts.v
CheckpointStore.v
CheckpointStoreFacts.v
PersistentLedger.v
PersistentLedgerFacts.v
BabyBear.v
Poseidon2.v
Poseidon2Facts.v
Fips180.v
TreeManifest.v
P24Parameters.v
Poseidon2Frozen.v
FullTree.v
TreeManifestFacts.v
NoteTreeFacts.v
NullifierTree.v
NullifierTreeFacts.v
ChildManifests.v
ChildManifestFacts.v
PrivateState.v
PrivateLedger.v
PrivateStateFacts.v
PrivateTransitionFacts.v
PrivateLedgerFacts.v
PrivateRecord.v
PrivateRecordFacts.v
Disk.v
DiskFacts.v
PrivateJournal.v
PrivateJournalFacts.v
PrivateStore.v
PrivateStoreFacts.v
PrivateStoreRuns.v
PrivateMigration.v
NoteHashes.v
NoteHashesFacts.v
NoteOpening.v
NoteOpeningFacts.v
PrivateValue.v
PrivateSpend.v
SampleNotes.v
PrivateValueSample.v
