(* ===== verification/Prelude.v ===== *)
(** * Noxis: a verification development

    Noxis is a privacy-oriented settlement ledger written in Rust.  Public
    transactions move and mint commitments in a ledger; every accepted
    transaction becomes a record of a hash-linked chain; records are grouped in
    blocks decided by CometBFT, which drives the node over ABCI; blocks and
    checkpoints are stored in append-only files.  A second, experimental ledger
    holds private notes: commitments in a Poseidon2 note tree and spent nullifiers
    in a sparse tree of depth 512.  This development translates the deterministic
    core of the crates under [src/crates] into Rocq functions and proves what makes
    them correct.

    ** Conventions

    A fallible function returns [Result E A]; a method that takes [&mut self]
    and may fail is in the monad [M S E A], whose state survives an error.  An
    error enum is an inductive type of the same name inside a module of that
    name, so constructors read as in the source.  Bytes are [Byte.byte];
    fixed-width byte arrays are [array n]; machine integers are [Z] with their
    ranges stated, and wrap-around or checked arithmetic written out ([as_i64],
    [checked_add], [checked_i64]).  A function that can panic returns an
    [option] (or has [option E] as its error type) in which [None] is the panic.
    SHA-256 belongs to a crate outside the repository: it is the parameter
    [sha256] of class [Sha2].  No theorem assumes it injective; a statement that
    needs two digests to differ lists the preimages involved ([collision_free]),
    and its witness instantiates the hash with a concrete checksum.  The other
    parameters are traits implemented outside the modelled code: proof
    verifiers, mint policies, finality verifiers and the authorizer of private
    transfers.  The base64 decoding of the embedded parameter files is a parameter
    too; [Fips180] evaluates SHA-256 itself, so that the checked-in files can be run
    through the model.

    ** Files

    - [Prelude]: results, the state-and-error monad, integers, byte encodings.
    - [Arrays]: byte arrays, their order, sorting by key, prefix-free encodings.
    - [Reader]: the bounds-checked byte readers that every decoder uses, and
      grammars: [parse_spec p P] says that [p] accepts exactly the byte strings
      of [P].
    - [Sha256]: the hash parameter.
    - [Types] ([noxis-types]), [Crypto] ([noxis-crypto]).
    - [Merkle] ([noxis-merkle]): the append-only commitment tree.
    - [Ledger], [LedgerFacts], [Snapshot] ([noxis-ledger]): the public ledger,
      its invariant, its refinement of an abstract step relation, snapshots and
      the state identity.
    - [Privacy] ([noxis-privacy-types]), [Codec] ([noxis-codec]): field vectors,
      private-transfer intents, transaction and packet encodings, intent ids.
    - [RecordChain] ([noxis-record-chain]): records and the chain of records.
    - [Consensus], [ConsensusFacts], [ConsensusCodec] ([noxis-consensus]):
      validator sets, configurations, headers, certificates and their codecs.
    - [Engine], [EngineFacts] ([noxis-consensus/src/engine.rs]): the CometBFT
      identity, validator mapping and decisions.
    - [Execution], [ExecutionFacts] ([noxis-execution]): execution of blocks,
      simulation, application hashes.
    - [Crc32], [Frames], [FramesFacts] (the layout the logs of [noxis-storage]
      share): framed files with checksums, a record [FrameFormat] per log and the
      class [FrameLaws] of what a log promises about it.  A file is its contents;
      an argument [io] says which system call of an append or a truncation fails,
      and a failing write keeps any prefix of its bytes.
    - [BlockJournal], [BlockJournalFacts] ([noxis-storage/src/block_journal.rs]):
      the durable block file.
    - [RecordLog] ([noxis-storage/src/record_log.rs], [lib.rs]): the logs of
      records and of transactions.
    - [Checkpoint], [CheckpointFacts] ([noxis-checkpoint]), [CheckpointStore],
      [CheckpointStoreFacts] ([noxis-storage/src/checkpoint_store.rs]): snapshots
      as files; a directory is a map from names to entries.
    - [PersistentLedger], [PersistentLedgerFacts] ([noxis-storage/src/lib.rs]):
      the ledger that replays its record log and confirms checkpoints with it.
    - [PersistentExecution], [PersistentExecutionFacts]
      ([noxis-storage/src/persistent_execution.rs]): the coordinator that opens
      a journal by re-execution and commits executed blocks.
    - [CometCore], [CometCoreFacts] ([noxis-comet-abci]: [app.rs],
      [mempool.rs], [heights.rs]): the state machine CometBFT drives, with the
      inductive predicate [reachable] for its states.
    - [BabyBear], [Poseidon2], [Poseidon2Facts] ([noxis-poseidon2-core],
      [noxis-poseidon2-reference]): the field, the optimised and the dense evaluator
      of the permutation, the hashes, the note tree and its paths.
    - [Fips180]: SHA-256 of FIPS 180-4, an instance of the hash parameter.
    - [TreeManifest], [TreeManifestFacts], [ChildManifests], [ChildManifestFacts]
      ([noxis-tree-params]: [p24.rs] and the artifacts below it): frozen parameters,
      their validation, and their derivation by rejection sampling; the evaluators
      read them through records ([P24Manifest], [SparseManifest]) with classes of
      laws.  [P24Parameters], [Poseidon2Frozen]: the checked-in words and the
      permutation they define.
    - [FullTree], [NoteTreeFacts]: complete binary trees as functions of their
      leaves, the specification of every tree evaluator; paths and collisions.
    - [NullifierTree], [NullifierTreeFacts] ([noxis-nullifier-tree-reference],
      [noxis-nullifier-tree-state]): the sparse tree; [represents] ties its stored
      nodes to a set of nullifiers.
    - [PrivateState], [PrivateLedger], [PrivateStateFacts],
      [PrivateTransitionFacts], [PrivateLedgerFacts] ([noxis-private-state]):
      snapshots, anchors, transitions and the private ledger.  [PrivateRecord],
      [PrivateRecordFacts] ([private_state_record.rs]): its record.
    - [Disk], [DiskFacts]: the files of a directory and the outcome of every system
      call on them, with specifications of operations for any outcomes or for calm
      runs.  [PrivateJournal], [PrivateJournalFacts] ([noxis-storage]:
      [private_state_journal.rs], [private_submission_journal.rs]) and
      [PrivateStore], [PrivateStoreFacts] ([private_state_store.rs],
      [private_submission_store.rs], [private_submission_migration.rs]): the two
      journals and the two stores of the private ledger, each pair written once over
      a record of what differs ([JournalKind], [StoreKind]) with the class
      [JournalLaws] between them.  [PrivateStoreRuns], [PrivateMigration]: their
      histories over many processes, and the migration.
    - [NoteHashes], [NoteHashesFacts] ([noxis-poseidon2-privacy-reference]): the
      packing of bytes into field elements and the hashes of keys, notes, nullifiers
      and intents, over the record [PrivacyManifest] and its laws.
    - [NoteOpening], [NoteOpeningFacts] ([noxis-note-opening] and
      [public_inputs.rs] of [noxis-private-proof-contract]): openings of notes, the
      witness that spends one, the statement of a transfer of two inputs and two
      outputs, and the public inputs of its proof.
    - [PrivateValue], [PrivateSpend]: the statement and the private ledger together,
      with a ghost account ([Book]) of the openings behind the commitments.
      [SampleNotes], [PrivateValueSample]: one transfer over the checked-in
      artifacts, with every hash evaluated.

    ** What the theorems show

    - Ledger: a transaction is accepted exactly when an abstract ledger can take
      the step, errors change nothing, nothing is spent twice, issued supply is
      the sum of the mints; snapshots restore the ledger and the state identity
      fixes it.
    - Merkle: the incremental root is the root of the full tree; proofs exist
      for every leaf and open only it.
    - Codecs: every decoder accepts exactly the canonical encodings of valid
      values (transactions, packets, intents, records, configurations, headers,
      certificates, network identities, block payloads, checkpoints).
    - Consensus: the quorum is the strict two-thirds threshold; certificates
      verify exactly under their contract; two conflicting certificates expose
      more than the declared Byzantine power; a block id fixes its records.
    - Execution: a block executes exactly when its transactions have a run of the
      abstract step relation; the invariant is preserved, the list of errors is
      complete, simulation agrees with execution.
    - Durability: every executed block can be stored; whatever system call
      fails, reopening a journal succeeds and finds the tip before or after the
      interrupted commit; a change of one payload byte is detected.  The same
      holds of the record log and its ledger, which opens exactly the logs of
      histories from genesis; checkpoints are published atomically, found again
      and never change what a replay computes.
    - ABCI: every reachable state satisfies the lifecycle invariant, what
      [PrepareProposal] builds [ProcessProposal] accepts, and what is accepted is
      finalized and committed.
    - Poseidon2: the two evaluators are one function, total and canonical on
      canonical inputs; with the frozen parameters the permutation is a bijection.
    - Parameters: each manifest decoder accepts exactly one byte string, and the
      checked-in files give the frozen identities.
    - Trees: the note tree and the sparse nullifier tree compute the root of the
      complete tree; the sparse one refines a set.  An accepted path tells the truth
      or exhibits a collision.
    - Private ledger: a transfer is admitted exactly when the asset, the intent and
      the authorization are in order, it has exactly its effect, and nothing is
      spent or created twice along any run.  Its record is canonical.
    - Notes: the hashes agree with the repository's external test vectors; the
      validator of a transfer accepts exactly a declarative statement; packed public
      inputs determine the intent.  When authorizations prove the statement and no
      hash collides on what a run uses, the private ledger conserves the value of
      every asset, and the owner of two notes can always spend them.
    - Private stores: over any failures and ends of processes, what is stored is the
      result of admitted transfers that include every acknowledged one; without
      failures every admitted transfer is acknowledged; the migration keeps its
      source.  Opening a store that is not there blocks its path.

    ** Fuel and bounds

    [encode_uvarint] runs at most ten rounds on a [u64]; [comet_merkle_hashes]
    and [binary_search] recurse on strictly shorter slices, so the length is
    enough fuel, and the theorems about them show that it is.  The recovery loop
    [stream_loop] uses the length of the file, and [recovery_loop_terminates]
    shows that it never runs out.  The rejection sampler [sample] halves its depth
    32, so it covers the 2^32 values of the counter; [chunks] cuts a list in at most
    its length of pieces.  Decoders take slices of at most [isize::MAX]
    bytes, the largest a Rust slice can be, and files are shorter than 2^64.

    ** Not modelled

    STARK circuits and proof generation, the proof statements, bundles and packets
    other than the public inputs, wallet cryptography and key storage, the test
    corpora of the tree parameters, the protobuf framing and the TCP server of ABCI,
    the configuration documents, the assembly of a node, opening and locking of files (except in
    [Disk], where opening is a call like any other and a lock can be refused), errors
    while reading an open file of the public logs, the durability of directory
    entries (a name that was created, renamed or removed stays so), and all
    [Display] text.  The manifest gives the reason
    for each. *)

From Stdlib Require Export ZArith Lia.
From Stdlib Require Import Strings.Byte Eqdep_dec.
From Stdlib Require Strings.String.
From stdpp Require Export base tactics list gmap sorting countable.
Export list_basics.list list_relations.list list_monad.list list_misc.list list_tactics.list.

#[global] Open Scope Z_scope.

(** ** Results

    Rust's [Result<A, E>], with the error type first so that [Result E] is a
    functor and stdpp's monadic notations apply. *)

Inductive Result (E A : Type) : Type :=
| Ok (value : A)
| Err (error : E).

Arguments Ok {E A} value.
Arguments Err {E A} error.

#[global] Instance result_ret {E} : MRet (Result E) := fun A a => Ok a.

#[global] Instance result_bind {E} : MBind (Result E) :=
  fun A B f m => match m with Ok a => f a | Err e => Err e end.

#[global] Instance result_fmap {E} : FMap (Result E) :=
  fun A B f m => match m with Ok a => Ok (f a) | Err e => Err e end.

(** [Result::map_err]. *)
Definition map_err {E F A} (f : E -> F) (m : Result E A) : Result F A :=
  match m with Ok a => Ok a | Err e => Err (f e) end.

(** [Option::ok_or]. *)
Definition ok_or {E A} (o : option A) (e : E) : Result E A :=
  match o with Some a => Ok a | None => Err e end.

(** [if !condition { return Err(e) }]. *)
Definition ensure {E} (condition : bool) (e : E) : Result E unit :=
  if condition then Ok tt else Err e.

Definition is_ok {E A} (m : Result E A) : bool :=
  match m with Ok _ => true | Err _ => false end.

(** [Iterator::try_fold]. *)
Fixpoint try_fold {E A B} (f : B -> A -> Result E B) (acc : B) (l : list A) : Result E B :=
  match l with
  | [] => Ok acc
  | a :: l => acc ← f acc a; try_fold f acc l
  end.

(** [iter.map(f).collect::<Result<Vec<_>, _>>()]. *)
Fixpoint try_map {E A B} (f : A -> Result E B) (l : list A) : Result E (list B) :=
  match l with
  | [] => Ok []
  | a :: l => b ← f a; bs ← try_map f l; Ok (b :: bs)
  end.

Lemma bind_Ok {E A B} (m : Result E A) (f : A -> Result E B) b :
  m ≫= f = Ok b <-> exists a, m = Ok a /\ f a = Ok b.
Proof. destruct m; cbn; naive_solver. Qed.

Lemma map_err_Ok {E F A} (f : E -> F) (m : Result E A) a :
  map_err f m = Ok a <-> m = Ok a.
Proof. destruct m; cbn; naive_solver. Qed.

Lemma ok_or_Ok {E A} (o : option A) (e : E) a : ok_or o e = Ok a <-> o = Some a.
Proof. destruct o; cbn; naive_solver. Qed.

Lemma ensure_Ok {E} b (e : E) u : ensure b e = Ok u <-> b = true.
Proof. destruct b, u; cbn; naive_solver. Qed.

Lemma try_map_Forall2 {E A B} (f : A -> Result E B) l bs :
  try_map f l = Ok bs <-> Forall2 (fun a b => f a = Ok b) l bs.
Proof.
  revert bs; induction l as [|a l IH]; intros bs; cbn.
  - split; [by intros [= <-]|by intros ->%Forall2_nil_inv_l].
  - rewrite bind_Ok; split.
    + intros (b & Hb & H). apply bind_Ok in H as (bs' & Hbs & [= <-]).
      constructor; [done|]. by apply IH.
    + intros (b & bs' & Hb & Hbs & ->)%Forall2_cons_inv_l.
      exists b; split; [done|]. apply bind_Ok. exists bs'. by rewrite IH.
Qed.

(** [inv_ok] opens every [Result] hypothesis that ended in [Ok]. *)
Ltac inv_ok1 :=
  match goal with
  | H : Ok _ = Ok _ |- _ => injection H as H; subst
  | H : Ok _ = Err _ |- _ => discriminate H
  | H : Err _ = Ok _ |- _ => discriminate H
  | H : Err _ = Err _ |- _ => injection H as H; subst
  | H : @mbind (Result _) _ _ _ _ _ = Ok _ |- _ =>
      let a := fresh "x" in let Ha := fresh "Hx" in
      apply bind_Ok in H as (a & Ha & H)
  | H : map_err _ _ = Ok _ |- _ => apply map_err_Ok in H
  | H : ok_or _ _ = Ok _ |- _ => apply ok_or_Ok in H
  | H : ensure _ _ = Ok _ |- _ => apply ensure_Ok in H
  | H : (if ?b then Err _ else _) = Ok _ |- _ =>
      let Hb := fresh "Hb" in destruct b eqn:Hb; [discriminate H|]
  | H : (if ?b then _ else Err _) = Ok _ |- _ =>
      let Hb := fresh "Hb" in destruct b eqn:Hb; [|discriminate H]
  end.
Ltac inv_ok := repeat inv_ok1.

Ltac destruct_units := repeat match goal with x : unit |- _ => destruct x end.

(** ** State with errors

    A Rust method [fn(&mut self, ..) -> Result<A, E>]: the state it leaves
    behind is observable on both exits, so atomicity is a theorem and not a
    convention. *)

Definition M (S E A : Type) : Type := S -> Result E A * S.

#[global] Instance M_ret {S E} : MRet (M S E) := fun A a s => (Ok a, s).

#[global] Instance M_bind {S E} : MBind (M S E) :=
  fun A B f m s =>
    match m s with
    | (Ok a, s') => f a s'
    | (Err e, s') => (Err e, s')
    end.

Definition get {S E} : M S E S := fun s => (Ok s, s).
Definition put {S E} (s : S) : M S E unit := fun _ => (Ok tt, s).
Definition modify {S E} (f : S -> S) : M S E unit := fun s => (Ok tt, f s).

(** A [&self] computation used inside a [&mut self] method. *)
Definition reads {S E A} (f : S -> Result E A) : M S E A := fun s => (f s, s).
Definition lift {S E A} (r : Result E A) : M S E A := fun s => (r, s).

Lemma M_bind_eq {S E A B} (m : M S E A) (k : A -> M S E B) s :
  (m ≫= k) s =
  match m s with
  | (Ok a, s') => k a s'
  | (Err e, s') => (Err e, s')
  end.
Proof. done. Qed.

Lemma run_Ok {S E A} (p : Result E A * S) a : p.1 = Ok a -> p = (Ok a, p.2).
Proof. destruct p; cbn; by intros ->. Qed.

(** [msimpl] runs the state-and-error monad one bind at a time. *)
Ltac msimpl :=
  repeat (progress (try rewrite !M_bind_eq; cbn [get put modify reads lift mret M_ret ok_or ensure])).

(** ** Machine integers

    Integers are [Z]; a field of Rust type [uN] or [iN] keeps its range as an
    explicit predicate.  [usize] is 64 bits wide. *)

Abbreviation U8_MAX := 255 (only parsing).
Abbreviation U16_MAX := 65535 (only parsing).
Abbreviation U32_MAX := 4294967295 (only parsing).
Abbreviation U64_MAX := 18446744073709551615 (only parsing).
Abbreviation U128_MAX := 340282366920938463463374607431768211455 (only parsing).
Abbreviation USIZE_MAX := 18446744073709551615 (only parsing).
Abbreviation ISIZE_MAX := 9223372036854775807 (only parsing).
Abbreviation I64_MAX := 9223372036854775807 (only parsing).
Abbreviation I64_MIN := (-9223372036854775808) (only parsing).

Abbreviation len l := (Z.of_nat (length l)).

Definition in_range (max x : Z) : Prop := 0 <= x <= max.
Definition in_i64 (x : Z) : Prop := I64_MIN <= x <= I64_MAX.

#[global] Instance in_range_dec max x : Decision (in_range max x).
Proof. unfold in_range. apply _. Defined.

#[global] Instance in_i64_dec x : Decision (in_i64 x).
Proof. unfold in_i64. apply _. Defined.

(** [uN::checked_add] for the [uN] whose largest value is [max]. *)
Definition checked_add (max a b : Z) : option Z :=
  if a + b <=? max then Some (a + b) else None.

(** [i64::checked_add] and [i64::checked_sub] of an already computed sum. *)
Definition checked_i64 (z : Z) : option Z :=
  if (I64_MIN <=? z) && (z <=? I64_MAX) then Some z else None.

(** [uN::try_from]. *)
Definition try_from (max z : Z) : option Z :=
  if (0 <=? z) && (z <=? max) then Some z else None.

(** [value as u64] followed by [as i64]: reinterpretation of 64 bits. *)
Definition as_i64 (z : Z) : Z :=
  let u := z mod 2 ^ 64 in if u <=? I64_MAX then u else u - 2 ^ 64.

Lemma checked_add_Some max a b c :
  checked_add max a b = Some c <-> c = a + b /\ a + b <= max.
Proof. unfold checked_add. case_match eqn:H; rewrite ?Z.leb_le, ?Z.leb_gt in H; naive_solver lia. Qed.

Lemma checked_add_None max a b : checked_add max a b = None <-> max < a + b.
Proof. unfold checked_add. case_match eqn:H; rewrite ?Z.leb_le, ?Z.leb_gt in H; naive_solver lia. Qed.

Lemma checked_i64_Some z c : checked_i64 z = Some c <-> c = z /\ in_i64 z.
Proof.
  unfold checked_i64, in_i64.
  destruct (Z.leb_spec I64_MIN z), (Z.leb_spec z I64_MAX); cbn; naive_solver lia.
Qed.

Lemma try_from_Some max z c : try_from max z = Some c <-> c = z /\ in_range max z.
Proof.
  unfold try_from, in_range.
  destruct (Z.leb_spec 0 z), (Z.leb_spec z max); cbn; naive_solver lia.
Qed.

Lemma ok_or_try_from {E} max z (e : E) : in_range max z -> ok_or (try_from max z) e = Ok z.
Proof. intros Hz. by rewrite (proj2 (try_from_Some max z z)). Qed.

Lemma list_two_ind {A} (P : list A -> Prop) :
  P [] -> (forall a, P [a]) -> (forall a b l, P l -> P (a :: b :: l)) -> forall l, P l.
Proof.
  intros H0 H1 H2. fix go 1. intros [|a [|b l]]; [exact H0|apply H1|apply H2, go].
Qed.

Lemma forallb_Forall {A} (f : A -> bool) l :
  forallb f l = true <-> Forall (fun x => f x = true) l.
Proof.
  rewrite forallb_forall, Forall_forall.
  by setoid_rewrite list_elem_of_In.
Qed.

Lemma Z_even_of_nat n : Z.even (Z.of_nat n) = Nat.even n.
Proof.
  destruct (Nat.even n) eqn:He.
  - apply Nat.even_spec in He as [k ->]. apply Z.even_spec. exists (Z.of_nat k). lia.
  - assert (Nat.odd n = true) as [k ->]%Nat.odd_spec by (unfold Nat.odd; by rewrite He).
    rewrite <-Z.negb_odd. apply negb_false_iff, Z.odd_spec. exists (Z.of_nat k). lia.
Qed.

Lemma land_1_even z : (Z.land z 1 =? 0) = Z.even z.
Proof.
  change 1 with (Z.ones 1). rewrite Z.land_ones by lia. change (2 ^ 1) with 2.
  rewrite Zmod_even. by destruct (Z.even z).
Qed.

(** [zbool] turns boolean comparisons in the context into propositions. *)
Ltac zbool :=
  repeat match goal with
  | H : _ && _ = true |- _ => apply andb_true_iff in H as [? ?]
  | H : _ || _ = false |- _ => apply orb_false_iff in H as [? ?]
  | H : negb _ = true |- _ => apply negb_true_iff in H
  | H : negb _ = false |- _ => apply negb_false_iff in H
  | H : (_ =? _) = true |- _ => apply Z.eqb_eq in H
  | H : (_ =? _) = false |- _ => apply Z.eqb_neq in H
  | H : (_ <=? _) = true |- _ => apply Z.leb_le in H
  | H : (_ <=? _) = false |- _ => apply Z.leb_gt in H
  | H : (_ <? _) = true |- _ => apply Z.ltb_lt in H
  | H : (_ <? _) = false |- _ => apply Z.ltb_ge in H
  | H : forallb _ _ = true |- _ => apply forallb_Forall in H
  | H : bool_decide _ = true |- _ => apply bool_decide_eq_true in H
  | H : bool_decide _ = false |- _ => apply bool_decide_eq_false in H
  end.

(** ** Bytes *)

#[global] Instance byte_eq_dec : EqDecision byte := Byte.byte_eq_dec.

Definition Z_of_byte (b : byte) : Z := Z.of_N (Byte.to_N b).

(** [z as u8]. *)
Definition byte_of_Z (z : Z) : byte :=
  match Byte.of_N (Z.to_N (z mod 256)) with Some b => b | None => x00 end.

(** A byte-string literal [b"..."]. *)
Definition bytes_of_string (s : String.string) : list byte := String.list_byte_of_string s.

Lemma Z_of_byte_range b : 0 <= Z_of_byte b < 256.
Proof. unfold Z_of_byte. pose proof (Byte.to_N_bounded b). lia. Qed.

Lemma byte_of_Z_of_byte b : byte_of_Z (Z_of_byte b) = b.
Proof.
  unfold byte_of_Z. pose proof (Z_of_byte_range b). rewrite Z.mod_small by done.
  unfold Z_of_byte. by rewrite N2Z.id, Byte.of_to_N.
Qed.

Lemma Z_of_byte_of_Z z : Z_of_byte (byte_of_Z z) = z mod 256.
Proof.
  unfold byte_of_Z. pose proof (Z.mod_pos_bound z 256 ltac:(lia)).
  destruct (Byte.of_N _) as [b|] eqn:Hb.
  - apply Byte.to_of_N in Hb. unfold Z_of_byte. rewrite Hb. lia.
  - apply Byte.of_N_None_iff in Hb. lia.
Qed.

#[global] Instance Z_of_byte_inj : Inj (=) (=) Z_of_byte.
Proof. intros a b H. by rewrite <-(byte_of_Z_of_byte a), H, byte_of_Z_of_byte. Qed.

(** Fixed-width encodings: [to_le_bytes], [to_be_bytes] and their inverses. *)
Fixpoint to_le_bytes (n : nat) (z : Z) : list byte :=
  match n with
  | O => []
  | S n => byte_of_Z z :: to_le_bytes n (z / 256)
  end.

Fixpoint from_le_bytes (l : list byte) : Z :=
  match l with
  | [] => 0
  | b :: l => Z_of_byte b + 256 * from_le_bytes l
  end.

Definition to_be_bytes (n : nat) (z : Z) : list byte := rev (to_le_bytes n z).
Definition from_be_bytes (l : list byte) : Z := from_le_bytes (rev l).

Lemma length_to_le_bytes n z : length (to_le_bytes n z) = n.
Proof. revert z; induction n; intros; cbn; auto. Qed.

Lemma length_to_be_bytes n z : length (to_be_bytes n z) = n.
Proof. unfold to_be_bytes. by rewrite length_rev, length_to_le_bytes. Qed.

Lemma from_le_bytes_range l : 0 <= from_le_bytes l < 256 ^ len l.
Proof.
  induction l as [|b l IH]; cbn [length from_le_bytes]; [done|].
  pose proof (Z_of_byte_range b).
  rewrite Nat2Z.inj_succ, Z.pow_succ_r by lia. lia.
Qed.

Lemma from_to_le_bytes n z : from_le_bytes (to_le_bytes n z) = z mod 256 ^ Z.of_nat n.
Proof.
  revert z; induction n as [|n IH]; intros z; cbn [to_le_bytes from_le_bytes].
  - by rewrite Z.mod_1_r.
  - rewrite IH, Z_of_byte_of_Z, Nat2Z.inj_succ, Z.pow_succ_r by lia.
    rewrite Z.rem_mul_r by lia. lia.
Qed.

Lemma to_from_le_bytes l : to_le_bytes (length l) (from_le_bytes l) = l.
Proof.
  induction l as [|b l IH]; cbn [to_le_bytes from_le_bytes length]; [done|].
  pose proof (Z_of_byte_range b). f_equal.
  - rewrite <-(byte_of_Z_of_byte b) at 2. unfold byte_of_Z. do 2 f_equal.
    by rewrite (Z.mul_comm 256), Z_mod_plus_full.
  - etransitivity; [|exact IH]. f_equal.
    rewrite (Z.mul_comm 256), Z.div_add, (Z.div_small (Z_of_byte b)) by lia. lia.
Qed.

Lemma from_be_bytes_range l : 0 <= from_be_bytes l < 256 ^ len l.
Proof. unfold from_be_bytes. rewrite <-(length_rev l). apply from_le_bytes_range. Qed.

Lemma from_to_be_bytes n z : from_be_bytes (to_be_bytes n z) = z mod 256 ^ Z.of_nat n.
Proof. unfold from_be_bytes, to_be_bytes. by rewrite rev_involutive, from_to_le_bytes. Qed.

Lemma to_from_be_bytes n l : length l = n -> to_be_bytes n (from_be_bytes l) = l.
Proof.
  intros <-. unfold from_be_bytes, to_be_bytes.
  by rewrite <-(length_rev l), to_from_le_bytes, rev_involutive.
Qed.

Lemma from_be_bytes_inj l1 l2 :
  length l1 = length l2 -> from_be_bytes l1 = from_be_bytes l2 -> l1 = l2.
Proof.
  intros Hl H. rewrite <-(to_from_be_bytes (length l1) l1), H by done.
  by apply to_from_be_bytes.
Qed.

Lemma from_le_bytes_snoc l b :
  from_le_bytes (l ++ [b]) = from_le_bytes l + 256 ^ len l * Z_of_byte b.
Proof.
  induction l as [|c l IH]; cbn [from_le_bytes app length].
  - cbn. lia.
  - rewrite IH, Nat2Z.inj_succ, Z.pow_succ_r by lia. lia.
Qed.

Lemma from_be_bytes_cons b l :
  from_be_bytes (b :: l) = 256 ^ len l * Z_of_byte b + from_be_bytes l.
Proof. unfold from_be_bytes. cbn [rev]. rewrite from_le_bytes_snoc, length_rev. lia. Qed.

Lemma to_be_bytes_1 z : to_be_bytes 1 z = [byte_of_Z z].
Proof. done. Qed.

Lemma from_be_bytes_1 b : from_be_bytes [b] = Z_of_byte b.
Proof. cbn. lia. Qed.

#[global] Arguments to_le_bytes : simpl never.
#[global] Arguments to_be_bytes : simpl never.
#[global] Arguments from_le_bytes : simpl never.
#[global] Arguments from_be_bytes : simpl never.

(** [by_eval] closes a decidable closed goal by evaluation. *)
Ltac by_eval :=
  vm_compute; repeat split; try reflexivity;
  try (let H := fresh in intro H; discriminate H).
