(* ===== verification/Arrays.v ===== *)
(** * Fixed-width byte arrays, their order, and sorting

    [[u8; N]] values of the source ([AssetId], [Commitment], [StateId], ... and
    the 64-byte privacy vectors) are lists of bytes that carry a decidable
    length proof, so two arrays are equal exactly when their bytes are.  The
    derived [Ord] of such a newtype is the lexicographic order on bytes, which
    is shown to be the order of the big-endian values; every [sort_unstable*]
    and every strictly-sorted check of the ledger and of the consensus data is
    stated over it. *)

From Stdlib Require Import Strings.Byte Eqdep_dec.
From S2P Require Import Prelude.

(** ** Arrays *)

Record array (n : nat) : Type := mk_array {
  arr : list byte;
  arr_len : (length arr =? n)%nat = true
}.
Arguments mk_array {n} arr arr_len.
Arguments arr {n} a : rename.
Arguments arr_len {n} a : rename.

(** A proof of a true boolean that reduces to [eq_refl] on closed data. *)
Definition norm_true {b : bool} : b = true -> b = true :=
  match b with true => fun _ => eq_refl | false => fun H => H end.

Lemma length_arr {n} (a : array n) : length (arr a) = n.
Proof. destruct a as [l H]. by apply Nat.eqb_eq. Qed.

Lemma array_eq {n} (a b : array n) : arr a = arr b -> a = b.
Proof.
  destruct a as [la Ha], b as [lb Hb]; cbn; intros ->. f_equal.
  apply UIP_dec, bool_dec.
Qed.

#[global] Instance arr_inj {n} : Inj (=) (=) (@arr n).
Proof. intros a b. apply array_eq. Qed.

#[global] Instance array_eq_dec n : EqDecision (array n).
Proof.
  refine (fun a b => match decide (arr a = arr b) with left H => left (array_eq a b H) | right H => right _ end).
  abstract congruence.
Defined.

(** [<[u8; N]>::try_from(slice)]. *)
Definition try_into (n : nat) (l : list byte) : option (array n) :=
  match bool_dec (length l =? n)%nat true with
  | left H => Some (mk_array l (norm_true H))
  | right _ => None
  end.

Lemma length_take_arr n (l : list byte) : length l = n -> (length l =? n)%nat = true.
Proof. apply Nat.eqb_eq. Qed.

(** The array literal [[b; N]]. *)
Definition fill (n : nat) (b : byte) : array n :=
  mk_array (repeat b n) (norm_true (length_take_arr n _ (repeat_length b n))).

Lemma try_into_Some n l a : try_into n l = Some a <-> arr a = l.
Proof.
  unfold try_into. destruct (bool_dec _ _) as [H|H]; split.
  - by intros [= <-].
  - intros <-. f_equal. by apply array_eq.
  - done.
  - intros <-. destruct H. apply arr_len.
Qed.

Lemma try_into_arr {n} (a : array n) : try_into n (arr a) = Some a.
Proof. by apply try_into_Some. Qed.

Lemma try_into_is_Some n l : length l = n -> exists a, try_into n l = Some a /\ arr a = l.
Proof.
  intros H. unfold try_into. destruct (bool_dec _ _) as [Hb|Hb]; [by eexists|].
  destruct Hb. by apply Nat.eqb_eq.
Qed.

(** ** Lexicographic order *)

(** [Ord for [u8]]: bytewise, the shorter prefix first. *)
Fixpoint bytes_compare (a b : list byte) : comparison :=
  match a, b with
  | [], [] => Eq
  | [], _ :: _ => Lt
  | _ :: _, [] => Gt
  | x :: a, y :: b =>
      match Z_of_byte x ?= Z_of_byte y with
      | Eq => bytes_compare a b
      | c => c
      end
  end.

Lemma bytes_compare_be l1 l2 :
  length l1 = length l2 ->
  bytes_compare l1 l2 = (from_be_bytes l1 ?= from_be_bytes l2).
Proof.
  revert l2; induction l1 as [|x l1 IH]; intros [|y l2]; intros Hl; try done.
  cbn [bytes_compare]. injection Hl as Hl.
  rewrite !from_be_bytes_cons, Hl.
  pose proof (from_be_bytes_range l1) as H1. pose proof (from_be_bytes_range l2) as H2.
  rewrite Hl in H1.
  destruct (Z.compare_spec (Z_of_byte x) (Z_of_byte y)) as [->|H|H].
  - rewrite IH by done. symmetry. apply Z.add_compare_mono_l.
  - symmetry. apply Z.compare_lt_iff. nia.
  - symmetry. apply Z.compare_gt_iff. nia.
Qed.

(** The big-endian value of an array. *)
Definition be {n} (a : array n) : Z := from_be_bytes (arr a).

#[global] Instance be_inj {n} : Inj (=) (=) (@be n).
Proof.
  intros a b H. apply array_eq, from_be_bytes_inj; [|done]. by rewrite !length_arr.
Qed.

Definition array_le {n} (a b : array n) : Prop := bytes_compare (arr a) (arr b) <> Gt.
Definition array_lt {n} (a b : array n) : Prop := bytes_compare (arr a) (arr b) = Lt.

#[global] Instance array_le_dec {n} : RelDecision (@array_le n).
Proof. intros a b. unfold array_le. apply _. Defined.

#[global] Instance array_lt_dec {n} : RelDecision (@array_lt n).
Proof. intros a b. unfold array_lt. apply _. Defined.

Lemma array_le_be {n} (a b : array n) : array_le a b <-> be a <= be b.
Proof. unfold array_le. rewrite bytes_compare_be by (by rewrite !length_arr). done. Qed.

Lemma array_lt_be {n} (a b : array n) : array_lt a b <-> be a < be b.
Proof. unfold array_lt. rewrite bytes_compare_be by (by rewrite !length_arr). done. Qed.

#[global] Instance array_le_total {n} : Total (@array_le n).
Proof. intros a b. rewrite !array_le_be. lia. Qed.

#[global] Instance array_le_trans {n} : Transitive (@array_le n).
Proof. intros a b c. rewrite !array_le_be. lia. Qed.

#[global] Instance array_lt_trans {n} : Transitive (@array_lt n).
Proof. intros a b c. rewrite !array_lt_be. lia. Qed.

#[global] Instance array_lt_irrefl {n} : Irreflexive (@array_lt n).
Proof. intros a. unfold complement. rewrite array_lt_be. lia. Qed.

#[global] Instance array_lt_antisymm {n} : AntiSymm (=) (@array_lt n).
Proof. intros a b. rewrite !array_lt_be. lia. Qed.

Lemma array_le_lt_eq {n} (a b : array n) : array_le a b <-> array_lt a b \/ a = b.
Proof.
  rewrite array_le_be, array_lt_be. split.
  - intros. destruct (decide (be a = be b)) as [?%be_inj|]; [by right|left; lia].
  - intros [?| ->]; lia.
Qed.

Lemma array_not_lt {n} (a b : array n) : ~ array_lt a b <-> array_le b a.
Proof. rewrite array_le_be, array_lt_be. lia. Qed.

(** Arrays as keys of finite maps and sets: the big-endian value is an
    injective code. *)
Lemma array_code_inv {n} (a : array n) :
  try_into n (to_be_bytes n (Z.pred (Zpos (Z.to_pos (Z.succ (be a)))))) = Some a.
Proof.
  pose proof (from_be_bytes_range (arr a)) as H.
  rewrite Z2Pos.id by (unfold be; lia). rewrite Z.pred_succ. unfold be.
  rewrite to_from_be_bytes by apply length_arr. apply try_into_arr.
Qed.

#[global] Instance array_countable n : Countable (array n) := {|
  encode a := Z.to_pos (Z.succ (be a));
  decode p := try_into n (to_be_bytes n (Z.pred (Zpos p)));
  decode_encode := array_code_inv
|}.

(** Byte strings as keys. *)
Lemma byte_code_inv (b : byte) : byte_of_Z <$> decode (encode (Z_of_byte b)) = Some b.
Proof. rewrite decode_encode. cbn. by rewrite byte_of_Z_of_byte. Qed.

#[global] Instance byte_countable : Countable byte := {|
  encode b := encode (Z_of_byte b);
  decode p := byte_of_Z <$> decode p;
  decode_encode := byte_code_inv
|}.

(** ** Sorting *)

(** [sort_unstable_by_key].  Where two elements share a key the source's order
    between them is unspecified; every use either has distinct keys or rejects
    a repeated key afterwards. *)
Definition sort_by_key {A n} (key : A -> array n) (l : list A) : list A :=
  merge_sort (fun a b => array_le (key a) (key b)) l.

(** [items.windows(2).all(|pair| pair[0] < pair[1])]. *)
Fixpoint strictly_sorted {n} (l : list (array n)) : bool :=
  match l with
  | a :: ((b :: _) as l') => bool_decide (array_lt a b) && strictly_sorted l'
  | _ => true
  end.

Lemma strictly_sorted_StronglySorted {n} (l : list (array n)) :
  strictly_sorted l = true <-> StronglySorted array_lt l.
Proof.
  split.
  - intros H. apply Sorted_StronglySorted; [apply _|].
    induction l as [|a [|b l] IH]; [constructor|repeat constructor|].
    cbn in H. zbool. constructor; [by apply IH|by constructor].
  - intros H%StronglySorted_Sorted.
    induction H as [|a l H IH Hhd]; [done|].
    destruct l as [|b l]; [done|]. cbn. inversion_clear Hhd.
    rewrite bool_decide_eq_true_2 by done. done.
Qed.

Section SortByKey.
Context {A : Type} {n : nat} (key : A -> array n).

Lemma sort_by_key_Permutation l : sort_by_key key l ≡ₚ l.
Proof. apply merge_sort_Permutation. Qed.

Lemma sort_by_key_Sorted l :
  StronglySorted (fun a b => array_le (key a) (key b)) (sort_by_key key l).
Proof.
  apply StronglySorted_merge_sort.
  - intros a b c. apply array_le_trans.
  - intros a b. apply array_le_total.
Qed.

(** With distinct keys the sorted order is strict. *)
Lemma sort_by_key_strict l :
  NoDup (key <$> l) -> strictly_sorted (key <$> sort_by_key key l) = true.
Proof.
  intros Hnd. apply strictly_sorted_StronglySorted.
  assert (NoDup (key <$> sort_by_key key l)) as Hnd'
    by (by rewrite sort_by_key_Permutation).
  pose proof (sort_by_key_Sorted l) as Hs. revert Hnd'.
  induction Hs as [|a s Hs IH Hall]; cbn; [constructor|].
  intros [Hni Hnd']%NoDup_cons. constructor; [by apply IH|].
  apply Forall_fmap, Forall_forall. intros b Hb.
  rewrite Forall_forall in Hall.
  destruct (proj1 (array_le_lt_eq _ _) (Hall b Hb)) as [?|Heq]; [done|].
  destruct Hni. rewrite Heq. by apply list_elem_of_fmap_2.
Qed.

End SortByKey.

Lemma strictly_sorted_NoDup {n} (l : list (array n)) : strictly_sorted l = true -> NoDup l.
Proof.
  rewrite strictly_sorted_StronglySorted.
  induction 1 as [|a l H IH Hall]; constructor; [|done].
  intros Ha. rewrite Forall_forall in Hall.
  by apply (irreflexivity array_lt a), Hall.
Qed.

(** A strictly sorted listing of a set is unique. *)
Lemma strictly_sorted_unique {n} (l1 l2 : list (array n)) :
  strictly_sorted l1 = true -> strictly_sorted l2 = true -> l1 ≡ₚ l2 -> l1 = l2.
Proof.
  rewrite !strictly_sorted_StronglySorted. apply StronglySorted_unique, _.
Qed.

Lemma StronglySorted_fmap_iff {A n} (key : A -> array n) (l : list A) :
  StronglySorted array_lt (key <$> l) <-> StronglySorted (fun a b => array_lt (key a) (key b)) l.
Proof.
  induction l as [|a l IH]; cbn; [split; constructor|].
  by rewrite !StronglySorted_cons, IH, Forall_fmap.
Qed.

(** A list with strictly increasing keys is determined by its elements. *)
Lemma keyed_sorted_unique {A n} (key : A -> array n) (l1 l2 : list A) :
  strictly_sorted (key <$> l1) = true -> strictly_sorted (key <$> l2) = true -> l1 ≡ₚ l2 -> l1 = l2.
Proof.
  rewrite !strictly_sorted_StronglySorted, !StronglySorted_fmap_iff.
  apply StronglySorted_unique_strong. intros a b _ _ Hab Hba.
  exfalso. apply (irreflexivity array_lt (key a)). by trans (key b).
Qed.

(** Sorting a set of identifiers. *)
Lemma sort_elements_strict {n} (X : gset (array n)) :
  strictly_sorted (sort_by_key id (elements X)) = true.
Proof.
  rewrite <-(list_fmap_id (sort_by_key id (elements X))). apply sort_by_key_strict.
  rewrite list_fmap_id. apply NoDup_elements.
Qed.

Lemma list_to_set_sort {n} (X : gset (array n)) :
  list_to_set (sort_by_key id (elements X)) = X.
Proof.
  apply set_eq. intros x. rewrite elem_of_list_to_set, sort_by_key_Permutation.
  apply elem_of_elements.
Qed.

Lemma sort_elements_list_to_set {n} (l : list (array n)) :
  strictly_sorted l = true -> sort_by_key id (elements (list_to_set l : gset (array n))) = l.
Proof.
  intros Hl. apply strictly_sorted_unique; [apply sort_elements_strict|done|].
  rewrite sort_by_key_Permutation. apply elements_list_to_set. by apply strictly_sorted_NoDup.
Qed.

(** ** Prefix-free encodings

    The hashed preimages of the protocol are concatenations of fields.  A field
    encoder is prefix free on its well-formed values when the value and the
    rest of the input can both be read back, which is what makes a
    concatenation injective. *)

Class PrefixFree {A} (wf : A -> Prop) (enc : A -> list byte) : Prop :=
  prefix_free x y r1 r2 : wf x -> wf y -> enc x ++ r1 = enc y ++ r2 -> x = y /\ r1 = r2.

#[global] Instance prefix_free_be n : PrefixFree (fun z => 0 <= z < 256 ^ Z.of_nat n) (to_be_bytes n).
Proof.
  intros x y r1 r2 Hx Hy He.
  apply app_inj_1 in He as [He ->]; [|by rewrite !length_to_be_bytes]. split; [|done].
  apply (f_equal from_be_bytes) in He. rewrite !from_to_be_bytes, !Z.mod_small in He; done.
Qed.

#[global] Instance prefix_free_arr n : PrefixFree (fun _ : array n => True) arr.
Proof.
  intros x y r1 r2 _ _ He.
  by apply app_inj_1 in He as [->%array_eq ->]; [|by rewrite !length_arr].
Qed.

(** Items that follow one another, when their number is known. *)
Lemma prefix_free_concat {A} (wf : A -> Prop) (enc : A -> list byte) `{!PrefixFree wf enc} xs ys r1 r2 :
  length xs = length ys -> Forall wf xs -> Forall wf ys ->
  concat (enc <$> xs) ++ r1 = concat (enc <$> ys) ++ r2 -> xs = ys /\ r1 = r2.
Proof.
  intros Hl Hx. revert ys Hl. induction Hx as [|x xs Hx Hxs IH]; intros [|y ys] Hl Hy He; try done.
  injection Hl as Hl. apply Forall_cons in Hy as [Hy Hys].
  cbn in He. rewrite <-!app_assoc in He.
  apply (prefix_free x y) in He as [-> He]; [|done..].
  by apply IH in He as [-> ->].
Qed.

(** A [u32] count followed by that many items. *)
Definition counted {A} (enc : A -> list byte) (xs : list A) : list byte :=
  to_be_bytes 4 (len xs) ++ concat (enc <$> xs).

#[global] Instance prefix_free_counted {A} (wf : A -> Prop) (enc : A -> list byte) :
  PrefixFree wf enc ->
  PrefixFree (fun xs => len xs <= U32_MAX /\ Forall wf xs) (counted enc).
Proof.
  intros Henc xs ys r1 r2 [Hx Hwx] [Hy Hwy] He. unfold counted in He. rewrite <-!app_assoc in He.
  apply (prefix_free (len xs) (len ys)) in He as [Hl He]; [|lia..].
  apply Nat2Z.inj in Hl. by eapply (prefix_free_concat wf enc).
Qed.

(** A [u32] length followed by the bytes themselves. *)
Lemma prefix_free_sized k xs ys r1 r2 :
  len xs < 256 ^ Z.of_nat k -> len ys < 256 ^ Z.of_nat k ->
  to_be_bytes k (len xs) ++ xs ++ r1 = to_be_bytes k (len ys) ++ ys ++ r2 ->
  xs = ys /\ r1 = r2.
Proof.
  intros Hx Hy He. apply (prefix_free (len xs) (len ys)) in He as [Hl He]; [|lia..].
  apply Nat2Z.inj in Hl. by apply app_inj_1 in He.
Qed.
