(* ===== verification/Reader.v ===== *)
(** * The bounded byte reader shared by the decoders

    [noxis-codec], [noxis-record-chain], [noxis-consensus], [noxis-checkpoint]
    and the block journal each carry a private [Reader] with the same code: a
    slice, an offset, a [read_exact] that checks the addition and the range, and
    a [finish] that rejects trailing bytes.  They differ only in the error enum,
    which is the [ReadError] class here.

    A decoder is a program of the state-and-error monad over [Reader].  The
    predicate [parse_spec p P] gives it a grammar: [P x bs] says that the bytes
    [bs] are an encoding of [x], and the decoder accepts exactly those.  The
    combinator lemmas below build the grammar of a decoder from the grammars of
    its fields, so the exactness of a whole format ([decode] accepts a byte
    string if and only if [encode] produces it) follows field by field. *)

From Stdlib Require Import Strings.Byte.
From S2P Require Import Prelude Arrays.

Record Reader : Type := mk_reader { bytes : list byte; offset : Z }.

(** The three errors a crate's [Reader] can raise. *)
Class ReadError (E : Type) : Type := {
  UnexpectedEnd : Z -> E;
  LengthOverflow : E;
  TrailingBytes : Z -> E
}.

(** [slice.get(start..end)]. *)
Definition get_range (l : list byte) (start stop : Z) : option (list byte) :=
  if (start <=? stop) && (stop <=? len l)
  then Some (take (Z.to_nat (stop - start)) (drop (Z.to_nat start) l))
  else None.

Section Operations.
Context {E : Type} `{!ReadError E}.

Definition new (bytes : list byte) : Reader := mk_reader bytes 0.

Definition read_exact (length : Z) : M Reader E (list byte) :=
  fun self =>
    match checked_add USIZE_MAX (offset self) length with
    | None => (Err LengthOverflow, self)
    | Some stop =>
        match get_range (bytes self) (offset self) stop with
        | None => (Err (UnexpectedEnd (offset self)), self)
        | Some slice => (Ok slice, mk_reader (bytes self) stop)
        end
    end.

Definition read_array (n : nat) : M Reader E (array n) :=
  slice ← read_exact (Z.of_nat n);
  self ← get;
  lift (ok_or (try_into n slice) (UnexpectedEnd (offset self))).

(** [self.read_exact(1)?[0]]; an empty slice cannot come back, the default is
    unreachable. *)
Definition read_u8 : M Reader E Z :=
  slice ← read_exact 1; mret (Z_of_byte (hd x00 slice)).

Definition read_u16 : M Reader E Z := a ← read_array 2; mret (from_be_bytes (arr a)).
Definition read_u32 : M Reader E Z := a ← read_array 4; mret (from_be_bytes (arr a)).
Definition read_u64 : M Reader E Z := a ← read_array 8; mret (from_be_bytes (arr a)).
Definition read_u128 : M Reader E Z := a ← read_array 16; mret (from_be_bytes (arr a)).

(** [self.bytes.len().saturating_sub(self.offset)]. *)
Definition remaining (self : Reader) : Z := Z.max 0 (len (bytes self) - offset self).

Definition finish : M Reader E unit :=
  self ← get;
  lift (ensure (remaining self =? 0) (TrailingBytes (remaining self))).

(** [for _ in 0..n { items.push(read(reader)?) }]. *)
Fixpoint read_n {A} (n : nat) (p : M Reader E A) : M Reader E (list A) :=
  match n with
  | O => mret []
  | S n => x ← p; xs ← read_n n p; mret (x :: xs)
  end.

(** The same with the index of the item, from [index] on. *)
Fixpoint read_indexed {A} (p : Z -> M Reader E A) (index : Z) (n : nat) : M Reader E (list A) :=
  match n with
  | O => mret []
  | S n => x ← p index; xs ← read_indexed p (index + 1) n; mret (x :: xs)
  end.

(** Run a decoder on a whole slice. *)
Definition run {A} (p : M Reader E A) (bytes : list byte) : Result E A := fst (p (new bytes)).

End Operations.

(** [if reader.read_array::<4>()? != magic { return Err(error) }]. *)
Definition read_magic {E} `{!ReadError E} (magic : list byte) (error : E) : M Reader E unit :=
  found ← read_array 4;
  lift (ensure (bool_decide (arr found = magic)) error).

(** [if version != expected { return Err(error(version)) }]. *)
Definition read_version {E} `{!ReadError E} (expected : Z) (error : Z -> E) : M Reader E unit :=
  version ← read_u16;
  lift (ensure (version =? expected) (error version)).

(** [if value > maximum { return Err(error(value)) }] after a [read_u32]. *)
Definition read_u32_at_most {E} `{!ReadError E} (maximum : Z) (error : Z -> E) : M Reader E Z :=
  value ← read_u32;
  if maximum <? value then lift (Err (error value)) else mret value.

(** ** Grammars *)

(** Rust slices hold at most [isize::MAX] bytes, and the offset never leaves
    the slice. *)
Definition reader_ok (r : Reader) : Prop := 0 <= offset r <= len (bytes r) /\ len (bytes r) <= ISIZE_MAX.

Definition rest (r : Reader) : list byte := drop (Z.to_nat (offset r)) (bytes r).
Definition advance (r : Reader) (n : Z) : Reader := mk_reader (bytes r) (offset r + n).

Record parse_spec {E A} (p : M Reader E A) (P : A -> list byte -> Prop) : Prop := mk_parse_spec {
  parse_complete r x bs tl :
    reader_ok r -> P x bs -> rest r = bs ++ tl -> p r = (Ok x, advance r (len bs));
  parse_sound r x r' :
    reader_ok r -> p r = (Ok x, r') ->
    exists bs, P x bs /\ rest r = bs ++ rest r' /\ r' = advance r (len bs)
}.
Arguments parse_complete {E A p P} _ r x bs tl.
Arguments parse_sound {E A p P} _ r x r'.

Lemma advance_0 r : advance r 0 = r.
Proof. destruct r as [bs o]. unfold advance. cbn. f_equal. lia. Qed.

Lemma advance_advance r m n : advance (advance r m) n = advance r (m + n).
Proof. unfold advance. cbn. f_equal. lia. Qed.

Lemma rest_advance r bs tl : reader_ok r -> rest r = bs ++ tl -> rest (advance r (len bs)) = tl.
Proof.
  intros [Ho _]. unfold rest, advance. cbn. intros H.
  rewrite Z2Nat.inj_add, Nat2Z.id by lia. rewrite <-drop_drop, H. apply drop_app_length.
Qed.

Lemma rest_length r : reader_ok r -> len (rest r) = len (bytes r) - offset r.
Proof. intros [Ho _]. unfold rest. rewrite length_drop. lia. Qed.

Lemma advance_ok r bs tl : reader_ok r -> rest r = bs ++ tl -> reader_ok (advance r (len bs)).
Proof.
  intros Hr H. pose proof (rest_length r Hr) as Hl. rewrite H, length_app in Hl.
  destruct Hr. unfold advance, reader_ok. cbn. lia.
Qed.

Lemma new_ok bs : len bs <= ISIZE_MAX -> reader_ok (new bs).
Proof. unfold reader_ok, new. cbn. lia. Qed.

Lemma rest_new bs : rest (new bs) = bs.
Proof. done. Qed.

Lemma M_bind_Ok {S E A B} (m : M S E A) (k : A -> M S E B) s b s' :
  (m ≫= k) s = (Ok b, s') <-> exists a s0, m s = (Ok a, s0) /\ k a s0 = (Ok b, s').
Proof.
  unfold mbind, M_bind. destruct (m s) as [[a|e] s0].
  - split; [by eauto|]. intros (? & ? & [= -> ->] & ?). done.
  - split; [done|]. by intros (? & ? & ? & ?).
Qed.

Lemma M_bind_run {S E A B} (m : M S E A) (k : A -> M S E B) s a s0 :
  m s = (Ok a, s0) -> (m ≫= k) s = k a s0.
Proof. intros H. unfold mbind, M_bind. by rewrite H. Qed.

Section Grammar.
Context {E : Type} `{!ReadError E}.

Lemma parse_spec_proper {A} (p : M Reader E A) P Q :
  (forall x bs, P x bs <-> Q x bs) -> parse_spec p P -> parse_spec p Q.
Proof.
  intros H [Hc Hs]. split.
  - intros r x bs tl Hr HQ%H. by eapply Hc.
  - intros r x r' Hr Hp. destruct (Hs r x r' Hr Hp) as (bs & HP & ?).
    exists bs. by rewrite <-H.
Qed.

Lemma parse_spec_ret {A} (a : A) :
  parse_spec (mret a : M Reader E A) (fun x bs => x = a /\ bs = []).
Proof.
  split.
  - intros r x bs tl _ [-> ->] _. cbn. by rewrite advance_0.
  - intros r x r' _ [= -> ->]. exists []. cbn. by rewrite advance_0.
Qed.

Lemma parse_spec_lift {A} (m : Result E A) :
  parse_spec (lift m : M Reader E A) (fun x bs => m = Ok x /\ bs = []).
Proof.
  split.
  - intros r x bs tl _ [-> ->] _. cbn. by rewrite advance_0.
  - intros r x r' _ [= -> ->]. exists []. cbn. by rewrite advance_0.
Qed.

Lemma parse_spec_bind {A B} (p : M Reader E A) (k : A -> M Reader E B) P Q :
  parse_spec p P -> (forall a, parse_spec (k a) (Q a)) ->
  parse_spec (p ≫= k) (fun y bs => exists x bs1 bs2, P x bs1 /\ Q x y bs2 /\ bs = bs1 ++ bs2).
Proof.
  intros [Hc Hs] Hk. split.
  - intros r y bs tl Hr (x & bs1 & bs2 & HP & HQ & ->) Hrest.
    rewrite <-app_assoc in Hrest.
    rewrite (M_bind_run _ _ _ _ _ (Hc _ _ _ _ Hr HP Hrest)).
    rewrite length_app, Nat2Z.inj_add, <-advance_advance.
    eapply (parse_complete (Hk x)); eauto using advance_ok, rest_advance.
  - intros r y r' Hr (x & r0 & Hx & Hy)%M_bind_Ok.
    destruct (Hs _ _ _ Hr Hx) as (bs1 & HP & Hr1 & ->).
    destruct (parse_sound (Hk x) _ _ _ (advance_ok _ _ _ Hr Hr1) Hy) as (bs2 & HQ & Hr2 & ->).
    exists (bs1 ++ bs2). split; [by eauto 10|].
    rewrite length_app, Nat2Z.inj_add, advance_advance, Hr1, Hr2, app_assoc.
    by rewrite advance_advance.
Qed.

Lemma parse_spec_read_exact n :
  parse_spec (read_exact n) (fun x bs => x = bs /\ len bs = n).
Proof.
  split.
  - intros r x bs tl Hr [-> Hl] Hrest.
    pose proof (rest_length r Hr) as Hlen. rewrite Hrest, length_app in Hlen.
    destruct Hr as [Ho Hb]. unfold read_exact.
    rewrite (proj2 (checked_add_Some _ _ _ (offset r + n))) by lia.
    unfold get_range. rewrite (proj2 (andb_true_iff _ _)) by lia.
    unfold rest in Hrest. rewrite Hrest.
    replace (Z.to_nat _) with (length bs) by lia. rewrite take_app_length.
    unfold advance. by rewrite Hl.
  - intros r x r' [Ho Hb]. unfold read_exact, get_range.
    destruct (checked_add _ _ _) as [stop|] eqn:Hc; [|done].
    apply checked_add_Some in Hc as [-> Hc].
    destruct (_ && _) eqn:Hg; [|done]. zbool. intros [= <- <-].
    rewrite Z.add_simpl_l. fold (rest r).
    assert (len (take (Z.to_nat n) (rest r)) = n) as Hl.
    { unfold rest. rewrite length_take, length_drop. lia. }
    eexists; split; [split; [reflexivity|exact Hl]|].
    unfold advance. rewrite Hl. split; [|done].
    unfold rest at 3. cbn. rewrite Z2Nat.inj_add, <-drop_drop by lia.
    by rewrite <-(take_drop (Z.to_nat n) (rest r)) at 1.
Qed.

Lemma parse_spec_read_array n :
  parse_spec (read_array n) (fun (x : array n) bs => bs = arr x).
Proof.
  eapply parse_spec_proper; cycle 1.
  - apply parse_spec_bind; [apply parse_spec_read_exact|].
    intros slice. instantiate (1 := fun slice x bs => try_into n slice = Some x /\ bs = []).
    split.
    + intros r x bs tl Hr [Ht ->] _. cbn. rewrite Ht. cbn. by rewrite advance_0.
    + intros r x r' Hr H. injection H as Ht <-. apply ok_or_Ok in Ht.
      exists []. cbn. by rewrite advance_0.
  - intros x bs; cbn. split.
    + intros (y & b1 & b2 & [-> Hl] & [Ht ->] & ->). apply try_into_Some in Ht.
      by rewrite app_nil_r.
    + intros ->. exists (arr x), (arr x), []. rewrite length_arr, app_nil_r.
      rewrite try_into_arr. done.
Qed.

Lemma parse_spec_map {A B} (p : M Reader E A) (f : A -> B) P :
  parse_spec p P ->
  parse_spec (x ← p; mret (f x)) (fun y bs => exists x, y = f x /\ P x bs).
Proof.
  intros Hp. eapply parse_spec_proper; cycle 1.
  - apply parse_spec_bind; [exact Hp|]. intros a. apply parse_spec_ret.
  - intros y bs; cbn. split.
    + intros (x & b1 & b2 & HP & [-> ->] & ->). rewrite app_nil_r. eauto.
    + intros (x & -> & HP). exists x, bs, []. by rewrite app_nil_r.
Qed.

Definition be_grammar (n : nat) (x : Z) (bs : list byte) : Prop :=
  0 <= x < 256 ^ Z.of_nat n /\ bs = to_be_bytes n x.

Lemma parse_spec_read_be n :
  parse_spec (a ← read_array n; mret (from_be_bytes (arr a))) (be_grammar n).
Proof.
  eapply parse_spec_proper; [|apply parse_spec_map, parse_spec_read_array].
  intros x bs; cbn. split.
  - intros (a & -> & ->). pose proof (from_be_bytes_range (arr a)) as H.
    rewrite length_arr in H. split; [done|].
    by rewrite to_from_be_bytes by apply length_arr.
  - intros [Hx ->]. destruct (try_into_is_Some n (to_be_bytes n x)) as (a & _ & Ha).
    { apply length_to_be_bytes. }
    exists a. rewrite Ha, from_to_be_bytes, Z.mod_small; done.
Qed.

Lemma parse_spec_read_u16 : parse_spec read_u16 (be_grammar 2).
Proof. apply parse_spec_read_be. Qed.

Lemma parse_spec_read_u32 : parse_spec read_u32 (be_grammar 4).
Proof. apply parse_spec_read_be. Qed.

Lemma parse_spec_read_u64 : parse_spec read_u64 (be_grammar 8).
Proof. apply parse_spec_read_be. Qed.

Lemma parse_spec_read_u128 : parse_spec read_u128 (be_grammar 16).
Proof. apply parse_spec_read_be. Qed.

Lemma parse_spec_read_u8 : parse_spec read_u8 (be_grammar 1).
Proof.
  eapply parse_spec_proper; [|apply parse_spec_map, parse_spec_read_exact].
  intros x bs. split.
  - intros (l & -> & -> & Hl). destruct bs as [|b [|]]; cbn in Hl; try lia. cbn [hd].
    pose proof (Z_of_byte_range b). split; [done|].
    by rewrite to_be_bytes_1, byte_of_Z_of_byte.
  - intros [Hx ->]. exists (to_be_bytes 1 x). split; [|by rewrite length_to_be_bytes].
    rewrite to_be_bytes_1. cbn [hd]. by rewrite Z_of_byte_of_Z, Z.mod_small.
Qed.

(** A list of [n] items, each in the grammar [P], in order. *)
Fixpoint list_grammar {A} (P : A -> list byte -> Prop) (xs : list A) (bs : list byte) : Prop :=
  match xs with
  | [] => bs = []
  | x :: xs => exists bs1 bs2, P x bs1 /\ list_grammar P xs bs2 /\ bs = bs1 ++ bs2
  end.

Lemma parse_spec_read_n {A} n (p : M Reader E A) P :
  parse_spec p P ->
  parse_spec (read_n n p) (fun xs bs => length xs = n /\ list_grammar P xs bs).
Proof.
  intros Hp. induction n as [|n IH]; cbn [read_n].
  - eapply parse_spec_proper; [|apply parse_spec_ret].
    intros xs bs. split; [by intros [-> ->]|]. by destruct xs; intros [? ?].
  - eapply parse_spec_proper; cycle 1.
    + apply parse_spec_bind; [exact Hp|]. intros x. apply parse_spec_map, IH.
    + intros xs bs; cbn. split.
      * intros (x & b1 & b2 & HP & (ys & -> & Hl & Hg) & ->). cbn. eauto 10.
      * destruct xs as [|x xs]; [by intros [? ?]|]. intros [[= Hl] (b1 & b2 & HP & Hg & ->)].
        eauto 10.
Qed.

Lemma parse_spec_read_indexed {A} (p : Z -> M Reader E A) P index n :
  (forall i, parse_spec (p i) P) ->
  parse_spec (read_indexed p index n) (fun xs bs => length xs = n /\ list_grammar P xs bs).
Proof.
  intros Hp. revert index. induction n as [|n IH]; intros index; cbn [read_indexed].
  - eapply parse_spec_proper; [|apply parse_spec_ret].
    intros xs bs. split; [by intros [-> ->]|]. by destruct xs; intros [? ?].
  - eapply parse_spec_proper; cycle 1.
    + apply parse_spec_bind; [apply Hp|]. intros x. apply parse_spec_map, IH.
    + intros xs bs; cbn. split.
      * intros (x & b1 & b2 & HP & (ys & -> & Hl & Hg) & ->). cbn. eauto 10.
      * destruct xs as [|x xs]; [by intros [? ?]|]. intros [[= Hl] (b1 & b2 & HP & Hg & ->)].
        eauto 10.
Qed.

(** When each item's grammar is a well-formedness condition and an encoder,
    the list grammar is the concatenation of the encodings. *)
Lemma list_grammar_enc {A} (wf : A -> Prop) (enc : A -> list byte) xs bs :
  list_grammar (fun x bs => wf x /\ bs = enc x) xs bs <-> Forall wf xs /\ bs = concat (enc <$> xs).
Proof.
  revert bs; induction xs as [|x xs IH]; intros bs; cbn.
  - split; [by intros ->|by intros [_ ->]].
  - rewrite Forall_cons. split.
    + intros (b1 & b2 & [Hw ->] & [Hf ->]%IH & ->). done.
    + intros [[Hw Hf] ->]. eexists _, _. split; [done|]. by rewrite IH.
Qed.

(** A whole decoder: it accepts exactly the remaining input described by
    [P]. *)
Definition total_spec {A} (p : M Reader E A) (P : A -> list byte -> Prop) : Prop :=
  forall r x, reader_ok r -> fst (p r) = Ok x <-> P x (rest r).

Lemma total_spec_bind {A B} (p : M Reader E A) (k : A -> M Reader E B) P Q :
  parse_spec p P -> (forall a, total_spec (k a) (Q a)) ->
  total_spec (p ≫= k) (fun y bs => exists x bs1 bs2, P x bs1 /\ Q x y bs2 /\ bs = bs1 ++ bs2).
Proof.
  intros Hp Hk r y Hr. split.
  - intros H. destruct ((p ≫= k) r) as [m r'] eqn:Hrun. cbn in H. subst m.
    apply M_bind_Ok in Hrun as (x & r0 & Hx & Hy).
    destruct (parse_sound Hp _ _ _ Hr Hx) as (b & HP & Hrest & ->).
    exists x, b, (rest (advance r (len b))). split_and!; [done| |done].
    apply (Hk x); [by eapply advance_ok|]. by rewrite Hy.
  - intros (x & b1 & b2 & HP & HQ & Hrest).
    rewrite (M_bind_run _ _ _ _ _ (parse_complete Hp _ _ _ _ Hr HP Hrest)).
    apply (Hk x); [by eapply advance_ok|]. by erewrite rest_advance.
Qed.

Lemma total_spec_finish {A} (m : Result E A) :
  total_spec (finish ≫= fun _ => lift m) (fun x bs => m = Ok x /\ bs = []).
Proof.
  intros r x Hr. pose proof (rest_length r Hr) as Hl. destruct Hr as [Ho _].
  rewrite M_bind_eq. unfold finish. msimpl.
  destruct (Z.eqb_spec (remaining r) 0) as [He|He]; unfold remaining in He; cbn.
  - split; [|tauto]. intros ->. split; [done|]. apply length_zero_iff_nil. lia.
  - split; [done|]. intros [_ Hn]. rewrite Hn in Hl. cbn in Hl. lia.
Qed.

Lemma total_spec_proper {A} (p : M Reader E A) P Q :
  (forall x bs, P x bs <-> Q x bs) -> total_spec p P -> total_spec p Q.
Proof. intros H Hp r x Hr. rewrite <-H. by apply Hp. Qed.

Lemma run_iff {A} (p : M Reader E A) P bs x :
  total_spec p P -> len bs <= ISIZE_MAX -> run p bs = Ok x <-> P x bs.
Proof. intros Hp Hl. apply (Hp (new bs)). by apply new_ok. Qed.

(** A decoder of a fixed-length format needs no [finish]. *)
Lemma run_fixed_iff {A} (p : M Reader E A) P n bs x :
  parse_spec p P -> (forall y b, P y b -> len b = n) -> len bs = n -> n <= ISIZE_MAX ->
  run p bs = Ok x <-> P x bs.
Proof.
  intros Hp Hlen Hl Hn. pose proof (new_ok bs ltac:(lia)) as Hok. unfold run. split.
  - intros H. destruct (p (new bs)) as [m r'] eqn:Hrun. cbn in H. subst m.
    destruct (parse_sound Hp _ _ _ Hok Hrun) as (b & HP & Hrest & ->).
    rewrite rest_new in Hrest. pose proof (Hlen _ _ HP) as Hb.
    apply (f_equal length) in Hrest as Hlr. rewrite length_app in Hlr.
    destruct (rest (advance (new bs) (len b))); [|cbn in Hlr; lia].
    rewrite app_nil_r in Hrest. by subst.
  - intros HP. rewrite (parse_complete Hp (new bs) x bs []); [done|done|done|].
    by rewrite rest_new, app_nil_r.
Qed.

End Grammar.

Create HintDb grammar discriminated.
#[export] Hint Extern 0 (parse_spec read_u8 _) => eapply parse_spec_read_u8 : grammar.
#[export] Hint Extern 0 (parse_spec read_u16 _) => eapply parse_spec_read_u16 : grammar.
#[export] Hint Extern 0 (parse_spec read_u32 _) => eapply parse_spec_read_u32 : grammar.
#[export] Hint Extern 0 (parse_spec read_u64 _) => eapply parse_spec_read_u64 : grammar.
#[export] Hint Extern 0 (parse_spec read_u128 _) => eapply parse_spec_read_u128 : grammar.
#[export] Hint Extern 0 (parse_spec (read_array _) _) => eapply parse_spec_read_array : grammar.
#[export] Hint Extern 0 (parse_spec (mret _) _) => eapply parse_spec_ret : grammar.
#[export] Hint Extern 0 (parse_spec (lift _) _) => eapply parse_spec_lift : grammar.
#[export] Hint Extern 0 (parse_spec (read_exact _) _) => eapply parse_spec_read_exact : grammar.
#[export] Hint Extern 1 (parse_spec (read_n _ _) _) =>
  eapply parse_spec_read_n : grammar.

(** [grammar_of] computes the grammar of a decoder from its text. *)
Ltac grammar_step :=
  lazymatch goal with
  | |- total_spec (finish ≫= _) _ => cbv zeta; eapply total_spec_finish
  | |- total_spec (_ ≫= _) _ => eapply total_spec_bind; [|intros ?]
  | |- parse_spec (_ ≫= _) _ => eapply parse_spec_bind; [|intros ?]
  | |- parse_spec _ _ => solve [eauto with grammar]
  end.
Ltac grammar_of := repeat grammar_step.

Lemma parse_spec_read_magic {E} `{!ReadError E} magic (error : E) :
  length magic = 4%nat ->
  parse_spec (read_magic magic error) (fun _ bs => bs = magic).
Proof.
  intros Hl. eapply parse_spec_proper; [|unfold read_magic; grammar_of].
  intros u bs. cbn. split.
  - intros (a & b1 & b2 & -> & [Ha ->] & ->). apply ensure_Ok in Ha. zbool. by rewrite app_nil_r.
  - intros ->. destruct (try_into_is_Some 4 magic Hl) as (a & _ & Ha).
    exists a, (arr a), []. split; [done|]. split; [|by rewrite app_nil_r].
    split; [|done]. destruct u. apply ensure_Ok. by apply bool_decide_eq_true.
Qed.

Lemma parse_spec_read_version {E} `{!ReadError E} expected (error : Z -> E) :
  0 <= expected < 65536 ->
  parse_spec (read_version expected error) (fun _ bs => bs = to_be_bytes 2 expected).
Proof.
  intros Hv. eapply parse_spec_proper; [|unfold read_version; grammar_of].
  intros u bs. cbn. unfold be_grammar. split.
  - intros (a & b1 & b2 & [_ ->] & [Ha ->] & ->). apply ensure_Ok in Ha. zbool. subst.
    by rewrite app_nil_r.
  - intros ->. eexists expected, _, []. split; [split; [exact Hv|reflexivity]|].
    split; [|by rewrite app_nil_r]. split; [|done]. destruct u. apply ensure_Ok. apply Z.eqb_refl.
Qed.
#[export] Hint Extern 0 (parse_spec (read_magic _ _) _) =>
  eapply parse_spec_read_magic; reflexivity : grammar.
#[export] Hint Extern 0 (parse_spec (read_version _ _) _) =>
  eapply parse_spec_read_version; done : grammar.

(** [grammar_inv] opens the fields of a grammar in the context; [grammar_split]
    supplies the next field of a grammar in the goal. *)
Ltac grammar_inv :=
  repeat match goal with
  | H : exists _, _ |- _ => destruct H
  | H : _ /\ _ |- _ => destruct H
  end.
Ltac grammar_field :=
  first [reflexivity | refine (conj _ eq_refl); first [eassumption | lia | done | solve [auto]]].
Ltac grammar_split :=
  refine (ex_intro _ _ (ex_intro _ _ (ex_intro _ _ (conj _ (conj _ eq_refl)))));
  [grammar_field|].
Ltac grammar_lift tac :=
  refine (ex_intro _ _ (ex_intro _ [] (ex_intro _ _ (conj _ (conj _ eq_refl)))));
  [refine (conj _ eq_refl); tac|].

(** ** Length-prefixed fields *)

(** A bounded length prefix of [k] bytes and the bytes themselves. *)
Definition sized_grammar (k : nat) (ok : Z -> Prop) (x bs : list byte) : Prop :=
  ok (len x) /\ bs = to_be_bytes k (len x) ++ x.

Lemma sized_grammar_iff k (ok : Z -> Prop) x bs :
  (forall n, ok n -> n < 256 ^ Z.of_nat k) ->
  (exists n b1 b2, be_grammar k n b1 /\ (ok n /\ x = b2 /\ len b2 = n) /\ bs = b1 ++ b2) <->
  sized_grammar k ok x bs.
Proof.
  intros Hok. unfold be_grammar, sized_grammar. split.
  - intros (n & b1 & b2 & [Hn ->] & (Hokn & -> & <-) & ->). done.
  - intros [Hx ->]. exists (len x), (to_be_bytes k (len x)), x.
    split; [split; [split; [lia|by apply Hok]|done]|]. done.
Qed.

Lemma parse_spec_guarded_exact {E} `{!ReadError E} {A} k (check : Z -> Result E A) (ok : Z -> Prop)
    (rd : M Reader E Z) :
  (forall n, ok n -> n < 256 ^ Z.of_nat k) ->
  (forall n, (exists a, check n = Ok a) <-> ok n) ->
  parse_spec rd (be_grammar k) ->
  parse_spec (length ← rd; _ ← lift (check length); read_exact length) (sized_grammar k ok).
Proof.
  intros Hok Hcheck Hrd. eapply parse_spec_proper; [intros x bs; by apply sized_grammar_iff|].
  apply parse_spec_bind; [exact Hrd|]. intros n.
  eapply parse_spec_proper; cycle 1.
  { apply parse_spec_bind; [apply parse_spec_lift|]. intros a. apply parse_spec_read_exact. }
  intros x bs. cbn. rewrite <-Hcheck. split.
  - intros (a & b1 & b2 & [Ha ->] & [-> Hl] & ->). eauto.
  - intros ([a Ha] & -> & Hl). by exists a, [], bs.
Qed.

(** A bounded count followed by that many items. *)
Definition counted_grammar {A} (ok : Z -> Prop) (wf : A -> Prop) (enc : A -> list byte)
    (xs : list A) (bs : list byte) : Prop :=
  ok (len xs) /\ Forall wf xs /\ bs = counted enc xs.

Lemma parse_spec_counted {E} `{!ReadError E} {A B} (check : Z -> Result E B) (ok : Z -> Prop)
    (p : M Reader E A) (wf : A -> Prop) (enc : A -> list byte) :
  (forall n, ok n -> n <= U32_MAX) ->
  (forall n, (exists a, check n = Ok a) <-> ok n) ->
  parse_spec p (fun x bs => wf x /\ bs = enc x) ->
  parse_spec (count ← read_u32; _ ← lift (check count); read_n (Z.to_nat count) p)
    (counted_grammar ok wf enc).
Proof.
  intros Hok Hcheck Hp. eapply parse_spec_proper; cycle 1.
  { apply parse_spec_bind; [apply parse_spec_read_u32|]. intros n.
    apply parse_spec_bind; [apply parse_spec_lift|]. intros a. by apply parse_spec_read_n. }
  intros xs bs. cbn. unfold be_grammar, counted_grammar, counted. split.
  - intros (n & b1 & b2 & [Hn ->] & (a & b3 & b4 & [Ha ->] & [Hl Hxs] & ->) & ->).
    apply list_grammar_enc in Hxs as [Hwf ->].
    assert (n = len xs) as -> by lia. split_and!; [apply Hcheck; eauto|done..].
  - intros (Hn & Hwf & ->). pose proof (Hok _ Hn). apply Hcheck in Hn as [a Ha].
    refine (ex_intro _ (len xs) (ex_intro _ _ (ex_intro _ _ (conj _ (conj _ eq_refl))))).
    { split; [|reflexivity]. cbn. lia. }
    exists a, [], (concat (enc <$> xs)). split; [done|]. split; [|done].
    split; [lia|]. by apply list_grammar_enc.
Qed.

Lemma parse_spec_read_u32_at_most {E} `{!ReadError E} maximum (error : Z -> E) :
  parse_spec (read_u32_at_most maximum error) (fun n bs => n <= maximum /\ be_grammar 4 n bs).
Proof.
  eapply parse_spec_proper; cycle 1.
  { unfold read_u32_at_most. apply parse_spec_bind; [apply parse_spec_read_u32|]. intros n.
    instantiate (1 := fun n x bs => n <= maximum /\ x = n /\ bs = []). cbv beta.
    destruct (Z.ltb_spec maximum n).
    - eapply parse_spec_proper; [|apply parse_spec_lift]. intros x bs. cbn. split; [by intros []|lia].
    - eapply parse_spec_proper; [|apply parse_spec_ret]. naive_solver. }
  intros x bs. cbv beta. split.
  - intros (n & b1 & b2 & Hb & (Hn & -> & ->) & ->). by rewrite app_nil_r.
  - intros [Hn Hb]. exists x, bs, []. by rewrite app_nil_r.
Qed.

(** A bounded count and that many items, by whichever loop reads them. *)
Lemma parse_spec_counted_items {E} `{!ReadError E} {A} maximum (count : M Reader E Z)
    (items : nat -> M Reader E (list A)) (wf : A -> Prop) (enc : A -> list byte) :
  maximum <= U32_MAX ->
  parse_spec count (fun n bs => n <= maximum /\ be_grammar 4 n bs) ->
  (forall n, parse_spec (items n)
     (fun xs bs => length xs = n /\ list_grammar (fun x bs => wf x /\ bs = enc x) xs bs)) ->
  parse_spec (n ← count; items (Z.to_nat n)) (counted_grammar (fun n => n <= maximum) wf enc).
Proof.
  intros Hmax Hcount Hitems. eapply parse_spec_proper; cycle 1.
  { apply parse_spec_bind; [exact Hcount|]. intros n. apply Hitems. }
  intros xs bs. cbv beta. unfold be_grammar, counted_grammar, counted. split.
  - intros (n & b1 & b2 & (Hn & Hr & ->) & (Hl & Hxs) & ->).
    apply list_grammar_enc in Hxs as [Hw ->]. assert (n = len xs) as -> by lia. done.
  - intros (Hn & Hw & ->).
    refine (ex_intro _ (len xs) (ex_intro _ _ (ex_intro _ _ (conj _ (conj _ eq_refl))))).
    + split; [done|]. split; [|reflexivity]. change (256 ^ Z.of_nat 4) with (U32_MAX + 1). lia.
    + split; [lia|]. by apply list_grammar_enc.
Qed.
