(* ===== verification/Sha256.v ===== *)
(** * SHA-256 as a parameter

    Every identifier of the protocol is [Sha256] of a domain-separated byte
    string.  The [sha2] crate is not part of the repository: its one-shot digest
    is the single field of the class [Sha2], and a sequence of [update] calls
    followed by [finalize] is the digest of the concatenation, which is the
    documented behaviour of the [Digest] trait.

    No theorem assumes that SHA-256 is injective: that is false for every
    function into 32 bytes.  Where a statement needs that two hashes differ it
    names the finitely many preimages involved with [collision_free]. *)

From Stdlib Require Import Strings.Byte.
From S2P Require Import Prelude Arrays.

Class Sha2 : Type := { sha256 : list byte -> array 32 }.

(** The listed preimages have pairwise different digests. *)
Definition collision_free `{Sha2} (inputs : list (list byte)) : Prop :=
  forall x y, x ∈ inputs -> y ∈ inputs -> sha256 x = sha256 y -> x = y.

Lemma collision_free_subseteq `{Sha2} xs ys :
  xs ⊆ ys -> collision_free ys -> collision_free xs.
Proof. intros Hsub Hc x y Hx Hy. apply Hc; by apply Hsub. Qed.

Section Decide.
Context `{Sha2}.

(** [collision_free] can be evaluated on a concrete list, hashing each string
    once. *)
Definition collision_freeb (inputs : list (list byte)) : bool :=
  let hashed := (fun x => (x, sha256 x)) <$> inputs in
  forallb (fun p => forallb (fun q => bool_decide (p.2 = q.2 -> p.1 = q.1)) hashed) hashed.

Lemma collision_freeb_spec inputs : collision_freeb inputs = true -> collision_free inputs.
Proof.
  intros Hall%forallb_Forall x y Hx Hy. rewrite Forall_forall in Hall.
  specialize (Hall _ (list_elem_of_fmap_2 (fun x => (x, sha256 x)) _ _ Hx)).
  zbool. rewrite Forall_forall in Hall.
  specialize (Hall _ (list_elem_of_fmap_2 (fun x => (x, sha256 x)) _ _ Hy)). by zbool.
Qed.

End Decide.

(** A concrete digest for evaluating the model: a polynomial checksum modulo
    [2^256].  It has no cryptographic meaning and is used only in witnesses. *)
Definition checksum (bs : list byte) : array 32 :=
  let z := fold_left (fun h b => Z.land (h * 257 + Z_of_byte b + 1) (Z.ones 256)) bs 7 in
  mk_array (to_be_bytes 32 z) (norm_true (length_take_arr 32 _ (length_to_be_bytes 32 z))).

Definition toy_sha2 : Sha2 := {| sha256 := checksum |}.
