(* ===== verification/Types.v ===== *)
(** * Domain primitives ([noxis-types])

    Identifiers are 32-byte arrays, an [Amount] is a non-zero [u128], and an
    asset definition carries a ticker of one to sixteen uppercase ASCII
    letters. *)

From Stdlib Require Import Strings.Byte.
From S2P Require Import Prelude Arrays.

(** ** Identifiers *)

Abbreviation Id32 := (array 32).
Abbreviation AssetId := (array 32).
Abbreviation Commitment := (array 32).
Abbreviation Nullifier := (array 32).
Abbreviation TransactionId := (array 32).
Abbreviation TransactionIntentId := (array 32).
Abbreviation StateId := (array 32).
Abbreviation GenesisId := (array 32).
Abbreviation ProofVerifierId := (array 32).
Abbreviation MintPolicyId := (array 32).
Abbreviation ValidationContextId := (array 32).
Abbreviation ConsensusConfigId := (array 32).
Abbreviation ValidatorSetId := (array 32).
Abbreviation ValidatorId := (array 32).
Abbreviation BlockId := (array 32).
Abbreviation FinalityCertificateId := (array 32).
Abbreviation AppHash := (array 32).

(** The identifier whose 32 bytes all equal [b], for examples. *)
Definition id_of (b : byte) : Id32 := fill 32 b.

Record ChainAnchor : Type := mk_ChainAnchor {
  ca_genesis_id : GenesisId;
  ca_validation_context_id : ValidationContextId;
  ca_proof_verifier_id : ProofVerifierId;
  ca_mint_policy_id : MintPolicyId;
  ca_genesis_state_id : StateId
}.

#[global] Instance ChainAnchor_eq_dec : EqDecision ChainAnchor.
Proof. solve_decision. Defined.

(** ** Amounts *)

(** The field is private in the source; [amount_new] is the only constructor. *)
Record Amount : Type := mk_Amount { units : Z }.

#[global] Instance Amount_eq_dec : EqDecision Amount.
Proof. solve_decision. Defined.

Definition amount_new (u : Z) : option Amount := if u =? 0 then None else Some (mk_Amount u).

Definition amount_checked_add (a b : Amount) : option Amount :=
  mk_Amount <$> checked_add U128_MAX (units a) (units b).

Definition amount_wf (a : Amount) : Prop := 0 < units a <= U128_MAX.

Lemma amount_new_Some u a : in_range U128_MAX u -> amount_new u = Some a <-> amount_wf a /\ units a = u.
Proof.
  unfold amount_new, amount_wf, in_range. intros Hu. destruct (Z.eqb_spec u 0); split.
  - done.
  - lia.
  - intros [= <-]. cbn. lia.
  - intros [_ <-]. by destruct a.
Qed.

(** Addition of amounts is exact: it never wraps and never yields zero. *)
Lemma amount_checked_add_wf a b c :
  amount_wf a -> amount_wf b ->
  amount_checked_add a b = Some c <-> units c = units a + units b /\ amount_wf c.
Proof.
  unfold amount_checked_add, amount_wf. intros Ha Hb. rewrite fmap_Some. split.
  - intros (u & Hu & ->). apply checked_add_Some in Hu. cbn. lia.
  - intros [Hc Hw]. exists (units c). split; [|by destruct c]. apply checked_add_Some. lia.
Qed.

(** ** Assets *)

Inductive AssetKind : Type := NativeBacked | Synthetic.

#[global] Instance AssetKind_eq_dec : EqDecision AssetKind.
Proof. solve_decision. Defined.

(** A [String] is its UTF-8 bytes. *)
Record AssetDefinition : Type := mk_AssetDefinition {
  asset_id : AssetId;
  asset_ticker : list byte;
  asset_kind : AssetKind
}.

#[global] Instance AssetDefinition_eq_dec : EqDecision AssetDefinition.
Proof. solve_decision. Defined.

Module AssetError.
Inductive AssetError : Type := InvalidTicker.
End AssetError.
Abbreviation AssetError := AssetError.AssetError.

Definition is_ascii_uppercase (b : byte) : bool :=
  (65 <=? Z_of_byte b) && (Z_of_byte b <=? 90).

(** ** UTF-8

    [std::str::from_utf8] accepts the well-formed byte sequences of the Unicode
    standard: no overlong forms, no surrogates, nothing above U+10FFFF. *)

Definition byte_between (low high : Z) (b : byte) : bool := (low <=? Z_of_byte b) && (Z_of_byte b <=? high).
Definition continuation : byte -> bool := byte_between 128 191.

(** The bytes that may follow a first byte of a three- or four-byte sequence. *)
Definition second_of_three (first : byte) : byte -> bool :=
  if Z_of_byte first =? 224 then byte_between 160 191
  else if Z_of_byte first =? 237 then byte_between 128 159 else continuation.
Definition second_of_four (first : byte) : byte -> bool :=
  if Z_of_byte first =? 240 then byte_between 144 191
  else if Z_of_byte first =? 244 then byte_between 128 143 else continuation.

Fixpoint valid_utf8 (bytes : list byte) : bool :=
  match bytes with
  | [] => true
  | a :: rest =>
      if byte_between 0 127 a then valid_utf8 rest
      else match rest with
      | [] => false
      | b :: rest =>
          if byte_between 194 223 a then continuation b && valid_utf8 rest
          else match rest with
          | [] => false
          | c :: rest =>
              if byte_between 224 239 a
              then second_of_three a b && continuation c && valid_utf8 rest
              else match rest with
              | [] => false
              | d :: rest =>
                  byte_between 240 244 a && second_of_four a b && continuation c &&
                  continuation d && valid_utf8 rest
              end
          end
      end
  end.

(** Tickers are ASCII, hence UTF-8. *)
Lemma valid_utf8_ticker ticker :
  Forall (fun b => is_ascii_uppercase b = true) ticker -> valid_utf8 ticker = true.
Proof.
  induction 1 as [|b ticker Hb _ IH]; [done|]. cbn [valid_utf8].
  unfold is_ascii_uppercase in Hb. zbool. unfold byte_between.
  rewrite (proj2 (Z.leb_le _ _)), (proj2 (Z.leb_le _ _)) by lia. done.
Qed.

Definition is_empty {A} (l : list A) : bool := match l with [] => true | _ => false end.

Definition asset_definition_new (id : AssetId) (ticker : list byte) (kind : AssetKind)
    : Result AssetError AssetDefinition :=
  if is_empty ticker || (16 <? len ticker) || negb (forallb is_ascii_uppercase ticker)
  then Err AssetError.InvalidTicker
  else Ok (mk_AssetDefinition id ticker kind).

(** The ticker invariant of every constructed definition. *)
Definition ticker_wf (ticker : list byte) : Prop :=
  1 <= len ticker <= 16 /\ Forall (fun b => is_ascii_uppercase b = true) ticker.

#[global] Instance ticker_wf_dec t : Decision (ticker_wf t).
Proof. unfold ticker_wf. apply _. Defined.

Definition asset_wf (a : AssetDefinition) : Prop := ticker_wf (asset_ticker a).

Lemma asset_definition_new_Ok id t k a :
  asset_definition_new id t k = Ok a <-> a = mk_AssetDefinition id t k /\ asset_wf a.
Proof.
  unfold asset_definition_new, asset_wf, ticker_wf. split.
  - intros H. inv_ok. zbool. cbn. split; [done|]. split; [|done].
    destruct t; cbn in *; [done|lia].
  - intros [-> [Hl Hall]]. cbn in *.
    destruct t as [|b t]; [cbn in Hl; lia|]. cbn [is_empty orb].
    rewrite (proj2 (Z.ltb_ge _ _)) by lia. cbn [orb].
    by rewrite (proj2 (forallb_Forall _ _) Hall).
Qed.
