(* ===== verification/Crypto.v ===== *)
(** * Cryptographic contracts ([noxis-crypto])

    Algorithm labels and their protocol tags, the role check of a suite, the
    canonical 70-byte encoding of a validation context and its identity, the
    settlement-service authorization, and the public statement a transfer proof
    is verified against.  The [ProofVerifier] trait is a record of functions:
    its implementations are plugged in by the caller. *)

From Stdlib Require Import Strings.Byte Strings.String.
From S2P Require Import Prelude Arrays Sha256 Types.

(** ** Algorithm labels *)

Module AlgorithmId.
Inductive AlgorithmId : Type :=
| Sha256 | Sha3_256 | X25519 | MlKem768 | Ed25519 | MlDsa65 | PluggableProofSystem.
End AlgorithmId.
Abbreviation AlgorithmId := AlgorithmId.AlgorithmId.

#[global] Instance AlgorithmId_eq_dec : EqDecision AlgorithmId.
Proof. solve_decision. Defined.

Record CryptoSuite : Type := mk_CryptoSuite {
  cs_version : Z;
  cs_hash : AlgorithmId;
  cs_transport_kem : AlgorithmId;
  cs_identity_signature : AlgorithmId;
  cs_proof_system : AlgorithmId
}.

#[global] Instance CryptoSuite_eq_dec : EqDecision CryptoSuite.
Proof. solve_decision. Defined.

Module CryptoSuiteField.
Inductive CryptoSuiteField : Type := Hash | TransportKem | IdentitySignature | ProofSystem.
End CryptoSuiteField.

Module CryptoSuiteError.
Inductive CryptoSuiteError : Type :=
| ZeroVersion
| AlgorithmRoleMismatch (field : CryptoSuiteField.CryptoSuiteField) (algorithm : AlgorithmId).
End CryptoSuiteError.
Abbreviation CryptoSuiteError := CryptoSuiteError.CryptoSuiteError.

Module ValidationContextError.
Inductive ValidationContextError : Type :=
| InvalidLength (actual expected : Z)
| UnknownAlgorithm (tag : Z)
| InvalidCryptoSuite (error : CryptoSuiteError).
End ValidationContextError.
Abbreviation ValidationContextError := ValidationContextError.ValidationContextError.

Definition protocol_tag (a : AlgorithmId) : Z :=
  match a with
  | AlgorithmId.Sha256 => 1
  | AlgorithmId.Sha3_256 => 2
  | AlgorithmId.X25519 => 3
  | AlgorithmId.MlKem768 => 4
  | AlgorithmId.Ed25519 => 5
  | AlgorithmId.MlDsa65 => 6
  | AlgorithmId.PluggableProofSystem => 7
  end.

Definition from_protocol_tag (tag : Z) : Result ValidationContextError AlgorithmId :=
  match tag with
  | 1 => Ok AlgorithmId.Sha256
  | 2 => Ok AlgorithmId.Sha3_256
  | 3 => Ok AlgorithmId.X25519
  | 4 => Ok AlgorithmId.MlKem768
  | 5 => Ok AlgorithmId.Ed25519
  | 6 => Ok AlgorithmId.MlDsa65
  | 7 => Ok AlgorithmId.PluggableProofSystem
  | _ => Err (ValidationContextError.UnknownAlgorithm tag)
  end.

Definition RESEARCH_V1 : CryptoSuite := {|
  cs_version := 1;
  cs_hash := AlgorithmId.Sha256;
  cs_transport_kem := AlgorithmId.MlKem768;
  cs_identity_signature := AlgorithmId.MlDsa65;
  cs_proof_system := AlgorithmId.PluggableProofSystem
|}.

(** [CryptoSuite::validate]. *)
Definition suite_validate (self : CryptoSuite) : Result CryptoSuiteError unit :=
  if cs_version self =? 0 then Err CryptoSuiteError.ZeroVersion
  else if negb (match cs_hash self with
                | AlgorithmId.Sha256 | AlgorithmId.Sha3_256 => true | _ => false end)
  then Err (CryptoSuiteError.AlgorithmRoleMismatch CryptoSuiteField.Hash (cs_hash self))
  else if negb (match cs_transport_kem self with
                | AlgorithmId.X25519 | AlgorithmId.MlKem768 => true | _ => false end)
  then Err (CryptoSuiteError.AlgorithmRoleMismatch CryptoSuiteField.TransportKem
              (cs_transport_kem self))
  else if negb (match cs_identity_signature self with
                | AlgorithmId.Ed25519 | AlgorithmId.MlDsa65 => true | _ => false end)
  then Err (CryptoSuiteError.AlgorithmRoleMismatch CryptoSuiteField.IdentitySignature
              (cs_identity_signature self))
  else if negb (match cs_proof_system self with
                | AlgorithmId.PluggableProofSystem => true | _ => false end)
  then Err (CryptoSuiteError.AlgorithmRoleMismatch CryptoSuiteField.ProofSystem
              (cs_proof_system self))
  else Ok tt.

(** ** Validation contexts *)

Record ValidationContext : Type := mk_ValidationContext {
  vc_crypto_suite : CryptoSuite;
  vc_proof_verifier_id : ProofVerifierId;
  vc_mint_policy_id : MintPolicyId
}.

#[global] Instance ValidationContext_eq_dec : EqDecision ValidationContext.
Proof. solve_decision. Defined.

Definition CONTEXT_ENCODED_LENGTH : Z := 2 + 4 + 64.

Definition context_validate (self : ValidationContext) : Result ValidationContextError unit :=
  match suite_validate (vc_crypto_suite self) with
  | Ok tt => Ok tt
  | Err error => Err (ValidationContextError.InvalidCryptoSuite error)
  end.

(** [ValidationContext::encode]: the slots [..2], [2], [3], [4], [5], [6..38]
    and [38..70] are adjacent and fill the array. *)
Definition context_encode (self : ValidationContext) : list byte :=
  to_be_bytes 2 (cs_version (vc_crypto_suite self)) ++
  [byte_of_Z (protocol_tag (cs_hash (vc_crypto_suite self)));
   byte_of_Z (protocol_tag (cs_transport_kem (vc_crypto_suite self)));
   byte_of_Z (protocol_tag (cs_identity_signature (vc_crypto_suite self)));
   byte_of_Z (protocol_tag (cs_proof_system (vc_crypto_suite self)))] ++
  arr (vc_proof_verifier_id self) ++
  arr (vc_mint_policy_id self).

(** [ValidationContext::decode].  The outer [option] is [None] where an
    [expect] would panic. *)
Definition context_decode (bytes : list byte)
    : option (Result ValidationContextError ValidationContext) :=
  if negb (len bytes =? CONTEXT_ENCODED_LENGTH)
  then Some (Err (ValidationContextError.InvalidLength (len bytes) CONTEXT_ENCODED_LENGTH))
  else
    let at_ i := Z_of_byte (nth i bytes x00) in
    match
      (hash ← from_protocol_tag (at_ 2%nat);
       transport_kem ← from_protocol_tag (at_ 3%nat);
       identity_signature ← from_protocol_tag (at_ 4%nat);
       proof_system ← from_protocol_tag (at_ 5%nat);
       Ok (mk_CryptoSuite (from_be_bytes (take 2 bytes))
             hash transport_kem identity_signature proof_system))
    with
    | Err e => Some (Err e)
    | Ok suite =>
        proof_verifier_id ← try_into 32 (take 32 (drop 6 bytes));
        mint_policy_id ← try_into 32 (take 32 (drop 38 bytes));
        let context := mk_ValidationContext suite proof_verifier_id mint_policy_id in
        Some (_ ← context_validate context; Ok context)
    end.

Definition context_wf (c : ValidationContext) : Prop :=
  in_range U16_MAX (cs_version (vc_crypto_suite c)) /\ context_validate c = Ok tt.

Section Identity.
Context `{Sha2}.

Definition VALIDATION_CONTEXT_DOMAIN : list byte :=
  bytes_of_string "NOXIS/VALIDATION-CONTEXT/V1" ++ [x00].

Definition context_id_preimage (self : ValidationContext) : list byte :=
  VALIDATION_CONTEXT_DOMAIN ++ context_encode self.

(** [ValidationContext::id]. *)
Definition context_id (self : ValidationContext) : ValidationContextId :=
  sha256 (context_id_preimage self).

End Identity.

(** ** Service authorization *)

Module ServiceCryptoEligibilityError.
Inductive ServiceCryptoEligibilityError : Type :=
| UnapprovedValidationContext
| AuthorizationContextMismatch.
End ServiceCryptoEligibilityError.
Abbreviation ServiceCryptoEligibilityError :=
  ServiceCryptoEligibilityError.ServiceCryptoEligibilityError.

(** The field is private: only the two [authorize_*] functions build one. *)
Record SettlementServiceAuthorization : Type := mk_Authorization {
  auth_validation_context_id : ValidationContextId
}.

Definition authorize_settlement_service (self : ValidationContext)
    : Result ServiceCryptoEligibilityError SettlementServiceAuthorization :=
  Err ServiceCryptoEligibilityError.UnapprovedValidationContext.

Section Authorization.
Context `{Sha2}.

Definition authorize_research_testing (self : ValidationContext)
    : Result ServiceCryptoEligibilityError SettlementServiceAuthorization :=
  if negb (bool_decide (vc_crypto_suite self = RESEARCH_V1))
  then Err ServiceCryptoEligibilityError.UnapprovedValidationContext
  else Ok (mk_Authorization (context_id self)).

Definition ensure_matches (self : SettlementServiceAuthorization) (context : ValidationContext)
    : Result ServiceCryptoEligibilityError unit :=
  if negb (bool_decide (auth_validation_context_id self = context_id context))
  then Err ServiceCryptoEligibilityError.AuthorizationContextMismatch
  else Ok tt.

End Authorization.

(** ** Transfer proofs *)

Record Proof : Type := mk_Proof { suite_version : Z; proof_bytes : list byte }.

#[global] Instance Proof_eq_dec : EqDecision Proof.
Proof. solve_decision. Defined.

Record StateAnchor : Type := mk_StateAnchor { anchor_root : array 32; anchor_tree_depth : Z }.

#[global] Instance StateAnchor_eq_dec : EqDecision StateAnchor.
Proof. solve_decision. Defined.

Record TransferStatement : Type := mk_TransferStatement {
  ts_genesis_id : GenesisId;
  ts_validation_context_id : ValidationContextId;
  ts_transaction_intent_id : TransactionIntentId;
  ts_state_id : StateId;
  ts_asset_id : AssetId;
  ts_input_nullifiers : list Nullifier;
  ts_output_commitments : list Commitment;
  ts_state_anchor : StateAnchor
}.

#[global] Instance TransferStatement_eq_dec : EqDecision TransferStatement.
Proof. solve_decision. Defined.

Module VerificationError.
Inductive VerificationError : Type := UnsupportedSuite | InvalidProof.
End VerificationError.
Abbreviation VerificationError := VerificationError.VerificationError.

(** [trait ProofVerifier]. *)
Record ProofVerifier : Type := mk_ProofVerifier {
  proof_verifier_id : ProofVerifierId;
  verify_transfer : TransferStatement -> Proof -> Result VerificationError unit
}.

(** ** Lemmas *)

Lemma protocol_tag_range a : 1 <= protocol_tag a <= 7.
Proof. destruct a; cbn; lia. Qed.

#[global] Instance protocol_tag_inj : Inj (=) (=) protocol_tag.
Proof. by intros [] []. Qed.

Lemma from_protocol_tag_Ok tag a : from_protocol_tag tag = Ok a <-> tag = protocol_tag a.
Proof.
  split; [|by intros ->; destruct a].
  unfold from_protocol_tag. intros H. repeat case_match; inv_ok; done.
Qed.

Lemma Z_of_tag a : Z_of_byte (byte_of_Z (protocol_tag a)) = protocol_tag a.
Proof. rewrite Z_of_byte_of_Z, Z.mod_small; [done|]. pose proof (protocol_tag_range a). lia. Qed.

Lemma length_context_encode c : len (context_encode c) = CONTEXT_ENCODED_LENGTH.
Proof. unfold context_encode. rewrite !length_app, length_to_be_bytes, !length_arr. done. Qed.

(** Six leading bytes and two 32-byte fields make up a 70-byte string. *)
Lemma split_context_bytes bs :
  len bs = CONTEXT_ENCODED_LENGTH ->
  exists v0 v1 h k s p (pv mp : array 32), bs = [v0; v1; h; k; s; p] ++ arr pv ++ arr mp.
Proof.
  unfold CONTEXT_ENCODED_LENGTH. intros Hl.
  do 6 (destruct bs as [|? bs]; [cbn in Hl; lia|]).
  destruct (try_into_is_Some 32 (take 32 bs)) as (pv & _ & Hpv).
  { rewrite length_take. cbn in Hl. lia. }
  destruct (try_into_is_Some 32 (drop 32 bs)) as (mp & _ & Hmp).
  { rewrite length_drop. cbn in Hl. lia. }
  do 6 eexists. exists pv, mp. rewrite Hpv, Hmp, take_drop. reflexivity.
Qed.

(** What [context_decode] computes on a string of the right length. *)
Lemma context_decode_fields v0 v1 h k s p (pv mp : array 32) :
  context_decode ([v0; v1; h; k; s; p] ++ arr pv ++ arr mp) =
  match
    (hash ← from_protocol_tag (Z_of_byte h);
     transport_kem ← from_protocol_tag (Z_of_byte k);
     identity_signature ← from_protocol_tag (Z_of_byte s);
     proof_system ← from_protocol_tag (Z_of_byte p);
     Ok (mk_CryptoSuite (from_be_bytes [v0; v1])
           hash transport_kem identity_signature proof_system))
  with
  | Err e => Some (Err e)
  | Ok suite =>
      let context := mk_ValidationContext suite pv mp in
      Some (_ ← context_validate context; Ok context)
  end.
Proof.
  unfold context_decode. rewrite (proj2 (Z.eqb_eq _ _)); cbn [negb].
  2:{ rewrite !length_app, !length_arr. done. }
  change (drop 38 ([v0; v1; h; k; s; p] ++ arr pv ++ arr mp)) with (drop 32 (arr pv ++ arr mp)).
  change (drop 6 ([v0; v1; h; k; s; p] ++ arr pv ++ arr mp)) with (arr pv ++ arr mp).
  cbn [app nth take].
  rewrite take_app_length', drop_app_length', take_ge by (rewrite length_arr; lia).
  by rewrite !try_into_arr.
Qed.

(** the decoder of validation contexts is total (no [expect] fires) and
    accepts exactly the canonical encodings of contexts whose suite passes the
    role check: decoding inverts encoding and there is no second encoding of
    the same context. *)
Theorem context_decode_exact bs :
  context_decode bs <> None /\
  forall c, context_decode bs = Some (Ok c) <-> context_wf c /\ bs = context_encode c.
Proof.
  destruct (Z.eq_dec (len bs) CONTEXT_ENCODED_LENGTH) as [Hl|Hl]; cycle 1.
  { unfold context_decode. rewrite (proj2 (Z.eqb_neq _ _) Hl). split; [done|].
    intros c. split; [done|]. intros [_ ->]. by rewrite length_context_encode in Hl. }
  destruct (split_context_bytes bs Hl) as (v0 & v1 & h & k & s & p & pv & mp & ->).
  rewrite context_decode_fields. split; [by destruct (_ ≫= _)|]. intros c.
  pose proof (from_be_bytes_range [v0; v1]) as Hv. cbn in Hv. split.
  - destruct (_ ≫= _) as [suite|] eqn:Hs; [|done]. cbv zeta. intros [= Hc]. inv_ok.
    rewrite from_protocol_tag_Ok in *.
    split; [split; [cbn; unfold in_range; lia|by destruct x]|].
    unfold context_encode; cbn [vc_crypto_suite cs_version cs_hash cs_transport_kem
      cs_identity_signature cs_proof_system vc_proof_verifier_id vc_mint_policy_id].
    rewrite to_from_be_bytes by done.
    repeat match goal with H : Z_of_byte _ = protocol_tag _ |- _ => rewrite <-H; clear H end.
    by rewrite !byte_of_Z_of_byte.
  - intros [[Hr Hval] He].
    destruct c as [[v ah ak aS ap] pv' mp']; cbn in Hr.
    unfold context_encode in He. cbn [vc_crypto_suite cs_version cs_hash cs_transport_kem
      cs_identity_signature cs_proof_system vc_proof_verifier_id vc_mint_policy_id] in He.
    destruct (to_be_bytes 2 v) as [|w0 [|w1 [|]]] eqn:Hw; try done.
    cbn [app] in He. injection He as -> -> -> -> -> -> He.
    apply app_inj_1 in He as [->%array_eq ->%array_eq]; [|by rewrite !length_arr].
    rewrite !Z_of_tag, !(proj2 (from_protocol_tag_Ok _ _) eq_refl). cbn [mbind result_bind].
    rewrite <-Hw, from_to_be_bytes, Z.mod_small by (unfold in_range in Hr; lia).
    by rewrite Hval.
Qed.

(** Equal preimages of context identities are equal contexts. *)
Lemma context_encode_inj c1 c2 :
  context_wf c1 -> context_wf c2 -> context_encode c1 = context_encode c2 -> c1 = c2.
Proof.
  intros H1 H2 He.
  destruct c1 as [[v1 h1 k1 s1 p1] pv1 mp1], c2 as [[v2 h2 k2 s2 p2] pv2 mp2].
  destruct H1 as [Hr1 _], H2 as [Hr2 _]. cbn in Hr1, Hr2.
  unfold context_encode in He. cbn [vc_crypto_suite cs_version cs_hash cs_transport_kem
      cs_identity_signature cs_proof_system vc_proof_verifier_id vc_mint_policy_id] in He.
  apply app_inj_1 in He as [Hv He]; [|by rewrite !length_to_be_bytes].
  apply (f_equal from_be_bytes) in Hv. rewrite !from_to_be_bytes in Hv.
  unfold in_range in *. rewrite !Z.mod_small in Hv by lia. subst v2.
  cbn [app] in He. injection He as Hh Hk Hs Hp He.
  apply (f_equal Z_of_byte) in Hh, Hk, Hs, Hp. rewrite !Z_of_tag in *.
  apply app_inj_1 in He as [->%array_eq ->%array_eq]; [|by rewrite !length_arr].
  by simplify_eq.
Qed.

(** a settlement authorization is bound to one validation context.  Only a
    context with the [RESEARCH_V1] suite obtains one (the production path always
    refuses), and the authorization is accepted for another context exactly when
    that context is the same one, provided the two identity preimages do not
    collide under SHA-256. *)
Theorem authorization_context_bound `{Sha2} c c' a :
  context_wf c -> context_wf c' ->
  collision_free [context_id_preimage c; context_id_preimage c'] ->
  authorize_settlement_service c = Ok a \/ authorize_research_testing c = Ok a ->
  vc_crypto_suite c = RESEARCH_V1 /\ (ensure_matches a c' = Ok tt <-> c' = c).
Proof.
  intros Hc Hc' Hcf [?|Ha]; [done|]. unfold authorize_research_testing in Ha. inv_ok. zbool.
  split; [done|]. unfold ensure_matches. cbn. split; [|intros ->; by rewrite bool_decide_eq_true_2].
  intros Hm. inv_ok. zbool. symmetry. apply context_encode_inj; [done..|].
  apply (app_inv_head VALIDATION_CONTEXT_DOMAIN), Hcf; [set_solver..|done].
Qed.

Definition sample_context (b : byte) : ValidationContext :=
  mk_ValidationContext RESEARCH_V1 (id_of b) (id_of x02).

Lemma authorization_context_bound_witness :
  let hash := toy_sha2 in
  ensure_matches (mk_Authorization (context_id (sample_context x01))) (sample_context x03) <> Ok tt.
Proof.
  intros hash.
  destruct (authorization_context_bound (sample_context x01) (sample_context x03)
    (mk_Authorization (context_id (sample_context x01)))) as [_ Hiff].
  - by_eval.
  - by_eval.
  - apply collision_freeb_spec. by_eval.
  - right. reflexivity.
  - intros Hm%Hiff. discriminate (f_equal (fun c => arr (vc_proof_verifier_id c)) Hm).
Defined.
