(* ===== verification/Merkle.v ===== *)
(** * The commitment tree ([noxis-merkle])

    An append-only list of commitments read as the occupied leaves of a binary
    tree of fixed depth.  [root] and [prove] are computed level by level over
    the occupied prefix, padding an odd level with the hash of an empty subtree;
    the reference definition [node] is the full tree of [2^depth] leaves.  The
    theorems show that the two agree, that generated proofs verify, and that an
    accepted proof can only open the leaf the tree has at that position. *)

From Stdlib Require Import Strings.Byte Strings.String.
From S2P Require Import Prelude Arrays Sha256 Types.

Abbreviation Hash := (array 32).

Definition MIN_DEPTH : Z := 1.
Definition MAX_DEPTH : Z := 32.
Definition MAX_COMMITMENTS : Z := 1048576.

Definition LEAF_DOMAIN : list byte := bytes_of_string "NOXIS/MERKLE/V1/LEAF".
Definition EMPTY_LEAF_DOMAIN : list byte := bytes_of_string "NOXIS/MERKLE/V1/EMPTY_LEAF".
Definition NODE_DOMAIN : list byte := bytes_of_string "NOXIS/MERKLE/V1/NODE".

Record MerkleRoot : Type := mk_MerkleRoot { digest : Hash; root_depth : Z }.

Record InclusionProof : Type := mk_InclusionProof { leaf_index : Z; siblings : list Hash }.

(** [InclusionProof::depth]: [self.siblings.len() as u8]. *)
Definition proof_depth (self : InclusionProof) : Z := len (siblings self) mod 256.

Record MerkleTree : Type := mk_MerkleTree { depth : Z; commitments : list Commitment }.

Module MerkleError.
Inductive MerkleError : Type :=
| InvalidDepth (depth minimum maximum : Z)
| TreeFull (capacity : Z)
| LeafIndexOutOfRange (index occupied_leaves : Z)
| ProofDepthMismatch (root_depth proof_depth : Z)
| IndexOverflow.
End MerkleError.
Abbreviation MerkleError := MerkleError.MerkleError.

Definition validate_depth (depth : Z) : Result MerkleError unit :=
  if negb ((MIN_DEPTH <=? depth) && (depth <=? MAX_DEPTH))
  then Err (MerkleError.InvalidDepth depth MIN_DEPTH MAX_DEPTH)
  else Ok tt.

(** [MerkleTree::new]. *)
Definition tree_new (depth : Z) : Result MerkleError MerkleTree :=
  _ ← validate_depth depth; Ok (mk_MerkleTree depth []).

Definition maximum_leaf_count (depth : Z) : Z :=
  Z.min (Z.shiftl 1 depth) MAX_COMMITMENTS.

Definition capacity (self : MerkleTree) : Z := maximum_leaf_count (depth self).

(** [MerkleTree::append]. *)
Definition append (commitment : Commitment) : M MerkleTree MerkleError Z :=
  self ← get;
  if capacity self <=? len (commitments self)
  then lift (Err (MerkleError.TreeFull (capacity self)))
  else
    index ← lift (ok_or (try_from U32_MAX (len (commitments self))) MerkleError.IndexOverflow);
    _ ← put (mk_MerkleTree (depth self) (commitments self ++ [commitment]));
    mret index.

Section Hashing.
Context `{Sha2}.

Definition leaf_preimage (commitment : Commitment) : list byte := LEAF_DOMAIN ++ arr commitment.
Definition node_preimage (left right : Hash) : list byte := NODE_DOMAIN ++ arr left ++ arr right.

Definition hash_leaf (commitment : Commitment) : Hash := sha256 (leaf_preimage commitment).
Definition hash_empty_leaf : Hash := sha256 EMPTY_LEAF_DOMAIN.
Definition hash_node (left right : Hash) : Hash := sha256 (node_preimage left right).

Fixpoint empty_hashes_above (previous : Hash) (n : nat) : list Hash :=
  match n with
  | O => []
  | S n => let h := hash_node previous previous in h :: empty_hashes_above h n
  end.

Definition empty_hashes (depth : nat) : list Hash :=
  hash_empty_leaf :: empty_hashes_above hash_empty_leaf depth.

(** [Vec] indexing; every index below is shown to be in range. *)
Definition index_of (l : list Hash) (i : nat) : Hash := nth i l hash_empty_leaf.

(** [children.chunks_exact(2).map(hash_node)]. *)
Fixpoint parent_level (children : list Hash) : list Hash :=
  match children with
  | l :: r :: children => hash_node l r :: parent_level children
  | _ => []
  end.

(** [if level.len() % 2 == 1 { level.push(empty) }]. *)
Definition pad (empty : Hash) (level : list Hash) : list Hash :=
  if Nat.odd (length level) then level ++ [empty] else level.

(** [for height in height..height + fuel]. *)
Fixpoint root_loop (hashes : list Hash) (fuel height : nat) (level : list Hash) : list Hash :=
  match fuel with
  | O => level
  | S fuel => root_loop hashes fuel (S height) (parent_level (pad (index_of hashes height) level))
  end.

Definition root_from_commitments (depth : nat) (commitments : list Commitment) : Hash :=
  let hashes := empty_hashes depth in
  match commitments with
  | [] => index_of hashes depth
  | _ => index_of (root_loop hashes depth 0 (hash_leaf <$> commitments)) 0
  end.

(** [MerkleTree::root]. *)
Definition root (self : MerkleTree) : MerkleRoot :=
  mk_MerkleRoot (root_from_commitments (Z.to_nat (depth self)) (commitments self)) (depth self).

Definition sibling_index (i : nat) : nat := if Nat.even i then (i + 1)%nat else (i - 1)%nat.

Fixpoint prove_loop (hashes : list Hash) (fuel height : nat) (level : list Hash)
    (current_index : nat) : list Hash :=
  match fuel with
  | O => []
  | S fuel =>
      let level := pad (index_of hashes height) level in
      index_of level (sibling_index current_index) ::
      prove_loop hashes fuel (S height) (parent_level level) (current_index / 2)
  end.

(** [MerkleTree::prove]. *)
Definition prove (self : MerkleTree) (leaf_index : Z) : Result MerkleError InclusionProof :=
  if len (commitments self) <=? leaf_index
  then Err (MerkleError.LeafIndexOutOfRange leaf_index (len (commitments self)))
  else Ok (mk_InclusionProof leaf_index
             (prove_loop (empty_hashes (Z.to_nat (depth self))) (Z.to_nat (depth self)) 0
                (hash_leaf <$> commitments self) (Z.to_nat leaf_index))).

Fixpoint verify_loop (current : Hash) (index : Z) (siblings : list Hash) : Hash :=
  match siblings with
  | [] => current
  | sibling :: siblings =>
      verify_loop
        (if Z.land index 1 =? 0 then hash_node current sibling else hash_node sibling current)
        (Z.shiftr index 1) siblings
  end.

(** [MerkleTree::verify]. *)
Definition verify (root : MerkleRoot) (commitment : Commitment) (proof : InclusionProof)
    : Result MerkleError bool :=
  _ ← validate_depth (proof_depth proof);
  if negb (proof_depth proof =? root_depth root)
  then Err (MerkleError.ProofDepthMismatch (root_depth root) (proof_depth proof))
  else Ok (bool_decide
             (verify_loop (hash_leaf commitment) (leaf_index proof) (siblings proof) = digest root)).

(** ** Reference definition *)

(** Leaf [i] of the full tree. *)
Definition leaf (cs : list Commitment) (i : nat) : Hash :=
  match cs !! i with Some c => hash_leaf c | None => hash_empty_leaf end.

(** Node [i] at height [h] of the full tree. *)
Fixpoint node (cs : list Commitment) (h i : nat) : Hash :=
  match h with
  | O => leaf cs i
  | S h => hash_node (node cs h (2 * i)) (node cs h (2 * i + 1))
  end.

(** The root of an empty subtree of height [h]. *)
Fixpoint empty_hash (h : nat) : Hash :=
  match h with O => hash_empty_leaf | S h => hash_node (empty_hash h) (empty_hash h) end.

End Hashing.

(** The invariant of a constructed tree. *)
Definition tree_wf (t : MerkleTree) : Prop :=
  MIN_DEPTH <= depth t <= MAX_DEPTH /\ len (commitments t) <= capacity t.

(** ** Growth *)

Lemma capacity_bounds t :
  MIN_DEPTH <= depth t <= MAX_DEPTH ->
  2 <= capacity t <= MAX_COMMITMENTS /\ capacity t <= 2 ^ depth t.
Proof.
  unfold capacity, maximum_leaf_count, MIN_DEPTH, MAX_DEPTH, MAX_COMMITMENTS. intros Hd.
  rewrite Z.shiftl_1_l. pose proof (Z.pow_le_mono_r 2 1 (depth t)). lia.
Qed.

Lemma tree_new_wf d t : tree_new d = Ok t -> tree_wf t /\ t = mk_MerkleTree d [].
Proof.
  unfold tree_new, validate_depth. intros Ht. inv_ok. zbool. split; [|done].
  assert (MIN_DEPTH <= depth (mk_MerkleTree d []) <= MAX_DEPTH) as Hd by done.
  pose proof (capacity_bounds _ Hd). split; [done|]. cbn in *. lia.
Qed.

(** [append] succeeds exactly below capacity; [IndexOverflow] never happens. *)
Lemma append_spec t c :
  tree_wf t ->
  append c t =
  if decide (len (commitments t) < capacity t)
  then (Ok (len (commitments t)), mk_MerkleTree (depth t) (commitments t ++ [c]))
  else (Err (MerkleError.TreeFull (capacity t)), t).
Proof.
  intros [Hd Hl]. pose proof (capacity_bounds t Hd) as [Hc _].
  unfold append. msimpl. destruct (Z.leb_spec (capacity t) (len (commitments t))).
  - by rewrite decide_False by lia.
  - rewrite decide_True by done. msimpl.
    rewrite (proj2 (try_from_Some _ _ (len (commitments t)))); [done|].
    unfold in_range, MAX_COMMITMENTS in *. lia.
Qed.

Lemma append_wf t c i t' :
  tree_wf t -> append c t = (Ok i, t') ->
  tree_wf t' /\ i = len (commitments t) /\ t' = mk_MerkleTree (depth t) (commitments t ++ [c]).
Proof.
  intros Hwf. rewrite append_spec by done. case_decide; intros [= <- <-].
  split; [|done]. destruct Hwf. split; [done|]. cbn. rewrite length_app. cbn.
  change (capacity _) with (capacity t). lia.
Qed.

(** ** The level computation is the full tree *)

Section Levels.
Context `{Sha2}.

Lemma empty_hashes_above_nth h0 n i :
  (i < n)%nat -> exists h, nth_error (empty_hashes_above (empty_hash h0) n) i = Some h
    /\ h = empty_hash (S h0 + i).
Proof.
  revert h0 i; induction n as [|n IH]; intros h0 i Hi; [lia|]. cbn.
  destruct i as [|i]; cbn; [by rewrite Nat.add_0_r; eauto|].
  destruct (IH (S h0) i) as (h & Hh & ->); [lia|].
  eexists; split; [exact Hh|]. cbn. by rewrite Nat.add_succ_r.
Qed.

(** Every index into [empty_hashes] is in range and yields the empty subtree
    of that height. *)
Lemma empty_hashes_index d i : (i <= d)%nat -> index_of (empty_hashes d) i = empty_hash i.
Proof.
  intros Hi. unfold empty_hashes, index_of. destruct i as [|i]; [done|]. cbn [nth].
  destruct (empty_hashes_above_nth 0 d i) as (h & Hh & ->); [lia|].
  erewrite nth_error_nth; [|exact Hh]. done.
Qed.

Lemma length_empty_hashes d : length (empty_hashes d) = S d.
Proof.
  unfold empty_hashes. cbn. f_equal. generalize hash_empty_leaf.
  induction d as [|d IH]; intros h; cbn; [done|]. by rewrite IH.
Qed.

Lemma parent_level_nth e l i :
  Nat.even (length l) = true ->
  nth i (parent_level l) (hash_node e e) = hash_node (nth (2 * i) l e) (nth (2 * i + 1) l e).
Proof.
  revert i. induction l as [| |a b l IH] using list_two_ind; cbn [length parent_level].
  - by destruct i as [|i].
  - done.
  - intros i He. destruct i as [|i]; [done|].
    replace (2 * S i)%nat with (S (S (2 * i))) by lia. cbn [nth Nat.add].
    rewrite IH by done. done.
Qed.

Lemma length_parent_level l : length (parent_level l) = (length l / 2)%nat.
Proof.
  induction l as [| |a b l IH] using list_two_ind; cbn [length parent_level]; [done..|].
  rewrite IH. replace (S (S (length l))) with (length l + 1 * 2)%nat by lia.
  rewrite Nat.div_add by lia. lia.
Qed.

Lemma even_length_pad e l : Nat.even (length (pad e l)) = true.
Proof.
  unfold pad. destruct (Nat.odd (length l)) eqn:Ho.
  - rewrite length_app, Nat.add_1_r, Nat.even_succ. done.
  - unfold Nat.odd in Ho. by apply negb_false_iff in Ho.
Qed.

Lemma length_pad e l : length (pad e l) = (2 * ((length l + 1) / 2))%nat.
Proof.
  unfold pad. destruct (Nat.odd (length l)) eqn:Ho.
  - apply Nat.odd_spec in Ho as [k Hk]. rewrite length_app, Hk. cbn [length].
    replace (2 * k + 1 + 1)%nat with ((k + 1) * 2)%nat by lia. rewrite Nat.div_mul by lia. lia.
  - unfold Nat.odd in Ho. apply negb_false_iff, Nat.even_spec in Ho as [k Hk]. rewrite Hk.
    replace (2 * k + 1)%nat with (1 + k * 2)%nat by lia. rewrite Nat.div_add by lia. cbn. lia.
Qed.

Lemma nth_pad e l i : nth i (pad e l) e = nth i l e.
Proof.
  unfold pad. destruct (Nat.odd _); [|done].
  destruct (decide (i < length l)%nat); [by rewrite app_nth1|].
  rewrite app_nth2 by lia. rewrite (nth_overflow l) by lia.
  by destruct (i - length l)%nat as [|[|]].
Qed.

(** A level represents the nodes of height [h]: the listed ones, and empty
    subtrees beyond them. *)
Definition level_ok (cs : list Commitment) (h : nat) (level : list Hash) : Prop :=
  forall i, node cs h i = nth i level (empty_hash h).

Lemma level_ok_leaves cs : level_ok cs 0 (hash_leaf <$> cs).
Proof.
  intros i. cbn. unfold leaf. revert i.
  induction cs as [|c cs IH]; intros [|i]; cbn; done || apply IH.
Qed.

Lemma level_ok_parent cs h level :
  level_ok cs h level -> level_ok cs (S h) (parent_level (pad (empty_hash h) level)).
Proof.
  intros Hok i. cbn [node empty_hash].
  by rewrite parent_level_nth, !nth_pad, !Hok by apply even_length_pad.
Qed.

Lemma root_loop_ok cs d fuel h level :
  (h + fuel <= d)%nat -> level_ok cs h level ->
  level_ok cs (h + fuel) (root_loop (empty_hashes d) fuel h level).
Proof.
  revert h level; induction fuel as [|fuel IH]; intros h level Hd Hok; cbn [root_loop].
  - by rewrite Nat.add_0_r.
  - rewrite empty_hashes_index by lia. rewrite <-Nat.add_succ_comm.
    apply IH; [lia|]. by apply level_ok_parent.
Qed.

Lemma length_parent_pad e l : length (parent_level (pad e l)) = ((length l + 1) / 2)%nat.
Proof. rewrite length_parent_level, length_pad, Nat.mul_comm. by apply Nat.div_mul. Qed.

(** The invariant of the loop over levels: non-empty, and small enough to end
    in a single hash. *)
Lemma root_loop_length hs fuel h level :
  (1 <= length level <= 2 ^ fuel)%nat -> length (root_loop hs fuel h level) = 1%nat.
Proof.
  revert h level; induction fuel as [|fuel IH]; intros h level Hl; cbn [root_loop].
  - cbn in Hl. lia.
  - apply IH. rewrite length_parent_pad. cbn [Nat.pow] in Hl. split.
    + apply (Nat.div_le_lower_bound); lia.
    + apply Nat.lt_succ_r, Nat.Div0.div_lt_upper_bound. lia.
Qed.

Lemma nat_pow2 d : (0 <= d) -> Z.of_nat (2 ^ Z.to_nat d) = 2 ^ d.
Proof. intros Hd. rewrite Nat2Z.inj_pow, Z2Nat.id by lia. done. Qed.

Lemma root_loop_nil hs fuel h : root_loop hs fuel h [] = [].
Proof. revert h; induction fuel as [|fuel IH]; intros h; [done|]. apply IH. Qed.

Lemma root_from_commitments_node d cs :
  (length cs <= 2 ^ d)%nat -> root_from_commitments d cs = node cs d 0.
Proof.
  intros Hl. unfold root_from_commitments.
  pose proof (root_loop_ok cs d d 0 (hash_leaf <$> cs) ltac:(lia) (level_ok_leaves cs) 0%nat) as Hn.
  destruct cs as [|c cs].
  - rewrite empty_hashes_index by done. cbn [Nat.add fmap list_fmap] in Hn.
    by rewrite Hn, root_loop_nil.
  - set (level := root_loop _ _ _ _) in *.
    assert (length level = 1%nat) as Hlen.
    { apply root_loop_length. rewrite length_fmap. cbn [length] in *. lia. }
    cbn [Nat.add] in Hn. rewrite Hn. unfold index_of.
    destruct level as [|x [|]]; done.
Qed.

(** The path of siblings, from the leaf to below the root. *)
Definition sibling_path (cs : list Commitment) (d i : nat) : list Hash :=
  (fun h => node cs h (sibling_index (i / 2 ^ h))) <$> seq 0 d.

Lemma sibling_index_lt i n : Nat.even n = true -> (i < n)%nat -> (sibling_index i < n)%nat.
Proof.
  unfold sibling_index. intros He Hi. destruct (Nat.even i) eqn:Hei; [|lia].
  apply Nat.even_spec in He as [k ->]. apply Nat.even_spec in Hei as [j ->]. lia.
Qed.

(** The proof loop: every index is in range and the sibling is the node of the
    full tree. *)
Lemma prove_loop_path cs d fuel h level i :
  (h + fuel <= d)%nat -> level_ok cs h level -> (i < length level)%nat ->
  prove_loop (empty_hashes d) fuel h level i =
  (fun k => node cs (h + k) (sibling_index (i / 2 ^ k))) <$> seq 0 fuel.
Proof.
  revert h level i; induction fuel as [|fuel IH]; intros h level i Hd Hok Hi; [done|].
  cbn [prove_loop seq fmap list_fmap].
  rewrite empty_hashes_index by lia. f_equal.
  - rewrite Nat.add_0_r, Nat.pow_0_r, Nat.div_1_r, Hok. unfold index_of.
    rewrite <-(nth_pad (empty_hash h) level). apply nth_indep. apply sibling_index_lt; [apply even_length_pad|].
    unfold pad. destruct (Nat.odd _); rewrite ?length_app; lia.
  - rewrite IH; [|lia|by apply level_ok_parent|].
    + rewrite <-fmap_S_seq, <-list_fmap_compose. apply list_fmap_ext. intros _ k _. cbn [compose].
      rewrite Nat.add_succ_comm. do 2 f_equal.
      by rewrite Nat.pow_succ_r', Nat.Div0.div_div.
    + rewrite length_parent_pad. apply Nat.Div0.div_lt_upper_bound.
      pose proof (Nat.div_mod_eq (length level + 1) 2).
      pose proof (Nat.mod_upper_bound (length level + 1) 2). lia.
Qed.

(** Verification climbs the full tree along the index. *)
Lemma land_1_even_nat z : 0 <= z -> (Z.land z 1 =? 0) = Nat.even (Z.to_nat z).
Proof. intros Hz. by rewrite land_1_even, <-Z_even_of_nat, Z2Nat.id. Qed.

Lemma shiftr_1_div z : 0 <= z -> Z.to_nat (Z.shiftr z 1) = (Z.to_nat z / 2)%nat.
Proof. intros Hz. rewrite Z.shiftr_div_pow2, Z2Nat.inj_div by lia. done. Qed.

(** The parent of node [i] at height [h], from the node and its sibling. *)
Lemma node_parent cs h i :
  node cs (S h) (i / 2) =
  if Nat.even i then hash_node (node cs h i) (node cs h (sibling_index i))
  else hash_node (node cs h (sibling_index i)) (node cs h i).
Proof.
  cbn [node]. unfold sibling_index. destruct (Nat.even i) eqn:He.
  - apply Nat.even_spec in He as [k ->].
    rewrite (Nat.mul_comm 2 k), Nat.div_mul, (Nat.mul_comm k 2) by lia. done.
  - assert (Nat.odd i = true) as [k ->]%Nat.odd_spec by (unfold Nat.odd; by rewrite He).
    replace ((2 * k + 1) / 2)%nat with k.
    + f_equal. f_equal. lia.
    + rewrite Nat.add_comm, (Nat.mul_comm 2 k), Nat.div_add by lia. done.
Qed.

Lemma verify_loop_complete cs fuel h i :
  0 <= i ->
  verify_loop (node cs h (Z.to_nat i)) i
    ((fun k => node cs (h + k) (sibling_index (Z.to_nat i / 2 ^ k))) <$> seq 0 fuel) =
  node cs (h + fuel) (Z.to_nat i / 2 ^ fuel).
Proof.
  revert h i; induction fuel as [|fuel IH]; intros h i Hi.
  - cbn [seq fmap list_fmap verify_loop]. by rewrite Nat.add_0_r, Nat.pow_0_r, Nat.div_1_r.
  - cbn [seq fmap list_fmap verify_loop]. rewrite Nat.add_0_r, Nat.pow_0_r, Nat.div_1_r.
    rewrite land_1_even_nat, <-node_parent, <-shiftr_1_div by done.
    rewrite <-fmap_S_seq, <-list_fmap_compose.
    rewrite Nat.pow_succ_r', <-Nat.Div0.div_div, <-shiftr_1_div, <-Nat.add_succ_comm by done.
    rewrite <-IH by (apply Z.shiftr_nonneg; lia). f_equal.
    apply list_fmap_ext. intros _ k _. cbn [compose].
    rewrite Nat.add_succ_comm. do 2 f_equal.
    by rewrite Nat.pow_succ_r', shiftr_1_div, Nat.Div0.div_div by done.
Qed.

End Levels.

(** ** Binding *)

Section Binding.
Context `{Sha2}.

(** The preimages [verify] hashes. *)
Definition step_preimage (current : Hash) (index : Z) (sibling : Hash) : list byte :=
  if Z.land index 1 =? 0 then node_preimage current sibling else node_preimage sibling current.

Fixpoint verify_preimages (current : Hash) (index : Z) (siblings : list Hash) : list (list byte) :=
  match siblings with
  | [] => []
  | sibling :: siblings =>
      let preimage := step_preimage current index sibling in
      preimage :: verify_preimages (sha256 preimage) (Z.shiftr index 1) siblings
  end.

Definition proof_preimages (c : Commitment) (p : InclusionProof) : list (list byte) :=
  leaf_preimage c :: verify_preimages (hash_leaf c) (leaf_index p) (siblings p).

(** The preimages of the tree's nodes on the path of leaf [i]. *)
Definition leaf_input (cs : list Commitment) (i : nat) : list byte :=
  match cs !! i with Some c => leaf_preimage c | None => EMPTY_LEAF_DOMAIN end.

Fixpoint path_preimages (cs : list Commitment) (fuel h i : nat) : list (list byte) :=
  match fuel with
  | O => []
  | S fuel =>
      node_preimage (node cs h (2 * (i / 2))) (node cs h (2 * (i / 2) + 1)) ::
      path_preimages cs fuel (S h) (i / 2)
  end.

Definition tree_preimages (cs : list Commitment) (d i : nat) : list (list byte) :=
  leaf_input cs i :: path_preimages cs d 0 i.

Lemma node_preimage_inj a b a' b' :
  node_preimage a b = node_preimage a' b' -> a = a' /\ b = b'.
Proof.
  unfold node_preimage. intros He%app_inv_head.
  apply app_inj_1 in He as [->%array_eq ->%array_eq]; [done|]. by rewrite !length_arr.
Qed.

Lemma leaf_preimage_inj a b : leaf_preimage a = leaf_preimage b -> a = b.
Proof. unfold leaf_preimage. by intros ->%app_inv_head%array_eq. Qed.

(** Leaf and empty-leaf preimages live in different domains. *)
Lemma leaf_preimage_not_empty c : leaf_preimage c <> EMPTY_LEAF_DOMAIN.
Proof.
  intros He%(f_equal length). unfold leaf_preimage in He.
  rewrite length_app, length_arr in He. discriminate He.
Qed.

Lemma sha256_leaf_input cs i : sha256 (leaf_input cs i) = node cs 0 i.
Proof. cbn. unfold leaf_input, leaf. by destruct (cs !! i). Qed.

Lemma mod_pow2_step i j n :
  0 <= i -> Z.of_nat j mod 2 ^ Z.of_nat (S n) = i mod 2 ^ Z.of_nat (S n) ->
  (Z.land i 1 =? 0) = Nat.even j /\
  Z.of_nat (j / 2) mod 2 ^ Z.of_nat n = Z.shiftr i 1 mod 2 ^ Z.of_nat n.
Proof.
  intros Hi. rewrite Nat2Z.inj_succ, Z.pow_succ_r, !Z.rem_mul_r by lia. intros He.
  rewrite Nat2Z.inj_div, Z.shiftr_div_pow2 by lia. change (2 ^ 1) with 2. change (Z.of_nat 2) with 2.
  pose proof (Z.mod_pos_bound i 2). pose proof (Z.mod_pos_bound (Z.of_nat j) 2).
  split; [|lia]. rewrite land_1_even, <-Z_even_of_nat.
  assert (Z.of_nat j mod 2 = i mod 2) as Hp by lia. rewrite !Zmod_even in Hp.
  by destruct (Z.even i), (Z.even (Z.of_nat j)).
Qed.

(** All preimages hashed below node [i] at height [h]. *)
Fixpoint subtree_preimages (cs : list Commitment) (h i : nat) : list (list byte) :=
  match h with
  | O => [leaf_input cs i]
  | S h =>
      node_preimage (node cs h (2 * i)) (node cs h (2 * i + 1)) ::
      subtree_preimages cs h (2 * i) ++ subtree_preimages cs h (2 * i + 1)
  end.

(** Equal nodes have equal leaves below them. *)
Lemma node_inj cs1 cs2 inputs h i j :
  collision_free inputs ->
  subtree_preimages cs1 h i ⊆ inputs -> subtree_preimages cs2 h i ⊆ inputs ->
  node cs1 h i = node cs2 h i -> (j / 2 ^ h = i)%nat -> leaf_input cs1 j = leaf_input cs2 j.
Proof.
  intros Hcf. revert i; induction h as [|h IH]; intros i H1 H2 He Hj.
  - rewrite Nat.pow_0_r, Nat.div_1_r in Hj. subst j. rewrite <-!sha256_leaf_input in He.
    cbn [subtree_preimages] in *. apply Hcf; [set_solver..|done].
  - cbn [node subtree_preimages] in *. apply Hcf in He; [|set_solver..].
    apply node_preimage_inj in He as [Hl Hr].
    rewrite Nat.pow_succ_r', Nat.mul_comm, <-Nat.Div0.div_div in Hj.
    pose proof (Nat.div_mod_eq (j / 2 ^ h) 2) as Hdm.
    pose proof (Nat.mod_upper_bound (j / 2 ^ h) 2 ltac:(lia)) as Hm.
    destruct ((j / 2 ^ h) mod 2)%nat as [|[|]] eqn:E; [| |lia].
    + apply (IH (2 * i)%nat); [set_solver..|done|lia].
    + apply (IH (2 * i + 1)%nat); [set_solver..|done|lia].
Qed.

Lemma leaf_input_inj cs1 cs2 i : leaf_input cs1 i = leaf_input cs2 i -> cs1 !! i = cs2 !! i.
Proof.
  unfold leaf_input. destruct (cs1 !! i), (cs2 !! i); intros He.
  - by apply leaf_preimage_inj in He as ->.
  - by apply leaf_preimage_not_empty in He.
  - by apply symmetry, leaf_preimage_not_empty in He.
  - done.
Qed.

(** The root determines the list of commitments. *)
Lemma node_root_inj cs1 cs2 d :
  (length cs1 <= 2 ^ d)%nat -> (length cs2 <= 2 ^ d)%nat ->
  collision_free (subtree_preimages cs1 d 0 ++ subtree_preimages cs2 d 0) ->
  node cs1 d 0 = node cs2 d 0 -> cs1 = cs2.
Proof.
  intros H1 H2 Hcf He. apply list_eq. intros i.
  destruct (decide (i < 2 ^ d)%nat) as [Hi|Hi].
  - apply leaf_input_inj. eapply (node_inj cs1 cs2 _ d 0 i Hcf); [set_solver..|done|].
    by apply Nat.div_small.
  - by rewrite !lookup_ge_None_2 by lia.
Qed.

(** Climbing to a node of the tree without a collision starts at a node of the
    tree. *)
Lemma verify_loop_sound cs sibs h i j cur inputs :
  collision_free inputs -> 0 <= i ->
  verify_preimages cur i sibs ⊆ inputs -> path_preimages cs (length sibs) h j ⊆ inputs ->
  Z.of_nat j mod 2 ^ len sibs = i mod 2 ^ len sibs ->
  verify_loop cur i sibs = node cs (h + length sibs) (j / 2 ^ length sibs) ->
  cur = node cs h j.
Proof.
  intros Hcf. revert h i j cur; induction sibs as [|s sibs IH]; intros h i j cur Hi Hv Hp Hm He.
  - cbn [length verify_loop] in He. by rewrite Nat.add_0_r, Nat.pow_0_r, Nat.div_1_r in He.
  - cbn [length verify_loop verify_preimages path_preimages] in *.
    destruct (mod_pow2_step _ _ _ Hi Hm) as [Hpar Hm'].
    assert (sha256 (step_preimage cur i s) = node cs (S h) (j / 2)) as Hstep.
    { apply (IH (S h) (Z.shiftr i 1) (j / 2)%nat);
        [apply Z.shiftr_nonneg; lia|set_solver|set_solver|done|].
      rewrite Nat.Div0.div_div, <-Nat.pow_succ_r', Nat.add_succ_comm, <-He.
      unfold step_preimage. by destruct (_ =? _). }
    cbn [node] in Hstep. apply Hcf in Hstep; [|set_solver..].
    unfold step_preimage in Hstep. rewrite Hpar in Hstep.
    pose proof (Nat.div_mod_eq j 2) as Hj. destruct (Nat.even j) eqn:Hev.
    + apply node_preimage_inj in Hstep as [-> _]. f_equal.
      apply Nat.even_spec in Hev as [k ->]. rewrite (Nat.mul_comm 2 k), Nat.div_mul by lia. lia.
    + apply node_preimage_inj in Hstep as [_ ->]. f_equal.
      assert (Nat.odd j = true) as [k ->]%Nat.odd_spec by (unfold Nat.odd; by rewrite Hev).
      rewrite (Nat.add_comm (2 * k)), (Nat.mul_comm 2 k), Nat.div_add by lia. cbn. lia.
Qed.

End Binding.

(** ** Properties *)

Lemma validate_depth_Ok d u : validate_depth d = Ok u <-> MIN_DEPTH <= d <= MAX_DEPTH.
Proof.
  unfold validate_depth. destruct u. split.
  - intros H. inv_ok. zbool. done.
  - intros Hd. by rewrite (proj2 (andb_true_iff _ _)) by lia.
Qed.

Lemma tree_wf_nat t :
  tree_wf t -> (length (commitments t) <= 2 ^ Z.to_nat (depth t))%nat.
Proof.
  intros [Hd Hl]. pose proof (capacity_bounds t Hd) as [_ Hc].
  apply Nat2Z.inj_le. rewrite nat_pow2 by (unfold MIN_DEPTH in *; lia). lia.
Qed.

Lemma root_node `{Sha2} t :
  tree_wf t -> root t = mk_MerkleRoot (node (commitments t) (Z.to_nat (depth t)) 0) (depth t).
Proof. intros Hwf. unfold root. by rewrite root_from_commitments_node by by apply tree_wf_nat. Qed.

(** The sample tree of the witnesses: three leaves at depth two. *)
Definition sample_tree : MerkleTree := mk_MerkleTree 2 [id_of x01; id_of x02; id_of x03].

(** the root computed level by level over the occupied leaves, with odd
    levels padded by precomputed empty-subtree hashes, is the root of the full
    binary tree of [2^depth] leaves in which every unoccupied leaf is the empty
    leaf; all [Vec] indexing of the computation is in range on the way. *)
Theorem root_is_full_tree `{Sha2} t :
  tree_wf t ->
  root t = mk_MerkleRoot (node (commitments t) (Z.to_nat (depth t)) 0) (depth t) /\
  (commitments t <> [] ->
   length (root_loop (empty_hashes (Z.to_nat (depth t))) (Z.to_nat (depth t)) 0
             (hash_leaf <$> commitments t)) = 1%nat).
Proof.
  intros Hwf. split; [by apply root_node|]. intros Hne. apply root_loop_length.
  rewrite length_fmap. pose proof (tree_wf_nat t Hwf). destruct (commitments t); [done|].
  cbn [length] in *. lia.
Qed.

Lemma root_is_full_tree_witness :
  let hash := toy_sha2 in
  tree_wf sample_tree /\
  digest (root sample_tree) = node (commitments sample_tree) 2 0.
Proof.
  intros hash. assert (tree_wf sample_tree) as Hwf by by_eval.
  split; [exact Hwf|]. destruct (root_is_full_tree sample_tree Hwf) as [-> _]. reflexivity.
Defined.

(** a proof exists for exactly the occupied positions, and the generated
    proof verifies against the tree's root for the commitment at that
    position. *)
Theorem prove_verify_complete `{Sha2} t i :
  tree_wf t -> 0 <= i ->
  match commitments t !! Z.to_nat i with
  | Some c => exists p, prove t i = Ok p /\ leaf_index p = i /\ verify (root t) c p = Ok true
  | None => prove t i = Err (MerkleError.LeafIndexOutOfRange i (len (commitments t)))
  end.
Proof.
  intros Hwf Hi. pose proof Hwf as [Hd _]. unfold MIN_DEPTH, MAX_DEPTH in Hd.
  destruct (commitments t !! Z.to_nat i) as [c|] eqn:Hc; unfold prove.
  - pose proof (lookup_lt_Some _ _ _ Hc).
    rewrite (proj2 (Z.leb_gt _ _)) by lia. eexists. split; [done|]. split; [done|].
    rewrite (prove_loop_path (commitments t));
      [|lia|apply level_ok_leaves|rewrite length_fmap; lia].
    unfold verify, proof_depth. cbn [siblings leaf_index]. rewrite length_fmap, length_seq.
    rewrite Z2Nat.id, Z.mod_small by lia.
    rewrite (proj2 (validate_depth_Ok (depth t) tt)) by (unfold MIN_DEPTH, MAX_DEPTH; lia).
    cbn [mbind result_bind root_depth root]. rewrite Z.eqb_refl. cbn [negb].
    rewrite bool_decide_eq_true_2; [done|].
    pose proof (verify_loop_complete (commitments t) (Z.to_nat (depth t)) 0 i Hi) as Hv.
    cbn [node] in Hv. unfold leaf in Hv. rewrite Hc in Hv. cbn [Nat.add] in *. rewrite Hv.
    change (digest _) with (digest (root t)). rewrite root_node by done. cbn [digest].
    f_equal. apply Nat.div_small. apply tree_wf_nat in Hwf. lia.
  - apply lookup_ge_None in Hc. by rewrite (proj2 (Z.leb_le _ _)) by lia.
Qed.

Lemma prove_verify_complete_witness :
  let hash := toy_sha2 in
  (exists p, prove sample_tree 2 = Ok p /\ leaf_index p = 2 /\
     verify (root sample_tree) (id_of x03) p = Ok true) /\
  prove sample_tree 3 = Err (MerkleError.LeafIndexOutOfRange 3 3).
Proof.
  intros hash. assert (tree_wf sample_tree) as Hwf by by_eval.
  split; [apply (prove_verify_complete sample_tree 2 Hwf)|
          apply (prove_verify_complete sample_tree 3 Hwf)]; lia.
Defined.

(** C29: binding.  If [verify] accepts a commitment against the root of a tree,
    then the tree holds exactly that commitment at the proof's position (taken
    modulo the number of leaves, as the loop consumes [depth] bits), unless two
    of the finitely many strings hashed by the verifier and by the tree along
    that path collide under SHA-256.  In particular a proof can open neither an
    empty leaf nor an internal node. *)
Theorem verify_binding `{Sha2} t c p :
  tree_wf t -> 0 <= leaf_index p -> len (siblings p) < 256 ->
  let i := Z.to_nat (leaf_index p mod 2 ^ depth t) in
  collision_free (proof_preimages c p ++ tree_preimages (commitments t) (Z.to_nat (depth t)) i) ->
  verify (root t) c p = Ok true ->
  commitments t !! i = Some c.
Proof.
  intros Hwf Hi Hlen i Hcf Hv. pose proof Hwf as [Hd _]. unfold MIN_DEPTH, MAX_DEPTH in Hd.
  unfold verify, proof_depth in Hv. rewrite Z.mod_small in Hv by lia. inv_ok. zbool.
  change (root_depth (root t)) with (depth t) in Hb.
  rewrite root_from_commitments_node in Hv by by apply tree_wf_nat.
  assert (length (siblings p) = Z.to_nat (depth t)) as Hl by lia.
  pose proof (Z.pow_pos_nonneg 2 (depth t) ltac:(lia) ltac:(lia)).
  pose proof (Z.mod_pos_bound (leaf_index p) (2 ^ depth t) ltac:(lia)) as Hmod.
  assert (hash_leaf c = node (commitments t) 0 i) as Hleaf.
  { eapply (verify_loop_sound _ (siblings p) 0 (leaf_index p)); [exact Hcf|done|..].
    - unfold proof_preimages. set_solver.
    - unfold tree_preimages. rewrite Hl. set_solver.
    - subst i. replace (len (siblings p)) with (depth t) by lia.
      rewrite Z2Nat.id by lia. apply Z.mod_mod. lia.
    - cbn [Nat.add]. rewrite Hv, Hl. f_equal. symmetry. apply Nat.div_small.
      apply Nat2Z.inj_lt. rewrite nat_pow2 by lia. lia. }
  rewrite <-sha256_leaf_input in Hleaf.
  apply Hcf in Hleaf; [|unfold proof_preimages, tree_preimages; set_solver..].
  unfold leaf_input in Hleaf. destruct (commitments t !! i) as [c'|].
  - by apply leaf_preimage_inj in Hleaf as ->.
  - by apply leaf_preimage_not_empty in Hleaf.
Qed.

Lemma verify_binding_witness :
  let hash := toy_sha2 in
  let p := mk_InclusionProof 1
    (sibling_path (commitments sample_tree) 2 1) in
  verify (root sample_tree) (id_of x02) p = Ok true /\
  commitments sample_tree !! 1%nat = Some (id_of x02).
Proof.
  intros hash p. split; [by_eval|]. apply (verify_binding sample_tree (id_of x02) p).
  - by_eval.
  - by_eval.
  - by_eval.
  - apply collision_freeb_spec. by_eval.
  - by_eval.
Defined.
