(* ===== verification/Ledger.v ===== *)
(** * The public ledger ([noxis-ledger])

    The state is the source's six collections: registered assets, the set of
    commitments and the Merkle tree over their append order, spent nullifiers,
    issued supply per asset, and accepted transaction identifiers.  [HashMap]
    and [HashSet] are stdpp's [gmap] and [gset]; wherever the source iterates
    over one it sorts the result, so the iteration order of the model's
    [map_to_list]/[elements] is not observable.

    [apply] is the source's two phases: [prepare_transition] only reads the
    state, [commit_transition] changes it.  Both are programs of the
    state-and-error monad, so the state left behind by a failing call is part of
    the model. *)

From Stdlib Require Import Strings.Byte Strings.String.
From S2P Require Import Prelude Arrays Sha256 Types Crypto Merkle.

(** ** Transactions ([model.rs]) *)

Record Transfer : Type := mk_Transfer {
  tr_asset_id : AssetId;
  tr_input_nullifiers : list Nullifier;
  tr_output_commitments : list Commitment;
  tr_proof : Proof
}.

Record Mint : Type := mk_Mint {
  mint_asset_id : AssetId;
  mint_amount : Amount;
  mint_output_commitments : list Commitment;
  mint_authorization : list byte
}.

Inductive Operation : Type :=
| OpTransfer (transfer : Transfer)
| OpMint (mint : Mint).

Record Transaction : Type := mk_Transaction {
  tx_id : TransactionId;
  tx_suite : CryptoSuite;
  tx_operation : Operation
}.

#[global] Instance Transfer_eq_dec : EqDecision Transfer.
Proof. solve_decision. Defined.
#[global] Instance Mint_eq_dec : EqDecision Mint.
Proof. solve_decision. Defined.
#[global] Instance Operation_eq_dec : EqDecision Operation.
Proof. solve_decision. Defined.
#[global] Instance Transaction_eq_dec : EqDecision Transaction.
Proof. solve_decision. Defined.

Record TransactionValidationContext : Type := mk_TransactionValidationContext {
  tvc_genesis_id : GenesisId;
  tvc_validation_context_id : ValidationContextId;
  tvc_transaction_intent_id : TransactionIntentId;
  tvc_state_id : StateId
}.

Record MintStatement : Type := mk_MintStatement {
  ms_genesis_id : GenesisId;
  ms_validation_context_id : ValidationContextId;
  ms_transaction_intent_id : TransactionIntentId;
  ms_state_id : StateId;
  ms_asset_id : AssetId;
  ms_amount : Amount;
  ms_output_commitments : list Commitment;
  ms_state_anchor : StateAnchor;
  ms_issued_supply_before : option Amount
}.

Module MintAuthorizationError.
Inductive MintAuthorizationError : Type := Denied.
End MintAuthorizationError.
Abbreviation MintAuthorizationError := MintAuthorizationError.MintAuthorizationError.

(** [trait MintPolicy]. *)
Record MintPolicy : Type := mk_MintPolicy {
  mint_policy_id : MintPolicyId;
  authorize : MintStatement -> list byte -> Result MintAuthorizationError unit
}.

Definition DenyAllMints : MintPolicy := {|
  mint_policy_id := fill 32 x00;
  authorize _ _ := Err MintAuthorizationError.Denied
|}.

(** ** Errors ([error.rs]) *)

Module LedgerError.
Inductive LedgerError : Type :=
| AssetAlreadyRegistered (id : AssetId)
| UnknownAsset (id : AssetId)
| DuplicateTransaction (id : TransactionId)
| NullifierAlreadySpent (nullifier : Nullifier)
| CommitmentAlreadyExists (commitment : Commitment)
| EmptyField (label : string)
| SupplyOverflow (id : AssetId)
| ValidationStateIdMismatch (expected supplied : StateId)
| Merkle (error : MerkleError)
| MintAuthorization (error : MintAuthorizationError)
| Proof (error : VerificationError).
End LedgerError.
Abbreviation LedgerError := LedgerError.LedgerError.

Module LedgerSnapshotError.
Inductive LedgerSnapshotError : Type :=
| Merkle (error : MerkleError)
| Ledger (error : LedgerError)
| AssetsNotStrictlySorted (index : Z)
| InvalidAsset (index : Z) (source : AssetError)
| DuplicateCommitment (commitment : Commitment)
| NullifiersNotStrictlySorted
| SupplyNotStrictlySorted (index : Z)
| SupplyForUnknownAsset (id : AssetId)
| TransactionsNotStrictlySorted.
End LedgerSnapshotError.
Abbreviation LedgerSnapshotError := LedgerSnapshotError.LedgerSnapshotError.

(** ** State ([state.rs]) *)

Record LedgerState : Type := mk_LedgerState {
  ls_assets : gmap AssetId AssetDefinition;
  ls_commitments : gset Commitment;
  ls_commitment_tree : MerkleTree;
  ls_spent_nullifiers : gset Nullifier;
  ls_issued_supply : gmap AssetId Amount;
  ls_accepted_transactions : gset TransactionId
}.

Record LedgerSnapshot : Type := mk_LedgerSnapshot {
  snap_tree_depth : Z;
  snap_assets : list AssetDefinition;
  snap_commitments : list Commitment;
  snap_spent_nullifiers : list Nullifier;
  snap_issued_supply : list (AssetId * Amount);
  snap_accepted_transactions : list TransactionId
}.

#[global] Instance LedgerSnapshot_eq_dec : EqDecision LedgerSnapshot.
Proof. solve_decision. Defined.

(** [LedgerState::new]. *)
Definition ledger_new (tree_depth : Z) : Result LedgerError LedgerState :=
  tree ← map_err LedgerError.Merkle (tree_new tree_depth);
  Ok (mk_LedgerState ∅ ∅ tree ∅ ∅ ∅).

Definition contains_commitment (self : LedgerState) (c : Commitment) : bool :=
  bool_decide (c ∈ ls_commitments self).

Definition is_spent (self : LedgerState) (n : Nullifier) : bool :=
  bool_decide (n ∈ ls_spent_nullifiers self).

(** ** Canonical snapshots ([invariants.rs]) *)

(** [previous.is_some_and(|previous| previous >= id)]. *)
Definition not_increasing (previous : option AssetId) (id : AssetId) : bool :=
  match previous with Some p => negb (bool_decide (array_lt p id)) | None => false end.

Fixpoint canonical_assets_loop (index : Z) (prior : option AssetId) (assets : list AssetDefinition)
    : Result LedgerSnapshotError (list AssetDefinition) :=
  match assets with
  | [] => Ok []
  | asset :: assets =>
      if not_increasing prior (asset_id asset)
      then Err (LedgerSnapshotError.AssetsNotStrictlySorted index)
      else
        canonical ← map_err (LedgerSnapshotError.InvalidAsset index)
                      (asset_definition_new (asset_id asset) (asset_ticker asset) (asset_kind asset));
        rest ← canonical_assets_loop (index + 1) (Some (asset_id canonical)) assets;
        Ok (canonical :: rest)
  end.

Fixpoint canonical_commitments_loop (commitment_set : gset Commitment) (tree : MerkleTree)
    (commitments : list Commitment) : Result LedgerSnapshotError unit :=
  match commitments with
  | [] => Ok tt
  | commitment :: commitments =>
      if bool_decide (commitment ∈ commitment_set)
      then Err (LedgerSnapshotError.DuplicateCommitment commitment)
      else
        match append commitment tree with
        | (Err e, _) => Err (LedgerSnapshotError.Merkle e)
        | (Ok _, tree) =>
            canonical_commitments_loop ({[commitment]} ∪ commitment_set) tree commitments
        end
  end.

Fixpoint canonical_supply_loop (index : Z) (asset_ids : gset AssetId) (prior : option AssetId)
    (supply : list (AssetId * Amount)) : Result LedgerSnapshotError unit :=
  match supply with
  | [] => Ok tt
  | (asset_id, _) :: supply =>
      if not_increasing prior asset_id
      then Err (LedgerSnapshotError.SupplyNotStrictlySorted index)
      else if negb (bool_decide (asset_id ∈ asset_ids))
      then Err (LedgerSnapshotError.SupplyForUnknownAsset asset_id)
      else canonical_supply_loop (index + 1) asset_ids (Some asset_id) supply
  end.

(** [LedgerSnapshot::from_canonical_parts]. *)
Definition from_canonical_parts (tree_depth : Z) (assets : list AssetDefinition)
    (commitments : list Commitment) (spent_nullifiers : list Nullifier)
    (issued_supply : list (AssetId * Amount)) (accepted_transactions : list TransactionId)
    : Result LedgerSnapshotError LedgerSnapshot :=
  canonical_assets ← canonical_assets_loop 0 None assets;
  tree ← map_err LedgerSnapshotError.Merkle (tree_new tree_depth);
  _ ← canonical_commitments_loop ∅ tree commitments;
  _ ← ensure (strictly_sorted spent_nullifiers) LedgerSnapshotError.NullifiersNotStrictlySorted;
  _ ← ensure (strictly_sorted accepted_transactions)
        LedgerSnapshotError.TransactionsNotStrictlySorted;
  _ ← canonical_supply_loop 0 (list_to_set (asset_id <$> canonical_assets)) None issued_supply;
  Ok (mk_LedgerSnapshot tree_depth canonical_assets commitments spent_nullifiers
        issued_supply accepted_transactions).

(** [LedgerState::snapshot]; [None] is the panic of its [expect]. *)
Definition snapshot (self : LedgerState) : option LedgerSnapshot :=
  match
    from_canonical_parts (depth (ls_commitment_tree self))
      (sort_by_key asset_id (map_to_list (ls_assets self)).*2)
      (commitments (ls_commitment_tree self))
      (sort_by_key id (elements (ls_spent_nullifiers self)))
      (sort_by_key fst (map_to_list (ls_issued_supply self)))
      (sort_by_key id (elements (ls_accepted_transactions self)))
  with
  | Ok s => Some s
  | Err _ => None
  end.

(** ** State identity ([state.rs]) *)

Definition STATE_DOMAIN : list byte := bytes_of_string "NOXIS/STATE/V2" ++ [x00].

(** The source converts the count with [u32::try_from(..).expect(..)]; a state
    with more than [u32::MAX] entries in one collection panics there and is
    outside the model ([counts_fit]). *)
Definition write_count (count : Z) : list byte := to_be_bytes 4 count.
Definition write_bytes (bytes : list byte) : list byte := write_count (len bytes) ++ bytes.

Definition kind_tag (kind : AssetKind) : byte :=
  match kind with NativeBacked => x01 | Synthetic => x02 end.

Definition asset_entry (a : AssetDefinition) : list byte :=
  arr (asset_id a) ++ [kind_tag (asset_kind a)] ++ write_bytes (asset_ticker a).

Definition supply_entry (p : AssetId * Amount) : list byte :=
  arr p.1 ++ to_be_bytes 16 (units p.2).

Definition sorted_assets (self : LedgerState) : list AssetDefinition :=
  sort_by_key asset_id (map_to_list (ls_assets self)).*2.
Definition sorted_supplies (self : LedgerState) : list (AssetId * Amount) :=
  sort_by_key fst (map_to_list (ls_issued_supply self)).
Definition sorted_ids (ids : gset Id32) : list Id32 := sort_by_key id (elements ids).

Section StateId.
Context `{Sha2}.

Definition merkle_root (self : LedgerState) : MerkleRoot := root (ls_commitment_tree self).

Definition state_preimage (self : LedgerState) (genesis_id : GenesisId) : list byte :=
  STATE_DOMAIN ++ arr genesis_id ++
  [byte_of_Z (root_depth (merkle_root self))] ++ arr (digest (merkle_root self)) ++
  write_count (len (sorted_assets self)) ++ concat (asset_entry <$> sorted_assets self) ++
  write_count (len (sorted_supplies self)) ++ concat (supply_entry <$> sorted_supplies self) ++
  write_count (len (sorted_ids (ls_spent_nullifiers self))) ++
  concat (arr <$> sorted_ids (ls_spent_nullifiers self)) ++
  write_count (len (sorted_ids (ls_accepted_transactions self))) ++
  concat (arr <$> sorted_ids (ls_accepted_transactions self)).

(** [LedgerState::state_id]. *)
Definition state_id (self : LedgerState) (genesis_id : GenesisId) : StateId :=
  sha256 (state_preimage self genesis_id).

Definition prove_commitment (self : LedgerState) (leaf_index : Z)
    : Result LedgerError InclusionProof :=
  map_err LedgerError.Merkle (prove (ls_commitment_tree self) leaf_index).

Definition state_anchor (self : LedgerState) : StateAnchor :=
  mk_StateAnchor (digest (merkle_root self)) (root_depth (merkle_root self)).

End StateId.

(** ** Validation ([invariants.rs]) *)

Inductive ValidatedTransition : Type :=
| ValidTransfer (transfer : Transfer)
| ValidMint (mint : Mint) (resulting_supply : Amount).

Definition ensure_new_transaction (self : LedgerState) (id : TransactionId)
    : Result LedgerError unit :=
  ensure (negb (bool_decide (id ∈ ls_accepted_transactions self)))
    (LedgerError.DuplicateTransaction id).

Definition ensure_registered_asset (self : LedgerState) (asset_id : AssetId)
    : Result LedgerError unit :=
  ensure (bool_decide (is_Some (ls_assets self !! asset_id))) (LedgerError.UnknownAsset asset_id).

Definition ensure_non_empty {A} (items : list A) (label : string) : Result LedgerError unit :=
  if is_empty items then Err (LedgerError.EmptyField label) else Ok tt.

(** The loop of [ensure_unique_nullifiers] and [ensure_new_commitments]:
    [if !seen.insert(x) || existing.contains(x) { return Err(..) }]. *)
Fixpoint ensure_fresh (error : Id32 -> LedgerError) (existing seen : gset Id32) (ids : list Id32)
    : Result LedgerError unit :=
  match ids with
  | [] => Ok tt
  | x :: ids =>
      if bool_decide (x ∈ seen) || bool_decide (x ∈ existing)
      then Err (error x)
      else ensure_fresh error existing ({[x]} ∪ seen) ids
  end.

Definition ensure_unique_nullifiers (self : LedgerState) (nullifiers : list Nullifier)
    : Result LedgerError unit :=
  ensure_fresh LedgerError.NullifierAlreadySpent (ls_spent_nullifiers self) ∅ nullifiers.

Definition ensure_new_commitments (self : LedgerState) (cs : list Commitment)
    : Result LedgerError unit :=
  _ ← ensure_non_empty cs "output commitments";
  _ ← ensure_fresh LedgerError.CommitmentAlreadyExists (ls_commitments self) ∅ cs;
  resulting_count ← ok_or
    (checked_add USIZE_MAX (len (commitments (ls_commitment_tree self))) (len cs))
    (LedgerError.Merkle MerkleError.IndexOverflow);
  if capacity (ls_commitment_tree self) <? resulting_count
  then Err (LedgerError.Merkle (MerkleError.TreeFull (capacity (ls_commitment_tree self))))
  else Ok tt.

Section Apply.
Context `{Sha2}.

Definition transfer_statement (self : LedgerState) (transfer : Transfer)
    (context : TransactionValidationContext) : TransferStatement := {|
  ts_genesis_id := tvc_genesis_id context;
  ts_validation_context_id := tvc_validation_context_id context;
  ts_transaction_intent_id := tvc_transaction_intent_id context;
  ts_state_id := tvc_state_id context;
  ts_asset_id := tr_asset_id transfer;
  ts_input_nullifiers := tr_input_nullifiers transfer;
  ts_output_commitments := tr_output_commitments transfer;
  ts_state_anchor := state_anchor self
|}.

Definition validate_transfer (self : LedgerState) (suite : CryptoSuite) (transfer : Transfer)
    (verifier : ProofVerifier) (context : TransactionValidationContext)
    : Result LedgerError unit :=
  _ ← ensure_registered_asset self (tr_asset_id transfer);
  _ ← ensure_non_empty (tr_input_nullifiers transfer) "input nullifiers";
  _ ← ensure_unique_nullifiers self (tr_input_nullifiers transfer);
  _ ← ensure_new_commitments self (tr_output_commitments transfer);
  if negb (suite_version (tr_proof transfer) =? cs_version suite)
  then Err (LedgerError.Proof VerificationError.UnsupportedSuite)
  else map_err LedgerError.Proof
         (verify_transfer verifier (transfer_statement self transfer context) (tr_proof transfer)).

Definition mint_statement (self : LedgerState) (mint : Mint)
    (context : TransactionValidationContext) : MintStatement := {|
  ms_genesis_id := tvc_genesis_id context;
  ms_validation_context_id := tvc_validation_context_id context;
  ms_transaction_intent_id := tvc_transaction_intent_id context;
  ms_state_id := tvc_state_id context;
  ms_asset_id := mint_asset_id mint;
  ms_amount := mint_amount mint;
  ms_output_commitments := mint_output_commitments mint;
  ms_state_anchor := state_anchor self;
  ms_issued_supply_before := ls_issued_supply self !! mint_asset_id mint
|}.

Definition validate_mint (self : LedgerState) (mint : Mint) (mint_policy : MintPolicy)
    (context : TransactionValidationContext) : Result LedgerError Amount :=
  _ ← ensure_registered_asset self (mint_asset_id mint);
  _ ← ensure_new_commitments self (mint_output_commitments mint);
  _ ← map_err LedgerError.MintAuthorization
        (authorize mint_policy (mint_statement self mint context) (mint_authorization mint));
  ok_or
    (match ls_issued_supply self !! mint_asset_id mint with
     | None => Some (mint_amount mint)
     | Some current => amount_checked_add current (mint_amount mint)
     end)
    (LedgerError.SupplyOverflow (mint_asset_id mint)).

Definition prepare_transition (self : LedgerState) (transaction : Transaction)
    (verifier : ProofVerifier) (mint_policy : MintPolicy) (context : TransactionValidationContext)
    : Result LedgerError ValidatedTransition :=
  let computed_state_id := state_id self (tvc_genesis_id context) in
  if negb (bool_decide (computed_state_id = tvc_state_id context))
  then Err (LedgerError.ValidationStateIdMismatch computed_state_id (tvc_state_id context))
  else
    _ ← ensure_new_transaction self (tx_id transaction);
    match tx_operation transaction with
    | OpTransfer transfer =>
        _ ← validate_transfer self (tx_suite transaction) transfer verifier context;
        Ok (ValidTransfer transfer)
    | OpMint mint =>
        resulting_supply ← validate_mint self mint mint_policy context;
        Ok (ValidMint mint resulting_supply)
    end.

(** ** Mutation ([mutation.rs]) *)

Definition register_asset (asset : AssetDefinition) : M LedgerState LedgerError unit :=
  self ← get;
  if bool_decide (is_Some (ls_assets self !! asset_id asset))
  then lift (Err (LedgerError.AssetAlreadyRegistered (asset_id asset)))
  else put (mk_LedgerState (<[asset_id asset := asset]> (ls_assets self)) (ls_commitments self)
              (ls_commitment_tree self) (ls_spent_nullifiers self) (ls_issued_supply self)
              (ls_accepted_transactions self)).

(** [for commitment in commitments { tree.append(commitment)?; }] on a tree the
    caller owns. *)
Fixpoint append_all (tree : MerkleTree) (cs : list Commitment) : Result MerkleError MerkleTree :=
  match cs with
  | [] => Ok tree
  | c :: cs =>
      match append c tree with
      | (Err e, _) => Err e
      | (Ok _, tree) => append_all tree cs
      end
  end.

Definition append_commitments (cs : list Commitment) : M LedgerState LedgerError unit :=
  self ← get;
  next_tree ← lift (map_err LedgerError.Merkle (append_all (ls_commitment_tree self) cs));
  put (mk_LedgerState (ls_assets self) (list_to_set cs ∪ ls_commitments self) next_tree
         (ls_spent_nullifiers self) (ls_issued_supply self) (ls_accepted_transactions self)).

Definition spend_nullifiers (nullifiers : list Nullifier) (self : LedgerState) : LedgerState :=
  mk_LedgerState (ls_assets self) (ls_commitments self) (ls_commitment_tree self)
    (list_to_set nullifiers ∪ ls_spent_nullifiers self) (ls_issued_supply self)
    (ls_accepted_transactions self).

Definition set_supply (asset_id : AssetId) (supply : Amount) (self : LedgerState) : LedgerState :=
  mk_LedgerState (ls_assets self) (ls_commitments self) (ls_commitment_tree self)
    (ls_spent_nullifiers self) (<[asset_id := supply]> (ls_issued_supply self))
    (ls_accepted_transactions self).

Definition accept_transaction (id : TransactionId) (self : LedgerState) : LedgerState :=
  mk_LedgerState (ls_assets self) (ls_commitments self) (ls_commitment_tree self)
    (ls_spent_nullifiers self) (ls_issued_supply self)
    ({[id]} ∪ ls_accepted_transactions self).

Definition commit_transition (transaction_id : TransactionId) (transition : ValidatedTransition)
    : M LedgerState LedgerError unit :=
  _ ← match transition with
      | ValidTransfer transfer =>
          _ ← append_commitments (tr_output_commitments transfer);
          modify (spend_nullifiers (tr_input_nullifiers transfer))
      | ValidMint mint resulting_supply =>
          _ ← append_commitments (mint_output_commitments mint);
          modify (set_supply (mint_asset_id mint) resulting_supply)
      end;
  modify (accept_transaction transaction_id).

(** [LedgerState::apply]. *)
Definition apply (transaction : Transaction) (verifier : ProofVerifier) (mint_policy : MintPolicy)
    (context : TransactionValidationContext) : M LedgerState LedgerError unit :=
  transition ← reads (fun self => prepare_transition self transaction verifier mint_policy context);
  commit_transition (tx_id transaction) transition.

End Apply.

(** [for commitment in snapshot.commitments { append?; insert }]. *)
Fixpoint restore_commitments (state : LedgerState) (cs : list Commitment)
    : Result LedgerSnapshotError LedgerState :=
  match cs with
  | [] => Ok state
  | c :: cs =>
      match append c (ls_commitment_tree state) with
      | (Err e, _) => Err (LedgerSnapshotError.Merkle e)
      | (Ok _, tree) =>
          restore_commitments
            (mk_LedgerState (ls_assets state) ({[c]} ∪ ls_commitments state) tree
               (ls_spent_nullifiers state) (ls_issued_supply state)
               (ls_accepted_transactions state)) cs
      end
  end.

Fixpoint restore_assets (state : LedgerState) (assets : list AssetDefinition)
    : Result LedgerSnapshotError LedgerState :=
  match assets with
  | [] => Ok state
  | asset :: assets =>
      match register_asset asset state with
      | (Err e, _) => Err (LedgerSnapshotError.Ledger e)
      | (Ok _, state) => restore_assets state assets
      end
  end.

(** [HashMap::extend] from a list of pairs: a later pair wins. *)
Definition extend_map (m : gmap AssetId Amount) (l : list (AssetId * Amount))
    : gmap AssetId Amount :=
  fold_left (fun m p => <[p.1 := p.2]> m) l m.

(** [LedgerState::from_snapshot]. *)
Definition from_snapshot (snap : LedgerSnapshot) : Result LedgerSnapshotError LedgerState :=
  snap ← from_canonical_parts (snap_tree_depth snap) (snap_assets snap) (snap_commitments snap)
           (snap_spent_nullifiers snap) (snap_issued_supply snap)
           (snap_accepted_transactions snap);
  state ← map_err LedgerSnapshotError.Ledger (ledger_new (snap_tree_depth snap));
  state ← restore_assets state (snap_assets snap);
  state ← restore_commitments state (snap_commitments snap);
  Ok (mk_LedgerState (ls_assets state) (ls_commitments state) (ls_commitment_tree state)
        (list_to_set (snap_spent_nullifiers snap) ∪ ls_spent_nullifiers state)
        (extend_map (ls_issued_supply state) (snap_issued_supply snap))
        (list_to_set (snap_accepted_transactions snap) ∪ ls_accepted_transactions state)).
