(* ===== verification/LedgerFacts.v ===== *)
(** * Correctness of the public ledger

    The invariant of a live ledger, the abstract transition relation that
    [apply] implements, and what follows for sequences of transactions: no
    nullifier is spent twice, no commitment is created twice, and the issued
    supply of an asset is exactly the sum of the accepted mints. *)

From Stdlib Require Import Strings.Byte Strings.String.
From S2P Require Import Prelude Arrays Sha256 Types Crypto Merkle Ledger.

(** ** Invariant *)

Record ledger_inv (s : LedgerState) : Prop := mk_ledger_inv {
  inv_tree : tree_wf (ls_commitment_tree s);
  inv_commitments : ls_commitments s = list_to_set (commitments (ls_commitment_tree s));
  inv_nodup : NoDup (commitments (ls_commitment_tree s));
  inv_assets : map_Forall (fun id a => asset_id a = id /\ asset_wf a) (ls_assets s);
  inv_supply : map_Forall (fun id m => amount_wf m /\ is_Some (ls_assets s !! id)) (ls_issued_supply s)
}.

(** ** Reference conditions *)

(** [ids] are pairwise different and none is in [existing]. *)
Definition fresh (existing : gset Id32) (ids : list Id32) : Prop :=
  NoDup ids /\ forall x, x ∈ ids -> x ∉ existing.

Lemma fresh_app existing l1 l2 :
  fresh existing l1 -> fresh (list_to_set l1 ∪ existing) l2 -> fresh existing (l1 ++ l2).
Proof.
  intros [Hn1 H1] [Hn2 H2]. split.
  - apply NoDup_app. split_and!; [done| |done]. intros x Hx1 Hx2. apply (H2 x Hx2).
    by apply elem_of_union_l, elem_of_list_to_set.
  - intros x [Hx|Hx]%elem_of_app; [by apply H1|]. intros He. apply (H2 x Hx). by apply elem_of_union_r.
Qed.

Lemma fresh_nil existing : fresh existing [].
Proof. split; [constructor|]. by intros x Hx%elem_of_nil. Qed.

Lemma ensure_fresh_seen error existing seen ids :
  ensure_fresh error existing seen ids = Ok tt <-> fresh (seen ∪ existing) ids.
Proof.
  unfold fresh. revert seen; induction ids as [|x ids IH]; intros seen; cbn.
  - split; [|done]. intros _. split; [constructor|]. set_solver.
  - rewrite NoDup_cons. destruct (bool_decide _ || bool_decide _) eqn:Hb.
    + split; [done|]. intros [_ Hx]. exfalso. apply orb_true_iff in Hb.
      specialize (Hx x ltac:(set_solver)). destruct Hb as [Hb|Hb]; zbool; set_solver.
    + zbool. rewrite IH. split.
      * intros [Hnd Hf]. split_and!; [|done|set_solver].
        intros Hx. specialize (Hf x Hx). set_solver.
      * intros [[Hni Hnd] Hf]. split; [done|]. intros y Hy.
        specialize (Hf y ltac:(set_solver)). set_solver.
Qed.

Lemma ensure_fresh_Ok error existing ids :
  ensure_fresh error existing ∅ ids = Ok tt <-> fresh existing ids.
Proof. rewrite ensure_fresh_seen. by rewrite (left_id_L ∅ (∪)). Qed.

Lemma ledger_non_empty_Ok {A} (l : list A) label : ensure_non_empty l label = Ok tt <-> l <> [].
Proof. by destruct l. Qed.

(** Outputs a transition may append: some, all new, and within capacity. *)
Definition outputs_ok (s : LedgerState) (cs : list Commitment) : Prop :=
  cs <> [] /\ fresh (ls_commitments s) cs /\
  len (commitments (ls_commitment_tree s)) + len cs <= capacity (ls_commitment_tree s).

Lemma ensure_new_commitments_Ok s cs :
  tree_wf (ls_commitment_tree s) ->
  ensure_new_commitments s cs = Ok tt <-> outputs_ok s cs.
Proof.
  intros [Hd Hl]. pose proof (capacity_bounds _ Hd) as [Hc _]. unfold MAX_COMMITMENTS in Hc.
  unfold ensure_new_commitments, outputs_ok. rewrite <-(ledger_non_empty_Ok cs "output commitments").
  rewrite <-(ensure_fresh_Ok LedgerError.CommitmentAlreadyExists). split.
  - intros H. inv_ok. zbool. apply checked_add_Some in Hx1 as [-> _].
    by destruct x, x0.
  - intros (-> & -> & Hcap). cbn [mbind result_bind].
    rewrite (proj2 (checked_add_Some _ _ _ _)) by (split; [reflexivity|lia]).
    cbn [ok_or mbind result_bind]. by rewrite (proj2 (Z.ltb_ge _ _)).
Qed.

(** ** Appending *)

Lemma append_all_Ok t cs :
  tree_wf t -> len (commitments t) + len cs <= capacity t ->
  append_all t cs = Ok (mk_MerkleTree (depth t) (commitments t ++ cs)).
Proof.
  revert t; induction cs as [|c cs IH]; intros t Hwf Hl; cbn [append_all length] in *.
  - rewrite app_nil_r. by destruct t.
  - rewrite append_spec, decide_True by (done || lia).
    rewrite IH; cbn [depth commitments].
    + by rewrite <-app_assoc.
    + eapply append_wf; [exact Hwf|]. by rewrite append_spec, decide_True by (done || lia).
    + rewrite length_app. cbn [length]. change (capacity _) with (capacity t). lia.
Qed.

Definition append_outputs (cs : list Commitment) (s : LedgerState) : LedgerState :=
  mk_LedgerState (ls_assets s) (list_to_set cs ∪ ls_commitments s)
    (mk_MerkleTree (depth (ls_commitment_tree s)) (commitments (ls_commitment_tree s) ++ cs))
    (ls_spent_nullifiers s) (ls_issued_supply s) (ls_accepted_transactions s).

Lemma append_commitments_run s cs :
  tree_wf (ls_commitment_tree s) ->
  len (commitments (ls_commitment_tree s)) + len cs <= capacity (ls_commitment_tree s) ->
  append_commitments cs s = (Ok tt, append_outputs cs s).
Proof. intros Hwf Hl. unfold append_commitments. msimpl. by rewrite append_all_Ok. Qed.

Lemma append_outputs_inv s cs : ledger_inv s -> outputs_ok s cs -> ledger_inv (append_outputs cs s).
Proof.
  intros [Ht Hc Hn Ha Hs] (Hne & [Hnd Hf] & Hcap). split; cbn; try done.
  - destruct Ht as [Hd Hl]. split; [done|]. cbn [commitments]. rewrite length_app.
    change (capacity _) with (capacity (ls_commitment_tree s)). lia.
  - rewrite list_to_set_app_L, Hc. apply (comm_L (∪)).
  - apply NoDup_app. split_and!; [done| |done]. intros x Hx1 Hx2.
    apply (Hf x Hx2). rewrite Hc. by apply elem_of_list_to_set.
Qed.

(** ** What [apply] does *)

Section Apply.
Context `{Sha2} (verifier : ProofVerifier) (mint_policy : MintPolicy).

Definition transfer_ok (s : LedgerState) (suite : CryptoSuite) (t : Transfer)
    (ctx : TransactionValidationContext) : Prop :=
  is_Some (ls_assets s !! tr_asset_id t) /\
  tr_input_nullifiers t <> [] /\
  fresh (ls_spent_nullifiers s) (tr_input_nullifiers t) /\
  outputs_ok s (tr_output_commitments t) /\
  suite_version (tr_proof t) = cs_version suite /\
  verify_transfer verifier (transfer_statement s t ctx) (tr_proof t) = Ok tt.

Definition supply_of (s : LedgerState) (a : AssetId) : Z :=
  match ls_issued_supply s !! a with Some m => units m | None => 0 end.

Definition mint_ok (s : LedgerState) (m : Mint) (ctx : TransactionValidationContext) : Prop :=
  is_Some (ls_assets s !! mint_asset_id m) /\
  outputs_ok s (mint_output_commitments m) /\
  authorize mint_policy (mint_statement s m ctx) (mint_authorization m) = Ok tt /\
  supply_of s (mint_asset_id m) + units (mint_amount m) <= U128_MAX.

(** The abstract transition of one transaction. *)
Inductive ledger_step (ctx : TransactionValidationContext)
    : LedgerState -> Transaction -> LedgerState -> Prop :=
| step_transfer s tx t :
    tx_operation tx = OpTransfer t ->
    state_id s (tvc_genesis_id ctx) = tvc_state_id ctx ->
    tx_id tx ∉ ls_accepted_transactions s ->
    transfer_ok s (tx_suite tx) t ctx ->
    ledger_step ctx s tx
      (accept_transaction (tx_id tx)
         (spend_nullifiers (tr_input_nullifiers t)
            (append_outputs (tr_output_commitments t) s)))
| step_mint s tx m :
    tx_operation tx = OpMint m ->
    state_id s (tvc_genesis_id ctx) = tvc_state_id ctx ->
    tx_id tx ∉ ls_accepted_transactions s ->
    mint_ok s m ctx ->
    ledger_step ctx s tx
      (accept_transaction (tx_id tx)
         (set_supply (mint_asset_id m)
            (mk_Amount (supply_of s (mint_asset_id m) + units (mint_amount m)))
            (append_outputs (mint_output_commitments m) s))).

(** A transaction value of the source: the amount of a mint is an [Amount]. *)
Definition tx_amount_wf (tx : Transaction) : Prop :=
  match tx_operation tx with OpMint m => amount_wf (mint_amount m) | OpTransfer _ => True end.

Lemma validate_transfer_Ok s suite t ctx :
  ledger_inv s ->
  validate_transfer s suite t verifier ctx = Ok tt <-> transfer_ok s suite t ctx.
Proof.
  intros Hinv. unfold validate_transfer, transfer_ok.
  rewrite <-(ensure_new_commitments_Ok s) by apply Hinv.
  rewrite <-(ensure_fresh_Ok LedgerError.NullifierAlreadySpent).
  rewrite <-(ledger_non_empty_Ok _ "input nullifiers"). split.
  - intros H'. inv_ok. unfold ensure_registered_asset in Hx. inv_ok. zbool.
    destruct_units. done.
  - intros (Ha & -> & Hn & -> & -> & ->). unfold ensure_registered_asset, ensure_unique_nullifiers.
    rewrite bool_decide_eq_true_2, Hn by done. cbn. by rewrite Z.eqb_refl.
Qed.

Lemma validate_mint_Ok s m ctx a :
  ledger_inv s -> amount_wf (mint_amount m) ->
  validate_mint s m mint_policy ctx = Ok a <->
  mint_ok s m ctx /\ a = mk_Amount (supply_of s (mint_asset_id m) + units (mint_amount m)).
Proof.
  intros Hinv Hm. unfold validate_mint, mint_ok, supply_of.
  rewrite <-(ensure_new_commitments_Ok s) by apply Hinv.
  assert (forall cur, ls_issued_supply s !! mint_asset_id m = Some cur -> amount_wf cur) as Hcur.
  { intros cur Hl. by destruct (inv_supply s Hinv _ _ Hl). }
  destruct (ls_issued_supply s !! mint_asset_id m) as [cur|] eqn:Hl; split.
  - intros H'. inv_ok. unfold ensure_registered_asset in Hx. inv_ok. zbool.
    destruct_units.
    apply amount_checked_add_wf in H' as [Hu Hw]; [|by apply Hcur|done].
    destruct a as [u]. cbn in *. unfold amount_wf in Hw. cbn in Hw. subst u. naive_solver lia.
  - intros [(Ha & -> & -> & Hu) ->]. unfold ensure_registered_asset.
    rewrite bool_decide_eq_true_2 by done. cbn.
    specialize (Hcur cur eq_refl). erewrite (proj2 (amount_checked_add_wf _ _ _ Hcur Hm)); [done|].
    unfold amount_wf in *. cbn. lia.
  - intros H'. inv_ok. unfold ensure_registered_asset in Hx. inv_ok. zbool.
    destruct_units.
    injection H' as <-. unfold amount_wf in Hm. destruct (mint_amount m); cbn in *. naive_solver lia.
  - intros [(Ha & -> & -> & Hu) ->]. unfold ensure_registered_asset.
    rewrite bool_decide_eq_true_2 by done. cbn. by destruct (mint_amount m).
Qed.

(** [prepare_transition] accepts exactly the transactions that can step. *)
Lemma prepare_transition_Ok s tx ctx v :
  ledger_inv s -> tx_amount_wf tx ->
  prepare_transition s tx verifier mint_policy ctx = Ok v <->
  state_id s (tvc_genesis_id ctx) = tvc_state_id ctx /\ (tx_id tx ∉ ls_accepted_transactions s) /\
  match tx_operation tx with
  | OpTransfer t => transfer_ok s (tx_suite tx) t ctx /\ v = ValidTransfer t
  | OpMint m => mint_ok s m ctx /\
      v = ValidMint m (mk_Amount (supply_of s (mint_asset_id m) + units (mint_amount m)))
  end.
Proof.
  intros Hinv Hwf. unfold prepare_transition, ensure_new_transaction, tx_amount_wf in *.
  destruct (tx_operation tx) as [t|m].
  - rewrite <-validate_transfer_Ok by done. split.
    + intros H'. inv_ok. zbool. destruct x0. done.
    + intros (-> & Hn & -> & ->). by rewrite bool_decide_eq_true_2, bool_decide_eq_false_2.
  - split.
    + intros H'. inv_ok. zbool. apply validate_mint_Ok in Hx0 as [? ->]; [|done..]. done.
    + intros (-> & Hn & Hok & ->). rewrite bool_decide_eq_true_2, bool_decide_eq_false_2 by done.
      cbn [negb ensure mbind result_bind].
      by rewrite (proj2 (validate_mint_Ok s m ctx _ Hinv Hwf) (conj Hok eq_refl)).
Qed.

(** Committing a validated transition cannot fail. *)
Lemma commit_transfer_run s id t :
  ledger_inv s -> outputs_ok s (tr_output_commitments t) ->
  commit_transition id (ValidTransfer t) s =
  (Ok tt, accept_transaction id (spend_nullifiers (tr_input_nullifiers t)
            (append_outputs (tr_output_commitments t) s))).
Proof.
  intros Hinv (_ & _ & Hcap). unfold commit_transition. msimpl.
  rewrite append_commitments_run by (done || apply Hinv). done.
Qed.

Lemma commit_mint_run s id m a :
  ledger_inv s -> outputs_ok s (mint_output_commitments m) ->
  commit_transition id (ValidMint m a) s =
  (Ok tt, accept_transaction id (set_supply (mint_asset_id m) a
            (append_outputs (mint_output_commitments m) s))).
Proof.
  intros Hinv (_ & _ & Hcap). unfold commit_transition. msimpl.
  rewrite append_commitments_run by (done || apply Hinv). done.
Qed.

(** The result of [apply] on every branch: either validation fails and the
    state is untouched, or the abstract step is taken. *)
Lemma apply_cases s tx ctx :
  ledger_inv s -> tx_amount_wf tx ->
  match prepare_transition s tx verifier mint_policy ctx with
  | Err e => apply tx verifier mint_policy ctx s = (Err e, s)
  | Ok _ => exists s', apply tx verifier mint_policy ctx s = (Ok tt, s') /\ ledger_step ctx s tx s'
  end.
Proof.
  intros Hinv Hwf. unfold apply. msimpl.
  destruct (prepare_transition s tx verifier mint_policy ctx) as [v|e] eqn:Hp; [|done].
  apply prepare_transition_Ok in Hp as (Hid & Hnew & Hop); [|done..].
  destruct (tx_operation tx) as [t|m] eqn:Htx; destruct Hop as [Hok ->].
  - rewrite commit_transfer_run by (done || apply Hok). eexists. split; [done|].
    by eapply step_transfer.
  - rewrite commit_mint_run by (done || apply Hok). eexists. split; [done|].
    by eapply step_mint.
Qed.

Lemma ledger_step_apply s tx ctx s' :
  ledger_inv s -> tx_amount_wf tx -> ledger_step ctx s tx s' ->
  apply tx verifier mint_policy ctx s = (Ok tt, s').
Proof.
  intros Hinv Hwf Hstep. unfold apply. msimpl.
  destruct Hstep as [s tx t Htx Hid Hnew Hok|s tx m Htx Hid Hnew Hok].
  - rewrite (proj2 (prepare_transition_Ok s tx ctx (ValidTransfer t) Hinv Hwf)).
    + apply commit_transfer_run; [done|apply Hok].
    + by rewrite Htx.
  - erewrite (proj2 (prepare_transition_Ok s tx ctx (ValidMint m _) Hinv Hwf)).
    + apply commit_mint_run; [done|apply Hok].
    + by rewrite Htx.
Qed.

Lemma apply_Ok_step s tx ctx s' u :
  ledger_inv s -> tx_amount_wf tx -> apply tx verifier mint_policy ctx s = (Ok u, s') ->
  ledger_step ctx s tx s'.
Proof.
  intros Hinv Hwf Hap. pose proof (apply_cases s tx ctx Hinv Hwf) as Hc.
  destruct (prepare_transition _ _ _ _ _); [|congruence].
  destruct Hc as (s2 & Hap' & Hs). rewrite Hap in Hap'. by injection Hap' as -> ->.
Qed.

Lemma ledger_step_inv s tx ctx s' :
  ledger_inv s -> tx_amount_wf tx -> ledger_step ctx s tx s' -> ledger_inv s'.
Proof.
  intros Hinv Hwf Hstep. unfold tx_amount_wf in Hwf.
  destruct Hstep as [s tx t Htx Hid Hnew Hok|s tx m Htx Hid Hnew Hok].
  - destruct Hok as (_ & _ & _ & Ho & _). by destruct (append_outputs_inv _ _ Hinv Ho).
  - rewrite Htx in Hwf. destruct Hok as (Ha & Ho & _ & Hu).
    destruct (append_outputs_inv _ _ Hinv Ho) as [Ht Hc Hn Has Hs]. split; cbn in *; try done.
    apply map_Forall_insert_2; [|done]. split; [|done]. unfold amount_wf in *. cbn.
    assert (0 <= supply_of s (mint_asset_id m)); [|lia].
    unfold supply_of. destruct (ls_issued_supply s !! _) eqn:Hl; [|done].
    destruct (inv_supply s Hinv _ _ Hl) as [Hw _]. unfold amount_wf in Hw. lia.
Qed.

End Apply.

(** ** Sequences of transactions *)

Definition tx_nullifiers (tx : Transaction) : list Nullifier :=
  match tx_operation tx with OpTransfer t => tr_input_nullifiers t | OpMint _ => [] end.

Definition tx_outputs (tx : Transaction) : list Commitment :=
  match tx_operation tx with
  | OpTransfer t => tr_output_commitments t
  | OpMint m => mint_output_commitments m
  end.

(** What a transaction issues of asset [a]. *)
Definition tx_issues (a : AssetId) (tx : Transaction) : Z :=
  match tx_operation tx with
  | OpMint m => if decide (mint_asset_id m = a) then units (mint_amount m) else 0
  | OpTransfer _ => 0
  end.

Definition issued_by (a : AssetId) (txs : list Transaction) : Z :=
  foldr (fun tx z => tx_issues a tx + z) 0 txs.

Section Trace.
Context `{Sha2} (verifier : ProofVerifier) (mint_policy : MintPolicy).

(** Apply a sequence of transactions, each under its own context, keeping the
    accepted ones in order. *)
Fixpoint apply_all (s : LedgerState) (l : list (Transaction * TransactionValidationContext))
    : list Transaction * LedgerState :=
  match l with
  | [] => ([], s)
  | (tx, ctx) :: l =>
      match apply tx verifier mint_policy ctx s with
      | (Ok _, s) => let '(accepted, s) := apply_all s l in (tx :: accepted, s)
      | (Err _, s) => apply_all s l
      end
  end.

(** A failing [apply] changes nothing, whatever the state. *)
Lemma apply_Err_same s tx ctx e s' : apply tx verifier mint_policy ctx s = (Err e, s') -> s' = s.
Proof.
  unfold apply, commit_transition. msimpl.
  destruct (prepare_transition _ _ _ _ _) as [[t|m a]|]; [| |by intros [= <- <-]].
  all: msimpl; unfold append_commitments; msimpl.
  all: by destruct (append_all _ _); intros [= <- <-].
Qed.

(** Effect of one abstract step on the collections. *)
Record step_effect (s : LedgerState) (tx : Transaction) (s' : LedgerState) : Prop := {
  eff_fresh_nullifiers : fresh (ls_spent_nullifiers s) (tx_nullifiers tx);
  eff_nullifiers : ls_spent_nullifiers s' = list_to_set (tx_nullifiers tx) ∪ ls_spent_nullifiers s;
  eff_outputs : commitments (ls_commitment_tree s') =
                commitments (ls_commitment_tree s) ++ tx_outputs tx;
  eff_fresh_id : tx_id tx ∉ ls_accepted_transactions s;
  eff_ids : ls_accepted_transactions s' = {[tx_id tx]} ∪ ls_accepted_transactions s;
  eff_supply a : supply_of s' a = supply_of s a + tx_issues a tx
}.

Lemma ledger_step_effect s tx ctx s' :
  ledger_step verifier mint_policy ctx s tx s' -> step_effect s tx s'.
Proof.
  intros [s0 tx0 t Htx Hid Hnew Hok|s0 tx0 m Htx Hid Hnew Hok].
  all: unfold tx_nullifiers, tx_outputs, tx_issues.
  - destruct Hok as (_ & _ & Hf & _).
    split; cbn; unfold tx_nullifiers, tx_outputs, tx_issues; rewrite ?Htx; try done.
    intros a. unfold supply_of. cbn. lia.
  - split; cbn; unfold tx_nullifiers, tx_outputs, tx_issues; rewrite ?Htx; try done.
    + apply fresh_nil.
    + by rewrite list_to_set_nil, (left_id_L ∅ (∪)).
    + intros a. unfold supply_of at 1. cbn. case_decide as Ha.
      * subst a. by rewrite lookup_insert_eq.
      * rewrite lookup_insert_ne by done. unfold supply_of. lia.
Qed.

Lemma apply_all_cons s tx ctx l :
  ledger_inv s -> tx_amount_wf tx ->
  apply_all s ((tx, ctx) :: l) = apply_all s l \/
  exists s1, step_effect s tx s1 /\ ledger_inv s1 /\
    apply_all s ((tx, ctx) :: l) = (tx :: (apply_all s1 l).1, (apply_all s1 l).2).
Proof.
  intros Hinv Hwf. cbn [apply_all].
  destruct (apply tx verifier mint_policy ctx s) as [[u|e] s1] eqn:Hap.
  - right. exists s1. apply apply_Ok_step in Hap; [|done..].
    split; [by eapply ledger_step_effect|]. split; [by eapply ledger_step_inv|].
    by destruct (apply_all s1 l).
  - left. by apply apply_Err_same in Hap as ->.
Qed.

(** One invariant over the whole sequence. *)
Lemma apply_all_effect s l acc s' :
  ledger_inv s -> Forall (fun p => tx_amount_wf p.1) l -> apply_all s l = (acc, s') ->
  ledger_inv s' /\
  fresh (ls_spent_nullifiers s) (concat (tx_nullifiers <$> acc)) /\
  ls_spent_nullifiers s' = list_to_set (concat (tx_nullifiers <$> acc)) ∪ ls_spent_nullifiers s /\
  commitments (ls_commitment_tree s') =
    commitments (ls_commitment_tree s) ++ concat (tx_outputs <$> acc) /\
  fresh (ls_accepted_transactions s) (tx_id <$> acc) /\
  (forall a, supply_of s' a = supply_of s a + issued_by a acc).
Proof.
  intros Hinv Hwf. revert s acc Hinv. induction Hwf as [|[tx ctx] l Htx Hwf IH]; intros s acc Hinv.
  - intros [= <- <-]. split_and!; try apply fresh_nil; try done.
    + cbn. by rewrite (left_id_L ∅ (∪)).
    + by rewrite app_nil_r.
    + intros a. cbn. lia.
  - intros Heq. destruct (apply_all_cons s tx ctx l Hinv Htx) as [Hs|(s1 & Heff & Hinv1 & Hs)].
    { rewrite Hs in Heq. by apply IH. }
    rewrite Hs in Heq. injection Heq as <- <-.
    destruct (IH s1 (apply_all s1 l).1 Hinv1) as (Hi & Hfn & Hn & Hc & Hft & Hsup).
    { by destruct (apply_all s1 l). }
    destruct Heff as [Ef En Eo Ei Eids Es]. cbn [fmap list_fmap concat].
    rewrite En in Hfn, Hn. rewrite Eids in Hft. rewrite Eo in Hc.
    split_and!; try done.
    + by apply fresh_app.
    + by rewrite Hn, list_to_set_app_L, (assoc_L (∪)), (comm_L (∪) (list_to_set (tx_nullifiers tx))).
    + by rewrite Hc, <-app_assoc.
    + apply (fresh_app _ [tx_id tx]); [|by rewrite list_to_set_cons, list_to_set_nil, (right_id_L ∅ (∪))].
      split; [apply NoDup_singleton|]. by intros x ->%list_elem_of_singleton.
    + intros a. rewrite Hsup, Es. unfold issued_by. cbn [foldr]. lia.
Qed.

End Trace.

(** ** Sample data for the witnesses *)

Definition sample_asset : AssetDefinition :=
  mk_AssetDefinition (id_of x0a) (bytes_of_string "NOX") Synthetic.

Definition sample_ledger : LedgerState :=
  mk_LedgerState {[id_of x0a := sample_asset]} ∅ (mk_MerkleTree 2 []) ∅ ∅ ∅.

(** A verifier and a policy that accept everything. *)
Definition accept_verifier : ProofVerifier := mk_ProofVerifier (id_of x31) (fun _ _ => Ok tt).
Definition accept_policy : MintPolicy := mk_MintPolicy (id_of x32) (fun _ _ => Ok tt).

Definition sample_transfer (id nullifier output : byte) : Transaction :=
  mk_Transaction (id_of id) RESEARCH_V1
    (OpTransfer (mk_Transfer (id_of x0a) [id_of nullifier] [id_of output] (mk_Proof 1 [x00]))).

Definition sample_mint (id output : byte) (amount : Z) : Transaction :=
  mk_Transaction (id_of id) RESEARCH_V1
    (OpMint (mk_Mint (id_of x0a) (mk_Amount amount) [id_of output] [])).

Definition context_for `{Sha2} (s : LedgerState) : TransactionValidationContext :=
  mk_TransactionValidationContext (id_of x01) (id_of x02) (id_of x03) (state_id s (id_of x01)).

Lemma sample_ledger_inv : ledger_inv sample_ledger.
Proof.
  split.
  - by_eval.
  - done.
  - constructor.
  - apply (map_Forall_singleton _ (id_of x0a) sample_asset). split; [done|]. by_eval. repeat constructor.
  - apply map_Forall_empty.
Qed.

(** A mint and two transfers, the second of which spends the nullifier of the
    first again; each is bound to the state it is applied to. *)
Definition sample_run `{Sha2} : list (Transaction * TransactionValidationContext) :=
  let step s tx := (apply tx accept_verifier accept_policy (context_for s) s).2 in
  let s0 := sample_ledger in
  let s1 := step s0 (sample_mint x41 x51 700) in
  let s2 := step s1 (sample_transfer x42 x61 x52) in
  [(sample_mint x41 x51 700, context_for s0);
   (sample_transfer x42 x61 x52, context_for s1);
   (sample_transfer x43 x61 x53, context_for s2)].

Lemma sample_run_wf `{Sha2} : Forall (fun p => tx_amount_wf p.1) sample_run.
Proof. repeat constructor; done. Qed.

(** ** Properties *)

(** C1: refinement.  From a ledger in its invariant, [apply] returns [Ok]
    exactly when the abstract transition relation has a step for the
    transaction, and then leaves exactly that step's state: the checks of
    [prepare_transition] (state binding, replay, registered asset, non-empty
    and unspent inputs, new outputs, capacity, suite version, proof or
    authorization, supply range) are sufficient and necessary, and the commit
    phase cannot fail after them. *)
Theorem apply_refines_step `{Sha2} verifier mint_policy ctx s tx s' :
  ledger_inv s -> tx_amount_wf tx ->
  apply tx verifier mint_policy ctx s = (Ok tt, s') <->
  ledger_step verifier mint_policy ctx s tx s'.
Proof. intros Hinv Hwf. split; [by apply apply_Ok_step|by apply ledger_step_apply]. Qed.

Lemma apply_refines_step_witness :
  let hash := toy_sha2 in
  let tx := sample_transfer x42 x61 x52 in
  exists s', ledger_step accept_verifier accept_policy (context_for sample_ledger) sample_ledger tx s'.
Proof.
  intros hash tx.
  exists (apply tx accept_verifier accept_policy (context_for sample_ledger) sample_ledger).2.
  apply (apply_refines_step accept_verifier accept_policy (context_for sample_ledger)
           sample_ledger tx _ sample_ledger_inv I).
  apply run_Ok. by_eval.
Defined.

(** atomicity and invariant preservation.  A failing [apply] leaves the
    ledger exactly as it was, from any state; from a ledger in its invariant
    every outcome is again in the invariant. *)
Theorem apply_atomic_invariant `{Sha2} verifier mint_policy ctx s tx r s' :
  apply tx verifier mint_policy ctx s = (r, s') ->
  (forall e, r = Err e -> s' = s) /\ (ledger_inv s -> tx_amount_wf tx -> ledger_inv s').
Proof.
  intros Hap. split.
  - intros e ->. by eapply apply_Err_same.
  - intros Hinv Hwf. destruct r as [u|e].
    + eapply ledger_step_inv; [done..|]. by eapply apply_Ok_step.
    + by apply apply_Err_same in Hap as ->.
Qed.

Lemma apply_atomic_invariant_witness :
  let hash := toy_sha2 in
  let tx := sample_transfer x42 x61 x52 in
  let out := apply tx accept_verifier accept_policy (context_for sample_ledger) sample_ledger in
  is_ok out.1 = true /\ ledger_inv out.2.
Proof.
  intros hash tx out. split; [by_eval|].
  apply (apply_atomic_invariant accept_verifier accept_policy (context_for sample_ledger)
           sample_ledger tx out.1 out.2).
  - apply surjective_pairing.
  - apply sample_ledger_inv.
  - exact I.
Defined.

(** C2: no double spend.  Over any sequence of transactions, accepted or
    rejected in any order, the nullifiers of the accepted transfers are pairwise
    different and were all unspent at the start, the spent set grows by exactly
    them, every created commitment is new and is appended in order, and no
    transaction identifier is accepted twice. *)
Theorem no_double_spend `{Sha2} verifier mint_policy s l acc s' :
  ledger_inv s -> Forall (fun p => tx_amount_wf p.1) l ->
  apply_all verifier mint_policy s l = (acc, s') ->
  fresh (ls_spent_nullifiers s) (concat (tx_nullifiers <$> acc)) /\
  ls_spent_nullifiers s' = list_to_set (concat (tx_nullifiers <$> acc)) ∪ ls_spent_nullifiers s /\
  fresh (ls_commitments s) (concat (tx_outputs <$> acc)) /\
  commitments (ls_commitment_tree s') =
    commitments (ls_commitment_tree s) ++ concat (tx_outputs <$> acc) /\
  fresh (ls_accepted_transactions s) (tx_id <$> acc).
Proof.
  intros Hinv Hwf Hrun.
  destruct (apply_all_effect _ _ _ _ _ _ Hinv Hwf Hrun) as (Hinv' & Hf & Hn & Hc & Ht & _).
  split_and!; try done. pose proof (inv_nodup _ Hinv') as Hnd. rewrite Hc in Hnd.
  apply NoDup_app in Hnd as (_ & Hdis & Hnd). split; [done|]. intros x Hx.
  rewrite (inv_commitments s Hinv). intros Hin%elem_of_list_to_set. by apply (Hdis x).
Qed.

Lemma no_double_spend_witness :
  let hash := toy_sha2 in
  let out := apply_all accept_verifier accept_policy sample_ledger sample_run in
  tx_id <$> out.1 = [id_of x41; id_of x42] /\
  ls_spent_nullifiers out.2 =
    list_to_set (concat (tx_nullifiers <$> out.1)) ∪ ls_spent_nullifiers sample_ledger.
Proof.
  intros hash out. split; [by_eval|].
  exact (proj1 (proj2 (no_double_spend accept_verifier accept_policy sample_ledger sample_run
    out.1 out.2 sample_ledger_inv sample_run_wf (surjective_pairing out)))).
Defined.

(** C20: supply conservation.  After any sequence of transactions the issued
    supply of every asset is its supply before plus the sum of the amounts of
    the accepted mints of that asset, as an exact integer that still fits the
    [u128]; transfers never change it. *)
Theorem supply_conserved `{Sha2} verifier mint_policy s l acc s' a :
  ledger_inv s -> Forall (fun p => tx_amount_wf p.1) l ->
  apply_all verifier mint_policy s l = (acc, s') ->
  supply_of s' a = supply_of s a + issued_by a acc /\ 0 <= supply_of s' a <= U128_MAX.
Proof.
  intros Hinv Hwf Hrun.
  destruct (apply_all_effect _ _ _ _ _ _ Hinv Hwf Hrun) as (Hinv' & _ & _ & _ & _ & Hs).
  split; [done|]. unfold supply_of. destruct (ls_issued_supply s' !! a) as [m|] eqn:Hm; [|lia].
  destruct (inv_supply _ Hinv' _ _ Hm) as [Hw _]. unfold amount_wf in Hw. lia.
Qed.

Lemma supply_conserved_witness :
  let hash := toy_sha2 in
  let out := apply_all accept_verifier accept_policy sample_ledger sample_run in
  issued_by (id_of x0a) out.1 = 700 /\
  supply_of out.2 (id_of x0a) = supply_of sample_ledger (id_of x0a) + issued_by (id_of x0a) out.1.
Proof.
  intros hash out. split; [by_eval|].
  exact (proj1 (supply_conserved accept_verifier accept_policy sample_ledger sample_run
    out.1 out.2 (id_of x0a) sample_ledger_inv sample_run_wf (surjective_pairing out))).
Defined.
