(* ===== verification/Snapshot.v ===== *)
(** * Ledger snapshots

    [snapshot] and [from_snapshot] are inverse bijections between ledgers in
    their invariant and canonical snapshots: strictly sorted collections, valid
    asset definitions, distinct commitments within the tree's capacity, supply
    only for registered assets. *)

From Stdlib Require Import Strings.Byte Strings.String.
From S2P Require Import Prelude Arrays Sha256 Types Crypto Merkle Ledger LedgerFacts.

(** ** Canonical form *)

Record snapshot_canonical (snap : LedgerSnapshot) : Prop := {
  can_depth : MIN_DEPTH <= snap_tree_depth snap <= MAX_DEPTH;
  can_assets : strictly_sorted (asset_id <$> snap_assets snap) = true;
  can_assets_wf : Forall asset_wf (snap_assets snap);
  can_commitments : NoDup (snap_commitments snap);
  can_capacity : len (snap_commitments snap) <= maximum_leaf_count (snap_tree_depth snap);
  can_nullifiers : strictly_sorted (snap_spent_nullifiers snap) = true;
  can_supply : strictly_sorted (snap_issued_supply snap).*1 = true;
  can_supply_assets : Forall (fun i => i ∈ asset_id <$> snap_assets snap) (snap_issued_supply snap).*1;
  can_transactions : strictly_sorted (snap_accepted_transactions snap) = true
}.

(** The prior key in front of the remaining keys. *)
Definition after (prior : option Id32) (ids : list Id32) : list Id32 :=
  match prior with Some p => p :: ids | None => ids end.

Lemma not_increasing_after prior id ids :
  strictly_sorted (after prior (id :: ids)) =
  negb (not_increasing prior id) && strictly_sorted (id :: ids).
Proof. destruct prior as [p|]; cbn; [by rewrite negb_involutive|done]. Qed.

Lemma asset_new_self a b :
  asset_definition_new (asset_id a) (asset_ticker a) (asset_kind a) = Ok b <-> b = a /\ asset_wf a.
Proof.
  rewrite asset_definition_new_Ok. destruct a as [i t k]. cbn.
  split; [by intros [-> ?]|by intros [-> ?]].
Qed.

Lemma canonical_assets_loop_Ok index prior l l' :
  canonical_assets_loop index prior l = Ok l' <->
  l' = l /\ strictly_sorted (after prior (asset_id <$> l)) = true /\ Forall asset_wf l.
Proof.
  revert index prior l'; induction l as [|a l IH]; intros index prior l'; cbn [canonical_assets_loop].
  - split; [intros [= <-]; by destruct prior|by intros [-> _]].
  - cbn [fmap list_fmap]. rewrite not_increasing_after, Forall_cons, andb_true_iff, negb_true_iff.
    split.
    + intros H. inv_ok. apply asset_new_self in Hx as [-> Hwf].
      apply IH in Hx0 as (-> & Hs & Hall). done.
    + intros (-> & [-> Hs] & Hwf & Hall).
      rewrite (proj2 (asset_new_self a a) (conj eq_refl Hwf)). cbn [map_err mbind result_bind].
      by rewrite (proj2 (IH (index + 1) (Some (asset_id a)) l)).
Qed.

Lemma canonical_supply_loop_Ok index ids prior l :
  canonical_supply_loop index ids prior l = Ok tt <->
  strictly_sorted (after prior l.*1) = true /\ Forall (fun i => i ∈ ids) l.*1.
Proof.
  revert index prior; induction l as [|[a m] l IH]; intros index prior; cbn [canonical_supply_loop].
  - split; [by destruct prior|done].
  - cbn [fmap list_fmap fst]. rewrite not_increasing_after, Forall_cons, andb_true_iff, negb_true_iff.
    split.
    + intros H. inv_ok. zbool. by apply IH in H as [Hs Hall].
    + intros [[-> Hs] [Ha Hall]]. rewrite bool_decide_eq_true_2 by done. cbn [negb].
      by apply (IH (index + 1) (Some a)).
Qed.

Lemma canonical_commitments_loop_Ok set t l :
  tree_wf t ->
  canonical_commitments_loop set t l = Ok tt <->
  fresh set l /\ len (commitments t) + len l <= capacity t.
Proof.
  revert set t; induction l as [|c l IH]; intros set t Hwf; cbn [canonical_commitments_loop].
  - split; [|done]. intros _. split; [apply fresh_nil|]. destruct Hwf. cbn. lia.
  - rewrite append_spec by done. cbn [length]. destruct (bool_decide (c ∈ set)) eqn:Hc; zbool.
    { split; [done|]. intros [[_ Hf] _]. by destruct (Hf c (list_elem_of_here _ _)). }
    case_decide as Hcap; [|split; [done|]; lia].
    rewrite IH; cbn [commitments].
    2:{ eapply append_wf; [exact Hwf|]. by rewrite append_spec, decide_True. }
    rewrite length_app. cbn [length]. change (capacity (mk_MerkleTree _ _)) with (capacity t).
    split; intros [Hf Hl]; (split; [|lia]).
    + apply (fresh_app _ [c]); [|by rewrite list_to_set_cons, list_to_set_nil, (right_id_L ∅ (∪))].
      split; [apply NoDup_singleton|]. by intros x ->%list_elem_of_singleton.
    + destruct Hf as [[Hni Hnd]%NoDup_cons Hf]. split; [done|].
      intros x Hx [->%elem_of_singleton|He]%elem_of_union; [done|].
      by apply (Hf x); [apply list_elem_of_further|].
Qed.

Lemma from_canonical_parts_Ok snap snap' :
  from_canonical_parts (snap_tree_depth snap) (snap_assets snap) (snap_commitments snap)
    (snap_spent_nullifiers snap) (snap_issued_supply snap) (snap_accepted_transactions snap)
  = Ok snap' <-> snap' = snap /\ snapshot_canonical snap.
Proof.
  unfold from_canonical_parts. split.
  - intros H. inv_ok. apply canonical_assets_loop_Ok in Hx as (-> & Hsa & Hwf).
    apply tree_new_wf in Hx0 as [Ht ->].
    destruct_units.
    apply canonical_commitments_loop_Ok in Hx1 as [[Hnd _] Hcap]; [|done].
    apply canonical_supply_loop_Ok in Hx4 as [Hss Hsub].
    destruct snap; cbn in *. split; [done|]. split; cbn; try done.
    + apply Ht.
    + eapply Forall_impl; [exact Hsub|]. by intros i ?%elem_of_list_to_set.
  - intros [-> Hcan]. destruct Hcan as [Hd Hsa Hwf Hnd Hcap Hn Hss Hsub Htx].
    rewrite (proj2 (canonical_assets_loop_Ok 0 None _ (snap_assets snap))) by done.
    cbn [mbind result_bind]. unfold tree_new. rewrite (proj2 (validate_depth_Ok _ tt) Hd).
    cbn [mbind result_bind map_err].
    assert (tree_wf (mk_MerkleTree (snap_tree_depth snap) [])) as Hwt.
    { split; [done|]. cbn. destruct (capacity_bounds (mk_MerkleTree (snap_tree_depth snap) []) Hd). lia. }
    rewrite (proj2 (canonical_commitments_loop_Ok ∅ _ _ Hwt)).
    2:{ split; [|done]. split; [done|]. by intros x _ ?%elem_of_empty. }
    cbn [mbind result_bind]. rewrite Hn, Htx. cbn [ensure mbind result_bind].
    rewrite (proj2 (canonical_supply_loop_Ok 0 _ None _)); [by destruct snap|].
    split; [done|]. eapply Forall_impl; [exact Hsub|]. intros i Hi. by apply elem_of_list_to_set.
Qed.

(** ** Restoring *)

Lemma restore_commitments_Ok s l :
  tree_wf (ls_commitment_tree s) ->
  len (commitments (ls_commitment_tree s)) + len l <= capacity (ls_commitment_tree s) ->
  restore_commitments s l = Ok (append_outputs l s).
Proof.
  revert s; induction l as [|c l IH]; intros s Hwf Hl; cbn [restore_commitments length] in *.
  - unfold append_outputs. rewrite app_nil_r, list_to_set_nil, (left_id_L ∅ (∪)).
    by destruct s as [? ? [] ? ? ?].
  - rewrite append_spec, decide_True by (done || lia). rewrite IH; cbn [ls_commitment_tree].
    + unfold append_outputs. cbn.
      by rewrite <-app_assoc, (assoc_L (∪)), (comm_L (∪) (list_to_set l)).
    + eapply append_wf; [exact Hwf|]. by rewrite append_spec, decide_True by (done || lia).
    + cbn [commitments]. rewrite length_app. cbn [length].
      change (capacity (mk_MerkleTree _ _)) with (capacity (ls_commitment_tree s)). lia.
Qed.

Definition asset_map (l : list AssetDefinition) : gmap AssetId AssetDefinition :=
  list_to_map ((fun a => (asset_id a, a)) <$> l).

Definition with_assets (m : gmap AssetId AssetDefinition) (s : LedgerState) : LedgerState :=
  mk_LedgerState m (ls_commitments s) (ls_commitment_tree s) (ls_spent_nullifiers s)
    (ls_issued_supply s) (ls_accepted_transactions s).

Lemma restore_assets_Ok s l :
  NoDup (asset_id <$> l) -> (forall a, a ∈ l -> ls_assets s !! asset_id a = None) ->
  restore_assets s l = Ok (with_assets (asset_map l ∪ ls_assets s) s).
Proof.
  revert s; induction l as [|a l IH]; intros s Hnd Hnew; cbn [restore_assets].
  - unfold asset_map. cbn. rewrite (left_id_L ∅ (∪)). by destruct s.
  - apply NoDup_cons in Hnd as [Hni Hnd]. unfold register_asset. msimpl.
    pose proof (Hnew a (list_elem_of_here _ _)) as Ha. rewrite Ha.
    rewrite bool_decide_eq_false_2 by (by intros [? ?]). cbn [put].
    rewrite IH; [|done|].
    + unfold with_assets, asset_map. cbn. f_equal. f_equal.
      rewrite <-insert_union_r.
      2:{ apply not_elem_of_list_to_map_1. by rewrite <-list_fmap_compose. }
      by rewrite insert_union_l.
    + intros b Hb. cbn. rewrite lookup_insert_ne.
      * apply Hnew. by apply list_elem_of_further.
      * intros He. apply Hni. rewrite He. by apply list_elem_of_fmap_2.
Qed.

Lemma extend_map_list m l :
  NoDup l.*1 -> (forall k, k ∈ l.*1 -> m !! k = None) -> extend_map m l = list_to_map l ∪ m.
Proof.
  unfold extend_map. revert m; induction l as [|[k v] l IH]; intros m Hnd Hnew; cbn.
  - by rewrite (left_id_L ∅ (∪)).
  - apply NoDup_cons in Hnd as [Hni Hnd]. rewrite IH; [|done|].
    + rewrite <-insert_union_r by (by apply not_elem_of_list_to_map_1). by rewrite insert_union_l.
    + intros k' Hk'. rewrite lookup_insert_ne; [apply Hnew; by apply list_elem_of_further|].
      cbn in Hni. by intros ->.
Qed.

(** The ledger a canonical snapshot describes. *)
Definition restored (snap : LedgerSnapshot) : LedgerState :=
  mk_LedgerState (asset_map (snap_assets snap)) (list_to_set (snap_commitments snap))
    (mk_MerkleTree (snap_tree_depth snap) (snap_commitments snap))
    (list_to_set (snap_spent_nullifiers snap)) (list_to_map (snap_issued_supply snap))
    (list_to_set (snap_accepted_transactions snap)).

Lemma from_snapshot_Ok snap s :
  from_snapshot snap = Ok s <-> snapshot_canonical snap /\ s = restored snap.
Proof.
  unfold from_snapshot.
  destruct (from_canonical_parts _ _ _ _ _ _) as [snap'|e] eqn:Hp; cycle 1.
  { split; [done|]. intros [Hcan _]. by rewrite (proj2 (from_canonical_parts_Ok snap snap)) in Hp. }
  apply from_canonical_parts_Ok in Hp as [-> Hcan]. cbn [mbind result_bind].
  pose proof Hcan as [Hd Hsa Hwf Hnd Hcap Hn Hss Hsub Htx].
  unfold ledger_new, tree_new. rewrite (proj2 (validate_depth_Ok _ tt) Hd).
  cbn [mbind result_bind map_err].
  assert (tree_wf (mk_MerkleTree (snap_tree_depth snap) [])) as Hwt.
  { split; [done|]. cbn. destruct (capacity_bounds (mk_MerkleTree (snap_tree_depth snap) []) Hd). lia. }
  rewrite restore_assets_Ok by (by apply strictly_sorted_NoDup || (intros; apply lookup_empty)).
  cbn [mbind result_bind]. rewrite restore_commitments_Ok by done.
  cbn [mbind result_bind append_outputs with_assets ls_assets ls_commitments ls_commitment_tree
       ls_spent_nullifiers ls_issued_supply ls_accepted_transactions depth commitments app].
  rewrite extend_map_list by (by apply strictly_sorted_NoDup || (intros; apply lookup_empty)).
  rewrite !(right_id_L ∅ (∪)). unfold restored. split; [intros [= <-]; done|by intros [_ ->]].
Qed.

(** ** The two directions *)

(** The parts [snapshot] assembles. *)
Definition parts_of (s : LedgerState) : LedgerSnapshot :=
  mk_LedgerSnapshot (depth (ls_commitment_tree s)) (sorted_assets s)
    (commitments (ls_commitment_tree s)) (sorted_ids (ls_spent_nullifiers s))
    (sorted_supplies s) (sorted_ids (ls_accepted_transactions s)).

Lemma snapshot_parts s snap :
  snapshot s = Some snap <-> snap = parts_of s /\ snapshot_canonical (parts_of s).
Proof.
  unfold snapshot. rewrite <-(from_canonical_parts_Ok (parts_of s) snap).
  cbn [parts_of snap_tree_depth snap_assets snap_commitments snap_spent_nullifiers
       snap_issued_supply snap_accepted_transactions].
  unfold sorted_assets, sorted_ids, sorted_supplies.
  destruct (from_canonical_parts _ _ _ _ _ _); split; congruence.
Qed.

(** Under the invariant the assets of the map are listed with their own keys. *)
Lemma asset_pairs s :
  ledger_inv s ->
  (fun a => (asset_id a, a)) <$> (map_to_list (ls_assets s)).*2 = map_to_list (ls_assets s).
Proof.
  intros Hinv. rewrite <-list_fmap_compose. rewrite <-(list_fmap_id (map_to_list _)) at 2.
  apply list_fmap_ext. intros i [k a] Hi. cbn.
  assert (ls_assets s !! k = Some a) as Hk
    by (apply elem_of_map_to_list; by eapply list_elem_of_lookup_2).
  by destruct (inv_assets s Hinv _ _ Hk) as [-> _].
Qed.

Lemma asset_keys s :
  ledger_inv s -> asset_id <$> (map_to_list (ls_assets s)).*2 = (map_to_list (ls_assets s)).*1.
Proof. intros Hinv. rewrite <-(asset_pairs s Hinv) at 2. by rewrite <-!list_fmap_compose. Qed.

Lemma sorted_assets_strict s :
  ledger_inv s -> strictly_sorted (asset_id <$> sorted_assets s) = true.
Proof.
  intros Hinv. apply sort_by_key_strict. rewrite asset_keys by done. apply NoDup_fst_map_to_list.
Qed.

Lemma sorted_assets_elem s a :
  ledger_inv s -> a ∈ sorted_assets s <-> ls_assets s !! asset_id a = Some a.
Proof.
  intros Hinv. unfold sorted_assets. rewrite sort_by_key_Permutation. split.
  - intros ([k b] & -> & Hb)%list_elem_of_fmap. apply elem_of_map_to_list in Hb.
    cbn. by destruct (inv_assets s Hinv _ _ Hb) as [-> _].
  - intros Ha. apply list_elem_of_fmap. exists (asset_id a, a).
    split; [done|]. by apply elem_of_map_to_list.
Qed.

Lemma sorted_supplies_strict s : strictly_sorted (sorted_supplies s).*1 = true.
Proof. apply sort_by_key_strict, NoDup_fst_map_to_list. Qed.

Lemma parts_canonical s : ledger_inv s -> snapshot_canonical (parts_of s).
Proof.
  intros Hinv. split; cbn.
  - apply Hinv.
  - by apply sorted_assets_strict.
  - apply Forall_forall. intros a Ha%sorted_assets_elem; [|done].
    by destruct (inv_assets s Hinv _ _ Ha).
  - apply Hinv.
  - apply Hinv.
  - apply sort_elements_strict.
  - apply sorted_supplies_strict.
  - unfold sorted_supplies. rewrite sort_by_key_Permutation.
    apply Forall_forall. intros i ([k m] & -> & Hm)%list_elem_of_fmap.
    apply elem_of_map_to_list in Hm. cbn.
    destruct (inv_supply s Hinv _ _ Hm) as [_ [a Ha]].
    destruct (inv_assets s Hinv _ _ Ha) as [<- _].
    apply list_elem_of_fmap_2. by apply sorted_assets_elem.
  - apply sort_elements_strict.
Qed.

Lemma restored_parts s : ledger_inv s -> restored (parts_of s) = s.
Proof.
  intros Hinv. unfold restored, asset_map. cbn. unfold sorted_assets, sorted_ids, sorted_supplies.
  rewrite !list_to_set_sort.
  rewrite (list_to_map_proper (sort_by_key fst _) (map_to_list (ls_issued_supply s)));
    [|rewrite sort_by_key_Permutation; apply NoDup_fst_map_to_list|apply sort_by_key_Permutation].
  rewrite list_to_map_to_list.
  rewrite (list_to_map_proper _ (map_to_list (ls_assets s))).
  - rewrite list_to_map_to_list, <-(inv_commitments s Hinv). by destruct s as [? ? [] ? ? ?].
  - rewrite <-list_fmap_compose. apply strictly_sorted_NoDup. by apply sorted_assets_strict.
  - by rewrite sort_by_key_Permutation, asset_pairs.
Qed.

(** The amounts of a decoded snapshot are [Amount] values. *)
Definition snapshot_amounts_wf (snap : LedgerSnapshot) : Prop :=
  Forall (fun p => amount_wf p.2) (snap_issued_supply snap).

Lemma asset_map_lookup l i a :
  NoDup (asset_id <$> l) -> asset_map l !! i = Some a <-> a ∈ l /\ asset_id a = i.
Proof.
  intros Hnd. unfold asset_map. rewrite <-elem_of_list_to_map.
  2:{ by rewrite <-list_fmap_compose. }
  rewrite list_elem_of_fmap. split.
  - by intros (b & [= -> ->] & Hb).
  - intros [Ha <-]. by exists a.
Qed.

Lemma restored_inv snap :
  snapshot_canonical snap -> snapshot_amounts_wf snap -> ledger_inv (restored snap).
Proof.
  intros [Hd Hsa Hwf Hnd Hcap Hn Hss Hsub Htx] Ham. split; cbn; try done.
  - intros i a Ha. apply asset_map_lookup in Ha as [Ha <-]; [|by apply strictly_sorted_NoDup].
    rewrite Forall_forall in Hwf. by split; [|apply Hwf].
  - intros i m Hm. apply elem_of_list_to_map in Hm; [|by apply strictly_sorted_NoDup].
    rewrite Forall_forall in Hsub. unfold snapshot_amounts_wf in Ham. rewrite Forall_forall in Ham.
    split; [by apply (Ham (i, m))|].
    destruct (proj1 (list_elem_of_fmap _ _ _) (Hsub i (list_elem_of_fmap_2 fst _ _ Hm)))
      as (a & -> & Ha).
    exists a. apply asset_map_lookup; [by apply strictly_sorted_NoDup|done].
Qed.

Lemma parts_restored snap :
  snapshot_canonical snap -> snapshot_amounts_wf snap -> parts_of (restored snap) = snap.
Proof.
  intros Hcan Ham. pose proof (restored_inv snap Hcan Ham) as Hinv.
  destruct Hcan as [Hd Hsa Hwf Hnd Hcap Hn Hss Hsub Htx].
  assert (sorted_assets (restored snap) = snap_assets snap) as HA.
  { apply (keyed_sorted_unique asset_id); [by apply sorted_assets_strict|done|].
    unfold sorted_assets. rewrite sort_by_key_Permutation. cbn. unfold asset_map.
    rewrite map_to_list_to_map by (rewrite <-list_fmap_compose; by apply strictly_sorted_NoDup).
    rewrite <-list_fmap_compose. by rewrite (list_fmap_ext _ id), list_fmap_id. }
  assert (sorted_supplies (restored snap) = snap_issued_supply snap) as HS.
  { apply (keyed_sorted_unique fst); [by apply sorted_supplies_strict|done|].
    unfold sorted_supplies. rewrite sort_by_key_Permutation. cbn.
    by rewrite map_to_list_to_map by by apply strictly_sorted_NoDup. }
  unfold parts_of. rewrite HA, HS. cbn. unfold sorted_ids.
  rewrite !sort_elements_list_to_set by done. by destruct snap.
Qed.

(** ** State identity *)

(** Every collection fits the [u32] counts of the state preimage. *)
Definition counts_fit (s : LedgerState) : Prop :=
  len (sorted_assets s) <= U32_MAX /\ len (sorted_supplies s) <= U32_MAX /\
  len (sorted_ids (ls_spent_nullifiers s)) <= U32_MAX /\
  len (sorted_ids (ls_accepted_transactions s)) <= U32_MAX.

#[global] Instance prefix_free_asset : PrefixFree asset_wf asset_entry.
Proof.
  intros [i1 t1 k1] [i2 t2 k2] r1 r2 [[_ H1] _] [[_ H2] _] He.
  unfold asset_entry, write_bytes, write_count in He. cbn [asset_id asset_kind asset_ticker] in *.
  rewrite <-!app_assoc in He.
  apply (prefix_free i1 i2) in He as [-> He]; [|done..].
  apply (app_inj_1 [kind_tag k1] [kind_tag k2]) in He as [[= Hk] He]; [|done].
  apply prefix_free_sized in He as [-> ->]; [|lia..]. by destruct k1, k2.
Qed.

#[global] Instance prefix_free_supply : PrefixFree (fun p => amount_wf p.2) supply_entry.
Proof.
  intros [i1 [u1]] [i2 [u2]] r1 r2 H1 H2 He. unfold supply_entry in He. cbn in H1, H2.
  cbn [fst snd units] in He. rewrite <-!app_assoc in He.
  apply (prefix_free i1 i2) in He as [-> He]; [|done..].
  unfold amount_wf in *. cbn in *. by apply (prefix_free u1 u2) in He as [-> ->]; [|lia..].
Qed.

Section Identity.
Context `{Sha2}.

Lemma state_preimage_counted s g :
  state_preimage s g =
  STATE_DOMAIN ++ arr g ++ to_be_bytes 1 (root_depth (merkle_root s)) ++
  arr (digest (merkle_root s)) ++ counted asset_entry (sorted_assets s) ++
  counted supply_entry (sorted_supplies s) ++ counted arr (sorted_ids (ls_spent_nullifiers s)) ++
  counted arr (sorted_ids (ls_accepted_transactions s)).
Proof. unfold state_preimage, counted, write_count. by rewrite <-!app_assoc. Qed.

Lemma Forall_amounts s : ledger_inv s -> Forall (fun p => amount_wf p.2) (sorted_supplies s).
Proof.
  intros Hinv. unfold sorted_supplies. rewrite sort_by_key_Permutation.
  apply Forall_forall. intros [i m] Hm%elem_of_map_to_list. by destruct (inv_supply s Hinv _ _ Hm).
Qed.

(** The preimage determines everything it lists, and the tree up to its root. *)
Lemma state_preimage_inj s1 s2 g1 g2 :
  ledger_inv s1 -> ledger_inv s2 -> counts_fit s1 -> counts_fit s2 ->
  state_preimage s1 g1 = state_preimage s2 g2 ->
  g1 = g2 /\ merkle_root s1 = merkle_root s2 /\ sorted_assets s1 = sorted_assets s2 /\
  sorted_supplies s1 = sorted_supplies s2 /\
  sorted_ids (ls_spent_nullifiers s1) = sorted_ids (ls_spent_nullifiers s2) /\
  sorted_ids (ls_accepted_transactions s1) = sorted_ids (ls_accepted_transactions s2).
Proof.
  intros Hi1 Hi2 (Ha1 & Hs1 & Hn1 & Ht1) (Ha2 & Hs2 & Hn2 & Ht2). rewrite !state_preimage_counted.
  pose proof (can_assets_wf _ (parts_canonical _ Hi1)) as Hw1.
  pose proof (can_assets_wf _ (parts_canonical _ Hi2)) as Hw2. cbn in Hw1, Hw2.
  pose proof (can_depth _ (parts_canonical _ Hi1)) as Hd1.
  pose proof (can_depth _ (parts_canonical _ Hi2)) as Hd2. unfold MIN_DEPTH, MAX_DEPTH in *. cbn in Hd1, Hd2.
  intros He%app_inv_head. apply (prefix_free g1 g2) in He as [-> He]; [|done..].
  apply (prefix_free (root_depth (merkle_root s1)) (root_depth (merkle_root s2))) in He as [Hd He];
    [|cbn; lia..].
  apply (prefix_free (digest (merkle_root s1)) (digest (merkle_root s2))) in He as [Hr He]; [|done..].
  apply (prefix_free (sorted_assets s1) (sorted_assets s2)) in He as [-> He]; [|done..].
  apply (prefix_free (sorted_supplies s1) (sorted_supplies s2)) in He as [-> He];
    [|by split; [|apply Forall_amounts]..].
  apply (prefix_free (sorted_ids _) (sorted_ids _)) in He as [-> He];
    [|split; [done|by apply Forall_forall]..].
  rewrite <-(app_nil_r (counted arr (sorted_ids (ls_accepted_transactions s1)))) in He.
  rewrite <-(app_nil_r (counted arr (sorted_ids (ls_accepted_transactions s2)))) in He.
  apply (prefix_free (sorted_ids _) (sorted_ids _)) in He as [-> _];
    [|split; [done|by apply Forall_forall]..].
  split_and!; try done. destruct (merkle_root s1), (merkle_root s2). cbn in *. by subst.
Qed.

(** All strings hashed for the identity of a state. *)
Definition state_preimages (s : LedgerState) (g : GenesisId) : list (list byte) :=
  state_preimage s g ::
  subtree_preimages (commitments (ls_commitment_tree s)) (Z.to_nat (depth (ls_commitment_tree s))) 0.

Lemma state_id_inj s1 s2 g1 g2 :
  ledger_inv s1 -> ledger_inv s2 -> counts_fit s1 -> counts_fit s2 ->
  collision_free (state_preimages s1 g1 ++ state_preimages s2 g2) ->
  state_id s1 g1 = state_id s2 g2 -> g1 = g2 /\ s1 = s2.
Proof.
  intros Hi1 Hi2 Hc1 Hc2 Hcf He. unfold state_preimages in Hcf.
  apply Hcf in He; [|set_solver..].
  apply state_preimage_inj in He as (-> & Hr & Ha & Hs & Hn & Ht); [|done..]. split; [done|].
  unfold merkle_root in Hr. rewrite !root_node in Hr by (apply Hi1 || apply Hi2).
  injection Hr as Hr Hd.
  rewrite <-(restored_parts s1 Hi1), <-(restored_parts s2 Hi2). f_equal. unfold parts_of.
  rewrite Ha, Hs, Hn, Ht, Hd. f_equal.
  apply (node_root_inj _ _ (Z.to_nat (depth (ls_commitment_tree s2)))).
  - rewrite <-Hd. apply tree_wf_nat, Hi1.
  - apply tree_wf_nat, Hi2.
  - eapply collision_free_subseteq; [|exact Hcf]. rewrite Hd. set_solver.
  - by rewrite <-Hd at 1.
Qed.

End Identity.

(** ** Properties *)

(** exporting and restoring.  Every ledger in its invariant has a snapshot
    (the [expect] in [snapshot] never fires) and restoring that snapshot gives
    back exactly the same ledger. *)
Theorem snapshot_roundtrip s :
  ledger_inv s -> exists snap, snapshot s = Some snap /\ from_snapshot snap = Ok s.
Proof.
  intros Hinv. exists (parts_of s). split.
  - apply snapshot_parts. split; [done|]. by apply parts_canonical.
  - apply from_snapshot_Ok. split; [by apply parts_canonical|]. by rewrite restored_parts.
Qed.

Lemma snapshot_roundtrip_witness :
  exists snap, snapshot sample_ledger = Some snap /\ from_snapshot snap = Ok sample_ledger.
Proof. apply (snapshot_roundtrip sample_ledger sample_ledger_inv). Defined.

(** a snapshot is restored exactly when it is canonical, and then the result
    is a ledger in its invariant whose snapshot is the given one: a canonical
    snapshot is the only representation of its state. *)
Theorem from_snapshot_exact snap :
  snapshot_amounts_wf snap ->
  (snapshot_canonical snap ->
   exists s, from_snapshot snap = Ok s /\ ledger_inv s /\ snapshot s = Some snap) /\
  (~ snapshot_canonical snap -> exists e, from_snapshot snap = Err e).
Proof.
  intros Ham. split.
  - intros Hcan. exists (restored snap). split_and!.
    + by apply from_snapshot_Ok.
    + by apply restored_inv.
    + apply snapshot_parts. by rewrite parts_restored.
  - intros Hn. destruct (from_snapshot snap) as [s|e] eqn:Hs; [|by exists e].
    by apply from_snapshot_Ok in Hs as [? _].
Qed.

Definition sample_snapshot : LedgerSnapshot :=
  mk_LedgerSnapshot 2 [sample_asset] [id_of x52; id_of x51] [id_of x61]
    [(id_of x0a, mk_Amount 5)] [id_of x41; id_of x42].

Lemma from_snapshot_exact_witness :
  exists s, from_snapshot sample_snapshot = Ok s /\ ledger_inv s /\
            snapshot s = Some sample_snapshot.
Proof.
  apply (from_snapshot_exact sample_snapshot).
  - repeat constructor; by_eval.
  - split; try by_eval.
    + repeat constructor; by_eval.
    + apply NoDup_cons; split; [|apply NoDup_singleton].
      intros He%list_elem_of_singleton. by discriminate (f_equal arr He).
    + repeat constructor.
Defined.

(** the state identity binds the complete ledger.  Two ledgers in their
    invariant with the same state identity, under any two genesis identities,
    are the same ledger under the same genesis (assets, commitments in order,
    nullifiers, supplies and accepted transactions all agree), unless two of the
    finitely many strings hashed for the two identities collide. *)
Theorem state_id_binds_ledger `{Sha2} s1 s2 g1 g2 :
  ledger_inv s1 -> ledger_inv s2 -> counts_fit s1 -> counts_fit s2 ->
  collision_free (state_preimages s1 g1 ++ state_preimages s2 g2) ->
  state_id s1 g1 = state_id s2 g2 -> g1 = g2 /\ s1 = s2.
Proof. apply state_id_inj. Qed.

Lemma state_id_binds_ledger_witness :
  let hash := toy_sha2 in
  state_id sample_ledger (id_of x01) <> state_id sample_ledger (id_of x02).
Proof.
  intros hash He.
  destruct (state_id_binds_ledger sample_ledger sample_ledger (id_of x01) (id_of x02)) as [Hg _].
  - apply sample_ledger_inv.
  - apply sample_ledger_inv.
  - by_eval.
  - by_eval.
  - apply collision_freeb_spec. by_eval.
  - exact He.
  - discriminate (f_equal arr Hg).
Defined.

(** C38: [register_asset] stores a definition without validating it, so a
    definition filled in by hand (its fields are public) with a ticker that
    [AssetDefinition::new] would reject is accepted, and the next [snapshot] of
    the live ledger panics. *)
Theorem unvalidated_asset_breaks_snapshot s a :
  ledger_inv s -> ls_assets s !! asset_id a = None -> ~ asset_wf a ->
  exists s', register_asset a s = (Ok tt, s') /\ snapshot s' = None.
Proof.
  intros Hinv Hnew Hbad. unfold register_asset. msimpl.
  rewrite Hnew, bool_decide_eq_false_2 by (by intros [? ?]). eexists. split; [done|].
  destruct (snapshot _) as [snap|] eqn:Hs; [|done]. exfalso.
  apply snapshot_parts in Hs as [_ Hcan]. apply Hbad.
  pose proof (can_assets_wf _ Hcan) as Hall. rewrite Forall_forall in Hall. apply Hall.
  cbn. unfold sorted_assets. rewrite sort_by_key_Permutation. cbn.
  apply list_elem_of_fmap. exists (asset_id a, a). split; [done|].
  apply elem_of_map_to_list, lookup_insert_eq.
Qed.

Lemma unvalidated_asset_breaks_snapshot_witness :
  exists s', register_asset (mk_AssetDefinition (id_of x0b) (bytes_of_string "nox") Synthetic)
               sample_ledger = (Ok tt, s') /\ snapshot s' = None.
Proof.
  apply (unvalidated_asset_breaks_snapshot sample_ledger
           (mk_AssetDefinition (id_of x0b) (bytes_of_string "nox") Synthetic)).
  - apply sample_ledger_inv.
  - by_eval.
  - intros [_ Hall]. inversion Hall as [|? ? Hb]. discriminate Hb.
Defined.
