(* ===== verification/Privacy.v ===== *)
(** * Private-transfer intents ([noxis-privacy-types])

    Public values of the v2 private transfer: 64-byte vectors of sixteen
    canonical BabyBear elements, and the 640-byte intent with strictly ordered
    nullifiers and output commitments. *)

From Stdlib Require Import Strings.Byte.
From S2P Require Import Prelude Arrays Reader Types.

Module PrivacyTypesError.
Inductive PrivacyTypesError : Type :=
| InvalidIntentLength (actual expected : Z)
| DuplicateInputNullifier
| NonCanonicalInputNullifierOrder
| DuplicateOutputCommitment
| NonCanonicalOutputCommitmentOrder
| NonCanonicalBabyBearElement (index value : Z).
End PrivacyTypesError.
Abbreviation PrivacyTypesError := PrivacyTypesError.PrivacyTypesError.

(** ** BabyBear vectors ([identifiers.rs]) *)

Definition BABYBEAR_MODULUS : Z := 2013265921.
Definition BABYBEAR_ELEMENTS_PER_VALUE : nat := 16.
Abbreviation BABYBEAR_VECTOR_BYTES := 64%nat (only parsing).

(** The bytes of any [canonical_babybear_vector!] type. *)
Abbreviation Vector := (array 64).
Abbreviation CircuitId := (array 32).
Abbreviation TreeParametersId := (array 32).

(** [for (index, chunk) in bytes.chunks_exact(4).enumerate()]. *)
Fixpoint validate_babybear_loop (index : Z) (bytes : list byte) : Result PrivacyTypesError unit :=
  match bytes with
  | a :: b :: c :: d :: bytes =>
      let value := from_le_bytes [a; b; c; d] in
      if BABYBEAR_MODULUS <=? value
      then Err (PrivacyTypesError.NonCanonicalBabyBearElement index value)
      else validate_babybear_loop (index + 1) bytes
  | _ => Ok tt
  end.

Definition validate_babybear_bytes (bytes : Vector) : Result PrivacyTypesError unit :=
  validate_babybear_loop 0 (arr bytes).

(** [NoteCommitmentV2::new] and its siblings. *)
Definition vector_new (bytes : Vector) : Result PrivacyTypesError Vector :=
  _ ← validate_babybear_bytes bytes; Ok bytes.

Fixpoint from_elements_loop (index : Z) (elements : list Z)
    : Result PrivacyTypesError (list byte) :=
  match elements with
  | [] => Ok []
  | element :: elements =>
      if BABYBEAR_MODULUS <=? element
      then Err (PrivacyTypesError.NonCanonicalBabyBearElement index element)
      else rest ← from_elements_loop (index + 1) elements; Ok (to_le_bytes 4 element ++ rest)
  end.

(** [from_elements].  The argument type [[u32; 16]] fixes the number of
    elements; [Err None] stands for a list of another length. *)
Definition from_elements (elements : list Z) : Result (option PrivacyTypesError) Vector :=
  bytes ← map_err Some (from_elements_loop 0 elements);
  ok_or (try_into 64 bytes) None.

Fixpoint elements_of (bytes : list byte) : list Z :=
  match bytes with
  | a :: b :: c :: d :: bytes => from_le_bytes [a; b; c; d] :: elements_of bytes
  | _ => []
  end.

(** [elements]. *)
Definition elements (self : Vector) : list Z := elements_of (arr self).

(** The invariant of a constructed vector. *)
Definition vector_wf (v : Vector) : Prop := Forall (fun e => e < BABYBEAR_MODULUS) (elements v).

#[global] Instance vector_wf_dec v : Decision (vector_wf v).
Proof. unfold vector_wf. apply _. Defined.

(** ** Intents ([transfer.rs]) *)

Definition PRIVATE_TRANSFER_V2_TREE_DEPTH : Z := 32.

Record TreeParametersV2 : Type := mk_TreeParametersV2 { tree_parameters_id : TreeParametersId }.

Record PrivateTransferOutputV2 : Type := mk_PrivateTransferOutputV2 {
  out_commitment : Vector;
  out_ciphertext_digest : Vector
}.

Record PrivateTransferIntentV2 : Type := mk_PrivateTransferIntentV2 {
  pi_circuit_id : CircuitId;
  pi_genesis_id : GenesisId;
  pi_validation_context_id : ValidationContextId;
  pi_pre_state_id : StateId;
  pi_tree_parameters : TreeParametersV2;
  pi_pre_state_root : Vector;
  pi_asset_id : AssetId;
  pi_nullifier0 : Vector;
  pi_nullifier1 : Vector;
  pi_output0 : PrivateTransferOutputV2;
  pi_output1 : PrivateTransferOutputV2
}.

#[global] Instance TreeParametersV2_eq_dec : EqDecision TreeParametersV2.
Proof. solve_decision. Defined.
#[global] Instance PrivateTransferOutputV2_eq_dec : EqDecision PrivateTransferOutputV2.
Proof. solve_decision. Defined.
#[global] Instance PrivateTransferIntentV2_eq_dec : EqDecision PrivateTransferIntentV2.
Proof. solve_decision. Defined.

Definition INTENT_ENCODED_LENGTH : Z := 32 + 32 * 5 + 64 + 64 * 2 + 64 * 2 + 64 * 2.

(** [PrivateTransferIntentV2::new]. *)
Definition intent_new (i : PrivateTransferIntentV2)
    : Result PrivacyTypesError PrivateTransferIntentV2 :=
  if bool_decide (pi_nullifier0 i = pi_nullifier1 i)
  then Err PrivacyTypesError.DuplicateInputNullifier
  else if bool_decide (array_lt (pi_nullifier1 i) (pi_nullifier0 i))
  then Err PrivacyTypesError.NonCanonicalInputNullifierOrder
  else if bool_decide (out_commitment (pi_output0 i) = out_commitment (pi_output1 i))
  then Err PrivacyTypesError.DuplicateOutputCommitment
  else if bool_decide (array_lt (out_commitment (pi_output1 i)) (out_commitment (pi_output0 i)))
  then Err PrivacyTypesError.NonCanonicalOutputCommitmentOrder
  else Ok i.

(** [PrivateTransferIntentV2::encode]. *)
Definition intent_encode (self : PrivateTransferIntentV2) : list byte :=
  arr (pi_circuit_id self) ++ arr (pi_genesis_id self) ++ arr (pi_validation_context_id self) ++
  arr (pi_pre_state_id self) ++ arr (tree_parameters_id (pi_tree_parameters self)) ++
  arr (pi_pre_state_root self) ++ arr (pi_asset_id self) ++
  arr (pi_nullifier0 self) ++ arr (pi_nullifier1 self) ++
  arr (out_commitment (pi_output0 self)) ++ arr (out_commitment (pi_output1 self)) ++
  arr (out_ciphertext_digest (pi_output0 self)) ++ arr (out_ciphertext_digest (pi_output1 self)).

(** [read] indexes the slice and calls [expect]: out of range it panics, which
    is the error [None] here. *)
#[global] Instance intent_read_error : ReadError (option PrivacyTypesError) := {|
  UnexpectedEnd _ := None;
  LengthOverflow := None;
  TrailingBytes _ := None
|}.

Definition read_vector : M Reader (option PrivacyTypesError) Vector :=
  bytes ← read_array 64; lift (map_err Some (vector_new bytes)).

Definition intent_fields : M Reader (option PrivacyTypesError) PrivateTransferIntentV2 :=
  circuit_id ← read_array 32;
  genesis_id ← read_array 32;
  validation_context_id ← read_array 32;
  pre_state_id ← read_array 32;
  tree_parameters ← read_array 32;
  pre_state_root ← read_vector;
  asset_id ← read_array 32;
  nullifier0 ← read_vector;
  nullifier1 ← read_vector;
  commitment0 ← read_vector;
  commitment1 ← read_vector;
  digest0 ← read_vector;
  digest1 ← read_vector;
  lift (map_err Some (intent_new
    (mk_PrivateTransferIntentV2 circuit_id genesis_id validation_context_id pre_state_id
       (mk_TreeParametersV2 tree_parameters) pre_state_root asset_id nullifier0 nullifier1
       (mk_PrivateTransferOutputV2 commitment0 digest0)
       (mk_PrivateTransferOutputV2 commitment1 digest1)))).

(** [PrivateTransferIntentV2::decode]; [Err None] is a panic. *)
Definition intent_decode (bytes : list byte)
    : Result (option PrivacyTypesError) PrivateTransferIntentV2 :=
  if negb (len bytes =? INTENT_ENCODED_LENGTH)
  then Err (Some (PrivacyTypesError.InvalidIntentLength (len bytes) INTENT_ENCODED_LENGTH))
  else run intent_fields bytes.

Record intent_wf (i : PrivateTransferIntentV2) : Prop := mk_intent_wf {
  iw_root : vector_wf (pi_pre_state_root i);
  iw_n0 : vector_wf (pi_nullifier0 i);
  iw_n1 : vector_wf (pi_nullifier1 i);
  iw_c0 : vector_wf (out_commitment (pi_output0 i));
  iw_c1 : vector_wf (out_commitment (pi_output1 i));
  iw_d0 : vector_wf (out_ciphertext_digest (pi_output0 i));
  iw_d1 : vector_wf (out_ciphertext_digest (pi_output1 i));
  iw_nullifiers : array_lt (pi_nullifier0 i) (pi_nullifier1 i);
  iw_outputs : array_lt (out_commitment (pi_output0 i)) (out_commitment (pi_output1 i))
}.

(** ** Lemmas on vectors *)

Lemma list_four_ind {A} (P : list A -> Prop) :
  (forall l, (length l < 4)%nat -> P l) ->
  (forall a b c d l, P l -> P (a :: b :: c :: d :: l)) -> forall l, P l.
Proof.
  intros H0 H4. fix go 1.
  intros [|a [|b [|c [|d l]]]]; [apply H0; cbn; lia..|apply H4, go].
Qed.

Lemma validate_babybear_loop_Ok index bs :
  validate_babybear_loop index bs = Ok tt <-> Forall (fun e => e < BABYBEAR_MODULUS) (elements_of bs).
Proof.
  revert index. induction bs as [l Hl|a b c d l IH] using list_four_ind; intros index.
  - destruct l as [|? [|? [|? [|]]]]; cbn in *; try lia; split; done.
  - cbn [validate_babybear_loop elements_of]. rewrite Forall_cons, <-(IH (index + 1)).
    destruct (Z.leb_spec BABYBEAR_MODULUS (from_le_bytes [a; b; c; d])); split; naive_solver lia.
Qed.

Lemma vector_new_Ok v v' : vector_new v = Ok v' <-> v' = v /\ vector_wf v.
Proof.
  unfold vector_new, validate_babybear_bytes, vector_wf, elements.
  rewrite <-(validate_babybear_loop_Ok 0). split.
  - intros H. inv_ok. by destruct x.
  - by intros [-> ->].
Qed.

Definition element_wf (e : Z) : Prop := 0 <= e < BABYBEAR_MODULUS.

Lemma from_elements_loop_Ok index es bs :
  Forall (fun e => 0 <= e) es ->
  from_elements_loop index es = Ok bs <-> Forall element_wf es /\ bs = concat (to_le_bytes 4 <$> es).
Proof.
  intros Hes. revert index bs. induction Hes as [|e es He Hes IH]; intros index bs.
  - cbn. split; [by intros [= <-]|by intros [_ ->]].
  - cbn [from_elements_loop fmap list_fmap concat]. rewrite Forall_cons. unfold element_wf at 1.
    destruct (Z.leb_spec BABYBEAR_MODULUS e); [split; [done|lia]|]. rewrite bind_Ok. split.
    + intros (r & Hr & [= <-]). apply IH in Hr as [? ->]. split; [split; [lia|done]|done].
    + intros [[_ Hall] ->]. eexists. split; [by apply IH|done].
Qed.

Lemma elements_of_concat es :
  Forall element_wf es -> elements_of (concat (to_le_bytes 4 <$> es)) = es.
Proof.
  induction 1 as [|e es He Hes IH]; [done|]. cbn [fmap list_fmap concat].
  destruct (to_le_bytes 4 e) as [|a [|b [|c [|d [|]]]]] eqn:Hb; try done.
  cbn [app elements_of]. rewrite IH, <-Hb, from_to_le_bytes, Z.mod_small; [done|].
  unfold element_wf, BABYBEAR_MODULUS in He. cbn. lia.
Qed.

Lemma concat_elements_of bs :
  (exists n, length bs = 4 * n)%nat -> concat (to_le_bytes 4 <$> elements_of bs) = bs.
Proof.
  induction bs as [l Hl|a b c d l IH] using list_four_ind; intros [n Hn].
  - destruct l as [|? [|? [|? [|]]]]; cbn in *; try lia. done.
  - cbn [elements_of fmap list_fmap concat]. rewrite IH.
    + change 4%nat with (length [a; b; c; d]). by rewrite to_from_le_bytes.
    + exists (n - 1)%nat. cbn in Hn. lia.
Qed.

Lemma length_concat_le es : length (concat (to_le_bytes 4 <$> es)) = (4 * length es)%nat.
Proof.
  induction es as [|e es IH]; [done|]. cbn [fmap list_fmap concat length].
  rewrite length_app, length_to_le_bytes, IH. lia.
Qed.

Lemma elements_range v : Forall (fun e => 0 <= e < 2 ^ 32) (elements v).
Proof.
  unfold elements. generalize (arr v). intros l.
  induction l as [l Hl|a b c d l IH] using list_four_ind.
  - destruct l as [|? [|? [|? [|]]]]; cbn in *; try lia; constructor.
  - cbn [elements_of]. constructor; [|done]. apply (from_le_bytes_range [a; b; c; d]).
Qed.

Lemma length_elements v : length (elements v) = 16%nat.
Proof.
  pose proof (f_equal length (concat_elements_of (arr v) ltac:(exists 16%nat; apply length_arr))) as Hc.
  rewrite length_concat_le, length_arr in Hc. unfold elements. lia.
Qed.

Lemma from_elements_wf es v :
  Forall (fun e => 0 <= e) es -> from_elements es = Ok v -> Forall element_wf es.
Proof.
  intros Hpos H. unfold from_elements in H. inv_ok. by apply from_elements_loop_Ok in Hx as [? _].
Qed.

Lemma from_elements_Ok es v :
  length es = 16%nat -> Forall element_wf es -> from_elements es = Ok v <-> elements v = es.
Proof.
  intros Hl Hes. assert (Forall (fun e => 0 <= e) es) as Hpos.
  { eapply Forall_impl; [exact Hes|]. by intros e [? _]. }
  unfold from_elements. rewrite (proj2 (from_elements_loop_Ok 0 es _ Hpos) (conj Hes eq_refl)).
  cbn [map_err mbind result_bind]. rewrite ok_or_Ok, try_into_Some. unfold elements. split.
  - intros ->. by apply elements_of_concat.
  - intros <-. symmetry. apply concat_elements_of. exists 16%nat. by rewrite length_arr.
Qed.

(** ** Lemmas on intents *)

Definition vector_grammar (v : Vector) (bs : list byte) : Prop := vector_wf v /\ bs = arr v.

Lemma parse_spec_read_vector : parse_spec read_vector vector_grammar.
Proof.
  eapply parse_spec_proper; cycle 1.
  - unfold read_vector. grammar_of.
  - intros v bs. cbn. unfold vector_grammar. split.
    + intros (a & b1 & b2 & -> & [Hv ->] & ->). apply map_err_Ok, vector_new_Ok in Hv as [-> ?].
      by rewrite app_nil_r.
    + intros [Hw ->]. exists v, (arr v), []. split; [done|]. split; [|by rewrite app_nil_r].
      by rewrite map_err_Ok, vector_new_Ok.
Qed.
#[export] Hint Extern 0 (parse_spec read_vector _) => eapply parse_spec_read_vector : grammar.

Lemma intent_new_Ok i i' :
  intent_new i = Ok i' <->
  i' = i /\ array_lt (pi_nullifier0 i) (pi_nullifier1 i) /\
  array_lt (out_commitment (pi_output0 i)) (out_commitment (pi_output1 i)).
Proof.
  unfold intent_new. split.
  - intros H. inv_ok. zbool. split; [done|].
    rewrite array_not_lt, array_le_lt_eq in Hb0, Hb2. naive_solver.
  - intros (-> & Hn & Ho).
    rewrite !bool_decide_eq_false_2; try done.
    + intros Hlt. apply (irreflexivity array_lt (out_commitment (pi_output0 i))). by etrans.
    + intros He. rewrite He in Ho. by apply (irreflexivity array_lt) in Ho.
    + intros Hlt. apply (irreflexivity array_lt (pi_nullifier0 i)). by etrans.
    + intros He. rewrite He in Hn. by apply (irreflexivity array_lt) in Hn.
Qed.

Lemma length_intent_encode i : len (intent_encode i) = INTENT_ENCODED_LENGTH.
Proof. unfold intent_encode. rewrite !length_app, !length_arr. done. Qed.

Lemma parse_spec_intent :
  parse_spec intent_fields (fun i bs => intent_wf i /\ bs = intent_encode i).
Proof.
  eapply parse_spec_proper; cycle 1.
  - unfold intent_fields. grammar_of.
  - intros i bs. cbn. split.
    + intros H. grammar_inv. unfold vector_grammar in *. rewrite map_err_Ok, intent_new_Ok in *. cbn in *. destruct_and!.
      subst. split; [by split|]. unfold intent_encode. cbn. by rewrite app_nil_r.
    + intros [[] ->]. destruct i as [c g v ps [tp] root a n0 n1 [c0 d0] [c1 d1]]. cbn in *.
      unfold intent_encode. cbn.
      do 12 grammar_split.
      eexists _, _, []. split; [split; [eassumption|reflexivity]|].
      split; [|by rewrite app_nil_r]. rewrite map_err_Ok, intent_new_Ok. done.
Qed.

Lemma intent_decode_Ok bs i : intent_decode bs = Ok i <-> intent_wf i /\ bs = intent_encode i.
Proof.
  unfold intent_decode. destruct (Z.eqb_spec (len bs) INTENT_ENCODED_LENGTH) as [Hl|Hl]; cbn [negb].
  - apply (run_fixed_iff _ _ INTENT_ENCODED_LENGTH _ _ parse_spec_intent); try done.
    intros j b [_ ->]. apply length_intent_encode.
  - split; [done|]. intros [_ ->]. by rewrite length_intent_encode in Hl.
Qed.

(** ** Absence of panics *)

(** [p] consumes [n] bytes and cannot panic while that many remain. *)
Definition no_panic {A} (p : M Reader (option PrivacyTypesError) A) (n : Z) : Prop :=
  forall r, reader_ok r -> n <= len (rest r) ->
  fst (p r) <> Err None /\
  forall x r', p r = (Ok x, r') -> reader_ok r' /\ len (rest r') = len (rest r) - n.

Lemma no_panic_bind {A B} (p : M Reader (option PrivacyTypesError) A)
    (k : A -> M Reader (option PrivacyTypesError) B) n m :
  0 <= m -> no_panic p n -> (forall a, no_panic (k a) m) -> no_panic (p ≫= k) (n + m).
Proof.
  intros Hm Hp Hk r Hr Hn. destruct (Hp r Hr ltac:(lia)) as [Hne Hok]. rewrite M_bind_eq.
  destruct (p r) as [[a|e] r1]; [|split; [|done]; intros [= ->]; by apply Hne].
  destruct (Hok a r1 eq_refl) as [Hr1 Hl1]. destruct (Hk a r1 Hr1 ltac:(lia)) as [Hne2 Hok2].
  split; [done|]. intros x r' Hx. destruct (Hok2 x r' Hx). split; [done|lia].
Qed.

Lemma no_panic_array n : no_panic (read_array n) (Z.of_nat n).
Proof.
  intros r Hr Hn. destruct (try_into_is_Some n (take n (rest r))) as (a & _ & Ha).
  { rewrite length_take. lia. }
  assert (rest r = arr a ++ drop n (rest r)) as Hrest by (by rewrite Ha, take_drop).
  rewrite (parse_complete (parse_spec_read_array n) r a (arr a) _ Hr eq_refl Hrest).
  split; [done|]. intros x r' [= <- <-]. split; [by eapply advance_ok|].
  rewrite (rest_advance _ _ _ Hr Hrest). rewrite length_drop. lia.
Qed.

Lemma no_panic_lift {A} (m : Result PrivacyTypesError A) : no_panic (lift (map_err Some m)) 0.
Proof.
  intros r Hr _. split; [by destruct m|]. intros x r' [= _ <-]. split; [done|lia].
Qed.

Lemma no_panic_vector : no_panic read_vector 64.
Proof. apply (no_panic_bind _ _ 64 0); [lia|apply no_panic_array|]. intros a. apply no_panic_lift. Qed.

Lemma no_panic_intent : no_panic intent_fields INTENT_ENCODED_LENGTH.
Proof.
  change INTENT_ENCODED_LENGTH with
    (32 + (32 + (32 + (32 + (32 + (64 + (32 + (64 + (64 + (64 + (64 + (64 + (64 + 0))))))))))))).
  unfold intent_fields.
  repeat first
    [ apply (no_panic_bind (read_array 32) _ 32); [lia|apply no_panic_array|intros ?]
    | apply (no_panic_bind read_vector _ 64); [lia|apply no_panic_vector|intros ?] ].
  apply no_panic_lift.
Qed.

(** ** Properties *)

(** a v2 vector and its sixteen field elements determine each other.
    [from_elements] accepts exactly the canonical elements (each below the
    BabyBear modulus) and [elements] recovers them; the bytes of any canonical
    vector are re-encoded identically, so a vector has one representation. *)
Theorem vector_elements_roundtrip :
  (forall es v, length es = BABYBEAR_ELEMENTS_PER_VALUE -> Forall (fun e => 0 <= e) es ->
     from_elements es = Ok v <-> Forall element_wf es /\ vector_wf v /\ elements v = es) /\
  (forall v v', vector_new v = Ok v' <-> v' = v /\ from_elements (elements v) = Ok v).
Proof.
  split.
  - intros es v Hl Hpos. split.
    + intros H. pose proof (from_elements_wf _ _ Hpos H) as Hes.
      apply from_elements_Ok in H; [|done..]. split; [done|]. split; [|done].
      unfold vector_wf. rewrite H. eapply Forall_impl; [exact Hes|]. by intros e [_ ?].
    + intros (Hes & _ & He). by apply from_elements_Ok.
  - intros v v'. rewrite vector_new_Ok. split; intros [-> H]; (split; [done|]).
    + apply from_elements_Ok; [apply length_elements| |done].
      pose proof (elements_range v) as Hr. unfold vector_wf in H. rewrite Forall_forall in *.
      intros e He. split; [by apply Hr|by apply H].
    + apply from_elements_wf in H.
      * eapply Forall_impl; [exact H|]. by intros e [_ ?].
      * eapply Forall_impl; [apply elements_range|]. by intros e [? _].
Qed.

(** the private-transfer intent decoder never panics, and accepts exactly the
    640-byte encodings of well-formed intents (canonical vectors, strictly
    increasing nullifiers and output commitments): it inverts the encoder and
    admits no second encoding. *)
Theorem intent_decode_exact bs :
  intent_decode bs <> Err None /\
  forall i, intent_decode bs = Ok i <-> intent_wf i /\ bs = intent_encode i.
Proof.
  split; [|by intros i; apply intent_decode_Ok].
  unfold intent_decode. destruct (Z.eqb_spec (len bs) INTENT_ENCODED_LENGTH) as [Hl|Hl]; [|done].
  apply no_panic_intent; [apply new_ok|rewrite rest_new]; unfold INTENT_ENCODED_LENGTH in *; lia.
Qed.
