(* ===== verification/Codec.v ===== *)
(** * The transaction codec ([noxis-codec])

    The [NOXT] v1 transaction format, the transaction intent and its identity,
    and the [NXPT] v1 private-transfer packet.  Encoders return the error they
    return in the source; decoders are programs over the shared reader.  The
    theorems show that each decoder accepts exactly what its encoder produces,
    so the wire format has one representation per value, and that the intent
    identity ignores exactly the transaction id and the opaque envelopes. *)

From Stdlib Require Import Strings.Byte Strings.String.
From S2P Require Import Prelude Arrays Reader Sha256 Types Crypto Ledger Privacy.

Definition TRANSACTION_MAGIC : list byte := bytes_of_string "NOXT".
Definition TRANSACTION_FORMAT_VERSION : Z := 1.
Definition PRIVATE_TRANSFER_MAGIC : list byte := bytes_of_string "NXPT".
Definition PRIVATE_TRANSFER_FORMAT_VERSION : Z := 1.
Definition MAX_PRIVATE_ENVELOPE_BYTES : Z := 4 * 1024.
Definition MAX_PRIVATE_PROOF_BYTES : Z := 8454144.
Definition MAX_COLLECTION_ITEMS : Z := 65536.
Definition MAX_OPAQUE_BYTES : Z := 16 * 1024 * 1024.
Definition OPERATION_TRANSFER : Z := 1.
Definition OPERATION_MINT : Z := 2.

Module CodecError.
Inductive CodecError : Type :=
| InvalidMagic
| UnsupportedFormatVersion (version : Z)
| InvalidPrivateTransferMagic
| UnsupportedPrivateTransferFormatVersion (version : Z)
| InvalidPrivateTransferIntent (error : option PrivacyTypesError)
| UnknownOperation (tag : Z)
| UnknownAlgorithm (code : Z)
| InvalidCryptoSuite (error : CryptoSuiteError)
| UnexpectedEnd (offset : Z)
| TrailingBytes (count : Z)
| LengthOverflow
| CollectionTooLarge (actual maximum : Z)
| OpaqueDataTooLarge (actual maximum : Z)
| PrivateEnvelopeTooLarge (actual maximum : Z)
| PrivateProofTooLarge (actual maximum : Z)
| EmptyRequiredField (field : string)
| ZeroMintAmount
| ProofSuiteVersionMismatch (transaction proof : Z).
End CodecError.
Abbreviation CodecError := CodecError.CodecError.

#[global] Instance codec_read_error : ReadError CodecError := {|
  Reader.UnexpectedEnd := CodecError.UnexpectedEnd;
  Reader.LengthOverflow := CodecError.LengthOverflow;
  Reader.TrailingBytes := CodecError.TrailingBytes
|}.

(** ** Limits *)

Definition ensure_non_empty (length : Z) (field : string) : Result CodecError unit :=
  if length =? 0 then Err (CodecError.EmptyRequiredField field) else Ok tt.

Definition ensure_collection_limit (length : Z) : Result CodecError unit :=
  if MAX_COLLECTION_ITEMS <? length
  then Err (CodecError.CollectionTooLarge length MAX_COLLECTION_ITEMS) else Ok tt.

Definition ensure_opaque_limit (length : Z) : Result CodecError unit :=
  if MAX_OPAQUE_BYTES <? length
  then Err (CodecError.OpaqueDataTooLarge length MAX_OPAQUE_BYTES) else Ok tt.

Definition ensure_private_envelope_limit (length : Z) : Result CodecError unit :=
  if length =? 0 then Err (CodecError.EmptyRequiredField "private recipient envelope")
  else if MAX_PRIVATE_ENVELOPE_BYTES <? length
  then Err (CodecError.PrivateEnvelopeTooLarge length MAX_PRIVATE_ENVELOPE_BYTES) else Ok tt.

Definition ensure_private_proof_limit (length : Z) : Result CodecError unit :=
  if length =? 0 then Err (CodecError.EmptyRequiredField "private transfer proof")
  else if MAX_PRIVATE_PROOF_BYTES <? length
  then Err (CodecError.PrivateProofTooLarge length MAX_PRIVATE_PROOF_BYTES) else Ok tt.

Definition validate_transaction_shape (transaction : Transaction) : Result CodecError unit :=
  _ ← map_err CodecError.InvalidCryptoSuite (suite_validate (tx_suite transaction));
  match tx_operation transaction with
  | OpTransfer transfer =>
      _ ← ensure_non_empty (len (tr_input_nullifiers transfer)) "transfer input nullifiers";
      _ ← ensure_non_empty (len (tr_output_commitments transfer)) "transfer output commitments";
      _ ← ensure_collection_limit (len (tr_input_nullifiers transfer));
      _ ← ensure_collection_limit (len (tr_output_commitments transfer));
      _ ← ensure_opaque_limit (len (proof_bytes (tr_proof transfer)));
      if negb (cs_version (tx_suite transaction) =? suite_version (tr_proof transfer))
      then Err (CodecError.ProofSuiteVersionMismatch (cs_version (tx_suite transaction))
                  (suite_version (tr_proof transfer)))
      else Ok tt
  | OpMint mint =>
      _ ← ensure_non_empty (len (mint_output_commitments mint)) "mint output commitments";
      _ ← ensure_collection_limit (len (mint_output_commitments mint));
      ensure_opaque_limit (len (mint_authorization mint))
  end.

(** ** Writers *)

Definition write_u16 (value : Z) : list byte := to_be_bytes 2 value.
Definition write_u32 (value : Z) : list byte := to_be_bytes 4 value.

Definition encode_algorithm (algorithm : AlgorithmId) : Z :=
  match algorithm with
  | AlgorithmId.Sha3_256 => 1
  | AlgorithmId.X25519 => 2
  | AlgorithmId.MlKem768 => 3
  | AlgorithmId.Ed25519 => 4
  | AlgorithmId.MlDsa65 => 5
  | AlgorithmId.PluggableProofSystem => 6
  | AlgorithmId.Sha256 => 7
  end.

Definition decode_algorithm (code : Z) : Result CodecError AlgorithmId :=
  match code with
  | 1 => Ok AlgorithmId.Sha3_256
  | 2 => Ok AlgorithmId.X25519
  | 3 => Ok AlgorithmId.MlKem768
  | 4 => Ok AlgorithmId.Ed25519
  | 5 => Ok AlgorithmId.MlDsa65
  | 6 => Ok AlgorithmId.PluggableProofSystem
  | 7 => Ok AlgorithmId.Sha256
  | value => Err (CodecError.UnknownAlgorithm value)
  end.

(** [output.push(value)]. *)
Definition write_u8 (value : Z) : list byte := to_be_bytes 1 value.

Definition write_suite (suite : CryptoSuite) : list byte :=
  write_u16 (cs_version suite) ++
  write_u8 (encode_algorithm (cs_hash suite)) ++
  write_u8 (encode_algorithm (cs_transport_kem suite)) ++
  write_u8 (encode_algorithm (cs_identity_signature suite)) ++
  write_u8 (encode_algorithm (cs_proof_system suite)).

Definition write_identifiers (values : list Id32) : Result CodecError (list byte) :=
  _ ← ensure_collection_limit (len values);
  length ← ok_or (try_from U32_MAX (len values))
             (CodecError.CollectionTooLarge (len values) MAX_COLLECTION_ITEMS);
  Ok (write_u32 length ++ concat (arr <$> values)).

Definition write_bytes (bytes : list byte) : Result CodecError (list byte) :=
  _ ← ensure_opaque_limit (len bytes);
  length ← ok_or (try_from U32_MAX (len bytes))
             (CodecError.OpaqueDataTooLarge (len bytes) MAX_OPAQUE_BYTES);
  Ok (write_u32 length ++ bytes).

Definition write_private_envelope (bytes : list byte) : Result CodecError (list byte) :=
  _ ← ensure_private_envelope_limit (len bytes);
  length ← ok_or (try_from U16_MAX (len bytes))
             (CodecError.PrivateEnvelopeTooLarge (len bytes) MAX_PRIVATE_ENVELOPE_BYTES);
  Ok (write_u16 length ++ bytes).

Definition write_private_proof (bytes : list byte) : Result CodecError (list byte) :=
  _ ← ensure_private_proof_limit (len bytes);
  length ← ok_or (try_from U32_MAX (len bytes))
             (CodecError.PrivateProofTooLarge (len bytes) MAX_PRIVATE_PROOF_BYTES);
  Ok (write_u32 length ++ bytes).

(** [encode_transaction]. *)
Definition encode_transaction (transaction : Transaction) : Result CodecError (list byte) :=
  _ ← validate_transaction_shape transaction;
  let header := TRANSACTION_MAGIC ++ write_u16 TRANSACTION_FORMAT_VERSION ++
                arr (tx_id transaction) ++ write_suite (tx_suite transaction) in
  match tx_operation transaction with
  | OpTransfer transfer =>
      nullifiers ← write_identifiers (tr_input_nullifiers transfer);
      outputs ← write_identifiers (tr_output_commitments transfer);
      proof ← write_bytes (proof_bytes (tr_proof transfer));
      Ok (header ++ write_u8 OPERATION_TRANSFER ++ arr (tr_asset_id transfer) ++ nullifiers ++
          outputs ++ write_u16 (suite_version (tr_proof transfer)) ++ proof)
  | OpMint mint =>
      outputs ← write_identifiers (mint_output_commitments mint);
      authorization ← write_bytes (mint_authorization mint);
      Ok (header ++ write_u8 OPERATION_MINT ++ arr (mint_asset_id mint) ++
          to_be_bytes 16 (units (mint_amount mint)) ++ outputs ++ authorization)
  end.

(** [encode_transaction_intent]. *)
Definition encode_transaction_intent (transaction : Transaction) : Result CodecError (list byte) :=
  _ ← validate_transaction_shape transaction;
  let header := bytes_of_string "NXTI" ++ write_u16 1 ++ write_suite (tx_suite transaction) in
  match tx_operation transaction with
  | OpTransfer transfer =>
      nullifiers ← write_identifiers (tr_input_nullifiers transfer);
      outputs ← write_identifiers (tr_output_commitments transfer);
      Ok (header ++ write_u8 OPERATION_TRANSFER ++ arr (tr_asset_id transfer) ++ nullifiers ++ outputs)
  | OpMint mint =>
      outputs ← write_identifiers (mint_output_commitments mint);
      Ok (header ++ write_u8 OPERATION_MINT ++ arr (mint_asset_id mint) ++
          to_be_bytes 16 (units (mint_amount mint)) ++ outputs)
  end.

Definition INTENT_DOMAIN : list byte := bytes_of_string "NOXIS/TX-INTENT-ID/V1" ++ [x00].

Definition intent_preimage (intent : list byte) (length : Z) : list byte :=
  INTENT_DOMAIN ++ to_be_bytes 4 length ++ intent.

(** [transaction_intent_id]. *)
Definition transaction_intent_id `{Sha2} (transaction : Transaction)
    : Result CodecError TransactionIntentId :=
  intent ← encode_transaction_intent transaction;
  length ← ok_or (try_from U32_MAX (len intent)) CodecError.LengthOverflow;
  Ok (sha256 (intent_preimage intent length)).

(** ** Readers *)

Definition read_bytes : M Reader CodecError (list byte) :=
  length ← read_u32;
  if MAX_OPAQUE_BYTES <? length
  then lift (Err (CodecError.OpaqueDataTooLarge length MAX_OPAQUE_BYTES))
  else read_exact length.

Definition read_private_envelope : M Reader CodecError (list byte) :=
  length ← read_u16;
  _ ← lift (ensure_private_envelope_limit length);
  read_exact length.

Definition read_private_proof : M Reader CodecError (list byte) :=
  length ← read_u32;
  _ ← lift (ensure_private_proof_limit length);
  read_exact length.

Definition read_collection_length : M Reader CodecError Z :=
  length ← read_u32;
  if MAX_COLLECTION_ITEMS <? length
  then lift (Err (CodecError.CollectionTooLarge length MAX_COLLECTION_ITEMS))
  else
    byte_count ← lift (ok_or (try_from USIZE_MAX (length * 32)) CodecError.LengthOverflow);
    self ← get;
    if remaining self <? byte_count
    then lift (Err (CodecError.UnexpectedEnd (offset self)))
    else mret length.

Definition read_identifiers : M Reader CodecError (list Id32) :=
  length ← read_collection_length;
  read_n (Z.to_nat length) (read_array 32).

Definition read_suite : M Reader CodecError CryptoSuite :=
  version ← read_u16;
  hash ← read_u8; hash ← lift (decode_algorithm hash);
  transport_kem ← read_u8; transport_kem ← lift (decode_algorithm transport_kem);
  identity_signature ← read_u8; identity_signature ← lift (decode_algorithm identity_signature);
  proof_system ← read_u8; proof_system ← lift (decode_algorithm proof_system);
  mret (mk_CryptoSuite version hash transport_kem identity_signature proof_system).

Definition read_transfer : M Reader CodecError Transfer :=
  asset_id ← read_array 32;
  input_nullifiers ← read_identifiers;
  output_commitments ← read_identifiers;
  suite_version ← read_u16;
  bytes ← read_bytes;
  mret (mk_Transfer asset_id input_nullifiers output_commitments (mk_Proof suite_version bytes)).

Definition read_mint : M Reader CodecError Mint :=
  asset_id ← read_array 32;
  amount ← read_u128;
  amount ← lift (ok_or (amount_new amount) CodecError.ZeroMintAmount);
  output_commitments ← read_identifiers;
  authorization ← read_bytes;
  mret (mk_Mint asset_id amount output_commitments authorization).

Definition read_operation : M Reader CodecError Operation :=
  tag ← read_u8;
  if tag =? OPERATION_TRANSFER then transfer ← read_transfer; mret (OpTransfer transfer)
  else if tag =? OPERATION_MINT then mint ← read_mint; mret (OpMint mint)
  else lift (Err (CodecError.UnknownOperation tag)).

(** [decode_transaction]. *)
Definition decode_transaction (bytes : list byte) : Result CodecError Transaction :=
  run
    (_ ← read_magic TRANSACTION_MAGIC CodecError.InvalidMagic;
     _ ← read_version TRANSACTION_FORMAT_VERSION CodecError.UnsupportedFormatVersion;
     id ← read_array 32;
     suite ← read_suite;
     operation ← read_operation;
     _ ← finish;
     let transaction := mk_Transaction id suite operation in
     lift (_ ← validate_transaction_shape transaction; Ok transaction))
    bytes.

(** ** Private-transfer packets *)

Record PrivateTransferPacketV2 : Type := mk_PrivateTransferPacketV2 {
  packet_intent : PrivateTransferIntentV2;
  packet_envelope0 : list byte;
  packet_envelope1 : list byte;
  packet_proof : list byte
}.

(** [PrivateTransferPacketV2::new]. *)
Definition packet_new (intent : PrivateTransferIntentV2) (envelope0 envelope1 proof : list byte)
    : Result CodecError PrivateTransferPacketV2 :=
  _ ← ensure_private_envelope_limit (len envelope0);
  _ ← ensure_private_envelope_limit (len envelope1);
  _ ← ensure_private_proof_limit (len proof);
  Ok (mk_PrivateTransferPacketV2 intent envelope0 envelope1 proof).

Definition encode_private_transfer (packet : PrivateTransferPacketV2)
    : Result CodecError (list byte) :=
  packet ← packet_new (packet_intent packet) (packet_envelope0 packet) (packet_envelope1 packet)
             (packet_proof packet);
  envelope0 ← write_private_envelope (packet_envelope0 packet);
  envelope1 ← write_private_envelope (packet_envelope1 packet);
  proof ← write_private_proof (packet_proof packet);
  Ok (PRIVATE_TRANSFER_MAGIC ++ write_u16 PRIVATE_TRANSFER_FORMAT_VERSION ++
      intent_encode (packet_intent packet) ++ envelope0 ++ envelope1 ++ proof).

Definition decode_private_transfer (bytes : list byte) : Result CodecError PrivateTransferPacketV2 :=
  run
    (_ ← read_magic PRIVATE_TRANSFER_MAGIC CodecError.InvalidPrivateTransferMagic;
     _ ← read_version PRIVATE_TRANSFER_FORMAT_VERSION
           CodecError.UnsupportedPrivateTransferFormatVersion;
     intent_bytes ← read_exact INTENT_ENCODED_LENGTH;
     intent ← lift (map_err CodecError.InvalidPrivateTransferIntent (intent_decode intent_bytes));
     envelope0 ← read_private_envelope;
     envelope1 ← read_private_envelope;
     proof ← read_private_proof;
     _ ← finish;
     lift (packet_new intent envelope0 envelope1 proof))
    bytes.

(** ** Grammars of the fields *)

Lemma ensure_non_empty_Ok n f : ensure_non_empty n f = Ok tt <-> n <> 0.
Proof. unfold ensure_non_empty. destruct (Z.eqb_spec n 0); naive_solver. Qed.

Lemma ensure_collection_limit_Ok n : ensure_collection_limit n = Ok tt <-> n <= MAX_COLLECTION_ITEMS.
Proof. unfold ensure_collection_limit. destruct (Z.ltb_spec MAX_COLLECTION_ITEMS n); split; (done || lia). Qed.

Lemma ensure_opaque_limit_Ok n : ensure_opaque_limit n = Ok tt <-> n <= MAX_OPAQUE_BYTES.
Proof. unfold ensure_opaque_limit. destruct (Z.ltb_spec MAX_OPAQUE_BYTES n); split; (done || lia). Qed.

Lemma ensure_private_envelope_limit_Ok n :
  ensure_private_envelope_limit n = Ok tt <-> n <> 0 /\ n <= MAX_PRIVATE_ENVELOPE_BYTES.
Proof.
  unfold ensure_private_envelope_limit. destruct (Z.eqb_spec n 0); [naive_solver|].
  destruct (Z.ltb_spec MAX_PRIVATE_ENVELOPE_BYTES n); split; (done || lia).
Qed.

Lemma ensure_private_proof_limit_Ok n :
  ensure_private_proof_limit n = Ok tt <-> n <> 0 /\ n <= MAX_PRIVATE_PROOF_BYTES.
Proof.
  unfold ensure_private_proof_limit. destruct (Z.eqb_spec n 0); [naive_solver|].
  destruct (Z.ltb_spec MAX_PRIVATE_PROOF_BYTES n); split; (done || lia).
Qed.

#[global] Instance encode_algorithm_inj : Inj (=) (=) encode_algorithm.
Proof. by intros [] []. Qed.

Lemma encode_algorithm_range a : 0 <= encode_algorithm a < 256.
Proof. destruct a; cbn; lia. Qed.

Lemma decode_algorithm_Ok code a : decode_algorithm code = Ok a <-> code = encode_algorithm a.
Proof.
  split; [|by intros ->; destruct a].
  unfold decode_algorithm. intros H. repeat case_match; inv_ok; done.
Qed.

Definition suite_range (s : CryptoSuite) : Prop := in_range U16_MAX (cs_version s).

Lemma parse_spec_read_suite :
  parse_spec read_suite (fun s bs => suite_range s /\ bs = write_suite s).
Proof.
  eapply parse_spec_proper; [|unfold read_suite; grammar_of].
  intros s bs. cbn. unfold be_grammar, suite_range, in_range. split.
  - intros H. grammar_inv. rewrite decode_algorithm_Ok in *. subst. cbn. rewrite app_nil_r.
    split; [lia|done].
  - intros [Hv ->]. destruct s as [v h k i p]. unfold write_suite, write_u8, write_u16. cbn in *.
    pose proof encode_algorithm_range as Hr. rewrite <-(app_nil_r (to_be_bytes 1 (encode_algorithm p))).
    grammar_split. do 4 (grammar_split; grammar_lift ltac:(by apply decode_algorithm_Ok)). done.
Qed.
#[export] Hint Extern 0 (parse_spec read_suite _) => eapply parse_spec_read_suite : grammar.

Lemma parse_spec_read_bytes :
  parse_spec read_bytes (sized_grammar 4 (fun n => n <= MAX_OPAQUE_BYTES)).
Proof.
  eapply parse_spec_proper.
  { intros x bs. apply sized_grammar_iff. unfold MAX_OPAQUE_BYTES. cbn. lia. }
  apply parse_spec_bind; [apply parse_spec_read_u32|]. intros n.
  destruct (Z.ltb_spec MAX_OPAQUE_BYTES n).
  - eapply parse_spec_proper; [|apply parse_spec_lift]. intros x bs. cbn. split; [by intros [? _]|lia].
  - eapply parse_spec_proper; [|apply parse_spec_read_exact]. intros x bs. cbn. naive_solver.
Qed.

Definition envelope_ok (n : Z) : Prop := n <> 0 /\ n <= MAX_PRIVATE_ENVELOPE_BYTES.
Definition proof_ok (n : Z) : Prop := n <> 0 /\ n <= MAX_PRIVATE_PROOF_BYTES.

Lemma parse_spec_read_private_envelope :
  parse_spec read_private_envelope (sized_grammar 2 envelope_ok).
Proof.
  apply parse_spec_guarded_exact; [|intros n|apply parse_spec_read_u16].
  - unfold envelope_ok, MAX_PRIVATE_ENVELOPE_BYTES. cbn. lia.
  - unfold envelope_ok. rewrite <-ensure_private_envelope_limit_Ok.
    split; [by intros [[] ?]|by eauto].
Qed.

Lemma parse_spec_read_private_proof :
  parse_spec read_private_proof (sized_grammar 4 proof_ok).
Proof.
  apply parse_spec_guarded_exact; [|intros n|apply parse_spec_read_u32].
  - unfold proof_ok, MAX_PRIVATE_PROOF_BYTES. cbn. lia.
  - unfold proof_ok. rewrite <-ensure_private_proof_limit_Ok.
    split; [by intros [[] ?]|by eauto].
Qed.

(** A bounded collection of identifiers. *)
Definition identifiers_grammar (xs : list Id32) (bs : list byte) : Prop :=
  len xs <= MAX_COLLECTION_ITEMS /\ bs = counted arr xs.

Lemma length_concat_arr (xs : list Id32) : len (concat (arr <$> xs)) = 32 * len xs.
Proof.
  induction xs as [|x xs IH]; [done|]. cbn [fmap list_fmap concat length].
  rewrite length_app, length_arr. lia.
Qed.

Lemma parse_spec_identifier_list n :
  parse_spec (E := CodecError) (read_n n (read_array 32))
    (fun xs bs => length xs = n /\ bs = concat (arr <$> xs)).
Proof.
  eapply parse_spec_proper; [|eapply parse_spec_read_n, parse_spec_read_array].
  intros xs bs. cbn. f_equiv.
  transitivity (list_grammar (fun (x : Id32) bs => True /\ bs = arr x) xs bs).
  - revert bs. induction xs as [|x xs IH]; intros bs; cbn; [done|].
    split; intros (b1 & b2 & H1 & H2 & ->); exists b1, b2; (split; [tauto|]);
      (split; [by apply IH|done]).
  - rewrite list_grammar_enc. split; [by intros [_ ?]|]. intros ->. split; [by apply Forall_forall|done].
Qed.

(** The look-ahead of [read_collection_length] never rejects a string of the
    grammar. *)
Lemma parse_spec_read_identifiers : parse_spec read_identifiers identifiers_grammar.
Proof.
  split.
  - intros r xs bs tl Hr [Hl ->] Hrest. unfold counted in Hrest. rewrite <-app_assoc in Hrest.
    unfold read_identifiers, read_collection_length, MAX_COLLECTION_ITEMS in *.
    assert (be_grammar 4 (len xs) (to_be_bytes 4 (len xs))) as Hbe by (split; [cbn; lia|done]).
    rewrite !M_bind_eq, (parse_complete parse_spec_read_u32 r _ _ _ Hr Hbe Hrest).
    pose proof (advance_ok _ _ _ Hr Hrest) as Hr1. pose proof (rest_advance _ _ _ Hr Hrest) as Hrest1.
    rewrite (proj2 (Z.ltb_ge _ _)) by lia.
    msimpl. rewrite (proj2 (try_from_Some _ _ (len xs * 32))) by (unfold in_range; lia). msimpl.
    pose proof (rest_length _ Hr1) as Hlen. rewrite Hrest1, length_app in Hlen.
    pose proof (length_concat_arr xs).
    rewrite (proj2 (Z.ltb_ge _ _)) by (unfold remaining; lia). cbn [mret M_ret]. rewrite Nat2Z.id.
    unfold counted. rewrite length_app, Nat2Z.inj_add, <-advance_advance.
    by eapply (parse_complete (parse_spec_identifier_list (length xs))).
  - intros r xs r' Hr Hrun. unfold read_identifiers in Hrun.
    apply M_bind_Ok in Hrun as (n & r1 & Hn & Hxs). unfold read_collection_length in Hn.
    apply M_bind_Ok in Hn as (n' & r2 & Hn & Hrest).
    destruct (parse_sound parse_spec_read_u32 _ _ _ Hr Hn) as (b1 & [Hn' ->] & Hr1 & ->).
    destruct (Z.ltb_spec MAX_COLLECTION_ITEMS n'); [done|].
    apply M_bind_Ok in Hrest as (bc & r3 & Hbc & Hrest). injection Hbc as Hbc <-.
    apply M_bind_Ok in Hrest as (self & r4 & Hself & Hrest). injection Hself as <- <-.
    destruct (_ <? _); [done|]. injection Hrest as <- <-.
    pose proof (advance_ok _ _ _ Hr Hr1) as Hok.
    destruct (parse_sound (parse_spec_identifier_list _) _ _ _ Hok Hxs) as (b2 & [Hl ->] & Hr2 & ->).
    exists (counted arr xs). unfold identifiers_grammar, counted.
    assert (n' = len xs) as -> by lia. split; [done|].
    by rewrite Hr1, Hr2, <-app_assoc, length_app, Nat2Z.inj_add, advance_advance.
Qed.

#[export] Hint Extern 0 (parse_spec read_bytes _) => eapply parse_spec_read_bytes : grammar.
#[export] Hint Extern 0 (parse_spec read_private_envelope _) =>
  eapply parse_spec_read_private_envelope : grammar.
#[export] Hint Extern 0 (parse_spec read_private_proof _) =>
  eapply parse_spec_read_private_proof : grammar.
#[export] Hint Extern 0 (parse_spec read_identifiers _) => eapply parse_spec_read_identifiers : grammar.

(** ** Transactions *)

(** The ranges of the [u16] and [Amount] fields of a transaction value. *)
Definition tx_range (tx : Transaction) : Prop :=
  suite_range (tx_suite tx) /\
  match tx_operation tx with
  | OpTransfer t => in_range U16_MAX (suite_version (tr_proof t))
  | OpMint m => amount_wf (mint_amount m)
  end.

Definition opaque (bytes : list byte) : list byte := write_u32 (len bytes) ++ bytes.

Definition transfer_bytes (t : Transfer) : list byte :=
  arr (tr_asset_id t) ++ counted arr (tr_input_nullifiers t) ++
  counted arr (tr_output_commitments t) ++ write_u16 (suite_version (tr_proof t)) ++
  opaque (proof_bytes (tr_proof t)).

Definition mint_bytes (m : Mint) : list byte :=
  arr (mint_asset_id m) ++ to_be_bytes 16 (units (mint_amount m)) ++
  counted arr (mint_output_commitments m) ++ opaque (mint_authorization m).

Definition operation_bytes (o : Operation) : list byte :=
  match o with
  | OpTransfer t => write_u8 OPERATION_TRANSFER ++ transfer_bytes t
  | OpMint m => write_u8 OPERATION_MINT ++ mint_bytes m
  end.

(** The bytes of a transaction, without the error cases of the encoder. *)
Definition transaction_bytes (tx : Transaction) : list byte :=
  TRANSACTION_MAGIC ++ write_u16 TRANSACTION_FORMAT_VERSION ++ arr (tx_id tx) ++
  write_suite (tx_suite tx) ++ operation_bytes (tx_operation tx).

Definition transfer_shape (t : Transfer) : Prop :=
  0 < len (tr_input_nullifiers t) <= MAX_COLLECTION_ITEMS /\
  0 < len (tr_output_commitments t) <= MAX_COLLECTION_ITEMS /\
  len (proof_bytes (tr_proof t)) <= MAX_OPAQUE_BYTES.

Definition mint_shape (m : Mint) : Prop :=
  0 < len (mint_output_commitments m) <= MAX_COLLECTION_ITEMS /\
  len (mint_authorization m) <= MAX_OPAQUE_BYTES.

(** What [validate_transaction_shape] accepts. *)
Definition shape (tx : Transaction) : Prop :=
  suite_validate (tx_suite tx) = Ok tt /\
  match tx_operation tx with
  | OpTransfer t => transfer_shape t /\ cs_version (tx_suite tx) = suite_version (tr_proof t)
  | OpMint m => mint_shape m
  end.

Lemma validate_transaction_shape_Ok tx : validate_transaction_shape tx = Ok tt <-> shape tx.
Proof.
  unfold validate_transaction_shape, shape, transfer_shape, mint_shape. split.
  - intros H. destruct (tx_operation tx) as [t|m]; inv_ok; zbool;
      destruct_units;
      rewrite ?ensure_non_empty_Ok, ?ensure_collection_limit_Ok, ?ensure_opaque_limit_Ok in *;
      split; try done; repeat split; lia.
  - intros [-> H]. destruct (tx_operation tx) as [t|m].
    + destruct H as [(H1 & H2 & H3) H4]. cbn [map_err mbind result_bind].
      rewrite !(proj2 (ensure_non_empty_Ok _ _)), !(proj2 (ensure_collection_limit_Ok _)),
        (proj2 (ensure_opaque_limit_Ok _)) by lia.
      cbn [mbind result_bind]. by rewrite (proj2 (Z.eqb_eq _ _) H4).
    + destruct H as [H1 H2]. cbn [map_err mbind result_bind].
      rewrite (proj2 (ensure_non_empty_Ok _ _)), (proj2 (ensure_collection_limit_Ok _)),
        (proj2 (ensure_opaque_limit_Ok _)) by lia. done.
Qed.

Lemma write_identifiers_Ok xs :
  len xs <= MAX_COLLECTION_ITEMS -> write_identifiers xs = Ok (counted arr xs).
Proof.
  intros Hl. unfold write_identifiers. rewrite (proj2 (ensure_collection_limit_Ok _)) by done.
  unfold MAX_COLLECTION_ITEMS in Hl. cbn [mbind result_bind].
  by rewrite (proj2 (try_from_Some _ _ (len xs))) by (unfold in_range; lia).
Qed.

Lemma write_bytes_Ok bs : len bs <= MAX_OPAQUE_BYTES -> write_bytes bs = Ok (opaque bs).
Proof.
  intros Hl. unfold write_bytes. rewrite (proj2 (ensure_opaque_limit_Ok _)) by done.
  unfold MAX_OPAQUE_BYTES in Hl. cbn [mbind result_bind].
  by rewrite (proj2 (try_from_Some _ _ (len bs))) by (unfold in_range; lia).
Qed.

Lemma encode_transaction_Ok tx bs :
  encode_transaction tx = Ok bs <-> shape tx /\ bs = transaction_bytes tx.
Proof.
  unfold encode_transaction. destruct (validate_transaction_shape tx) as [[]|e] eqn:Hv; cycle 1.
  { split; [done|]. intros [Hs%validate_transaction_shape_Ok _]. congruence. }
  apply validate_transaction_shape_Ok in Hv as Hs. cbn [mbind result_bind].
  unfold transaction_bytes, operation_bytes. pose proof Hs as [_ Hop].
  destruct (tx_operation tx) as [t|m].
  - destruct Hop as [(H1 & H2 & H3) _].
    rewrite !write_identifiers_Ok, write_bytes_Ok by lia. cbn [mbind result_bind].
    rewrite <-!app_assoc. split; [by intros [= <-]|by intros [_ ->]].
  - destruct Hop as (H1 & H2). rewrite write_identifiers_Ok, write_bytes_Ok by lia.
    cbn [mbind result_bind]. rewrite <-!app_assoc. split; [by intros [= <-]|by intros [_ ->]].
Qed.

(** An encoded transaction always fits a record: two full collections, a full
    opaque payload and the fixed fields stay below 32 MiB. *)
Lemma transaction_bytes_bound tx : shape tx -> 0 < len (transaction_bytes tx) < 32 * 1024 * 1024.
Proof.
  intros [_ Hop]. unfold transaction_bytes, operation_bytes, transfer_bytes, mint_bytes, opaque.
  unfold counted, write_suite, write_u8, write_u16, write_u32.
  unfold transfer_shape, mint_shape, MAX_COLLECTION_ITEMS, MAX_OPAQUE_BYTES in Hop.
  destruct (tx_operation tx) as [t|m];
    rewrite !length_app, !length_to_be_bytes, !length_arr; cbn [length TRANSACTION_MAGIC];
    rewrite !Nat2Z.inj_add, !length_concat_arr; cbn; lia.
Qed.

(** The bounds the field readers enforce. *)
Definition transfer_limits (t : Transfer) : Prop :=
  len (tr_input_nullifiers t) <= MAX_COLLECTION_ITEMS /\
  len (tr_output_commitments t) <= MAX_COLLECTION_ITEMS /\
  in_range U16_MAX (suite_version (tr_proof t)) /\
  len (proof_bytes (tr_proof t)) <= MAX_OPAQUE_BYTES.

Definition mint_limits (m : Mint) : Prop :=
  amount_wf (mint_amount m) /\ len (mint_output_commitments m) <= MAX_COLLECTION_ITEMS /\
  len (mint_authorization m) <= MAX_OPAQUE_BYTES.

Definition operation_limits (o : Operation) : Prop :=
  match o with OpTransfer t => transfer_limits t | OpMint m => mint_limits m end.

Lemma parse_spec_read_transfer :
  parse_spec read_transfer (fun t bs => transfer_limits t /\ bs = transfer_bytes t).
Proof.
  unfold transfer_limits.
  eapply parse_spec_proper; [|unfold read_transfer; grammar_of].
  intros t bs. cbn. unfold identifiers_grammar, sized_grammar, be_grammar, in_range. split.
  - intros H. grammar_inv. subst. cbn. unfold transfer_bytes. cbn. rewrite app_nil_r.
    split; [|done]. split_and!; (done || lia).
  - intros [(H1 & H2 & H3 & H4) ->]. destruct t as [a n o [v p]]. cbn in *.
    unfold transfer_bytes. cbn. rewrite <-(app_nil_r (opaque p)).
    do 5 grammar_split. done.
Qed.

Lemma parse_spec_read_mint :
  parse_spec read_mint (fun m bs => mint_limits m /\ bs = mint_bytes m).
Proof.
  unfold mint_limits.
  eapply parse_spec_proper; [|unfold read_mint; grammar_of].
  intros m bs. cbn. unfold identifiers_grammar, sized_grammar, be_grammar. split.
  - intros H. grammar_inv. rewrite ok_or_Ok in *.
    match goal with H : amount_new _ = Some _ |- _ =>
      apply amount_new_Some in H as [Hw Hu]; [|unfold in_range; lia] end.
    subst. cbn. unfold mint_bytes. cbn. rewrite app_nil_r. done.
  - intros [(H1 & H2 & H3) ->]. destruct m as [a [u] o p]. cbn in *. unfold amount_wf in H1. cbn in H1.
    unfold mint_bytes. cbn. rewrite <-(app_nil_r (opaque p)).
    do 2 grammar_split.
    grammar_lift ltac:(apply ok_or_Ok, (amount_new_Some u (mk_Amount u));
                       [unfold in_range; lia|done]).
    do 2 grammar_split. done.
Qed.
#[export] Hint Extern 0 (parse_spec read_transfer _) => eapply parse_spec_read_transfer : grammar.
#[export] Hint Extern 0 (parse_spec read_mint _) => eapply parse_spec_read_mint : grammar.

(** The operation after its tag. *)
Definition tagged_grammar (tag : Z) (o : Operation) (bs : list byte) : Prop :=
  match o with
  | OpTransfer t => tag = OPERATION_TRANSFER /\ transfer_limits t /\ bs = transfer_bytes t
  | OpMint m => tag = OPERATION_MINT /\ mint_limits m /\ bs = mint_bytes m
  end.

Lemma parse_spec_read_operation :
  parse_spec read_operation (fun o bs => operation_limits o /\ bs = operation_bytes o).
Proof.
  eapply parse_spec_proper; cycle 1.
  { apply parse_spec_bind; [apply parse_spec_read_u8|]. intros tag.
    instantiate (1 := tagged_grammar). cbn.
    destruct (Z.eqb_spec tag OPERATION_TRANSFER) as [->|Ht].
    { eapply parse_spec_proper; [|apply parse_spec_map, parse_spec_read_transfer].
      intros [t|m] bs; cbn; [naive_solver|]. split; [by intros (? & ? & ?)|by intros [? _]]. }
    destruct (Z.eqb_spec tag OPERATION_MINT) as [->|Hm].
    { eapply parse_spec_proper; [|apply parse_spec_map, parse_spec_read_mint].
      intros [t|m] bs; cbn; [|naive_solver]. split; [by intros (? & ? & ?)|by intros [? _]]. }
    eapply parse_spec_proper; [|apply parse_spec_lift].
    intros [t|m] bs; cbn; (split; [by intros [? _]|by intros [? _]]). }
  intros o bs. cbn. unfold be_grammar, tagged_grammar. split.
  - intros (tag & b1 & b2 & [_ ->] & H & ->). destruct o as [t|m]; destruct H as (-> & H & ->); done.
  - intros [H ->]. destruct o as [t|m]; cbn [operation_bytes]; eexists _, _, _;
      (split; [|split; [split; [reflexivity|split; [exact H|reflexivity]]|reflexivity]]);
      (split; [by_eval|reflexivity]).
Qed.
#[export] Hint Extern 0 (parse_spec read_operation _) => eapply parse_spec_read_operation : grammar.

Lemma decode_transaction_Ok bs tx :
  len bs <= ISIZE_MAX ->
  decode_transaction bs = Ok tx <-> tx_range tx /\ shape tx /\ bs = transaction_bytes tx.
Proof.
  intros Hl. unfold decode_transaction.
  erewrite run_iff; [|grammar_of|done]. cbn. split.
  - intros H. grammar_inv. inv_ok. destruct_units.
    rewrite validate_transaction_shape_Ok in *.
    unfold tx_range, transaction_bytes. cbn.
    match goal with H : operation_limits ?o |- _ => destruct o end;
      unfold operation_limits, transfer_limits, mint_limits in *;
      destruct_and?; rewrite ?app_nil_r; done.
  - intros (Hr & Hs & ->). destruct tx as [i s o]. unfold transaction_bytes, write_u16. cbn.
    destruct Hr as [Hsr Hr]. pose proof Hs as [_ Ho]. cbn in *.
    rewrite <-(app_nil_r (operation_bytes o)).
    refine (ex_intro _ tt _). do 2 eexists. split; [reflexivity|]. split; [|reflexivity].
    refine (ex_intro _ tt _). do 2 eexists. split; [reflexivity|]. split; [|reflexivity].
    do 2 grammar_split.
    exists o, (operation_bytes o), []. split; [split; [|done]|].
    { unfold operation_limits, transfer_limits, mint_limits, transfer_shape, mint_shape in *.
      destruct o; destruct_and!; split_and!; (done || lia). }
    split; [|done]. split; [|done].
    by rewrite (proj2 (validate_transaction_shape_Ok _) Hs).
Qed.

(** ** Intents *)

Definition intent_operation_bytes (o : Operation) : list byte :=
  match o with
  | OpTransfer t =>
      write_u8 OPERATION_TRANSFER ++ arr (tr_asset_id t) ++
      counted arr (tr_input_nullifiers t) ++ counted arr (tr_output_commitments t)
  | OpMint m =>
      write_u8 OPERATION_MINT ++ arr (mint_asset_id m) ++
      to_be_bytes 16 (units (mint_amount m)) ++ counted arr (mint_output_commitments m)
  end.

Definition intent_bytes (tx : Transaction) : list byte :=
  bytes_of_string "NXTI" ++ write_u16 1 ++ write_suite (tx_suite tx) ++
  intent_operation_bytes (tx_operation tx).

Lemma encode_transaction_intent_Ok tx bs :
  encode_transaction_intent tx = Ok bs <-> shape tx /\ bs = intent_bytes tx.
Proof.
  unfold encode_transaction_intent. destruct (validate_transaction_shape tx) as [[]|e] eqn:Hv; cycle 1.
  { split; [done|]. intros [Hs%validate_transaction_shape_Ok _]. congruence. }
  apply validate_transaction_shape_Ok in Hv as Hs. cbn [mbind result_bind].
  unfold intent_bytes, intent_operation_bytes. pose proof Hs as [_ Hop].
  destruct (tx_operation tx) as [t|m].
  - destruct Hop as [(H1 & H2 & _) _]. rewrite !write_identifiers_Ok by lia. cbn [mbind result_bind].
    rewrite <-!app_assoc. split; [by intros [= <-]|by intros [_ ->]].
  - destruct Hop as (H1 & _). rewrite write_identifiers_Ok by lia. cbn [mbind result_bind].
    rewrite <-!app_assoc. split; [by intros [= <-]|by intros [_ ->]].
Qed.

Lemma intent_bytes_bound tx : shape tx -> 0 <= len (intent_bytes tx) <= U32_MAX.
Proof.
  intros [_ Hop]. unfold intent_bytes, intent_operation_bytes, counted.
  unfold write_suite, write_u8, write_u16.
  unfold transfer_shape, mint_shape, MAX_COLLECTION_ITEMS in Hop.
  destruct (tx_operation tx) as [t|m];
    rewrite !length_app, !length_to_be_bytes, ?length_arr; cbn [length];
    rewrite !Nat2Z.inj_add, !length_concat_arr; cbn; lia.
Qed.

Lemma transaction_intent_id_Ok `{Sha2} tx i :
  transaction_intent_id tx = Ok i <->
  shape tx /\ i = sha256 (intent_preimage (intent_bytes tx) (len (intent_bytes tx))).
Proof.
  unfold transaction_intent_id. split.
  - intros H'. inv_ok. apply encode_transaction_intent_Ok in Hx as [Hs ->].
    by apply try_from_Some in Hx0 as [-> _].
  - intros [Hs ->]. rewrite (proj2 (encode_transaction_intent_Ok tx _) (conj Hs eq_refl)).
    pose proof (intent_bytes_bound tx Hs) as Hb. revert Hb. generalize (intent_bytes tx).
    intros intent Hb. cbn [mbind result_bind]. by rewrite ok_or_try_from.
Qed.

(** The semantic content of a transaction: everything except its [id], the
    proof and the authorization payload. *)
Definition same_intent (tx1 tx2 : Transaction) : Prop :=
  tx_suite tx1 = tx_suite tx2 /\
  match tx_operation tx1, tx_operation tx2 with
  | OpTransfer t1, OpTransfer t2 =>
      tr_asset_id t1 = tr_asset_id t2 /\ tr_input_nullifiers t1 = tr_input_nullifiers t2 /\
      tr_output_commitments t1 = tr_output_commitments t2
  | OpMint m1, OpMint m2 =>
      mint_asset_id m1 = mint_asset_id m2 /\ mint_amount m1 = mint_amount m2 /\
      mint_output_commitments m1 = mint_output_commitments m2
  | _, _ => False
  end.

#[global] Instance prefix_free_suite : PrefixFree suite_range write_suite.
Proof.
  intros [v1 h1 k1 s1 p1] [v2 h2 k2 s2 p2] r1 r2 H1 H2 He.
  unfold suite_range, in_range in *. cbn in H1, H2. pose proof encode_algorithm_range as Hr.
  unfold write_suite, write_u16, write_u8 in He. cbn [cs_version cs_hash cs_transport_kem
    cs_identity_signature cs_proof_system] in He. rewrite <-!app_assoc in He.
  apply (prefix_free v1 v2) in He as [-> He]; [|lia..].
  apply (prefix_free (encode_algorithm h1) (encode_algorithm h2)) in He as [Hh He]; [|apply Hr..].
  apply (prefix_free (encode_algorithm k1) (encode_algorithm k2)) in He as [Hk He]; [|apply Hr..].
  apply (prefix_free (encode_algorithm s1) (encode_algorithm s2)) in He as [Hs He]; [|apply Hr..].
  apply (prefix_free (encode_algorithm p1) (encode_algorithm p2)) in He as [Hp He]; [|apply Hr..].
  by simplify_eq.
Qed.

(** Identifier lists that pass the shape check. *)
Lemma counted_ids_inj (xs ys : list Id32) r1 r2 :
  len xs <= MAX_COLLECTION_ITEMS -> len ys <= MAX_COLLECTION_ITEMS ->
  counted arr xs ++ r1 = counted arr ys ++ r2 -> xs = ys /\ r1 = r2.
Proof.
  unfold MAX_COLLECTION_ITEMS. intros Hx Hy. apply prefix_free; split; (lia || by apply Forall_forall).
Qed.

Lemma counted_ids_inj_nil (xs ys : list Id32) :
  len xs <= MAX_COLLECTION_ITEMS -> len ys <= MAX_COLLECTION_ITEMS ->
  counted arr xs = counted arr ys -> xs = ys.
Proof.
  intros Hx Hy He. apply (counted_ids_inj xs ys [] []); [done..|]. by rewrite He.
Qed.

Lemma intent_bytes_inj tx1 tx2 :
  tx_range tx1 -> tx_range tx2 -> shape tx1 -> shape tx2 ->
  intent_bytes tx1 = intent_bytes tx2 <-> same_intent tx1 tx2.
Proof.
  intros [Hr1 Ho1] [Hr2 Ho2] [_ Hs1] [_ Hs2]. unfold intent_bytes, same_intent. split.
  - intros He%app_inv_head%app_inv_head.
    apply (prefix_free (tx_suite tx1) (tx_suite tx2)) in He as [-> He]; [|done..]. split; [done|].
    unfold intent_operation_bytes, transfer_shape, mint_shape, amount_wf, write_u8 in *.
    destruct (tx_operation tx1) as [t1|m1], (tx_operation tx2) as [t2|m2];
      apply (prefix_free (A := Z)) in He as [Ht He]; try (by_eval; done); try done.
    + apply (prefix_free (tr_asset_id t1) (tr_asset_id t2)) in He as [-> He]; [|done..].
      apply counted_ids_inj in He as [-> He]; [|lia..].
      by apply counted_ids_inj_nil in He as ->; [|lia..].
    + apply (prefix_free (mint_asset_id m1) (mint_asset_id m2)) in He as [-> He]; [|done..].
      apply (prefix_free (units (mint_amount m1)) (units (mint_amount m2))) in He as [Hu He]; [|lia..].
      apply counted_ids_inj_nil in He as ->; [|lia..].
      destruct (mint_amount m1), (mint_amount m2). cbn in Hu. by subst.
  - intros [-> He]. do 3 f_equal. unfold intent_operation_bytes.
    destruct (tx_operation tx1), (tx_operation tx2); try done; destruct He as (-> & -> & ->); done.
Qed.

Lemma packet_new_Ok i e0 e1 p packet :
  packet_new i e0 e1 p = Ok packet <->
  packet = mk_PrivateTransferPacketV2 i e0 e1 p /\
  envelope_ok (len e0) /\ envelope_ok (len e1) /\ proof_ok (len p).
Proof.
  unfold packet_new, envelope_ok, proof_ok.
  rewrite <-!ensure_private_envelope_limit_Ok, <-ensure_private_proof_limit_Ok. split.
  - intros H. inv_ok. by destruct_units.
  - by intros (-> & -> & -> & ->).
Qed.

Definition packet_wf (p : PrivateTransferPacketV2) : Prop :=
  intent_wf (packet_intent p) /\ envelope_ok (len (packet_envelope0 p)) /\
  envelope_ok (len (packet_envelope1 p)) /\ proof_ok (len (packet_proof p)).

Definition packet_bytes (p : PrivateTransferPacketV2) : list byte :=
  PRIVATE_TRANSFER_MAGIC ++ write_u16 PRIVATE_TRANSFER_FORMAT_VERSION ++
  intent_encode (packet_intent p) ++
  (write_u16 (len (packet_envelope0 p)) ++ packet_envelope0 p) ++
  (write_u16 (len (packet_envelope1 p)) ++ packet_envelope1 p) ++
  (write_u32 (len (packet_proof p)) ++ packet_proof p).

Lemma write_private_envelope_Ok bs :
  envelope_ok (len bs) -> write_private_envelope bs = Ok (write_u16 (len bs) ++ bs).
Proof.
  intros Hl. unfold write_private_envelope. rewrite (proj2 (ensure_private_envelope_limit_Ok _) Hl).
  cbn [mbind result_bind]. destruct Hl. unfold MAX_PRIVATE_ENVELOPE_BYTES in *.
  by rewrite ok_or_try_from by (unfold in_range; lia).
Qed.

Lemma write_private_proof_Ok bs :
  proof_ok (len bs) -> write_private_proof bs = Ok (write_u32 (len bs) ++ bs).
Proof.
  intros Hl. unfold write_private_proof. rewrite (proj2 (ensure_private_proof_limit_Ok _) Hl).
  cbn [mbind result_bind]. destruct Hl. unfold MAX_PRIVATE_PROOF_BYTES in *.
  by rewrite ok_or_try_from by (unfold in_range; lia).
Qed.

Lemma encode_private_transfer_Ok p bs :
  encode_private_transfer p = Ok bs <->
  (envelope_ok (len (packet_envelope0 p)) /\ envelope_ok (len (packet_envelope1 p)) /\
   proof_ok (len (packet_proof p))) /\ bs = packet_bytes p.
Proof.
  destruct p as [i e0 e1 pr]. unfold encode_private_transfer, packet_bytes.
  cbn [packet_intent packet_envelope0 packet_envelope1 packet_proof]. split.
  - intros H. inv_ok. apply packet_new_Ok in Hx as (-> & H0 & H1 & Hp). cbn in *.
    rewrite write_private_envelope_Ok in * by done. rewrite write_private_proof_Ok in * by done.
    by inv_ok.
  - intros ((H0 & H1 & Hp) & ->).
    rewrite (proj2 (packet_new_Ok i e0 e1 pr _) (conj eq_refl (conj H0 (conj H1 Hp)))).
    cbn [mbind result_bind packet_intent packet_envelope0 packet_envelope1 packet_proof].
    by rewrite !write_private_envelope_Ok, write_private_proof_Ok.
Qed.

Lemma parse_spec_packet_intent :
  parse_spec (intent_bytes ← read_exact INTENT_ENCODED_LENGTH;
              lift (map_err CodecError.InvalidPrivateTransferIntent (intent_decode intent_bytes)))
    (fun i bs => intent_wf i /\ bs = intent_encode i).
Proof.
  eapply parse_spec_proper; [|grammar_of]. intros i bs. cbn. split.
  - intros (x & b1 & b2 & [-> Hl] & [Hi ->] & ->). apply map_err_Ok, intent_decode_Ok in Hi.
    by rewrite app_nil_r.
  - intros [Hw ->]. exists (intent_encode i), (intent_encode i), [].
    split; [split; [done|apply length_intent_encode]|]. split; [|by rewrite app_nil_r].
    split; [|done]. by apply map_err_Ok, intent_decode_Ok.
Qed.

Lemma decode_private_transfer_Ok bs p :
  len bs <= ISIZE_MAX ->
  decode_private_transfer bs = Ok p <-> packet_wf p /\ bs = packet_bytes p.
Proof.
  intros Hl. unfold decode_private_transfer.
  erewrite run_iff; [|grammar_of|done]. cbn. unfold sized_grammar, packet_wf. split.
  - intros H. grammar_inv. rewrite map_err_Ok, intent_decode_Ok in *. rewrite packet_new_Ok in *.
    grammar_inv. subst. cbn. unfold packet_bytes. cbn. by rewrite app_nil_r.
  - intros ((Hi & H0 & H1 & Hp) & ->). destruct p as [i e0 e1 pr]. cbn in *.
    unfold packet_bytes. cbn [packet_intent packet_envelope0 packet_envelope1 packet_proof].
    rewrite <-(app_nil_r (write_u32 (len pr) ++ pr)).
    refine (ex_intro _ tt _). do 2 eexists. split; [reflexivity|]. split; [|reflexivity].
    refine (ex_intro _ tt _). do 2 eexists. split; [reflexivity|]. split; [|reflexivity].
    refine (ex_intro _ (intent_encode i) (ex_intro _ _ (ex_intro _ _ (conj _ (conj _ eq_refl)))));
      [split; [reflexivity|apply length_intent_encode]|].
    grammar_lift ltac:(by apply map_err_Ok, intent_decode_Ok).
    do 3 grammar_split. split; [|done]. by apply packet_new_Ok.
Qed.

(** ** Properties *)

(** C35: the transaction codec is exact.  A byte string decodes to a transaction
    if and only if the encoder produces that byte string for it: decoding
    inverts encoding, every accepted message is the canonical one (trailing
    bytes, unknown tags, oversized or empty collections, zero mint amounts and
    mismatched suite versions are rejected), and re-encoding a decoded
    transaction gives back the same bytes. *)
Theorem transaction_codec_exact bs tx :
  len bs <= ISIZE_MAX ->
  decode_transaction bs = Ok tx <-> tx_range tx /\ encode_transaction tx = Ok bs.
Proof. intros Hl. by rewrite decode_transaction_Ok, encode_transaction_Ok by done. Qed.

Definition sample_tx : Transaction :=
  mk_Transaction (id_of x07) RESEARCH_V1
    (OpTransfer (mk_Transfer (id_of x0a) [id_of x61] [id_of x51; id_of x52]
                   (mk_Proof 1 [x01; x02; x03]))).

Lemma transaction_codec_exact_witness :
  exists bs, encode_transaction sample_tx = Ok bs /\ decode_transaction bs = Ok sample_tx.
Proof.
  exists (transaction_bytes sample_tx). split; [by_eval|].
  apply (transaction_codec_exact (transaction_bytes sample_tx) sample_tx); [by_eval|].
  split; by_eval.
Defined.

(** the intent identity is defined exactly for the transactions the encoder
    accepts, and (barring a collision of the two preimages) two transactions
    share it exactly when they agree on the suite, the asset, the nullifiers or
    the minted amount, and the outputs: the transaction id, the proof and the
    authorization do not enter, and nothing else is left out. *)
Theorem intent_id_semantics `{Sha2} tx1 tx2 i1 i2 :
  tx_range tx1 -> tx_range tx2 ->
  transaction_intent_id tx1 = Ok i1 -> transaction_intent_id tx2 = Ok i2 ->
  collision_free [intent_preimage (intent_bytes tx1) (len (intent_bytes tx1));
                  intent_preimage (intent_bytes tx2) (len (intent_bytes tx2))] ->
  i1 = i2 <-> same_intent tx1 tx2.
Proof.
  intros Hr1 Hr2 [Hs1 ->]%transaction_intent_id_Ok [Hs2 ->]%transaction_intent_id_Ok Hcf.
  rewrite <-intent_bytes_inj by done. split; [|by intros ->].
  intros He. apply Hcf in He; [|set_solver..]. unfold intent_preimage in He.
  apply app_inv_head, app_inj_1 in He as [_ ?]; [done|]. by rewrite !length_to_be_bytes.
Qed.

Lemma intent_id_semantics_witness :
  let hash := toy_sha2 in
  let tx1 := sample_tx in
  let tx2 := mk_Transaction (id_of x08) RESEARCH_V1
    (OpTransfer (mk_Transfer (id_of x0a) [id_of x61] [id_of x51; id_of x52] (mk_Proof 1 []))) in
  transaction_intent_id tx1 = transaction_intent_id tx2 /\ same_intent tx1 tx2.
Proof.
  intros hash tx1 tx2. split; [by_eval|].
  pose (pre tx := intent_preimage (intent_bytes tx) (len (intent_bytes tx))).
  apply (intent_id_semantics tx1 tx2 (sha256 (pre tx1)) (sha256 (pre tx2))).
  - by_eval.
  - by_eval.
  - by_eval.
  - by_eval.
  - apply collision_freeb_spec. by_eval.
  - by_eval.
Defined.

(** the private-transfer packet codec is exact: a byte string decodes to a
    packet if and only if the packet is well formed and the encoder produces
    that byte string for it. *)
Theorem private_transfer_codec_exact bs p :
  len bs <= ISIZE_MAX ->
  decode_private_transfer bs = Ok p <->
  intent_wf (packet_intent p) /\ encode_private_transfer p = Ok bs.
Proof.
  intros Hl. rewrite decode_private_transfer_Ok, encode_private_transfer_Ok by done.
  unfold packet_wf. naive_solver.
Qed.

Definition sample_vector (b : byte) : Vector := fill 64 b.

Definition sample_packet : PrivateTransferPacketV2 :=
  mk_PrivateTransferPacketV2
    (mk_PrivateTransferIntentV2 (id_of x01) (id_of x02) (id_of x03) (id_of x04)
       (mk_TreeParametersV2 (id_of x05)) (sample_vector x06) (id_of x07)
       (sample_vector x08) (sample_vector x09)
       (mk_PrivateTransferOutputV2 (sample_vector x0a) (sample_vector x0c))
       (mk_PrivateTransferOutputV2 (sample_vector x0b) (sample_vector x0d)))
    [x01] [x02; x03] [x04].

Lemma sample_packet_wf : intent_wf (packet_intent sample_packet).
Proof. split; apply (bool_decide_eq_true_1 _); by_eval. Qed.

Lemma private_transfer_codec_exact_witness :
  decode_private_transfer (packet_bytes sample_packet) = Ok sample_packet.
Proof.
  apply (private_transfer_codec_exact (packet_bytes sample_packet) sample_packet); [by_eval|].
  split; [apply sample_packet_wf|by_eval].
Defined.
