(* ===== verification/RecordChain.v ===== *)
(** * Transaction records and their chain ([noxis-record-chain])

    A record carries one canonical transaction with the state identities before
    and after it and a hash over all of it; [RecordChain] checks the sequence
    number and the state link of each record in turn. *)

From Stdlib Require Import Strings.Byte Strings.String.
From S2P Require Import Prelude Arrays Reader Sha256 Types Crypto Ledger Codec.

Definition RECORD_MAGIC : list byte := bytes_of_string "NXRC".
Definition RECORD_FORMAT_VERSION : Z := 1.
Definition MAX_RECORD_TRANSACTION_BYTES : Z := 32 * 1024 * 1024.
Definition RECORD_HASH_DOMAIN : list byte := bytes_of_string "NOXIS/RECORD-CHAIN/V1/RECORD".

Abbreviation RecordHash := (array 32).

Record TransactionRecord : Type := mk_TransactionRecord {
  rec_sequence : Z;
  rec_previous_state_id : StateId;
  rec_transaction_bytes : list byte;
  rec_transaction_intent_id : TransactionIntentId;
  rec_resulting_state_id : StateId;
  rec_record_hash : RecordHash
}.

#[global] Instance TransactionRecord_eq_dec : EqDecision TransactionRecord.
Proof. solve_decision. Defined.

Module RecordError.
Inductive RecordError : Type :=
| InvalidMagic
| UnsupportedFormatVersion (version : Z)
| UnexpectedEnd (offset : Z)
| TrailingBytes (count : Z)
| LengthOverflow
| TransactionBytesTooLarge (actual maximum : Z)
| Transaction (error : CodecError)
| NonCanonicalTransaction
| TransactionIntentIdMismatch (record transaction : TransactionIntentId)
| RecordHashMismatch
| UnexpectedSequence (expected actual : Z)
| PreviousStateMismatch (expected actual : StateId)
| SequenceOverflow.
End RecordError.
Abbreviation RecordError := RecordError.RecordError.

#[global] Instance record_read_error : ReadError RecordError := {|
  Reader.UnexpectedEnd := RecordError.UnexpectedEnd;
  Reader.LengthOverflow := RecordError.LengthOverflow;
  Reader.TrailingBytes := RecordError.TrailingBytes
|}.

Definition validate_transaction_bytes (bytes : list byte) : Result RecordError unit :=
  if MAX_RECORD_TRANSACTION_BYTES <? len bytes
  then Err (RecordError.TransactionBytesTooLarge (len bytes) MAX_RECORD_TRANSACTION_BYTES)
  else
    transaction ← map_err RecordError.Transaction (decode_transaction bytes);
    canonical ← map_err RecordError.Transaction (encode_transaction transaction);
    if negb (bool_decide (canonical = bytes)) then Err RecordError.NonCanonicalTransaction
    else Ok tt.

(** ** Records *)

Section Records.
Context `{Sha2}.

Definition record_preimage (sequence : Z) (previous_state_id : StateId)
    (transaction_bytes : list byte) (transaction_intent_id : TransactionIntentId)
    (resulting_state_id : StateId) : list byte :=
  RECORD_HASH_DOMAIN ++ to_be_bytes 2 RECORD_FORMAT_VERSION ++ to_be_bytes 8 sequence ++
  arr previous_state_id ++ to_be_bytes 4 (len transaction_bytes) ++ transaction_bytes ++
  arr transaction_intent_id ++ arr resulting_state_id.

Definition hash_record (sequence : Z) (previous_state_id : StateId) (transaction_bytes : list byte)
    (transaction_intent_id : TransactionIntentId) (resulting_state_id : StateId) : RecordHash :=
  sha256 (record_preimage sequence previous_state_id transaction_bytes transaction_intent_id
            resulting_state_id).

(** [TransactionRecord::new]. *)
Definition record_new (sequence : Z) (previous_state_id : StateId) (transaction_bytes : list byte)
    (resulting_state_id : StateId) : Result RecordError TransactionRecord :=
  _ ← validate_transaction_bytes transaction_bytes;
  transaction ← map_err RecordError.Transaction (decode_transaction transaction_bytes);
  intent_id ← map_err RecordError.Transaction (transaction_intent_id transaction);
  Ok (mk_TransactionRecord sequence previous_state_id transaction_bytes intent_id
        resulting_state_id
        (hash_record sequence previous_state_id transaction_bytes intent_id resulting_state_id)).

(** [TransactionRecord::encode]; the length is cast to [u32]. *)
Definition record_encode (self : TransactionRecord) : list byte :=
  RECORD_MAGIC ++ to_be_bytes 2 RECORD_FORMAT_VERSION ++ to_be_bytes 8 (rec_sequence self) ++
  arr (rec_previous_state_id self) ++ to_be_bytes 4 (len (rec_transaction_bytes self)) ++
  rec_transaction_bytes self ++ arr (rec_transaction_intent_id self) ++
  arr (rec_resulting_state_id self) ++ arr (rec_record_hash self).

Definition read_transaction_bytes : M Reader RecordError (list byte) :=
  transaction_length ← read_u32;
  if MAX_RECORD_TRANSACTION_BYTES <? transaction_length
  then lift (Err (RecordError.TransactionBytesTooLarge transaction_length
                    MAX_RECORD_TRANSACTION_BYTES))
  else read_exact transaction_length.

(** The checks of [TransactionRecord::decode] after the fields are read. *)
Definition check_record (r : TransactionRecord) : Result RecordError TransactionRecord :=
  _ ← validate_transaction_bytes (rec_transaction_bytes r);
  decoded_transaction ←
    map_err RecordError.Transaction (decode_transaction (rec_transaction_bytes r));
  calculated_intent_id ←
    map_err RecordError.Transaction (transaction_intent_id decoded_transaction);
  if negb (bool_decide (calculated_intent_id = rec_transaction_intent_id r))
  then Err (RecordError.TransactionIntentIdMismatch (rec_transaction_intent_id r)
              calculated_intent_id)
  else if negb (bool_decide
      (rec_record_hash r =
       hash_record (rec_sequence r) (rec_previous_state_id r) (rec_transaction_bytes r)
         (rec_transaction_intent_id r) (rec_resulting_state_id r)))
  then Err RecordError.RecordHashMismatch
  else Ok r.

(** [TransactionRecord::decode]. *)
Definition record_decode (bytes : list byte) : Result RecordError TransactionRecord :=
  run
    (_ ← read_magic RECORD_MAGIC RecordError.InvalidMagic;
     _ ← read_version RECORD_FORMAT_VERSION RecordError.UnsupportedFormatVersion;
     sequence ← read_u64;
     previous_state_id ← read_array 32;
     transaction_bytes ← read_transaction_bytes;
     stored_transaction_intent_id ← read_array 32;
     resulting_state_id ← read_array 32;
     record_hash ← read_array 32;
     _ ← finish;
     lift (check_record
             (mk_TransactionRecord sequence previous_state_id transaction_bytes
                stored_transaction_intent_id resulting_state_id record_hash)))
    bytes.

End Records.

(** ** The chain *)

Record RecordChain : Type := mk_RecordChain { next_sequence : Z; current_state_id : StateId }.

#[global] Instance RecordChain_eq_dec : EqDecision RecordChain.
Proof. solve_decision. Defined.

(** [RecordChain::new]. *)
Definition chain_new (genesis_state_id : StateId) : RecordChain := mk_RecordChain 1 genesis_state_id.

(** [RecordChain::current_sequence]; [next_sequence] is at least one. *)
Definition current_sequence (self : RecordChain) : Z := next_sequence self - 1.

(** [RecordChain::apply]. *)
Definition chain_apply (record : TransactionRecord) : M RecordChain RecordError unit :=
  self ← get;
  if negb (rec_sequence record =? next_sequence self)
  then lift (Err (RecordError.UnexpectedSequence (next_sequence self) (rec_sequence record)))
  else if negb (bool_decide (rec_previous_state_id record = current_state_id self))
  then lift (Err (RecordError.PreviousStateMismatch (current_state_id self)
                    (rec_previous_state_id record)))
  else
    next ← lift (ok_or (checked_add U64_MAX (next_sequence self) 1) RecordError.SequenceOverflow);
    put (mk_RecordChain next (rec_resulting_state_id record)).

(** Feed records in order, stopping at the first error. *)
Fixpoint chain_replay (chain : RecordChain) (records : list TransactionRecord)
    : Result RecordError RecordChain :=
  match records with
  | [] => Ok chain
  | r :: records =>
      match chain_apply r chain with
      | (Ok _, chain) => chain_replay chain records
      | (Err e, _) => Err e
      end
  end.

(** ** Lemmas on records *)

Section Facts.
Context `{Sha2}.

(** [tx] is the transaction a record's bytes encode. *)
Definition bytes_of_tx (bs : list byte) (tx : Transaction) : Prop :=
  tx_range tx /\ encode_transaction tx = Ok bs.

Lemma bytes_of_tx_bound bs tx : bytes_of_tx bs tx -> 0 < len bs < MAX_RECORD_TRANSACTION_BYTES.
Proof. intros [_ [Hs ->]%encode_transaction_Ok]. by apply transaction_bytes_bound. Qed.

Lemma decode_bytes_of_tx bs tx :
  len bs <= ISIZE_MAX -> decode_transaction bs = Ok tx <-> bytes_of_tx bs tx.
Proof.
  intros Hl. rewrite decode_transaction_Ok by done. unfold bytes_of_tx.
  by rewrite encode_transaction_Ok.
Qed.

Lemma bytes_of_tx_decode bs tx : bytes_of_tx bs tx -> decode_transaction bs = Ok tx.
Proof.
  intros Hb. apply decode_bytes_of_tx; [|done].
  pose proof (bytes_of_tx_bound _ _ Hb). unfold MAX_RECORD_TRANSACTION_BYTES in *. lia.
Qed.

Lemma bytes_of_tx_unique bs tx1 tx2 : bytes_of_tx bs tx1 -> bytes_of_tx bs tx2 -> tx1 = tx2.
Proof. intros H1%bytes_of_tx_decode H2%bytes_of_tx_decode. congruence. Qed.

(** The canonicality check of a record never fails on its own: what decodes
    re-encodes to itself. *)
Lemma validate_transaction_bytes_cases bs :
  match validate_transaction_bytes bs with
  | Ok _ => exists tx, bytes_of_tx bs tx
  | Err e => (forall tx, ~ bytes_of_tx bs tx) /\ e <> RecordError.NonCanonicalTransaction
  end.
Proof.
  unfold validate_transaction_bytes.
  destruct (Z.ltb_spec MAX_RECORD_TRANSACTION_BYTES (len bs)) as [Hl|Hl].
  { split; [|done]. intros tx Hb%bytes_of_tx_bound. lia. }
  unfold MAX_RECORD_TRANSACTION_BYTES in Hl.
  destruct (decode_transaction bs) as [tx|e] eqn:Hd; cbn [map_err mbind result_bind].
  - apply decode_bytes_of_tx in Hd as [Hr He]; [|lia]. rewrite He. cbn [map_err mbind result_bind].
    rewrite bool_decide_eq_true_2 by done. cbn. by exists tx.
  - split; [|done]. intros tx Hb%bytes_of_tx_decode. congruence.
Qed.

Lemma validate_transaction_bytes_Ok bs :
  validate_transaction_bytes bs = Ok tt <-> exists tx, bytes_of_tx bs tx.
Proof.
  pose proof (validate_transaction_bytes_cases bs) as Hc.
  destruct (validate_transaction_bytes bs) as [[]|e]; [done|].
  split; [done|]. intros [tx Hb]. by destruct Hc as [Hn _]; destruct (Hn tx).
Qed.

(** The invariant of a constructed record. *)
Definition record_wf (r : TransactionRecord) : Prop :=
  in_range U64_MAX (rec_sequence r) /\
  exists tx, bytes_of_tx (rec_transaction_bytes r) tx /\
    transaction_intent_id tx = Ok (rec_transaction_intent_id r) /\
    rec_record_hash r =
      hash_record (rec_sequence r) (rec_previous_state_id r) (rec_transaction_bytes r)
        (rec_transaction_intent_id r) (rec_resulting_state_id r).

Lemma check_record_Ok r r' :
  check_record r = Ok r' <-> r' = r /\
  exists tx, bytes_of_tx (rec_transaction_bytes r) tx /\
    transaction_intent_id tx = Ok (rec_transaction_intent_id r) /\
    rec_record_hash r =
      hash_record (rec_sequence r) (rec_previous_state_id r) (rec_transaction_bytes r)
        (rec_transaction_intent_id r) (rec_resulting_state_id r).
Proof.
  unfold check_record. split.
  - intros Hc. inv_ok. zbool. destruct_units.
    apply validate_transaction_bytes_Ok in Hx as [tx Htx].
    rewrite (bytes_of_tx_decode _ _ Htx) in Hx0. inv_ok. split; [done|]. subst. eauto.
  - intros [-> (tx & Hb & Hi & Hh)].
    rewrite (proj2 (validate_transaction_bytes_Ok _)) by by exists tx.
    rewrite (bytes_of_tx_decode _ _ Hb). cbn [map_err mbind result_bind]. rewrite Hi.
    cbn [map_err mbind result_bind]. by rewrite !bool_decide_eq_true_2 by done.
Qed.

Lemma record_new_Ok seq prev bs res r :
  record_new seq prev bs res = Ok r <->
  exists tx i, bytes_of_tx bs tx /\ transaction_intent_id tx = Ok i /\
    r = mk_TransactionRecord seq prev bs i res (hash_record seq prev bs i res).
Proof.
  unfold record_new. split.
  - intros Hn. inv_ok. destruct_units. apply validate_transaction_bytes_Ok in Hx as [tx Hb].
    rewrite (bytes_of_tx_decode _ _ Hb) in Hx0. inv_ok. eauto.
  - intros (tx & i & Hb & Hi & ->).
    rewrite (proj2 (validate_transaction_bytes_Ok _)) by by exists tx.
    rewrite (bytes_of_tx_decode _ _ Hb). cbn [map_err mbind result_bind]. by rewrite Hi.
Qed.

(** Every transaction the codec can encode has a record. *)
Lemma record_new_total seq prev bs res tx :
  bytes_of_tx bs tx ->
  exists i, transaction_intent_id tx = Ok i /\
    record_new seq prev bs res =
      Ok (mk_TransactionRecord seq prev bs i res (hash_record seq prev bs i res)).
Proof.
  intros Hb. pose proof Hb as [Hr [Hs _]%encode_transaction_Ok].
  eexists. split; [by apply transaction_intent_id_Ok|].
  apply record_new_Ok. eexists _, _. split; [done|]. split; [by apply transaction_intent_id_Ok|done].
Qed.

Lemma parse_spec_read_transaction_bytes :
  parse_spec read_transaction_bytes (sized_grammar 4 (fun n => n <= MAX_RECORD_TRANSACTION_BYTES)).
Proof.
  eapply parse_spec_proper.
  { intros x bs. apply sized_grammar_iff. unfold MAX_RECORD_TRANSACTION_BYTES. cbn. lia. }
  apply parse_spec_bind; [apply parse_spec_read_u32|]. intros n.
  destruct (Z.ltb_spec MAX_RECORD_TRANSACTION_BYTES n).
  - eapply parse_spec_proper; [|apply parse_spec_lift]. intros x bs. cbn. split; [by intros [? _]|lia].
  - eapply parse_spec_proper; [|apply parse_spec_read_exact]. intros x bs. cbn. naive_solver.
Qed.

Lemma length_record_encode r :
  len (record_encode r) = 146 + len (rec_transaction_bytes r).
Proof.
  unfold record_encode. rewrite !length_app, !length_to_be_bytes, !length_arr. cbn. lia.
Qed.

End Facts.

#[export] Hint Extern 0 (parse_spec read_transaction_bytes _) =>
  eapply parse_spec_read_transaction_bytes : grammar.

Lemma record_decode_Ok `{Sha2} bs r :
  len bs <= ISIZE_MAX -> record_decode bs = Ok r <-> record_wf r /\ bs = record_encode r.
Proof.
  intros Hl. unfold record_decode. erewrite run_iff; [|grammar_of|done].
  cbn. unfold be_grammar, sized_grammar, record_wf, in_range. split.
  - intros H'. grammar_inv. rewrite check_record_Ok in *. destruct_and?. subst. cbn in *.
    unfold record_encode. cbn. rewrite app_nil_r, <-!app_assoc. split; [|done]. split; [lia|done].
  - intros [[Hs Htx] ->]. pose proof Htx as (tx & Hb & _). apply bytes_of_tx_bound in Hb.
    destruct r as [seq prev bytes i res h]. unfold record_encode. cbn in *.
    rewrite <-(app_nil_r (arr h)), (app_assoc (to_be_bytes 4 (len bytes))).
    refine (ex_intro _ tt _). do 2 eexists. split; [reflexivity|]. split; [|reflexivity].
    refine (ex_intro _ tt _). do 2 eexists. split; [reflexivity|]. split; [|reflexivity].
    do 6 grammar_split. split; [|done]. by apply check_record_Ok.
Qed.

(** ** Lemmas on chains *)

(** The state a list of records ends in. *)
Definition final_state (g : StateId) (rs : list TransactionRecord) : StateId :=
  match last rs with Some r => rec_resulting_state_id r | None => g end.

(** Record [i] carries sequence [first + i] and extends the state its
    predecessor produced. *)
Definition linked (first : Z) (g : StateId) (rs : list TransactionRecord) : Prop :=
  forall i r, rs !! i = Some r ->
    rec_sequence r = first + Z.of_nat i /\
    rec_previous_state_id r = final_state g (take i rs).

Lemma final_state_cons g r rs : final_state g (r :: rs) = final_state (rec_resulting_state_id r) rs.
Proof. unfold final_state. rewrite last_cons. by destruct (last rs). Qed.

Lemma linked_cons first g r rs :
  linked first g (r :: rs) <->
  rec_sequence r = first /\ rec_previous_state_id r = g /\
  linked (first + 1) (rec_resulting_state_id r) rs.
Proof.
  unfold linked. split.
  - intros Hl. destruct (Hl 0%nat r eq_refl) as [Hs Hp]. split; [lia|]. split; [done|].
    intros i r' Hr'. destruct (Hl (S i) r' Hr') as [Hs' Hp']. split; [lia|].
    cbn [take] in Hp'. by rewrite final_state_cons in Hp'.
  - intros (Hs & Hp & Hl) [|i] r' Hr'; cbn in Hr'.
    + injection Hr' as <-. split; [lia|done].
    + destruct (Hl i r' Hr') as [Hs' Hp']. split; [lia|].
      cbn [take]. by rewrite final_state_cons.
Qed.

Lemma chain_apply_cases r c :
  chain_apply r c =
  if decide (rec_sequence r = next_sequence c /\ rec_previous_state_id r = current_state_id c)
  then if decide (next_sequence c < U64_MAX)
       then (Ok tt, mk_RecordChain (next_sequence c + 1) (rec_resulting_state_id r))
       else (Err RecordError.SequenceOverflow, c)
  else if decide (rec_sequence r = next_sequence c)
       then (Err (RecordError.PreviousStateMismatch (current_state_id c) (rec_previous_state_id r)), c)
       else (Err (RecordError.UnexpectedSequence (next_sequence c) (rec_sequence r)), c).
Proof.
  unfold chain_apply. msimpl. destruct (Z.eqb_spec (rec_sequence r) (next_sequence c)) as [Hs|Hs]; cycle 1.
  { rewrite decide_False by tauto. by rewrite decide_False. }
  destruct (bool_decide (rec_previous_state_id r = current_state_id c)) eqn:Hb; zbool; cbn [negb].
  - rewrite decide_True by done. msimpl.
    destruct (checked_add U64_MAX (next_sequence c) 1) as [n|] eqn:Hn.
    + apply checked_add_Some in Hn as [-> Hn]. by rewrite decide_True by lia.
    + apply checked_add_None in Hn. by rewrite decide_False by lia.
  - rewrite decide_False by tauto. by rewrite decide_True.
Qed.

Lemma chain_replay_Ok c rs c' :
  next_sequence c <= U64_MAX ->
  chain_replay c rs = Ok c' <->
  linked (next_sequence c) (current_state_id c) rs /\ next_sequence c + len rs <= U64_MAX /\
  c' = mk_RecordChain (next_sequence c + len rs) (final_state (current_state_id c) rs).
Proof.
  revert c; induction rs as [|r rs IH]; intros c Hc.
  - cbn. rewrite Z.add_0_r. split; [intros [= <-]; by destruct c|by destruct c; intros (_ & _ & ->)].
  - cbn [chain_replay length]. rewrite chain_apply_cases, linked_cons, final_state_cons.
    case_decide as Hl; [|case_decide; (split; [done|tauto])].
    destruct Hl as [Hs Hp]. case_decide as Hn; [|split; [done|lia]].
    rewrite IH; cbn [next_sequence current_state_id]; [|lia].
    replace (next_sequence c + 1 + len rs) with (next_sequence c + Z.of_nat (S (length rs))) by lia.
    naive_solver.
Qed.

(** ** Properties *)

Definition sample_record `{Sha2} (seq : Z) (prev res : byte) : TransactionRecord :=
  let bs := transaction_bytes sample_tx in
  let i := sha256 (intent_preimage (intent_bytes sample_tx) (len (intent_bytes sample_tx))) in
  mk_TransactionRecord seq (id_of prev) bs i (id_of res)
    (hash_record seq (id_of prev) bs i (id_of res)).

(** the record codec is exact.  A byte string decodes to a record if and only
    if the record is well formed (its bytes are the canonical encoding of a
    transaction, its intent identity is that transaction's, and its hash covers
    all fields) and the string is its encoding.  Records built by
    [TransactionRecord::new] are well formed, and [new] fails only for bytes
    that encode no transaction, never with [NonCanonicalTransaction]. *)
Theorem record_codec_exact `{Sha2} bs :
  len bs <= ISIZE_MAX ->
  (forall r, record_decode bs = Ok r <-> record_wf r /\ bs = record_encode r) /\
  (forall seq prev res r, in_range U64_MAX seq -> record_new seq prev bs res = Ok r -> record_wf r) /\
  (forall seq prev res e, record_new seq prev bs res = Err e ->
     (forall tx, ~ bytes_of_tx bs tx) /\ e <> RecordError.NonCanonicalTransaction).
Proof.
  intros Hl. split_and!.
  - intros r. by apply record_decode_Ok.
  - intros seq prev res r Hs (tx & i & Hb & Hi & ->)%record_new_Ok. split; [done|]. by exists tx.
  - intros seq prev res e He. pose proof (validate_transaction_bytes_cases bs) as Hc.
    destruct (validate_transaction_bytes bs) as [u|e'] eqn:Hv.
    + destruct Hc as [tx Hb]. destruct (record_new_total seq prev bs res tx Hb) as (i & _ & Hn).
      congruence.
    + unfold record_new in He. rewrite Hv in He. cbn in He. by injection He as <-.
Qed.

Lemma record_codec_exact_witness :
  let hash := toy_sha2 in
  let r := sample_record 1 x01 x02 in
  record_new 1 (id_of x01) (transaction_bytes sample_tx) (id_of x02) = Ok r /\
  record_decode (record_encode r) = Ok r.
Proof.
  intros hash r.
  assert (record_new 1 (id_of x01) (transaction_bytes sample_tx) (id_of x02) = Ok r) as Hr by by_eval.
  split; [exact Hr|]. apply (record_codec_exact (record_encode r)); [by_eval|].
  split; [|reflexivity].
  refine (proj1 (proj2 (record_codec_exact (transaction_bytes sample_tx) _))
    1 (id_of x01) (id_of x02) r _ Hr); by_eval.
Defined.

(** replay.  Feeding records to a chain that starts at a genesis state
    succeeds exactly when record [i] carries sequence [i + 1] and extends the
    state produced by record [i - 1] (the genesis state for the first), and the
    sequence counter does not leave [u64]; the chain then stands at the last
    produced state. *)
Theorem chain_replay_exact g rs c :
  chain_replay (chain_new g) rs = Ok c <->
  linked 1 g rs /\ 1 + len rs <= U64_MAX /\ c = mk_RecordChain (1 + len rs) (final_state g rs).
Proof. by apply (chain_replay_Ok (chain_new g)). Qed.

(** a rejected record leaves the chain unchanged, and an accepted one advances
    the sequence by exactly one and moves to the record's resulting state. *)
Theorem chain_apply_step r c res c' :
  chain_apply r c = (res, c') ->
  match res with
  | Ok _ => rec_sequence r = next_sequence c /\ rec_previous_state_id r = current_state_id c /\
            next_sequence c' = next_sequence c + 1 /\ next_sequence c' <= U64_MAX /\
            current_state_id c' = rec_resulting_state_id r
  | Err e => c' = c
  end.
Proof.
  rewrite chain_apply_cases. case_decide as Hl; [case_decide|case_decide]; intros [= <- <-]; try done.
  cbn. destruct Hl. split_and!; (done || lia).
Qed.

Lemma chain_apply_step_witness :
  let r := mk_TransactionRecord 1 (id_of x01) [] (id_of x02) (id_of x03) (id_of x04) in
  current_state_id (chain_apply r (chain_new (id_of x01))).2 = id_of x03.
Proof.
  intros r.
  pose proof (chain_apply_step r (chain_new (id_of x01)) (Ok tt)
    (chain_apply r (chain_new (id_of x01))).2) as Hs.
  apply Hs. apply run_Ok. by_eval.
Defined.
