(* ===== verification/Crc32.v ===== *)
(** * The frame checksum ([crc32] of [noxis-storage/src/lib.rs])

    The bitwise CRC-32 with the reflected polynomial, and what it guarantees:
    the state update is injective, so no change confined to one byte of a
    payload keeps the checksum. *)

From Stdlib Require Import Strings.Byte Strings.String.
From S2P Require Import Prelude.

Definition CRC32_POLYNOMIAL : Z := 0xedb88320.

(** One round of the inner loop. *)
Definition crc32_round (value : Z) : Z :=
  if Z.land value 1 =? 1 then Z.lxor (Z.shiftr value 1) CRC32_POLYNOMIAL else Z.shiftr value 1.

(** The body of the outer loop: mix one byte in and run eight rounds. *)
Definition crc32_byte (value : Z) (b : byte) : Z :=
  Nat.iter 8 crc32_round (Z.lxor value (Z_of_byte b)).

(** [!value] on [u32] is the exclusive or with all ones. *)
Definition crc32 (bytes : list byte) : Z :=
  Z.lxor (foldl crc32_byte 0xffffffff bytes) 0xffffffff.

(** ** 32-bit words *)

Definition word32 (z : Z) : Prop := 0 <= z < 2 ^ 32.

Lemma word32_bits z : 0 <= z -> word32 z <-> forall i, 32 <= i -> Z.testbit z i = false.
Proof.
  intros Hz. unfold word32. split.
  - intros [_ Hlt] i Hi. apply Z.bits_above_log2; [done|].
    destruct (decide (z = 0)) as [->|]; [cbn; lia|].
    apply Z.log2_lt_pow2 in Hlt; lia.
  - intros Hb. split; [done|]. destruct (decide (z = 0)) as [->|]; [lia|].
    apply Z.log2_lt_pow2; [lia|]. apply Z.nle_gt. intros Hle.
    specialize (Hb (Z.log2 z) Hle). rewrite Z.bit_log2 in Hb by lia. done.
Qed.

Lemma word32_lxor a b : word32 a -> word32 b -> word32 (Z.lxor a b).
Proof.
  intros Ha Hb. assert (0 <= Z.lxor a b) by (apply Z.lxor_nonneg; unfold word32 in *; lia).
  apply word32_bits; [done|]. intros i Hi. rewrite Z.lxor_spec.
  rewrite (proj1 (word32_bits a ltac:(unfold word32 in *; lia)) Ha i Hi).
  by rewrite (proj1 (word32_bits b ltac:(unfold word32 in *; lia)) Hb i Hi).
Qed.

Lemma word32_byte b : word32 (Z_of_byte b).
Proof. pose proof (Z_of_byte_range b). unfold word32. lia. Qed.

Lemma shiftr_1 z : Z.shiftr z 1 = z / 2.
Proof. by rewrite Z.shiftr_div_pow2. Qed.

Lemma land_1_mod z : Z.land z 1 = z mod 2.
Proof. change 1 with (Z.ones 1). by rewrite Z.land_ones by lia. Qed.

Lemma lxor_cancel_r a b c : Z.lxor a c = Z.lxor b c -> a = b.
Proof.
  intros H. rewrite <-(Z.lxor_0_r a), <-(Z.lxor_0_r b), <-(Z.lxor_nilpotent c).
  by rewrite <-!Z.lxor_assoc, H.
Qed.

(** ** The rounds are injective *)

Lemma crc32_round_word z : word32 z -> word32 (crc32_round z).
Proof.
  intros Hz. unfold crc32_round. assert (word32 (Z.shiftr z 1)).
  { rewrite shiftr_1. unfold word32 in *. split; [apply Z.div_pos; lia|].
    apply Z.div_lt_upper_bound; lia. }
  destruct (_ =? 1); [|done]. apply word32_lxor; [done|]. unfold word32, CRC32_POLYNOMIAL. lia.
Qed.

(** The polynomial has its top bit set, so the top bit of the result tells
    which branch was taken. *)
Lemma crc32_round_parity z : word32 z -> Z.testbit (crc32_round z) 31 = (Z.land z 1 =? 1).
Proof.
  intros [H0 H1]. unfold crc32_round.
  assert (Z.testbit (Z.shiftr z 1) 31 = false) as Hs.
  { rewrite Z.shiftr_spec by lia. by apply (proj1 (word32_bits z H0) (conj H0 H1)). }
  destruct (_ =? 1); [|done]. by rewrite Z.lxor_spec, Hs.
Qed.

Lemma crc32_round_inj a b : word32 a -> word32 b -> crc32_round a = crc32_round b -> a = b.
Proof.
  intros Ha Hb He. pose proof (crc32_round_parity a Ha) as Pa.
  pose proof (crc32_round_parity b Hb) as Pb. rewrite He, Pb in Pa.
  unfold crc32_round in He. rewrite Pa in He. rewrite !land_1_mod in *.
  assert (Z.shiftr a 1 = Z.shiftr b 1) as Hs.
  { destruct (_ =? 1); [by apply lxor_cancel_r in He|done]. }
  rewrite !shiftr_1 in Hs. pose proof (Z.div_mod a 2). pose proof (Z.div_mod b 2).
  pose proof (Z.mod_pos_bound a 2). pose proof (Z.mod_pos_bound b 2).
  destruct (Z.eqb_spec (a mod 2) 1), (Z.eqb_spec (b mod 2) 1); try done; lia.
Qed.

Lemma crc32_rounds_word n z : word32 z -> word32 (Nat.iter n crc32_round z).
Proof. intros Hz. induction n; [done|]. by apply crc32_round_word. Qed.

Lemma crc32_rounds_inj n a b :
  word32 a -> word32 b -> Nat.iter n crc32_round a = Nat.iter n crc32_round b -> a = b.
Proof.
  intros Ha Hb. induction n as [|n IH]; [done|]. cbn. intros He. apply IH.
  by apply crc32_round_inj; [apply crc32_rounds_word..|].
Qed.

Lemma crc32_byte_word v b : word32 v -> word32 (crc32_byte v b).
Proof. intros Hv. apply crc32_rounds_word, word32_lxor; [done|apply word32_byte]. Qed.

Lemma crc32_byte_inj v w a b :
  word32 v -> word32 w -> crc32_byte v a = crc32_byte w b ->
  Z.lxor v (Z_of_byte a) = Z.lxor w (Z_of_byte b).
Proof.
  intros Hv Hw. apply crc32_rounds_inj; apply word32_lxor; auto using word32_byte.
Qed.

Lemma crc32_fold_word bs v : word32 v -> word32 (foldl crc32_byte v bs).
Proof.
  revert v. induction bs as [|b bs IH]; intros v Hv; [done|]. by apply IH, crc32_byte_word.
Qed.

Lemma crc32_fold_inj bs v w :
  word32 v -> word32 w -> foldl crc32_byte v bs = foldl crc32_byte w bs -> v = w.
Proof.
  revert v w. induction bs as [|b bs IH]; intros v w Hv Hw; [done|]. cbn. intros He.
  apply IH in He; [|by apply crc32_byte_word..].
  apply crc32_byte_inj in He; [|done..]. by apply lxor_cancel_r in He.
Qed.

Lemma crc32_initial_word : word32 0xffffffff.
Proof. unfold word32. lia. Qed.

Lemma crc32_range bs : 0 <= crc32 bs < 256 ^ Z.of_nat 4.
Proof.
  change (256 ^ Z.of_nat 4) with (2 ^ 32).
  apply word32_lxor, crc32_initial_word. apply crc32_fold_word, crc32_initial_word.
Qed.

(** A change confined to one byte changes the checksum. *)
Lemma crc32_one_byte prefix a b suffix :
  crc32 (prefix ++ a :: suffix) = crc32 (prefix ++ b :: suffix) -> a = b.
Proof.
  unfold crc32. intros He%lxor_cancel_r. rewrite !foldl_app in He. cbn in He.
  pose proof (crc32_fold_word prefix _ crc32_initial_word) as Hp.
  apply crc32_fold_inj in He; [|by apply crc32_byte_word..].
  apply crc32_byte_inj in He; [|done..].
  rewrite !(Z.lxor_comm (foldl _ _ _)) in He. by apply lxor_cancel_r, Z_of_byte_inj in He.
Qed.

(** The standard test vector, as in the repository's own test. *)
Example crc32_test_vector : crc32 (bytes_of_string "123456789") = 0xcbf43926.
Proof. by_eval. Qed.
