(* ===== verification/Consensus.v ===== *)
(** * Consensus data ([noxis-consensus])

    Validator sets with voting power, the consensus configuration, block
    headers, the records commitment, and finality certificates with their
    validation ([config.rs], [block.rs], [finality.rs]); the canonical encodings
    their identities hash ([codec.rs], [hash.rs]).  The signature check of a
    concrete engine is the [FinalityVerifier] trait, a record of functions. *)

From Stdlib Require Import Strings.Byte Strings.String.
From S2P Require Import Prelude Arrays Reader Sha256 Types RecordChain.

Definition MAX_VALIDATORS : Z := 10000.
Definition MAX_VALIDATOR_PUBLIC_KEY_BYTES : Z := 8 * 1024.
Definition MAX_BLOCK_TRANSACTION_BYTES : Z := 64 * 1024 * 1024.
Definition MAX_BLOCK_RECORDS : Z := 1000000.
Definition MAX_SIGNATURE_BYTES : Z := 16 * 1024.

Module ConsensusError.
Inductive ConsensusError : Type :=
| InvalidMagic
| UnsupportedFormatVersion (version : Z)
| UnexpectedEnd (offset : Z)
| TrailingBytes (count : Z)
| LengthOverflow
| InvalidProtocolVersion
| InvalidMaximumBlockRecords
| InvalidMaximumBlockTransactionBytes (actual maximum : Z)
| ByzantineFaultPowerExceedsSafetyLimit (declared maximum : Z)
| EmptyValidatorSet
| TooManyValidators (actual maximum : Z)
| ZeroVotingPower
| InvalidSignatureScheme
| EmptyValidatorKey
| ValidatorKeyTooLarge (actual maximum : Z)
| DuplicateValidator
| NonCanonicalValidatorOrder
| VotingPowerOverflow
| InvalidBlockHeight
| MissingParentBlock
| UnexpectedParentBlock
| InvalidFirstRecordSequence
| RecordCountMismatch (expected actual : Z)
| RecordCountExceedsConfiguredMaximum (actual maximum : Z)
| RecordSequenceOverflow
| TooManyCommittedRecords (actual maximum : Z)
| RecordCommitmentMismatch
| ConsensusConfigMismatch
| ValidatorSetMismatch
| BlockFormatMismatch
| GenesisMismatch
| ValidationContextMismatch
| GenesisStateMismatch
| EmptyCertificate
| TooManyVotes (actual maximum : Z)
| SignatureTooLarge (actual maximum : Z)
| EmptySignature
| DuplicateVote
| NonCanonicalVoteOrder
| CertificateTargetMismatch
| UnknownValidator
| InsufficientVotingPower (signed required : Z)
| InvalidSignature (validator : ValidatorId).
End ConsensusError.
Abbreviation ConsensusError := ConsensusError.ConsensusError.

#[global] Instance consensus_read_error : ReadError ConsensusError := {|
  Reader.UnexpectedEnd := ConsensusError.UnexpectedEnd;
  Reader.LengthOverflow := ConsensusError.LengthOverflow;
  Reader.TrailingBytes := ConsensusError.TrailingBytes
|}.

(** ** Domain-separated hashing ([hash.rs]) *)

Definition CONSENSUS_FORMAT_VERSION : Z := 3.
Definition CONFIG_ID_DOMAIN : list byte := bytes_of_string "NOXIS/CONSENSUS/V1/CONFIG".
Definition VALIDATOR_SET_ID_DOMAIN : list byte := bytes_of_string "NOXIS/CONSENSUS/V1/VALIDATOR-SET".
Definition BLOCK_ID_DOMAIN : list byte := bytes_of_string "NOXIS/CONSENSUS/V1/BLOCK".
Definition RECORD_COMMITMENT_DOMAIN : list byte := bytes_of_string "NOXIS/CONSENSUS/V1/RECORDS".
Definition CERTIFICATE_ID_DOMAIN : list byte :=
  bytes_of_string "NOXIS/CONSENSUS/V1/FINALITY-CERTIFICATE".

Definition domain_preimage (domain bytes : list byte) : list byte :=
  domain ++ to_be_bytes 2 CONSENSUS_FORMAT_VERSION ++ bytes.

Definition domain_hash `{Sha2} (domain bytes : list byte) : array 32 :=
  sha256 (domain_preimage domain bytes).

(** ** Validators ([config.rs]) *)

Record ValidatorVerificationKey : Type := mk_ValidatorVerificationKey {
  vk_signature_scheme : Z;
  vk_bytes : list byte
}.

Record Validator : Type := mk_Validator {
  v_id : ValidatorId;
  v_voting_power : Z;
  v_verification_key : ValidatorVerificationKey
}.

#[global] Instance ValidatorVerificationKey_eq_dec : EqDecision ValidatorVerificationKey.
Proof. solve_decision. Defined.
#[global] Instance Validator_eq_dec : EqDecision Validator.
Proof. solve_decision. Defined.

(** [ValidatorVerificationKey::new]. *)
Definition verification_key_new (signature_scheme : Z) (bytes : list byte)
    : Result ConsensusError ValidatorVerificationKey :=
  if signature_scheme =? 0 then Err ConsensusError.InvalidSignatureScheme
  else if is_empty bytes then Err ConsensusError.EmptyValidatorKey
  else if MAX_VALIDATOR_PUBLIC_KEY_BYTES <? len bytes
  then Err (ConsensusError.ValidatorKeyTooLarge (len bytes) MAX_VALIDATOR_PUBLIC_KEY_BYTES)
  else Ok (mk_ValidatorVerificationKey signature_scheme bytes).

(** [Validator::new]. *)
Definition validator_new (id : ValidatorId) (voting_power : Z) (key : ValidatorVerificationKey)
    : Result ConsensusError Validator :=
  if voting_power =? 0 then Err ConsensusError.ZeroVotingPower
  else Ok (mk_Validator id voting_power key).

Record ValidatorSet : Type := mk_ValidatorSet {
  vs_validators : list Validator;
  vs_total_voting_power : Z;
  vs_id : ValidatorSetId
}.

Definition encode_validator (v : Validator) : list byte :=
  arr (v_id v) ++ to_be_bytes 8 (v_voting_power v) ++
  to_be_bytes 2 (vk_signature_scheme (v_verification_key v)) ++
  to_be_bytes 2 (len (vk_bytes (v_verification_key v))) ++ vk_bytes (v_verification_key v).

Definition encode_validator_set_entries (validators : list Validator) : list byte :=
  to_be_bytes 4 (len validators) ++ concat (encode_validator <$> validators).

(** The loop of [validate_validators]; [previous] is the id at [index - 1]. *)
Fixpoint validate_validators_loop (require_canonical_order : bool) (previous : option ValidatorId)
    (validators : list Validator) : Result ConsensusError unit :=
  match validators with
  | [] => Ok tt
  | v :: validators =>
      if v_voting_power v =? 0 then Err ConsensusError.ZeroVotingPower
      else
        match previous with
        | Some p =>
            if bool_decide (p = v_id v) then Err ConsensusError.DuplicateValidator
            else if require_canonical_order && bool_decide (array_lt (v_id v) p)
            then Err ConsensusError.NonCanonicalValidatorOrder
            else validate_validators_loop require_canonical_order (Some (v_id v)) validators
        | None => validate_validators_loop require_canonical_order (Some (v_id v)) validators
        end
  end.

Definition validate_validators (validators : list Validator) (require_canonical_order : bool)
    : Result ConsensusError unit :=
  if is_empty validators then Err ConsensusError.EmptyValidatorSet
  else if MAX_VALIDATORS <? len validators
  then Err (ConsensusError.TooManyValidators (len validators) MAX_VALIDATORS)
  else validate_validators_loop require_canonical_order None validators.

(** [total.checked_add(power).ok_or(VotingPowerOverflow)]. *)
Definition add_power (total power : Z) : Result ConsensusError Z :=
  ok_or (checked_add U64_MAX total power) ConsensusError.VotingPowerOverflow.

Section Sets.
Context `{Sha2}.

(** [ValidatorSet::from_canonical]. *)
Definition set_from_canonical (validators : list Validator) : Result ConsensusError ValidatorSet :=
  _ ← validate_validators validators true;
  total ← try_fold (fun total v => add_power total (v_voting_power v)) 0 validators;
  Ok (mk_ValidatorSet validators total
        (domain_hash VALIDATOR_SET_ID_DOMAIN (encode_validator_set_entries validators))).

(** [ValidatorSet::new]. *)
Definition set_new (validators : list Validator) : Result ConsensusError ValidatorSet :=
  set_from_canonical (sort_by_key v_id validators).

End Sets.

(** [ValidatorSet::quorum_voting_power], in [u64] arithmetic. *)
Definition quorum_voting_power (self : ValidatorSet) : Z :=
  let thirds := vs_total_voting_power self / 3 in
  let remainder := vs_total_voting_power self mod 3 in
  thirds * 2 + remainder * 2 / 3 + 1.

(** The loop of [slice::binary_search_by]: halve [size] while it exceeds one. *)
Fixpoint binary_search_loop (fuel : nat) (compare : nat -> comparison) (base size : nat) : nat :=
  match fuel with
  | O => base
  | S fuel =>
      if (size <=? 1)%nat then base
      else
        let half := (size / 2)%nat in
        let mid := (base + half)%nat in
        binary_search_loop fuel compare
          (match compare mid with Gt => base | _ => mid end) (size - half)
  end.

(** The key comparison at one index; every probed index is in bounds. *)
Definition compare_at (validators : list Validator) (id : ValidatorId) (i : nat) : comparison :=
  match validators !! i with
  | Some v => bytes_compare (arr (v_id v)) (arr id)
  | None => Gt
  end.

(** [validators.binary_search_by_key(&id, |v| v.id).ok()]. *)
Definition binary_search (validators : list Validator) (id : ValidatorId) : option nat :=
  match validators with
  | [] => None
  | _ =>
      let base :=
        binary_search_loop (length validators) (compare_at validators id) 0 (length validators) in
      match compare_at validators id base with Eq => Some base | _ => None end
  end.

(** [ValidatorSet::voting_power_of]. *)
Definition voting_power_of (self : ValidatorSet) (id : ValidatorId) : option Z :=
  index ← binary_search (vs_validators self) id;
  v_voting_power <$> vs_validators self !! index.

(** ** Configuration *)

Record ConsensusConfig : Type := mk_ConsensusConfig {
  cc_protocol_version : Z;
  cc_maximum_block_records : Z;
  cc_maximum_block_transaction_bytes : Z;
  cc_maximum_byzantine_voting_power : Z;
  cc_validator_set : ValidatorSet;
  cc_id : ConsensusConfigId
}.

Definition encode_config_fields (protocol_version maximum_block_records
    maximum_block_transaction_bytes maximum_byzantine_voting_power : Z)
    (validator_set : ValidatorSet) : list byte :=
  to_be_bytes 2 protocol_version ++ to_be_bytes 4 maximum_block_records ++
  to_be_bytes 4 maximum_block_transaction_bytes ++
  to_be_bytes 8 maximum_byzantine_voting_power ++
  encode_validator_set_entries (vs_validators validator_set).

(** [ConsensusConfig::new]. *)
Definition config_new `{Sha2} (protocol_version maximum_block_records
    maximum_block_transaction_bytes maximum_byzantine_voting_power : Z)
    (validator_set : ValidatorSet) : Result ConsensusError ConsensusConfig :=
  if protocol_version =? 0 then Err ConsensusError.InvalidProtocolVersion
  else if maximum_block_records =? 0 then Err ConsensusError.InvalidMaximumBlockRecords
  else if MAX_BLOCK_RECORDS <? maximum_block_records
  then Err (ConsensusError.RecordCountExceedsConfiguredMaximum maximum_block_records
              MAX_BLOCK_RECORDS)
  else if (maximum_block_transaction_bytes =? 0)
          || (MAX_BLOCK_TRANSACTION_BYTES <? maximum_block_transaction_bytes)
  then Err (ConsensusError.InvalidMaximumBlockTransactionBytes maximum_block_transaction_bytes
              MAX_BLOCK_TRANSACTION_BYTES)
  else
    let maximum_safe_fault_power := (vs_total_voting_power validator_set - 1) / 3 in
    if maximum_safe_fault_power <? maximum_byzantine_voting_power
    then Err (ConsensusError.ByzantineFaultPowerExceedsSafetyLimit
                maximum_byzantine_voting_power maximum_safe_fault_power)
    else
      Ok (mk_ConsensusConfig protocol_version maximum_block_records
            maximum_block_transaction_bytes maximum_byzantine_voting_power validator_set
            (domain_hash CONFIG_ID_DOMAIN
               (encode_config_fields protocol_version maximum_block_records
                  maximum_block_transaction_bytes maximum_byzantine_voting_power
                  validator_set))).

(** ** Block headers ([block.rs]) *)

Abbreviation RecordCommitment := (array 32).

(** [RecordCommitment::from_record_hashes]. *)
Definition from_record_hashes `{Sha2} (record_hashes : list RecordHash)
    : Result ConsensusError RecordCommitment :=
  if MAX_BLOCK_RECORDS <? len record_hashes
  then Err (ConsensusError.TooManyCommittedRecords (len record_hashes) MAX_BLOCK_RECORDS)
  else Ok (domain_hash RECORD_COMMITMENT_DOMAIN
             (to_be_bytes 4 (len record_hashes) ++ concat (arr <$> record_hashes))).

Record BlockHeaderInput : Type := mk_BlockHeaderInput {
  bh_protocol_version : Z;
  bh_genesis_id : GenesisId;
  bh_validation_context_id : ValidationContextId;
  bh_consensus_config_id : ConsensusConfigId;
  bh_validator_set_id : ValidatorSetId;
  bh_height : Z;
  bh_epoch : Z;
  bh_round : Z;
  bh_parent_block_id : option BlockId;
  bh_previous_state_id : StateId;
  bh_resulting_state_id : StateId;
  bh_first_record_sequence : Z;
  bh_record_count : Z;
  bh_records_commitment : RecordCommitment
}.

#[global] Instance BlockHeaderInput_eq_dec : EqDecision BlockHeaderInput.
Proof. solve_decision. Defined.

Record BlockHeader : Type := mk_BlockHeader { bh_input : BlockHeaderInput; bh_id : BlockId }.

#[global] Instance BlockHeader_eq_dec : EqDecision BlockHeader.
Proof. solve_decision. Defined.

Definition validate_header_input (input : BlockHeaderInput) : Result ConsensusError unit :=
  if bh_protocol_version input =? 0 then Err ConsensusError.InvalidProtocolVersion
  else if bh_height input =? 0 then Err ConsensusError.InvalidBlockHeight
  else if (bh_height input =? 1) && bool_decide (is_Some (bh_parent_block_id input))
  then Err ConsensusError.UnexpectedParentBlock
  else if (1 <? bh_height input) && bool_decide (bh_parent_block_id input = None)
  then Err ConsensusError.MissingParentBlock
  else if bh_first_record_sequence input =? 0 then Err ConsensusError.InvalidFirstRecordSequence
  else if MAX_BLOCK_RECORDS <? bh_record_count input
  then Err (ConsensusError.TooManyCommittedRecords (bh_record_count input) MAX_BLOCK_RECORDS)
  else if 0 <? bh_record_count input
  then _ ← ok_or (checked_add U64_MAX (bh_first_record_sequence input) (bh_record_count input - 1))
             ConsensusError.RecordSequenceOverflow;
       Ok tt
  else Ok tt.

(** The parent field: a presence byte and 32 bytes, zero when absent. *)
Definition encode_parent (parent : option BlockId) : list byte :=
  match parent with
  | Some p => [x01] ++ arr p
  | None => [x00] ++ arr (fill 32 x00)
  end.

Definition encode_block_header_fields (input : BlockHeaderInput) : list byte :=
  to_be_bytes 2 (bh_protocol_version input) ++ arr (bh_genesis_id input) ++
  arr (bh_validation_context_id input) ++ arr (bh_consensus_config_id input) ++
  arr (bh_validator_set_id input) ++ to_be_bytes 8 (bh_height input) ++
  to_be_bytes 8 (bh_epoch input) ++ to_be_bytes 4 (bh_round input) ++
  encode_parent (bh_parent_block_id input) ++ arr (bh_previous_state_id input) ++
  arr (bh_resulting_state_id input) ++ to_be_bytes 8 (bh_first_record_sequence input) ++
  to_be_bytes 4 (bh_record_count input) ++ arr (bh_records_commitment input).

(** [BlockHeader::new]. *)
Definition header_new `{Sha2} (input : BlockHeaderInput) : Result ConsensusError BlockHeader :=
  _ ← validate_header_input input;
  Ok (mk_BlockHeader input (domain_hash BLOCK_ID_DOMAIN (encode_block_header_fields input))).

(** [BlockHeader::last_record_sequence]. *)
Definition last_record_sequence (self : BlockHeader) : Result ConsensusError (option Z) :=
  if bh_record_count (bh_input self) =? 0 then Ok None
  else ok_or
    (Some <$> checked_add U64_MAX (bh_first_record_sequence (bh_input self))
                (bh_record_count (bh_input self) - 1))
    ConsensusError.RecordSequenceOverflow.

(** [BlockHeader::validate_record_hashes]. *)
Definition validate_record_hashes `{Sha2} (self : BlockHeader) (record_hashes : list RecordHash)
    : Result ConsensusError unit :=
  if negb (len record_hashes =? bh_record_count (bh_input self))
  then Err (ConsensusError.RecordCountMismatch (bh_record_count (bh_input self))
              (len record_hashes))
  else
    commitment ← from_record_hashes record_hashes;
    if negb (bool_decide (commitment = bh_records_commitment (bh_input self)))
    then Err ConsensusError.RecordCommitmentMismatch
    else Ok tt.

(** [BlockHeader::validate_against_config]. *)
Definition validate_against_config (self : BlockHeader) (config : ConsensusConfig)
    : Result ConsensusError unit :=
  if negb (bh_protocol_version (bh_input self) =? cc_protocol_version config)
  then Err ConsensusError.BlockFormatMismatch
  else if negb (bool_decide (bh_consensus_config_id (bh_input self) = cc_id config))
  then Err ConsensusError.ConsensusConfigMismatch
  else if negb (bool_decide (bh_validator_set_id (bh_input self) = vs_id (cc_validator_set config)))
  then Err ConsensusError.ValidatorSetMismatch
  else if cc_maximum_block_records config <? bh_record_count (bh_input self)
  then Err (ConsensusError.RecordCountExceedsConfiguredMaximum (bh_record_count (bh_input self))
              (cc_maximum_block_records config))
  else Ok tt.

Record ConsensusAnchor : Type := mk_ConsensusAnchor {
  anc_genesis_id : GenesisId;
  anc_validation_context_id : ValidationContextId;
  anc_consensus_config_id : ConsensusConfigId;
  anc_genesis_state_id : StateId;
  anc_engine_network_id : array 32
}.

#[global] Instance ConsensusAnchor_eq_dec : EqDecision ConsensusAnchor.
Proof. solve_decision. Defined.

(** [ConsensusAnchor::validate_header]. *)
Definition validate_header (self : ConsensusAnchor) (header : BlockHeader) (config : ConsensusConfig)
    : Result ConsensusError unit :=
  _ ← validate_against_config header config;
  if negb (bool_decide (bh_genesis_id (bh_input header) = anc_genesis_id self))
  then Err ConsensusError.GenesisMismatch
  else if negb (bool_decide
      (bh_validation_context_id (bh_input header) = anc_validation_context_id self))
  then Err ConsensusError.ValidationContextMismatch
  else if negb (bool_decide (cc_id config = anc_consensus_config_id self))
  then Err ConsensusError.ConsensusConfigMismatch
  else if (bh_height (bh_input header) =? 1)
          && negb (bool_decide (bh_previous_state_id (bh_input header) = anc_genesis_state_id self))
  then Err ConsensusError.GenesisStateMismatch
  else Ok tt.

(** ** Finality ([finality.rs]) *)

Record FinalityTarget : Type := mk_FinalityTarget {
  ft_genesis_id : GenesisId;
  ft_validation_context_id : ValidationContextId;
  ft_consensus_config_id : ConsensusConfigId;
  ft_validator_set_id : ValidatorSetId;
  ft_height : Z;
  ft_epoch : Z;
  ft_round : Z;
  ft_block_id : BlockId
}.

#[global] Instance FinalityTarget_eq_dec : EqDecision FinalityTarget.
Proof. solve_decision. Defined.

(** [FinalityTarget::from_header]. *)
Definition target_from_header (header : BlockHeader) : FinalityTarget :=
  mk_FinalityTarget (bh_genesis_id (bh_input header)) (bh_validation_context_id (bh_input header))
    (bh_consensus_config_id (bh_input header)) (bh_validator_set_id (bh_input header))
    (bh_height (bh_input header)) (bh_epoch (bh_input header)) (bh_round (bh_input header))
    (bh_id header).

(** [FinalityTarget::new]. *)
Definition target_new (target : FinalityTarget) : Result ConsensusError FinalityTarget :=
  if ft_height target =? 0 then Err ConsensusError.InvalidBlockHeight else Ok target.

Definition encode_finality_target_fields (target : FinalityTarget) : list byte :=
  arr (ft_genesis_id target) ++ arr (ft_validation_context_id target) ++
  arr (ft_consensus_config_id target) ++ arr (ft_validator_set_id target) ++
  to_be_bytes 8 (ft_height target) ++ to_be_bytes 8 (ft_epoch target) ++
  to_be_bytes 4 (ft_round target) ++ arr (ft_block_id target).

Definition PRECOMMIT_SIGNING_DOMAIN : list byte := bytes_of_string "NOXIS/CONSENSUS/V1/PRECOMMIT".

(** [FinalityTarget::signing_bytes]. *)
Definition signing_bytes (target : FinalityTarget) : list byte :=
  PRECOMMIT_SIGNING_DOMAIN ++ to_be_bytes 2 CONSENSUS_FORMAT_VERSION ++
  encode_finality_target_fields target.

Record VoteEvidence : Type := mk_VoteEvidence {
  vote_validator_id : ValidatorId;
  vote_signature : list byte
}.

#[global] Instance VoteEvidence_eq_dec : EqDecision VoteEvidence.
Proof. solve_decision. Defined.

(** [VoteEvidence::new]. *)
Definition vote_new (validator_id : ValidatorId) (signature : list byte)
    : Result ConsensusError VoteEvidence :=
  if MAX_SIGNATURE_BYTES <? len signature
  then Err (ConsensusError.SignatureTooLarge (len signature) MAX_SIGNATURE_BYTES)
  else if is_empty signature then Err ConsensusError.EmptySignature
  else Ok (mk_VoteEvidence validator_id signature).

Record FinalityCertificate : Type := mk_FinalityCertificate {
  fc_target : FinalityTarget;
  fc_votes : list VoteEvidence;
  fc_id : FinalityCertificateId
}.

#[global] Instance FinalityCertificate_eq_dec : EqDecision FinalityCertificate.
Proof. solve_decision. Defined.

(** The loop of [validate_votes]; [previous] is the vote at [index - 1]. *)
Fixpoint validate_votes_loop (require_canonical_order : bool) (previous : option ValidatorId)
    (votes : list VoteEvidence) : Result ConsensusError unit :=
  match votes with
  | [] => Ok tt
  | vote :: votes =>
      if MAX_SIGNATURE_BYTES <? len (vote_signature vote)
      then Err (ConsensusError.SignatureTooLarge (len (vote_signature vote)) MAX_SIGNATURE_BYTES)
      else if is_empty (vote_signature vote) then Err ConsensusError.EmptySignature
      else
        match previous with
        | Some p =>
            if bool_decide (p = vote_validator_id vote) then Err ConsensusError.DuplicateVote
            else if require_canonical_order && bool_decide (array_lt (vote_validator_id vote) p)
            then Err ConsensusError.NonCanonicalVoteOrder
            else validate_votes_loop require_canonical_order (Some (vote_validator_id vote)) votes
        | None => validate_votes_loop require_canonical_order (Some (vote_validator_id vote)) votes
        end
  end.

Definition validate_votes (votes : list VoteEvidence) (require_canonical_order : bool)
    : Result ConsensusError unit :=
  if is_empty votes then Err ConsensusError.EmptyCertificate
  else if MAX_VALIDATORS <? len votes
  then Err (ConsensusError.TooManyVotes (len votes) MAX_VALIDATORS)
  else validate_votes_loop require_canonical_order None votes.

Definition encode_vote (vote : VoteEvidence) : list byte :=
  arr (vote_validator_id vote) ++ to_be_bytes 2 (len (vote_signature vote)) ++ vote_signature vote.

Definition encode_finality_certificate_fields (target : FinalityTarget) (votes : list VoteEvidence)
    : list byte :=
  encode_finality_target_fields target ++ to_be_bytes 4 (len votes) ++
  concat (encode_vote <$> votes).

Section Certificates.
Context `{Sha2}.

(** [FinalityCertificate::from_canonical]. *)
Definition certificate_from_canonical (target : FinalityTarget) (votes : list VoteEvidence)
    : Result ConsensusError FinalityCertificate :=
  _ ← validate_votes votes true;
  Ok (mk_FinalityCertificate target votes
        (domain_hash CERTIFICATE_ID_DOMAIN (encode_finality_certificate_fields target votes))).

(** [FinalityCertificate::new]. *)
Definition certificate_new (target : FinalityTarget) (votes : list VoteEvidence)
    : Result ConsensusError FinalityCertificate :=
  certificate_from_canonical target (sort_by_key vote_validator_id votes).

End Certificates.

(** [FinalityCertificate::validate_structure]. *)
Definition validate_structure (self : FinalityCertificate) (header : BlockHeader)
    (anchor : ConsensusAnchor) (config : ConsensusConfig) : Result ConsensusError unit :=
  _ ← validate_header anchor header config;
  if negb (bool_decide (fc_target self = target_from_header header))
  then Err ConsensusError.CertificateTargetMismatch
  else
    let validator_set := cc_validator_set config in
    if negb (bool_decide (ft_validator_set_id (fc_target self) = vs_id validator_set))
    then Err ConsensusError.ValidatorSetMismatch
    else
      signed_voting_power ←
        try_fold (fun total vote =>
          power ← ok_or (voting_power_of validator_set (vote_validator_id vote))
                    ConsensusError.UnknownValidator;
          add_power total power) 0 (fc_votes self);
      let required := quorum_voting_power validator_set in
      if signed_voting_power <? required
      then Err (ConsensusError.InsufficientVotingPower signed_voting_power required)
      else Ok tt.

(** [trait FinalityVerifier]. *)
Record FinalityVerifier : Type := mk_FinalityVerifier {
  fv_Error : Type;
  verify_precommit : ValidatorId -> list byte -> list byte -> Validator -> Result fv_Error unit
}.

Record VerifiedFinality : Type := mk_VerifiedFinality {
  vf_block_id : BlockId;
  vf_height : Z;
  vf_certificate_id : FinalityCertificateId
}.

(** [validators.iter().find(|validator| validator.id() == id)]. *)
Definition find_validator (validators : list Validator) (id : ValidatorId) : option Validator :=
  snd <$> list_find (fun v => v_id v = id) validators.

Fixpoint verify_votes (verifier : FinalityVerifier) (validators : list Validator)
    (bytes : list byte) (votes : list VoteEvidence) : Result ConsensusError unit :=
  match votes with
  | [] => Ok tt
  | vote :: votes =>
      configured_validator ← ok_or (find_validator validators (vote_validator_id vote))
                               ConsensusError.UnknownValidator;
      _ ← map_err (fun _ => ConsensusError.InvalidSignature (vote_validator_id vote))
            (verify_precommit verifier (vote_validator_id vote) bytes (vote_signature vote)
               configured_validator);
      verify_votes verifier validators bytes votes
  end.

(** [FinalityCertificate::verify]. *)
Definition verify_certificate (self : FinalityCertificate) (header : BlockHeader)
    (anchor : ConsensusAnchor) (config : ConsensusConfig) (verifier : FinalityVerifier)
    : Result ConsensusError VerifiedFinality :=
  _ ← validate_structure self header anchor config;
  _ ← verify_votes verifier (vs_validators (cc_validator_set config))
        (signing_bytes (fc_target self)) (fc_votes self);
  Ok (mk_VerifiedFinality (bh_id header) (bh_height (bh_input header)) (fc_id self)).
