(* ===== verification/ConsensusFacts.v ===== *)
(** * Facts about consensus data

    Validator sets are canonical and their lookups exact; the quorum is the
    strict two-thirds threshold; a verified certificate carries what its
    declarative specification asks for, and two conflicting verified
    certificates expose more than the declared Byzantine voting power. *)

From Stdlib Require Import Strings.Byte.
From S2P Require Import Prelude Arrays Reader Sha256 Types RecordChain Consensus.

(** ** Sums of voting power *)

Fixpoint power_sum (validators : list Validator) : Z :=
  match validators with
  | [] => 0
  | v :: validators => v_voting_power v + power_sum validators
  end.

Definition powers_u64 (validators : list Validator) : Prop :=
  Forall (fun v => in_range U64_MAX (v_voting_power v)) validators.

Lemma power_sum_app l1 l2 : power_sum (l1 ++ l2) = power_sum l1 + power_sum l2.
Proof. induction l1; cbn; lia. Qed.

#[global] Instance power_sum_Permutation : Proper ((≡ₚ) ==> (=)) power_sum.
Proof. induction 1; cbn; lia. Qed.

Lemma power_sum_nonneg l : powers_u64 l -> 0 <= power_sum l.
Proof. induction 1 as [|v l [] _ IH]; cbn; lia. Qed.

Lemma add_power_eq total power :
  add_power total power =
  if total + power <=? U64_MAX then Ok (total + power) else Err ConsensusError.VotingPowerOverflow.
Proof. unfold add_power, checked_add. by destruct (_ <=? _). Qed.

Lemma add_powers_Ok (l : list Validator) acc t :
  0 <= acc <= U64_MAX -> powers_u64 l ->
  try_fold (fun total v => add_power total (v_voting_power v)) acc l = Ok t <->
  t = acc + power_sum l /\ t <= U64_MAX.
Proof.
  intros Ha Hl. revert acc Ha. induction Hl as [|v l [Hv _] Hl IH]; intros acc Ha; cbn.
  - split; [intros [= <-]; lia|intros [-> _]; f_equal; lia].
  - pose proof (power_sum_nonneg l Hl).
    rewrite add_power_eq.
    destruct (Z.leb_spec (acc + v_voting_power v) U64_MAX); cbn [mbind result_bind].
    + rewrite IH by lia. split; intros []; split; lia.
    + split; [done|lia].
Qed.

(** ** Canonical validator lists *)

Definition previous_ok {n} (previous : option (array n)) (ids : list (array n)) : Prop :=
  match previous, ids with Some p, i :: _ => array_lt p i | _, _ => True end.

Lemma strict_step {n} (p i : array n) :
  (if bool_decide (p = i) then false
   else if true && bool_decide (array_lt i p) then false else true) = true <-> array_lt p i.
Proof.
  repeat case_bool_decide; subst; cbn; split; try done.
  - intros Hl. by apply (irreflexivity array_lt) in Hl.
  - intros Hl. exfalso. apply (irreflexivity array_lt p). by transitivity i.
  - intros _. apply array_not_lt, array_le_lt_eq in H0 as [|]; naive_solver.
Qed.

Lemma strictly_sorted_cons {n} (a : array n) l :
  strictly_sorted (a :: l) = true <-> previous_ok (Some a) l /\ strictly_sorted l = true.
Proof.
  destruct l as [|b l]; [done|]. cbn -[array_lt]. rewrite andb_true_iff, bool_decide_eq_true. done.
Qed.

Lemma validate_validators_loop_Ok previous l :
  validate_validators_loop true previous l = Ok tt <->
  Forall (fun v => v_voting_power v <> 0) l /\ previous_ok previous (v_id <$> l) /\
  strictly_sorted (v_id <$> l) = true.
Proof.
  revert previous. induction l as [|v l IH]; intros previous.
  { cbn. destruct previous; naive_solver. }
  cbn [validate_validators_loop fmap list_fmap]. rewrite Forall_cons, strictly_sorted_cons.
  destruct (Z.eqb_spec (v_voting_power v) 0); [naive_solver|].
  destruct previous as [p|]; cbn [previous_ok].
  - pose proof (strict_step p (v_id v)) as Hs.
    repeat case_bool_decide; cbn in *; rewrite ?IH; naive_solver.
  - rewrite IH. naive_solver.
Qed.

Lemma validate_votes_loop_Ok previous l :
  validate_votes_loop true previous l = Ok tt <->
  Forall (fun v => 1 <= len (vote_signature v) <= MAX_SIGNATURE_BYTES) l /\
  previous_ok previous (vote_validator_id <$> l) /\
  strictly_sorted (vote_validator_id <$> l) = true.
Proof.
  revert previous. induction l as [|v l IH]; intros previous.
  { cbn. destruct previous; naive_solver. }
  cbn [validate_votes_loop fmap list_fmap]. rewrite Forall_cons, strictly_sorted_cons.
  destruct (Z.ltb_spec MAX_SIGNATURE_BYTES (len (vote_signature v))); [naive_solver lia|].
  destruct (is_empty (vote_signature v)) eqn:He.
  { destruct (vote_signature v); naive_solver lia. }
  assert (1 <= len (vote_signature v)) by (destruct (vote_signature v); cbn in *; naive_solver lia).
  destruct previous as [p|]; cbn [previous_ok].
  - pose proof (strict_step p (vote_validator_id v)) as Hs.
    repeat case_bool_decide; cbn in *; rewrite ?IH; naive_solver.
  - rewrite IH. naive_solver.
Qed.

(** What [ValidatorSet::from_canonical] establishes. *)
Record set_wf `{Sha2} (vs : ValidatorSet) : Prop := mk_set_wf {
  set_nonempty : 1 <= len (vs_validators vs) <= MAX_VALIDATORS;
  set_positive : Forall (fun v => 1 <= v_voting_power v <= U64_MAX) (vs_validators vs);
  set_sorted : strictly_sorted (v_id <$> vs_validators vs) = true;
  set_total : vs_total_voting_power vs = power_sum (vs_validators vs);
  set_bounded : vs_total_voting_power vs <= U64_MAX;
  set_identity : vs_id vs =
    domain_hash VALIDATOR_SET_ID_DOMAIN (encode_validator_set_entries (vs_validators vs))
}.

Lemma set_from_canonical_Ok `{Sha2} l vs :
  powers_u64 l ->
  set_from_canonical l = Ok vs <-> set_wf vs /\ vs_validators vs = l.
Proof.
  intros Hl. unfold set_from_canonical, validate_validators. split.
  - destruct (is_empty l) eqn:He; [done|]. destruct (Z.ltb_spec MAX_VALIDATORS (len l)); [done|].
    intros Hb. inv_ok. destruct_units.
    apply validate_validators_loop_Ok in Hx as (Hp & _ & Hs).
    apply add_powers_Ok in Hx0 as [-> Ht]; [|lia|done].
    split; [|done]. split; cbn; try done.
    + destruct l; cbn in *; [done|lia].
    + apply Forall_forall. intros v Hv. unfold powers_u64, in_range in Hl.
      rewrite Forall_forall in Hp, Hl. specialize (Hp v Hv). specialize (Hl v Hv). lia.
  - intros [[Hn Hp Hs Ht Hb Hi] <-]. destruct vs as [l t i]. cbn in *. subst.
    replace (is_empty l) with false by (destruct l; cbn in *; [lia|done]).
    destruct (Z.ltb_spec MAX_VALIDATORS (len l)); [lia|].
    assert (validate_validators_loop true None l = Ok tt) as ->.
    { apply validate_validators_loop_Ok. split_and!; [|done..].
      eapply Forall_impl; [done|]. cbn. lia. }
    cbn [mbind result_bind].
    assert (try_fold (fun total v => add_power total (v_voting_power v)) 0 l = Ok (power_sum l))
      as -> by (apply add_powers_Ok; [lia|done|lia]).
    done.
Qed.

(** ** Lookups by binary search *)

Lemma strictly_sorted_lookup {n} (l : list (array n)) i j a b :
  strictly_sorted l = true -> (i < j)%nat -> l !! i = Some a -> l !! j = Some b -> array_lt a b.
Proof.
  rewrite strictly_sorted_StronglySorted. intros Hs Hij Ha Hb.
  rewrite <-(take_drop j l) in Hs. eapply StronglySorted_app_1_elem_of; [done| |].
  - apply (list_elem_of_lookup_2 _ i). by rewrite lookup_take_lt.
  - apply (list_elem_of_lookup_2 _ 0). by rewrite lookup_drop, Nat.add_0_r.
Qed.

(** Halving reaches the index at which the comparison changes. *)
Lemma binary_search_loop_finds compare k fuel base size :
  (forall i, (i < base + size)%nat -> compare i = Gt <-> (k < i)%nat) ->
  (size <= fuel)%nat -> (base <= k < base + size)%nat ->
  binary_search_loop fuel compare base size = k.
Proof.
  revert base size. induction fuel as [|fuel IH]; intros base size Hc Hf Hk; cbn [binary_search_loop]; [lia|].
  destruct (Nat.leb_spec size 1); [lia|].
  pose proof (Nat.div_lt size 2 ltac:(lia) ltac:(lia)).
  assert (1 <= size / 2)%nat by (apply Nat.div_le_lower_bound; lia).
  pose proof (Nat.Div0.mul_div_le size 2).
  pose proof (Hc (base + size / 2)%nat ltac:(lia)) as Hm.
  assert (compare (base + size / 2)%nat = Gt /\ (k < base + size / 2)%nat \/
          compare (base + size / 2)%nat <> Gt /\ (base + size / 2 <= k)%nat) as [[-> ?]|[Hg ?]].
  { destruct (Nat.lt_ge_cases k (base + size / 2)); [left|right]; split; try done; [tauto|].
    intros ?%Hm. lia. }
  - apply IH; [intros i Hi; apply Hc|..]; lia.
  - destruct (compare _); [..|done]; (apply IH; [intros i Hi; apply Hc|..]; lia).
Qed.

Lemma bytes_compare_cases {n} (a b : array n) :
  (bytes_compare (arr a) (arr b) = Eq <-> a = b) /\
  (bytes_compare (arr a) (arr b) = Gt <-> array_lt b a).
Proof.
  assert (Hl : length (arr a) = length (arr b)) by by rewrite !length_arr.
  assert (Hb : bytes_compare (arr a) (arr b) = (be a ?= be b)) by by apply bytes_compare_be.
  rewrite Hb, Z.compare_eq_iff, Z.compare_gt_iff, array_lt_be. split; [|done].
  split; [apply inj, _|by intros ->].
Qed.

Lemma find_validator_Some l id v :
  NoDup (v_id <$> l) -> find_validator l id = Some v <-> v ∈ l /\ v_id v = id.
Proof.
  intros Hn. unfold find_validator. rewrite fmap_Some. split.
  - intros ([i w] & (Hi & Hw & _)%list_find_Some & ->). split; [|done].
    by eapply list_elem_of_lookup_2.
  - intros [[i Hi]%list_elem_of_lookup Hv]. exists (i, v). split; [|done].
    apply list_find_Some. split_and!; [done..|]. intros j w Hj Hlt Hw.
    assert (j = i); [|lia]. eapply NoDup_lookup; [done|..]; rewrite list_lookup_fmap.
    + by rewrite Hj, <-Hw.
    + rewrite Hi. cbn. congruence.
Qed.

Lemma find_validator_None l id : find_validator l id = None <-> ~ exists v, v ∈ l /\ v_id v = id.
Proof.
  unfold find_validator. rewrite fmap_None, list_find_None, Forall_forall. naive_solver.
Qed.

Lemma binary_search_hit l i v :
  strictly_sorted (v_id <$> l) = true -> l !! i = Some v -> binary_search l (v_id v) = Some i.
Proof.
  intros Hs Hi. unfold binary_search. destruct l as [|w l]; [done|].
  set (l' := w :: l) in *.
  assert (binary_search_loop (length l') (compare_at l' (v_id v)) 0 (length l') = i) as ->.
  { apply binary_search_loop_finds; [|lia|pose proof (lookup_lt_Some _ _ _ Hi); lia].
    intros j Hj. unfold compare_at. destruct (lookup_lt_is_Some_2 l' j ltac:(lia)) as [u Hu]. rewrite Hu.
    assert (Hlt : forall a b x y, (a < b)%nat -> l' !! a = Some x -> l' !! b = Some y ->
      array_lt (v_id x) (v_id y)).
    { intros a b x y Hab Hx Hy. eapply (strictly_sorted_lookup _ a b); [exact Hs|done|..];
        rewrite list_lookup_fmap; [by rewrite Hx|by rewrite Hy]. }
    rewrite (proj2 (bytes_compare_cases (v_id u) (v_id v))). split; intros H.
    - destruct (lt_eq_lt_dec i j) as [[?|<-]|Hji]; [done|..].
      + simplify_eq. by apply (irreflexivity array_lt) in H.
      + exfalso. apply (irreflexivity array_lt (v_id u)). trans (v_id v); eauto.
    - eauto. }
  unfold compare_at. rewrite Hi. by rewrite (proj2 (proj1 (bytes_compare_cases (v_id v) (v_id v)))).
Qed.

Lemma binary_search_Some l id i :
  binary_search l id = Some i -> exists v, l !! i = Some v /\ v_id v = id.
Proof.
  unfold binary_search. destruct l as [|w l]; [done|]. set (l' := w :: l).
  set (base := binary_search_loop _ _ _ _). unfold compare_at. intros H.
  destruct (l' !! base) as [v|] eqn:Hv; [|done].
  destruct (bytes_compare _ _) eqn:Hc; simplify_eq. exists v. split; [done|].
  by apply bytes_compare_cases.
Qed.

Lemma voting_power_of_find `{Sha2} vs id :
  set_wf vs -> voting_power_of vs id = v_voting_power <$> find_validator (vs_validators vs) id.
Proof.
  intros [_ _ Hs _ _ _]. pose proof (strictly_sorted_NoDup _ Hs) as Hn.
  unfold voting_power_of. destruct (find_validator _ id) as [v|] eqn:Hf.
  - apply find_validator_Some in Hf as [[i Hi]%list_elem_of_lookup <-]; [|done].
    rewrite (binary_search_hit _ i v) by done. cbn. by rewrite Hi.
  - destruct (binary_search _ id) as [i|] eqn:Hb; [|done].
    apply binary_search_Some in Hb as (v & Hv & Hi). exfalso.
    apply find_validator_None in Hf. apply Hf. exists v. split; [|done].
    by eapply list_elem_of_lookup_2.
Qed.

(** ** Signed voting power *)

(** The validators of the set that a list of identifiers names. *)
Definition signers (vs : ValidatorSet) (ids : list ValidatorId) : list Validator :=
  filter (fun v => v_id v ∈ ids) (vs_validators vs).

Definition signed_power (vs : ValidatorSet) (ids : list ValidatorId) : Z :=
  power_sum (signers vs ids).

Definition voters (c : FinalityCertificate) : list ValidatorId := vote_validator_id <$> fc_votes c.

Lemma power_sum_filter_split (P Q : Validator -> Prop) `{!forall v, Decision (P v)}
    `{!forall v, Decision (Q v)} l :
  powers_u64 l ->
  power_sum (filter P l) + power_sum (filter Q l) <=
  power_sum l + power_sum (filter (fun v => P v /\ Q v) l).
Proof.
  induction 1 as [|v l [Hv _] _ IH]; [done|]. rewrite !filter_cons.
  repeat case_decide; cbn; try lia; naive_solver.
Qed.

Lemma powers_of_wf `{Sha2} vs : set_wf vs -> powers_u64 (vs_validators vs).
Proof. intros [_ Hp _ _ _ _]. eapply Forall_impl; [done|]. unfold in_range. lia. Qed.

Lemma power_sum_filter_le (P : Validator -> Prop) `{!forall v, Decision (P v)} l :
  powers_u64 l -> power_sum (filter P l) <= power_sum l.
Proof.
  induction 1 as [|v l [Hv _] _ IH]; [done|]. rewrite !filter_cons. case_decide; cbn; lia.
Qed.

Lemma signed_power_range `{Sha2} vs ids :
  set_wf vs -> 0 <= signed_power vs ids <= vs_total_voting_power vs.
Proof.
  intros Hw. pose proof (powers_of_wf vs Hw) as Hp. rewrite (set_total vs Hw). split.
  - apply power_sum_nonneg. apply Forall_forall. intros v [_ Hv]%list_elem_of_filter. by eapply Forall_forall in Hp.
  - by apply power_sum_filter_le.
Qed.

Lemma found `{Sha2} vs id w :
  set_wf vs -> find_validator (vs_validators vs) id = Some w <->
  w ∈ vs_validators vs /\ v_id w = id.
Proof. intros Hw. apply find_validator_Some, strictly_sorted_NoDup, set_sorted, Hw. Qed.

Lemma found_all `{Sha2} vs ids ws :
  set_wf vs -> Forall2 (fun id w => find_validator (vs_validators vs) id = Some w) ids ws ->
  v_id <$> ws = ids /\ (forall w, w ∈ ws -> w ∈ vs_validators vs).
Proof.
  intros Hw. induction 1 as [|id w ids ws Hi%found _ [<- IH]]; [..|done].
  - split; [done|]. by intros w ?%elem_of_nil.
  - destruct Hi as [Hi <-]. split; [done|]. intros u [->|Hu]%elem_of_cons; auto.
Qed.

Lemma powers_subset (l1 l2 : list Validator) :
  (forall w, w ∈ l1 -> w ∈ l2) -> powers_u64 l2 -> powers_u64 l1.
Proof. unfold powers_u64. rewrite !Forall_forall. auto. Qed.

(** The validators found one vote at a time are the signers, in some order. *)
Lemma found_signers `{Sha2} vs ids ws :
  set_wf vs -> NoDup ids ->
  Forall2 (fun id w => find_validator (vs_validators vs) id = Some w) ids ws ->
  ws ≡ₚ signers vs ids.
Proof.
  intros Hw Hn [<- Hin]%found_all; [|done].
  pose proof (strictly_sorted_NoDup _ (set_sorted vs Hw)) as Hd.
  apply NoDup_Permutation.
  - by apply (NoDup_fmap_1 v_id).
  - apply NoDup_filter. by apply (NoDup_fmap_1 v_id).
  - intros w. unfold signers. rewrite list_elem_of_filter. split.
    + intros Hws. split; [by apply list_elem_of_fmap_2|auto].
    + intros [(u & Hu & Hws)%list_elem_of_fmap Hv].
      assert (Some w = Some u) as [= ->]; [|done].
      trans (find_validator (vs_validators vs) (v_id w)); [symmetry|]; apply found; auto.
Qed.

Definition vote_fold (vs : ValidatorSet) (acc : Z) (votes : list VoteEvidence)
    : Result ConsensusError Z :=
  try_fold (fun total vote =>
    power ← ok_or (voting_power_of vs (vote_validator_id vote)) ConsensusError.UnknownValidator;
    add_power total power) acc votes.

Lemma vote_fold_cons vs acc vote votes :
  vote_fold vs acc (vote :: votes) =
  match voting_power_of vs (vote_validator_id vote) with
  | Some power =>
      if acc + power <=? U64_MAX then vote_fold vs (acc + power) votes
      else Err ConsensusError.VotingPowerOverflow
  | None => Err ConsensusError.UnknownValidator
  end.
Proof.
  unfold vote_fold. cbn [try_fold]. destruct (voting_power_of _ _); [|done].
  cbn [ok_or mbind result_bind]. rewrite add_power_eq. by destruct (_ <=? _).
Qed.

Lemma vote_fold_Ok `{Sha2} vs acc votes t :
  set_wf vs -> 0 <= acc <= U64_MAX ->
  vote_fold vs acc votes = Ok t <->
  exists ws, Forall2 (fun id w => find_validator (vs_validators vs) id = Some w)
               (vote_validator_id <$> votes) ws /\
    t = acc + power_sum ws /\ t <= U64_MAX.
Proof.
  intros Hw. revert acc. induction votes as [|vote votes IH]; intros acc Ha.
  { cbn. split.
    - intros [= <-]. exists []. cbn. split_and!; [constructor|lia..].
    - intros (ws & Hf & -> & _). inversion Hf. cbn. f_equal. lia. }
  rewrite vote_fold_cons, (voting_power_of_find vs _ Hw).
  destruct (find_validator _ _) as [w|] eqn:Hf; cbn [fmap option_fmap option_map].
  2: { split; [done|]. intros (ws & Hws & _). inversion Hws; congruence. }
  assert (Hp : 1 <= v_voting_power w).
  { apply found in Hf as [Hin _]; [|done]. pose proof (set_positive vs Hw) as Hpos.
    rewrite Forall_forall in Hpos. by apply Hpos. }
  destruct (Z.leb_spec (acc + v_voting_power w) U64_MAX) as [Hle|Hgt].
  - rewrite IH by lia. split.
    + intros (ws & Hws & -> & Ht). exists (w :: ws). cbn. split_and!; [by constructor|lia..].
    + intros (ws & Hws & -> & Ht). inversion Hws as [|? w' ? ws' Hw' Hws' E1 E2]; subst.
      assert (w' = w) as -> by congruence. exists ws'. cbn in *. split_and!; [done|lia..].
  - split; [done|]. intros (ws & Hws & -> & Ht).
    inversion Hws as [|? w' ? ws' Hw' Hws' E1 E2]; subst.
    assert (w' = w) as -> by congruence. cbn in Ht.
    apply found_all in Hws' as [_ Hin]; [|done].
    pose proof (power_sum_nonneg ws' (powers_subset _ _ Hin (powers_of_wf vs Hw))). lia.
Qed.

(** ** The quorum *)

Lemma quorum_eq vs : quorum_voting_power vs = 2 * vs_total_voting_power vs / 3 + 1.
Proof. unfold quorum_voting_power. Z.to_euclidean_division_equations. lia. Qed.

Lemma quorum_reached vs p :
  quorum_voting_power vs <= p <-> 2 * vs_total_voting_power vs < 3 * p.
Proof. rewrite quorum_eq. Z.to_euclidean_division_equations. lia. Qed.

(** ** Configurations and certificates *)

(** What [ConsensusConfig::new] establishes over a canonical set. *)
Record config_wf `{Sha2} (config : ConsensusConfig) : Prop := mk_config_wf {
  config_set : set_wf (cc_validator_set config);
  config_version : cc_protocol_version config <> 0;
  config_records : 1 <= cc_maximum_block_records config <= MAX_BLOCK_RECORDS;
  config_bytes :
    1 <= cc_maximum_block_transaction_bytes config <= MAX_BLOCK_TRANSACTION_BYTES;
  config_faults :
    3 * cc_maximum_byzantine_voting_power config <
    vs_total_voting_power (cc_validator_set config);
  config_identity : cc_id config =
    domain_hash CONFIG_ID_DOMAIN
      (encode_config_fields (cc_protocol_version config) (cc_maximum_block_records config)
         (cc_maximum_block_transaction_bytes config) (cc_maximum_byzantine_voting_power config)
         (cc_validator_set config))
}.

Lemma config_new_Ok `{Sha2} pv mr mb f vs config :
  set_wf vs -> 0 <= mr -> 0 <= mb ->
  config_new pv mr mb f vs = Ok config <->
  config_wf config /\ cc_protocol_version config = pv /\ cc_maximum_block_records config = mr /\
  cc_maximum_block_transaction_bytes config = mb /\
  cc_maximum_byzantine_voting_power config = f /\ cc_validator_set config = vs.
Proof.
  intros Hs Hmr Hmb.
  assert (Hf : (vs_total_voting_power vs - 1) / 3 < f <-> ~ 3 * f < vs_total_voting_power vs)
    by (Z.to_euclidean_division_equations; lia).
  unfold config_new. cbn zeta. split.
  - destruct (Z.eqb_spec pv 0); [done|]. destruct (Z.eqb_spec mr 0); [done|].
    destruct (Z.ltb_spec MAX_BLOCK_RECORDS mr); [done|].
    destruct (Z.eqb_spec mb 0); [done|].
    destruct (Z.ltb_spec MAX_BLOCK_TRANSACTION_BYTES mb); [done|]. cbn [orb].
    destruct (Z.ltb_spec ((vs_total_voting_power vs - 1) / 3) f); [done|].
    intros [= <-]. split; [|done]. split; cbn; first [done|lia].
  - intros ([_ Hv Hr Hb Hp Hi] & <- & <- & <- & <- & <-). destruct config; cbn in *. subst.
    destruct (Z.eqb_spec cc_protocol_version 0); [lia|].
    destruct (Z.eqb_spec cc_maximum_block_records 0); [lia|].
    destruct (Z.eqb_spec cc_maximum_block_transaction_bytes 0); [lia|].
    destruct (Z.ltb_spec MAX_BLOCK_RECORDS cc_maximum_block_records); [lia|].
    destruct (Z.ltb_spec MAX_BLOCK_TRANSACTION_BYTES cc_maximum_block_transaction_bytes); [lia|].
    cbn [orb]. destruct (Z.ltb_spec ((vs_total_voting_power cc_validator_set - 1) / 3)
      cc_maximum_byzantine_voting_power); [lia|reflexivity].
Qed.

(** What [FinalityCertificate::from_canonical] establishes. *)
Record certificate_wf `{Sha2} (c : FinalityCertificate) : Prop := mk_certificate_wf {
  certificate_votes : 1 <= len (fc_votes c) <= MAX_VALIDATORS;
  certificate_signatures :
    Forall (fun v => 1 <= len (vote_signature v) <= MAX_SIGNATURE_BYTES) (fc_votes c);
  certificate_sorted : strictly_sorted (voters c) = true;
  certificate_identity : fc_id c =
    domain_hash CERTIFICATE_ID_DOMAIN
      (encode_finality_certificate_fields (fc_target c) (fc_votes c))
}.

Lemma certificate_from_canonical_Ok `{Sha2} target votes c :
  certificate_from_canonical target votes = Ok c <->
  certificate_wf c /\ fc_target c = target /\ fc_votes c = votes.
Proof.
  unfold certificate_from_canonical, validate_votes. split.
  - destruct (is_empty votes) eqn:He; [done|].
    destruct (Z.ltb_spec MAX_VALIDATORS (len votes)); [done|].
    intros Hb. inv_ok. destruct_units. apply validate_votes_loop_Ok in Hx as (Hp & _ & Hs).
    split; [|done]. split; cbn; try done. destruct votes; cbn in *; [done|lia].
  - intros [[Hn Hp Hs Hi] [<- <-]]. destruct c as [t l i]. cbn in *. subst.
    replace (is_empty l) with false by (destruct l; cbn in *; [lia|done]).
    destruct (Z.ltb_spec MAX_VALIDATORS (len l)); [lia|].
    assert (validate_votes_loop true None l = Ok tt) as -> by by apply validate_votes_loop_Ok.
    done.
Qed.

(** ** Verified finality *)

(** The bindings that [ConsensusAnchor::validate_header] checks. *)
Record header_bound (anchor : ConsensusAnchor) (config : ConsensusConfig) (h : BlockHeader)
    : Prop := mk_header_bound {
  bound_version : bh_protocol_version (bh_input h) = cc_protocol_version config;
  bound_config : bh_consensus_config_id (bh_input h) = cc_id config;
  bound_set : bh_validator_set_id (bh_input h) = vs_id (cc_validator_set config);
  bound_records : bh_record_count (bh_input h) <= cc_maximum_block_records config;
  bound_genesis : bh_genesis_id (bh_input h) = anc_genesis_id anchor;
  bound_context : bh_validation_context_id (bh_input h) = anc_validation_context_id anchor;
  bound_anchor : cc_id config = anc_consensus_config_id anchor;
  bound_state : bh_height (bh_input h) = 1 ->
    bh_previous_state_id (bh_input h) = anc_genesis_state_id anchor
}.

Lemma validate_header_Ok anchor h config :
  validate_header anchor h config = Ok tt <-> header_bound anchor config h.
Proof.
  unfold validate_header, validate_against_config. split.
  - intros Hv. inv_ok. destruct_units.
    repeat match goal with
    | H : (if ?b then Err _ else _) = Ok _ |- _ => destruct b eqn:?; [done|]
    end.
    zbool. split; try done; try lia.
    intros Hh. rewrite Hh in *. cbn in *. zbool. done.
  - intros [Hv Hc Hs Hr Hg Hx Ha Hst].
    rewrite Hv, Z.eqb_refl, (bool_decide_eq_true_2 _ Hc), (bool_decide_eq_true_2 _ Hs),
      (bool_decide_eq_true_2 _ Hg), (bool_decide_eq_true_2 _ Hx), (bool_decide_eq_true_2 _ Ha).
    destruct (Z.ltb_spec (cc_maximum_block_records config) (bh_record_count (bh_input h))); [lia|].
    cbn [negb mbind result_bind].
    destruct (Z.eqb_spec (bh_height (bh_input h)) 1) as [H1|]; [|done].
    by rewrite (bool_decide_eq_true_2 _ (Hst H1)).
Qed.

(** An accepted vote: a configured validator whose signature the engine's
    verifier accepts over the canonical signing bytes. *)
Definition vote_accepted (verifier : FinalityVerifier) (vs : ValidatorSet) (bytes : list byte)
    (vote : VoteEvidence) : Prop :=
  exists v, v ∈ vs_validators vs /\ v_id v = vote_validator_id vote /\
    is_ok (verify_precommit verifier (v_id v) bytes (vote_signature vote) v) = true.

Lemma verify_votes_Ok `{Sha2} verifier vs bytes votes :
  set_wf vs ->
  verify_votes verifier (vs_validators vs) bytes votes = Ok tt <->
  Forall (vote_accepted verifier vs bytes) votes.
Proof.
  intros Hw. induction votes as [|vote votes IH]; [by rewrite Forall_nil|].
  rewrite Forall_cons, <-IH. cbn [verify_votes]. unfold vote_accepted at 1.
  destruct (find_validator _ _) as [w|] eqn:Hf; cbn [ok_or mbind result_bind].
  - apply found in Hf as [Hin Hi]; [|done].
    destruct (verify_precommit _ _ _ _ w) as [[]|e] eqn:Hp; cbn [map_err mbind result_bind].
    + split; [|by intros []]. intros Hv. split; [|done]. exists w. rewrite Hi, Hp. done.
    + split; [done|]. intros [(v & Hv & Hid & Hok) _].
      assert (Some v = Some w) as [= ->].
      { trans (find_validator (vs_validators vs) (v_id v)); [symmetry; by apply found|].
        apply found; [done|]. split; [done|congruence]. }
      rewrite Hid, Hp in Hok. done.
  - split; [done|]. intros [(v & Hv & Hid & _) _]. exfalso.
    apply find_validator_None in Hf. eauto.
Qed.

Lemma accepted_signature `{Sha2} verifier vs bytes votes v :
  set_wf vs -> Forall (vote_accepted verifier vs bytes) votes -> v ∈ vs_validators vs ->
  v_id v ∈ (vote_validator_id <$> votes) ->
  exists signature, is_ok (verify_precommit verifier (v_id v) bytes signature v) = true.
Proof.
  rewrite Forall_forall. intros Hw Hf Hv (vote & Hi & Hin)%list_elem_of_fmap.
  destruct (Hf vote Hin) as (w & Hwin & Hid & Hok). exists (vote_signature vote).
  assert (Some v = Some w) as [= ->]; [|done].
  trans (find_validator (vs_validators vs) (v_id v)); [symmetry; by apply found|].
  apply found; [done|]. split; [done|congruence].
Qed.

(** The declarative contract of a verified certificate. *)
Record finalises (verifier : FinalityVerifier) (anchor : ConsensusAnchor)
    (config : ConsensusConfig) (h : BlockHeader) (c : FinalityCertificate) : Prop := mk_finalises {
  fin_header : header_bound anchor config h;
  fin_target : fc_target c = target_from_header h;
  fin_votes :
    Forall (vote_accepted verifier (cc_validator_set config) (signing_bytes (fc_target c)))
      (fc_votes c);
  fin_quorum :
    2 * vs_total_voting_power (cc_validator_set config) <
    3 * signed_power (cc_validator_set config) (voters c)
}.

Lemma vote_fold_signed `{Sha2} vs c t :
  set_wf vs -> certificate_wf c ->
  vote_fold vs 0 (fc_votes c) = Ok t <->
  (forall id, id ∈ voters c -> exists v, v ∈ vs_validators vs /\ v_id v = id) /\
  t = signed_power vs (voters c).
Proof.
  intros Hw Hc. pose proof (strictly_sorted_NoDup _ (certificate_sorted c Hc)) as Hn.
  rewrite (vote_fold_Ok vs 0 (fc_votes c) t Hw) by lia. fold (voters c). split.
  - intros (ws & Hf & -> & _). split.
    + intros id [i Hi]%list_elem_of_lookup.
      destruct (Forall2_lookup_l _ _ _ _ _ Hf Hi) as (w & _ & Hw'%found); [eauto|done].
    + unfold signed_power. by rewrite <-(found_signers vs _ ws Hw Hn Hf).
  - intros [Hk ->]. assert (exists ws, Forall2
      (fun id w => find_validator (vs_validators vs) id = Some w) (voters c) ws) as [ws Hf].
    { clear Hn. induction (voters c) as [|id ids IH]; [exists []; constructor|].
      destruct IH as [ws Hws]; [intros i Hi; apply Hk; by right|].
      destruct (Hk id) as (v & Hv & Hi); [by left|]. exists (v :: ws). constructor; [|done].
      by apply found. }
    exists ws. split; [done|]. unfold signed_power.
    rewrite (found_signers vs _ ws Hw Hn Hf). split; [lia|].
    pose proof (signed_power_range vs (voters c) Hw). pose proof (set_bounded vs Hw).
    unfold signed_power in *. lia.
Qed.

Lemma accepted_known verifier vs bytes votes id :
  Forall (vote_accepted verifier vs bytes) votes -> id ∈ (vote_validator_id <$> votes) ->
  exists v, v ∈ vs_validators vs /\ v_id v = id.
Proof.
  rewrite Forall_forall. intros Hf (vote & -> & Hv)%list_elem_of_fmap.
  destruct (Hf vote Hv) as (v & Hin & Hi & _). eauto.
Qed.

Lemma verify_certificate_Ok `{Sha2} verifier anchor config h c vf :
  config_wf config -> certificate_wf c ->
  verify_certificate c h anchor config verifier = Ok vf <->
  finalises verifier anchor config h c /\
  vf = mk_VerifiedFinality (bh_id h) (bh_height (bh_input h)) (fc_id c).
Proof.
  intros Hcfg Hc. pose proof (config_set config Hcfg) as Hw.
  unfold verify_certificate, validate_structure. cbn zeta.
  fold (vote_fold (cc_validator_set config) 0 (fc_votes c)). split.
  - destruct (validate_header anchor h config) as [[]|] eqn:Hh; cbn [mbind result_bind]; [|done].
    case_bool_decide as Ht; cbn [negb]; [|done]. case_bool_decide; cbn [negb]; [|done].
    destruct (vote_fold _ _ _) as [t|] eqn:Hf; cbn [mbind result_bind]; [|done].
    destruct (Z.ltb_spec t (quorum_voting_power (cc_validator_set config))); [done|].
    cbn [mbind result_bind].
    destruct (verify_votes _ _ _ _) as [[]|] eqn:Hv; cbn [mbind result_bind]; [|done].
    intros [= <-]. apply validate_header_Ok in Hh. apply (verify_votes_Ok verifier _ _ _ Hw) in Hv.
    apply vote_fold_signed in Hf as [_ ->]; [|done..].
    split; [|done]. split; [done..|]. by apply quorum_reached.
  - intros [[Hh Ht Hv Hq] ->]. rewrite (proj2 (validate_header_Ok anchor h config) Hh).
    cbn [mbind result_bind]. rewrite (bool_decide_eq_true_2 _ Ht). cbn [negb].
    rewrite (bool_decide_eq_true_2 (ft_validator_set_id (fc_target c) = _))
      by (rewrite Ht; apply (bound_set _ _ _ Hh)).
    cbn [negb].
    rewrite (proj2 (vote_fold_signed (cc_validator_set config) c _ Hw Hc)
      (conj (fun id => accepted_known _ _ _ _ id Hv) eq_refl)).
    cbn [mbind result_bind]. apply quorum_reached in Hq.
    destruct (Z.ltb_spec (signed_power (cc_validator_set config) (voters c))
      (quorum_voting_power (cc_validator_set config))); [lia|].
    cbn [mbind result_bind]. by rewrite (proj2 (verify_votes_Ok verifier _ _ _ Hw) Hv).
Qed.

(** ** Signing bytes *)

Definition target_range (t : FinalityTarget) : Prop :=
  in_range U64_MAX (ft_height t) /\ in_range U64_MAX (ft_epoch t) /\ in_range U32_MAX (ft_round t).

Lemma signing_bytes_inj t1 t2 :
  target_range t1 -> target_range t2 -> signing_bytes t1 = signing_bytes t2 -> t1 = t2.
Proof.
  intros (H1 & E1 & R1) (H2 & E2 & R2) He. unfold in_range in *.
  apply app_inv_head, app_inv_head in He.
  destruct t1 as [g1 c1 k1 s1 h1 e1 r1 b1], t2 as [g2 c2 k2 s2 h2 e2 r2 b2].
  unfold encode_finality_target_fields in He. cbn in H1, E1, R1, H2, E2, R2, He.
  rewrite <-(app_nil_r (arr b1)), <-(app_nil_r (arr b2)) in He.
  apply (prefix_free g1 g2) in He as [-> He]; [|done..].
  apply (prefix_free c1 c2) in He as [-> He]; [|done..].
  apply (prefix_free k1 k2) in He as [-> He]; [|done..].
  apply (prefix_free s1 s2) in He as [-> He]; [|done..].
  apply (prefix_free h1 h2) in He as [-> He]; [|cbn; lia..].
  apply (prefix_free e1 e2) in He as [-> He]; [|cbn; lia..].
  apply (prefix_free r1 r2) in He as [-> He]; [|cbn; lia..].
  by apply (prefix_free b1 b2) in He as [-> _].
Qed.

(** ** Sample network *)

Definition sample_validator (i : byte) : Validator :=
  mk_Validator (fill 32 i) 1 (mk_ValidatorVerificationKey 1 [i]).

Definition sample_validators : list Validator :=
  sample_validator <$> [x03; x01; x04; x02].

Section Sample.
#[local] Existing Instance toy_sha2.

Definition sample_set : ValidatorSet :=
  mk_ValidatorSet (sample_validator <$> [x01; x02; x03; x04]) 4
    (domain_hash VALIDATOR_SET_ID_DOMAIN
       (encode_validator_set_entries (sample_validator <$> [x01; x02; x03; x04]))).

Definition sample_config : ConsensusConfig :=
  mk_ConsensusConfig 1 100 1024 1 sample_set
    (domain_hash CONFIG_ID_DOMAIN (encode_config_fields 1 100 1024 1 sample_set)).

Definition sample_anchor : ConsensusAnchor :=
  mk_ConsensusAnchor (fill 32 x0a) (fill 32 x0b) (cc_id sample_config) (fill 32 x0c) (fill 32 x00).

Definition sample_input (result : byte) : BlockHeaderInput :=
  mk_BlockHeaderInput 1 (fill 32 x0a) (fill 32 x0b) (cc_id sample_config) (vs_id sample_set)
    1 0 0 None (fill 32 x0c) (fill 32 result) 1 1 (fill 32 x0d).

Definition sample_header (result : byte) : BlockHeader :=
  mk_BlockHeader (sample_input result)
    (domain_hash BLOCK_ID_DOMAIN (encode_block_header_fields (sample_input result))).

Definition sample_certificate (result : byte) (ids : list byte) : FinalityCertificate :=
  let target := target_from_header (sample_header result) in
  let votes := (fun i => mk_VoteEvidence (fill 32 i) [i]) <$> ids in
  mk_FinalityCertificate target votes
    (domain_hash CERTIFICATE_ID_DOMAIN (encode_finality_certificate_fields target votes)).

Definition sample_finality (result : byte) (ids : list byte) : VerifiedFinality :=
  mk_VerifiedFinality (bh_id (sample_header result)) 1 (fc_id (sample_certificate result ids)).

Lemma sample_set_wf : set_wf sample_set.
Proof.
  apply (set_from_canonical_Ok (sample_validator <$> [x01; x02; x03; x04])).
  - repeat apply Forall_cons_2; try apply Forall_nil_2; unfold in_range; cbn; lia.
  - by_eval.
Qed.

Lemma sample_config_wf : config_wf sample_config.
Proof.
  apply (config_new_Ok 1 100 1024 1 sample_set); [exact sample_set_wf|lia|lia|]. by_eval.
Qed.

Lemma sample_certificate_wf result ids :
  is_ok (certificate_from_canonical (fc_target (sample_certificate result ids))
    (fc_votes (sample_certificate result ids))) = true ->
  certificate_wf (sample_certificate result ids).
Proof.
  destruct (certificate_from_canonical _ _) as [c|] eqn:Hc; [|done]. intros _.
  pose proof (proj1 (certificate_from_canonical_Ok _ _ _) Hc) as (Hw & _ & _).
  unfold certificate_from_canonical in Hc. inv_ok. done.
Qed.

End Sample.

(** A verifier that accepts the one-byte signature naming the validator. *)
Definition sample_verifier : FinalityVerifier :=
  mk_FinalityVerifier unit (fun id _ signature _ =>
    ensure (bool_decide (head (arr id) = head signature)) tt).

(** ** Properties *)

(** [ValidatorSet::new] accepts exactly the lists that are a non-empty,
    bounded, duplicate-free collection of positive voting powers whose sum fits
    in 64 bits, whatever their order, and it returns the unique canonical set of
    those validators.  On that set [voting_power_of], a binary search, returns
    the power of a validator exactly when the validator was supplied. *)
Theorem validator_set_exact `{Sha2} l vs :
  powers_u64 l ->
  (set_new l = Ok vs <-> set_wf vs /\ vs_validators vs ≡ₚ l) /\
  (set_new l = Ok vs -> forall id p,
     voting_power_of vs id = Some p <->
     exists v, v ∈ l /\ v_id v = id /\ v_voting_power v = p).
Proof.
  intros Hl. assert (Hnew : set_new l = Ok vs <-> set_wf vs /\ vs_validators vs ≡ₚ l).
  { unfold set_new. pose proof (sort_by_key_Permutation v_id l) as Hp.
    rewrite set_from_canonical_Ok by (unfold powers_u64; by rewrite Hp).
    split; intros [Hw He]; (split; [done|]); [by rewrite He|].
    pose proof (set_sorted vs Hw) as Hs. apply (keyed_sorted_unique v_id); [done| |by rewrite Hp].
    apply sort_by_key_strict. rewrite <-He. by apply strictly_sorted_NoDup. }
  split; [done|]. intros [Hw Hp]%Hnew id p.
  rewrite (voting_power_of_find vs id Hw), fmap_Some. split.
  - intros (v & [Hv Hi]%found & ->); [|done]. exists v. by rewrite <-Hp.
  - intros (v & Hv & Hi & <-). exists v. split; [|done]. apply found; [done|]. by rewrite Hp.
Qed.

Lemma validator_set_exact_witness :
  powers_u64 sample_validators /\
  (let _ := toy_sha2 in set_new sample_validators = Ok sample_set) /\
  (let _ := toy_sha2 in voting_power_of sample_set (fill 32 x03) = Some 1).
Proof.
  assert (Hp : powers_u64 sample_validators)
    by (repeat apply Forall_cons_2; try apply Forall_nil_2; unfold in_range; cbn; lia).
  pose proof (@validator_set_exact toy_sha2 sample_validators sample_set Hp) as [_ Hl].
  assert (Hn : @set_new toy_sha2 sample_validators = Ok sample_set) by by_eval.
  split; [exact Hp|]. split; [exact Hn|]. refine (proj2 (Hl Hn _ _) _). clear.
  exists (sample_validator x03). split; [|split; reflexivity].
  apply (list_elem_of_lookup_2 _ 0). reflexivity.
Defined.

(** on every canonical validator set of total power [T] the quorum computed
    by [quorum_voting_power] is [floor(2T/3) + 1]; none of its [u64]
    intermediates overflows; it can be reached by the whole set; and reaching it
    means holding strictly more than two thirds of the total power. *)
Theorem quorum_threshold `{Sha2} vs :
  set_wf vs ->
  let total := vs_total_voting_power vs in
  quorum_voting_power vs = 2 * total / 3 + 1 /\
  in_range U64_MAX (total / 3 * 2) /\ in_range U64_MAX (total mod 3 * 2) /\
  in_range U64_MAX (total / 3 * 2 + total mod 3 * 2 / 3) /\
  1 <= quorum_voting_power vs <= total /\
  (forall signed, quorum_voting_power vs <= signed <-> 2 * total < 3 * signed).
Proof.
  intros Hw total. pose proof (set_bounded vs Hw) as Hb. fold total in Hb.
  assert (1 <= total).
  { unfold total. rewrite (set_total vs Hw). pose proof (powers_of_wf vs Hw) as Hp.
    destruct (set_nonempty vs Hw) as [Hn _]. pose proof (set_positive vs Hw) as Hpos.
    destruct (vs_validators vs) as [|v l]; cbn in *; [lia|]. apply Forall_cons in Hpos as [? _].
    apply Forall_cons in Hp as [_ Hp]. pose proof (power_sum_nonneg l Hp). lia. }
  rewrite quorum_eq. fold total. unfold in_range.
  split_and!; Z.to_euclidean_division_equations; lia.
Qed.

Lemma quorum_threshold_witness :
  quorum_voting_power sample_set = 3 /\ 2 * 4 < 3 * quorum_voting_power sample_set.
Proof.
  pose proof (@quorum_threshold toy_sha2 sample_set sample_set_wf) as (_ & _ & _ & _ & _ & H).
  split; [reflexivity|]. refine (proj1 (H 3) _). vm_compute. discriminate.
Defined.

(** C30: a certificate verifies exactly when the header is bound to the anchor
    and the configuration, the certificate's target is that header, every vote
    comes from a configured validator whose signature the engine accepts over
    the target's signing bytes, and the distinct signers hold more than two
    thirds of the voting power; the sum of their powers never overflows.  The
    returned evidence names the header's block. *)
Theorem certificate_verify_exact `{Sha2} verifier anchor config h c vf :
  config_wf config -> certificate_wf c ->
  verify_certificate c h anchor config verifier = Ok vf <->
  finalises verifier anchor config h c /\
  vf = mk_VerifiedFinality (bh_id h) (bh_height (bh_input h)) (fc_id c).
Proof. apply verify_certificate_Ok. Qed.

Lemma certificate_verify_exact_witness :
  finalises sample_verifier sample_anchor sample_config (sample_header x0e)
    (sample_certificate x0e [x01; x02; x03]).
Proof.
  refine (proj1 (proj1 (@certificate_verify_exact toy_sha2 sample_verifier sample_anchor
    sample_config (sample_header x0e) (sample_certificate x0e [x01; x02; x03])
    (sample_finality x0e [x01; x02; x03]) sample_config_wf
    (sample_certificate_wf x0e [x01; x02; x03] eq_refl)) _)). by_eval.
Defined.

(** C10: if two certificates verify under one configuration for different blocks,
    validators holding more than the configured maximum Byzantine voting power
    have accepted signatures over two different signing messages: within the
    declared fault bound, no two conflicting blocks can be final. *)
Theorem conflicting_finality_accountable `{Sha2} verifier anchor config h1 h2 c1 c2 vf1 vf2 :
  config_wf config -> certificate_wf c1 -> certificate_wf c2 ->
  target_range (fc_target c1) -> target_range (fc_target c2) ->
  verify_certificate c1 h1 anchor config verifier = Ok vf1 ->
  verify_certificate c2 h2 anchor config verifier = Ok vf2 ->
  bh_id h1 <> bh_id h2 ->
  signing_bytes (fc_target c1) <> signing_bytes (fc_target c2) /\
  exists culprits : list Validator,
    NoDup culprits /\ (forall v, v ∈ culprits -> v ∈ vs_validators (cc_validator_set config)) /\
    cc_maximum_byzantine_voting_power config < power_sum culprits /\
    forall v, v ∈ culprits -> exists s1 s2,
      is_ok (verify_precommit verifier (v_id v) (signing_bytes (fc_target c1)) s1 v) = true /\
      is_ok (verify_precommit verifier (v_id v) (signing_bytes (fc_target c2)) s2 v) = true.
Proof.
  intros Hcfg Hc1 Hc2 Hr1 Hr2 [F1 _]%verify_certificate_Ok [F2 _]%verify_certificate_Ok Hne; try done.
  pose proof (config_set config Hcfg) as Hw. split.
  { intros He%signing_bytes_inj; [|done..]. apply Hne.
    rewrite (fin_target _ _ _ _ _ F1), (fin_target _ _ _ _ _ F2) in He. by injection He. }
  exists (filter (fun v => v_id v ∈ voters c1 /\ v_id v ∈ voters c2)
    (vs_validators (cc_validator_set config))).
  split_and!.
  - apply NoDup_filter, (NoDup_fmap_1 v_id), strictly_sorted_NoDup, set_sorted, Hw.
  - by intros v [_ ?]%list_elem_of_filter.
  - pose proof (power_sum_filter_split (fun v => v_id v ∈ voters c1) (fun v => v_id v ∈ voters c2)
      _ (powers_of_wf _ Hw)) as Hsum.
    pose proof (fin_quorum _ _ _ _ _ F1). pose proof (fin_quorum _ _ _ _ _ F2).
    pose proof (config_faults _ Hcfg). unfold signed_power, signers in *.
    rewrite <-(set_total _ Hw) in Hsum. lia.
  - intros v [[H1 H2] Hv]%list_elem_of_filter.
    destruct (accepted_signature _ _ _ _ v Hw (fin_votes _ _ _ _ _ F1) Hv H1) as [s1 ?].
    destruct (accepted_signature _ _ _ _ v Hw (fin_votes _ _ _ _ _ F2) Hv H2) as [s2 ?].
    by exists s1, s2.
Qed.

Lemma conflicting_finality_accountable_witness :
  exists culprits : list Validator, 1 < power_sum culprits.
Proof.
  assert (R : forall r ids, target_range (fc_target (sample_certificate r ids)))
    by (intros; unfold target_range, in_range; cbn; lia).
  refine (match proj2 (@conflicting_finality_accountable toy_sha2 sample_verifier sample_anchor
    sample_config (sample_header x0e) (sample_header x0f) (sample_certificate x0e [x01; x02; x03])
    (sample_certificate x0f [x02; x03; x04]) (sample_finality x0e [x01; x02; x03])
    (sample_finality x0f [x02; x03; x04]) sample_config_wf
    (sample_certificate_wf x0e [x01; x02; x03] eq_refl)
    (sample_certificate_wf x0f [x02; x03; x04] eq_refl) (R _ _) (R _ _) _ _ _) with
    ex_intro _ culprits (conj _ (conj _ (conj H _))) => ex_intro _ culprits H end).
  - by_eval.
  - by_eval.
  - intros He. apply (f_equal (fun a => bool_decide (a = bh_id (sample_header x0f)))) in He.
    vm_compute in He. discriminate.
Defined.
