(* ===== verification/ConsensusCodec.v ===== *)
(** * Canonical consensus encodings ([noxis-consensus/src/codec.rs])

    The binary formats of consensus configurations, block headers and finality
    certificates, with their decoders, and the proof that each decoder accepts
    exactly the encodings of valid values. *)

From Stdlib Require Import Strings.Byte Strings.String.
From S2P Require Import Prelude Arrays Reader Sha256 Types RecordChain Consensus ConsensusFacts.

Definition CONFIG_MAGIC : list byte := bytes_of_string "NXCG".
Definition HEADER_MAGIC : list byte := bytes_of_string "NXBH".
Definition CERTIFICATE_MAGIC : list byte := bytes_of_string "NXFC".

(** [read_magic_and_version]. *)
Definition read_magic_and_version (magic : list byte) : M Reader ConsensusError unit :=
  _ ← read_magic magic ConsensusError.InvalidMagic;
  read_version CONSENSUS_FORMAT_VERSION ConsensusError.UnsupportedFormatVersion.

Definition read_validator_key_bytes : M Reader ConsensusError (list byte) :=
  length ← read_u16;
  _ ← lift (if MAX_VALIDATOR_PUBLIC_KEY_BYTES <? length
            then Err (ConsensusError.ValidatorKeyTooLarge length MAX_VALIDATOR_PUBLIC_KEY_BYTES)
            else Ok tt);
  read_exact length.

(** The loop body of [decode_consensus_config]. *)
Definition read_validator : M Reader ConsensusError Validator :=
  id ← read_array 32;
  voting_power ← read_u64;
  signature_scheme ← read_u16;
  key_bytes ← read_validator_key_bytes;
  key ← lift (verification_key_new signature_scheme key_bytes);
  lift (validator_new id voting_power key).

(** The count, its bound and the loop of [decode_consensus_config]. *)
Definition read_validators : M Reader ConsensusError (list Validator) :=
  validator_count ← read_u32;
  _ ← lift (if MAX_VALIDATORS <? validator_count
            then Err (ConsensusError.TooManyValidators validator_count MAX_VALIDATORS)
            else Ok tt);
  read_n (Z.to_nat validator_count) read_validator.

Definition encode_consensus_config (config : ConsensusConfig) : list byte :=
  CONFIG_MAGIC ++ to_be_bytes 2 CONSENSUS_FORMAT_VERSION ++
  encode_config_fields (cc_protocol_version config) (cc_maximum_block_records config)
    (cc_maximum_block_transaction_bytes config) (cc_maximum_byzantine_voting_power config)
    (cc_validator_set config).

Definition decode_consensus_config `{Sha2} : list byte -> Result ConsensusError ConsensusConfig :=
  run (
    _ ← read_magic_and_version CONFIG_MAGIC;
    protocol_version ← read_u16;
    maximum_block_records ← read_u32;
    maximum_block_transaction_bytes ← read_u32;
    maximum_byzantine_voting_power ← read_u64;
    validators ← read_validators;
    _ ← finish;
    lift (validator_set ← set_from_canonical validators;
          config_new protocol_version maximum_block_records maximum_block_transaction_bytes
            maximum_byzantine_voting_power validator_set)).

Definition encode_block_header (header : BlockHeader) : list byte :=
  HEADER_MAGIC ++ to_be_bytes 2 CONSENSUS_FORMAT_VERSION ++
  encode_block_header_fields (bh_input header).

(** The parent field of [decode_block_header]. *)
Definition read_parent : M Reader ConsensusError (option BlockId) :=
  parent_is_present ← read_u8;
  parent_bytes ← read_array 32;
  lift (if parent_is_present =? 0 then
          if bool_decide (parent_bytes <> fill 32 x00)
          then Err ConsensusError.UnexpectedParentBlock
          else Ok None
        else if parent_is_present =? 1 then Ok (Some parent_bytes)
        else Err ConsensusError.InvalidMagic).

Definition decode_block_header `{Sha2} : list byte -> Result ConsensusError BlockHeader :=
  run (
    _ ← read_magic_and_version HEADER_MAGIC;
    protocol_version ← read_u16;
    genesis_id ← read_array 32;
    validation_context_id ← read_array 32;
    consensus_config_id ← read_array 32;
    validator_set_id ← read_array 32;
    height ← read_u64;
    epoch ← read_u64;
    round ← read_u32;
    parent_block_id ← read_parent;
    previous_state_id ← read_array 32;
    resulting_state_id ← read_array 32;
    first_record_sequence ← read_u64;
    record_count ← read_u32;
    records_commitment ← read_array 32;
    _ ← finish;
    lift (header_new (mk_BlockHeaderInput protocol_version genesis_id validation_context_id
      consensus_config_id validator_set_id height epoch round parent_block_id previous_state_id
      resulting_state_id first_record_sequence record_count records_commitment))).

Definition encode_finality_certificate (certificate : FinalityCertificate) : list byte :=
  CERTIFICATE_MAGIC ++ to_be_bytes 2 CONSENSUS_FORMAT_VERSION ++
  encode_finality_certificate_fields (fc_target certificate) (fc_votes certificate).

Definition decode_finality_target : M Reader ConsensusError FinalityTarget :=
  genesis_id ← read_array 32;
  validation_context_id ← read_array 32;
  consensus_config_id ← read_array 32;
  validator_set_id ← read_array 32;
  height ← read_u64;
  epoch ← read_u64;
  round ← read_u32;
  block_id ← read_array 32;
  lift (target_new (mk_FinalityTarget genesis_id validation_context_id consensus_config_id
    validator_set_id height epoch round block_id)).

Definition read_signature : M Reader ConsensusError (list byte) :=
  signature_length ← read_u16;
  _ ← lift (if MAX_SIGNATURE_BYTES <? signature_length
            then Err (ConsensusError.SignatureTooLarge signature_length MAX_SIGNATURE_BYTES)
            else Ok tt);
  read_exact signature_length.

(** The loop body of [decode_finality_certificate]. *)
Definition read_vote : M Reader ConsensusError VoteEvidence :=
  validator_id ← read_array 32;
  signature ← read_signature;
  lift (vote_new validator_id signature).

(** The count, its bound and the loop of [decode_finality_certificate]. *)
Definition read_votes : M Reader ConsensusError (list VoteEvidence) :=
  vote_count ← read_u32;
  _ ← lift (if MAX_VALIDATORS <? vote_count
            then Err (ConsensusError.TooManyVotes vote_count MAX_VALIDATORS)
            else Ok tt);
  read_n (Z.to_nat vote_count) read_vote.

Definition decode_finality_certificate `{Sha2}
    : list byte -> Result ConsensusError FinalityCertificate :=
  run (
    _ ← read_magic_and_version CERTIFICATE_MAGIC;
    target ← decode_finality_target;
    votes ← read_votes;
    _ ← finish;
    lift (certificate_from_canonical target votes)).

(** ** Field grammars *)

Lemma parse_spec_magic_version magic :
  List.length magic = 4%nat ->
  parse_spec (read_magic_and_version magic)
    (fun _ bs => bs = magic ++ to_be_bytes 2 CONSENSUS_FORMAT_VERSION).
Proof.
  intros Hm. eapply parse_spec_proper; cycle 1.
  { apply parse_spec_bind; [by apply parse_spec_read_magic|]. intros ?.
    by apply parse_spec_read_version. }
  intros u bs. cbn. split; [by intros (_ & b1 & b2 & -> & -> & ->)|].
  intros ->. by exists tt, magic, (to_be_bytes 2 CONSENSUS_FORMAT_VERSION).
Qed.
#[export] Hint Extern 0 (parse_spec (read_magic_and_version _) _) =>
  eapply parse_spec_magic_version; reflexivity : grammar.

Lemma limit_check {E} (limit : Z) (e : E) n :
  (exists a, (if limit <? n then Err e else Ok tt) = Ok a) <-> n <= limit.
Proof. destruct (Z.ltb_spec limit n); split; [by intros []|lia|done|eauto]. Qed.

Definition key_wf (key : ValidatorVerificationKey) : Prop :=
  1 <= vk_signature_scheme key <= U16_MAX /\
  1 <= len (vk_bytes key) <= MAX_VALIDATOR_PUBLIC_KEY_BYTES.

Definition validator_wf (v : Validator) : Prop :=
  1 <= v_voting_power v <= U64_MAX /\ key_wf (v_verification_key v).

Lemma verification_key_new_Ok scheme bytes key :
  0 <= scheme <= U16_MAX ->
  verification_key_new scheme bytes = Ok key <->
  key_wf key /\ vk_signature_scheme key = scheme /\ vk_bytes key = bytes.
Proof.
  intros Hs. unfold verification_key_new, key_wf. split.
  - destruct (Z.eqb_spec scheme 0); [done|]. destruct (is_empty bytes) eqn:He; [done|].
    destruct (Z.ltb_spec MAX_VALIDATOR_PUBLIC_KEY_BYTES (len bytes)); [done|].
    intros [= <-]. cbn. destruct bytes; cbn in *; [done|]. split_and!; [lia..|done|done].
  - intros ([Hk Hb] & <- & <-). destruct key as [s b]. cbn in *.
    destruct (Z.eqb_spec s 0); [lia|]. destruct b as [|x b]; cbn in *; [lia|].
    destruct (Z.ltb_spec MAX_VALIDATOR_PUBLIC_KEY_BYTES (Z.of_nat (S (List.length b)))); [lia|done].
Qed.

Lemma parse_spec_read_key_bytes :
  parse_spec read_validator_key_bytes (sized_grammar 2 (fun n => n <= MAX_VALIDATOR_PUBLIC_KEY_BYTES)).
Proof.
  apply parse_spec_guarded_exact; [|intros n; apply limit_check|apply parse_spec_read_u16].
  unfold MAX_VALIDATOR_PUBLIC_KEY_BYTES. cbn. lia.
Qed.
#[local] Hint Extern 0 (parse_spec read_validator_key_bytes _) =>
  eapply parse_spec_read_key_bytes : grammar.

Lemma parse_spec_read_validator :
  parse_spec read_validator (fun v bs => validator_wf v /\ bs = encode_validator v).
Proof.
  eapply parse_spec_proper; [|unfold read_validator; grammar_of].
  intros v bs. cbn. unfold be_grammar, sized_grammar, validator_wf, encode_validator. split.
  - intros H'. grammar_inv. subst. rewrite verification_key_new_Ok in * by lia.
    unfold validator_new in *. destruct_and?. subst.
    match goal with H : (if ?p =? 0 then _ else _) = _ |- _ => destruct (Z.eqb_spec p 0); [done|] end.
    simplify_eq. cbn. rewrite ?app_nil_r, <-?app_assoc. split_and!; [lia..|done|done].
  - intros [[Hp Hk] ->]. destruct v as [id p key]. cbn in *. pose proof Hk as [Hs Hb].
    rewrite <-(app_nil_r (to_be_bytes 2 (len (vk_bytes key)) ++ vk_bytes key)).
    do 4 grammar_split. grammar_lift ltac:(by apply verification_key_new_Ok; [lia|]).
    unfold validator_new. destruct (Z.eqb_spec p 0); [lia|done].
Qed.

Lemma parse_spec_read_validators :
  parse_spec read_validators
    (counted_grammar (fun n => n <= MAX_VALIDATORS) validator_wf encode_validator).
Proof.
  apply parse_spec_counted; [|intros n; apply limit_check|apply parse_spec_read_validator].
  unfold MAX_VALIDATORS. lia.
Qed.
#[local] Hint Extern 0 (parse_spec read_validators _) => eapply parse_spec_read_validators : grammar.

Lemma parse_spec_read_signature :
  parse_spec read_signature (sized_grammar 2 (fun n => n <= MAX_SIGNATURE_BYTES)).
Proof.
  apply parse_spec_guarded_exact; [|intros n; apply limit_check|apply parse_spec_read_u16].
  unfold MAX_SIGNATURE_BYTES. cbn. lia.
Qed.
#[local] Hint Extern 0 (parse_spec read_signature _) => eapply parse_spec_read_signature : grammar.

Definition vote_wf (v : VoteEvidence) : Prop := 1 <= len (vote_signature v) <= MAX_SIGNATURE_BYTES.

Lemma vote_new_Ok id signature v :
  vote_new id signature = Ok v <->
  vote_wf v /\ vote_validator_id v = id /\ vote_signature v = signature.
Proof.
  unfold vote_new, vote_wf. split.
  - destruct (Z.ltb_spec MAX_SIGNATURE_BYTES (len signature)); [done|].
    destruct signature; cbn in *; [done|]. intros [= <-]. cbn. split_and!; [lia..|done|done].
  - intros (Hv & <- & <-). destruct v as [i [|b s]]; cbn in *; [lia|].
    destruct (Z.ltb_spec MAX_SIGNATURE_BYTES (Z.of_nat (S (List.length s)))); [lia|done].
Qed.

Lemma parse_spec_read_vote : parse_spec read_vote (fun v bs => vote_wf v /\ bs = encode_vote v).
Proof.
  eapply parse_spec_proper; [|unfold read_vote; grammar_of].
  intros v bs. cbn. unfold sized_grammar, encode_vote. split.
  - intros H'. grammar_inv. subst. rewrite vote_new_Ok in *. destruct_and?. subst.
    by rewrite app_nil_r.
  - intros [Hv ->]. pose proof Hv as [_ Hl].
    rewrite <-(app_nil_r (to_be_bytes 2 (len (vote_signature v)) ++ vote_signature v)).
    do 2 grammar_split. split; [|done]. by apply vote_new_Ok.
Qed.

Lemma parse_spec_read_votes :
  parse_spec read_votes (counted_grammar (fun n => n <= MAX_VALIDATORS) vote_wf encode_vote).
Proof.
  apply parse_spec_counted; [|intros n; apply limit_check|apply parse_spec_read_vote].
  unfold MAX_VALIDATORS. lia.
Qed.
#[local] Hint Extern 0 (parse_spec read_votes _) => eapply parse_spec_read_votes : grammar.

Lemma parse_spec_read_parent :
  parse_spec read_parent (fun parent bs => bs = encode_parent parent).
Proof.
  eapply parse_spec_proper; [|unfold read_parent; grammar_of].
  intros parent bs. cbn. unfold be_grammar, encode_parent. split.
  - intros H'. grammar_inv. subst. rewrite app_nil_r.
    repeat match goal with H : (if _ =? ?n then _ else _) = _ |- _ => destruct (Z.eqb_spec x n); subst end;
      [|by simplify_eq|done].
    destruct (decide (x2 = fill 32 x00)) as [->|Hz]; [|by rewrite bool_decide_eq_true_2 in *].
    rewrite bool_decide_eq_false_2 in * by naive_solver. by simplify_eq.
  - intros ->. destruct parent as [p|].
    + exists 1, [x01], (arr p). split; [done|]. split; [|done].
      exists p, (arr p), []. split; [done|]. by rewrite app_nil_r.
    + exists 0, [x00], (arr (fill 32 x00)). split; [done|]. split; [|done].
      exists (fill 32 x00), (arr (fill 32 x00)), []. split; [done|]. rewrite app_nil_r.
      split; [|done]. split; [|done]. cbn [Z.eqb]. by rewrite bool_decide_eq_false_2 by naive_solver.
Qed.
#[local] Hint Extern 0 (parse_spec read_parent _) => eapply parse_spec_read_parent : grammar.

Definition target_wf (t : FinalityTarget) : Prop := target_range t /\ ft_height t <> 0.

Lemma parse_spec_decode_target :
  parse_spec decode_finality_target
    (fun t bs => target_wf t /\ bs = encode_finality_target_fields t).
Proof.
  eapply parse_spec_proper; [|unfold decode_finality_target; grammar_of].
  intros t bs. cbn.
  unfold be_grammar, target_wf, target_range, in_range, encode_finality_target_fields, target_new.
  cbn [ft_height]. split.
  - intros H'. grammar_inv. subst.
    match goal with H : (if ?h =? 0 then _ else _) = _ |- _ => destruct (Z.eqb_spec h 0); [done|] end.
    simplify_eq. cbn in *. rewrite app_nil_r. split; [lia|done].
  - intros [[(Hh & He & Hr) Hz] ->]. destruct t as [g c k s h e r b]. cbn in *.
    rewrite <-(app_nil_r (arr b)). do 8 grammar_split. destruct (Z.eqb_spec h 0); [lia|done].
Qed.
#[local] Hint Extern 0 (parse_spec decode_finality_target _) =>
  eapply parse_spec_decode_target : grammar.

(** ** Valid values *)

Record header_wf `{Sha2} (h : BlockHeader) : Prop := mk_header_wf {
  header_version : 1 <= bh_protocol_version (bh_input h) <= U16_MAX;
  header_height : 1 <= bh_height (bh_input h) <= U64_MAX;
  header_epoch : in_range U64_MAX (bh_epoch (bh_input h));
  header_round : in_range U32_MAX (bh_round (bh_input h));
  header_parent : bh_parent_block_id (bh_input h) = None <-> bh_height (bh_input h) = 1;
  header_count : 0 <= bh_record_count (bh_input h) <= MAX_BLOCK_RECORDS;
  header_first : 1 <= bh_first_record_sequence (bh_input h) <= U64_MAX;
  header_last :
    bh_first_record_sequence (bh_input h) + bh_record_count (bh_input h) - 1 <= U64_MAX;
  header_identity : bh_id h =
    domain_hash BLOCK_ID_DOMAIN (encode_block_header_fields (bh_input h))
}.

Definition header_ranges (i : BlockHeaderInput) : Prop :=
  in_range U16_MAX (bh_protocol_version i) /\ in_range U64_MAX (bh_height i) /\
  in_range U64_MAX (bh_epoch i) /\ in_range U32_MAX (bh_round i) /\
  in_range U64_MAX (bh_first_record_sequence i) /\ in_range U32_MAX (bh_record_count i).

Lemma parent_guards (parent : option BlockId) height :
  1 <= height ->
  (height =? 1) && bool_decide (is_Some parent) = false /\
  (1 <? height) && bool_decide (parent = None) = false <-> (parent = None <-> height = 1).
Proof.
  intros Hh. destruct (Z.eqb_spec height 1), (Z.ltb_spec 1 height), parent; try lia;
    repeat case_bool_decide; cbn; naive_solver.
Qed.

Lemma validate_header_input_Ok i :
  header_ranges i ->
  validate_header_input i = Ok tt <->
  1 <= bh_protocol_version i /\ 1 <= bh_height i /\
  (bh_parent_block_id i = None <-> bh_height i = 1) /\
  bh_record_count i <= MAX_BLOCK_RECORDS /\ 1 <= bh_first_record_sequence i /\
  bh_first_record_sequence i + bh_record_count i - 1 <= U64_MAX.
Proof.
  unfold header_ranges, in_range. intros (Hv & Hh & _ & _ & Hf & Hc).
  unfold validate_header_input.
  destruct (Z.eqb_spec (bh_protocol_version i) 0); [split; [done|lia]|].
  destruct (Z.eqb_spec (bh_height i) 0); [split; [done|lia]|].
  pose proof (parent_guards (bh_parent_block_id i) (bh_height i) ltac:(lia)) as Hp.
  destruct (_ && bool_decide (is_Some _)); [split; [done|intros (_ & _ & ?%Hp & _); naive_solver]|].
  destruct (_ && bool_decide (_ = None)); [split; [done|intros (_ & _ & ?%Hp & _); naive_solver]|].
  destruct (Z.eqb_spec (bh_first_record_sequence i) 0); [split; [done|lia]|].
  destruct (Z.ltb_spec MAX_BLOCK_RECORDS (bh_record_count i)); [split; [done|lia]|].
  rewrite <-Hp. unfold checked_add. destruct (Z.ltb_spec 0 (bh_record_count i)).
  - destruct (Z.leb_spec (bh_first_record_sequence i + (bh_record_count i - 1)) U64_MAX); cbn.
    + split; [intros _|done]. split_and!; first [done|lia].
    + split; [done|lia].
  - split; [intros _|done]. split_and!; first [done|lia].
Qed.

Lemma header_new_Ok `{Sha2} i h :
  header_ranges i -> header_new i = Ok h <-> header_wf h /\ bh_input h = i.
Proof.
  intros Hr. pose proof (validate_header_input_Ok i Hr) as Hv. unfold header_new.
  pose proof Hr as (? & ? & ? & ? & ? & ?). unfold in_range in *. split.
  - destruct (validate_header_input i) as [[]|]; cbn [mbind result_bind]; [|done].
    intros [= <-]. split; [|done]. destruct (proj1 Hv eq_refl) as (? & ? & ? & ? & ? & ?).
    split; cbn; unfold in_range; first [done|lia].
  - intros [[] <-]. destruct h as [i id]. cbn in *. subst id.
    rewrite (proj2 Hv); [done|]. split_and!; first [done|lia].
Qed.

Record config_valid `{Sha2} (config : ConsensusConfig) : Prop := mk_config_valid {
  valid_config : config_wf config;
  valid_version : in_range U16_MAX (cc_protocol_version config);
  valid_faults : in_range U64_MAX (cc_maximum_byzantine_voting_power config);
  valid_validators : Forall validator_wf (vs_validators (cc_validator_set config))
}.

Record certificate_valid `{Sha2} (c : FinalityCertificate) : Prop := mk_certificate_valid {
  valid_certificate : certificate_wf c;
  valid_target : target_wf (fc_target c)
}.

Lemma validator_powers l : Forall validator_wf l -> powers_u64 l.
Proof. intros Hl. eapply Forall_impl; [done|]. unfold validator_wf, in_range. intros v [? _]. lia. Qed.

Lemma build_config_Ok `{Sha2} pv mr mb f l config :
  Forall validator_wf l -> 0 <= mr -> 0 <= mb ->
  (vs ← set_from_canonical l; config_new pv mr mb f vs) = Ok config <->
  config_wf config /\ cc_protocol_version config = pv /\ cc_maximum_block_records config = mr /\
  cc_maximum_block_transaction_bytes config = mb /\
  cc_maximum_byzantine_voting_power config = f /\ vs_validators (cc_validator_set config) = l.
Proof.
  intros Hl Hmr Hmb. apply validator_powers in Hl. split.
  - intros (vs & Hs & Hn)%bind_Ok. apply set_from_canonical_Ok in Hs as [Hw Hv]; [|done].
    apply config_new_Ok in Hn as (? & ? & ? & ? & ? & <-); [|done..]. done.
  - intros (Hw & Hpv & Hr & Hb & Hf & Hv). apply bind_Ok. exists (cc_validator_set config).
    split; [by apply set_from_canonical_Ok; [|split; [apply config_set|]]|].
    apply config_new_Ok; [by apply config_set|done..].
Qed.

Lemma decode_consensus_config_Ok `{Sha2} bs config :
  len bs <= ISIZE_MAX ->
  decode_consensus_config bs = Ok config <->
  config_valid config /\ bs = encode_consensus_config config.
Proof.
  intros Hl. unfold decode_consensus_config. erewrite run_iff; [|grammar_of|done].
  cbv beta. unfold be_grammar, counted_grammar, in_range. split.
  - intros H'. grammar_inv. rewrite build_config_Ok in * by lia || done. destruct_and?. subst.
    unfold encode_consensus_config, encode_config_fields, encode_validator_set_entries, counted.
    rewrite app_nil_r, <-!app_assoc. split; [|reflexivity]. by split; [|unfold in_range; lia..|].
  - intros [[Hw Hpv Hf Hv] ->]. pose proof (config_records _ Hw). pose proof (config_bytes _ Hw).
    unfold in_range, MAX_BLOCK_RECORDS, MAX_BLOCK_TRANSACTION_BYTES in *.
    unfold encode_consensus_config, encode_config_fields. rewrite (app_assoc CONFIG_MAGIC).
    rewrite <-(app_nil_r (encode_validator_set_entries _)).
    refine (ex_intro _ tt _). do 2 eexists. split; [reflexivity|]. split; [|reflexivity].
    do 4 grammar_split.
    refine (ex_intro _ (vs_validators (cc_validator_set config)) _). do 2 eexists.
    split; [split; [|split; [exact Hv|reflexivity]]|split; [split; [|reflexivity]|reflexivity]].
    + apply (set_nonempty _ (config_set _ Hw)).
    + by apply build_config_Ok; [|lia..|].
Qed.

Lemma decode_block_header_Ok `{Sha2} bs h :
  len bs <= ISIZE_MAX ->
  decode_block_header bs = Ok h <-> header_wf h /\ bs = encode_block_header h.
Proof.
  intros Hl. unfold decode_block_header. erewrite run_iff; [|grammar_of|done].
  cbv beta. unfold be_grammar. split.
  - intros H'. grammar_inv. rewrite header_new_Ok in * by (unfold header_ranges, in_range; cbn; lia).
    destruct_and?. subst. unfold encode_block_header, encode_block_header_fields.
    match goal with H : bh_input h = _ |- _ => rewrite H end.
    rewrite app_nil_r, <-!app_assoc. done.
  - intros [Hw ->]. pose proof Hw as [Hv Hh He Hr _ Hc Hf _ _]. unfold in_range, MAX_BLOCK_RECORDS in *.
    unfold encode_block_header. rewrite (app_assoc HEADER_MAGIC). destruct h as [i id].
    unfold encode_block_header_fields. cbn in *. rewrite <-(app_nil_r (arr (bh_records_commitment i))).
    refine (ex_intro _ tt _). do 2 eexists. split; [reflexivity|]. split; [|reflexivity].
    do 14 grammar_split. split; [|done].
    apply header_new_Ok; [unfold header_ranges, in_range; cbn; lia|]. by destruct i.
Qed.

Lemma decode_finality_certificate_Ok `{Sha2} bs c :
  len bs <= ISIZE_MAX ->
  decode_finality_certificate bs = Ok c <->
  certificate_valid c /\ bs = encode_finality_certificate c.
Proof.
  intros Hl. unfold decode_finality_certificate. erewrite run_iff; [|grammar_of|done].
  cbv beta. unfold counted_grammar. split.
  - intros H'. grammar_inv. rewrite certificate_from_canonical_Ok in *. destruct_and?. subst.
    unfold encode_finality_certificate, encode_finality_certificate_fields, counted.
    rewrite app_nil_r, <-!app_assoc. done.
  - intros [[Hw Ht] ->].
    unfold encode_finality_certificate. rewrite (app_assoc CERTIFICATE_MAGIC).
    unfold encode_finality_certificate_fields.
    rewrite <-(app_nil_r (to_be_bytes 4 _ ++ concat _)).
    refine (ex_intro _ tt _). do 2 eexists. split; [reflexivity|]. split; [|reflexivity].
    grammar_split.
    refine (ex_intro _ (fc_votes c) _). do 2 eexists.
    split; [split; [|split; [apply (certificate_signatures c Hw)|reflexivity]]|].
    + apply (certificate_votes c Hw).
    + split; [split; [|reflexivity]|reflexivity]. by apply certificate_from_canonical_Ok.
Qed.

(** ** Identities bind their contents *)

Definition BLOCK_HEADER_FIELDS_LENGTH : Z := 2 + 32 * 8 + 8 + 8 + 4 + 1 + 8 + 4.

Lemma length_encode_block_header_fields i :
  len (encode_block_header_fields i) = BLOCK_HEADER_FIELDS_LENGTH.
Proof.
  unfold encode_block_header_fields, encode_parent.
  destruct (bh_parent_block_id i); rewrite !length_app, !length_to_be_bytes, !length_arr; reflexivity.
Qed.

Lemma encode_block_header_inj `{Sha2} h1 h2 :
  header_wf h1 -> header_wf h2 ->
  encode_block_header_fields (bh_input h1) = encode_block_header_fields (bh_input h2) -> h1 = h2.
Proof.
  intros H1 H2 He. assert (Hl : len (encode_block_header h2) <= ISIZE_MAX).
  { unfold encode_block_header. rewrite !length_app, !Nat2Z.inj_add, length_to_be_bytes.
    rewrite length_encode_block_header_fields. vm_compute. discriminate. }
  assert (Ok h1 = Ok h2 :> Result ConsensusError _) as [= ->]; [|done].
  trans (decode_block_header (encode_block_header h2)); [symmetry|]; apply decode_block_header_Ok; try done.
  split; [done|]. unfold encode_block_header. by rewrite He.
Qed.

Definition block_preimage (h : BlockHeader) : list byte :=
  domain_preimage BLOCK_ID_DOMAIN (encode_block_header_fields (bh_input h)).

Definition records_preimage (record_hashes : list RecordHash) : list byte :=
  domain_preimage RECORD_COMMITMENT_DOMAIN (counted arr record_hashes).

Lemma domain_preimage_inj d x y : domain_preimage d x = domain_preimage d y -> x = y.
Proof. intros He. by apply app_inv_head, app_inv_head in He. Qed.

Lemma validate_record_hashes_Ok `{Sha2} h rs :
  validate_record_hashes h rs = Ok tt <->
  len rs = bh_record_count (bh_input h) /\ len rs <= MAX_BLOCK_RECORDS /\
  bh_records_commitment (bh_input h) = sha256 (records_preimage rs).
Proof.
  unfold validate_record_hashes, from_record_hashes.
  destruct (Z.eqb_spec (len rs) (bh_record_count (bh_input h))); cbn [negb]; [|split; [done|lia]].
  destruct (Z.ltb_spec MAX_BLOCK_RECORDS (len rs)); cbn [mbind result_bind]; [split; [done|lia]|].
  change (domain_hash _ _) with (sha256 (records_preimage rs)).
  case_bool_decide; cbn [negb]; naive_solver.
Qed.

(** ** Properties *)

(** C31: the decoders of consensus configurations, block headers and finality
    certificates accept a byte string exactly when it is the canonical encoding
    of a valid value, and return that value: no two byte strings decode to the
    same value, every valid value round-trips with its recomputed identity, and
    trailing bytes, wrong versions, unordered or duplicate entries, stray parent
    bytes and out-of-bound counts are all rejected. *)
Theorem consensus_codecs_exact `{Sha2} bs :
  len bs <= ISIZE_MAX ->
  (forall config, decode_consensus_config bs = Ok config <->
     config_valid config /\ bs = encode_consensus_config config) /\
  (forall h, decode_block_header bs = Ok h <-> header_wf h /\ bs = encode_block_header h) /\
  (forall c, decode_finality_certificate bs = Ok c <->
     certificate_valid c /\ bs = encode_finality_certificate c).
Proof.
  intros Hl. split_and!; intros v.
  - by apply decode_consensus_config_Ok.
  - by apply decode_block_header_Ok.
  - by apply decode_finality_certificate_Ok.
Qed.

Lemma consensus_codecs_exact_witness :
  @decode_consensus_config toy_sha2 (encode_consensus_config sample_config) = Ok sample_config /\
  @decode_finality_certificate toy_sha2
    (encode_finality_certificate (sample_certificate x0e [x01; x02; x03])) =
  Ok (sample_certificate x0e [x01; x02; x03]).
Proof.
  split.
  - refine (proj2 (proj1 (@consensus_codecs_exact toy_sha2 _ _) sample_config) _); [by_eval|].
    split; [|reflexivity]. split; [exact sample_config_wf|vm_compute; split; discriminate..|].
    repeat apply Forall_cons_2; try apply Forall_nil_2; vm_compute; repeat split; discriminate.
  - refine (proj2 (proj2 (proj2 (@consensus_codecs_exact toy_sha2 _ _)) _) _); [by_eval|].
    split; [|reflexivity]. split; [exact (sample_certificate_wf x0e [x01; x02; x03] eq_refl)|].
    split; [|discriminate]. vm_compute. repeat split; discriminate.
Defined.

(** a block identifier fixes the block.  If two well-formed headers have the
    same identifier and each accepts a list of record hashes, then, unless the
    hash collides on the four byte strings involved, the headers are equal and
    the lists of records are equal, in order. *)
Theorem block_id_binds_records `{Sha2} h1 h2 rs1 rs2 :
  header_wf h1 -> header_wf h2 ->
  validate_record_hashes h1 rs1 = Ok tt -> validate_record_hashes h2 rs2 = Ok tt ->
  collision_free [block_preimage h1; block_preimage h2; records_preimage rs1; records_preimage rs2] ->
  bh_id h1 = bh_id h2 -> h1 = h2 /\ rs1 = rs2.
Proof.
  intros W1 W2 (_ & L1 & V1)%validate_record_hashes_Ok (_ & L2 & V2)%validate_record_hashes_Ok Hc He.
  rewrite (header_identity _ W1), (header_identity _ W2) in He.
  apply (Hc (block_preimage h1) (block_preimage h2)) in He; [|set_solver..].
  apply domain_preimage_inj, (encode_block_header_inj _ _ W1 W2) in He as ->. split; [done|].
  rewrite V1 in V2. apply Hc in V2; [|set_solver..]. apply domain_preimage_inj in V2.
  unfold MAX_BLOCK_RECORDS in *.
  rewrite <-(app_nil_r (counted arr rs1)), <-(app_nil_r (counted arr rs2)) in V2.
  apply (prefix_free rs1 rs2) in V2 as [-> _]; [done|..]; (split; [lia|by apply Forall_forall]).
Qed.

Definition committed_hashes : list RecordHash := [fill 32 x21; fill 32 x22].

Definition committed_input : BlockHeaderInput :=
  mk_BlockHeaderInput 1 (fill 32 x0a) (fill 32 x0b) (fill 32 x0c) (fill 32 x0d) 2 0 0
    (Some (fill 32 x0e)) (fill 32 x0f) (fill 32 x10) 7 2
    (@sha256 toy_sha2 (records_preimage committed_hashes)).

Definition committed_header : BlockHeader :=
  mk_BlockHeader committed_input
    (@domain_hash toy_sha2 BLOCK_ID_DOMAIN (encode_block_header_fields committed_input)).

Lemma block_id_binds_records_witness :
  @validate_record_hashes toy_sha2 committed_header committed_hashes = Ok tt /\
  (committed_header = committed_header /\ committed_hashes = committed_hashes).
Proof.
  assert (W : @header_wf toy_sha2 committed_header).
  { refine (proj1 (proj1 (@header_new_Ok toy_sha2 committed_input committed_header _) _)).
    - vm_compute. repeat split; discriminate.
    - by_eval. }
  assert (V : @validate_record_hashes toy_sha2 committed_header committed_hashes = Ok tt) by by_eval.
  split; [exact V|].
  refine (@block_id_binds_records toy_sha2 committed_header committed_header
    committed_hashes committed_hashes W W V V _ eq_refl).
  apply collision_freeb_spec. by_eval.
Defined.
