(* ===== verification/Engine.v ===== *)
(** * The CometBFT identity of a network ([noxis-consensus/src/engine.rs])

    The network identity and its encoding, the derivation of the CometBFT
    validator set (addresses, order, protobuf leaves and Merkle root) from the
    Noxis one, the genesis commitment, and the decision context of one block
    with the mapping from Noxis to CometBFT heights.

    [from_noxis_validator_set] indexes into a non-empty slice: its error type is
    an [option], in which [None] is the panic on an empty set.  The proofs show
    that no set built by [ValidatorSet] reaches it. *)

From Stdlib Require Import Strings.Byte Strings.String.
From S2P Require Import Prelude Arrays Reader Sha256 Types RecordChain Consensus ConsensusFacts.

Definition COMET_BFT_NETWORK_IDENTITY_FORMAT_VERSION : Z := 1.
Definition MAX_COMET_BFT_CHAIN_ID_BYTES : Z := 128.
Definition MAX_COMET_BFT_COMPATIBILITY_VERSION_BYTES : Z := 64.
Definition COMET_BFT_V0_38_COMPATIBILITY_VERSION : list byte := bytes_of_string "cometbft-0.38".
Definition COMET_BFT_ED25519_SIGNATURE_SCHEME : Z := 1.
Definition COMET_BFT_MAX_TOTAL_VOTING_POWER : Z := I64_MAX / 8.
Definition COMET_BFT_NETWORK_ID_DOMAIN : list byte :=
  bytes_of_string "NOXIS/COMET-BFT/NETWORK-ID/V1" ++ [x00].
Definition COMET_BFT_GENESIS_ID_DOMAIN : list byte :=
  bytes_of_string "NOXIS/COMET-BFT/GENESIS-ID/V1" ++ [x00].
Definition MIN_ENCODED_LENGTH : Z := 2 + 1 + 1 + 8 + 1 + 1 + 32.
Definition MAX_COMET_BFT_NETWORK_IDENTITY_ENCODED_LENGTH : Z :=
  2 + 1 + MAX_COMET_BFT_CHAIN_ID_BYTES + 8 + 1 + MAX_COMET_BFT_COMPATIBILITY_VERSION_BYTES + 32.

Module EngineIdentityError.
Inductive EngineIdentityError : Type :=
| InvalidChainId
| InvalidInitialHeight (height : Z)
| InvalidCompatibilityVersion
| InvalidNoxisHeight
| InvalidDecisionHeight (height : Z)
| ZeroDecisionBlockHash
| ZeroDecisionNetworkId
| ZeroNextValidatorsHash
| DecisionNetworkMismatch
| DecisionHeightMismatch (expected actual : Z)
| InvalidEncodedLength (length : Z)
| UnsupportedFormatVersion (version : Z)
| NonUtf8Label
| NonCanonicalEncoding
| UnexpectedEnd (offset : Z)
| TrailingBytes (count : Z)
| LengthOverflow
| HeightOverflow
| UnsupportedCometCompatibilityVersion
| UnsupportedCometValidatorSignatureScheme (actual expected : Z)
| InvalidCometEd25519PublicKeyLength (actual expected : Z)
| InvalidCometValidatorVotingPower (power : Z)
| CometValidatorVotingPowerTooLarge (actual maximum : Z)
| CometTotalVotingPowerTooLarge (actual maximum : Z)
| DuplicateCometValidatorAddress
| UnexpectedNextValidatorsHash.
End EngineIdentityError.
Abbreviation EngineIdentityError := EngineIdentityError.EngineIdentityError.

#[global] Instance engine_read_error : ReadError EngineIdentityError := {|
  Reader.UnexpectedEnd := EngineIdentityError.UnexpectedEnd;
  Reader.LengthOverflow := EngineIdentityError.LengthOverflow;
  Reader.TrailingBytes := EngineIdentityError.TrailingBytes
|}.

(** ** Network identity *)

(** A [String] is its UTF-8 bytes. *)
Record CometBftNetworkIdentity : Type := mk_CometBftNetworkIdentity {
  ni_chain_id : list byte;
  ni_initial_height : Z;
  ni_compatibility_version : list byte;
  ni_parameters_sha256 : array 32
}.

#[global] Instance CometBftNetworkIdentity_eq_dec : EqDecision CometBftNetworkIdentity.
Proof. solve_decision. Defined.

(** [u8::is_ascii_graphic]. *)
Definition is_ascii_graphic (b : byte) : bool := (33 <=? Z_of_byte b) && (Z_of_byte b <=? 126).

Definition validate_label (value : list byte) (maximum : Z) (invalid_error : EngineIdentityError)
    : Result EngineIdentityError unit :=
  if is_empty value || (maximum <? len value) || negb (forallb is_ascii_graphic value)
  then Err invalid_error
  else Ok tt.

(** [CometBftNetworkIdentity::new]. *)
Definition identity_new (chain_id : list byte) (initial_height : Z)
    (compatibility_version : list byte) (parameters_sha256 : array 32)
    : Result EngineIdentityError CometBftNetworkIdentity :=
  _ ← validate_label chain_id MAX_COMET_BFT_CHAIN_ID_BYTES EngineIdentityError.InvalidChainId;
  if initial_height <=? 0 then Err (EngineIdentityError.InvalidInitialHeight initial_height)
  else
    _ ← validate_label compatibility_version MAX_COMET_BFT_COMPATIBILITY_VERSION_BYTES
          EngineIdentityError.InvalidCompatibilityVersion;
    Ok (mk_CometBftNetworkIdentity chain_id initial_height compatibility_version
          parameters_sha256).

(** [CometBftNetworkIdentity::encode]; lengths are written as [u8]. *)
Definition identity_encode (self : CometBftNetworkIdentity) : list byte :=
  to_be_bytes 2 COMET_BFT_NETWORK_IDENTITY_FORMAT_VERSION ++
  to_be_bytes 1 (len (ni_chain_id self)) ++ ni_chain_id self ++
  to_be_bytes 8 (ni_initial_height self) ++
  to_be_bytes 1 (len (ni_compatibility_version self)) ++ ni_compatibility_version self ++
  arr (ni_parameters_sha256 self).

(** [CometBftNetworkIdentity::id]. *)
Definition identity_id `{Sha2} (self : CometBftNetworkIdentity) : array 32 :=
  sha256 (COMET_BFT_NETWORK_ID_DOMAIN ++ identity_encode self).

(** [CometBftNetworkIdentity::engine_height_for]. *)
Definition engine_height_for (self : CometBftNetworkIdentity) (noxis_height : Z)
    : Result EngineIdentityError Z :=
  if noxis_height =? 0 then Err EngineIdentityError.InvalidNoxisHeight
  else
    offset ← ok_or (checked_i64 (noxis_height - 1)) EngineIdentityError.HeightOverflow;
    ok_or (checked_i64 (ni_initial_height self + offset)) EngineIdentityError.HeightOverflow.

(** A UTF-8 continuation byte, and the validity check of [str::from_utf8]. *)
Definition utf8_continuation (b : byte) : bool := (128 <=? Z_of_byte b) && (Z_of_byte b <=? 191).

Definition utf8_second (first second : byte) : bool :=
  let f := Z_of_byte first in
  let s := Z_of_byte second in
  if f =? 224 then (160 <=? s) && (s <=? 191)
  else if f =? 237 then (128 <=? s) && (s <=? 159)
  else if f =? 240 then (144 <=? s) && (s <=? 191)
  else if f =? 244 then (128 <=? s) && (s <=? 143)
  else utf8_continuation second.

Fixpoint from_utf8 (bytes : list byte) : bool :=
  match bytes with
  | [] => true
  | b0 :: r0 =>
      let f := Z_of_byte b0 in
      if f <? 128 then from_utf8 r0
      else
        match r0 with
        | [] => false
        | b1 :: r1 =>
            if (194 <=? f) && (f <=? 223) then utf8_continuation b1 && from_utf8 r1
            else
              match r1 with
              | [] => false
              | b2 :: r2 =>
                  if (224 <=? f) && (f <=? 239)
                  then utf8_second b0 b1 && utf8_continuation b2 && from_utf8 r2
                  else
                    match r2 with
                    | [] => false
                    | b3 :: r3 =>
                        (240 <=? f) && (f <=? 244) && utf8_second b0 b1 &&
                        utf8_continuation b2 && utf8_continuation b3 && from_utf8 r3
                    end
              end
        end
  end.

(** [IdentityReader::read_label]. *)
Definition read_label (length : Z) : M Reader EngineIdentityError (list byte) :=
  bytes ← read_exact length;
  lift (if from_utf8 bytes then Ok bytes else Err EngineIdentityError.NonUtf8Label).

Definition read_i64 : M Reader EngineIdentityError Z :=
  a ← read_array 8; mret (as_i64 (from_be_bytes (arr a))).

(** A length byte and the label of that length. *)
Definition read_sized_label : M Reader EngineIdentityError (list byte) :=
  length ← read_u8; read_label length.

Definition decode_comet_bft_network_identity (bytes : list byte)
    : Result EngineIdentityError CometBftNetworkIdentity :=
  if negb ((MIN_ENCODED_LENGTH <=? len bytes)
           && (len bytes <=? MAX_COMET_BFT_NETWORK_IDENTITY_ENCODED_LENGTH))
  then Err (EngineIdentityError.InvalidEncodedLength (len bytes))
  else
    run (
      _ ← read_version COMET_BFT_NETWORK_IDENTITY_FORMAT_VERSION
            EngineIdentityError.UnsupportedFormatVersion;
      chain_id ← read_sized_label;
      initial_height ← read_i64;
      compatibility_version ← read_sized_label;
      parameters_sha256 ← read_array 32;
      _ ← finish;
      lift (
        identity ← identity_new chain_id initial_height compatibility_version parameters_sha256;
        if negb (bool_decide (identity_encode identity = bytes))
        then Err EngineIdentityError.NonCanonicalEncoding
        else Ok identity)) bytes.

(** ** Validators as CometBFT sees them *)

Record CometBftValidator : Type := mk_CometBftValidator {
  cv_noxis_validator_id : ValidatorId;
  cv_address : array 20;
  cv_public_key : array 32;
  cv_voting_power : Z
}.

#[global] Instance CometBftValidator_eq_dec : EqDecision CometBftValidator.
Proof. solve_decision. Defined.

(** [address.copy_from_slice(&digest[..20])]. *)
Definition comet_address `{Sha2} (public_key : array 32) : array 20 :=
  let digest := sha256 (arr public_key) in
  mk_array (take 20 (arr digest))
    (norm_true (length_take_arr 20 _ (eq_trans (length_take (arr digest) 20)
      (f_equal (Nat.min 20) (length_arr digest))))).

(** [CometBftValidator::from_comet_ed25519]. *)
Definition from_comet_ed25519 `{Sha2} (noxis_validator_id : ValidatorId) (public_key : array 32)
    (voting_power : Z) : Result EngineIdentityError CometBftValidator :=
  if (voting_power <=? 0) || (COMET_BFT_MAX_TOTAL_VOTING_POWER <? voting_power)
  then Err (EngineIdentityError.InvalidCometValidatorVotingPower voting_power)
  else Ok (mk_CometBftValidator noxis_validator_id (comet_address public_key) public_key
             voting_power).

(** [CometBftValidator::from_noxis]. *)
Definition from_noxis `{Sha2} (validator : Validator)
    : Result EngineIdentityError CometBftValidator :=
  let key := v_verification_key validator in
  if negb (vk_signature_scheme key =? COMET_BFT_ED25519_SIGNATURE_SCHEME)
  then Err (EngineIdentityError.UnsupportedCometValidatorSignatureScheme
              (vk_signature_scheme key) COMET_BFT_ED25519_SIGNATURE_SCHEME)
  else
    public_key ← ok_or (try_into 32 (vk_bytes key))
      (EngineIdentityError.InvalidCometEd25519PublicKeyLength (len (vk_bytes key)) 32);
    voting_power ← ok_or (checked_i64 (v_voting_power validator))
      (EngineIdentityError.CometValidatorVotingPowerTooLarge (v_voting_power validator)
         COMET_BFT_MAX_TOTAL_VOTING_POWER);
    from_comet_ed25519 (v_id validator) public_key voting_power.

(** [encode_uvarint]: the loop shifts seven bits at a time, so ten rounds
    exhaust a [u64]. *)
Fixpoint encode_uvarint_loop (fuel : nat) (value : Z) : list byte :=
  match fuel with
  | O => [byte_of_Z value]
  | S fuel =>
      if 128 <=? value
      then byte_of_Z (Z.lor (Z.land value 255) 128) :: encode_uvarint_loop fuel (Z.shiftr value 7)
      else [byte_of_Z value]
  end.

Definition encode_uvarint (value : Z) : list byte := encode_uvarint_loop 10 value.

(** [CometBftValidator::comet_hash_bytes]; a valid power is positive, so its
    [as u64] is the identity. *)
Definition comet_hash_bytes (self : CometBftValidator) : list byte :=
  let public_key := [x0a] ++ [byte_of_Z 32] ++ arr (cv_public_key self) in
  [x0a] ++ encode_uvarint (len public_key) ++ public_key ++
  [x10] ++ encode_uvarint (cv_voting_power self).

(** ** The validator-set hash *)

Definition largest_power_of_two_below (value : nat) : nat := Nat.pow 2 (Nat.log2 (value - 1)).

(** [comet_merkle_hashes]; each half is shorter, so the length is enough fuel.
    An empty slice panics. *)
Fixpoint comet_merkle_hashes `{Sha2} (fuel : nat) (values : list (array 32)) : option (array 32) :=
  match fuel, values with
  | S _, [value] => Some value
  | S fuel, _ :: _ =>
      let split := largest_power_of_two_below (length values) in
      left ← comet_merkle_hashes fuel (take split values);
      right ← comet_merkle_hashes fuel (drop split values);
      Some (sha256 ([x01] ++ arr left ++ arr right))
  | _, _ => None
  end.

Definition comet_merkle_root `{Sha2} (values : list (list byte)) : option (array 32) :=
  comet_merkle_hashes (length values) ((fun value => sha256 ([x00] ++ value)) <$> values).

Record CometBftValidatorSet : Type := mk_CometBftValidatorSet {
  cvs_validators : list CometBftValidator;
  cvs_hash : array 32
}.

(** The comparison given to [sort_unstable_by]: power descending, then address
    ascending. *)
Definition comet_le (left right : CometBftValidator) : Prop :=
  cv_voting_power right < cv_voting_power left \/
  cv_voting_power right = cv_voting_power left /\ array_le (cv_address left) (cv_address right).

#[global] Instance comet_le_dec : RelDecision comet_le.
Proof. intros a b. unfold comet_le. apply _. Defined.

(** [windows(2).any(|pair| pair[0].address == pair[1].address)]. *)
Fixpoint adjacent_duplicate (l : list CometBftValidator) : bool :=
  match l with
  | a :: (b :: _) as rest => bool_decide (cv_address a = cv_address b) || adjacent_duplicate rest
  | _ => false
  end.

(** [CometBftValidatorSet::from_noxis_validator_set]. *)
Definition from_noxis_validator_set `{Sha2} (validators : ValidatorSet)
    : Result (option EngineIdentityError) CometBftValidatorSet :=
  mapped ← map_err Some (try_map from_noxis (vs_validators validators));
  total ← map_err Some (try_fold (fun total validator =>
    ok_or (checked_add U64_MAX total (cv_voting_power validator))
      (EngineIdentityError.CometTotalVotingPowerTooLarge U64_MAX COMET_BFT_MAX_TOTAL_VOTING_POWER))
    0 mapped);
  if COMET_BFT_MAX_TOTAL_VOTING_POWER <? total
  then Err (Some (EngineIdentityError.CometTotalVotingPowerTooLarge total
                    COMET_BFT_MAX_TOTAL_VOTING_POWER))
  else
    let mapped := merge_sort comet_le mapped in
    if adjacent_duplicate mapped
    then Err (Some EngineIdentityError.DuplicateCometValidatorAddress)
    else
      hash ← ok_or (comet_merkle_root (comet_hash_bytes <$> mapped)) None;
      Ok (mk_CometBftValidatorSet mapped hash).

(** ** Genesis and decisions *)

Record CometBftGenesis : Type := mk_CometBftGenesis {
  cg_identity : CometBftNetworkIdentity;
  cg_validators : CometBftValidatorSet;
  cg_id : array 32
}.

Definition genesis_preimage (identity : CometBftNetworkIdentity) (hash : array 32) : list byte :=
  COMET_BFT_GENESIS_ID_DOMAIN ++ identity_encode identity ++ arr hash.

(** [CometBftGenesis::from_consensus_config]. *)
Definition from_consensus_config `{Sha2} (identity : CometBftNetworkIdentity)
    (validators : ValidatorSet) : Result (option EngineIdentityError) CometBftGenesis :=
  if negb (bool_decide
      (ni_compatibility_version identity = COMET_BFT_V0_38_COMPATIBILITY_VERSION))
  then Err (Some EngineIdentityError.UnsupportedCometCompatibilityVersion)
  else
    validators ← from_noxis_validator_set validators;
    Ok (mk_CometBftGenesis identity validators
          (sha256 (genesis_preimage identity (cvs_hash validators)))).

Record CometBftDecision : Type := mk_CometBftDecision {
  cd_network_id : array 32;
  cd_height : Z;
  cd_block_hash : array 32;
  cd_next_validators_hash : array 32
}.

#[global] Instance CometBftDecision_eq_dec : EqDecision CometBftDecision.
Proof. solve_decision. Defined.

(** [CometBftDecision::new]. *)
Definition decision_new (genesis : CometBftGenesis) (height : Z)
    (block_hash next_validators_hash : array 32) : Result EngineIdentityError CometBftDecision :=
  if height <=? 0 then Err (EngineIdentityError.InvalidDecisionHeight height)
  else if bool_decide (block_hash = fill 32 x00) then Err EngineIdentityError.ZeroDecisionBlockHash
  else if bool_decide (next_validators_hash = fill 32 x00)
  then Err EngineIdentityError.ZeroNextValidatorsHash
  else Ok (mk_CometBftDecision (cg_id genesis) height block_hash next_validators_hash).

(** [CometBftDecision::from_persisted]. *)
Definition from_persisted (network_id : array 32) (height : Z)
    (block_hash next_validators_hash : array 32) : Result EngineIdentityError CometBftDecision :=
  if bool_decide (network_id = fill 32 x00) then Err EngineIdentityError.ZeroDecisionNetworkId
  else if height <=? 0 then Err (EngineIdentityError.InvalidDecisionHeight height)
  else if bool_decide (block_hash = fill 32 x00) then Err EngineIdentityError.ZeroDecisionBlockHash
  else if bool_decide (next_validators_hash = fill 32 x00)
  then Err EngineIdentityError.ZeroNextValidatorsHash
  else Ok (mk_CometBftDecision network_id height block_hash next_validators_hash).

(** [CometBftDecision::validate_for]. *)
Definition validate_for (self : CometBftDecision) (genesis : CometBftGenesis) (noxis_height : Z)
    : Result EngineIdentityError unit :=
  if negb (bool_decide (cd_network_id self = cg_id genesis))
  then Err EngineIdentityError.DecisionNetworkMismatch
  else
    expected ← engine_height_for (cg_identity genesis) noxis_height;
    if negb (cd_height self =? expected)
    then Err (EngineIdentityError.DecisionHeightMismatch expected (cd_height self))
    else if negb (bool_decide
        (cd_next_validators_hash self = cvs_hash (cg_validators genesis)))
    then Err EngineIdentityError.UnexpectedNextValidatorsHash
    else Ok tt.
