(* ===== verification/EngineFacts.v ===== *)
(** * Facts about the CometBFT identity

    The identity codec is exact, CometBFT's variable-length integers and Merkle
    root determine what they encode, the genesis commitment binds the identity
    and the validator set, and decisions correspond to heights one to one. *)

From Stdlib Require Import Strings.Byte Strings.String.
From S2P Require Import Prelude Arrays Reader Sha256 Types RecordChain Consensus ConsensusFacts Engine.

(** ** Network identity *)

Definition label_wf (maximum : Z) (value : list byte) : Prop :=
  1 <= len value <= maximum /\ Forall (fun b => is_ascii_graphic b = true) value.

Record identity_wf (i : CometBftNetworkIdentity) : Prop := mk_identity_wf {
  identity_chain : label_wf MAX_COMET_BFT_CHAIN_ID_BYTES (ni_chain_id i);
  identity_height : 1 <= ni_initial_height i <= I64_MAX;
  identity_compatibility :
    label_wf MAX_COMET_BFT_COMPATIBILITY_VERSION_BYTES (ni_compatibility_version i)
}.

Lemma validate_label_Ok value maximum e :
  validate_label value maximum e = Ok tt <-> label_wf maximum value.
Proof.
  unfold validate_label, label_wf. rewrite <-forallb_Forall.
  destruct value as [|b value]; cbn [is_empty orb]; [cbn; split; [done|lia]|].
  destruct (Z.ltb_spec maximum (len (b :: value))); [split; [done|lia]|].
  cbn [orb length]. destruct (forallb _ _); cbn [negb]; split; try done; try naive_solver lia.
Qed.

Lemma identity_new_Ok chain height version parameters i :
  height <= I64_MAX ->
  identity_new chain height version parameters = Ok i <->
  identity_wf i /\ i = mk_CometBftNetworkIdentity chain height version parameters.
Proof.
  intros Hh. unfold identity_new. split.
  - intros Hn. inv_ok. destruct_units. apply validate_label_Ok in Hx.
    destruct (Z.leb_spec height 0); [done|]. inv_ok. destruct_units.
    apply validate_label_Ok in Hx0. split; [|done]. split; cbn; [done|lia|done].
  - intros [[Hc Hi Hv] ->]. cbn in *.
    rewrite (proj2 (validate_label_Ok _ _ _) Hc). cbn [mbind result_bind].
    destruct (Z.leb_spec height 0); [lia|].
    by rewrite (proj2 (validate_label_Ok _ _ _) Hv).
Qed.

(** Printable labels are valid UTF-8. *)
Lemma from_utf8_graphic value :
  Forall (fun b => is_ascii_graphic b = true) value -> from_utf8 value = true.
Proof.
  induction 1 as [|b l Hb _ IH]; [done|]. cbn [from_utf8].
  unfold is_ascii_graphic in Hb. zbool.
  destruct (Z.ltb_spec (Z_of_byte b) 128); [done|lia].
Qed.

Lemma as_i64_bytes (a : array 8) : to_be_bytes 8 (as_i64 (from_be_bytes (arr a))) = arr a.
Proof.
  apply from_be_bytes_inj; [by rewrite length_to_be_bytes, length_arr|].
  rewrite from_to_be_bytes. pose proof (from_be_bytes_range (arr a)) as Hr.
  rewrite length_arr in Hr. unfold as_i64. change (256 ^ Z.of_nat 8) with (2 ^ 64) in *.
  rewrite (Z.mod_small (from_be_bytes (arr a))) by lia.
  destruct (_ <=? _); [by rewrite Z.mod_small by lia|].
  rewrite <-(Z.mod_add _ 1) by lia. rewrite Z.mod_small; lia.
Qed.

Lemma as_i64_range z : in_i64 (as_i64 z).
Proof.
  unfold as_i64, in_i64. pose proof (Z.mod_pos_bound z (2 ^ 64)).
  destruct (Z.leb_spec (z mod 2 ^ 64) I64_MAX); lia.
Qed.

Lemma as_i64_id z : 0 <= z <= I64_MAX -> as_i64 z = z.
Proof.
  intros Hz. unfold as_i64. rewrite Z.mod_small by lia. destruct (Z.leb_spec z I64_MAX); lia.
Qed.

Lemma i64_field z :
  0 <= z <= I64_MAX ->
  exists a : array 8, to_be_bytes 8 z = arr a /\ z = as_i64 (from_be_bytes (to_be_bytes 8 z)).
Proof.
  intros Hz. destruct (try_into_is_Some 8 (to_be_bytes 8 z)) as (a & _ & Ha);
    [apply length_to_be_bytes|].
  exists a. split; [done|]. rewrite from_to_be_bytes, Z.mod_small by (cbn; lia).
  by rewrite as_i64_id.
Qed.

Lemma parse_spec_read_i64 :
  parse_spec read_i64 (fun z bs => exists a : array 8, bs = arr a /\ z = as_i64 (from_be_bytes bs)).
Proof.
  eapply parse_spec_proper; [|unfold read_i64; apply parse_spec_map, parse_spec_read_array].
  intros z bs. cbn. naive_solver.
Qed.
#[local] Hint Extern 0 (parse_spec read_i64 _) => eapply parse_spec_read_i64 : grammar.

Lemma parse_spec_read_sized_label :
  parse_spec read_sized_label
    (fun x bs => from_utf8 x = true /\ sized_grammar 1 (fun n => n <= 255) x bs).
Proof.
  eapply parse_spec_proper; [|unfold read_sized_label, read_label; grammar_of].
  intros x bs. cbn. unfold be_grammar, sized_grammar. split.
  - intros H'. grammar_inv. subst. destruct (from_utf8 _) eqn:Hu; simplify_eq.
    rewrite app_nil_r. split; [done|]. split; [cbn in *; lia|done].
  - intros (Hu & Hl & ->). exists (len x), (to_be_bytes 1 (len x)), x.
    split; [split; [cbn; lia|done]|]. split; [|done].
    exists x, x, []. by rewrite Hu, app_nil_r.
Qed.
#[local] Hint Extern 0 (parse_spec read_sized_label _) =>
  eapply parse_spec_read_sized_label : grammar.

Lemma identity_encode_length i :
  identity_wf i ->
  MIN_ENCODED_LENGTH <= len (identity_encode i) <= MAX_COMET_BFT_NETWORK_IDENTITY_ENCODED_LENGTH.
Proof.
  intros [[Hc _] _ [Hv _]]. unfold identity_encode.
  rewrite !length_app, !length_to_be_bytes, length_arr.
  unfold MIN_ENCODED_LENGTH, MAX_COMET_BFT_NETWORK_IDENTITY_ENCODED_LENGTH,
    MAX_COMET_BFT_CHAIN_ID_BYTES, MAX_COMET_BFT_COMPATIBILITY_VERSION_BYTES in *. lia.
Qed.

Lemma decode_identity_Ok bs i :
  decode_comet_bft_network_identity bs = Ok i <-> identity_wf i /\ bs = identity_encode i.
Proof.
  unfold decode_comet_bft_network_identity. split.
  - destruct (_ && _) eqn:Hb; cbn [negb]; [|done]. zbool.
    unfold MAX_COMET_BFT_NETWORK_IDENTITY_ENCODED_LENGTH, MAX_COMET_BFT_CHAIN_ID_BYTES,
      MAX_COMET_BFT_COMPATIBILITY_VERSION_BYTES in *.
    erewrite run_iff; [|grammar_of|lia]. cbv beta. intros H'. grammar_inv.
    inv_ok. case_bool_decide; cbn [negb] in *; [|done]. inv_ok.
    rewrite identity_new_Ok in * by (subst; apply as_i64_range). destruct_and?. done.
  - intros [Hw ->]. pose proof (identity_encode_length i Hw) as Hl.
    destruct (Z.leb_spec MIN_ENCODED_LENGTH (len (identity_encode i))); [|lia].
    destruct (Z.leb_spec (len (identity_encode i)) MAX_COMET_BFT_NETWORK_IDENTITY_ENCODED_LENGTH);
      [|lia]. cbn [andb negb].
    unfold MAX_COMET_BFT_NETWORK_IDENTITY_ENCODED_LENGTH, MAX_COMET_BFT_CHAIN_ID_BYTES,
      MAX_COMET_BFT_COMPATIBILITY_VERSION_BYTES in *.
    erewrite run_iff; [|grammar_of|lia]. cbv beta.
    pose proof Hw as [[Hc Hcg] Hh [Hv Hvg]].
    unfold MAX_COMET_BFT_CHAIN_ID_BYTES, MAX_COMET_BFT_COMPATIBILITY_VERSION_BYTES in *.
    remember (identity_encode i) as bs eqn:Hbs. pose proof Hbs as He. unfold identity_encode in He.
    rewrite <-(app_nil_r (arr (ni_parameters_sha256 i))) in He.
    rewrite (app_assoc (to_be_bytes 1 (len (ni_chain_id i)))),
      (app_assoc (to_be_bytes 1 (len (ni_compatibility_version i)))) in He.
    refine (ex_intro _ tt _). do 2 eexists. split; [reflexivity|]. split; [|exact He].
    refine (ex_intro _ (ni_chain_id i) _). do 2 eexists.
    split; [split; [by apply from_utf8_graphic|split; [|reflexivity]; lia]|].
    split; [|reflexivity]. refine (ex_intro _ (ni_initial_height i) _). do 2 eexists.
    split; [apply i64_field; lia|]. split; [|reflexivity].
    refine (ex_intro _ (ni_compatibility_version i) _). do 2 eexists.
    split; [split; [by apply from_utf8_graphic|split; [|reflexivity]; lia]|].
    split; [|reflexivity]. grammar_split. split; [|done].
    rewrite (proj2 (identity_new_Ok _ (ni_initial_height i) _ _ i ltac:(lia))) by (by destruct i).
    cbn [mbind result_bind]. by rewrite bool_decide_eq_true_2.
Qed.

(** ** Variable-length integers *)

(** The value of a little-endian base-128 encoding. *)
Fixpoint uvarint_value (bs : list byte) : Z :=
  match bs with
  | [] => 0
  | b :: bs => Z_of_byte b mod 128 + 128 * uvarint_value bs
  end.

Lemma continuation_group v : Z_of_byte (byte_of_Z (Z.lor (Z.land v 255) 128)) mod 128 = v mod 128.
Proof.
  assert (E7 : forall x, x mod 128 = Z.land x (Z.ones 7)) by (intros x; by rewrite Z.land_ones).
  assert (E8 : forall x, x mod 256 = Z.land x (Z.ones 8)) by (intros x; by rewrite Z.land_ones).
  rewrite Z_of_byte_of_Z, !E7, E8, <-Z.land_assoc.
  change (Z.land (Z.ones 8) (Z.ones 7)) with (Z.ones 7).
  rewrite Z.land_lor_distr_l, <-Z.land_assoc. change (Z.land 255 (Z.ones 7)) with (Z.ones 7).
  change (Z.land 128 (Z.ones 7)) with 0. apply Z.lor_0_r.
Qed.

Lemma last_group v : 0 <= v < 128 -> Z_of_byte (byte_of_Z v) mod 128 = v.
Proof. intros Hv. rewrite Z_of_byte_of_Z, (Z.mod_small v 256) by lia. apply Z.mod_small. lia. Qed.

Lemma encode_uvarint_loop_value fuel v :
  0 <= v < 2 ^ (7 * Z.of_nat (S fuel)) -> uvarint_value (encode_uvarint_loop fuel v) = v.
Proof.
  revert v. induction fuel as [|fuel IH]; intros v Hv; cbn [encode_uvarint_loop uvarint_value].
  - rewrite last_group by (cbn in Hv; lia). lia.
  - destruct (Z.leb_spec 128 v) as [Hle|Hlt]; cbn [uvarint_value].
    + assert (0 <= v / 128 < 2 ^ (7 * Z.of_nat (S fuel))).
      { replace (7 * Z.of_nat (S (S fuel))) with (7 * Z.of_nat (S fuel) + 7) in Hv by lia.
        rewrite Z.pow_add_r in Hv by lia. change (2 ^ 7) with 128 in Hv.
        split; [apply Z.div_pos; lia|apply Z.div_lt_upper_bound; lia]. }
      rewrite continuation_group, Z.shiftr_div_pow2 by lia. change (2 ^ 7) with 128.
      rewrite IH by done. pose proof (Z.div_mod v 128 ltac:(lia)). lia.
    + rewrite last_group by lia. lia.
Qed.

(** Ten groups of seven bits hold every [u64]. *)
Lemma encode_uvarint_value v : in_range U64_MAX v -> uvarint_value (encode_uvarint v) = v.
Proof. intros [H1 H2]. apply encode_uvarint_loop_value. cbn. lia. Qed.

Lemma encode_uvarint_inj v w :
  in_range U64_MAX v -> in_range U64_MAX w -> encode_uvarint v = encode_uvarint w -> v = w.
Proof. intros Hv Hw He. by rewrite <-(encode_uvarint_value v Hv), He, encode_uvarint_value. Qed.

Lemma comet_hash_bytes_inj v w :
  in_range U64_MAX (cv_voting_power v) -> in_range U64_MAX (cv_voting_power w) ->
  comet_hash_bytes v = comet_hash_bytes w ->
  cv_public_key v = cv_public_key w /\ cv_voting_power v = cv_voting_power w.
Proof.
  intros Hv Hw He. unfold comet_hash_bytes in He.
  rewrite !length_app, !length_arr in He. apply app_inv_head, app_inv_head in He.
  rewrite <-!app_assoc in He. apply app_inv_head, app_inv_head in He.
  apply (prefix_free (cv_public_key v) (cv_public_key w)) in He as [Hk He]; [|done..].
  split; [done|]. apply app_inv_head in He. by apply encode_uvarint_inj in He.
Qed.

(** ** The Merkle root *)

Lemma largest_power_range n :
  (2 <= n)%nat -> (1 <= largest_power_of_two_below n < n)%nat.
Proof.
  intros Hn. unfold largest_power_of_two_below.
  destruct (Nat.log2_spec (n - 1)) as [Hl _]; [lia|].
  pose proof (Nat.pow_nonzero 2 (Nat.log2 (n - 1))). lia.
Qed.

Section Binding.
Context `{Sha2}.

Definition leaf_hash (value : list byte) : array 32 := sha256 ([x00] ++ value).

Lemma merkle_node fuel values :
  (2 <= length values)%nat ->
  comet_merkle_hashes (S fuel) values =
  (left ← comet_merkle_hashes fuel (take (largest_power_of_two_below (length values)) values);
   right ← comet_merkle_hashes fuel (drop (largest_power_of_two_below (length values)) values);
   Some (sha256 ([x01] ++ arr left ++ arr right))).
Proof. destruct values as [|a [|b l]]; cbn [length]; [lia|lia|done]. Qed.

Lemma comet_merkle_total fuel values :
  (1 <= length values <= fuel)%nat -> is_Some (comet_merkle_hashes fuel values).
Proof.
  revert values. induction fuel as [|fuel IH]; intros values Hl; [lia|].
  destruct values as [|a [|b l]]; [cbn in Hl; lia|by eexists|].
  rewrite merkle_node by (cbn; lia). pose proof (largest_power_range (length (a :: b :: l)) ltac:(cbn; lia)).
  set (s := largest_power_of_two_below _) in *.
  destruct (IH (take s (a :: b :: l))) as [x ->]; [rewrite length_take; lia|].
  destruct (IH (drop s (a :: b :: l))) as [y ->]; [rewrite length_drop; lia|].
  by eexists.
Qed.

(** The strings hashed for the root of a list of leaves. *)
Fixpoint merkle_preimages (fuel : nat) (values : list (list byte)) : list (list byte) :=
  match fuel, values with
  | S _, [value] => [[x00] ++ value]
  | S fuel, _ :: _ =>
      let split := largest_power_of_two_below (length values) in
      let side part := from_option arr [] (comet_merkle_hashes fuel (leaf_hash <$> part)) in
      ([x01] ++ side (take split values) ++ side (drop split values)) ::
      merkle_preimages fuel (take split values) ++ merkle_preimages fuel (drop split values)
  | _, _ => []
  end.

(** The root is the hash of a listed string: of a leaf for one value, of a node
    over the roots of two non-empty parts otherwise. *)
Lemma merkle_root_cases fuel values h :
  comet_merkle_hashes fuel (leaf_hash <$> values) = Some h ->
  (exists v, values = [v] /\ h = sha256 ([x00] ++ v) /\
     ([x00] ++ v) ∈ merkle_preimages fuel values) \/
  (exists fuel' v1 v2 l r, values = v1 ++ v2 /\ fuel = S fuel' /\
     comet_merkle_hashes fuel' (leaf_hash <$> v1) = Some l /\
     comet_merkle_hashes fuel' (leaf_hash <$> v2) = Some r /\
     h = sha256 ([x01] ++ arr l ++ arr r) /\
     ([x01] ++ arr l ++ arr r) ∈ merkle_preimages fuel values /\
     merkle_preimages fuel' v1 ++ merkle_preimages fuel' v2 ⊆ merkle_preimages fuel values).
Proof.
  destruct fuel as [|fuel]; [done|]. destruct values as [|a [|b l]]; [done|..].
  - intros [= <-]. left. exists a. split_and!; [done..|]. by apply list_elem_of_singleton.
  - intros Hm. right. rewrite merkle_node, length_fmap, <-fmap_take, <-fmap_drop in Hm by (cbn; lia).
    remember (largest_power_of_two_below (length (a :: b :: l))) as s eqn:Hs.
    destruct (comet_merkle_hashes fuel (leaf_hash <$> take s (a :: b :: l))) as [x|] eqn:Hx; [|done].
    destruct (comet_merkle_hashes fuel (leaf_hash <$> drop s (a :: b :: l))) as [y|] eqn:Hy; [|done].
    cbn in Hm. injection Hm as <-.
    exists fuel, (take s (a :: b :: l)), (drop s (a :: b :: l)), x, y.
    cbn [merkle_preimages]. rewrite <-Hs, Hx, Hy. cbn [from_option].
    split_and!; [by rewrite take_drop|done..|by left|]. intros z Hz. by right.
Qed.

Lemma comet_merkle_inj fuel1 fuel2 xs ys h :
  comet_merkle_hashes fuel1 (leaf_hash <$> xs) = Some h ->
  comet_merkle_hashes fuel2 (leaf_hash <$> ys) = Some h ->
  collision_free (merkle_preimages fuel1 xs ++ merkle_preimages fuel2 ys) -> xs = ys.
Proof.
  revert fuel2 xs ys h. induction fuel1 as [|fuel1 IH]; intros fuel2 xs ys h H1 H2 Hc; [done|].
  apply merkle_root_cases in H1 as [(v & -> & Hv & Iv)|(f & a1 & a2 & l & r & -> & Hf & L & R & Hn & In & Sn)];
  apply merkle_root_cases in H2 as [(w & -> & Hw & Iw)|(g & b1 & b2 & l' & r' & -> & Hg & L' & R' & Hn' & In' & Sn')].
  - rewrite Hv in Hw. apply Hc in Hw; [|apply elem_of_app; tauto..]. by injection Hw as ->.
  - rewrite Hv in Hn'. apply Hc in Hn'; [done|apply elem_of_app; tauto..].
  - rewrite Hn in Hw. apply Hc in Hw; [done|apply elem_of_app; tauto..].
  - injection Hf as <-. rewrite Hn in Hn'. apply Hc in Hn'; [|apply elem_of_app; tauto..].
    injection Hn' as Hn'. apply (prefix_free l l') in Hn' as [<- Hr]; [|done..].
    apply arr_inj in Hr as <-.
    assert (collision_free ((merkle_preimages fuel1 a1 ++ merkle_preimages fuel1 a2) ++
      (merkle_preimages g b1 ++ merkle_preimages g b2))) as Hc'.
    { eapply collision_free_subseteq; [|exact Hc]. intros z [Hz|Hz]%elem_of_app; apply elem_of_app; auto. }
    f_equal; (eapply IH; [done..|]); (eapply collision_free_subseteq; [|exact Hc']);
      intros z [Hz|Hz]%elem_of_app; rewrite !elem_of_app; auto.
Qed.

End Binding.

(** ** The derived validator set *)

Fixpoint comet_power_sum (l : list CometBftValidator) : Z :=
  match l with
  | [] => 0
  | v :: l => cv_voting_power v + comet_power_sum l
  end.

(** The CometBFT view of one Noxis validator. *)
Definition comet_view `{Sha2} (v : Validator) (m : CometBftValidator) : Prop :=
  vk_signature_scheme (v_verification_key v) = COMET_BFT_ED25519_SIGNATURE_SCHEME /\
  arr (cv_public_key m) = vk_bytes (v_verification_key v) /\
  cv_noxis_validator_id m = v_id v /\ cv_voting_power m = v_voting_power v /\
  cv_address m = comet_address (cv_public_key m) /\
  1 <= v_voting_power v <= COMET_BFT_MAX_TOTAL_VOTING_POWER.

Lemma from_noxis_Ok `{Sha2} v m : from_noxis v = Ok m <-> comet_view v m.
Proof.
  unfold from_noxis, from_comet_ed25519, comet_view. cbn zeta.
  destruct (Z.eqb_spec (vk_signature_scheme (v_verification_key v)) COMET_BFT_ED25519_SIGNATURE_SCHEME);
    cbn [negb]; [|split; [done|lia]]. split.
  - intros Hm. inv_ok. apply try_into_Some in Hx. apply checked_i64_Some in Hx0 as [-> _].
    destruct (Z.leb_spec (v_voting_power v) 0); [done|].
    destruct (Z.ltb_spec COMET_BFT_MAX_TOTAL_VOTING_POWER (v_voting_power v)); [done|].
    cbn [orb] in *. simplify_eq. cbn. split_and!; first [done|lia].
  - intros (_ & Hk & Hi & Hp & Ha & Hr). destruct m as [i a k p]. cbn in *. subst.
    rewrite (proj2 (try_into_Some 32 _ k)) by done. cbn [ok_or mbind result_bind].
    unfold COMET_BFT_MAX_TOTAL_VOTING_POWER in *.
    rewrite (proj2 (checked_i64_Some _ (v_voting_power v)))
      by (split; [done|]; unfold in_i64; Z.to_euclidean_division_equations; lia).
    cbn [ok_or mbind result_bind].
    destruct (Z.leb_spec (v_voting_power v) 0); [lia|].
    destruct (Z.ltb_spec (I64_MAX / 8) (v_voting_power v)); [lia|done].
Qed.

Lemma comet_views_powers `{Sha2} vs ms :
  Forall2 comet_view vs ms -> comet_power_sum ms = power_sum vs.
Proof.
  induction 1 as [|v m vs ms (_ & _ & _ & Hp & _) _ IH]; [done|]. cbn. rewrite Hp. lia.
Qed.

Lemma comet_views_nonneg `{Sha2} vs ms :
  Forall2 comet_view vs ms -> Forall (fun m => 0 <= cv_voting_power m) ms.
Proof.
  induction 1 as [|v m vs ms (_ & _ & _ & Hp & _ & Hr) _ IH]; constructor; [lia|done].
Qed.

Lemma comet_total_Ok e ms acc t :
  0 <= acc <= U64_MAX -> Forall (fun m => 0 <= cv_voting_power m) ms ->
  try_fold (fun total m => ok_or (checked_add U64_MAX total (cv_voting_power m))
    (e : EngineIdentityError)) acc ms = Ok t <->
  t = acc + comet_power_sum ms /\ t <= U64_MAX.
Proof.
  intros Ha Hm. revert acc Ha. induction Hm as [|m ms Hp Hm IH]; intros acc Ha; cbn.
  - split; [intros [= <-]; lia|intros [-> _]; f_equal; lia].
  - assert (0 <= comet_power_sum ms) by (clear IH; induction Hm; cbn; lia).
    destruct (checked_add U64_MAX acc (cv_voting_power m)) as [s|] eqn:Hs.
    + apply checked_add_Some in Hs as [-> Hle]. cbn [ok_or mbind result_bind].
      rewrite IH by lia. split; intros []; split; lia.
    + apply checked_add_None in Hs. split; [done|lia].
Qed.

#[global] Instance comet_le_total : Total comet_le.
Proof.
  intros a b. unfold comet_le.
  destruct (Z.lt_trichotomy (cv_voting_power a) (cv_voting_power b)) as [?|[?|?]]; [tauto| |tauto].
  destruct (total array_le (cv_address a) (cv_address b)); [left|right]; right; split; done || lia.
Qed.

#[global] Instance comet_le_trans : Transitive comet_le.
Proof.
  intros a b c. unfold comet_le. intros [?|[? ?]] [?|[? ?]]; [left; lia..|].
  right. split; [lia|]. by transitivity (cv_address b).
Qed.

#[global] Instance comet_power_sum_Permutation : Proper ((≡ₚ) ==> (=)) comet_power_sum.
Proof. induction 1; cbn; lia. Qed.

(** What a derived set holds. *)
Record comet_set_of `{Sha2} (vs : ValidatorSet) (cs : CometBftValidatorSet) : Prop := mk_comet_set_of {
  comet_views : exists ms, Forall2 comet_view (vs_validators vs) ms /\ cvs_validators cs ≡ₚ ms;
  comet_sorted : StronglySorted comet_le (cvs_validators cs);
  comet_adjacent : adjacent_duplicate (cvs_validators cs) = false;
  comet_total : comet_power_sum (cvs_validators cs) = vs_total_voting_power vs;
  comet_bound : vs_total_voting_power vs <= COMET_BFT_MAX_TOTAL_VOTING_POWER;
  comet_root : comet_merkle_root (comet_hash_bytes <$> cvs_validators cs) = Some (cvs_hash cs)
}.

Lemma comet_root_total `{Sha2} (l : list CometBftValidator) :
  (1 <= length l)%nat -> is_Some (comet_merkle_root (comet_hash_bytes <$> l)).
Proof. intros Hl. apply comet_merkle_total. rewrite !length_fmap. lia. Qed.

Lemma from_noxis_set_cases `{Sha2} vs :
  set_wf vs ->
  match from_noxis_validator_set vs with
  | Ok cs => comet_set_of vs cs
  | Err e => is_Some e
  end.
Proof.
  intros Hw. unfold from_noxis_validator_set.
  destruct (try_map from_noxis (vs_validators vs)) as [ms|e] eqn:Hm; cbn [map_err mbind result_bind];
    [|by eexists].
  assert (Hv : Forall2 comet_view (vs_validators vs) ms).
  { apply try_map_Forall2 in Hm. eapply Forall2_impl; [done|]. intros. by apply from_noxis_Ok. }
  destruct (try_fold _ 0 ms) as [t|e] eqn:Ht; cbn [map_err mbind result_bind]; [|by eexists].
  apply comet_total_Ok in Ht as [-> Ht]; [|lia|].
  2: { by eapply comet_views_nonneg. }
  rewrite Z.add_0_l, (comet_views_powers _ _ Hv), <-(set_total vs Hw).
  destruct (Z.ltb_spec COMET_BFT_MAX_TOTAL_VOTING_POWER (vs_total_voting_power vs)); [by eexists|].
  pose proof (merge_sort_Permutation comet_le ms) as Hp.
  destruct (adjacent_duplicate _) eqn:Ha; [by eexists|].
  destruct (comet_root_total (merge_sort comet_le ms)) as [h Hh].
  { rewrite Hp, <-(Forall2_length _ _ _ Hv). pose proof (set_nonempty vs Hw). lia. }
  rewrite Hh. cbn [ok_or mbind result_bind]. split; cbn; try done.
  - by exists ms.
  - apply (StronglySorted_merge_sort comet_le).
  - rewrite Hp, (comet_views_powers _ _ Hv). by rewrite (set_total vs Hw).
Qed.

(** ** Genesis *)

Lemma from_consensus_config_cases `{Sha2} i vs :
  set_wf vs ->
  match from_consensus_config i vs with
  | Ok g =>
      cg_identity g = i /\ comet_set_of vs (cg_validators g) /\
      cg_id g = sha256 (genesis_preimage i (cvs_hash (cg_validators g)))
  | Err e => is_Some e
  end.
Proof.
  intros Hw. unfold from_consensus_config. case_bool_decide; cbn [negb]; [|by eexists].
  pose proof (from_noxis_set_cases vs Hw) as Hs.
  destruct (from_noxis_validator_set vs) as [cs|e]; cbn [mbind result_bind]; [|done]. done.
Qed.

(** The strings hashed for a genesis commitment. *)
Definition genesis_preimages `{Sha2} (g : CometBftGenesis) : list (list byte) :=
  let leaves := comet_hash_bytes <$> cvs_validators (cg_validators g) in
  genesis_preimage (cg_identity g) (cvs_hash (cg_validators g)) ::
  merkle_preimages (length leaves) leaves.

Definition engine_view (v : CometBftValidator) : array 32 * Z := (cv_public_key v, cv_voting_power v).

Lemma engine_views_inj l1 l2 :
  Forall (fun v => in_range U64_MAX (cv_voting_power v)) l1 ->
  Forall (fun v => in_range U64_MAX (cv_voting_power v)) l2 ->
  comet_hash_bytes <$> l1 = comet_hash_bytes <$> l2 -> engine_view <$> l1 = engine_view <$> l2.
Proof.
  intros H1. revert l2. induction H1 as [|v l1 Hv H1 IH]; intros [|w l2] H2 He; try done.
  apply Forall_cons in H2 as [Hw H2].
  pose proof (f_equal (hd []) He) as Hh. pose proof (f_equal (@tail _) He) as Ht. cbn in Hh, Ht.
  apply comet_hash_bytes_inj in Hh as [Hk Hp]; [|done..].
  cbn. f_equal; [unfold engine_view; congruence|by apply IH].
Qed.

Lemma comet_set_powers `{Sha2} vs cs :
  comet_set_of vs cs -> Forall (fun v => in_range U64_MAX (cv_voting_power v)) (cvs_validators cs).
Proof.
  intros [(ms & Hv & Hp) _ _ _ _ _]. rewrite Hp. clear Hp.
  induction Hv as [|v m vl ms (_ & _ & _ & Hpw & _ & Hr) _ IH]; constructor; [|done].
  unfold in_range, COMET_BFT_MAX_TOTAL_VOTING_POWER in *.
  Z.to_euclidean_division_equations. lia.
Qed.

Lemma identity_encode_inj i j :
  identity_wf i -> identity_wf j -> identity_encode i = identity_encode j -> i = j.
Proof.
  intros Hi Hj He. assert (Ok i = Ok j :> Result EngineIdentityError _) as [= ->]; [|done].
  trans (decode_comet_bft_network_identity (identity_encode j)); [symmetry|];
    apply decode_identity_Ok; (split; [done|]); [by symmetry|done].
Qed.

(** ** Properties *)

(** the network-identity codec is exact: a byte string decodes to an identity
    if and only if the identity is valid (printable labels of bounded length, a
    positive initial height) and the string is its encoding. *)
Theorem identity_codec_exact bs i :
  decode_comet_bft_network_identity bs = Ok i <-> identity_wf i /\ bs = identity_encode i.
Proof. apply decode_identity_Ok. Qed.

(** C34: the genesis commitment binds the engine.  Deriving a CometBFT genesis from
    a canonical validator set never panics; and if two derived genesis values
    have the same identifier then, unless the hash collides on the strings
    listed for the two commitments, their network identities agree and their
    validator lists agree in order on keys and voting powers. *)
Theorem genesis_id_binds `{Sha2} i1 i2 vs1 vs2 :
  identity_wf i1 -> identity_wf i2 -> set_wf vs1 -> set_wf vs2 ->
  from_consensus_config i1 vs1 <> Err None /\
  forall g1 g2,
    from_consensus_config i1 vs1 = Ok g1 -> from_consensus_config i2 vs2 = Ok g2 ->
    collision_free (genesis_preimages g1 ++ genesis_preimages g2) ->
    cg_id g1 = cg_id g2 ->
    i1 = i2 /\
    engine_view <$> cvs_validators (cg_validators g1) =
    engine_view <$> cvs_validators (cg_validators g2).
Proof.
  intros I1 I2 W1 W2. pose proof (from_consensus_config_cases i1 vs1 W1) as C1.
  pose proof (from_consensus_config_cases i2 vs2 W2) as C2.
  split. { intros He. rewrite He in C1. by destruct C1. }
  intros g1 g2 G1 G2 Hc He. rewrite G1 in C1. rewrite G2 in C2. destruct C1 as (<- & S1 & H1), C2 as (<- & S2 & H2).
  rewrite H1, H2 in He. unfold genesis_preimages in Hc.
  apply Hc in He; [|apply elem_of_app; left; by left|apply elem_of_app; right; by left].
  apply app_inv_head, app_inj_2 in He as [Hi Hh]; [|by rewrite !length_arr].
  apply identity_encode_inj in Hi; [|done..]. split; [done|]. apply arr_inj in Hh.
  eapply engine_views_inj; [by eapply comet_set_powers..|].
  pose proof (comet_root _ _ S1) as R1. pose proof (comet_root _ _ S2) as R2.
  unfold comet_merkle_root in R1, R2. rewrite <-Hh in R2.
  eapply comet_merkle_inj; [exact R1|exact R2|].
  eapply collision_free_subseteq; [|exact Hc].
  intros z [Hz|Hz]%elem_of_app; apply elem_of_app; [left|right]; by right.
Qed.

Lemma engine_height_for_Ok i h z :
  0 <= h -> 1 <= ni_initial_height i ->
  engine_height_for i h = Ok z <-> 1 <= h /\ z = ni_initial_height i + (h - 1) /\ z <= I64_MAX.
Proof.
  intros Hh Hi. unfold engine_height_for. destruct (Z.eqb_spec h 0); [split; [done|lia]|].
  rewrite bind_Ok. setoid_rewrite ok_or_Ok. setoid_rewrite checked_i64_Some. unfold in_i64. split.
  - intros (o & [-> _] & -> & _ & ?). lia.
  - intros (_ & -> & ?). exists (h - 1). lia.
Qed.

Lemma validate_for_Ok d g h :
  validate_for d g h = Ok tt <->
  cd_network_id d = cg_id g /\ engine_height_for (cg_identity g) h = Ok (cd_height d) /\
  cd_next_validators_hash d = cvs_hash (cg_validators g).
Proof.
  unfold validate_for. case_bool_decide; cbn [negb]; [|naive_solver].
  destruct (engine_height_for _ _) as [z|]; cbn [mbind result_bind]; [|naive_solver].
  destruct (Z.eqb_spec (cd_height d) z); cbn [negb]; [|naive_solver].
  case_bool_decide; cbn [negb]; naive_solver.
Qed.

(** decisions and heights.  A decision is accepted for a Noxis height exactly
    when it names the configured network, the validators are the genesis ones
    and its height is the initial height plus the Noxis height minus one, with
    no [i64] overflow: so a decision fits at most one Noxis height, and two
    decisions for one height differ at most in the engine's block hash. *)
Theorem decision_validate_exact d g h :
  0 <= h -> 1 <= ni_initial_height (cg_identity g) ->
  (validate_for d g h = Ok tt <->
   1 <= h /\ cd_network_id d = cg_id g /\
   cd_next_validators_hash d = cvs_hash (cg_validators g) /\
   cd_height d = ni_initial_height (cg_identity g) + (h - 1) /\ cd_height d <= I64_MAX).
Proof.
  intros Hh Hi. rewrite validate_for_Ok, engine_height_for_Ok by done. naive_solver lia.
Qed.

(** Three validators, the first and the last with one key. *)
Definition twin_validators (k1 k2 : array 32) : list Validator :=
  [mk_Validator (fill 32 x01) 5 (mk_ValidatorVerificationKey 1 (arr k1));
   mk_Validator (fill 32 x02) 4 (mk_ValidatorVerificationKey 1 (arr k2));
   mk_Validator (fill 32 x03) 3 (mk_ValidatorVerificationKey 1 (arr k1))].

Section Twins.
Context `{Sha2} (k1 k2 : array 32).

Definition twin_set : ValidatorSet :=
  mk_ValidatorSet (twin_validators k1 k2) 12
    (domain_hash VALIDATOR_SET_ID_DOMAIN (encode_validator_set_entries (twin_validators k1 k2))).

Definition twin_views : list CometBftValidator :=
  [mk_CometBftValidator (fill 32 x01) (comet_address k1) k1 5;
   mk_CometBftValidator (fill 32 x02) (comet_address k2) k2 4;
   mk_CometBftValidator (fill 32 x03) (comet_address k1) k1 3].

Lemma twin_set_wf : set_wf twin_set.
Proof.
  split; cbn [twin_set vs_validators vs_total_voting_power vs_id].
  - unfold MAX_VALIDATORS. cbn. lia.
  - repeat apply Forall_cons_2; try apply Forall_nil_2; cbn; lia.
  - reflexivity.
  - reflexivity.
  - lia.
  - reflexivity.
Qed.

Lemma twin_set_new : set_new (twin_validators k1 k2) = Ok twin_set.
Proof.
  unfold set_new. change (sort_by_key v_id (twin_validators k1 k2)) with (twin_validators k1 k2).
  apply set_from_canonical_Ok; [|split; [apply twin_set_wf|done]].
  repeat apply Forall_cons_2; try apply Forall_nil_2; unfold in_range; cbn; lia.
Qed.

Lemma twin_mapped : try_map from_noxis (twin_validators k1 k2) = Ok twin_views.
Proof.
  assert (V : forall i p (k : array 32), 1 <= p <= 5 ->
    from_noxis (mk_Validator i p (mk_ValidatorVerificationKey 1 (arr k))) =
    Ok (mk_CometBftValidator i (comet_address k) k p)).
  { intros i p k Hp. apply from_noxis_Ok. unfold comet_view.
    change COMET_BFT_MAX_TOTAL_VOTING_POWER with 1152921504606846975. cbn.
    split_and!; first [reflexivity|lia]. }
  unfold twin_validators, twin_views. cbn [try_map]. by rewrite !V by lia.
Qed.

End Twins.

(** C39: the duplicate-address check compares neighbours after sorting by voting
    power first, so it misses two validators that share a key (hence a CometBFT
    address) when a third one has a power strictly between theirs: the derived
    set is accepted with the address twice. *)
Theorem duplicate_comet_address_accepted `{Sha2} k1 k2 :
  comet_address k1 <> comet_address k2 ->
  exists vs cs,
    set_new (twin_validators k1 k2) = Ok vs /\ from_noxis_validator_set vs = Ok cs /\
    cv_address <$> cvs_validators cs = [comet_address k1; comet_address k2; comet_address k1].
Proof.
  intros Hne. destruct (comet_root_total (twin_views k1 k2)) as [h Hh]; [cbn; lia|].
  exists (twin_set k1 k2), (mk_CometBftValidatorSet (twin_views k1 k2) h).
  split; [apply twin_set_new|]. split; [|done].
  unfold from_noxis_validator_set. change (vs_validators (twin_set k1 k2)) with (twin_validators k1 k2).
  rewrite twin_mapped. cbn [map_err mbind result_bind].
  change (try_fold _ 0 (twin_views k1 k2)) with (Ok 12 : Result EngineIdentityError Z).
  cbn [map_err mbind result_bind].
  change (merge_sort comet_le (twin_views k1 k2)) with (twin_views k1 k2). rewrite Hh.
  change (COMET_BFT_MAX_TOTAL_VOTING_POWER <? 12) with false. cbn [adjacent_duplicate twin_views].
  cbn [cv_address]. rewrite !bool_decide_eq_false_2 by done. done.
Qed.

(** ** Witnesses *)

Lemma duplicate_comet_address_accepted_witness :
  exists vs cs,
    @set_new toy_sha2 (twin_validators (fill 32 x0a) (fill 32 x0b)) = Ok vs /\
    @from_noxis_validator_set toy_sha2 vs = Ok cs /\
    cv_address <$> cvs_validators cs =
    [@comet_address toy_sha2 (fill 32 x0a); @comet_address toy_sha2 (fill 32 x0b);
     @comet_address toy_sha2 (fill 32 x0a)].
Proof.
  apply (@duplicate_comet_address_accepted toy_sha2).
  intros He. apply (f_equal (fun a => bool_decide (a = @comet_address toy_sha2 (fill 32 x0b)))) in He.
  vm_compute in He. discriminate.
Defined.

Definition sample_identity : CometBftNetworkIdentity :=
  mk_CometBftNetworkIdentity (bytes_of_string "noxis-1") 10
    COMET_BFT_V0_38_COMPATIBILITY_VERSION (fill 32 x07).

Lemma sample_identity_wf : identity_wf sample_identity.
Proof.
  refine (proj1 (proj1 (identity_new_Ok (ni_chain_id sample_identity) 10
    COMET_BFT_V0_38_COMPATIBILITY_VERSION (fill 32 x07) _ _) _)); [lia|]. by_eval.
Qed.

(** The genesis of the network of [sample_identity] over [twin_set]. *)
Definition sample_genesis : CometBftGenesis :=
  let vs := @twin_set toy_sha2 (fill 32 x0a) (fill 32 x0b) in
  match @from_consensus_config toy_sha2 sample_identity vs with
  | Ok g => g
  | Err _ => mk_CometBftGenesis sample_identity (mk_CometBftValidatorSet [] (fill 32 x00)) (fill 32 x00)
  end.

Lemma genesis_id_binds_witness :
  @from_consensus_config toy_sha2 sample_identity
    (@twin_set toy_sha2 (fill 32 x0a) (fill 32 x0b)) = Ok sample_genesis /\
  sample_identity = sample_identity /\
  engine_view <$> cvs_validators (cg_validators sample_genesis) =
  engine_view <$> cvs_validators (cg_validators sample_genesis).
Proof.
  assert (G : @from_consensus_config toy_sha2 sample_identity
    (@twin_set toy_sha2 (fill 32 x0a) (fill 32 x0b)) = Ok sample_genesis) by by_eval.
  split; [exact G|].
  refine (proj2 (@genesis_id_binds toy_sha2 sample_identity sample_identity _ _ sample_identity_wf
    sample_identity_wf (@twin_set_wf toy_sha2 (fill 32 x0a) (fill 32 x0b))
    (@twin_set_wf toy_sha2 (fill 32 x0a) (fill 32 x0b))) sample_genesis sample_genesis G G _ eq_refl).
  apply collision_freeb_spec. by_eval.
Defined.

Lemma decision_validate_exact_witness :
  validate_for (mk_CometBftDecision (cg_id sample_genesis) 12 (fill 32 x01)
    (cvs_hash (cg_validators sample_genesis))) sample_genesis 3 = Ok tt.
Proof.
  refine (proj2 (decision_validate_exact _ sample_genesis 3 _ _) _); [lia| |].
  - vm_compute. discriminate.
  - split; [lia|]. split; [reflexivity|]. split; [reflexivity|]. split; vm_compute; congruence.
Defined.
