(* ===== verification/Execution.v ===== *)
(** * Block execution ([noxis-execution])

    The immutable execution context, the committed state, the discardable
    candidate overlay, and the execution of one proposed block: every transaction
    is decoded, validated and applied to the ledger, recorded in the record
    chain, and the resulting header and application hash are sealed. *)

From Stdlib Require Import Strings.Byte Strings.String.
From S2P Require Import Prelude Arrays Reader Sha256 Types Crypto Ledger Codec RecordChain.
From S2P Require Import Consensus Engine.

(** ** Errors ([error.rs]) *)

Module ExecutionError.
Inductive ExecutionError : Type :=
| InvalidValidationContext (error : ValidationContextError)
| ValidationContextAnchorMismatch
| ConsensusAnchorMismatch
| ProofVerifierMismatch (expected actual : ProofVerifierId)
| MintPolicyMismatch (expected actual : MintPolicyId)
| CommittedStateIdMismatch (expected actual : StateId)
| InvalidGenesisExecutionState
| MissingCommittedBlockId
| HeightOverflow
| UnexpectedHeight (expected actual : Z)
| TooManyTransactions (actual maximum : Z)
| ProposalBytesExceeded (actual maximum : Z)
| TransactionBytesExceeded (index actual maximum : Z)
| TransactionCountOverflow
| TransactionCodec (index : Z) (source : CodecError)
| NonCanonicalTransaction (index : Z)
| TransactionCryptoSuiteMismatch (index : Z) (expected actual : CryptoSuite)
| Ledger (index : Z) (source : LedgerError)
| Record (index : Z) (source : RecordError)
| RecordChain (index : Z) (source : RecordError)
| Consensus (source : ConsensusError)
| EngineIdentity (source : EngineIdentityError).
End ExecutionError.
Abbreviation ExecutionError := ExecutionError.ExecutionError.

(** ** Context ([context.rs]) *)

Record ExecutionContext : Type := mk_ExecutionContext {
  ec_chain_anchor : ChainAnchor;
  ec_validation_context : ValidationContext;
  ec_consensus_anchor : ConsensusAnchor;
  ec_consensus_config : ConsensusConfig;
  ec_comet_bft_genesis : CometBftGenesis;
  ec_verifier : ProofVerifier;
  ec_mint_policy : MintPolicy
}.

(** [ExecutionContext::new]. *)
Definition context_new `{Sha2} (chain_anchor : ChainAnchor) (validation_context : ValidationContext)
    (consensus_anchor : ConsensusAnchor) (consensus_config : ConsensusConfig)
    (comet_bft_genesis : CometBftGenesis) (verifier : ProofVerifier) (mint_policy : MintPolicy)
    : Result ExecutionError ExecutionContext :=
  _ ← map_err ExecutionError.InvalidValidationContext (context_validate validation_context);
  if negb (bool_decide (context_id validation_context = ca_validation_context_id chain_anchor))
     || negb (bool_decide
          (vc_proof_verifier_id validation_context = ca_proof_verifier_id chain_anchor))
     || negb (bool_decide (vc_mint_policy_id validation_context = ca_mint_policy_id chain_anchor))
  then Err ExecutionError.ValidationContextAnchorMismatch
  else if negb (bool_decide (anc_genesis_id consensus_anchor = ca_genesis_id chain_anchor))
     || negb (bool_decide
          (anc_validation_context_id consensus_anchor = ca_validation_context_id chain_anchor))
     || negb (bool_decide
          (anc_genesis_state_id consensus_anchor = ca_genesis_state_id chain_anchor))
     || negb (bool_decide (anc_consensus_config_id consensus_anchor = cc_id consensus_config))
     || negb (bool_decide (anc_engine_network_id consensus_anchor = cg_id comet_bft_genesis))
  then Err ExecutionError.ConsensusAnchorMismatch
  else if negb (bool_decide (proof_verifier_id verifier = ca_proof_verifier_id chain_anchor))
  then Err (ExecutionError.ProofVerifierMismatch (ca_proof_verifier_id chain_anchor)
              (proof_verifier_id verifier))
  else if negb (bool_decide (mint_policy_id mint_policy = ca_mint_policy_id chain_anchor))
  then Err (ExecutionError.MintPolicyMismatch (ca_mint_policy_id chain_anchor)
              (mint_policy_id mint_policy))
  else Ok (mk_ExecutionContext chain_anchor validation_context consensus_anchor consensus_config
             comet_bft_genesis verifier mint_policy).

(** ** States ([state.rs], [candidate.rs]) *)

Record CommittedExecutionState : Type := mk_CommittedExecutionState {
  ce_ledger_state : LedgerState;
  ce_record_chain : RecordChain;
  ce_height : Z;
  ce_block_id : option BlockId;
  ce_terminal_record_hash : option RecordHash
}.

Section States.
Context `{Sha2}.

(** [CommittedExecutionState::from_parts]. *)
Definition from_parts (ledger_state : LedgerState) (record_chain : RecordChain) (height : Z)
    (block_id : option BlockId) (terminal_record_hash : option RecordHash) (anchor : ChainAnchor)
    : Result ExecutionError CommittedExecutionState :=
  let computed_state_id := state_id ledger_state (ca_genesis_id anchor) in
  if negb (bool_decide (computed_state_id = current_state_id record_chain))
  then Err (ExecutionError.CommittedStateIdMismatch computed_state_id
              (current_state_id record_chain))
  else if (height =? 0)
          && (bool_decide (is_Some block_id) || bool_decide (is_Some terminal_record_hash))
  then Err ExecutionError.InvalidGenesisExecutionState
  else if (0 <? height) && bool_decide (block_id = None)
  then Err ExecutionError.MissingCommittedBlockId
  else Ok (mk_CommittedExecutionState ledger_state record_chain height block_id
             terminal_record_hash).

(** [CommittedExecutionState::genesis]. *)
Definition execution_genesis (ledger_state : LedgerState) (anchor : ChainAnchor)
    : Result ExecutionError CommittedExecutionState :=
  from_parts ledger_state (chain_new (ca_genesis_state_id anchor)) 0 None None anchor.

End States.

Record CandidateExecutionState : Type := mk_CandidateExecutionState {
  cand_ledger_state : LedgerState;
  cand_record_chain : RecordChain
}.

(** [CandidateExecutionState::from_committed]. *)
Definition from_committed (committed : CommittedExecutionState) : CandidateExecutionState :=
  mk_CandidateExecutionState (ce_ledger_state committed) (ce_record_chain committed).

(** A call on the [&mut LedgerState] or [&mut RecordChain] half of the overlay. *)
Definition on_ledger {E A} (wrap : E -> ExecutionError) (m : M LedgerState E A)
    : M CandidateExecutionState ExecutionError A :=
  fun self =>
    let '(result, ledger) := m (cand_ledger_state self) in
    (map_err wrap result, mk_CandidateExecutionState ledger (cand_record_chain self)).

Definition on_chain {E A} (wrap : E -> ExecutionError) (m : M RecordChain E A)
    : M CandidateExecutionState ExecutionError A :=
  fun self =>
    let '(result, chain) := m (cand_record_chain self) in
    (map_err wrap result, mk_CandidateExecutionState (cand_ledger_state self) chain).

(** ** Execution ([executor.rs]) *)

Record BlockProposal : Type := mk_BlockProposal {
  bp_height : Z;
  bp_comet_decision : CometBftDecision;
  bp_transactions : list (list byte)
}.

Record ExecutionReceipt : Type := mk_ExecutionReceipt {
  er_transaction_intent_id : TransactionIntentId;
  er_record_hash : RecordHash;
  er_resulting_state_id : StateId
}.

#[global] Instance ExecutionReceipt_eq_dec : EqDecision ExecutionReceipt.
Proof. solve_decision. Defined.

Record ExecutedBlock : Type := mk_ExecutedBlock {
  eb_header : BlockHeader;
  eb_comet_decision : CometBftDecision;
  eb_records : list TransactionRecord;
  eb_receipts : list ExecutionReceipt;
  eb_resulting_state : LedgerState;
  eb_resulting_record_chain : RecordChain;
  eb_terminal_record_hash : option RecordHash;
  eb_app_hash : AppHash
}.

(** [ExecutedBlock::into_committed_state]. *)
Definition into_committed_state (self : ExecutedBlock) : CommittedExecutionState :=
  mk_CommittedExecutionState (eb_resulting_state self) (eb_resulting_record_chain self)
    (bh_height (bh_input (eb_header self))) (Some (bh_id (eb_header self)))
    (eb_terminal_record_hash self).

Section Executor.
Context `{Sha2} (context : ExecutionContext).

Definition receipt_of (record : TransactionRecord) : ExecutionReceipt :=
  mk_ExecutionReceipt (rec_transaction_intent_id record) (rec_record_hash record)
    (rec_resulting_state_id record).

(** [apply_transaction]. *)
Definition apply_transaction (bytes : list byte) (index : Z)
    : M CandidateExecutionState ExecutionError (TransactionRecord * ExecutionReceipt) :=
  if MAX_RECORD_TRANSACTION_BYTES <? len bytes
  then lift (Err (ExecutionError.TransactionBytesExceeded index (len bytes)
                    MAX_RECORD_TRANSACTION_BYTES))
  else
    transaction ← lift (map_err (ExecutionError.TransactionCodec index) (decode_transaction bytes));
    canonical ← lift (map_err (ExecutionError.TransactionCodec index)
                        (encode_transaction transaction));
    if negb (bool_decide (canonical = bytes))
    then lift (Err (ExecutionError.NonCanonicalTransaction index))
    else if negb (bool_decide
        (tx_suite transaction = vc_crypto_suite (ec_validation_context context)))
    then lift (Err (ExecutionError.TransactionCryptoSuiteMismatch index
                      (vc_crypto_suite (ec_validation_context context)) (tx_suite transaction)))
    else
      intent_id ← lift (map_err (ExecutionError.TransactionCodec index)
                          (transaction_intent_id transaction));
      let chain_anchor := ec_chain_anchor context in
      self ← get;
      let transition_context :=
        mk_TransactionValidationContext (ca_genesis_id chain_anchor)
          (ca_validation_context_id chain_anchor) intent_id
          (current_state_id (cand_record_chain self)) in
      _ ← on_ledger (ExecutionError.Ledger index)
            (apply transaction (ec_verifier context) (ec_mint_policy context) transition_context);
      self ← get;
      record ← lift (map_err (ExecutionError.Record index)
        (record_new (next_sequence (cand_record_chain self))
           (current_state_id (cand_record_chain self)) canonical
           (state_id (cand_ledger_state self) (ca_genesis_id chain_anchor))));
      _ ← on_chain (ExecutionError.RecordChain index) (chain_apply record);
      mret (record, receipt_of record).

(** [simulate_transaction]. *)
Definition simulate_transaction (transaction_bytes : list byte)
    : M CandidateExecutionState ExecutionError ExecutionReceipt :=
  '(_, receipt) ← apply_transaction transaction_bytes 0;
  mret receipt.

(** The loop of [execute_block] from transaction number [index] on. *)
Fixpoint apply_transactions (index : Z) (transactions : list (list byte))
    : M CandidateExecutionState ExecutionError (list (TransactionRecord * ExecutionReceipt)) :=
  match transactions with
  | [] => mret []
  | bytes :: transactions =>
      item ← apply_transaction bytes index;
      items ← apply_transactions (index + 1) transactions;
      mret (item :: items)
  end.

Definition APP_HASH_DOMAIN : list byte := bytes_of_string "NOXIS/APP-HASH/V1" ++ [x00].

Definition app_hash_preimage (header : BlockHeader) (comet_decision : CometBftDecision)
    (record_sequence : Z) (terminal_record_hash : option RecordHash) : list byte :=
  APP_HASH_DOMAIN ++ arr (ca_genesis_id (ec_chain_anchor context)) ++
  arr (ca_validation_context_id (ec_chain_anchor context)) ++
  arr (cc_id (ec_consensus_config context)) ++ arr (cd_network_id comet_decision) ++
  to_be_bytes 8 (cd_height comet_decision) ++ arr (cd_block_hash comet_decision) ++
  arr (cd_next_validators_hash comet_decision) ++ to_be_bytes 8 (bh_height (bh_input header)) ++
  arr (bh_id header) ++ to_be_bytes 8 record_sequence ++
  match terminal_record_hash with Some hash => [x01] ++ arr hash | None => [x00] end ++
  arr (bh_resulting_state_id (bh_input header)).

(** [application_hash]. *)
Definition application_hash (header : BlockHeader) (comet_decision : CometBftDecision)
    (record_sequence : Z) (terminal_record_hash : option RecordHash) : AppHash :=
  sha256 (app_hash_preimage header comet_decision record_sequence terminal_record_hash).

(** [proposal.transactions.iter().try_fold(0_usize, ..)]. *)
Definition proposal_bytes (transactions : list (list byte)) : Result ExecutionError Z :=
  try_fold (fun total bytes =>
    ok_or (checked_add USIZE_MAX total (len bytes))
      (ExecutionError.ProposalBytesExceeded USIZE_MAX
         (cc_maximum_block_transaction_bytes (ec_consensus_config context))))
    0 transactions.

(** The header of [execute_block]. *)
Definition block_header_input (committed : CommittedExecutionState) (height record_count : Z)
    (resulting_chain : RecordChain) (records_commitment : RecordCommitment) : BlockHeaderInput :=
  let config := ec_consensus_config context in
  mk_BlockHeaderInput (cc_protocol_version config) (ca_genesis_id (ec_chain_anchor context))
    (ca_validation_context_id (ec_chain_anchor context)) (cc_id config)
    (vs_id (cc_validator_set config)) height 0 0 (ce_block_id committed)
    (current_state_id (ce_record_chain committed)) (current_state_id resulting_chain)
    (next_sequence (ce_record_chain committed)) record_count records_commitment.

Definition execute_block (committed : CommittedExecutionState) (proposal : BlockProposal)
    : Result ExecutionError ExecutedBlock :=
  expected_height ← ok_or (checked_add U64_MAX (ce_height committed) 1)
                      ExecutionError.HeightOverflow;
  if negb (bp_height proposal =? expected_height)
  then Err (ExecutionError.UnexpectedHeight expected_height (bp_height proposal))
  else
    _ ← map_err ExecutionError.EngineIdentity
          (validate_for (bp_comet_decision proposal) (ec_comet_bft_genesis context)
             (bp_height proposal));
    let computed_committed_state_id :=
      state_id (ce_ledger_state committed) (ca_genesis_id (ec_chain_anchor context)) in
    if negb (bool_decide
        (computed_committed_state_id = current_state_id (ce_record_chain committed)))
    then Err (ExecutionError.CommittedStateIdMismatch computed_committed_state_id
                (current_state_id (ce_record_chain committed)))
    else
      let config := ec_consensus_config context in
      let transactions := bp_transactions proposal in
      if cc_maximum_block_records config <? len transactions
      then Err (ExecutionError.TooManyTransactions (len transactions)
                  (cc_maximum_block_records config))
      else
        total ← proposal_bytes transactions;
        if cc_maximum_block_transaction_bytes config <? total
        then Err (ExecutionError.ProposalBytesExceeded total
                    (cc_maximum_block_transaction_bytes config))
        else
          record_count ← ok_or (try_from U32_MAX (len transactions))
                           ExecutionError.TransactionCountOverflow;
          match apply_transactions 0 transactions (from_committed committed) with
          | (Err e, _) => Err e
          | (Ok items, candidate) =>
              let records := fst <$> items in
              let receipts := snd <$> items in
              let record_chain := cand_record_chain candidate in
              let record_hashes := rec_record_hash <$> records in
              records_commitment ← map_err ExecutionError.Consensus
                                     (from_record_hashes record_hashes);
              header ← map_err ExecutionError.Consensus
                (header_new (block_header_input committed (bp_height proposal) record_count
                   record_chain records_commitment));
              _ ← map_err ExecutionError.Consensus
                    (validate_header (ec_consensus_anchor context) header config);
              _ ← map_err ExecutionError.Consensus (validate_record_hashes header record_hashes);
              let terminal_record_hash :=
                match last record_hashes with
                | Some hash => Some hash
                | None => ce_terminal_record_hash committed
                end in
              Ok (mk_ExecutedBlock header (bp_comet_decision proposal) records receipts
                    (cand_ledger_state candidate) record_chain terminal_record_hash
                    (application_hash header (bp_comet_decision proposal)
                       (current_sequence record_chain) terminal_record_hash))
          end.

End Executor.
