(* ===== verification/ExecutionFacts.v ===== *)
(** * Facts about block execution

    An abstract step relation for one transaction of a block, the refinement of
    [apply_transaction] and [execute_block] to it, the invariant of committed
    states, and the agreement of simulation with execution. *)

From Stdlib Require Import Strings.Byte Strings.String.
From S2P Require Import Prelude Arrays Reader Sha256 Types Crypto Merkle Ledger LedgerFacts Codec.
From S2P Require Import RecordChain Consensus ConsensusFacts ConsensusCodec Engine EngineFacts Execution.

Section Facts.
Context `{Sha2}.

(** ** Contexts *)

(** What [ExecutionContext::new] establishes. *)
Record context_wf (context : ExecutionContext) : Prop := mk_context_wf {
  ctx_config : config_wf (ec_consensus_config context);
  ctx_version : in_range U16_MAX (cc_protocol_version (ec_consensus_config context));
  ctx_genesis : anc_genesis_id (ec_consensus_anchor context) = ca_genesis_id (ec_chain_anchor context);
  ctx_validation : anc_validation_context_id (ec_consensus_anchor context) =
    ca_validation_context_id (ec_chain_anchor context);
  ctx_state : anc_genesis_state_id (ec_consensus_anchor context) =
    ca_genesis_state_id (ec_chain_anchor context);
  ctx_consensus : anc_consensus_config_id (ec_consensus_anchor context) =
    cc_id (ec_consensus_config context);
  ctx_network : anc_engine_network_id (ec_consensus_anchor context) =
    cg_id (ec_comet_bft_genesis context);
  ctx_suite : context_id (ec_validation_context context) =
    ca_validation_context_id (ec_chain_anchor context);
  ctx_verifier : proof_verifier_id (ec_verifier context) =
    vc_proof_verifier_id (ec_validation_context context);
  ctx_policy : mint_policy_id (ec_mint_policy context) =
    vc_mint_policy_id (ec_validation_context context)
}.

Lemma context_new_wf anchor vc canchor config genesis verifier policy context :
  config_wf config -> in_range U16_MAX (cc_protocol_version config) ->
  context_new anchor vc canchor config genesis verifier policy = Ok context -> context_wf context.
Proof.
  intros Hc Hv. unfold context_new. destruct (context_validate vc); cbn [map_err mbind result_bind]; [|done].
  repeat (case_bool_decide; cbn [negb orb]; [|done]).
  intros [= <-]. split; cbn; congruence || done.
Qed.

(** ** One transaction *)

Context (context : ExecutionContext).

(** The invariant of an overlay. *)
Record candidate_inv (c : CandidateExecutionState) : Prop := mk_candidate_inv {
  cand_ledger : ledger_inv (cand_ledger_state c);
  cand_state : state_id (cand_ledger_state c) (ca_genesis_id (ec_chain_anchor context)) =
    current_state_id (cand_record_chain c);
  cand_sequence : 1 <= next_sequence (cand_record_chain c) <= U64_MAX
}.

Definition transition_context (c : CandidateExecutionState) (intent : TransactionIntentId)
    : TransactionValidationContext :=
  mk_TransactionValidationContext (ca_genesis_id (ec_chain_anchor context))
    (ca_validation_context_id (ec_chain_anchor context)) intent
    (current_state_id (cand_record_chain c)).

(** The abstract effect of one transaction of a block: its bytes are the
    canonical encoding of a transaction of the configured suite, the ledger can
    take its step in the current state, and the next record of the chain links
    the current state to the produced one. *)
Inductive transaction_step (c : CandidateExecutionState) (bytes : list byte)
    : TransactionRecord -> CandidateExecutionState -> Prop :=
| mk_transaction_step tx intent ledger' :
    bytes_of_tx bytes tx ->
    tx_suite tx = vc_crypto_suite (ec_validation_context context) ->
    transaction_intent_id tx = Ok intent ->
    ledger_step (ec_verifier context) (ec_mint_policy context) (transition_context c intent)
      (cand_ledger_state c) tx ledger' ->
    next_sequence (cand_record_chain c) < U64_MAX ->
    let chain := cand_record_chain c in
    let resulting := state_id ledger' (ca_genesis_id (ec_chain_anchor context)) in
    transaction_step c bytes
      (mk_TransactionRecord (next_sequence chain) (current_state_id chain) bytes intent resulting
         (hash_record (next_sequence chain) (current_state_id chain) bytes intent resulting))
      (mk_CandidateExecutionState ledger' (mk_RecordChain (next_sequence chain + 1) resulting)).

(** The errors a transaction can produce. *)
Inductive transaction_error (c : CandidateExecutionState) (bytes : list byte) (index : Z)
    : ExecutionError -> Prop :=
| err_size : MAX_RECORD_TRANSACTION_BYTES < len bytes ->
    transaction_error c bytes index
      (ExecutionError.TransactionBytesExceeded index (len bytes) MAX_RECORD_TRANSACTION_BYTES)
| err_codec e : (forall tx, ~ bytes_of_tx bytes tx) ->
    transaction_error c bytes index (ExecutionError.TransactionCodec index e)
| err_suite tx : bytes_of_tx bytes tx ->
    tx_suite tx <> vc_crypto_suite (ec_validation_context context) ->
    transaction_error c bytes index
      (ExecutionError.TransactionCryptoSuiteMismatch index
         (vc_crypto_suite (ec_validation_context context)) (tx_suite tx))
| err_ledger tx intent e : bytes_of_tx bytes tx -> transaction_intent_id tx = Ok intent ->
    (forall s', ~ ledger_step (ec_verifier context) (ec_mint_policy context)
       (transition_context c intent) (cand_ledger_state c) tx s') ->
    transaction_error c bytes index (ExecutionError.Ledger index e)
| err_sequence : next_sequence (cand_record_chain c) = U64_MAX ->
    transaction_error c bytes index
      (ExecutionError.RecordChain index RecordError.SequenceOverflow).

Lemma tx_range_amount tx : tx_range tx -> tx_amount_wf tx.
Proof. intros [_ Hr]. unfold tx_amount_wf. by destruct (tx_operation tx). Qed.

Lemma on_ledger_run {E A} (wrap : E -> ExecutionError) (m : M LedgerState E A) c :
  on_ledger wrap m c =
  (map_err wrap (m (cand_ledger_state c)).1,
   mk_CandidateExecutionState (m (cand_ledger_state c)).2 (cand_record_chain c)).
Proof. unfold on_ledger. by destruct (m _). Qed.

Lemma on_chain_run {E A} (wrap : E -> ExecutionError) (m : M RecordChain E A) c :
  on_chain wrap m c =
  (map_err wrap (m (cand_record_chain c)).1,
   mk_CandidateExecutionState (cand_ledger_state c) (m (cand_record_chain c)).2).
Proof. unfold on_chain. by destruct (m _). Qed.

(** The record that extends a chain with a transaction. *)
Definition next_record (chain : RecordChain) (bytes : list byte) (intent : TransactionIntentId)
    (resulting : StateId) : TransactionRecord :=
  mk_TransactionRecord (next_sequence chain) (current_state_id chain) bytes intent resulting
    (hash_record (next_sequence chain) (current_state_id chain) bytes intent resulting).

(** A canonical transaction of the configured suite: only the ledger and the
    sequence counter can still refuse it. *)
Lemma apply_transaction_run c bytes index tx intent :
  bytes_of_tx bytes tx -> tx_suite tx = vc_crypto_suite (ec_validation_context context) ->
  transaction_intent_id tx = Ok intent ->
  let chain := cand_record_chain c in
  apply_transaction context bytes index c =
  match apply tx (ec_verifier context) (ec_mint_policy context) (transition_context c intent)
          (cand_ledger_state c) with
  | (Err e, ledger') => (Err (ExecutionError.Ledger index e), mk_CandidateExecutionState ledger' chain)
  | (Ok _, ledger') =>
      let record := next_record chain bytes intent
        (state_id ledger' (ca_genesis_id (ec_chain_anchor context))) in
      if next_sequence chain <? U64_MAX
      then (Ok (record, receipt_of record),
            mk_CandidateExecutionState ledger'
              (mk_RecordChain (next_sequence chain + 1) (rec_resulting_state_id record)))
      else (Err (ExecutionError.RecordChain index RecordError.SequenceOverflow),
            mk_CandidateExecutionState ledger' chain)
  end.
Proof.
  intros Hb Hsuite Hi chain. pose proof (bytes_of_tx_bound _ _ Hb). pose proof Hb as [_ He].
  unfold apply_transaction. destruct (Z.ltb_spec MAX_RECORD_TRANSACTION_BYTES (len bytes)); [lia|].
  msimpl. rewrite (bytes_of_tx_decode _ _ Hb). cbn [map_err]. msimpl. rewrite He. cbn [map_err].
  rewrite bool_decide_eq_true_2 by done. cbn [negb].
  rewrite (bool_decide_eq_true_2 _ Hsuite). cbn [negb]. msimpl. rewrite Hi. cbn [map_err].
  cbv zeta. msimpl. fold (transition_context c intent). rewrite on_ledger_run.
  destruct (apply _ _ _ _ _) as [[[]|e] ledger']; cbn [fst snd map_err]; [|done].
  msimpl. cbn [cand_record_chain cand_ledger_state]. fold chain.
  destruct (record_new_total (next_sequence chain) (current_state_id chain) bytes
    (state_id ledger' (ca_genesis_id (ec_chain_anchor context))) tx Hb) as (i & Hi' & Hn).
  rewrite Hi in Hi'. injection Hi' as <-. rewrite Hn. cbn [map_err]. msimpl.
  fold (next_record chain bytes intent (state_id ledger' (ca_genesis_id (ec_chain_anchor context)))).
  rewrite on_chain_run, chain_apply_cases. cbn [cand_record_chain]. fold chain.
  rewrite decide_True by done.
  destruct (Z.ltb_spec (next_sequence chain) U64_MAX); [rewrite decide_True by done|rewrite decide_False by lia];
    done.
Qed.

(** Every outcome of [apply_transaction]. *)
Lemma apply_transaction_cases c bytes index :
  candidate_inv c ->
  match apply_transaction context bytes index c with
  | (Ok (record, receipt), c') => transaction_step c bytes record c' /\ receipt = receipt_of record
  | (Err e, c') =>
      transaction_error c bytes index e /\
      (c' = c \/ e = ExecutionError.RecordChain index RecordError.SequenceOverflow)
  end.
Proof.
  intros [Hl Hs Hq].
  destruct (Z.lt_ge_cases MAX_RECORD_TRANSACTION_BYTES (len bytes)) as [Hb|Hb].
  { unfold apply_transaction. rewrite (proj2 (Z.ltb_lt _ _) Hb). split; [by constructor|by left]. }
  destruct (decode_transaction bytes) as [tx|e] eqn:Hd.
  2: { unfold apply_transaction. destruct (Z.ltb_spec MAX_RECORD_TRANSACTION_BYTES (len bytes)); [lia|].
       msimpl. rewrite Hd. cbn [map_err]. split; [|by left]. constructor.
       intros tx Ht%bytes_of_tx_decode. congruence. }
  apply decode_bytes_of_tx in Hd; [|unfold MAX_RECORD_TRANSACTION_BYTES in Hb; lia].
  pose proof Hd as [Hr He]. pose proof He as [Hshape _]%encode_transaction_Ok.
  destruct (decide (tx_suite tx = vc_crypto_suite (ec_validation_context context))) as [Hsuite|Hsuite].
  2: { unfold apply_transaction. destruct (Z.ltb_spec MAX_RECORD_TRANSACTION_BYTES (len bytes)); [lia|].
       msimpl. rewrite (bytes_of_tx_decode _ _ Hd). cbn [map_err]. msimpl. rewrite He. cbn [map_err].
       rewrite bool_decide_eq_true_2 by done. cbn [negb].
       rewrite (bool_decide_eq_false_2 _ Hsuite). cbn [negb].
       split; [by constructor|by left]. }
  destruct (record_new_total 0 (current_state_id (cand_record_chain c)) bytes
    (current_state_id (cand_record_chain c)) tx Hd) as (intent & Hi & _).
  rewrite (apply_transaction_run c bytes index tx intent) by done. cbv zeta.
  pose proof (apply_cases (ec_verifier context) (ec_mint_policy context) (cand_ledger_state c) tx
    (transition_context c intent) Hl (tx_range_amount _ Hr)) as Hc.
  destruct (prepare_transition _ _ _ _ _) as [v|e] eqn:Hp.
  - destruct Hc as (ledger' & -> & Hstep).
    destruct (Z.ltb_spec (next_sequence (cand_record_chain c)) U64_MAX).
    + split; [|done]. by econstructor.
    + split; [|by right]. constructor. lia.
  - rewrite Hc. split; [|left; by destruct c]. eapply err_ledger; [done..|].
    intros s' Hst%ledger_step_apply; [|done|by apply tx_range_amount]. congruence.
Qed.

Lemma transaction_step_run c bytes record c' index :
  candidate_inv c -> transaction_step c bytes record c' ->
  apply_transaction context bytes index c = (Ok (record, receipt_of record), c').
Proof.
  intros [Hl Hs Hq] [tx intent ledger' Hb Hsuite Hi Hstep Hn chain resulting].
  rewrite (apply_transaction_run c bytes index tx intent) by done. cbv zeta.
  rewrite (ledger_step_apply _ _ _ _ _ _ Hl (tx_range_amount _ (proj1 Hb)) Hstep).
  by rewrite (proj2 (Z.ltb_lt _ _) Hn).
Qed.

Lemma transaction_step_inv c bytes record c' :
  candidate_inv c -> transaction_step c bytes record c' -> candidate_inv c'.
Proof.
  intros [Hl Hs Hq] [tx intent ledger' Hb Hsuite Hi Hstep Hn chain resulting].
  split; cbn; [|done|unfold chain; lia].
  eapply ledger_step_inv; [exact Hl| |exact Hstep]. apply tx_range_amount, Hb.
Qed.

(** ** The transactions of a block *)

Inductive transactions_run : CandidateExecutionState -> list (list byte) ->
    list TransactionRecord -> CandidateExecutionState -> Prop :=
| run_nil c : transactions_run c [] [] c
| run_cons c bytes record c1 txs records c2 :
    transaction_step c bytes record c1 -> transactions_run c1 txs records c2 ->
    transactions_run c (bytes :: txs) (record :: records) c2.

Definition with_receipts (records : list TransactionRecord)
    : list (TransactionRecord * ExecutionReceipt) :=
  (fun r => (r, receipt_of r)) <$> records.

(** [apply_transactions] is the run of the step relation, or stops at the first
    transaction that has no step. *)
Lemma apply_transactions_cases txs index c :
  candidate_inv c ->
  match apply_transactions context index txs c with
  | (Ok items, c') =>
      exists records, items = with_receipts records /\ transactions_run c txs records c'
  | (Err e, _) =>
      exists before bytes after records c1,
        txs = before ++ bytes :: after /\ transactions_run c before records c1 /\
        transaction_error c1 bytes (index + len before) e
  end.
Proof.
  revert index c. induction txs as [|bytes txs IH]; intros index c Hinv; cbn [apply_transactions].
  { exists []. split; [done|constructor]. }
  msimpl. pose proof (apply_transaction_cases c bytes index Hinv) as Hc.
  destruct (apply_transaction context bytes index c) as [[[record receipt]|e] c1].
  2: { exists [], bytes, txs, [], c. rewrite Z.add_0_r. split_and!; [done|constructor|apply Hc]. }
  destruct Hc as [Hstep ->]. msimpl.
  specialize (IH (index + 1) c1 (transaction_step_inv _ _ _ _ Hinv Hstep)).
  destruct (apply_transactions context (index + 1) txs c1) as [[items|e] c2].
  - destruct IH as (records & -> & Hrun). exists (record :: records). split; [done|].
    by econstructor.
  - destruct IH as (before & b & after & records & c3 & -> & Hrun & He).
    exists (bytes :: before), b, after, (record :: records), c3. split_and!; [done|by econstructor|].
    replace (index + len (bytes :: before)) with (index + 1 + len before); [done|cbn; lia].
Qed.

Lemma transactions_run_apply txs index c records c' :
  candidate_inv c -> transactions_run c txs records c' ->
  apply_transactions context index txs c = (Ok (with_receipts records), c').
Proof.
  intros Hinv Hrun. revert index Hinv.
  induction Hrun as [c|c bytes record c1 txs records c2 Hstep Hrun IH]; intros index Hinv; [done|].
  cbn [apply_transactions]. rewrite M_bind_eq, (transaction_step_run _ _ _ _ index Hinv Hstep).
  rewrite M_bind_eq, IH by by eapply transaction_step_inv. done.
Qed.

(** What a run leaves behind. *)
Lemma transactions_run_facts c txs records c' :
  candidate_inv c -> transactions_run c txs records c' ->
  candidate_inv c' /\ length records = length txs /\ rec_transaction_bytes <$> records = txs /\
  next_sequence (cand_record_chain c') = next_sequence (cand_record_chain c) + len txs /\
  chain_replay (cand_record_chain c) records = Ok (cand_record_chain c').
Proof.
  intros Hinv Hrun. revert Hinv.
  induction Hrun as [c|c bytes record c1 txs records c2 Hstep Hrun IH]; intros Hinv.
  { split_and!; [done..|cbn; lia|done]. }
  destruct IH as (Hi & Hl & Hb & Hn & Hr); [by eapply transaction_step_inv|].
  destruct Hstep as [tx intent ledger' Htx Hsuite Hint Hstep Hlt chain resulting].
  cbn in Hn, Hr |- *. unfold chain in *.
  split_and!; [done|lia|by rewrite Hb|lia|].
  rewrite chain_apply_cases. cbn. rewrite !decide_True by done. done.
Qed.

(** ** Committed states *)

Record committed_inv (st : CommittedExecutionState) : Prop := mk_committed_inv {
  com_candidate : candidate_inv (from_committed st);
  com_height : 0 <= ce_height st <= U64_MAX;
  com_block : ce_block_id st = None <-> ce_height st = 0;
  com_genesis : ce_height st = 0 ->
    current_state_id (ce_record_chain st) = ca_genesis_state_id (ec_chain_anchor context);
  com_terminal : ce_terminal_record_hash st = None <-> next_sequence (ce_record_chain st) = 1
}.

Lemma execution_genesis_inv ledger st :
  ledger_inv ledger -> execution_genesis ledger (ec_chain_anchor context) = Ok st -> committed_inv st.
Proof.
  intros Hl. unfold execution_genesis, from_parts. cbv zeta.
  case_bool_decide as Hid; cbn [negb]; [|done]. cbn. intros [= <-].
  split; cbn; try done; try lia.
Qed.

(** The block [execute_block] seals after a run. *)
Definition sealed_header (st : CommittedExecutionState) (height : Z)
    (records : list TransactionRecord) (chain : RecordChain) : BlockHeader :=
  let input := block_header_input context st height (len records) chain
    (sha256 (records_preimage (rec_record_hash <$> records))) in
  mk_BlockHeader input (domain_hash BLOCK_ID_DOMAIN (encode_block_header_fields input)).

Definition terminal_after (st : CommittedExecutionState) (records : list TransactionRecord)
    : option RecordHash :=
  match last (rec_record_hash <$> records) with
  | Some hash => Some hash
  | None => ce_terminal_record_hash st
  end.

Definition sealed_block (st : CommittedExecutionState) (p : BlockProposal)
    (records : list TransactionRecord) (c : CandidateExecutionState) : ExecutedBlock :=
  let header := sealed_header st (bp_height p) records (cand_record_chain c) in
  mk_ExecutedBlock header (bp_comet_decision p) records (receipt_of <$> records)
    (cand_ledger_state c) (cand_record_chain c) (terminal_after st records)
    (application_hash context header (bp_comet_decision p) (current_sequence (cand_record_chain c))
       (terminal_after st records)).

(** The outcome of [execute_block] with the checks that cannot fail removed. *)
Definition execute_reference (st : CommittedExecutionState) (p : BlockProposal)
    : Result ExecutionError ExecutedBlock :=
  let config := ec_consensus_config context in
  if ce_height st =? U64_MAX then Err ExecutionError.HeightOverflow
  else if negb (bp_height p =? ce_height st + 1)
  then Err (ExecutionError.UnexpectedHeight (ce_height st + 1) (bp_height p))
  else
    _ ← map_err ExecutionError.EngineIdentity
          (validate_for (bp_comet_decision p) (ec_comet_bft_genesis context) (bp_height p));
    if cc_maximum_block_records config <? len (bp_transactions p)
    then Err (ExecutionError.TooManyTransactions (len (bp_transactions p))
                (cc_maximum_block_records config))
    else
      total ← proposal_bytes context (bp_transactions p);
      if cc_maximum_block_transaction_bytes config <? total
      then Err (ExecutionError.ProposalBytesExceeded total (cc_maximum_block_transaction_bytes config))
      else
        match apply_transactions context 0 (bp_transactions p) (from_committed st) with
        | (Err e, _) => Err e
        | (Ok items, c) => Ok (sealed_block st p (fst <$> items) c)
        end.

Lemma with_receipts_fst records : fst <$> with_receipts records = records.
Proof. unfold with_receipts. rewrite <-list_fmap_compose. apply list_fmap_id. Qed.

Lemma with_receipts_snd records : snd <$> with_receipts records = receipt_of <$> records.
Proof. unfold with_receipts. by rewrite <-list_fmap_compose. Qed.

Section Sealing.
Context (Hctx : context_wf context) (st : CommittedExecutionState) (Hst : committed_inv st).

(** Sealing a run never fails. *)
Lemma seal_run txs records c :
  transactions_run (from_committed st) txs records c ->
  ce_height st < U64_MAX -> len txs <= cc_maximum_block_records (ec_consensus_config context) ->
  let hashes := rec_record_hash <$> records in
  let header := sealed_header st (ce_height st + 1) records (cand_record_chain c) in
  from_record_hashes hashes = Ok (sha256 (records_preimage hashes)) /\
  header_new (bh_input header) = Ok header /\
  validate_header (ec_consensus_anchor context) header (ec_consensus_config context) = Ok tt /\
  validate_record_hashes header hashes = Ok tt /\ header_wf header.
Proof.
  intros Hrun Hh Hmax hashes header. pose proof (ctx_config _ Hctx) as Hcfg.
  pose proof (config_records _ Hcfg) as Hrec. destruct Hst as [Hcand Hhr Hblk Hgen _].
  destruct (transactions_run_facts _ _ _ _ Hcand Hrun) as (Hinv' & Hlen & _ & Hseq & _).
  pose proof (cand_sequence _ Hcand) as Hs0. pose proof (cand_sequence _ Hinv') as Hs1.
  cbn in Hs0, Hseq. assert (Hl : len hashes = len txs) by (unfold hashes; rewrite length_fmap; lia).
  pose proof (config_version _ Hcfg) as Hv. pose proof (ctx_version _ Hctx) as Hv16.
  assert (Hw : header_wf header).
  { split; cbn -[domain_hash encode_block_header_fields]; unfold in_range, MAX_BLOCK_RECORDS in *;
      rewrite ?Hlen; try lia; [|done].
    rewrite Hblk. lia. }
  split_and!.
  - unfold from_record_hashes. destruct (Z.ltb_spec MAX_BLOCK_RECORDS (len hashes)); [lia|done].
  - apply header_new_Ok; [|done]. destruct Hw. unfold header_ranges, in_range, MAX_BLOCK_RECORDS in *. lia.
  - apply validate_header_Ok. split; cbn; try done; try by destruct Hctx.
    + rewrite Hlen. lia.
    + intros Hz. rewrite (ctx_state _ Hctx). apply Hgen. lia.
  - apply validate_record_hashes_Ok. cbn -[records_preimage]. fold hashes. rewrite Hl, Hlen.
    split_and!; [done|lia|done].
  - done.
Qed.

(** The checks that [execute_reference] leaves out never fail. *)
Lemma execute_block_eq p : execute_block context st p = execute_reference st p.
Proof.
  destruct Hst as [Hcand Hhr Hblk Hgen Hterm].
  unfold execute_block, execute_reference. cbv zeta.
  destruct (Z.eqb_spec (ce_height st) U64_MAX) as [Hmax|Hmax].
  { rewrite (proj2 (checked_add_None U64_MAX (ce_height st) 1)) by lia. done. }
  rewrite (proj2 (checked_add_Some U64_MAX (ce_height st) 1 (ce_height st + 1))) by lia.
  cbn [ok_or mbind result_bind].
  destruct (Z.eqb_spec (bp_height p) (ce_height st + 1)) as [Hp|]; cbn [negb]; [|done].
  destruct (validate_for _ _ _) as [u|]; cbn [map_err mbind result_bind]; [|done].
  rewrite (bool_decide_eq_true_2 _ (cand_state _ Hcand)). cbn [negb].
  destruct (Z.ltb_spec (cc_maximum_block_records (ec_consensus_config context))
    (len (bp_transactions p))) as [|Hl]; [done|].
  destruct (proposal_bytes _ _) as [total|]; cbn [mbind result_bind]; [|done].
  destruct (_ <? total); [done|].
  pose proof (config_records _ (ctx_config _ Hctx)) as Hr. unfold MAX_BLOCK_RECORDS in Hr.
  rewrite ok_or_try_from by (unfold in_range; lia). cbn [mbind result_bind].
  pose proof (apply_transactions_cases (bp_transactions p) 0 _ Hcand) as Hc.
  destruct (apply_transactions _ _ _ _) as [[items|e] c]; [|done].
  destruct Hc as (records & -> & Hrun). rewrite with_receipts_fst, with_receipts_snd.
  destruct (seal_run _ _ _ Hrun ltac:(lia) Hl) as (Hcommit & Hnew & Hval & Hrecs & _).
  destruct (transactions_run_facts _ _ _ _ Hcand Hrun) as (_ & Hlen & _).
  rewrite Hcommit. cbn [map_err mbind result_bind].
  unfold sealed_block. rewrite Hp. rewrite <-Hlen.
  change (block_header_input context st (ce_height st + 1) (len records) (cand_record_chain c)
    (sha256 (records_preimage (rec_record_hash <$> records))))
    with (bh_input (sealed_header st (ce_height st + 1) records (cand_record_chain c))).
  rewrite Hnew. cbn [map_err mbind result_bind]. rewrite Hval. cbn [map_err mbind result_bind].
  rewrite Hrecs. cbn [map_err mbind result_bind]. done.
Qed.

(** The proposal is one [execute_block] may consider: next height, the engine's
    decision for it, and within the configured limits. *)
Record proposal_ok (p : BlockProposal) : Prop := mk_proposal_ok {
  prop_height : bp_height p = ce_height st + 1 /\ bp_height p <= U64_MAX;
  prop_decision :
    validate_for (bp_comet_decision p) (ec_comet_bft_genesis context) (bp_height p) = Ok tt;
  prop_count : len (bp_transactions p) <= cc_maximum_block_records (ec_consensus_config context);
  prop_bytes : len (concat (bp_transactions p)) <=
    cc_maximum_block_transaction_bytes (ec_consensus_config context)
}.

Lemma proposal_bytes_Ok txs total :
  proposal_bytes context txs = Ok total <-> total = len (concat txs) /\ total <= USIZE_MAX.
Proof.
  unfold proposal_bytes.
  set (e := ExecutionError.ProposalBytesExceeded _ _). clearbody e.
  enough (forall acc, 0 <= acc <= USIZE_MAX ->
    try_fold (fun total bytes => ok_or (checked_add USIZE_MAX total (len bytes)) e) acc txs = Ok total <->
    total = acc + len (concat txs) /\ total <= USIZE_MAX) as Hgen by (rewrite Hgen by lia; done).
  induction txs as [|b txs IH]; intros acc Ha; cbn [try_fold concat].
  - split; [intros [= <-]; cbn; lia|intros [-> _]; cbn; f_equal; lia].
  - rewrite length_app, Nat2Z.inj_add. destruct (checked_add USIZE_MAX acc (len b)) as [s|] eqn:Hs.
    + apply checked_add_Some in Hs as [-> Hs]. cbn [ok_or mbind result_bind].
      rewrite IH by lia. split; intros []; split; lia.
    + apply checked_add_None in Hs. split; [done|lia].
Qed.

Lemma fold_error {A} (g : Z -> A -> option Z) (e : ExecutionError) acc l e' :
  try_fold (fun total x => ok_or (g total x) e) acc l = Err e' -> e' = e.
Proof.
  revert acc. induction l as [|x l IH]; intros acc; cbn; [done|].
  destruct (g acc x); cbn; [apply IH|by intros [= <-]].
Qed.

Lemma execute_block_Ok p b :
  execute_block context st p = Ok b <->
  proposal_ok p /\
  exists records c, transactions_run (from_committed st) (bp_transactions p) records c /\
    b = sealed_block st p records c.
Proof.
  rewrite execute_block_eq. destruct Hst as [Hcand Hhr Hblk Hgen Hterm].
  pose proof (config_bytes _ (ctx_config _ Hctx)) as Hb. unfold MAX_BLOCK_TRANSACTION_BYTES in Hb.
  unfold execute_reference. cbv zeta. split.
  - destruct (Z.eqb_spec (ce_height st) U64_MAX); [done|].
    destruct (Z.eqb_spec (bp_height p) (ce_height st + 1)); cbn [negb]; [|done].
    destruct (validate_for _ _ _) as [[]|] eqn:Hd; cbn [map_err mbind result_bind]; [|done].
    destruct (Z.ltb_spec (cc_maximum_block_records (ec_consensus_config context))
      (len (bp_transactions p))); [done|].
    destruct (proposal_bytes _ _) as [total|] eqn:Ht; cbn [mbind result_bind]; [|done].
    apply proposal_bytes_Ok in Ht as [-> _].
    destruct (Z.ltb_spec (cc_maximum_block_transaction_bytes (ec_consensus_config context))
      (len (concat (bp_transactions p)))); [done|].
    pose proof (apply_transactions_cases (bp_transactions p) 0 _ Hcand) as Hc.
    destruct (apply_transactions _ _ _ _) as [[items|?] c]; [|done].
    destruct Hc as (records & -> & Hrun). rewrite with_receipts_fst. intros [= <-].
    split; [split; done || lia|]. eauto.
  - intros [[[Hp Hmax] Hd Hn Ht] (records & c & Hrun & ->)].
    destruct (Z.eqb_spec (ce_height st) U64_MAX); [lia|].
    rewrite (proj2 (Z.eqb_eq _ _) Hp). cbn [negb]. rewrite Hd. cbn [map_err mbind result_bind].
    destruct (Z.ltb_spec (cc_maximum_block_records (ec_consensus_config context))
      (len (bp_transactions p))); [lia|].
    rewrite (proj2 (proposal_bytes_Ok _ _)) by (split; [reflexivity|lia]). cbn [mbind result_bind].
    destruct (Z.ltb_spec (cc_maximum_block_transaction_bytes (ec_consensus_config context))
      (len (concat (bp_transactions p)))); [lia|].
    by rewrite (transactions_run_apply _ 0 _ _ _ Hcand Hrun), with_receipts_fst.
Qed.

(** The reasons a proposal is refused. *)
Inductive block_error (p : BlockProposal) : ExecutionError -> Prop :=
| blk_height_overflow : ce_height st = U64_MAX -> block_error p ExecutionError.HeightOverflow
| blk_height : bp_height p <> ce_height st + 1 ->
    block_error p (ExecutionError.UnexpectedHeight (ce_height st + 1) (bp_height p))
| blk_engine e :
    validate_for (bp_comet_decision p) (ec_comet_bft_genesis context) (bp_height p) = Err e ->
    block_error p (ExecutionError.EngineIdentity e)
| blk_count : cc_maximum_block_records (ec_consensus_config context) < len (bp_transactions p) ->
    block_error p (ExecutionError.TooManyTransactions (len (bp_transactions p))
      (cc_maximum_block_records (ec_consensus_config context)))
| blk_bytes actual :
    cc_maximum_block_transaction_bytes (ec_consensus_config context) < len (concat (bp_transactions p)) ->
    block_error p (ExecutionError.ProposalBytesExceeded actual
      (cc_maximum_block_transaction_bytes (ec_consensus_config context)))
| blk_transaction before bytes after records c e :
    bp_transactions p = before ++ bytes :: after ->
    transactions_run (from_committed st) before records c ->
    transaction_error c bytes (len before) e -> block_error p e.

Lemma execute_block_Err p e : execute_block context st p = Err e -> block_error p e.
Proof.
  rewrite execute_block_eq. destruct Hst as [Hcand Hhr Hblk Hgen Hterm].
  pose proof (config_bytes _ (ctx_config _ Hctx)) as Hb. unfold MAX_BLOCK_TRANSACTION_BYTES in Hb.
  unfold execute_reference. cbv zeta.
  destruct (Z.eqb_spec (ce_height st) U64_MAX); [intros [= <-]; by constructor|].
  destruct (Z.eqb_spec (bp_height p) (ce_height st + 1)); cbn [negb];
    [|intros [= <-]; by constructor].
  destruct (validate_for _ _ _) as [[]|] eqn:Hd; cbn [map_err mbind result_bind];
    [|intros [= <-]; by constructor].
  destruct (Z.ltb_spec (cc_maximum_block_records (ec_consensus_config context))
    (len (bp_transactions p))); [intros [= <-]; by constructor|].
  destruct (proposal_bytes context (bp_transactions p)) as [total|e'] eqn:Ht; cbn [mbind result_bind].
  2: { intros [= ->]. assert (Hn : forall t, proposal_bytes context (bp_transactions p) <> Ok t) by congruence.
       assert (exists a, e = ExecutionError.ProposalBytesExceeded a
         (cc_maximum_block_transaction_bytes (ec_consensus_config context))) as [a ->].
       { unfold proposal_bytes in Ht. apply fold_error in Ht as ->. eauto. }
       constructor. specialize (Hn (len (concat (bp_transactions p)))).
       rewrite proposal_bytes_Ok in Hn. lia. }
  apply proposal_bytes_Ok in Ht as [-> _].
  destruct (Z.ltb_spec (cc_maximum_block_transaction_bytes (ec_consensus_config context))
    (len (concat (bp_transactions p)))); [intros [= <-]; by constructor|].
  pose proof (apply_transactions_cases (bp_transactions p) 0 _ Hcand) as Hc.
  destruct (apply_transactions _ _ _ _) as [[items|e'] c]; [done|]. intros [= ->].
  destruct Hc as (before & bytes & after & records & c1 & Htx & Hrun & He).
  by eapply blk_transaction.
Qed.

(** ** The next committed state *)

Lemma sealed_block_inv p records c :
  proposal_ok p -> transactions_run (from_committed st) (bp_transactions p) records c ->
  committed_inv (into_committed_state (sealed_block st p records c)).
Proof.
  intros [[Hp Hmax] _ _ _] Hrun. destruct Hst as [Hcand Hhr Hblk Hgen Hterm].
  destruct (transactions_run_facts _ _ _ _ Hcand Hrun) as (Hinv & Hlen & _ & Hseq & _).
  split; cbn -[domain_hash].
  - by destruct c.
  - lia.
  - split; [done|lia].
  - lia.
  - cbn in Hseq. pose proof (cand_sequence _ Hcand) as Hs. cbn in Hs. unfold terminal_after.
    destruct (bp_transactions p) as [|b txs]; destruct records as [|r records]; try done.
    + cbn. rewrite Hterm. cbn in Hseq. split; lia.
    + rewrite fmap_cons, last_cons. cbn in Hseq.
      destruct (last _); (split; [done|lia]).
Qed.

End Sealing.

End Facts.

(** ** Properties *)

(** C3: block execution refines the step relation.  From an invariant state,
    [execute_block] succeeds exactly when the proposal is for the next height,
    carries the engine's decision for it, respects the configured limits, and
    its transactions have a run, one abstract ledger step and one linked record
    each, in order; the result is then the sealed block of that run. *)
Theorem execute_block_refines `{Sha2} context st p b :
  context_wf context -> committed_inv context st ->
  execute_block context st p = Ok b <->
  proposal_ok context st p /\
  exists records c, transactions_run context (from_committed st) (bp_transactions p) records c /\
    b = sealed_block context st p records c.
Proof. intros Hctx Hst. by apply execute_block_Ok. Qed.

(** executing a block preserves the invariant of the committed state, and the
    block extends the chain: its header is well formed, names the committed block
    as parent, starts at the committed state and ends at the identity of the new
    ledger, its record commitment is that of the produced records, whose bytes
    are the proposed ones, and the records replay from the committed chain to the
    new one. *)
Theorem execute_block_extends `{Sha2} context st p b :
  context_wf context -> committed_inv context st -> execute_block context st p = Ok b ->
  committed_inv context (into_committed_state b) /\ header_wf (eb_header b) /\
  bh_height (bh_input (eb_header b)) = ce_height st + 1 /\
  bh_parent_block_id (bh_input (eb_header b)) = ce_block_id st /\
  bh_previous_state_id (bh_input (eb_header b)) =
    state_id (ce_ledger_state st) (ca_genesis_id (ec_chain_anchor context)) /\
  bh_resulting_state_id (bh_input (eb_header b)) =
    state_id (eb_resulting_state b) (ca_genesis_id (ec_chain_anchor context)) /\
  validate_record_hashes (eb_header b) (rec_record_hash <$> eb_records b) = Ok tt /\
  rec_transaction_bytes <$> eb_records b = bp_transactions p /\
  chain_replay (ce_record_chain st) (eb_records b) = Ok (eb_resulting_record_chain b).
Proof.
  intros Hctx Hst (Hp & records & c & Hrun & ->)%execute_block_Ok; [|done..].
  pose proof (com_candidate _ _ Hst) as Hcand. pose proof (cand_state _ _ Hcand) as Hs0.
  destruct (transactions_run_facts _ _ _ _ _ Hcand Hrun) as (Hinv & _ & Hb & _ & Hr).
  pose proof (prop_height _ _ _ Hp) as [Hh Hmax]. pose proof (prop_count _ _ _ Hp) as Hcount.
  destruct (seal_run _ Hctx st Hst _ _ _ Hrun ltac:(lia) Hcount) as (_ & _ & _ & Hv & Hw).
  pose proof (cand_state _ _ Hinv) as Hs1. split; [by apply sealed_block_inv|].
  rewrite <-Hh in Hv, Hw. unfold sealed_block. cbv zeta. cbn [eb_header eb_records eb_resulting_state
    eb_resulting_record_chain sealed_header bh_input block_header_input bh_height bh_parent_block_id
    bh_previous_state_id bh_resulting_state_id].
  split_and!; [exact Hw|exact Hh|reflexivity|by symmetry|by symmetry|exact Hv|exact Hb|exact Hr].
Qed.

(** the only reasons for refusing a block.  From an invariant state an error is
    a wrong or exhausted height, an engine decision for something else, too many
    transactions or bytes, or the first transaction that has no step: too long,
    not a canonical encoding, of another suite, refused by the ledger, or past
    the last sequence number.  In particular the re-encoding check, record
    construction, record linking and header validation never fail. *)
Theorem execute_block_errors `{Sha2} context st p e :
  context_wf context -> committed_inv context st ->
  execute_block context st p = Err e -> block_error context st p e.
Proof. intros Hctx Hst. by apply execute_block_Err. Qed.

(** A sequence of [simulate_transaction] calls on one overlay. *)
Fixpoint simulate_all `{Sha2} (context : ExecutionContext) (txs : list (list byte))
    : M CandidateExecutionState ExecutionError (list ExecutionReceipt) :=
  match txs with
  | [] => mret []
  | bytes :: txs =>
      receipt ← simulate_transaction context bytes;
      receipts ← simulate_all context txs;
      mret (receipt :: receipts)
  end.

Lemma simulate_run `{Sha2} context c bytes :
  simulate_transaction context bytes c =
  match apply_transaction context bytes 0 c with
  | (Ok (_, receipt), c') => (Ok receipt, c')
  | (Err e, c') => (Err e, c')
  end.
Proof.
  unfold simulate_transaction. rewrite M_bind_eq.
  by destruct (apply_transaction _ _ _ _) as [[[? ?]|?] ?].
Qed.

Lemma simulate_all_Ok `{Sha2} context c txs receipts c' :
  candidate_inv context c ->
  simulate_all context txs c = (Ok receipts, c') <->
  exists records, transactions_run context c txs records c' /\ receipts = receipt_of <$> records.
Proof.
  revert c receipts. induction txs as [|bytes txs IH]; intros c receipts Hinv; cbn [simulate_all].
  - split.
    + intros [= <- <-]. exists []. split; [constructor|done].
    + intros (records & Hrun & ->). by inversion Hrun.
  - rewrite M_bind_eq, simulate_run. split.
    + pose proof (apply_transaction_cases context c bytes 0 Hinv) as Hc.
      destruct (apply_transaction _ _ _ _) as [[[record receipt]|e] c1]; [|done].
      destruct Hc as [Hstep ->]. rewrite M_bind_eq.
      destruct (simulate_all context txs c1) as [[rs|e] c2] eqn:Hs; [|done]. intros [= <- <-].
      apply IH in Hs as (records & Hrun & ->); [|by eapply transaction_step_inv].
      exists (record :: records). split; [by econstructor|done].
    + intros (records & Hrun & ->). inversion Hrun as [|? ? record c1 ? records' ? Hstep Hrun']; subst.
      rewrite (transaction_step_run _ _ _ _ _ 0 Hinv Hstep), M_bind_eq.
      rewrite (proj2 (IH c1 (receipt_of <$> records') (transaction_step_inv _ _ _ _ _ Hinv Hstep)));
        [done|eauto].
Qed.

(** simulation agrees with execution.  For a proposal within the limits, the
    transactions simulate successfully one after the other on the overlay of the
    committed state exactly when the block executes, and then the receipts are
    the same and the overlay ends in the block's resulting state and chain. *)
Theorem simulation_agrees `{Sha2} context st p receipts c :
  context_wf context -> committed_inv context st -> proposal_ok context st p ->
  simulate_all context (bp_transactions p) (from_committed st) = (Ok receipts, c) <->
  exists b, execute_block context st p = Ok b /\ eb_receipts b = receipts /\
    c = mk_CandidateExecutionState (eb_resulting_state b) (eb_resulting_record_chain b).
Proof.
  intros Hctx Hst Hp. rewrite simulate_all_Ok by apply Hst. split.
  - intros (records & Hrun & ->). exists (sealed_block context st p records c).
    split; [apply execute_block_Ok; eauto|]. split; [done|]. by destruct c.
  - intros (b & (_ & records & c1 & Hrun & ->)%execute_block_Ok & <- & ->); [|done..].
    exists records. split; [by destruct c1|done].
Qed.

(** ** The application hash *)

Definition terminal_bytes (t : option RecordHash) : list byte :=
  match t with Some hash => [x01] ++ arr hash | None => [x00] end.

#[global] Instance prefix_free_terminal : PrefixFree (fun _ : option RecordHash => True) terminal_bytes.
Proof.
  intros [x|] [y|] r1 r2 _ _ He; cbn in He; try done.
  - injection He as He. by apply (prefix_free x y) in He as [-> ->].
  - injection He as ->. done.
Qed.

Definition decision_range (d : CometBftDecision) : Prop := in_range I64_MAX (cd_height d).

(** the application hash binds the position.  Two application hashes computed
    in one context over well-formed headers, decisions and sequence numbers are
    equal only if the engine decision, the block, the record sequence, the last
    record and the resulting state are all equal, unless the two hashed strings
    collide. *)
Theorem application_hash_binds `{Sha2} context h1 h2 d1 d2 q1 q2 t1 t2 :
  header_wf h1 -> header_wf h2 -> decision_range d1 -> decision_range d2 ->
  in_range U64_MAX q1 -> in_range U64_MAX q2 ->
  collision_free [app_hash_preimage context h1 d1 q1 t1; app_hash_preimage context h2 d2 q2 t2] ->
  application_hash context h1 d1 q1 t1 = application_hash context h2 d2 q2 t2 ->
  d1 = d2 /\ bh_id h1 = bh_id h2 /\ bh_height (bh_input h1) = bh_height (bh_input h2) /\
  q1 = q2 /\ t1 = t2 /\
  bh_resulting_state_id (bh_input h1) = bh_resulting_state_id (bh_input h2).
Proof.
  intros W1 W2 R1 R2 Q1 Q2 Hc He. apply Hc in He; [|set_solver..].
  pose proof (header_height _ W1). pose proof (header_height _ W2).
  unfold decision_range, in_range in *. unfold app_hash_preimage in He.
  do 4 apply app_inv_head in He. destruct d1 as [n1 k1 b1 v1], d2 as [n2 k2 b2 v2]. cbn in R1, R2, He.
  apply (prefix_free n1 n2) in He as [-> He]; [|done..].
  apply (prefix_free k1 k2) in He as [-> He]; [|cbn; lia..].
  apply (prefix_free b1 b2) in He as [-> He]; [|done..].
  apply (prefix_free v1 v2) in He as [-> He]; [|done..].
  apply (prefix_free (bh_height (bh_input h1)) (bh_height (bh_input h2))) in He as [-> He]; [|cbn; lia..].
  apply (prefix_free (bh_id h1) (bh_id h2)) in He as [-> He]; [|done..].
  apply (prefix_free q1 q2) in He as [-> He]; [|cbn; lia..].
  apply (prefix_free (enc := terminal_bytes) t1 t2) in He as [-> He]; [|done..].
  apply arr_inj in He as ->. done.
Qed.

(** ** Witnesses *)

Section Samples.
#[local] Existing Instance toy_sha2.

Definition exec_set : ValidatorSet := twin_set (fill 32 x0a) (fill 32 x0b).

Definition exec_config : ConsensusConfig :=
  mk_ConsensusConfig 1 10 4096 1 exec_set
    (domain_hash CONFIG_ID_DOMAIN (encode_config_fields 1 10 4096 1 exec_set)).

Definition exec_validation : ValidationContext :=
  mk_ValidationContext RESEARCH_V1 (id_of x31) (id_of x32).

Definition exec_anchor : ChainAnchor :=
  mk_ChainAnchor (id_of x01) (context_id exec_validation) (id_of x31) (id_of x32)
    (state_id sample_ledger (id_of x01)).

Definition exec_context : ExecutionContext :=
  mk_ExecutionContext exec_anchor exec_validation
    (mk_ConsensusAnchor (id_of x01) (context_id exec_validation) (cc_id exec_config)
       (state_id sample_ledger (id_of x01)) (cg_id sample_genesis))
    exec_config sample_genesis accept_verifier accept_policy.

Lemma exec_context_wf : context_wf exec_context.
Proof.
  assert (Hc : config_wf exec_config).
  { apply (config_new_Ok 1 10 4096 1 exec_set); [apply twin_set_wf|lia|lia|]. by_eval. }
  split; try reflexivity; [exact Hc|]. vm_compute. split; discriminate.
Qed.

Definition exec_state : CommittedExecutionState :=
  mk_CommittedExecutionState sample_ledger (chain_new (state_id sample_ledger (id_of x01))) 0 None None.

Lemma exec_state_inv : committed_inv exec_context exec_state.
Proof.
  apply (execution_genesis_inv exec_context sample_ledger); [exact sample_ledger_inv|].
  unfold execution_genesis, from_parts. cbv zeta. rewrite bool_decide_eq_true_2 by reflexivity.
  reflexivity.
Qed.

Definition exec_mint : Transaction :=
  mk_Transaction (id_of x41) RESEARCH_V1
    (OpMint (mk_Mint (id_of x0a) (mk_Amount 700) [id_of x51] [x07])).

Definition exec_decision (block : byte) : CometBftDecision :=
  mk_CometBftDecision (cg_id sample_genesis) 10 (fill 32 block) (cvs_hash (cg_validators sample_genesis)).

(** One block with one mint. *)
Definition exec_proposal : BlockProposal :=
  mk_BlockProposal 1 (exec_decision x01) [transaction_bytes exec_mint].

Lemma exec_block_ok : is_ok (execute_block exec_context exec_state exec_proposal) = true.
Proof. by_eval. Qed.

Lemma exec_executes : exists b, execute_block exec_context exec_state exec_proposal = Ok b.
Proof.
  pose proof exec_block_ok as Hok.
  destruct (execute_block exec_context exec_state exec_proposal) as [b|e]; [by exists b|done].
Qed.

End Samples.

Lemma execute_block_refines_witness :
  @proposal_ok exec_context exec_state exec_proposal.
Proof.
  destruct exec_executes as [b Hb].
  exact (proj1 (proj1 (@execute_block_refines toy_sha2 exec_context exec_state exec_proposal b
    exec_context_wf exec_state_inv) Hb)).
Defined.

Lemma execute_block_extends_witness :
  exists b, @execute_block toy_sha2 exec_context exec_state exec_proposal = Ok b /\
    @committed_inv toy_sha2 exec_context (into_committed_state b).
Proof.
  destruct exec_executes as [b Hb]. exists b. split; [exact Hb|].
  exact (proj1 (@execute_block_extends toy_sha2 exec_context exec_state exec_proposal b
    exec_context_wf exec_state_inv Hb)).
Defined.

(** The same block proposed for the wrong height. *)
Lemma execute_block_errors_witness :
  @block_error toy_sha2 exec_context exec_state (mk_BlockProposal 2 (exec_decision x01) [])
    (ExecutionError.UnexpectedHeight 1 2).
Proof.
  apply (@execute_block_errors toy_sha2 exec_context exec_state _ _ exec_context_wf exec_state_inv).
  reflexivity.
Defined.

Lemma simulation_agrees_witness :
  exists receipts c,
    @simulate_all toy_sha2 exec_context (bp_transactions exec_proposal) (from_committed exec_state) =
    (Ok receipts, c).
Proof.
  destruct exec_executes as [b Hb].
  assert (Hp : @proposal_ok exec_context exec_state exec_proposal)
    by apply (proj1 (@execute_block_Ok toy_sha2 exec_context exec_context_wf exec_state exec_state_inv
         exec_proposal b) Hb).
  exists (eb_receipts b), (mk_CandidateExecutionState (eb_resulting_state b) (eb_resulting_record_chain b)).
  apply (proj2 (@simulation_agrees toy_sha2 exec_context exec_state exec_proposal _ _ exec_context_wf
    exec_state_inv Hp)).
  exists b. split; [exact Hb|]. split; reflexivity.
Defined.

Lemma application_hash_binds_witness :
  exec_decision x01 = exec_decision x01 /\ bh_id committed_header = bh_id committed_header.
Proof.
  assert (W : @header_wf toy_sha2 committed_header).
  { refine (proj1 (proj1 (@header_new_Ok toy_sha2 committed_input committed_header _) _)).
    - vm_compute. repeat split; discriminate.
    - by_eval. }
  assert (D : decision_range (exec_decision x01)) by (vm_compute; split; discriminate).
  assert (Q : in_range U64_MAX 9) by (vm_compute; split; discriminate).
  destruct (@application_hash_binds toy_sha2 exec_context committed_header committed_header
    (exec_decision x01) (exec_decision x01) 9 9 None None W W D D Q Q) as (E1 & E2 & _).
  - apply collision_freeb_spec. by_eval.
  - reflexivity.
  - exact (conj E1 E2).
Defined.
