(* ===== verification/Frames.v ===== *)
(** * Framed append-only logs

    Every durable log of [noxis-storage] is a file of frames with one layout:
    four magic bytes, a version, the length of the payload, the payload and its
    CRC-32.  The logs differ in their constants, their error constructors and the
    decoder of a payload, which [FrameFormat] collects; the scanning loop, the
    encoder of a frame, the append and the removal of a partial tail are written
    once.  A file is its contents, a list of bytes. *)

From Stdlib Require Import Strings.Byte Strings.String.
From S2P Require Import Prelude Arrays Crc32.

Definition FRAME_HEADER_LENGTH : Z := 10.
Definition FRAME_CHECKSUM_LENGTH : Z := 4.

(** The constants of a log with errors [E] and entries [B], its error
    constructors, the check of the magic bytes of a frame at an offset and the
    decoder of the payload of a frame at an offset. *)
Record FrameFormat (E B : Type) : Type := mk_FrameFormat {
  ff_magic : list byte;
  ff_version : Z;
  ff_maximum : Z;
  ff_check_magic : Z -> list byte -> Result E unit;
  ff_invalid_magic : Z -> E;
  ff_unsupported_version : Z -> Z -> E;
  ff_too_large : Z -> Z -> Z -> E;
  ff_checksum_mismatch : Z -> Z -> Z -> E;
  ff_offset_overflow : E;
  ff_decode : Z -> list byte -> Result E B
}.
Arguments ff_magic {E B} f.
Arguments ff_version {E B} f.
Arguments ff_maximum {E B} f.
Arguments ff_check_magic {E B} f offset magic.
Arguments ff_invalid_magic {E B} f offset.
Arguments ff_unsupported_version {E B} f offset version.
Arguments ff_too_large {E B} f offset actual maximum.
Arguments ff_checksum_mismatch {E B} f offset expected actual.
Arguments ff_offset_overflow {E B} f.
Arguments ff_decode {E B} f offset payload.

(** [magic != MAGIC], the check of every log but the state-record log. *)
Definition exact_magic {E} (expected : list byte) (invalid : Z -> E) (offset : Z) (magic : list byte)
    : Result E unit :=
  if negb (bool_decide (magic = expected)) then Err (invalid offset) else Ok tt.

(** A final partial frame: where it starts and what is missing of it. *)
Record IncompleteTail : Type := mk_IncompleteTail {
  tail_valid_prefix_length : Z;
  tail_section : string
}.

#[global] Instance IncompleteTail_eq_dec : EqDecision IncompleteTail.
Proof. solve_decision. Defined.

(** What a scan finds at an offset: a plausible partial frame, or a complete
    entry and the length of its frame. *)
Inductive FrameRead (B : Type) : Type :=
| PartialFrame (section : string)
| CompleteFrame (entry : B) (frame_length : Z).
Arguments PartialFrame {B} section.
Arguments CompleteFrame {B} entry frame_length.

(** [file[start..start + n]], for reads inside the file. *)
Definition slice (start n : Z) (l : list byte) : list byte :=
  take (Z.to_nat n) (drop (Z.to_nat start) l).

(** How far an append gets: the first call that fails, if any.  A failing
    [write_all] may have written any number of bytes. *)
Inductive AppendIo : Type :=
| AppendSucceeds
| SeekFails
| WriteFails (written : nat)
| FlushFails
| SyncFails
| DirectorySyncFails.

Inductive TruncateIo : Type := TruncateSucceeds | SetLenFails | SyncAllFails.

(** The errors of the calls an append makes; a log that does not synchronise its
    directory makes no such call. *)
Record AppendCalls (E : Type) : Type := mk_AppendCalls {
  call_seek : E;
  call_write : E;
  call_flush : E;
  call_sync : E;
  call_directory : option E
}.
Arguments mk_AppendCalls {E} call_seek call_write call_flush call_sync call_directory.
Arguments call_seek {E} a.
Arguments call_write {E} a.
Arguments call_flush {E} a.
Arguments call_sync {E} a.
Arguments call_directory {E} a.

(** The calls of an append on the file, with their failures; the offset of the
    new frame is where the file ended. *)
Definition write_frame {E} (calls : AppendCalls E) (io : AppendIo) (frame : list byte)
    : M (list byte) E Z :=
  fun file =>
    match io with
    | AppendSucceeds => (Ok (len file), file ++ frame)
    | SeekFails => (Err (call_seek calls), file)
    | WriteFails written => (Err (call_write calls), file ++ take written frame)
    | FlushFails => (Err (call_flush calls), file ++ frame)
    | SyncFails => (Err (call_sync calls), file ++ frame)
    | DirectorySyncFails =>
        match call_directory calls with
        | Some error => (Err error, file ++ frame)
        | None => (Ok (len file), file ++ frame)
        end
    end.

Section Format.
Context {E B : Type} (F : FrameFormat E B).

Definition frame_header (payload_length : Z) : list byte :=
  ff_magic F ++ to_be_bytes 2 (ff_version F) ++ to_be_bytes 4 payload_length.

Definition frame_bytes (payload : list byte) : list byte :=
  frame_header (len payload) ++ payload ++ to_be_bytes 4 (crc32 payload).

(** [encode_frame] of each log. *)
Definition encode_frame (payload : list byte) : Result E (list byte) :=
  payload_length ← ok_or (try_from U32_MAX (len payload)) (ff_too_large F 0 U32_MAX (ff_maximum F));
  if ff_maximum F <? payload_length
  then Err (ff_too_large F 0 payload_length (ff_maximum F))
  else Ok (frame_bytes payload).

(** The loop body of [scan_frames] up to the decoded entry; [bytes] is the file
    from [offset] on. *)
Definition read_frame (offset : Z) (bytes : list byte) : Result E (FrameRead B) :=
  let remaining := len bytes in
  if remaining <? 4
  then if bool_decide (take (length bytes) (ff_magic F) = bytes)
       then Ok (PartialFrame "frame magic")
       else Err (ff_invalid_magic F offset)
  else
    _ ← ff_check_magic F offset (slice 0 4 bytes);
    if remaining <? FRAME_HEADER_LENGTH
    then Ok (PartialFrame "frame header")
    else
      let version := from_be_bytes (slice 4 2 bytes) in
      if negb (version =? ff_version F)
      then Err (ff_unsupported_version F offset version)
      else
        let payload_length := from_be_bytes (slice 6 4 bytes) in
        if ff_maximum F <? payload_length
        then Err (ff_too_large F offset payload_length (ff_maximum F))
        else
          value ← ok_or (checked_add U64_MAX FRAME_HEADER_LENGTH payload_length)
                    (ff_offset_overflow F);
          frame_length ← ok_or (checked_add U64_MAX value FRAME_CHECKSUM_LENGTH)
                           (ff_offset_overflow F);
          if remaining <? frame_length
          then Ok (PartialFrame
                 (if remaining <? FRAME_HEADER_LENGTH + payload_length
                  then "frame payload" else "frame checksum"))
          else
            let payload := slice FRAME_HEADER_LENGTH payload_length bytes in
            let expected := from_be_bytes (slice (FRAME_HEADER_LENGTH + payload_length) 4 bytes) in
            let actual := crc32 payload in
            if negb (actual =? expected)
            then Err (ff_checksum_mismatch F offset expected actual)
            else
              entry ← ff_decode F offset payload;
              Ok (CompleteFrame entry frame_length).

(** The [while offset < file_length] loop; [visitor] is what the loop does with
    an entry, [inject] how the error of a frame becomes the error of the loop. *)
Fixpoint stream_loop {S E'} (inject : E -> E') (fuel : nat) (visitor : B -> M S E' unit) (offset : Z)
    (bytes : list byte) : M S E' (option IncompleteTail) :=
  match fuel with
  | O => mret None
  | Datatypes.S fuel =>
      if bool_decide (bytes = []) then mret None
      else
        frame ← lift (map_err inject (read_frame offset bytes));
        match frame with
        | PartialFrame section => mret (Some (mk_IncompleteTail offset section))
        | CompleteFrame entry frame_length =>
            _ ← visitor entry;
            next ← lift (ok_or (checked_add U64_MAX offset frame_length)
                           (inject (ff_offset_overflow F)));
            stream_loop inject fuel visitor next (drop (Z.to_nat frame_length) bytes)
        end
  end.

(** Each iteration consumes a frame of at least fourteen bytes, so the length of
    the file bounds the number of iterations. *)
Definition stream_frames {S E'} (inject : E -> E') (visitor : B -> M S E' unit) (file : list byte)
    : M S E' (option IncompleteTail) :=
  stream_loop inject (length file) visitor 0 file.

(** The scan of a log: the loop with a visitor that checks and pushes an entry.
    [check] sees the entries so far and the new one. *)
Definition scan_checked (check : list B -> B -> Result E unit) (file : list byte)
    : Result E (list B * option IncompleteTail) :=
  let '(r, entries) :=
    stream_frames id
      (fun entry => entries ← get; _ ← lift (check entries entry); put (entries ++ [entry])) file [] in
  tail ← r; Ok (entries, tail).

Definition scan_frames : list byte -> Result E (list B * option IncompleteTail) :=
  scan_checked (fun _ _ => Ok tt).

(** The file must end with a complete frame. *)
Definition validate_file (truncated : Z -> string -> E) (file : list byte) : Result E unit :=
  found ← scan_frames file;
  match found.2 with
  | None => Ok tt
  | Some tail => Err (truncated (tail_valid_prefix_length tail) (tail_section tail))
  end.

(** The calls that cut a file, with their failures, after which [finish] looks
    at what is left. *)
Definition cut_file (set_len sync_all : E) (finish : list byte -> Result E unit) (io : TruncateIo)
    (length : Z) : M (list byte) E unit :=
  file ← get;
  let shortened := take (Z.to_nat length) file in
  match io with
  | SetLenFails => lift (Err set_len)
  | SyncAllFails => _ ← put shortened; lift (Err sync_all)
  | TruncateSucceeds => _ ← put shortened; lift (finish shortened)
  end.

(** [truncate_verified_incomplete_tail] after the scan that found [actual]. *)
Definition truncate_found (changed set_len sync_all : E) (finish : list byte -> Result E unit)
    (io : TruncateIo) (expected : IncompleteTail) (actual : option IncompleteTail)
    : M (list byte) E unit :=
  match actual with
  | None => lift (Err changed)
  | Some actual =>
      if negb (bool_decide (actual = expected))
      then lift (Err changed)
      else cut_file set_len sync_all finish io (tail_valid_prefix_length actual)
  end.

End Format.
