(* ===== verification/FramesFacts.v ===== *)
(** * Facts about framed logs

    For any log whose decoder of payloads is exact: a file is scanned to a list
    of entries exactly when it is the concatenation of their frames, every torn
    append is recognised as a partial tail, cutting that tail restores the file,
    and a payload with a changed byte is reported.  The logs of the storage crate
    instantiate [FrameLaws]. *)

From Stdlib Require Import Strings.Byte Strings.String.
From S2P Require Import Prelude Arrays Crc32 Frames.

(** ** What a log promises

    A log stores values of type [A]: their payload, when they can be stored, and
    the entry a value is read back as from a given offset. *)
Record EntryKind (A B : Type) : Type := mk_EntryKind {
  ek_payload : A -> list byte;
  ek_ok : A -> Prop;
  ek_at : Z -> A -> B
}.
Arguments mk_EntryKind {A B} ek_payload ek_ok ek_at.
Arguments ek_payload {A B} e a.
Arguments ek_ok {A B} e a.
Arguments ek_at {A B} e offset a.

Class FrameLaws {E A B} (F : FrameFormat E B) (K : EntryKind A B) : Prop := {
  frame_magic_length : length (ff_magic F) = 4%nat;
  frame_version_range : 0 <= ff_version F < 2 ^ 16;
  frame_maximum_range : 0 <= ff_maximum F <= U32_MAX;
  frame_check_magic : forall offset magic,
    ff_check_magic F offset magic = Ok tt <-> magic = ff_magic F;
  frame_decode : forall offset payload entry,
    len payload <= ff_maximum F ->
    ff_decode F offset payload = Ok entry <->
    exists a, ek_ok K a /\ payload = ek_payload K a /\ entry = ek_at K offset a
}.

Lemma exact_magic_Ok {E} expected (invalid : Z -> E) offset magic :
  exact_magic expected invalid offset magic = Ok tt <-> magic = expected.
Proof. unfold exact_magic. by case_bool_decide. Qed.

Lemma slice_app start n (a b c : list byte) :
  len a = start -> len b = n -> slice start n (a ++ b ++ c) = b.
Proof.
  intros <- <-. unfold slice. rewrite !Nat2Z.id, drop_app_length. by rewrite take_app_length.
Qed.

Lemma slice_length start n l :
  0 <= start -> 0 <= n -> start + n <= len l -> length (slice start n l) = Z.to_nat n.
Proof. intros. unfold slice. rewrite length_take, length_drop. lia. Qed.

Lemma slice_split start n (l : list byte) :
  0 <= start -> 0 <= n -> drop (Z.to_nat start) l = slice start n l ++ drop (Z.to_nat (start + n)) l.
Proof.
  intros. unfold slice. rewrite Z2Nat.inj_add, <-drop_drop by lia. by rewrite take_drop.
Qed.

(** Every outcome of writing a frame: the file grows by a prefix of the frame,
    by all of it when the calls succeed. *)
Lemma write_frame_cases {E} (calls : AppendCalls E) io frame file r file' :
  write_frame calls io frame file = (r, file') ->
  exists k, (k <= length frame)%nat /\ file' = file ++ take k frame /\
    match r with
    | Ok offset => offset = len file /\ k = length frame
    | Err e => e ∈ [call_seek calls; call_write calls; call_flush calls; call_sync calls] ++
                   option_list (call_directory calls)
    end.
Proof.
  assert (Hall : file ++ frame = file ++ take (length frame) frame) by by rewrite firstn_all.
  destruct io as [| |written| | |]; cbn [write_frame].
  - intros [= <- <-]. by exists (length frame).
  - intros [= <- <-]. exists O. rewrite app_nil_r. split_and!; [lia|done|]. set_solver.
  - intros [= <- <-]. exists (Nat.min written (length frame)).
    split_and!; [lia| |set_solver].
    f_equal. destruct (decide (written <= length frame)%nat); [by rewrite Nat.min_l|].
    rewrite Nat.min_r by lia. by rewrite !take_ge by lia.
  - intros [= <- <-]. exists (length frame). split_and!; [done..|set_solver].
  - intros [= <- <-]. exists (length frame). split_and!; [done..|set_solver].
  - destruct (call_directory calls) as [e|]; intros [= <- <-]; exists (length frame);
      split_and!; first [done|set_solver].
Qed.

Section Laws.
Context {E A B : Type} (F : FrameFormat E B) (K : EntryKind A B) `{!FrameLaws F K}.

(** ** Frames *)

Definition storable (a : A) : Prop := ek_ok K a /\ len (ek_payload K a) <= ff_maximum F.

Definition entry_frame (a : A) : list byte := frame_bytes F (ek_payload K a).

Lemma length_frame_header n : len (frame_header F n) = 10.
Proof.
  unfold frame_header. rewrite !length_app, !length_to_be_bytes, (frame_magic_length (F := F) (K := K)).
  done.
Qed.

Lemma length_frame_bytes p : len (frame_bytes F p) = 14 + len p.
Proof.
  unfold frame_bytes. rewrite !length_app, length_to_be_bytes.
  pose proof (length_frame_header (len p)). lia.
Qed.

(** What [read_frame] does after a valid header: it waits for the announced
    number of bytes, checks the checksum and decodes the payload. *)
Lemma read_frame_header offset n body :
  0 <= n <= ff_maximum F ->
  read_frame F offset (frame_header F n ++ body) =
  if len body <? n + 4
  then Ok (PartialFrame (if len body <? n then "frame payload" else "frame checksum"))
  else
    let payload := take (Z.to_nat n) body in
    let expected := from_be_bytes (slice n 4 body) in
    if negb (crc32 payload =? expected)
    then Err (ff_checksum_mismatch F offset expected (crc32 payload))
    else
      entry ← ff_decode F offset payload;
      Ok (CompleteFrame entry (14 + n)).
Proof.
  intros Hn. pose proof (length_frame_header n) as Hh.
  pose proof (frame_magic_length (F := F) (K := K)) as Hml.
  pose proof (frame_version_range (F := F) (K := K)) as Hvr.
  pose proof (frame_maximum_range (F := F) (K := K)) as Hmr.
  assert (U32_MAX = 2 ^ 32 - 1 /\ 2 ^ 32 < U64_MAX) as [Hu32 Hu64] by done.
  assert (Hlen : len (frame_header F n ++ body) = 10 + len body) by (rewrite length_app; lia).
  unfold read_frame. cbv zeta. rewrite Hlen.
  destruct (Z.ltb_spec (10 + len body) 4); [lia|].
  assert (slice 0 4 (frame_header F n ++ body) = ff_magic F) as ->.
  { unfold frame_header. rewrite <-!app_assoc. apply (slice_app 0 4 []); [done|lia]. }
  rewrite (proj2 (frame_check_magic (F := F) (K := K) offset _) eq_refl). cbn [mbind result_bind].
  unfold FRAME_HEADER_LENGTH. destruct (Z.ltb_spec (10 + len body) 10); [lia|].
  assert (slice 4 2 (frame_header F n ++ body) = to_be_bytes 2 (ff_version F)) as ->.
  { unfold frame_header. rewrite <-!app_assoc. by apply slice_app; [lia|rewrite length_to_be_bytes]. }
  assert (slice 6 4 (frame_header F n ++ body) = to_be_bytes 4 n) as ->.
  { unfold frame_header. rewrite <-!app_assoc. rewrite (app_assoc (ff_magic F)).
    apply slice_app; rewrite ?length_app, !length_to_be_bytes; lia. }
  rewrite !from_to_be_bytes, Z.mod_small, (Z.mod_small n) by (cbn; lia).
  rewrite Z.eqb_refl. cbn [negb]. destruct (Z.ltb_spec (ff_maximum F) n); [lia|].
  rewrite (proj2 (checked_add_Some U64_MAX 10 n (10 + n))) by lia. cbn [ok_or mbind result_bind].
  unfold FRAME_CHECKSUM_LENGTH.
  rewrite (proj2 (checked_add_Some U64_MAX (10 + n) 4 (14 + n))) by lia. cbn [ok_or mbind result_bind].
  destruct (Z.ltb_spec (10 + len body) (14 + n)), (Z.ltb_spec (len body) (n + 4)); try lia.
  { destruct (Z.ltb_spec (10 + len body) (10 + n)), (Z.ltb_spec (len body) n); done || lia. }
  assert (forall k m, 0 <= k -> slice (10 + k) m (frame_header F n ++ body) = slice k m body) as Hs.
  { intros k m Hk. unfold slice. f_equal. rewrite drop_app_ge by lia. f_equal. lia. }
  rewrite (Hs n 4) by lia.
  assert (slice 10 n (frame_header F n ++ body) = slice 0 n body) as -> by (apply (Hs 0); lia). done.
Qed.

(** A complete frame is read back, whatever follows it. *)
Lemma read_frame_complete offset a tl :
  storable a ->
  read_frame F offset (entry_frame a ++ tl) =
  Ok (CompleteFrame (ek_at K offset a) (len (entry_frame a))).
Proof.
  intros [Hw Hl]. unfold entry_frame. rewrite length_frame_bytes.
  assert (Hd : ff_decode F offset (ek_payload K a) = Ok (ek_at K offset a)).
  { apply (frame_decode (F := F) (K := K)); [done|]. by exists a. }
  revert Hd Hl. generalize (ek_payload K a). intros p Hd Hl.
  unfold frame_bytes. rewrite <-!app_assoc, read_frame_header by lia. cbv zeta.
  rewrite !length_app, length_to_be_bytes.
  destruct (Z.ltb_spec (Z.of_nat (length p + (4 + length tl))) (len p + 4)); [lia|].
  rewrite Nat2Z.id, take_app_length.
  rewrite (slice_app (len p) 4 p) by (done || by rewrite length_to_be_bytes).
  rewrite from_to_be_bytes, Z.mod_small by apply crc32_range. rewrite Z.eqb_refl. cbn [negb].
  by rewrite Hd.
Qed.

(** A proper non-empty prefix of a frame is recognised as a partial one. *)
Lemma read_frame_torn offset p k :
  len p <= ff_maximum F -> 0 < Z.of_nat k < len (frame_bytes F p) ->
  exists section, read_frame F offset (take k (frame_bytes F p)) = Ok (PartialFrame section).
Proof.
  intros Hl Hk. rewrite length_frame_bytes in Hk.
  pose proof (frame_magic_length (F := F) (K := K)) as Hml.
  destruct (decide (10 <= Z.of_nat k)) as [Hge|Hlt].
  - pose proof (length_frame_header (len p)) as Hh.
    unfold frame_bytes. rewrite take_app_ge by lia. rewrite read_frame_header by lia.
    rewrite length_take, length_app, length_to_be_bytes.
    rewrite (proj2 (Z.ltb_lt _ _)) by lia. by eexists.
  - assert (Hlen : length (take k (frame_bytes F p)) = k).
    { rewrite length_take. pose proof (length_frame_bytes p). lia. }
    assert (Hpre : forall j, (j <= 4)%nat -> take j (frame_bytes F p) = take j (ff_magic F)).
    { intros j Hj. unfold frame_bytes, frame_header. rewrite <-!app_assoc.
      by rewrite take_app_le by lia. }
    unfold read_frame. cbv zeta. rewrite Hlen. unfold FRAME_HEADER_LENGTH.
    destruct (Z.ltb_spec (Z.of_nat k) 4).
    + rewrite bool_decide_eq_true_2 by (symmetry; apply Hpre; lia). by eexists.
    + rewrite (proj2 (frame_check_magic (F := F) (K := K) offset _)).
      2: { change (take 4 (take k (frame_bytes F p)) = ff_magic F).
           rewrite take_take, Nat.min_l, Hpre by lia. by rewrite take_ge by lia. }
      cbn [mbind result_bind]. rewrite (proj2 (Z.ltb_lt (Z.of_nat k) 10)) by lia. by eexists.
Qed.

Lemma frame_header_intro bytes :
  10 <= len bytes -> slice 0 4 bytes = ff_magic F ->
  from_be_bytes (slice 4 2 bytes) = ff_version F ->
  bytes = frame_header F (from_be_bytes (slice 6 4 bytes)) ++ drop 10 bytes.
Proof.
  intros Hl Hm Hv. unfold frame_header. rewrite <-Hv, <-Hm at 1.
  rewrite !to_from_be_bytes by by rewrite slice_length by lia.
  rewrite <-!app_assoc. etransitivity; [exact (slice_split 0 4 bytes ltac:(lia) ltac:(lia))|].
  f_equal. etransitivity; [exact (slice_split 4 2 bytes ltac:(lia) ltac:(lia))|]. f_equal.
  exact (slice_split 6 4 bytes ltac:(lia) ltac:(lia)).
Qed.

(** What is read as a complete frame is the frame of a storable value. *)
Lemma read_frame_sound offset bytes entry n :
  read_frame F offset bytes = Ok (CompleteFrame entry n) ->
  exists a, storable a /\ entry = ek_at K offset a /\ n = len (entry_frame a) /\
    bytes = entry_frame a ++ drop (Z.to_nat n) bytes.
Proof.
  intros Hr. pose proof Hr as Hr'. unfold read_frame in Hr'. cbv zeta in Hr'.
  destruct (Z.ltb_spec (len bytes) 4); [by case_bool_decide|].
  destruct (ff_check_magic F offset (slice 0 4 bytes)) as [[]|] eqn:Hm; cbn [mbind result_bind] in Hr'; [|done].
  apply (frame_check_magic (F := F) (K := K)) in Hm.
  unfold FRAME_HEADER_LENGTH in Hr'. destruct (Z.ltb_spec (len bytes) 10); [done|].
  destruct (Z.eqb_spec (from_be_bytes (slice 4 2 bytes)) (ff_version F)) as [Hv|]; cbn [negb] in Hr';
    [|done].
  destruct (Z.ltb_spec (ff_maximum F) (from_be_bytes (slice 6 4 bytes))) as [|Hmax]; [done|].
  clear Hr'. pose proof (frame_header_intro bytes ltac:(lia) Hm Hv) as Hb.
  pose proof (from_be_bytes_range (slice 6 4 bytes)) as [Hn _].
  set (m := from_be_bytes (slice 6 4 bytes)) in *. clearbody m.
  remember (drop 10 bytes) as body. clear Heqbody Hm Hv.
  rewrite Hb, read_frame_header in Hr by lia. cbv zeta in Hr.
  destruct (Z.ltb_spec (len body) (m + 4)); [done|].
  destruct (Z.eqb_spec (crc32 (take (Z.to_nat m) body)) (from_be_bytes (slice m 4 body))) as [Hc|];
    cbn [negb] in Hr; [|done].
  assert (Hlen : len (take (Z.to_nat m) body) = m) by (rewrite length_take; lia).
  destruct (ff_decode _ _ _) as [e|] eqn:Hd; cbn [mbind result_bind] in Hr; [|done].
  injection Hr as <- <-. apply (frame_decode (F := F) (K := K)) in Hd as (a & Hw & Hp & ->); [|lia].
  exists a. unfold storable, entry_frame. rewrite <-Hp, length_frame_bytes, Hlen. unfold frame_bytes.
  rewrite Hlen. split_and!; [done|lia|done..|].
  rewrite Hb. rewrite Hc, to_from_be_bytes by by rewrite slice_length by lia.
  rewrite <-!app_assoc. f_equal. pose proof (length_frame_header m) as Hh.
  rewrite drop_app_ge by lia.
  replace (Z.to_nat (14 + m) - length (frame_header F m))%nat with (Z.to_nat (m + 4)) by lia.
  rewrite <-(slice_split m 4 body) by lia. by rewrite take_drop.
Qed.

Lemma encode_frame_storable a : storable a -> encode_frame F (ek_payload K a) = Ok (entry_frame a).
Proof.
  intros [_ Hl]. unfold encode_frame, entry_frame. revert Hl. generalize (ek_payload K a). intros p Hl.
  pose proof (frame_maximum_range (F := F) (K := K)).
  rewrite ok_or_try_from by (unfold in_range; lia). cbn [mbind result_bind].
  by rewrite (proj2 (Z.ltb_ge _ _) Hl).
Qed.

(** ** Files of frames *)

(** The file that holds a list of values, and the entries read back from it, each
    with the offset of its frame. *)
Definition log_bytes (values : list A) : list byte := concat (entry_frame <$> values).

Fixpoint placed (offset : Z) (values : list A) : list B :=
  match values with
  | [] => []
  | a :: values => ek_at K offset a :: placed (offset + len (entry_frame a)) values
  end.

Lemma log_bytes_app l1 l2 : log_bytes (l1 ++ l2) = log_bytes l1 ++ log_bytes l2.
Proof. unfold log_bytes. by rewrite fmap_app, concat_app. Qed.

Lemma log_bytes_snoc values a : log_bytes (values ++ [a]) = log_bytes values ++ entry_frame a.
Proof. rewrite log_bytes_app. f_equal. unfold log_bytes. cbn. by rewrite app_nil_r. Qed.

Lemma placed_app offset l1 l2 :
  placed offset (l1 ++ l2) = placed offset l1 ++ placed (offset + len (log_bytes l1)) l2.
Proof.
  revert offset. induction l1 as [|a l1 IH]; intros offset; cbn [app placed].
  - by rewrite Z.add_0_r.
  - change (log_bytes (a :: l1)) with (entry_frame a ++ log_bytes l1).
    by rewrite IH, length_app, Nat2Z.inj_add, Z.add_assoc.
Qed.

Lemma length_entry_frame a : len (entry_frame a) = 14 + len (ek_payload K a).
Proof. apply length_frame_bytes. Qed.

(** The visitor on each entry in turn, stopping at its first error. *)
Fixpoint visit_all {S E'} (visitor : B -> M S E' unit) (entries : list B) : M S E' unit :=
  match entries with
  | [] => mret tt
  | b :: entries => _ ← visitor b; visit_all visitor entries
  end.

Section Streams.
Context {S E' : Type} (inject : E -> E') (visitor : B -> M S E' unit).

Lemma visit_all_app l1 l2 s :
  visit_all visitor (l1 ++ l2) s =
  match visit_all visitor l1 s with
  | (Ok _, s') => visit_all visitor l2 s'
  | (Err e, s') => (Err e, s')
  end.
Proof.
  revert s. induction l1 as [|b l1 IH]; intros s; [done|]. cbn [visit_all app].
  rewrite !M_bind_eq. destruct (visitor b s) as [[]]; [apply IH|done].
Qed.

Lemma read_frame_shrinks offset bytes b n :
  read_frame F offset bytes = Ok (CompleteFrame b n) ->
  14 <= n /\ (length (drop (Z.to_nat n) bytes) < length bytes)%nat.
Proof.
  intros (a & _ & _ & -> & Hb)%read_frame_sound. pose proof (length_entry_frame a) as Hl.
  split; [lia|]. rewrite Hb at 2. rewrite length_app. lia.
Qed.

(** The loop over the frames, without fuel. *)
Lemma stream_loop_eq fuel offset bytes s :
  (length bytes <= fuel)%nat ->
  stream_loop F inject fuel visitor offset bytes s =
  if bool_decide (bytes = []) then (Ok None, s)
  else match read_frame F offset bytes with
  | Err e => (Err (inject e), s)
  | Ok (PartialFrame section) => (Ok (Some (mk_IncompleteTail offset section)), s)
  | Ok (CompleteFrame entry n) =>
      match visitor entry s with
      | (Err e, s') => (Err e, s')
      | (Ok _, s') =>
          match checked_add U64_MAX offset n with
          | None => (Err (inject (ff_offset_overflow F)), s')
          | Some next =>
              let rest := drop (Z.to_nat n) bytes in
              stream_loop F inject (length rest) visitor next rest s'
          end
      end
  end.
Proof.
  revert offset bytes s. induction fuel as [fuel IH] using lt_wf_ind. intros offset bytes s Hf.
  destruct fuel as [|fuel].
  { destruct bytes; [done|]. cbn in Hf. lia. }
  cbn [stream_loop]. case_bool_decide; [done|]. msimpl.
  destruct (read_frame F offset bytes) as [[section|entry n]|e] eqn:Hr; [done| |done].
  cbn [map_err]. rewrite M_bind_eq.
  destruct (visitor entry s) as [[[]|e] s']; [|done]. msimpl.
  destruct (checked_add _ _ _) as [next|]; [|done]. cbn [ok_or]. cbv zeta.
  apply read_frame_shrinks in Hr as [_ Hs]. revert Hs. generalize (drop (Z.to_nat n) bytes). intros rest Hs.
  rewrite (IH fuel) by lia. rewrite (IH (length rest)) by lia. done.
Qed.

(** Complete frames are handed to the visitor one after the other. *)
Lemma stream_log values tl offset s :
  Forall storable values -> 0 <= offset -> offset + len (log_bytes values) <= U64_MAX ->
  stream_loop F inject (length (log_bytes values ++ tl)) visitor offset (log_bytes values ++ tl) s =
  match visit_all visitor (placed offset values) s with
  | (Err e, s') => (Err e, s')
  | (Ok _, s') => stream_loop F inject (length tl) visitor (offset + len (log_bytes values)) tl s'
  end.
Proof.
  revert offset s. induction values as [|a values IH]; intros offset s Hs Ho Hm.
  { cbn. by rewrite Z.add_0_r. }
  apply Forall_cons in Hs as [Hb Hs].
  assert (Hj : log_bytes (a :: values) = entry_frame a ++ log_bytes values) by done.
  rewrite Hj in *. rewrite <-app_assoc, stream_loop_eq by done.
  pose proof (length_entry_frame a) as Hl.
  rewrite bool_decide_eq_false_2 by (intros Hn%(f_equal length); rewrite length_app in Hn; cbn in Hn; lia).
  rewrite read_frame_complete by done. cbn [placed visit_all]. rewrite M_bind_eq.
  destruct (visitor (ek_at K offset a) s) as [[[]|e] s']; [|done].
  rewrite length_app in Hm.
  rewrite (proj2 (checked_add_Some _ _ _ (offset + len (entry_frame a)))) by lia.
  rewrite Nat2Z.id, drop_app_length. cbv zeta. rewrite IH by (done || lia).
  rewrite length_app, Nat2Z.inj_add, Z.add_assoc. done.
Qed.

(** Whenever the loop returns, the file is a list of complete frames, all of
    them visited, followed by nothing or by a partial frame. *)
Lemma stream_loop_sound fuel offset bytes s tail s' :
  (length bytes <= fuel)%nat ->
  stream_loop F inject fuel visitor offset bytes s = (Ok tail, s') ->
  exists values torn, bytes = log_bytes values ++ torn /\ Forall storable values /\
    visit_all visitor (placed offset values) s = (Ok tt, s') /\
    match tail with
    | None => torn = []
    | Some t => torn <> [] /\ tail_valid_prefix_length t = offset + len (log_bytes values) /\
        read_frame F (tail_valid_prefix_length t) torn = Ok (PartialFrame (tail_section t))
    end.
Proof.
  revert offset bytes s. induction fuel as [fuel IH] using lt_wf_ind. intros offset bytes s Hf.
  rewrite stream_loop_eq by done. case_bool_decide as Hb.
  { intros [= <- <-]. by exists [], []. }
  destruct (read_frame F offset bytes) as [[section|entry n]|e] eqn:Hr; [| |done].
  { intros [= <- <-]. exists [], bytes. cbn. rewrite Z.add_0_r. done. }
  destruct (visitor entry s) as [[[]|e] s1] eqn:Hv; [|done].
  destruct (checked_add U64_MAX offset n) as [next|] eqn:Hn; [|done]. cbv zeta.
  pose proof (read_frame_shrinks _ _ _ _ Hr) as [_ Hs].
  apply read_frame_sound in Hr as (a & Hst & -> & -> & Hbytes).
  apply checked_add_Some in Hn as [-> Hn]. intros Hrec.
  apply IH in Hrec as (values & torn & Hrest & Hall & Hvis & Ht); [|lia|done].
  exists (a :: values), torn.
  assert (Hj : log_bytes (a :: values) = entry_frame a ++ log_bytes values) by done.
  rewrite Hj. rewrite Hrest in Hbytes. split_and!; [by rewrite <-app_assoc|by constructor| |].
  - cbn [placed visit_all]. by rewrite M_bind_eq, Hv.
  - destruct tail as [t|]; [|done]. by rewrite length_app, Nat2Z.inj_add, Z.add_assoc.
Qed.

(** Before a partial frame the complete entries are visited, and the tail starts
    where they end. *)
Lemma stream_partial values torn section s :
  Forall storable values -> len (log_bytes values) <= U64_MAX -> torn <> [] ->
  read_frame F (len (log_bytes values)) torn = Ok (PartialFrame section) ->
  stream_frames F inject visitor (log_bytes values ++ torn) s =
  match visit_all visitor (placed 0 values) s with
  | (Err e, s') => (Err e, s')
  | (Ok _, s') => (Ok (Some (mk_IncompleteTail (len (log_bytes values)) section)), s')
  end.
Proof.
  intros Hb Hl Ht Hr. unfold stream_frames. rewrite stream_log by (done || lia).
  destruct (visit_all _ _ s) as [[[]|e] s']; [|done].
  rewrite stream_loop_eq by done. rewrite bool_decide_eq_false_2 by done. by rewrite Z.add_0_l, Hr.
Qed.

Lemma stream_complete values s :
  Forall storable values -> len (log_bytes values) <= U64_MAX ->
  stream_frames F inject visitor (log_bytes values) s =
  match visit_all visitor (placed 0 values) s with
  | (Err e, s') => (Err e, s')
  | (Ok _, s') => (Ok None, s')
  end.
Proof.
  intros Hb Hl. unfold stream_frames. rewrite <-(app_nil_r (log_bytes values)).
  by rewrite stream_log by (done || lia).
Qed.

(** A frame whose payload is not the one its checksum was computed for stops the
    loop, whatever precedes and follows it. *)
Lemma stream_corrupted values p c later s :
  Forall storable values -> len (log_bytes values) <= U64_MAX ->
  len p <= ff_maximum F -> len c = len p -> crc32 c <> crc32 p ->
  stream_frames F inject visitor
    (log_bytes values ++ frame_header F (len p) ++ c ++ to_be_bytes 4 (crc32 p) ++ later) s =
  match visit_all visitor (placed 0 values) s with
  | (Err e, s') => (Err e, s')
  | (Ok _, s') =>
      (Err (inject (ff_checksum_mismatch F (len (log_bytes values)) (crc32 p) (crc32 c))), s')
  end.
Proof.
  intros Hv Hl Hmax Hlen Hcrc. unfold stream_frames. rewrite stream_log by (done || lia).
  destruct (visit_all _ _ s) as [[[]|e] s']; [|done]. rewrite stream_loop_eq by done.
  pose proof (length_frame_header (len p)) as Hh.
  rewrite bool_decide_eq_false_2 by (intros Hn%(f_equal length); rewrite length_app in Hn; cbn in Hn; lia).
  rewrite read_frame_header by lia. cbv zeta. rewrite !length_app, length_to_be_bytes.
  rewrite (proj2 (Z.ltb_ge _ _)) by lia. rewrite <-Hlen.
  rewrite Nat2Z.id, take_app_length.
  rewrite (slice_app (len c) 4 c) by (done || by rewrite length_to_be_bytes).
  rewrite from_to_be_bytes, Z.mod_small by apply crc32_range.
  by rewrite (proj2 (Z.eqb_neq _ _) Hcrc), Z.add_0_l.
Qed.

End Streams.

(** ** Scans *)

(** Every entry passes the check of the log against the entries before it. *)
Fixpoint checked (check : list B -> B -> Result E unit) (acc entries : list B) : Prop :=
  match entries with
  | [] => True
  | b :: entries => check acc b = Ok tt /\ checked check (acc ++ [b]) entries
  end.

Definition checking (check : list B -> B -> Result E unit) (entry : B) : M (list B) E unit :=
  entries ← get; _ ← lift (check entries entry); put (entries ++ [entry]).

Lemma visit_checked check entries acc r acc' :
  visit_all (checking check) entries acc = (r, acc') ->
  r = Ok tt <-> checked check acc entries /\ acc' = acc ++ entries.
Proof.
  revert acc. induction entries as [|b entries IH]; intros acc; cbn [visit_all checked].
  { intros [= <- <-]. by rewrite app_nil_r. }
  rewrite M_bind_eq. unfold checking at 1. msimpl.
  destruct (check acc b) as [[]|e].
  - intros Hv%IH. rewrite Hv, <-app_assoc. naive_solver.
  - intros [= <- <-]. naive_solver.
Qed.

Lemma visit_checked_Ok check entries acc :
  checked check acc entries -> visit_all (checking check) entries acc = (Ok tt, acc ++ entries).
Proof.
  revert acc. induction entries as [|b entries IH]; intros acc; cbn [visit_all checked].
  { by rewrite app_nil_r. }
  intros [Hc Hr]. rewrite M_bind_eq. unfold checking at 1. msimpl. rewrite Hc.
  cbn [put]. rewrite IH by done. by rewrite <-app_assoc.
Qed.

Lemma checked_trivial acc entries : checked (fun _ _ => Ok tt) acc entries.
Proof. revert acc. by induction entries. Qed.

(** The state of the log on disk: the stored values, and what is left of an
    interrupted append. *)
Definition tail_of (values : list A) (tail : option IncompleteTail) (torn : list byte) : Prop :=
  match tail with
  | None => torn = []
  | Some t => torn <> [] /\ tail_valid_prefix_length t = len (log_bytes values) /\
      read_frame F (tail_valid_prefix_length t) torn = Ok (PartialFrame (tail_section t))
  end.

Lemma scan_checked_eq check file :
  scan_checked F check file =
  let '(r, entries) := stream_frames F id (checking check) file [] in
  tail ← r; Ok (entries, tail).
Proof. done. Qed.

Lemma scan_checked_holds check values tail torn :
  Forall storable values -> len (log_bytes values) <= U64_MAX -> checked check [] (placed 0 values) ->
  tail_of values tail torn ->
  scan_checked F check (log_bytes values ++ torn) = Ok (placed 0 values, tail).
Proof.
  intros Hb Hl Hc Ht. rewrite scan_checked_eq.
  destruct tail as [[o section]|]; cbn [tail_of tail_valid_prefix_length tail_section] in Ht.
  - destruct Ht as (Hn & -> & Hr). rewrite (stream_partial _ _ _ _ section) by done.
    by rewrite visit_checked_Ok.
  - rewrite Ht, app_nil_r, stream_complete by done. by rewrite visit_checked_Ok.
Qed.

Lemma scan_frames_holds values tail torn :
  Forall storable values -> len (log_bytes values) <= U64_MAX -> tail_of values tail torn ->
  scan_frames F (log_bytes values ++ torn) = Ok (placed 0 values, tail).
Proof. intros Hb Hl Ht. apply scan_checked_holds; [done..|apply checked_trivial|done]. Qed.

(** A scan succeeds exactly on the files that hold storable values, each passing
    the check, followed by nothing or by a partial frame. *)
Lemma scan_checked_Ok check file entries tail :
  len file <= U64_MAX ->
  scan_checked F check file = Ok (entries, tail) <->
  exists values torn, file = log_bytes values ++ torn /\ Forall storable values /\
    entries = placed 0 values /\ checked check [] entries /\ tail_of values tail torn.
Proof.
  intros Hlen. split.
  - rewrite scan_checked_eq.
    destruct (stream_frames _ _ _ file []) as [[t|e] acc] eqn:Hs; cbn [mbind result_bind]; [|done].
    intros [= <- <-]. unfold stream_frames in Hs.
    apply stream_loop_sound in Hs as (values & torn & -> & Hb & Hv & Ht); [|done].
    apply visit_checked in Hv as [[Hc ->]%(fun h => h eq_refl) _].
    exists values, torn. split_and!; [done..|]. by destruct t.
  - intros (values & torn & -> & Hb & -> & Hc & Ht). apply scan_checked_holds; [done| |done..].
    rewrite length_app in Hlen. lia.
Qed.

Lemma scan_frames_Ok file entries tail :
  len file <= U64_MAX ->
  scan_frames F file = Ok (entries, tail) <->
  exists values torn, file = log_bytes values ++ torn /\ Forall storable values /\
    entries = placed 0 values /\ tail_of values tail torn.
Proof.
  intros Hl. unfold scan_frames. rewrite scan_checked_Ok by done.
  split; [naive_solver|]. intros (values & torn & Hf & Hv & He & Ht).
  exists values, torn. split_and!; [done..| |done]. apply checked_trivial.
Qed.

Lemma scan_frames_complete values :
  Forall storable values -> len (log_bytes values) <= U64_MAX ->
  scan_frames F (log_bytes values) = Ok (placed 0 values, None).
Proof.
  intros Hv Hl. rewrite <-(app_nil_r (log_bytes values)). by apply scan_frames_holds.
Qed.

Lemma validate_file_complete truncated values :
  Forall storable values -> len (log_bytes values) <= U64_MAX ->
  validate_file F truncated (log_bytes values) = Ok tt.
Proof. intros Hv Hl. unfold validate_file. by rewrite scan_frames_complete. Qed.

(** ** Appends *)

(** The file after an append, whatever its outcome: the old log, the new one, or
    the old one and a partial frame. *)
Inductive appended (values : list A) (a : A) : bool -> list byte -> Prop :=
| app_none : appended values a false (log_bytes values)
| app_all ok : appended values a ok (log_bytes (values ++ [a]))
| app_torn torn section : torn <> [] ->
    read_frame F (len (log_bytes values)) torn = Ok (PartialFrame section) ->
    appended values a false (log_bytes values ++ torn).

Lemma write_frame_appended calls io values a (r : Result E Z) file :
  storable a -> write_frame calls io (entry_frame a) (log_bytes values) = (r, file) ->
  appended values a (is_ok r) file /\
  match r with
  | Ok offset => offset = len (log_bytes values)
  | Err e => e ∈ [call_seek calls; call_write calls; call_flush calls; call_sync calls] ++
                 option_list (call_directory calls)
  end.
Proof.
  intros Hb (k & Hk & -> & Hr)%write_frame_cases.
  pose proof (length_entry_frame a) as Hf. split; [|destruct r; naive_solver].
  destruct (decide (k = length (entry_frame a))) as [->|Hkl].
  { rewrite firstn_all, <-log_bytes_snoc. constructor. }
  assert (is_ok r = false) as -> by (destruct r; [naive_solver|done]).
  destruct (decide (k = 0)%nat) as [->|Hk0]; [rewrite app_nil_r; constructor|].
  destruct (read_frame_torn (len (log_bytes values)) (ek_payload K a) k (proj2 Hb)) as [section Hs].
  { fold (entry_frame a). lia. }
  econstructor; [|exact Hs]. intros Hn%(f_equal length). rewrite length_take in Hn. cbn in Hn.
  fold (entry_frame a) in Hn. lia.
Qed.

(** What the file holds after an append: the old values or the old values and the
    new one, the latter if the append reported success. *)
Lemma appended_holds values a ok file :
  Forall storable values -> storable a -> len (log_bytes (values ++ [a])) <= U64_MAX ->
  appended values a ok file ->
  exists kept tail torn, Forall storable kept /\ file = log_bytes kept ++ torn /\
    tail_of kept tail torn /\ len (log_bytes kept) <= U64_MAX /\
    (kept = values \/ kept = values ++ [a] /\ tail = None) /\ (ok = true -> kept = values ++ [a]).
Proof.
  intros Hvs Ha Hl Happ.
  assert (Hl0 : len (log_bytes values) <= U64_MAX) by (rewrite log_bytes_snoc, length_app in Hl; lia).
  destruct Happ as [|ok|torn section Ht Hr].
  - exists values, None, []. rewrite app_nil_r. split_and!; [done..|by left|done].
  - exists (values ++ [a]), None, []. rewrite app_nil_r.
    split_and!; [|done..|by right|done]. apply Forall_app_2; [done|by constructor].
  - exists values, (Some (mk_IncompleteTail (len (log_bytes values)) section)), torn.
    split_and!; [done..|by left|done].
Qed.

(** Cutting the tail a scan found restores the log. *)
Lemma cut_file_restores (set_len sync_all : E) finish io values t torn :
  tail_of values (Some t) torn ->
  cut_file set_len sync_all finish io (tail_valid_prefix_length t) (log_bytes values ++ torn) =
  match io with
  | SetLenFails => (Err set_len, log_bytes values ++ torn)
  | SyncAllFails => (Err sync_all, log_bytes values)
  | TruncateSucceeds => (finish (log_bytes values), log_bytes values)
  end.
Proof.
  intros (_ & Ht & _). unfold cut_file. msimpl. rewrite Ht, Nat2Z.id, take_app_length.
  destruct io; msimpl; [by destruct (finish _)|done|done].
Qed.

Lemma truncate_found_restores (changed set_len sync_all : E) finish io values t torn :
  tail_of values (Some t) torn ->
  truncate_found changed set_len sync_all finish io t (Some t) (log_bytes values ++ torn) =
  match io with
  | SetLenFails => (Err set_len, log_bytes values ++ torn)
  | SyncAllFails => (Err sync_all, log_bytes values)
  | TruncateSucceeds => (finish (log_bytes values), log_bytes values)
  end.
Proof.
  intros Ht. unfold truncate_found. rewrite bool_decide_eq_true_2 by done. by apply cut_file_restores.
Qed.

End Laws.
