(* ===== verification/BlockJournal.v ===== *)
(** * The durable block journal ([noxis-storage/src/block_journal.rs])

    One [NXCB] frame per executed block around a canonical [NXBP] payload.  The
    file is its contents, a list of bytes; a write that fails leaves the bytes
    that reached the file, so every torn append is a state of the model. *)

From Stdlib Require Import Strings.Byte Strings.String.
From S2P Require Import Prelude Arrays Reader Sha256 Types Crypto Ledger Codec RecordChain Crc32 Frames.
From S2P Require Import Consensus ConsensusCodec Engine.

Definition BLOCK_FRAME_MAGIC : list byte := bytes_of_string "NXCB".
Definition BLOCK_FRAME_VERSION : Z := 2.
Definition BLOCK_PAYLOAD_MAGIC : list byte := bytes_of_string "NXBP".
Definition BLOCK_PAYLOAD_VERSION : Z := 2.
Definition BLOCK_HEADER_MAXIMUM_LENGTH : Z := 4 * 1024.
Definition RECORD_ENVELOPE_OVERHEAD : Z := 4 + 2 + 8 + 32 + 4 + 32 + 32 + 32.
Definition MAX_ENCODED_RECORD_LENGTH : Z := MAX_RECORD_TRANSACTION_BYTES + RECORD_ENVELOPE_OVERHEAD.
Definition COMET_DECISION_ENCODED_BYTES : Z := 32 + 8 + 32 + 32.
Definition BLOCK_PAYLOAD_FIXED_BYTES : Z := 4 + 2 + 4 + 32 + COMET_DECISION_ENCODED_BYTES + 4.
Definition MAX_BLOCK_FRAME_PAYLOAD_LENGTH : Z :=
  64 * 1024 * 1024 + MAX_BLOCK_RECORDS * (RECORD_ENVELOPE_OVERHEAD + 4) +
  BLOCK_PAYLOAD_FIXED_BYTES + BLOCK_HEADER_MAXIMUM_LENGTH.

(** ** Errors

    [PayloadError] and [BlockJournalError] contain each other; the first takes
    the second as a parameter. *)

Module PayloadError.
Inductive PayloadError (J : Type) : Type :=
| InvalidPayloadMagic
| UnsupportedPayloadVersion (version : Z)
| HeaderTooLarge (actual maximum : Z)
| TooManyRecords (actual maximum : Z)
| RecordTooLarge (index actual maximum : Z)
| UnexpectedEnd (offset : Z)
| LengthOverflow
| TrailingBytes (count : Z)
| Consensus (error : ConsensusError)
| EngineIdentity (error : EngineIdentityError)
| NonCanonicalHeader
| Record (index : Z) (source : RecordError)
| NonCanonicalRecord (index : Z)
| Block (error : J).
Arguments InvalidPayloadMagic {J}.
Arguments UnsupportedPayloadVersion {J} version.
Arguments HeaderTooLarge {J} actual maximum.
Arguments TooManyRecords {J} actual maximum.
Arguments RecordTooLarge {J} index actual maximum.
Arguments UnexpectedEnd {J} offset.
Arguments LengthOverflow {J}.
Arguments TrailingBytes {J} count.
Arguments Consensus {J} error.
Arguments EngineIdentity {J} error.
Arguments NonCanonicalHeader {J}.
Arguments Record {J} index source.
Arguments NonCanonicalRecord {J} index.
Arguments Block {J} error.
End PayloadError.

Module BlockJournalError.
Inductive BlockJournalError : Type :=
| Io (operation : string)
| InvalidMagic (offset : Z)
| UnsupportedFrameVersion (offset version : Z)
| FrameTooLarge (offset actual maximum : Z)
| TruncatedFrame (offset : Z) (section : string)
| ChecksumMismatch (offset expected actual : Z)
| Payload (offset : Z) (source : PayloadError.PayloadError BlockJournalError)
| Consensus (error : ConsensusError)
| RecordCountMismatch (header payload : Z)
| FirstRecordSequenceMismatch (header record : Z)
| RecordSequenceMismatch (record_index expected actual : Z)
| RecordSequenceOverflow
| PreviousStateMismatch (record_index : Z) (expected actual : StateId)
| ResultingStateMismatch (expected actual : StateId)
| EmptyBlockStateMismatch (previous resulting : StateId)
| OffsetOverflow
| PayloadLengthOverflow
| RecoveryTailChanged
| DirectorySyncUnavailable.
End BlockJournalError.
Abbreviation BlockJournalError := BlockJournalError.BlockJournalError.
Abbreviation PayloadError := (PayloadError.PayloadError BlockJournalError).

#[global] Instance payload_read_error : ReadError PayloadError := {|
  Reader.UnexpectedEnd := PayloadError.UnexpectedEnd;
  Reader.LengthOverflow := PayloadError.LengthOverflow;
  Reader.TrailingBytes := PayloadError.TrailingBytes
|}.

(** [BlockJournalReplayError<E>]. *)
Inductive BlockJournalReplayError (E : Type) : Type :=
| Journal (error : BlockJournalError)
| Visitor (error : E).
Arguments Journal {E} error.
Arguments Visitor {E} error.

(** ** Blocks *)

Record StoredBlock : Type := mk_StoredBlock {
  sb_offset : Z;
  sb_header : BlockHeader;
  sb_app_hash : AppHash;
  sb_comet_decision : CometBftDecision;
  sb_records : list TransactionRecord
}.

Definition sb_at (offset : Z) (b : StoredBlock) : StoredBlock :=
  mk_StoredBlock offset (sb_header b) (sb_app_hash b) (sb_comet_decision b) (sb_records b).

Section Blocks.
Context `{Sha2}.

(** The loop of [validate_block] over [records.windows(2)], from the pair that
    ends at record number [index] on. *)
Fixpoint validate_links (index : Z) (previous : TransactionRecord) (records : list TransactionRecord)
    : Result BlockJournalError unit :=
  match records with
  | [] => Ok tt
  | current :: records =>
      expected_sequence ← ok_or (checked_add U64_MAX (rec_sequence previous) 1)
                            BlockJournalError.RecordSequenceOverflow;
      if negb (rec_sequence current =? expected_sequence)
      then Err (BlockJournalError.RecordSequenceMismatch index expected_sequence
                  (rec_sequence current))
      else if negb (bool_decide
          (rec_previous_state_id current = rec_resulting_state_id previous))
      then Err (BlockJournalError.PreviousStateMismatch index (rec_resulting_state_id previous)
                  (rec_previous_state_id current))
      else validate_links (index + 1) current records
  end.

Definition validate_block (header : BlockHeader) (records : list TransactionRecord)
    : Result BlockJournalError unit :=
  let input := bh_input header in
  if negb (len records =? bh_record_count input)
  then Err (BlockJournalError.RecordCountMismatch (bh_record_count input) (len records))
  else
    _ ← map_err BlockJournalError.Consensus
          (validate_record_hashes header (rec_record_hash <$> records));
    match records with
    | first :: others =>
        if negb (rec_sequence first =? bh_first_record_sequence input)
        then Err (BlockJournalError.FirstRecordSequenceMismatch (bh_first_record_sequence input)
                    (rec_sequence first))
        else if negb (bool_decide (rec_previous_state_id first = bh_previous_state_id input))
        then Err (BlockJournalError.PreviousStateMismatch 0 (bh_previous_state_id input)
                    (rec_previous_state_id first))
        else
          _ ← validate_links 1 first others;
          let last := List.last others first in
          if negb (bool_decide (rec_resulting_state_id last = bh_resulting_state_id input))
          then Err (BlockJournalError.ResultingStateMismatch (bh_resulting_state_id input)
                      (rec_resulting_state_id last))
          else Ok tt
    | [] =>
        if negb (bool_decide (bh_previous_state_id input = bh_resulting_state_id input))
        then Err (BlockJournalError.EmptyBlockStateMismatch (bh_previous_state_id input)
                    (bh_resulting_state_id input))
        else Ok tt
    end.

(** [StoredBlock::new]. *)
Definition stored_new (header : BlockHeader) (app_hash : AppHash) (comet_decision : CometBftDecision)
    (records : list TransactionRecord) : Result BlockJournalError StoredBlock :=
  _ ← validate_block header records;
  Ok (mk_StoredBlock 0 header app_hash comet_decision records).

(** ** Payloads *)

(** The bytes [encode_payload] appends for one record. *)
Definition encode_sized_record (record : TransactionRecord) : list byte :=
  to_be_bytes 4 (len (record_encode record)) ++ record_encode record.

(** The bytes assembled by [encode_payload]. *)
Definition payload_bytes (header : BlockHeader) (app_hash : AppHash)
    (comet_decision : CometBftDecision) (records : list TransactionRecord) : list byte :=
  let header_bytes := encode_block_header header in
  BLOCK_PAYLOAD_MAGIC ++ to_be_bytes 2 BLOCK_PAYLOAD_VERSION ++
  to_be_bytes 4 (len header_bytes) ++ header_bytes ++ arr app_hash ++
  arr (cd_network_id comet_decision) ++ to_be_bytes 8 (cd_height comet_decision) ++
  arr (cd_block_hash comet_decision) ++ arr (cd_next_validators_hash comet_decision) ++
  to_be_bytes 4 (len records) ++ concat (encode_sized_record <$> records).

(** The final length check of [encode_payload]. *)
Definition limit_payload (bytes : list byte) : Result BlockJournalError (list byte) :=
  if MAX_BLOCK_FRAME_PAYLOAD_LENGTH <? len bytes
  then Err (BlockJournalError.FrameTooLarge 0 (default U32_MAX (try_from U32_MAX (len bytes)))
              MAX_BLOCK_FRAME_PAYLOAD_LENGTH)
  else Ok bytes.

Definition encode_payload (header : BlockHeader) (app_hash : AppHash)
    (comet_decision : CometBftDecision) (records : list TransactionRecord)
    : Result BlockJournalError (list byte) :=
  _ ← validate_block header records;
  total_record_bytes ←
    try_fold (fun total record =>
      value ← ok_or (checked_add USIZE_MAX total 4) BlockJournalError.PayloadLengthOverflow;
      ok_or (checked_add USIZE_MAX value (len (record_encode record)))
        BlockJournalError.PayloadLengthOverflow) 0 records;
  value ← ok_or (checked_add USIZE_MAX BLOCK_PAYLOAD_FIXED_BYTES (len (encode_block_header header)))
            BlockJournalError.PayloadLengthOverflow;
  _ ← ok_or (checked_add USIZE_MAX value total_record_bytes) BlockJournalError.PayloadLengthOverflow;
  limit_payload (payload_bytes header app_hash comet_decision records).

Definition read_header : M Reader PayloadError BlockHeader :=
  header_length ← read_u32;
  if BLOCK_HEADER_MAXIMUM_LENGTH <? header_length
  then lift (Err (PayloadError.HeaderTooLarge header_length BLOCK_HEADER_MAXIMUM_LENGTH))
  else
    header_bytes ← read_exact header_length;
    header ← lift (map_err PayloadError.Consensus (decode_block_header header_bytes));
    if negb (bool_decide (encode_block_header header = header_bytes))
    then lift (Err PayloadError.NonCanonicalHeader)
    else mret header.

Definition read_decision_height : M Reader PayloadError Z :=
  a ← read_array 8; mret (as_i64 (from_be_bytes (arr a))).

Definition read_record (index : Z) : M Reader PayloadError TransactionRecord :=
  record_length ← read_u32;
  if MAX_ENCODED_RECORD_LENGTH <? record_length
  then lift (Err (PayloadError.RecordTooLarge index record_length MAX_ENCODED_RECORD_LENGTH))
  else
    record_bytes ← read_exact record_length;
    record ← lift (map_err (PayloadError.Record index) (record_decode record_bytes));
    if negb (bool_decide (record_encode record = record_bytes))
    then lift (Err (PayloadError.NonCanonicalRecord index))
    else mret record.

Definition read_counted_records : M Reader PayloadError (list TransactionRecord) :=
  record_count ← read_u32_at_most MAX_BLOCK_RECORDS
                   (fun actual => PayloadError.TooManyRecords actual MAX_BLOCK_RECORDS);
  read_indexed read_record 0 (Z.to_nat record_count).

(** The checks of [decode_payload] after the reader is exhausted. *)
Definition build_stored (header : BlockHeader) (app_hash : AppHash) (network_id : array 32)
    (height : Z) (block_hash next_validators_hash : array 32) (records : list TransactionRecord)
    : Result PayloadError StoredBlock :=
  _ ← map_err PayloadError.Block (validate_block header records);
  comet_decision ← map_err PayloadError.EngineIdentity
                     (from_persisted network_id height block_hash next_validators_hash);
  Ok (mk_StoredBlock 0 header app_hash comet_decision records).

Definition decode_payload : list byte -> Result PayloadError StoredBlock :=
  run (
    _ ← read_magic BLOCK_PAYLOAD_MAGIC PayloadError.InvalidPayloadMagic;
    _ ← read_version BLOCK_PAYLOAD_VERSION PayloadError.UnsupportedPayloadVersion;
    header ← read_header;
    app_hash ← read_array 32;
    network_id ← read_array 32;
    decision_height ← read_decision_height;
    block_hash ← read_array 32;
    next_validators_hash ← read_array 32;
    records ← read_counted_records;
    _ ← finish;
    lift (build_stored header app_hash network_id decision_height block_hash next_validators_hash
            records)).

(** ** Frames *)

(** The frame of a block: [read_frame] decodes its payload and records the offset. *)
Definition block_format : FrameFormat BlockJournalError StoredBlock := {|
  ff_magic := BLOCK_FRAME_MAGIC;
  ff_version := BLOCK_FRAME_VERSION;
  ff_maximum := MAX_BLOCK_FRAME_PAYLOAD_LENGTH;
  ff_check_magic := exact_magic BLOCK_FRAME_MAGIC BlockJournalError.InvalidMagic;
  ff_invalid_magic := BlockJournalError.InvalidMagic;
  ff_unsupported_version := BlockJournalError.UnsupportedFrameVersion;
  ff_too_large := BlockJournalError.FrameTooLarge;
  ff_checksum_mismatch := BlockJournalError.ChecksumMismatch;
  ff_offset_overflow := BlockJournalError.OffsetOverflow;
  ff_decode := fun offset payload =>
    block ← map_err (BlockJournalError.Payload offset) (decode_payload payload);
    Ok (sb_at offset block)
|}.

(** The visitor is a closure with captured state [S]. *)
Definition with_visitor {S E A} (m : M S E A) : M S (BlockJournalReplayError E) A :=
  fun s => let '(r, s') := m s in (map_err Visitor r, s').

(** [stream_frames]: the loop over the frames with a fallible visitor. *)
Definition stream_blocks {S E} (visitor : StoredBlock -> M S E unit) (file : list byte)
    : M S (BlockJournalReplayError E) (option IncompleteTail) :=
  stream_frames block_format Journal (fun block => with_visitor (visitor block)) file.

(** ** The journal *)

Definition infallible {A} (r : Result (BlockJournalReplayError Empty_set) A)
    : Result BlockJournalError A :=
  match r with
  | Ok a => Ok a
  | Err (Journal error) => Err error
  | Err (Visitor never) => match never with end
  end.

(** [validate_complete_file_streaming]. *)
Definition validate_complete_file_streaming (file : list byte) : Result BlockJournalError unit :=
  tail ← infallible (stream_blocks (fun _ => mret tt) file tt).1;
  match tail with
  | None => Ok tt
  | Some tail => Err (BlockJournalError.TruncatedFrame (tail_valid_prefix_length tail)
                        (tail_section tail))
  end.

(** [scan_frames], as [scan_recoverable_tail] exposes it: the blocks and the tail. *)
Definition scan_recoverable_tail (file : list byte)
    : Result BlockJournalError (list StoredBlock * option IncompleteTail) :=
  let '(r, blocks) := stream_blocks (fun block => modify (fun blocks => blocks ++ [block])) file [] in
  tail ← infallible r;
  Ok (blocks, tail).

(** The calls [append_block] makes on the file. *)
Definition block_append_calls : AppendCalls BlockJournalError :=
  mk_AppendCalls (BlockJournalError.Io "seek block journal end")
    (BlockJournalError.Io "append block frame") (BlockJournalError.Io "flush block frame")
    (BlockJournalError.Io "sync block frame")
    (Some (BlockJournalError.Io "sync new block-journal parent directory")).

(** [BlockJournal::append_block]. *)
Definition append_block (io : AppendIo) (block : StoredBlock) : M (list byte) BlockJournalError Z :=
  _ ← lift (validate_block (sb_header block) (sb_records block));
  payload ← lift (encode_payload (sb_header block) (sb_app_hash block) (sb_comet_decision block)
                    (sb_records block));
  _ ← lift (map_err (BlockJournalError.Payload 0) (decode_payload payload));
  frame ← lift (encode_frame block_format payload);
  write_frame block_append_calls io frame.

(** [BlockJournal::truncate_verified_incomplete_tail]. *)
Definition truncate_verified_incomplete_tail (io : TruncateIo) (expected : IncompleteTail)
    : M (list byte) BlockJournalError unit :=
  file ← get;
  tail ← lift (infallible (stream_blocks (fun _ => mret tt) file tt).1);
  truncate_found BlockJournalError.RecoveryTailChanged
    (BlockJournalError.Io "remove verified incomplete block-journal tail")
    (BlockJournalError.Io "sync recovered block journal")
    validate_complete_file_streaming io expected tail.

End Blocks.
