(* ===== verification/BlockJournalFacts.v ===== *)
(** * Facts about the block journal

    The payload codec is exact, a journal file is the concatenation of the
    frames of its blocks, a torn append is recognised as such, and recovery
    returns exactly the blocks that were completely written. *)

From Stdlib Require Import Strings.Byte Strings.String.
From S2P Require Import Prelude Arrays Reader Sha256 Types Crypto Ledger Codec RecordChain Crc32 Frames FramesFacts.
From S2P Require Import Consensus ConsensusFacts ConsensusCodec Engine EngineFacts BlockJournal.

Section Facts.
Context `{Sha2}.

(** ** Blocks *)

(** The records of a block are the ones its header announces: as many, with
    their hashes committed, and linked from the header's first sequence number
    and previous state to its resulting state. *)
Record block_consistent (h : BlockHeader) (rs : list TransactionRecord) : Prop := mk_block_consistent {
  blk_hashes : validate_record_hashes h (rec_record_hash <$> rs) = Ok tt;
  blk_linked : linked (bh_first_record_sequence (bh_input h)) (bh_previous_state_id (bh_input h)) rs;
  blk_final : final_state (bh_previous_state_id (bh_input h)) rs = bh_resulting_state_id (bh_input h)
}.

Lemma validate_links_Ok index previous rs :
  rec_sequence previous <= U64_MAX ->
  validate_links index previous rs = Ok tt <->
  linked (rec_sequence previous + 1) (rec_resulting_state_id previous) rs /\
  rec_sequence previous + len rs <= U64_MAX.
Proof.
  revert index previous. induction rs as [|r rs IH]; intros index previous Hp; cbn [validate_links].
  { split; [|done]. intros _. split; [by intros i r Hi|cbn; lia]. }
  rewrite linked_cons. cbn [length]. destruct (checked_add U64_MAX (rec_sequence previous) 1) as [n|] eqn:Hn.
  - apply checked_add_Some in Hn as [-> Hn]. cbn [ok_or mbind result_bind].
    destruct (Z.eqb_spec (rec_sequence r) (rec_sequence previous + 1)) as [He|]; cbn [negb];
      [|split; [done|tauto]].
    case_bool_decide; cbn [negb]; [|split; [done|tauto]].
    rewrite IH by lia. rewrite He. split; intros ?; destruct_and?; split_and!; (done || lia).
  - apply checked_add_None in Hn. split; [done|lia].
Qed.

Lemma last_default {A} (x d : A) l : List.last (x :: l) d = List.last l x.
Proof.
  revert x d. induction l as [|y l IH]; intros x d; [done|].
  change (List.last (y :: l) d = List.last (y :: l) x). by rewrite !IH.
Qed.

Lemma final_state_last g r rs :
  final_state g (r :: rs) = rec_resulting_state_id (List.last rs r).
Proof.
  revert g r. induction rs as [|r' rs IH]; intros g r; [done|].
  by rewrite final_state_cons, IH, last_default.
Qed.

Lemma validate_record_hashes_count h rs :
  validate_record_hashes h rs = Ok tt -> len rs = bh_record_count (bh_input h).
Proof. by intros [? _]%validate_record_hashes_Ok. Qed.

Lemma validate_block_Ok h rs :
  header_wf h -> validate_block h rs = Ok tt <-> block_consistent h rs.
Proof.
  intros Hw. pose proof (header_last _ Hw) as Hlast. pose proof (header_first _ Hw) as Hfirst.
  unfold validate_block. cbv zeta.
  destruct (Z.eqb_spec (len rs) (bh_record_count (bh_input h))) as [Hc|Hc]; cbn [negb].
  2: { split; [done|]. intros [Hh%validate_record_hashes_count _ _]. by rewrite length_fmap in Hh. }
  destruct (validate_record_hashes _ _) as [[]|e] eqn:Hv; cbn [map_err mbind result_bind].
  2: { split; [done|]. intros [Hh _ _]. congruence. }
  destruct rs as [|r rs].
  { case_bool_decide as Hb; cbn [negb]; (split; [intros ?|intros [_ _ Hf]]); done. }
  destruct (Z.eqb_spec (rec_sequence r) (bh_first_record_sequence (bh_input h))) as [Hs|Hs]; cbn [negb].
  2: { split; [done|]. intros [_ [Hl _]%linked_cons _]. done. }
  case_bool_decide as Hp; cbn [negb].
  2: { split; [done|]. intros [_ (_ & Hl & _)%linked_cons _]. done. }
  cbn [length] in Hc.
  pose proof (validate_links_Ok 1 r rs ltac:(lia)) as Hl.
  destruct (validate_links 1 r rs) as [[]|]; cbn [mbind result_bind].
  2: { split; [done|]. intros [_ (Hq & _ & Hk)%linked_cons _]. apply Hl. rewrite Hq. split; [done|lia]. }
  destruct (proj1 Hl eq_refl) as [Hk _]. rewrite <-(final_state_last (bh_previous_state_id (bh_input h)) r rs).
  case_bool_decide as Hf; cbn [negb]; (split; [intros ?|intros [_ _ Hf']]); try done.
  split; [done| |done]. apply linked_cons. by rewrite <-Hs.
Qed.

(** A decision as [CometBftDecision::new] and [from_persisted] build it. *)
Record decision_wf (d : CometBftDecision) : Prop := mk_decision_wf {
  dec_network : cd_network_id d <> fill 32 x00;
  dec_height : 1 <= cd_height d <= I64_MAX;
  dec_block : cd_block_hash d <> fill 32 x00;
  dec_validators : cd_next_validators_hash d <> fill 32 x00
}.

Lemma from_persisted_Ok network height block validators d :
  height <= I64_MAX ->
  from_persisted network height block validators = Ok d <->
  decision_wf d /\ d = mk_CometBftDecision network height block validators.
Proof.
  intros Hm. unfold from_persisted. split.
  - repeat (case_bool_decide; [done|]). destruct (Z.leb_spec height 0); [done|].
    repeat (case_bool_decide; [done|]). intros [= <-]. split; [|done]. by split; cbn; [|lia|..].
  - intros [[Hn Hh Hb Hv] ->]. cbn in *. rewrite bool_decide_eq_false_2 by done.
    destruct (Z.leb_spec height 0); [lia|]. by rewrite !bool_decide_eq_false_2 by done.
Qed.

(** The invariant of a block that the journal stores. *)
Record stored_wf (b : StoredBlock) : Prop := mk_stored_wf {
  st_header : header_wf (sb_header b);
  st_records : Forall record_wf (sb_records b);
  st_decision : decision_wf (sb_comet_decision b);
  st_consistent : block_consistent (sb_header b) (sb_records b)
}.

Definition block_payload (b : StoredBlock) : list byte :=
  payload_bytes (sb_header b) (sb_app_hash b) (sb_comet_decision b) (sb_records b).

(** ** The payload codec *)

Lemma length_encode_block_header h : len (encode_block_header h) = 6 + BLOCK_HEADER_FIELDS_LENGTH.
Proof.
  unfold encode_block_header. rewrite !length_app, !Nat2Z.inj_add, length_to_be_bytes.
  by rewrite length_encode_block_header_fields.
Qed.

Lemma record_wf_bound r : record_wf r -> len (record_encode r) <= MAX_ENCODED_RECORD_LENGTH.
Proof.
  intros (_ & tx & Hb%bytes_of_tx_bound & _). rewrite length_record_encode.
  unfold MAX_ENCODED_RECORD_LENGTH, RECORD_ENVELOPE_OVERHEAD. lia.
Qed.

(** A bounded length prefix and a nested canonical encoding of that length. *)
Definition nested_grammar {A} (wf : A -> Prop) (enc : A -> list byte) (x : A) (bs : list byte) : Prop :=
  wf x /\ bs = to_be_bytes 4 (len (enc x)) ++ enc x.

(** The shape of [read_header] and [read_record]: the nested decoder is exact,
    so the re-encoding check never fails. *)
Lemma parse_spec_nested {E} (maximum : Z) (too_large : Z -> PayloadError) (wrap : E -> PayloadError)
    (noncanonical : PayloadError) {A} (dec : list byte -> Result E A) (wf : A -> Prop)
    (enc : A -> list byte) :
  maximum <= U32_MAX ->
  (forall bs x, len bs <= maximum -> dec bs = Ok x <-> wf x /\ bs = enc x) ->
  (forall x, wf x -> len (enc x) <= maximum) ->
  parse_spec (E := PayloadError)
    (n ← read_u32;
     if maximum <? n then lift (Err (too_large n))
     else
       bytes ← read_exact n;
       x ← lift (map_err wrap (dec bytes));
       if negb (bool_decide (enc x = bytes)) then lift (Err noncanonical) else mret x)
    (nested_grammar wf enc).
Proof.
  intros Hm Hdec Hlen. eapply parse_spec_proper; cycle 1.
  { apply parse_spec_bind; [apply parse_spec_read_u32|]. intros n.
    instantiate (1 := fun n x bs => n <= maximum /\ len bs = n /\ wf x /\ bs = enc x).
    cbv beta. destruct (Z.ltb_spec maximum n) as [Hn|Hn].
    { eapply parse_spec_proper; [|apply parse_spec_lift]. intros x bs. cbn. split; [by intros []|lia]. }
    eapply parse_spec_proper; cycle 1.
    { apply parse_spec_bind; [apply parse_spec_read_exact|]. intros bytes.
      apply parse_spec_bind; [apply parse_spec_lift|]. intros x.
      instantiate (1 := fun x y bs => y = x /\ bs = [] /\ enc x = bytes). cbv beta.
      case_bool_decide; cbn [negb].
      - eapply parse_spec_proper; [|apply parse_spec_ret]. naive_solver.
      - eapply parse_spec_proper; [|apply parse_spec_lift]. naive_solver. }
    intros x bs. cbv beta. split.
    - intros (bytes & b1 & b2 & [-> Hb] & (y & b3 & b4 & [Hy ->] & (-> & -> & He) & ->) & ->).
      apply map_err_Ok in Hy. apply Hdec in Hy as [Hw _]; [|lia]. rewrite app_nil_r. subst. done.
    - intros (_ & Hb & Hw & ->). exists (enc x), (enc x), []. rewrite app_nil_r. split; [done|].
      split; [|done]. exists x, [], []. split; [|done]. split; [|done].
      apply map_err_Ok, Hdec; [lia|done]. }
  intros x bs. unfold be_grammar, nested_grammar. split.
  - intros (n & b1 & b2 & [Hn ->] & (Hle & Hb & Hw & ->) & ->). by rewrite Hb.
  - intros [Hw ->]. pose proof (Hlen x Hw). exists (len (enc x)), (to_be_bytes 4 (len (enc x))), (enc x).
    split; [split; [cbn; lia|done]|]. done.
Qed.

Lemma parse_spec_read_header : parse_spec read_header (nested_grammar header_wf encode_block_header).
Proof.
  apply parse_spec_nested; [done| |].
  - intros bs x Hl. apply decode_block_header_Ok. unfold BLOCK_HEADER_MAXIMUM_LENGTH in Hl. lia.
  - intros x _. rewrite length_encode_block_header. done.
Qed.

Lemma parse_spec_read_record index :
  parse_spec (read_record index) (nested_grammar record_wf record_encode).
Proof.
  apply (parse_spec_nested MAX_ENCODED_RECORD_LENGTH); [done| |apply record_wf_bound].
  intros bs x Hl. apply record_decode_Ok.
  assert (MAX_ENCODED_RECORD_LENGTH <= ISIZE_MAX) by done. lia.
Qed.

Lemma parse_spec_read_counted_records :
  parse_spec read_counted_records
    (counted_grammar (fun n => n <= MAX_BLOCK_RECORDS) record_wf encode_sized_record).
Proof.
  apply (parse_spec_counted_items MAX_BLOCK_RECORDS); [done|apply parse_spec_read_u32_at_most|].
  intros n. apply parse_spec_read_indexed, parse_spec_read_record.
Qed.

Lemma parse_spec_read_decision_height :
  parse_spec read_decision_height
    (fun z bs => exists a : array 8, bs = arr a /\ z = as_i64 (from_be_bytes bs)).
Proof.
  eapply parse_spec_proper; [|unfold read_decision_height; apply parse_spec_map, parse_spec_read_array].
  intros z bs. cbn. naive_solver.
Qed.

#[local] Hint Extern 0 (parse_spec read_header _) => eapply parse_spec_read_header : grammar.
#[local] Hint Extern 0 (parse_spec read_counted_records _) =>
  eapply parse_spec_read_counted_records : grammar.
#[local] Hint Extern 0 (parse_spec read_decision_height _) =>
  eapply parse_spec_read_decision_height : grammar.

Lemma build_stored_Ok h app network height block validators rs b :
  header_wf h -> height <= I64_MAX ->
  build_stored h app network height block validators rs = Ok b <->
  block_consistent h rs /\ decision_wf (mk_CometBftDecision network height block validators) /\
  b = mk_StoredBlock 0 h app (mk_CometBftDecision network height block validators) rs.
Proof.
  intros Hw Hm. unfold build_stored. split.
  - intros Hb. inv_ok. destruct_units. rewrite validate_block_Ok in Hx by done.
    by apply from_persisted_Ok in Hx0 as [? ->].
  - intros (Hc & Hd & ->). rewrite (proj2 (validate_block_Ok h rs Hw)) by done.
    cbn [map_err mbind result_bind].
    by rewrite (proj2 (from_persisted_Ok _ _ _ _ _ Hm)) by (split; [exact Hd|reflexivity]).
Qed.

Lemma decode_payload_Ok bs b :
  len bs <= ISIZE_MAX ->
  decode_payload bs = Ok b <-> stored_wf b /\ sb_offset b = 0 /\ bs = block_payload b.
Proof.
  intros Hl. unfold decode_payload. erewrite run_iff; [|grammar_of|done].
  cbv beta. unfold nested_grammar, counted_grammar. split.
  - intros H'. grammar_inv. subst.
    match goal with Hb : build_stored _ _ _ _ _ _ _ = Ok _ |- _ =>
      apply build_stored_Ok in Hb as (Hc & Hd & ->); [|done|apply as_i64_range] end.
    split; [by split|]. split; [done|]. unfold block_payload, payload_bytes, counted.
    cbn [sb_header sb_app_hash sb_comet_decision sb_records cd_network_id cd_height cd_block_hash
      cd_next_validators_hash].
    rewrite as_i64_bytes, app_nil_r, <-!app_assoc. done.
  - intros [[Hh Hr Hd Hc] [Ho ->]]. destruct b as [o h app [network height block validators] rs].
    cbn in Ho, Hh, Hr, Hc. subst o. pose proof (dec_height _ Hd) as Hz. cbn in Hz.
    destruct (i64_field height ltac:(lia)) as (a & Ha & Hz').
    unfold block_payload, payload_bytes. cbn [sb_header sb_app_hash sb_comet_decision sb_records
      cd_network_id cd_height cd_block_hash cd_next_validators_hash].
    rewrite (app_assoc (to_be_bytes 4 (len (encode_block_header h)))).
    rewrite <-(app_nil_r (to_be_bytes 4 (len rs) ++ _)).
    refine (ex_intro _ tt _). do 2 eexists. split; [reflexivity|]. split; [|reflexivity].
    refine (ex_intro _ tt _). do 2 eexists. split; [reflexivity|]. split; [|reflexivity].
    refine (ex_intro _ h _). do 2 eexists. split; [split; [exact Hh|reflexivity]|]. split; [|reflexivity].
    do 2 grammar_split.
    refine (ex_intro _ height _). do 2 eexists. split; [exists a; split; [exact Ha|exact Hz']|].
    split; [|reflexivity]. do 2 grammar_split.
    refine (ex_intro _ rs _). do 2 eexists. split; [split; [|split; [exact Hr|reflexivity]]|].
    { pose proof (validate_record_hashes_count _ _ (blk_hashes _ _ Hc)) as Hn.
      rewrite length_fmap in Hn. rewrite Hn. apply (header_count _ Hh). }
    split; [split; [|reflexivity]|reflexivity]. by apply build_stored_Ok; [|lia|].
Qed.

Lemma length_payload_bytes h app d rs :
  len (payload_bytes h app d rs) =
  BLOCK_PAYLOAD_FIXED_BYTES + len (encode_block_header h) + len (concat (encode_sized_record <$> rs)).
Proof.
  unfold payload_bytes. rewrite !length_app, !length_to_be_bytes, !length_arr.
  unfold BLOCK_PAYLOAD_FIXED_BYTES, COMET_DECISION_ENCODED_BYTES. cbn. lia.
Qed.

Lemma record_bytes_fold (rs : list TransactionRecord) acc t :
  0 <= acc <= USIZE_MAX ->
  try_fold (fun total record =>
    value ← ok_or (checked_add USIZE_MAX total 4) BlockJournalError.PayloadLengthOverflow;
    ok_or (checked_add USIZE_MAX value (len (record_encode record)))
      BlockJournalError.PayloadLengthOverflow) acc rs = Ok t <->
  t = acc + len (concat (encode_sized_record <$> rs)) /\ t <= USIZE_MAX.
Proof.
  revert acc. induction rs as [|r rs IH]; intros acc Ha; cbn [try_fold].
  { cbn. split; [intros [= <-]; lia|intros [-> _]; f_equal; lia]. }
  rewrite fmap_cons. cbn [concat]. unfold encode_sized_record at 1.
  rewrite !length_app, length_to_be_bytes. unfold checked_add.
  destruct (Z.leb_spec (acc + 4) USIZE_MAX); cbn [ok_or mbind result_bind]; [|split; [done|lia]].
  destruct (Z.leb_spec (acc + 4 + len (record_encode r)) USIZE_MAX); cbn [ok_or mbind result_bind];
    [|split; [done|lia]].
  unfold checked_add in IH. rewrite IH by lia. split; intros []; split; lia.
Qed.

Lemma limit_payload_Ok bs bs' :
  limit_payload bs = Ok bs' <-> bs' = bs /\ len bs <= MAX_BLOCK_FRAME_PAYLOAD_LENGTH.
Proof.
  unfold limit_payload. destruct (Z.ltb_spec MAX_BLOCK_FRAME_PAYLOAD_LENGTH (len bs)).
  - split; [done|lia].
  - split; [by intros [= <-]|by intros [-> _]].
Qed.

Lemma payload_sums fixed (header records payload : nat) :
  Z.of_nat payload = fixed + Z.of_nat header + Z.of_nat records ->
  Z.of_nat payload <= MAX_BLOCK_FRAME_PAYLOAD_LENGTH -> 0 <= fixed ->
  MAX_BLOCK_FRAME_PAYLOAD_LENGTH <= U32_MAX ->
  Z.of_nat records <= USIZE_MAX /\
  checked_add USIZE_MAX fixed (Z.of_nat header) = Some (fixed + Z.of_nat header) /\
  checked_add USIZE_MAX (fixed + Z.of_nat header) (Z.of_nat records) = Some (Z.of_nat payload).
Proof. intros. rewrite !checked_add_Some. lia. Qed.

Lemma encode_payload_Ok h app d rs bs :
  header_wf h ->
  encode_payload h app d rs = Ok bs <->
  block_consistent h rs /\ bs = payload_bytes h app d rs /\ len bs <= MAX_BLOCK_FRAME_PAYLOAD_LENGTH.
Proof.
  intros Hw. pose proof (length_payload_bytes h app d rs) as Hlen.
  unfold encode_payload. split.
  - intros He. inv_ok. destruct_units. rewrite validate_block_Ok in Hx by done.
    by apply limit_payload_Ok in He as [-> ?].
  - intros (Hc & -> & Hle). revert Hlen Hle.
    generalize (encode_block_header h), (payload_bytes h app d rs). intros hb pb Hlen Hle.
    rewrite (proj2 (validate_block_Ok h rs Hw) Hc). cbn [mbind result_bind].
    destruct (payload_sums _ _ _ _ Hlen Hle) as (Ht & E1 & E2); [done..|].
    assert (H0 : 0 <= 0 <= USIZE_MAX) by lia.
    rewrite (proj2 (record_bytes_fold rs 0 (len (concat (encode_sized_record <$> rs))) H0))
      by (split; [reflexivity|exact Ht]).
    cbn [mbind result_bind]. rewrite E1. cbn [ok_or mbind result_bind]. rewrite E2.
    cbn [ok_or mbind result_bind]. by apply limit_payload_Ok.
Qed.

(** ** Frames *)

(** A block the journal accepts: valid, and short enough for one frame. *)
(** ** Frames *)

(** The journal stores blocks. *)
Definition block_kind : EntryKind StoredBlock StoredBlock := mk_EntryKind block_payload stored_wf sb_at.

Lemma decode_frame_payload p b :
  len p <= MAX_BLOCK_FRAME_PAYLOAD_LENGTH ->
  decode_payload p = Ok b <-> stored_wf b /\ sb_offset b = 0 /\ p = block_payload b.
Proof.
  intros Hl. apply decode_payload_Ok. assert (MAX_BLOCK_FRAME_PAYLOAD_LENGTH <= U32_MAX) by done. lia.
Qed.

#[global] Instance block_laws : FrameLaws block_format block_kind.
Proof.
  split; [done..| |].
  - intros offset magic. apply exact_magic_Ok.
  - intros offset p b Hl. cbn [ff_decode block_format ff_maximum] in *. rewrite bind_Ok. split.
    + intros (b0 & Hd & [= <-]). apply map_err_Ok in Hd.
      apply decode_frame_payload in Hd as (Hw & _ & ->); [|done]. by exists b0.
    + intros (b0 & Hw & -> & ->). exists (sb_at 0 b0). split; [|done]. apply map_err_Ok.
      apply decode_frame_payload; [done|]. split; [|done]. by destruct Hw; split.
Qed.

End Facts.

Abbreviation storable_block := (storable block_format block_kind).
Abbreviation block_frame := (entry_frame block_format block_kind).
Abbreviation journal_bytes := (log_bytes block_format block_kind).
Abbreviation placed_blocks := (placed block_format block_kind).
Abbreviation read_block := (read_frame block_format).

Section Journal.
Context `{Sha2}.

Lemma placed_blocks_again o1 o2 l : placed_blocks o1 (placed_blocks o2 l) = placed_blocks o1 l.
Proof. revert o1 o2. induction l as [|b l IH]; intros o1 o2; [done|]. cbn. by rewrite IH. Qed.

Lemma journal_bytes_placed offset l : journal_bytes (placed_blocks offset l) = journal_bytes l.
Proof.
  revert offset. induction l as [|b l IH]; intros offset; [done|]. unfold log_bytes in *. cbn.
  by rewrite IH.
Qed.

(** ** Streams of blocks *)

Lemma visit_with_visitor {S E} (visitor : StoredBlock -> M S E unit) blocks s :
  visit_all (fun b => with_visitor (visitor b)) blocks s = with_visitor (visit_all visitor blocks) s.
Proof.
  revert s. induction blocks as [|b blocks IH]; intros s; [done|]. cbn [visit_all].
  unfold with_visitor in *. rewrite !M_bind_eq.
  destruct (visitor b s) as [[[]|e] s']; cbn [map_err]; [apply IH|done].
Qed.

Section Visitor.
Context {S E : Type} (visitor : StoredBlock -> M S E unit).

Lemma stream_blocks_sound file s tail s' :
  stream_blocks visitor file s = (Ok tail, s') ->
  exists blocks torn, file = journal_bytes blocks ++ torn /\ Forall storable_block blocks /\
    visit_all visitor (placed_blocks 0 blocks) s = (Ok tt, s') /\
    tail_of block_format block_kind blocks tail torn.
Proof.
  intros Hs. unfold stream_blocks, stream_frames in Hs.
  apply (stream_loop_sound _ block_kind) in Hs as (blocks & torn & -> & Hb & Hv & Ht); [|done].
  rewrite visit_with_visitor in Hv. unfold with_visitor in Hv.
  exists blocks, torn. split_and!; [done..| |by destruct tail].
  by destruct (visit_all visitor _ s) as [[[]|] ?]; cbn [map_err] in Hv; simplify_eq.
Qed.

Lemma stream_blocks_complete blocks s :
  Forall storable_block blocks -> len (journal_bytes blocks) <= U64_MAX ->
  stream_blocks visitor (journal_bytes blocks) s =
  match visit_all visitor (placed_blocks 0 blocks) s with
  | (Err e, s') => (Err (Visitor e), s')
  | (Ok _, s') => (Ok None, s')
  end.
Proof.
  intros Hb Hl. unfold stream_blocks. rewrite (stream_complete _ block_kind) by done.
  rewrite visit_with_visitor. unfold with_visitor. by destruct (visit_all _ _ _) as [[]].
Qed.

Lemma stream_blocks_partial blocks t torn s :
  Forall storable_block blocks -> len (journal_bytes blocks) <= U64_MAX ->
  tail_of block_format block_kind blocks (Some t) torn ->
  stream_blocks visitor (journal_bytes blocks ++ torn) s =
  match visit_all visitor (placed_blocks 0 blocks) s with
  | (Err e, s') => (Err (Visitor e), s')
  | (Ok _, s') => (Ok (Some t), s')
  end.
Proof.
  destruct t as [o section]. intros Hb Hl Ht. cbn in Ht. destruct Ht as (Ht & -> & Hr).
  unfold stream_blocks.
  rewrite (stream_partial _ block_kind _ _ _ _ section) by done.
  rewrite visit_with_visitor. unfold with_visitor. by destruct (visit_all _ _ _) as [[]].
Qed.

End Visitor.

(** ** Operations on the file *)

(** A storable block always reaches the file system. *)
Lemma append_block_storable io b file :
  storable_block b -> append_block io b file = write_frame block_append_calls io (block_frame b) file.
Proof.
  intros Hs. pose proof Hs as [Hw Hl]. cbn [ek_ok ek_payload block_kind ff_maximum block_format] in Hw, Hl.
  unfold append_block. msimpl.
  rewrite (proj2 (validate_block_Ok _ _ (st_header _ Hw)) (st_consistent _ Hw)).
  assert (He : encode_payload (sb_header b) (sb_app_hash b) (sb_comet_decision b) (sb_records b) =
    Ok (block_payload b)).
  { apply encode_payload_Ok; [apply Hw|]. split; [apply Hw|]. split; [done|exact Hl]. }
  rewrite He.
  assert (Hd : decode_payload (block_payload b) = Ok (sb_at 0 b)).
  { apply decode_frame_payload; [done|]. split; [|done]. by destruct Hw; split. }
  rewrite Hd. cbn [map_err].
  pose proof (encode_frame_storable block_format block_kind b Hs) as Hf. cbn [ek_payload block_kind] in Hf.
  by rewrite Hf.
Qed.

Lemma visit_nothing {E} blocks (s : unit) :
  visit_all (fun _ : StoredBlock => mret tt : M unit E unit) blocks s = (Ok tt, s).
Proof. induction blocks as [|b blocks IH]; [by destruct s|]. cbn [visit_all]. by rewrite M_bind_eq. Qed.

Lemma visit_push {E} blocks (acc : list StoredBlock) :
  visit_all (fun b => modify (fun acc => acc ++ [b]) : M _ E unit) blocks acc = (Ok tt, acc ++ blocks).
Proof.
  revert acc. induction blocks as [|b blocks IH]; intros acc; [by rewrite app_nil_r|].
  cbn [visit_all]. rewrite M_bind_eq. cbn [modify]. rewrite IH. by rewrite <-app_assoc.
Qed.

Lemma validate_complete blocks :
  Forall storable_block blocks -> len (journal_bytes blocks) <= U64_MAX ->
  validate_complete_file_streaming (journal_bytes blocks) = Ok tt.
Proof.
  intros Hb Hl. unfold validate_complete_file_streaming. rewrite stream_blocks_complete by done.
  by rewrite visit_nothing.
Qed.

Lemma truncate_partial io blocks t torn :
  Forall storable_block blocks -> len (journal_bytes blocks) <= U64_MAX ->
  tail_of block_format block_kind blocks (Some t) torn ->
  truncate_verified_incomplete_tail io t (journal_bytes blocks ++ torn) =
  match io with
  | SetLenFails => (Err (BlockJournalError.Io "remove verified incomplete block-journal tail"),
                    journal_bytes blocks ++ torn)
  | SyncAllFails => (Err (BlockJournalError.Io "sync recovered block journal"), journal_bytes blocks)
  | TruncateSucceeds => (Ok tt, journal_bytes blocks)
  end.
Proof.
  intros Hb Hl Ht. unfold truncate_verified_incomplete_tail. msimpl.
  rewrite (stream_blocks_partial _ _ t) by done. rewrite visit_nothing. cbn [fst infallible].
  rewrite truncate_found_restores by done. by destruct io; rewrite ?validate_complete.
Qed.

(** The blocks a file holds and what is left of an interrupted append. *)
Lemma scan_sound file blocks tail :
  scan_recoverable_tail file = Ok (blocks, tail) ->
  exists bs torn, blocks = placed_blocks 0 bs /\ Forall storable_block bs /\
    file = journal_bytes bs ++ torn /\ tail_of block_format block_kind bs tail torn.
Proof.
  unfold scan_recoverable_tail.
  destruct (stream_blocks _ file []) as [[t|[e|[]]] acc] eqn:Hs; cbn [infallible mbind result_bind]; [|done].
  intros [= <- <-].
  apply stream_blocks_sound in Hs as (bs & torn & -> & Hb & Hv & Ht).
  rewrite visit_push in Hv. injection Hv as <-. by exists bs, torn.
Qed.

Lemma scan_holds blocks tail torn :
  Forall storable_block blocks -> len (journal_bytes blocks) <= U64_MAX ->
  tail_of block_format block_kind blocks tail torn ->
  scan_recoverable_tail (journal_bytes blocks ++ torn) = Ok (placed_blocks 0 blocks, tail).
Proof.
  intros Hb Hl Ht. unfold scan_recoverable_tail. destruct tail as [t|].
  - rewrite (stream_blocks_partial _ _ t) by done. by rewrite visit_push.
  - rewrite Ht, app_nil_r, stream_blocks_complete by done. by rewrite visit_push.
Qed.

Lemma append_block_cases io blocks b r file :
  storable_block b -> append_block io b (journal_bytes blocks) = (r, file) ->
  appended block_format block_kind blocks b (is_ok r) file /\
  match r with
  | Ok offset => offset = len (journal_bytes blocks)
  | Err e => exists operation, e = BlockJournalError.Io operation
  end.
Proof.
  intros Hb Ha. rewrite append_block_storable in Ha by done.
  apply (write_frame_appended _ block_kind) in Ha as [Ha Hr]; [|done]. split; [done|].
  destruct r; [done|]. cbn in Hr. set_unfold. naive_solver.
Qed.

End Journal.

(** ** Properties *)

(** the block payload codec is exact.  A payload decodes to a block if and
    only if the block is valid (canonical header, hash-verified records, a
    decision the engine could have made, records linked as the header announces)
    and the payload is its encoding; encoding succeeds exactly for consistent
    blocks that fit one frame. *)
Theorem payload_codec_exact `{Sha2} bs b :
  len bs <= ISIZE_MAX ->
  (decode_payload bs = Ok b <-> stored_wf b /\ sb_offset b = 0 /\ bs = block_payload b) /\
  (header_wf (sb_header b) ->
   encode_payload (sb_header b) (sb_app_hash b) (sb_comet_decision b) (sb_records b) = Ok bs <->
   block_consistent (sb_header b) (sb_records b) /\ bs = block_payload b /\
   len bs <= MAX_BLOCK_FRAME_PAYLOAD_LENGTH).
Proof. intros Hl. split; [by apply decode_payload_Ok|]. intros Hw. by apply encode_payload_Ok. Qed.

(** recovery returns exactly the blocks that were written.  A file scans
    without a tail to a list of blocks if and only if it is the concatenation of
    their frames, each block valid and carrying the offset of its frame; so two
    different journals are never read as the same blocks. *)
Theorem journal_scan_exact `{Sha2} file blocks :
  len file <= U64_MAX ->
  scan_recoverable_tail file = Ok (blocks, None) <->
  file = journal_bytes blocks /\ Forall storable_block blocks /\ blocks = placed_blocks 0 blocks.
Proof.
  intros Hl. split.
  - intros (bs & torn & -> & Hb & -> & ->)%scan_sound.
    rewrite app_nil_r, journal_bytes_placed, placed_blocks_again. split_and!; [done| |done].
    clear Hl. generalize 0. induction Hb as [|b bs [Hw Hs] _ IH]; intros o; constructor; [|apply IH].
    split; [by destruct Hw; split|done].
  - intros (-> & Hb & Hp). rewrite Hp at 2. rewrite <-(app_nil_r (journal_bytes blocks)).
    by apply scan_holds.
Qed.

(** appends are atomic across crashes.  Whatever happens to the calls that
    append a block, a seek, a write cut short after any number of bytes, a flush
    or a sync failing, or nothing, the file that remains is recovered to the old
    blocks or to the old blocks and the new one, to the latter if the append
    reported success; a partial frame is found as such, and truncating it
    restores the old file. *)
Theorem append_crash_atomic `{Sha2} io blocks b r file :
  Forall storable_block blocks -> storable_block b -> len (journal_bytes (blocks ++ [b])) <= U64_MAX ->
  append_block io b (journal_bytes blocks) = (r, file) ->
  exists kept tail,
    scan_recoverable_tail file = Ok (placed_blocks 0 kept, tail) /\
    (kept = blocks \/ kept = blocks ++ [b]) /\
    (is_ok r = true -> kept = blocks ++ [b]) /\
    match tail with
    | None => file = journal_bytes kept
    | Some t => kept = blocks /\
        truncate_verified_incomplete_tail TruncateSucceeds t file = (Ok tt, journal_bytes blocks)
    end.
Proof.
  intros Hbs Hb Hl Ha. apply append_block_cases in Ha as [Ha _]; [|done].
  apply appended_holds in Ha as (kept & tail & torn & Hk & -> & Ht & Hkl & Hcase & Hok); [|done..].
  exists kept, tail. split_and!; [by apply scan_holds|naive_solver|done|].
  destruct tail as [t|]; [|by rewrite Ht, app_nil_r].
  destruct Hcase as [->|[_ [=]]]. split; [done|]. by apply (truncate_partial TruncateSucceeds).
Qed.


(** corruption of a payload fails closed.  If one byte of the payload of a
    stored block is changed to any other value, recovery reports a checksum
    mismatch at the frame of that block, whatever precedes and follows it. *)
Theorem payload_corruption_detected `{Sha2} blocks b before x y after later :
  Forall storable_block blocks -> storable_block b -> block_payload b = before ++ x :: after -> x <> y ->
  len (journal_bytes blocks) <= U64_MAX ->
  let corrupted := before ++ y :: after in
  scan_recoverable_tail
    (journal_bytes blocks ++
     frame_header block_format (len (block_payload b)) ++ corrupted ++
     to_be_bytes 4 (crc32 (block_payload b)) ++ later) =
  Err (BlockJournalError.ChecksumMismatch (len (journal_bytes blocks)) (crc32 (block_payload b))
         (crc32 corrupted)).
Proof.
  intros Hbs [_ Hmax] Hp Hxy Hl corrupted.
  assert (Hlen : len corrupted = len (block_payload b)).
  { rewrite Hp. unfold corrupted. rewrite !length_app. done. }
  assert (Hcrc : crc32 corrupted <> crc32 (block_payload b)).
  { rewrite Hp. intros He%crc32_one_byte. congruence. }
  cbn [ek_payload block_kind] in Hmax.
  unfold scan_recoverable_tail, stream_blocks. rewrite (stream_corrupted _ block_kind) by done.
  rewrite visit_with_visitor. unfold with_visitor. by rewrite visit_push.
Qed.

(** ** Witnesses *)

Section Samples.
#[local] Existing Instance toy_sha2.

Definition stored_input (height : Z) (parent : option BlockId) : BlockHeaderInput :=
  mk_BlockHeaderInput 1 (fill 32 x0a) (fill 32 x0b) (fill 32 x0c) (fill 32 x0d) height 0 0
    parent (fill 32 x0f) (fill 32 x0f) 1 0 (sha256 (records_preimage [])).

(** A block without transactions. *)
Definition stored_sample (height : Z) (parent : option BlockId) : StoredBlock :=
  let input := stored_input height parent in
  mk_StoredBlock 0
    (mk_BlockHeader input (domain_hash BLOCK_ID_DOMAIN (encode_block_header_fields input)))
    (fill 32 x21) (mk_CometBftDecision (fill 32 x22) (9 + height) (fill 32 x23) (fill 32 x24)) [].

Definition stored_first : StoredBlock := stored_sample 1 None.
Definition stored_second : StoredBlock := stored_sample 2 (Some (fill 32 x0e)).

Lemma stored_sample_wf height parent :
  1 <= height <= 2 -> (parent = None <-> height = 1) -> storable_block (stored_sample height parent).
Proof.
  intros Hh Hp.
  assert (Hw : header_wf (sb_header (stored_sample height parent))).
  { split; cbn -[domain_hash encode_block_header_fields]; unfold in_range, MAX_BLOCK_RECORDS; try lia; try done. }
  split.
  - split; [exact Hw|constructor| |].
    + split; cbn; first [lia|intros Hf%(f_equal arr); discriminate Hf].
    + split; [|done|reflexivity]. apply validate_record_hashes_Ok. by_eval.
  - cbn [ek_payload block_kind ff_maximum block_format]. unfold block_payload. rewrite length_payload_bytes, length_encode_block_header. by_eval.
Qed.

Lemma stored_first_storable : storable_block stored_first.
Proof. apply stored_sample_wf; [lia|done]. Qed.

Lemma stored_second_storable : storable_block stored_second.
Proof. apply stored_sample_wf; [lia|]. split; [done|lia]. Qed.

Lemma length_journal_first : len (journal_bytes [stored_first]) <= U64_MAX.
Proof. by_eval. Qed.

Lemma length_journal_both : len (journal_bytes [stored_first; stored_second]) <= U64_MAX.
Proof. by_eval. Qed.

Lemma payload_codec_exact_witness :
  @decode_payload toy_sha2 (block_payload stored_first) = Ok stored_first.
Proof.
  refine (proj2 (proj1 (@payload_codec_exact toy_sha2 (block_payload stored_first) stored_first _)) _).
  - by_eval.
  - split; [exact (proj1 stored_first_storable)|]. split; reflexivity.
Defined.

Lemma journal_scan_exact_witness :
  @scan_recoverable_tail toy_sha2 (journal_bytes [stored_first]) = Ok ([stored_first], None).
Proof.
  apply (proj2 (@journal_scan_exact toy_sha2 (journal_bytes [stored_first]) [stored_first]
    length_journal_first)).
  split; [reflexivity|]. split; [|reflexivity]. constructor; [exact stored_first_storable|constructor].
Defined.

(** The second append is cut after twenty bytes. *)
Lemma append_crash_atomic_witness :
  exists kept tail,
    @scan_recoverable_tail toy_sha2 (journal_bytes [stored_first] ++ take 20 (block_frame stored_second)) =
    Ok (placed_blocks 0 kept, tail).
Proof.
  destruct (@append_crash_atomic toy_sha2 (WriteFails 20) [stored_first] stored_second
    (Err (BlockJournalError.Io "append block frame"))
    (journal_bytes [stored_first] ++ take 20 (block_frame stored_second))) as (kept & tail & Hs & _).
  - constructor; [exact stored_first_storable|constructor].
  - exact stored_second_storable.
  - exact length_journal_both.
  - rewrite append_block_storable by exact stored_second_storable. reflexivity.
  - exists kept, tail. exact Hs.
Defined.

(** The last byte of the first block's payload, part of its record count, set to
    one. *)
Lemma payload_corruption_detected_witness :
  let p := block_payload stored_first in
  @scan_recoverable_tail toy_sha2
    (frame_header (@block_format toy_sha2) (len p) ++ (take 446 p ++ [x01]) ++ to_be_bytes 4 (crc32 p)) =
  Err (BlockJournalError.ChecksumMismatch 0 (crc32 p) (crc32 (take 446 p ++ [x01]))).
Proof.
  intros p.
  pose proof (@payload_corruption_detected toy_sha2 [] stored_first (take 446 p) x00 x01 [] []) as Hc.
  rewrite app_nil_r in Hc. apply Hc.
  - constructor.
  - exact stored_first_storable.
  - by_eval.
  - discriminate.
  - by_eval.
Defined.

End Samples.
