(* ===== verification/PersistentExecution.v ===== *)
(** * Durable execution ([noxis-storage/src/persistent_execution.rs])

    The single-writer coordinator over the block journal: it opens a journal by
    re-executing every stored block, executes proposals against the durable tip,
    and commits one executed block at a time. *)

From Stdlib Require Import Strings.Byte Strings.String.
From S2P Require Import Prelude Arrays Reader Sha256 Types Crypto Ledger Codec RecordChain Crc32.
From S2P Require Import Consensus ConsensusCodec Engine Execution Frames BlockJournal.

Module PersistentExecutionError.
Inductive PersistentExecutionError : Type :=
| Journal (error : BlockJournalError)
| Execution (error : ExecutionError)
| HeightOverflow
| UnexpectedCommitHeight (expected actual : Z)
| ConflictingCommitAtHeight (height : Z)
| ReplayMismatch (height : Z)
| WriteUnavailable.
End PersistentExecutionError.
Abbreviation PersistentExecutionError := PersistentExecutionError.PersistentExecutionError.

Record DurableBlockReceipt : Type := mk_DurableBlockReceipt {
  db_height : Z;
  db_block_id : BlockId;
  db_app_hash : AppHash;
  db_state_id : StateId;
  db_log_offset : Z
}.

(** The journal is the contents of its file; the writer holds its lock. *)
Record PersistentExecution : Type := mk_PersistentExecution {
  pe_context : ExecutionContext;
  pe_journal : list byte;
  pe_committed : CommittedExecutionState;
  pe_app_hash : option AppHash;
  pe_tip_offset : option Z;
  pe_writes_available : bool
}.

Section Coordinator.
Context `{Sha2}.

Definition stored_proposal (stored : StoredBlock) : BlockProposal :=
  mk_BlockProposal (bh_height (bh_input (sb_header stored))) (sb_comet_decision stored)
    (rec_transaction_bytes <$> sb_records stored).

Definition reexecute_stored (context : ExecutionContext) (committed : CommittedExecutionState)
    (stored : StoredBlock) : Result PersistentExecutionError ExecutedBlock :=
  executed ← map_err PersistentExecutionError.Execution
               (execute_block context committed (stored_proposal stored));
  if negb (bool_decide (eb_header executed = sb_header stored))
     || negb (bool_decide (eb_comet_decision executed = sb_comet_decision stored))
     || negb (bool_decide (eb_records executed = sb_records stored))
     || negb (bool_decide (eb_app_hash executed = sb_app_hash stored))
  then Err (PersistentExecutionError.ReplayMismatch (bh_height (bh_input (sb_header stored))))
  else Ok executed.

(** The variables captured by the replay closure of [open]. *)
Record Recovered : Type := mk_Recovered {
  rv_committed : CommittedExecutionState;
  rv_app_hash : option AppHash;
  rv_tip_offset : option Z
}.

Definition replay_visitor (context : ExecutionContext) (stored : StoredBlock)
    : M Recovered PersistentExecutionError unit :=
  self ← get;
  executed ← lift (reexecute_stored context (rv_committed self) stored);
  put (mk_Recovered (into_committed_state executed) (Some (sb_app_hash stored))
         (Some (sb_offset stored))).

Definition replay_error (error : BlockJournalReplayError PersistentExecutionError)
    : PersistentExecutionError :=
  match error with
  | Journal error => PersistentExecutionError.Journal error
  | Visitor error => error
  end.

(** A journal call inside [open] and [commit]. *)
Definition on_file {A} (m : M (list byte) BlockJournalError A)
    : M (list byte) PersistentExecutionError A :=
  fun file => let '(r, file') := m file in (map_err PersistentExecutionError.Journal r, file').

(** [PersistentExecution::open], on the contents of the file. *)
Definition pe_open (io : TruncateIo) (genesis_state : LedgerState) (context : ExecutionContext)
    : M (list byte) PersistentExecutionError PersistentExecution :=
  committed ← lift (map_err PersistentExecutionError.Execution
                      (execution_genesis genesis_state (ec_chain_anchor context)));
  file ← get;
  let '(r, recovered) :=
    stream_blocks (replay_visitor context) file (mk_Recovered committed None None) in
  tail ← lift (map_err replay_error r);
  _ ← match tail with
      | Some tail => on_file (truncate_verified_incomplete_tail io tail)
      | None => mret tt
      end;
  file ← get;
  mret (mk_PersistentExecution context file (rv_committed recovered) (rv_app_hash recovered)
          (rv_tip_offset recovered) true).

(** [PersistentExecution::execute]. *)
Definition pe_execute (self : PersistentExecution) (proposal : BlockProposal)
    : Result PersistentExecutionError ExecutedBlock :=
  map_err PersistentExecutionError.Execution
    (execute_block (pe_context self) (pe_committed self) proposal).

(** [PersistentExecution::candidate_execution_state]. *)
Definition pe_candidate (self : PersistentExecution) : CandidateExecutionState :=
  from_committed (pe_committed self).

(** [PersistentExecution::simulate_transaction]. *)
Definition pe_simulate (self : PersistentExecution) (transaction : list byte)
    : M CandidateExecutionState PersistentExecutionError ExecutionReceipt :=
  fun candidate =>
    let '(r, candidate') := simulate_transaction (pe_context self) transaction candidate in
    (map_err PersistentExecutionError.Execution r, candidate').

(** [PersistentExecution::idempotent_receipt]; the error [None] is the panic of
    [expect]. *)
Definition idempotent_receipt (self : PersistentExecution) (block : ExecutedBlock)
    : Result (option PersistentExecutionError) DurableBlockReceipt :=
  if (0 <? ce_height (pe_committed self))
     && bool_decide (ce_block_id (pe_committed self) = Some (bh_id (eb_header block)))
     && bool_decide (pe_app_hash self = Some (eb_app_hash block))
  then
    log_offset ← ok_or (pe_tip_offset self) None;
    Ok (mk_DurableBlockReceipt (ce_height (pe_committed self)) (bh_id (eb_header block))
          (eb_app_hash block) (current_state_id (ce_record_chain (pe_committed self))) log_offset)
  else Err (Some (PersistentExecutionError.ConflictingCommitAtHeight
                    (ce_height (pe_committed self)))).

(** The part of [commit] after the height checks and the re-execution: append
    the frame and move the tip, or stop all writes. *)
Definition commit_stored (io : AppendIo) (stored : StoredBlock) (executed : ExecutedBlock)
    : M PersistentExecution (option PersistentExecutionError) DurableBlockReceipt :=
  fun self =>
    match append_block io stored (pe_journal self) with
    | (Err error, file) =>
        (Err (Some (PersistentExecutionError.Journal error)),
         mk_PersistentExecution (pe_context self) file (pe_committed self) (pe_app_hash self)
           (pe_tip_offset self) false)
    | (Ok offset, file) =>
        let header := eb_header executed in
        (Ok (mk_DurableBlockReceipt (bh_height (bh_input header)) (bh_id header)
               (eb_app_hash executed) (bh_resulting_state_id (bh_input header)) offset),
         mk_PersistentExecution (pe_context self) file (into_committed_state executed)
           (Some (eb_app_hash executed)) (Some offset) (pe_writes_available self))
    end.

(** [PersistentExecution::commit]. *)
Definition pe_commit (io : AppendIo) (block : ExecutedBlock)
    : M PersistentExecution (option PersistentExecutionError) DurableBlockReceipt :=
  self ← get;
  let height := bh_height (bh_input (eb_header block)) in
  if negb (pe_writes_available self)
  then lift (Err (Some PersistentExecutionError.WriteUnavailable))
  else if height =? ce_height (pe_committed self)
  then lift (idempotent_receipt self block)
  else
    expected_height ← lift (ok_or (checked_add U64_MAX (ce_height (pe_committed self)) 1)
                              (Some PersistentExecutionError.HeightOverflow));
    if negb (height =? expected_height)
    then lift (Err (Some (PersistentExecutionError.UnexpectedCommitHeight expected_height height)))
    else
      stored ← lift (map_err (fun e => Some (PersistentExecutionError.Journal e))
                 (stored_new (eb_header block) (eb_app_hash block) (eb_comet_decision block)
                    (eb_records block)));
      executed ← lift (map_err Some
                   (reexecute_stored (pe_context self) (pe_committed self) stored));
      commit_stored io stored executed.

End Coordinator.
