(* ===== verification/PersistentExecutionFacts.v ===== *)
(** * Facts about durable execution

    Every block that execution produces can be stored; the journal of a
    coordinator re-executes to its committed state; a commit is atomic across
    crashes and survives reopening. *)

From Stdlib Require Import Strings.Byte Strings.String.
From S2P Require Import Prelude Arrays Reader Sha256 Types Crypto Merkle Ledger LedgerFacts Codec.
From S2P Require Import RecordChain Crc32 Consensus ConsensusFacts ConsensusCodec Engine EngineFacts.
From S2P Require Import Execution ExecutionFacts Frames FramesFacts BlockJournal BlockJournalFacts.
From S2P Require Import PersistentExecution.

Section Facts.
Context `{Sha2} (context : ExecutionContext) (Hctx : context_wf context).

(** ** Executed blocks can be stored *)

Definition stored_of (b : ExecutedBlock) : StoredBlock :=
  mk_StoredBlock 0 (eb_header b) (eb_app_hash b) (eb_comet_decision b) (eb_records b).

Lemma transactions_run_records c txs records c' :
  candidate_inv context c -> transactions_run context c txs records c' -> Forall record_wf records.
Proof.
  intros Hc Hrun. revert Hc.
  induction Hrun as [|c bytes record c1 txs records c2 Hstep _ IH]; intros Hc; constructor.
  - destruct Hc as [_ _ Hq]. destruct Hstep as [tx intent ledger' Hb _ Hi _ _ chain resulting].
    split; [cbn; unfold chain, in_range; lia|]. by exists tx.
  - apply IH. by eapply transaction_step_inv.
Qed.

Lemma length_sized_records rs :
  len (concat (encode_sized_record <$> rs)) =
  (RECORD_ENVELOPE_OVERHEAD + 4) * len rs + len (concat (rec_transaction_bytes <$> rs)).
Proof.
  induction rs as [|r rs IH]; [done|]. rewrite !fmap_cons. cbn [concat length].
  rewrite !length_app, !Nat2Z.inj_add, IH. unfold encode_sized_record at 1.
  rewrite length_app, length_to_be_bytes, Nat2Z.inj_add, length_record_encode. unfold RECORD_ENVELOPE_OVERHEAD. lia.
Qed.

Lemma executed_storable st p b :
  committed_inv context st -> execute_block context st p = Ok b ->
  decision_wf (bp_comet_decision p) -> storable_block (stored_of b).
Proof.
  intros Hst Hex Hd. apply execute_block_Ok in Hex as (Hp & records & c & Hrun & ->); [|done..].
  pose proof (com_candidate _ _ Hst) as Hcand. pose proof (cand_sequence _ _ Hcand) as Hq.
  destruct (transactions_run_facts _ _ _ _ _ Hcand Hrun) as (Hinv & Hlen & Hb & Hseq & Hr).
  pose proof (prop_height _ _ _ Hp) as [Hh Hmax]. pose proof (prop_count _ _ _ Hp) as Hcount.
  pose proof (prop_bytes _ _ _ Hp) as Hbytes.
  destruct (seal_run _ Hctx st Hst _ _ _ Hrun ltac:(lia) Hcount) as (_ & _ & _ & Hv & Hw).
  rewrite <-Hh in Hv, Hw. split.
  - split; [exact Hw|exact (transactions_run_records _ _ _ _ Hcand Hrun)|exact Hd|].
    cbn [stored_of sb_header sb_records sealed_block eb_header eb_records].
    apply chain_replay_Ok in Hr as (Hlink & _ & Hfin); [|cbn in Hq |- *; lia].
    split; [exact Hv|exact Hlink|]. cbn. rewrite Hfin. done.
  - cbn [ek_payload block_kind ff_maximum block_format]. unfold block_payload. rewrite length_payload_bytes, length_encode_block_header, length_sized_records.
    cbn [stored_of sb_records sealed_block eb_records]. rewrite Hb, Hlen.
    pose proof (config_bytes _ (ctx_config _ Hctx)) as Hcb.
    pose proof (config_records _ (ctx_config _ Hctx)) as Hcr.
    revert Hcb Hcr Hcount Hbytes. unfold MAX_BLOCK_FRAME_PAYLOAD_LENGTH, MAX_BLOCK_TRANSACTION_BYTES,
      BLOCK_PAYLOAD_FIXED_BYTES, COMET_DECISION_ENCODED_BYTES, BLOCK_HEADER_FIELDS_LENGTH,
      BLOCK_HEADER_MAXIMUM_LENGTH, MAX_BLOCK_RECORDS, RECORD_ENVELOPE_OVERHEAD. clear.
    generalize (len (concat (bp_transactions p))), (len (bp_transactions p)). intros x y. lia.
Qed.

(** ** Re-execution *)

Lemma stored_proposal_executed st p b :
  committed_inv context st -> execute_block context st p = Ok b -> stored_proposal (stored_of b) = p.
Proof.
  intros Hst (Hp & records & c & Hrun & ->)%execute_block_Ok; [|done..].
  pose proof (com_candidate _ _ Hst) as Hcand.
  destruct (transactions_run_facts _ _ _ _ _ Hcand Hrun) as (_ & _ & Hb & _).
  unfold stored_proposal. cbn. rewrite Hb. by destruct p.
Qed.

Lemma reexecute_stored_Ok st stored b :
  reexecute_stored context st stored = Ok b <->
  execute_block context st (stored_proposal stored) = Ok b /\ stored = sb_at (sb_offset stored) (stored_of b).
Proof.
  unfold reexecute_stored. split.
  - destruct (execute_block _ _ _) as [b'|]; cbn [map_err mbind result_bind]; [|done].
    repeat (case_bool_decide; cbn [negb orb]; [|done]). intros [= <-]. split; [done|].
    destruct stored. cbn in *. by subst.
  - intros [-> Hs]. cbn [map_err mbind result_bind]. rewrite Hs. cbn.
    by rewrite !bool_decide_eq_true_2 by done.
Qed.

Lemma reexecute_executed st p b :
  committed_inv context st -> execute_block context st p = Ok b ->
  reexecute_stored context st (stored_of b) = Ok b.
Proof.
  intros Hst Hb. apply reexecute_stored_Ok. by rewrite (stored_proposal_executed st p b).
Qed.

Lemma executed_inv st p b :
  committed_inv context st -> execute_block context st p = Ok b ->
  committed_inv context (into_committed_state b) /\
  bh_height (bh_input (eb_header b)) = ce_height st + 1 /\ eb_comet_decision b = bp_comet_decision p.
Proof.
  intros Hst (Hp & records & c & Hrun & ->)%execute_block_Ok; [|done..].
  split; [by apply sealed_block_inv|]. split; [apply Hp|done].
Qed.

(** The blocks of a journal, re-executed in order. *)
Fixpoint replay_blocks (st : CommittedExecutionState) (blocks : list StoredBlock)
    : Result PersistentExecutionError CommittedExecutionState :=
  match blocks with
  | [] => Ok st
  | b :: blocks =>
      executed ← reexecute_stored context st b;
      replay_blocks (into_committed_state executed) blocks
  end.

Lemma replay_blocks_snoc st blocks b st' executed :
  replay_blocks st blocks = Ok st' -> reexecute_stored context st' b = Ok executed ->
  replay_blocks st (blocks ++ [b]) = Ok (into_committed_state executed).
Proof.
  revert st. induction blocks as [|b' blocks IH]; intros st; cbn [replay_blocks app].
  - intros [= <-] ->. done.
  - destruct (reexecute_stored context st b'); cbn [mbind result_bind]; [apply IH|done].
Qed.

Lemma replay_blocks_inv st blocks st' :
  committed_inv context st -> replay_blocks st blocks = Ok st' ->
  committed_inv context st' /\ ce_height st' = ce_height st + len blocks.
Proof.
  revert st. induction blocks as [|b blocks IH]; intros st Hst; cbn [replay_blocks].
  - intros [= <-]. split; [done|cbn; lia].
  - destruct (reexecute_stored context st b) as [e|] eqn:He; cbn [mbind result_bind]; [|done].
    apply reexecute_stored_Ok in He as [He _].
    destruct (executed_inv _ _ _ Hst He) as (Hst' & Hh & _).
    intros Hr. apply IH in Hr as [? Hn]; [|done]. split; [done|]. cbn in Hn |- *. lia.
Qed.

(** What the replay closure has captured after some blocks. *)
Definition recovered_after (st : CommittedExecutionState) (blocks : list StoredBlock)
    (rv : Recovered) : Recovered :=
  match last blocks with
  | Some b => mk_Recovered st (Some (sb_app_hash b)) (Some (sb_offset b))
  | None => mk_Recovered st (rv_app_hash rv) (rv_tip_offset rv)
  end.

Lemma recovered_after_cons st b blocks rv st1 :
  recovered_after st blocks (mk_Recovered st1 (Some (sb_app_hash b)) (Some (sb_offset b))) =
  recovered_after st (b :: blocks) rv.
Proof. unfold recovered_after. rewrite last_cons. by destruct (last blocks). Qed.

Lemma visit_replay blocks rv st' :
  visit_all (replay_visitor context) blocks rv = (Ok tt, st') <->
  exists st, replay_blocks (rv_committed rv) blocks = Ok st /\ st' = recovered_after st blocks rv.
Proof.
  revert rv. induction blocks as [|b blocks IH]; intros rv; cbn [visit_all replay_blocks].
  - unfold recovered_after. destruct rv as [c h t]. cbn. split.
    + intros [= <-]. by exists c.
    + by intros (st & [= <-] & ->).
  - rewrite M_bind_eq. unfold replay_visitor at 1. msimpl.
    destruct (reexecute_stored context (rv_committed rv) b) as [e|]; cbn [mbind result_bind];
      [|by split; [|intros (st & ? & _)]].
    cbn [put]. rewrite IH. cbn [rv_committed]. by setoid_rewrite recovered_after_cons.
Qed.

Lemma reexecute_at o st b : reexecute_stored context st (sb_at o b) = reexecute_stored context st b.
Proof. done. Qed.

Lemma replay_placed o st blocks : replay_blocks st (placed_blocks o blocks) = replay_blocks st blocks.
Proof.
  revert o st. induction blocks as [|b blocks IH]; intros o st; [done|]. cbn [placed replay_blocks].
  rewrite reexecute_at. destruct (reexecute_stored context st b); cbn [mbind result_bind]; [apply IH|done].
Qed.

(** ** The coordinator *)

Context (ledger : LedgerState) (Hledger : ledger_inv ledger).

(** The tip a journal of blocks leads to. *)
Definition tip_state (st : CommittedExecutionState) (blocks : list StoredBlock) : PersistentExecution :=
  let rv := recovered_after st (placed_blocks 0 blocks) (mk_Recovered st None None) in
  mk_PersistentExecution context (journal_bytes blocks) st (rv_app_hash rv) (rv_tip_offset rv) true.

(** A list of valid blocks that re-executes from the genesis state to [st]. *)
Record history (blocks : list StoredBlock) (st : CommittedExecutionState) : Prop := mk_history {
  hist_storable : Forall storable_block blocks;
  hist_size : len (journal_bytes blocks) <= U64_MAX;
  hist_replay : exists st0, execution_genesis ledger (ec_chain_anchor context) = Ok st0 /\
    replay_blocks st0 blocks = Ok st
}.

(** The states of a coordinator: at a tip, or at a tip with writes stopped after
    an append of a further block whose outcome is unknown. *)
Inductive coordinator : PersistentExecution -> Prop :=
| at_tip blocks st : history blocks st -> coordinator (tip_state st blocks)
| in_doubt blocks st next st' file :
    history blocks st -> history (blocks ++ [next]) st' -> appended block_format block_kind blocks next false file ->
    coordinator (mk_PersistentExecution context file st (pe_app_hash (tip_state st blocks))
                   (pe_tip_offset (tip_state st blocks)) false).

Lemma history_inv blocks st :
  history blocks st -> committed_inv context st /\ ce_height st = len blocks.
Proof.
  intros [_ _ (st0 & Hg & Hr)].
  apply replay_blocks_inv in Hr as [Hst Hh]; [|by eapply execution_genesis_inv].
  split; [done|]. rewrite Hh. unfold execution_genesis, from_parts in Hg. cbv zeta in Hg.
  case_bool_decide; cbn in Hg; [|done]. injection Hg as <-. done.
Qed.

Lemma history_functional blocks st1 st2 : history blocks st1 -> history blocks st2 -> st1 = st2.
Proof. intros [_ _ (s1 & G1 & R1)] [_ _ (s2 & G2 & R2)]. congruence. Qed.

Lemma recovered_after_change st blocks s1 s2 :
  recovered_after st blocks (mk_Recovered s1 None None) = recovered_after st blocks (mk_Recovered s2 None None).
Proof. unfold recovered_after. by destruct (last blocks). Qed.

Lemma recovered_state st blocks rv : rv_committed (recovered_after st blocks rv) = st.
Proof. unfold recovered_after. by destruct (last blocks). Qed.

(** Opening a journal, complete or ending in a partial frame, which is cut. *)
Lemma pe_open_holds io blocks st tail torn :
  history blocks st -> tail_of block_format block_kind blocks tail torn ->
  pe_open io ledger context (journal_bytes blocks ++ torn) =
  match tail, io with
  | None, _ | Some _, TruncateSucceeds => (Ok (tip_state st blocks), journal_bytes blocks)
  | Some _, SetLenFails =>
      (Err (PersistentExecutionError.Journal
              (BlockJournalError.Io "remove verified incomplete block-journal tail")),
       journal_bytes blocks ++ torn)
  | Some _, SyncAllFails =>
      (Err (PersistentExecutionError.Journal (BlockJournalError.Io "sync recovered block journal")),
       journal_bytes blocks)
  end.
Proof.
  intros [Hb Hl (st0 & Hg & Hr)] Ht. unfold pe_open. msimpl. rewrite Hg. cbn [map_err]. msimpl.
  assert (Hv : visit_all (replay_visitor context) (placed_blocks 0 blocks) (mk_Recovered st0 None None) =
    (Ok tt, recovered_after st (placed_blocks 0 blocks) (mk_Recovered st0 None None))).
  { apply visit_replay. exists st. by rewrite replay_placed. }
  unfold tip_state. rewrite (recovered_after_change st _ st st0). destruct tail as [t|].
  - rewrite (stream_blocks_partial _ _ t) by done. rewrite Hv. cbn [map_err]. msimpl.
    unfold on_file. rewrite truncate_partial by done.
    destruct io; cbn [map_err]; msimpl; [by rewrite recovered_state|done..].
  - rewrite Ht, app_nil_r, stream_blocks_complete by done. rewrite Hv. cbn [map_err]. msimpl.
    by rewrite recovered_state.
Qed.

Lemma pe_open_complete io blocks st :
  history blocks st ->
  pe_open io ledger context (journal_bytes blocks) = (Ok (tip_state st blocks), journal_bytes blocks).
Proof. intros Hh. rewrite <-(app_nil_r (journal_bytes blocks)) at 1. by apply (pe_open_holds io _ _ None). Qed.

(** A successful open has found a history. *)
Lemma pe_open_sound io file pe file' :
  len file <= U64_MAX -> pe_open io ledger context file = (Ok pe, file') ->
  exists blocks st torn, history blocks st /\ pe = tip_state st blocks /\
    file' = journal_bytes blocks /\ file = journal_bytes blocks ++ torn.
Proof.
  intros Hlen Hopen. pose proof Hopen as Hscan. revert Hscan. unfold pe_open. msimpl.
  destruct (execution_genesis _ _) as [st0|] eqn:Hg; cbn [map_err]; [|done]. msimpl.
  destruct (stream_blocks _ _ _) as [[tail|e] rv] eqn:Hs; cbn [map_err]; msimpl; [|done]. intros _.
  apply stream_blocks_sound in Hs as (blocks & torn & -> & Hb & Hv & Ht).
  apply visit_replay in Hv as (st & Hr & ->). rewrite replay_placed in Hr. cbn [rv_committed] in Hr.
  assert (Hl : len (journal_bytes blocks) <= U64_MAX) by (rewrite length_app in Hlen; lia).
  assert (Hh : history blocks st) by (split; [done..|]; eauto).
  rewrite (pe_open_holds io _ _ _ _ Hh Ht) in Hopen. exists blocks, st, torn.
  destruct tail as [t|], io; by simplify_eq.
Qed.

Lemma tip_execute st blocks p b :
  execute_block context st p = Ok b -> pe_execute (tip_state st blocks) p = Ok b.
Proof. intros Hb. unfold pe_execute. cbn [tip_state pe_context pe_committed]. by rewrite Hb. Qed.

(** ** Commits *)

Lemma placed_snoc blocks b :
  last (placed_blocks 0 (blocks ++ [b])) = Some (sb_at (len (journal_bytes blocks)) b).
Proof. rewrite placed_app, last_app. done. Qed.

Lemma tip_state_snoc st blocks b :
  tip_state st (blocks ++ [b]) =
  mk_PersistentExecution context (journal_bytes (blocks ++ [b])) st (Some (sb_app_hash b))
    (Some (len (journal_bytes blocks))) true.
Proof. unfold tip_state, recovered_after. by rewrite placed_snoc. Qed.

(** The receipt of the block at the tip. *)
Definition receipt_for (b : ExecutedBlock) (offset : Z) : DurableBlockReceipt :=
  mk_DurableBlockReceipt (bh_height (bh_input (eb_header b))) (bh_id (eb_header b)) (eb_app_hash b)
    (bh_resulting_state_id (bh_input (eb_header b))) offset.

(** A block for the next height that agrees with its own re-execution. *)
Definition committable (st : CommittedExecutionState) (b : ExecutedBlock) (executed : ExecutedBlock) : Prop :=
  execute_block context st (stored_proposal (stored_of b)) = Ok executed /\
  stored_of executed = stored_of b /\ decision_wf (eb_comet_decision b).

Lemma committable_reexecute st b e :
  committed_inv context st -> committable st b e ->
  reexecute_stored context st (stored_of b) = Ok e /\ storable_block (stored_of b) /\
  bh_height (bh_input (eb_header b)) = ce_height st + 1 /\ ce_height st < U64_MAX /\
  eb_header e = eb_header b /\ eb_app_hash e = eb_app_hash b.
Proof.
  intros Hst (He & Hs & Hd). pose proof (executed_inv _ _ _ Hst He) as (Hinv & Hh & _).
  pose proof (com_height _ _ Hinv) as Hm. cbn in Hm.
  pose proof (executed_storable _ _ _ Hst He Hd) as Hstore. rewrite Hs in Hstore.
  unfold stored_of in Hs. injection Hs as E1 E2 E3 E4. rewrite E1 in Hh, Hm.
  split_and!; [|done|done|lia|done..]. apply reexecute_stored_Ok. split; [done|].
  unfold stored_of. cbn. by rewrite E1, E2, E3, E4.
Qed.

(** [commit] of a block for the next height runs to the append. *)
Lemma pe_commit_next io blocks st b e :
  history blocks st -> committable st b e ->
  pe_commit io b (tip_state st blocks) = commit_stored io (stored_of b) e (tip_state st blocks).
Proof.
  intros Hh Hc. destruct (history_inv _ _ Hh) as [Hst _].
  destruct (committable_reexecute _ _ _ Hst Hc) as (Hr & Hstore & Hn & Hmax & _).
  unfold pe_commit. msimpl. cbv zeta. cbn [tip_state pe_writes_available negb pe_committed pe_context].
  rewrite Hn. destruct (Z.eqb_spec (ce_height st + 1) (ce_height st)); [lia|].
  rewrite (proj2 (checked_add_Some U64_MAX (ce_height st) 1 (ce_height st + 1))) by lia. msimpl.
  rewrite Z.eqb_refl. cbn [negb]. msimpl. unfold stored_new.
  pose proof (proj2 (validate_block_Ok _ _ (st_header _ (proj1 Hstore))) (st_consistent _ (proj1 Hstore))) as Hv.
  cbn [stored_of sb_header sb_records] in Hv. rewrite Hv.
  cbn [mbind result_bind map_err]. fold (stored_of b). rewrite Hr. cbn [map_err]. done.
Qed.

Lemma history_snoc blocks st b e :
  history blocks st -> committable st b e ->
  len (journal_bytes (blocks ++ [stored_of b])) <= U64_MAX ->
  history (blocks ++ [stored_of b]) (into_committed_state e).
Proof.
  intros Hh Hc Hl. destruct (history_inv _ _ Hh) as [Hst _].
  destruct (committable_reexecute _ _ _ Hst Hc) as (Hr & Hstore & _).
  destruct Hh as [Hb _ (st0 & Hg & Hrep)]. split; [by apply Forall_app_2; [|constructor]|done|].
  exists st0. split; [done|]. by eapply replay_blocks_snoc.
Qed.

(** Every outcome of committing a block for the next height. *)
Lemma pe_commit_cases io blocks st b e r pe :
  history blocks st -> committable st b e ->
  len (journal_bytes (blocks ++ [stored_of b])) <= U64_MAX ->
  pe_commit io b (tip_state st blocks) = (r, pe) ->
  let blocks' := blocks ++ [stored_of b] in
  match r with
  | Ok receipt =>
      receipt = receipt_for b (len (journal_bytes blocks)) /\
      pe = tip_state (into_committed_state e) blocks'
  | Err error =>
      (exists operation, error = Some (PersistentExecutionError.Journal (BlockJournalError.Io operation))) /\
      exists file, appended block_format block_kind blocks (stored_of b) false file /\
        pe = mk_PersistentExecution context file st (pe_app_hash (tip_state st blocks))
               (pe_tip_offset (tip_state st blocks)) false
  end.
Proof.
  intros Hh Hc Hl. rewrite (pe_commit_next io _ _ _ _ Hh Hc). destruct (history_inv _ _ Hh) as [Hst _].
  destruct (committable_reexecute _ _ _ Hst Hc) as (_ & Hstore & Hn & _ & E1 & E2).
  unfold commit_stored. cbn [tip_state pe_journal pe_context pe_writes_available pe_committed].
  destruct (append_block io (stored_of b) (journal_bytes blocks)) as [[offset|error] file] eqn:Ha;
    apply append_block_cases in Ha as [Ha Hr]; try done; cbv zeta.
  - intros [= <- <-]. subst offset. rewrite tip_state_snoc. unfold receipt_for. rewrite E1, E2.
    split; [done|]. cbn [is_ok] in Ha. inversion Ha. done.
  - destruct Hr as [operation ->]. intros [= <- <-]. split; [by eexists|]. by exists file.
Qed.

(** Reopening after an append of unknown outcome finds one of the two tips. *)
Lemma pe_open_appended blocks st next st' ok file :
  history blocks st -> history (blocks ++ [next]) st' -> appended block_format block_kind blocks next ok file ->
  exists blocks' st'', pe_open TruncateSucceeds ledger context file = (Ok (tip_state st'' blocks'), journal_bytes blocks') /\
    (blocks' = blocks /\ st'' = st /\ ok = false \/ blocks' = blocks ++ [next] /\ st'' = st').
Proof.
  intros Hh Hh' [|ok'|torn section Ht Hr].
  - exists blocks, st. split; [by apply pe_open_complete|]. by left.
  - exists (blocks ++ [next]), st'. split; [by apply pe_open_complete|]. by right.
  - exists blocks, st. split; [|by left].
    by apply (pe_open_holds TruncateSucceeds blocks st
      (Some (mk_IncompleteTail (len (journal_bytes blocks)) section)) torn).
Qed.

(** A commit that is not of a committable block changes nothing. *)
Lemma pe_commit_other io st blocks b r pe :
  decision_wf (eb_comet_decision b) ->
  pe_commit io b (tip_state st blocks) = (r, pe) ->
  pe = tip_state st blocks \/ exists e, committable st b e.
Proof.
  intros Hd. unfold pe_commit. msimpl. cbv zeta.
  cbn [tip_state pe_writes_available negb pe_committed pe_context].
  destruct (_ =? ce_height st); [intros [= _ <-]; by left|].
  destruct (checked_add _ _ _) as [n|]; msimpl; [|intros [= _ <-]; by left].
  destruct (_ =? n); cbn [negb]; [|intros [= _ <-]; by left]. msimpl.
  destruct (stored_new _ _ _ _) as [stored|] eqn:Hs; cbn [map_err]; [|intros [= _ <-]; by left].
  unfold stored_new in Hs. destruct (validate_block _ _); cbn [mbind result_bind] in Hs; [|done].
  injection Hs as <-. fold (stored_of b).
  destruct (reexecute_stored context st (stored_of b)) as [e|] eqn:He; cbn [map_err];
    [|intros [= _ <-]; by left].
  intros _. right. exists e. apply reexecute_stored_Ok in He as [He Hse]. split; [done|].
  split; [|done]. by rewrite Hse.
Qed.

(** A second commit of the block at the tip returns the first receipt. *)
Lemma pe_commit_again io blocks st b e :
  history blocks st -> committable st b e ->
  let pe := tip_state (into_committed_state e) (blocks ++ [stored_of b]) in
  pe_commit io b pe = (Ok (receipt_for b (len (journal_bytes blocks))), pe).
Proof.
  intros Hh Hc pe. destruct (history_inv _ _ Hh) as [Hst _].
  destruct (committable_reexecute _ _ _ Hst Hc) as (_ & _ & Hn & _ & E1 & E2).
  pose proof (com_height _ _ Hst) as Hpos.
  unfold pe_commit. unfold pe. rewrite tip_state_snoc. msimpl. cbv zeta.
  cbn [pe_writes_available negb pe_committed]. cbn [into_committed_state ce_height].
  rewrite E1, Z.eqb_refl. unfold idempotent_receipt. cbn [pe_committed pe_app_hash pe_tip_offset
    into_committed_state ce_height ce_block_id ce_record_chain stored_of sb_app_hash].
  rewrite E1, Hn. rewrite (proj2 (Z.ltb_lt 0 (ce_height st + 1))) by lia.
  rewrite !bool_decide_eq_true_2 by done. cbn [andb ok_or mbind result_bind].
  unfold receipt_for. rewrite Hn.
  assert (current_state_id (eb_resulting_record_chain e) =
    bh_resulting_state_id (bh_input (eb_header b))) as ->; [|done].
  rewrite <-E1. destruct Hc as (He & _). apply execute_block_Ok in He as (_ & records & c & _ & ->); done.
Qed.

End Facts.

(** ** Properties *)

(** opening a journal re-executes it.  When [open] succeeds, the file was a
    list of frames of valid blocks followed at most by a partial frame, which is
    now gone; the blocks re-execute in order from the genesis state to the
    committed state that is returned, and the application hash and offset are
    those of the last block.  That state satisfies the execution invariant and
    its height is the number of blocks. *)
Theorem open_reexecutes `{Sha2} context ledger io file pe file' :
  context_wf context -> ledger_inv ledger -> len file <= U64_MAX ->
  pe_open io ledger context file = (Ok pe, file') ->
  exists blocks torn st0,
    file = journal_bytes blocks ++ torn /\ file' = journal_bytes blocks /\ pe_journal pe = file' /\
    Forall storable_block blocks /\ execution_genesis ledger (ec_chain_anchor context) = Ok st0 /\
    replay_blocks context st0 blocks = Ok (pe_committed pe) /\
    committed_inv context (pe_committed pe) /\ ce_height (pe_committed pe) = len blocks /\
    pe_app_hash pe = sb_app_hash <$> last blocks.
Proof.
  intros Hctx Hl Hf Ho. destruct (pe_open_sound _ _ _ _ _ _ Hf Ho) as (blocks & st & torn & Hh & -> & -> & ->).
  destruct (history_inv _ Hctx _ Hl _ _ Hh) as [Hst Hheight]. destruct Hh as [Hb _ (st0 & Hg & Hr)].
  exists blocks, torn, st0. split_and!; try done. cbn [tip_state pe_app_hash]. unfold recovered_after.
  destruct blocks as [|b blocks _] using rev_ind; [done|]. by rewrite placed_snoc, last_snoc.
Qed.

(** C4: a commit is durable and atomic across crashes.  Starting from a
    coordinator at its tip, commit any block under any failure of the file
    system.  Reopening the file that is left always succeeds, and finds either
    the tip before the commit or the tip after it, where the state is the
    re-execution of exactly that block; after a commit that reported success it
    finds the new tip, equal to the coordinator in memory. *)
Theorem commit_crash_consistent `{Sha2} context ledger io pe b r pe' :
  context_wf context -> ledger_inv ledger -> coordinator context ledger pe ->
  pe_writes_available pe = true -> decision_wf (eb_comet_decision b) ->
  len (pe_journal pe ++ block_frame (stored_of b)) <= U64_MAX ->
  pe_commit io b pe = (r, pe') ->
  exists reopened,
    pe_open TruncateSucceeds ledger context (pe_journal pe') = (Ok reopened, pe_journal reopened) /\
    (is_ok r = true -> reopened = pe') /\
    (reopened = pe \/
     exists e, execute_block context (pe_committed pe) (stored_proposal (stored_of b)) = Ok e /\
       stored_of e = stored_of b /\ pe_committed reopened = into_committed_state e /\
       pe_journal reopened = pe_journal pe ++ block_frame (stored_of b)).
Proof.
  intros Hctx Hl Hco Hw Hd Hsize Hc. destruct Hco as [blocks st Hh|]; [|done].
  cbn [tip_state pe_journal] in Hsize. rewrite <-(log_bytes_snoc block_format block_kind) in Hsize.
  pose proof (pe_open_complete _ _ TruncateSucceeds _ _ Hh) as Hopen.
  destruct (pe_commit_other _ _ _ _ _ _ _ Hd Hc) as [->|[e He]].
  { exists (tip_state context st blocks). split_and!; [done..|by left]. }
  pose proof (history_snoc _ Hctx _ Hl _ _ _ _ Hh He Hsize) as Hh'.
  apply (pe_commit_cases _ Hctx _ Hl _ _ _ _ e) in Hc; [|done..]. cbv zeta in Hc.
  assert (Hnew : forall io', pe_open io' ledger context (journal_bytes (blocks ++ [stored_of b])) =
    (Ok (tip_state context (into_committed_state e) (blocks ++ [stored_of b])),
     journal_bytes (blocks ++ [stored_of b]))) by (intros io'; by apply pe_open_complete).
  destruct r as [receipt|error].
  - destruct Hc as [_ ->]. exists (tip_state context (into_committed_state e) (blocks ++ [stored_of b])).
    split; [apply Hnew|]. split; [done|]. right. exists e.
    destruct He as (He & Hs & _). cbn [tip_state pe_committed pe_journal]. by rewrite log_bytes_snoc.
  - destruct Hc as (_ & file & Ha & ->). cbn [pe_journal].
    destruct (pe_open_appended _ _ _ _ _ _ _ _ Hh Hh' Ha) as (blocks' & st'' & Ho & Hcase).
    exists (tip_state context st'' blocks'). split; [exact Ho|]. split; [done|].
    destruct Hcase as [(-> & -> & _)|[-> ->]]; [by left|right]. exists e.
    destruct He as (He & Hs & _). cbn [tip_state pe_committed pe_journal]. by rewrite log_bytes_snoc.
Qed.

(** an executed block commits.  If a proposal executes against the tip, then,
    unless the file system fails, [commit] of the result succeeds: every check on
    the way, the height, the block, the re-execution, the frame limits and the
    decoding of the payload, is satisfied.  The receipt describes the block at
    the old end of the file, the new tip is the executed state, and committing
    the block again returns the same receipt and changes nothing. *)
Theorem executed_block_commits `{Sha2} context ledger pe p b io :
  context_wf context -> ledger_inv ledger -> coordinator context ledger pe ->
  pe_writes_available pe = true -> decision_wf (bp_comet_decision p) ->
  pe_execute pe p = Ok b -> len (pe_journal pe ++ block_frame (stored_of b)) <= U64_MAX ->
  let pe' := mk_PersistentExecution context (pe_journal pe ++ block_frame (stored_of b))
    (into_committed_state b) (Some (eb_app_hash b)) (Some (len (pe_journal pe))) true in
  let receipt := receipt_for b (len (pe_journal pe)) in
  pe_commit AppendSucceeds b pe = (Ok receipt, pe') /\ pe_commit io b pe' = (Ok receipt, pe') /\
  coordinator context ledger pe'.
Proof.
  intros Hctx Hl Hco Hw Hd Hex Hsize pe' receipt. destruct Hco as [blocks st Hh|]; [|done].
  unfold pe', receipt in *. cbn [tip_state pe_journal] in *. unfold pe_execute in Hex.
  apply map_err_Ok in Hex. cbn [tip_state pe_context pe_committed] in Hex.
  destruct (history_inv _ Hctx _ Hl _ _ Hh) as [Hst _]. rewrite <-log_bytes_snoc in *.
  assert (Hc : committable context st b b).
  { split; [|split; [done|]].
    - by rewrite (stored_proposal_executed _ Hctx st p b).
    - by destruct (executed_inv _ Hctx _ _ _ Hst Hex) as (_ & _ & ->). }
  assert (Htip : tip_state context (into_committed_state b) (blocks ++ [stored_of b]) =
    mk_PersistentExecution context (journal_bytes (blocks ++ [stored_of b])) (into_committed_state b)
      (Some (eb_app_hash b)) (Some (len (journal_bytes blocks))) true) by apply tip_state_snoc.
  rewrite <-Htip. split_and!.
  - destruct (committable_reexecute _ Hctx _ _ _ Hst Hc) as (_ & Hstore & _).
    rewrite (pe_commit_next _ Hctx _ Hl _ _ _ _ _ Hh Hc). unfold commit_stored.
    rewrite append_block_storable by done. cbn [write_frame tip_state pe_journal].
    by rewrite Htip, log_bytes_snoc.
  - by apply (pe_commit_again _ Hctx _ Hl _ _ _ _ _ Hh).
  - constructor. by apply (history_snoc _ Hctx _ Hl _ st).
Qed.

(** ** Witnesses *)

Section Samples.
#[local] Existing Instance toy_sha2.

(** The coordinator of an empty journal. *)
Definition fresh_coordinator : PersistentExecution := tip_state exec_context exec_state [].

Lemma exec_genesis : execution_genesis sample_ledger (ec_chain_anchor exec_context) = Ok exec_state.
Proof.
  unfold execution_genesis, from_parts. cbv zeta. rewrite bool_decide_eq_true_2 by reflexivity.
  reflexivity.
Qed.

Lemma fresh_history : history exec_context sample_ledger [] exec_state.
Proof. split; [constructor|by_eval|]. exists exec_state. split; [exact exec_genesis|reflexivity]. Qed.

Lemma fresh_coordinator_ok : coordinator exec_context sample_ledger fresh_coordinator.
Proof. constructor. exact fresh_history. Qed.

Lemma exec_decision_wf : decision_wf (bp_comet_decision exec_proposal).
Proof.
  assert (Hn : forall a : array 32, bool_decide (arr a = repeat x00 32) = false -> a <> fill 32 x00).
  { intros a Hb ->. apply bool_decide_eq_false in Hb. by apply Hb. }
  split; [apply Hn; by_eval|vm_compute; split; discriminate|apply Hn; by_eval|apply Hn; by_eval].
Qed.

(** A storable block's frame is short, so one frame always fits the file. *)
Lemma storable_frame_size b : storable_block b -> len (block_frame b) <= U64_MAX.
Proof.
  intros [_ Hl]. rewrite (length_entry_frame block_format block_kind).
  assert (ff_maximum block_format <= U32_MAX) by by_eval. lia.
Qed.

Lemma fresh_size b :
  execute_block exec_context exec_state exec_proposal = Ok b ->
  len (pe_journal fresh_coordinator ++ block_frame (stored_of b)) <= U64_MAX.
Proof.
  intros Hb. apply storable_frame_size.
  exact (executed_storable exec_context exec_context_wf exec_state exec_proposal b exec_state_inv Hb
    exec_decision_wf).
Qed.

Lemma fresh_decision b :
  execute_block exec_context exec_state exec_proposal = Ok b -> decision_wf (eb_comet_decision b).
Proof.
  intros Hb.
  destruct (executed_inv exec_context exec_context_wf _ _ _ exec_state_inv Hb) as (_ & _ & ->).
  exact exec_decision_wf.
Qed.

End Samples.

Lemma open_reexecutes_witness :
  @pe_open toy_sha2 TruncateSucceeds sample_ledger exec_context [] = (Ok fresh_coordinator, []) /\
  ce_height (pe_committed fresh_coordinator) = 0.
Proof.
  pose proof (@pe_open_complete toy_sha2 exec_context sample_ledger TruncateSucceeds [] exec_state
    fresh_history) as Ho.
  split; [exact Ho|].
  destruct (@open_reexecutes toy_sha2 exec_context sample_ledger TruncateSucceeds [] fresh_coordinator []
    exec_context_wf sample_ledger_inv) as (blocks & _ & _ & _ & Hf & Hj & _ & _ & _ & _ & Hh & _).
  - by_eval.
  - exact Ho.
  - rewrite Hh. destruct blocks as [|b blocks]; [reflexivity|].
    apply (f_equal length) in Hf. discriminate Hf.
Defined.

(** The write of the first block fails after thirty bytes. *)
Lemma commit_crash_consistent_witness :
  exists b reopened,
    @pe_open toy_sha2 TruncateSucceeds sample_ledger exec_context
      (pe_journal (@pe_commit toy_sha2 (WriteFails 30) b fresh_coordinator).2) =
    (Ok reopened, pe_journal reopened).
Proof.
  destruct exec_executes as [b Hb]. exists b.
  destruct (@commit_crash_consistent toy_sha2 exec_context sample_ledger (WriteFails 30) fresh_coordinator b
    (@pe_commit toy_sha2 (WriteFails 30) b fresh_coordinator).1
    (@pe_commit toy_sha2 (WriteFails 30) b fresh_coordinator).2
    exec_context_wf sample_ledger_inv fresh_coordinator_ok eq_refl (fresh_decision b Hb)
    (fresh_size b Hb) (surjective_pairing _)) as (reopened & Ho & _).
  exists reopened. exact Ho.
Defined.

Lemma executed_block_commits_witness :
  exists b receipt pe, @pe_commit toy_sha2 AppendSucceeds b fresh_coordinator = (Ok receipt, pe).
Proof.
  destruct exec_executes as [b Hb]. exists b.
  destruct (@executed_block_commits toy_sha2 exec_context sample_ledger fresh_coordinator exec_proposal b
    AppendSucceeds exec_context_wf sample_ledger_inv fresh_coordinator_ok eq_refl exec_decision_wf
    (tip_execute exec_context exec_state [] exec_proposal b Hb)
    (fresh_size b Hb)) as [Hc _].
  do 2 eexists. exact Hc.
Defined.
