(* ===== verification/CometCore.v ===== *)
(** * The ABCI lifecycle core ([noxis-comet-abci]: [heights.rs], [mempool.rs],
    [app.rs])

    The state machine CometBFT drives: [Info], [InitChain], [CheckTx],
    [PrepareProposal], [ProcessProposal], [FinalizeBlock] and [Commit] over one
    durable execution. *)

From Stdlib Require Import Strings.Byte Strings.String.
From S2P Require Import Prelude Arrays Reader Sha256 Types Crypto Ledger Codec RecordChain Crc32.
From S2P Require Import Consensus ConsensusCodec Engine Execution Frames BlockJournal PersistentExecution.

(** ** Heights *)

Module HeightMappingError.
Inductive HeightMappingError : Type :=
| EngineHeightBeforeGenesis (initial actual : Z)
| HeightOverflow
| Engine (error : EngineIdentityError).
End HeightMappingError.
Abbreviation HeightMappingError := HeightMappingError.HeightMappingError.

(** [CometIdentity], a newtype over the genesis mapping. *)
Definition CometIdentity : Type := CometBftGenesis.

Definition chain_id (self : CometIdentity) : list byte := ni_chain_id (cg_identity self).
Definition initial_height (self : CometIdentity) : Z := ni_initial_height (cg_identity self).
Definition parameters_sha256 (self : CometIdentity) : array 32 :=
  ni_parameters_sha256 (cg_identity self).

(** [CometIdentity::noxis_height]. *)
Definition noxis_height (self : CometIdentity) (engine_height : Z) : Result HeightMappingError Z :=
  relative ← ok_or (checked_i64 (engine_height - initial_height self))
               (HeightMappingError.EngineHeightBeforeGenesis (initial_height self) engine_height);
  height ← ok_or (checked_i64 (relative + 1)) HeightMappingError.HeightOverflow;
  ok_or (try_from U64_MAX height) HeightMappingError.HeightOverflow.

(** [CometIdentity::engine_height]. *)
Definition engine_height (self : CometIdentity) (noxis_height : Z) : Result HeightMappingError Z :=
  map_err HeightMappingError.Engine (engine_height_for (cg_identity self) noxis_height).

(** ** Errors *)

Module CometAbciError.
Inductive CometAbciError : Type :=
| CryptoEligibility (error : ServiceCryptoEligibilityError)
| Height (error : HeightMappingError)
| EngineIdentity (error : EngineIdentityError)
| Execution (error : ExecutionError)
| Storage (error : PersistentExecutionError)
| InitChainMismatch
| InitChainAfterCommit
| ConsensusBeforeInitChain
| MempoolLimitExceeded
| NegativeMaximumTransactionBytes (value : Z)
| UnexpectedEngineHeight (expected actual : Z)
| UnexpectedNextValidatorsHash
| FinalizeConflict (engine_height : Z)
| MissingFinalizedBlock.
End CometAbciError.
Abbreviation CometAbciError := CometAbciError.CometAbciError.

(** ** The mempool overlay *)

Definition MAX_PENDING_TRANSACTIONS : Z := 10000.
Definition MAX_PENDING_TRANSACTION_BYTES : Z := 64 * 1024 * 1024.

Record MempoolOverlay : Type := mk_MempoolOverlay {
  mp_candidate : CandidateExecutionState;
  mp_transactions : list (list byte);
  mp_total_bytes : Z
}.

(** [MempoolOverlay::new]; [reset] leaves the same value behind. *)
Definition mempool_new (candidate : CandidateExecutionState) : MempoolOverlay :=
  mk_MempoolOverlay candidate [] 0.

Definition mempool_reset (candidate : CandidateExecutionState) (self : MempoolOverlay)
    : MempoolOverlay :=
  mk_MempoolOverlay candidate [] 0.

Section Core.
Context `{Sha2}.

(** [MempoolOverlay::admit]. *)
Definition admit_transaction (execution : PersistentExecution) (transaction : list byte)
    : M MempoolOverlay CometAbciError unit :=
  self ← get;
  if len (mp_transactions self) =? MAX_PENDING_TRANSACTIONS
  then lift (Err CometAbciError.MempoolLimitExceeded)
  else
    sum ← lift (ok_or (checked_add USIZE_MAX (mp_total_bytes self) (len transaction))
                  CometAbciError.MempoolLimitExceeded);
    total_bytes ← lift (ok_or (if sum <=? MAX_PENDING_TRANSACTION_BYTES then Some sum else None)
                          CometAbciError.MempoolLimitExceeded);
    match pe_simulate execution transaction (mp_candidate self) with
    | (Err error, _) => lift (Err (CometAbciError.Storage error))
    | (Ok _, next) =>
        put (mk_MempoolOverlay next (mp_transactions self ++ [transaction]) total_bytes)
    end.

(** ** Requests and results *)

Inductive ProposalStatus : Type := Accept | Reject.

Record CheckTxResult : Type := mk_CheckTxResult { ct_accepted : bool; ct_code : Z }.

Record TxResult : Type := mk_TxResult {
  tr_code : Z;
  tr_transaction_intent_id : TransactionIntentId;
  tr_record_hash : RecordHash;
  tr_resulting_state_id : StateId
}.

Record FinalizeBlockResult : Type := mk_FinalizeBlockResult {
  fr_app_hash : AppHash;
  fr_transaction_results : list TxResult
}.

Record AppInfo : Type := mk_AppInfo {
  info_last_block_height : Z;
  info_app_hash : option AppHash
}.

Record InitChainRequest : Type := mk_InitChainRequest {
  ic_chain_id : list byte;
  ic_initial_height : Z;
  ic_parameters_sha256 : array 32;
  ic_validators : list CometBftValidator
}.

Record PendingFinalization : Type := mk_PendingFinalization {
  pf_engine_decision : CometBftDecision;
  pf_transactions : list (list byte);
  pf_executed : ExecutedBlock;
  pf_result : FinalizeBlockResult
}.

Inductive Lifecycle : Type := GenesisUnverified | Running.

#[global] Instance Lifecycle_eq_dec : EqDecision Lifecycle.
Proof. solve_decision. Defined.

Record NoxisCometCore : Type := mk_NoxisCometCore {
  nc_identity : CometIdentity;
  nc_execution : PersistentExecution;
  nc_mempool : MempoolOverlay;
  nc_pending : option PendingFinalization;
  nc_lifecycle : Lifecycle
}.

(** [tx_result]. *)
Definition tx_result (receipt : ExecutionReceipt) : TxResult :=
  mk_TxResult 0 (er_transaction_intent_id receipt) (er_record_hash receipt)
    (er_resulting_state_id receipt).

(** ** Methods *)

(** [NoxisCometCore::try_new]. *)
Definition try_new (execution : PersistentExecution)
    (authorization : SettlementServiceAuthorization) : Result CometAbciError NoxisCometCore :=
  _ ← map_err CometAbciError.CryptoEligibility
        (ensure_matches authorization (ec_validation_context (pe_context execution)));
  Ok (mk_NoxisCometCore (ec_comet_bft_genesis (pe_context execution)) execution
        (mempool_new (pe_candidate execution)) None
        (if ce_height (pe_committed execution) =? 0 then GenesisUnverified else Running)).

(** [NoxisCometCore::info]. *)
Definition info (self : NoxisCometCore) : Result CometAbciError AppInfo :=
  let durable_height := ce_height (pe_committed (nc_execution self)) in
  last_block_height ←
    (if durable_height =? 0 then Ok 0
     else map_err CometAbciError.Height (engine_height (nc_identity self) durable_height));
  Ok (mk_AppInfo last_block_height (pe_app_hash (nc_execution self))).

Definition set_lifecycle (lifecycle : Lifecycle) (self : NoxisCometCore) : NoxisCometCore :=
  mk_NoxisCometCore (nc_identity self) (nc_execution self) (nc_mempool self) (nc_pending self)
    lifecycle.

Definition set_mempool (mempool : MempoolOverlay) (self : NoxisCometCore) : NoxisCometCore :=
  mk_NoxisCometCore (nc_identity self) (nc_execution self) mempool (nc_pending self)
    (nc_lifecycle self).

Definition set_pending (pending : option PendingFinalization) (self : NoxisCometCore)
    : NoxisCometCore :=
  mk_NoxisCometCore (nc_identity self) (nc_execution self) (nc_mempool self) pending
    (nc_lifecycle self).

Definition set_execution (execution : PersistentExecution) (self : NoxisCometCore)
    : NoxisCometCore :=
  mk_NoxisCometCore (nc_identity self) execution (nc_mempool self) (nc_pending self)
    (nc_lifecycle self).

(** [NoxisCometCore::init_chain]. *)
Definition init_chain (request : InitChainRequest) : M NoxisCometCore CometAbciError unit :=
  self ← get;
  if negb (ce_height (pe_committed (nc_execution self)) =? 0)
  then lift (Err CometAbciError.InitChainAfterCommit)
  else if negb (bool_decide (ic_chain_id request = chain_id (nc_identity self)))
     || negb (ic_initial_height request =? initial_height (nc_identity self))
     || negb (bool_decide (ic_parameters_sha256 request = parameters_sha256 (nc_identity self)))
     || negb (bool_decide (ic_validators request = cvs_validators (cg_validators (nc_identity self))))
  then lift (Err CometAbciError.InitChainMismatch)
  else put (set_lifecycle Running self).

(** [NoxisCometCore::check_tx]. *)
Definition check_tx (transaction : list byte) (self : NoxisCometCore)
    : CheckTxResult * NoxisCometCore :=
  if negb (bool_decide (nc_lifecycle self = Running)) then (mk_CheckTxResult false 1, self)
  else
    match admit_transaction (nc_execution self) transaction (nc_mempool self) with
    | (Ok _, mempool) => (mk_CheckTxResult true 0, set_mempool mempool self)
    | (Err _, mempool) => (mk_CheckTxResult false 1, set_mempool mempool self)
    end.

(** [NoxisCometCore::ensure_initialized]. *)
Definition ensure_initialized (self : NoxisCometCore) : Result CometAbciError unit :=
  if bool_decide (nc_lifecycle self = Running) then Ok tt
  else Err CometAbciError.ConsensusBeforeInitChain.

(** [NoxisCometCore::expected_next_noxis_height]. *)
Definition expected_next_noxis_height (self : NoxisCometCore) : Result CometAbciError Z :=
  ok_or (checked_add U64_MAX (ce_height (pe_committed (nc_execution self))) 1)
    (CometAbciError.Height HeightMappingError.HeightOverflow).

(** [NoxisCometCore::ensure_next_engine_height]. *)
Definition ensure_next_engine_height (self : NoxisCometCore) (height : Z)
    : Result CometAbciError Z :=
  expected_noxis_height ← expected_next_noxis_height self;
  expected_engine_height ← map_err CometAbciError.Height
                             (engine_height (nc_identity self) expected_noxis_height);
  if negb (height =? expected_engine_height)
  then Err (CometAbciError.UnexpectedEngineHeight expected_engine_height height)
  else Ok expected_noxis_height.

(** The selection loop of [prepare_proposal]: the candidate, the bytes and the
    number of transactions selected so far. *)
Fixpoint select_transactions (execution : PersistentExecution) (byte_limit record_limit : Z)
    (candidate : CandidateExecutionState) (total_bytes selected : Z)
    (transactions : list (list byte)) : list (list byte) :=
  match transactions with
  | [] => []
  | transaction :: transactions =>
      let skip := select_transactions execution byte_limit record_limit candidate total_bytes
                    selected transactions in
      if selected =? record_limit then []
      else
        match checked_add USIZE_MAX total_bytes (len transaction) with
        | None => skip
        | Some next_total =>
            if byte_limit <? next_total then skip
            else
              match pe_simulate execution transaction candidate with
              | (Err _, _) => skip
              | (Ok _, next_candidate) =>
                  transaction ::
                  select_transactions execution byte_limit record_limit next_candidate next_total
                    (selected + 1) transactions
              end
        end
  end.

(** [NoxisCometCore::prepare_proposal]. *)
Definition prepare_proposal (self : NoxisCometCore) (height maximum_transaction_bytes : Z)
    (next_validators_hash : array 32) (transactions : list (list byte))
    : Result CometAbciError (list (list byte)) :=
  _ ← ensure_initialized self;
  _ ← ensure_next_engine_height self height;
  if negb (bool_decide (next_validators_hash = cvs_hash (cg_validators (nc_identity self))))
  then Err CometAbciError.UnexpectedNextValidatorsHash
  else
    engine_limit ← ok_or (try_from USIZE_MAX maximum_transaction_bytes)
                     (CometAbciError.NegativeMaximumTransactionBytes maximum_transaction_bytes);
    let config := ec_consensus_config (pe_context (nc_execution self)) in
    let byte_limit := Z.min engine_limit (cc_maximum_block_transaction_bytes config) in
    Ok (select_transactions (nc_execution self) byte_limit (cc_maximum_block_records config)
          (pe_candidate (nc_execution self)) 0 0 transactions).

(** [NoxisCometCore::execute_for_engine_decision]. *)
Definition execute_for_engine_decision (self : NoxisCometCore) (decision : CometBftDecision)
    (transactions : list (list byte)) : Result CometAbciError ExecutedBlock :=
  noxis_height ← ensure_next_engine_height self (cd_height decision);
  map_err CometAbciError.Storage
    (pe_execute (nc_execution self) (mk_BlockProposal noxis_height decision transactions)).

(** The decision check shared by [process_proposal] and [finalize_block]. *)
Definition validate_decision (self : NoxisCometCore) (decision : CometBftDecision)
    : Result CometAbciError unit :=
  expected ← expected_next_noxis_height self;
  map_err CometAbciError.EngineIdentity (validate_for decision (nc_identity self) expected).

(** [NoxisCometCore::process_proposal]. *)
Definition process_proposal (self : NoxisCometCore) (decision : CometBftDecision)
    (transactions : list (list byte)) : Result CometAbciError ProposalStatus :=
  _ ← ensure_initialized self;
  _ ← validate_decision self decision;
  match execute_for_engine_decision self decision transactions with
  | Ok _ => Ok Accept
  | Err (CometAbciError.Storage (PersistentExecutionError.Execution _)) => Ok Reject
  | Err error => Err error
  end.

(** [NoxisCometCore::finalize_block]. *)
Definition finalize_block (decision : CometBftDecision) (transactions : list (list byte))
    : M NoxisCometCore CometAbciError FinalizeBlockResult :=
  self ← get;
  _ ← lift (ensure_initialized self);
  match nc_pending self with
  | Some pending =>
      lift (if bool_decide (pf_engine_decision pending = decision)
               && bool_decide (pf_transactions pending = transactions)
            then Ok (pf_result pending)
            else Err (CometAbciError.FinalizeConflict (cd_height decision)))
  | None =>
      _ ← lift (validate_decision self decision);
      executed ← lift (execute_for_engine_decision self decision transactions);
      let result := mk_FinalizeBlockResult (eb_app_hash executed)
                      (tx_result <$> eb_receipts executed) in
      _ ← put (set_pending (Some (mk_PendingFinalization decision transactions executed result)) self);
      mret result
  end.

(** [NoxisCometCore::commit]; the error [None] is a panic. *)
Definition commit (io : AppendIo) : M NoxisCometCore (option CometAbciError) DurableBlockReceipt :=
  self ← get;
  _ ← lift (map_err Some (ensure_initialized self));
  match nc_pending self with
  | None => lift (Err (Some CometAbciError.MissingFinalizedBlock))
  | Some pending =>
      let '(result, execution) := pe_commit io (pf_executed pending) (nc_execution self) in
      _ ← put (set_execution execution self);
      receipt ← lift (map_err (fmap CometAbciError.Storage) result);
      self ← get;
      _ ← put (set_mempool (mempool_reset (pe_candidate (nc_execution self)) (nc_mempool self))
                 (set_pending None self));
      mret receipt
  end.

End Core.
