(* ===== verification/CometCoreFacts.v ===== *)
(** * Facts about the ABCI core

    The invariant of the lifecycle core, the agreement of proposal construction
    with proposal checking, and the path of a decided block from finalization to
    the durable tip. *)

From Stdlib Require Import Strings.Byte Strings.String.
From S2P Require Import Prelude Arrays Reader Sha256 Types Crypto Merkle Ledger LedgerFacts Codec.
From S2P Require Import RecordChain Crc32 Consensus ConsensusFacts ConsensusCodec Engine EngineFacts.
From S2P Require Import Execution ExecutionFacts Frames FramesFacts BlockJournal BlockJournalFacts PersistentExecution.
From S2P Require Import PersistentExecutionFacts CometCore.

Section Facts.
Context `{Sha2} (context : ExecutionContext) (Hctx : context_wf context).
Context (ledger : LedgerState) (Hledger : ledger_inv ledger).

(** ** Simulation *)

Lemma pe_simulate_cases pe tx c :
  pe_context pe = context -> candidate_inv context c ->
  match pe_simulate pe tx c with
  | (Ok receipt, c') => exists record, transaction_step context c tx record c'
  | (Err _, _) => forall record c', ~ transaction_step context c tx record c'
  end.
Proof.
  intros Hc Hinv. unfold pe_simulate. rewrite Hc, simulate_run.
  pose proof (apply_transaction_cases context c tx 0 Hinv) as Ha.
  destruct (apply_transaction context tx 0 c) as [[[record receipt]|e] c'] eqn:Hr; cbn [map_err].
  - exists record. apply Ha.
  - intros record c2 Hs. rewrite (transaction_step_run _ _ _ _ _ 0 Hinv Hs) in Hr. done.
Qed.

Lemma transactions_run_snoc c txs records c1 tx record c2 :
  transactions_run context c txs records c1 -> transaction_step context c1 tx record c2 ->
  transactions_run context c (txs ++ [tx]) (records ++ [record]) c2.
Proof.
  intros Hrun Hs. induction Hrun; cbn; econstructor; eauto. constructor.
Qed.

(** ** The mempool *)

(** The admitted transactions run one after the other from the durable tip to
    the overlay, within the local limits. *)
Record mempool_inv (st : CommittedExecutionState) (mp : MempoolOverlay) : Prop := mk_mempool_inv {
  mpi_run : exists records,
    transactions_run context (from_committed st) (mp_transactions mp) records (mp_candidate mp);
  mpi_bytes : mp_total_bytes mp = len (concat (mp_transactions mp));
  mpi_limit : mp_total_bytes mp <= MAX_PENDING_TRANSACTION_BYTES;
  mpi_count : len (mp_transactions mp) <= MAX_PENDING_TRANSACTIONS
}.

Lemma mempool_new_inv st : mempool_inv st (mempool_new (from_committed st)).
Proof. split; [|done..]. exists []. constructor. Qed.

Lemma mempool_candidate st mp :
  committed_inv context st -> mempool_inv st mp -> candidate_inv context (mp_candidate mp).
Proof.
  intros Hst [[records Hrun] _ _ _].
  by destruct (transactions_run_facts _ _ _ _ _ (com_candidate _ _ Hst) Hrun) as [? _].
Qed.

(** When a transaction is admitted: there is room for it and it has a step from
    the overlay. *)
Lemma admit_transaction_cases pe tx mp :
  pe_context pe = context -> committed_inv context (pe_committed pe) -> mempool_inv (pe_committed pe) mp ->
  match admit_transaction pe tx mp with
  | (Ok _, mp') =>
      mempool_inv (pe_committed pe) mp' /\ mp_transactions mp' = mp_transactions mp ++ [tx] /\
      exists record, transaction_step context (mp_candidate mp) tx record (mp_candidate mp')
  | (Err _, mp') => mp' = mp /\
      (len (mp_transactions mp) = MAX_PENDING_TRANSACTIONS \/
       MAX_PENDING_TRANSACTION_BYTES < mp_total_bytes mp + len tx \/
       forall record c', ~ transaction_step context (mp_candidate mp) tx record c')
  end.
Proof.
  intros Hc Hst Hmp. pose proof (mempool_candidate _ _ Hst Hmp) as Hcand.
  pose proof Hmp as [[records Hrun] Hb Hl Hn]. unfold admit_transaction. msimpl.
  destruct (Z.eqb_spec (len (mp_transactions mp)) MAX_PENDING_TRANSACTIONS);
    [split; [done|by left]|].
  assert (MAX_PENDING_TRANSACTION_BYTES <= USIZE_MAX) by done. msimpl.
  destruct (checked_add USIZE_MAX (mp_total_bytes mp) (len tx)) as [sum|] eqn:Hs; cbn [ok_or].
  2: { apply checked_add_None in Hs. split; [done|]. right; left. lia. }
  apply checked_add_Some in Hs as [-> _]. msimpl.
  destruct (Z.leb_spec (mp_total_bytes mp + len tx) MAX_PENDING_TRANSACTION_BYTES); cbn [ok_or].
  2: { split; [done|]. right; left. lia. }
  pose proof (pe_simulate_cases pe tx (mp_candidate mp) Hc Hcand) as Hsim.
  destruct (pe_simulate pe tx (mp_candidate mp)) as [[receipt|e] c']; cbn [put lift].
  - destruct Hsim as [record Hstep]. split; [|by eauto]. split; cbn.
    + exists (records ++ [record]). by eapply transactions_run_snoc.
    + rewrite concat_app, length_app. cbn. rewrite app_nil_r. lia.
    + done.
    + rewrite length_app. cbn. lia.
  - split; [done|]. by do 2 right.
Qed.

(** ** Proposal selection *)

Lemma select_transactions_spec pe byte_limit record_limit txs c total selected :
  pe_context pe = context -> candidate_inv context c ->
  0 <= total <= byte_limit -> selected <= record_limit -> byte_limit <= USIZE_MAX ->
  let result := select_transactions pe byte_limit record_limit c total selected txs in
  result `sublist_of` txs /\ total + len (concat result) <= byte_limit /\
  selected + len result <= record_limit /\
  exists records c', transactions_run context c result records c'.
Proof.
  intros Hc. revert c total selected.
  induction txs as [|tx txs IH]; intros c total selected Hinv Ht Hs Hl; cbn zeta; cbn [select_transactions].
  { split_and!; [done|cbn; lia..|]. exists [], c. constructor. }
  pose proof (IH c total selected Hinv Ht Hs Hl) as (Hsub & Hskip).
  assert (Hsk : select_transactions pe byte_limit record_limit c total selected txs `sublist_of` tx :: txs)
    by by apply sublist_cons.
  destruct (Z.eqb_spec selected record_limit).
  { split_and!; [apply sublist_nil_l|cbn; lia..|]. exists [], c. constructor. }
  destruct (checked_add USIZE_MAX total (len tx)) as [next|] eqn:Hn; [|done].
  apply checked_add_Some in Hn as [-> _].
  destruct (Z.ltb_spec byte_limit (total + len tx)); [done|].
  pose proof (pe_simulate_cases pe tx c Hc Hinv) as Hsim.
  destruct (pe_simulate pe tx c) as [[receipt|e] c']; [|done]. destruct Hsim as [record Hstep].
  pose proof (transaction_step_inv _ _ _ _ _ Hinv Hstep) as Hinv'.
  destruct (IH c' (total + len tx) (selected + 1)) as (Hsub' & Hb' & Hn' & records & c2 & Hrun);
    [done|lia..|].
  split_and!.
  - by constructor.
  - cbn [concat]. rewrite length_app. lia.
  - cbn [length]. lia.
  - exists (record :: records), c2. by econstructor.
Qed.

(** ** The invariant of the core *)

Definition next_proposal (st : CommittedExecutionState) (d : CometBftDecision) (txs : list (list byte))
    : BlockProposal :=
  mk_BlockProposal (ce_height st + 1) d txs.

Definition finalize_result (b : ExecutedBlock) : FinalizeBlockResult :=
  mk_FinalizeBlockResult (eb_app_hash b) (tx_result <$> eb_receipts b).

(** The retained block is the execution of exactly the retained request at the
    durable tip, and the retained result describes it. *)
Record pending_ok (st : CommittedExecutionState) (p : PendingFinalization) : Prop := mk_pending_ok {
  pend_decision : decision_wf (pf_engine_decision p);
  pend_executed : execute_block context st (next_proposal st (pf_engine_decision p) (pf_transactions p)) =
    Ok (pf_executed p);
  pend_result : pf_result p = finalize_result (pf_executed p)
}.

Record core_inv (core : NoxisCometCore) : Prop := mk_core_inv {
  ci_identity : nc_identity core = ec_comet_bft_genesis context;
  ci_coordinator : coordinator context ledger (nc_execution core);
  ci_mempool : mempool_inv (pe_committed (nc_execution core)) (nc_mempool core);
  ci_pending p : nc_pending core = Some p -> pending_ok (pe_committed (nc_execution core)) p;
  ci_lifecycle : nc_lifecycle core = GenesisUnverified ->
    ce_height (pe_committed (nc_execution core)) = 0 /\ nc_pending core = None
}.

Lemma coordinator_facts pe :
  coordinator context ledger pe -> pe_context pe = context /\ committed_inv context (pe_committed pe).
Proof.
  intros [blocks st Hh|blocks st next st' file Hh _ _]; (split; [done|]);
    by destruct (history_inv _ Hctx _ Hledger _ _ Hh).
Qed.

Lemma try_new_inv pe authorization core :
  coordinator context ledger pe -> try_new pe authorization = Ok core -> core_inv core.
Proof.
  intros Hco Hn. destruct (coordinator_facts _ Hco) as [Hc _]. unfold try_new in Hn.
  inv_ok. destruct_units. split; cbn.
  - by rewrite Hc.
  - done.
  - apply mempool_new_inv.
  - done.
  - by destruct (Z.eqb_spec (ce_height (pe_committed pe)) 0).
Qed.

Lemma init_chain_inv request core r core' :
  core_inv core -> init_chain request core = (r, core') ->
  core_inv core' /\ nc_execution core' = nc_execution core.
Proof.
  intros Hi. unfold init_chain. msimpl. repeat (case_match; [by intros [= <- <-]|]).
  intros [= <- <-]. split; [|done]. destruct Hi. by split.
Qed.

Lemma check_tx_inv tx core r core' :
  core_inv core -> check_tx tx core = (r, core') ->
  core_inv core' /\ nc_execution core' = nc_execution core.
Proof.
  intros Hi. destruct (coordinator_facts _ (ci_coordinator _ Hi)) as [Hc Hst].
  unfold check_tx. case_match; [by intros [= <- <-]|].
  pose proof (admit_transaction_cases _ tx _ Hc Hst (ci_mempool _ Hi)) as Ha.
  destruct (admit_transaction _ _ _) as [[[]|e] mp']; intros [= <- <-]; (split; [|done]).
  - destruct Hi. by split; [| |apply Ha|..].
  - destruct Ha as [-> _]. destruct Hi. by split.
Qed.

Lemma expected_height_Ok core n :
  core_inv core ->
  expected_next_noxis_height core = Ok n <->
  n = ce_height (pe_committed (nc_execution core)) + 1 /\ n <= U64_MAX.
Proof. intros Hi. unfold expected_next_noxis_height. rewrite ok_or_Ok, checked_add_Some. naive_solver. Qed.

(** The two height checks on a decision agree. *)
Lemma execute_for_decision_Ok core d txs b :
  core_inv core ->
  (validate_decision core d = Ok tt /\ execute_for_engine_decision core d txs = Ok b) <->
  execute_block context (pe_committed (nc_execution core))
    (next_proposal (pe_committed (nc_execution core)) d txs) = Ok b.
Proof.
  intros Hi. destruct (coordinator_facts _ (ci_coordinator _ Hi)) as [Hc Hst].
  unfold execute_for_engine_decision, ensure_next_engine_height, validate_decision.
  pose proof (expected_height_Ok core) as He. unfold pe_execute. rewrite Hc, (ci_identity _ Hi).
  set (st := pe_committed (nc_execution core)) in *. split.
  - intros [Hv Hx]. inv_ok. zbool. apply He in Hx1 as [-> Hm]; [|done]. exact Hx.
  - intros Hb. pose proof (proj1 (execute_block_Ok _ Hctx _ Hst _ _) Hb) as [[[Hh Hmax] Hd _ _] _].
    cbn in Hh, Hmax, Hd. rewrite (proj2 (He (ce_height st + 1) Hi)) by done. cbn [mbind result_bind].
    rewrite Hd. split; [done|]. apply validate_for_Ok in Hd as (_ & Heng & _).
    unfold engine_height. rewrite Heng. cbn [map_err mbind result_bind]. rewrite Z.eqb_refl. cbn [negb].
    apply map_err_Ok, map_err_Ok. exact Hb.
Qed.

Lemma ensure_initialized_Ok core : ensure_initialized core = Ok tt <-> nc_lifecycle core = Running.
Proof. unfold ensure_initialized. case_bool_decide; naive_solver. Qed.

(** Every outcome of [finalize_block]. *)
Lemma finalize_block_cases d txs core r core' :
  core_inv core -> finalize_block d txs core = (r, core') ->
  match r with
  | Ok result =>
      nc_lifecycle core = Running /\
      exists b, execute_block context (pe_committed (nc_execution core))
          (next_proposal (pe_committed (nc_execution core)) d txs) = Ok b /\
        result = finalize_result b /\
        (core' = core /\ nc_pending core <> None \/ nc_pending core = None) /\
        core' = set_pending (Some (mk_PendingFinalization d txs b (finalize_result b))) core
  | Err _ => core' = core
  end.
Proof.
  intros Hi. unfold finalize_block. msimpl.
  destruct (ensure_initialized core) as [[]|] eqn:He; [|by intros [= <- <-]].
  apply ensure_initialized_Ok in He. destruct (nc_pending core) as [p|] eqn:Hp.
  - case_bool_decide as H1; cbn [andb]; [|by intros [= <- <-]].
    case_bool_decide as H2; [|by intros [= <- <-]].
    intros [= <- <-]. split; [done|]. pose proof (ci_pending _ Hi _ Hp) as [Hd Hx Hr].
    destruct p as [d' txs' b res]. cbn in *. subst. exists b. split_and!; [done..|by left|].
    destruct core. cbn in *. by subst.
  - msimpl. destruct (validate_decision core d) as [[]|] eqn:Hv; [|by intros [= <- <-]]. msimpl.
    destruct (execute_for_engine_decision core d txs) as [b|] eqn:Hb; [|by intros [= <- <-]]. msimpl.
    intros [= <- <-]. split; [done|]. exists b. split_and!; [|done|by right|done].
    by apply execute_for_decision_Ok.
Qed.

Lemma finalize_block_inv d txs core r core' :
  core_inv core -> decision_wf d -> finalize_block d txs core = (r, core') ->
  core_inv core' /\ nc_execution core' = nc_execution core.
Proof.
  intros Hi Hd Hf. apply finalize_block_cases in Hf; [|done]. destruct r; [|by subst].
  destruct Hf as (Hrun & b & Hb & _ & _ & ->). split; [|done]. destruct Hi. split; cbn; try done.
  - intros p [= <-]. by split.
  - by rewrite Hrun.
Qed.

(** Room in the file for the frame of the retained block. *)
Definition commit_fits (core : NoxisCometCore) : Prop :=
  forall p, nc_pending core = Some p ->
    len (pe_journal (nc_execution core) ++ block_frame (stored_of (pf_executed p))) <= U64_MAX.

Lemma pending_committable st p :
  committed_inv context st -> pending_ok st p -> committable context st (pf_executed p) (pf_executed p).
Proof.
  intros Hst [Hd Hx _]. split; [|split; [done|]].
  - by rewrite (stored_proposal_executed _ Hctx _ _ _ Hst Hx).
  - by destruct (executed_inv _ Hctx _ _ _ Hst Hx) as (_ & _ & ->).
Qed.

(** Every outcome of [commit]. *)
Lemma commit_cases io core r core' :
  core_inv core -> commit_fits core -> commit io core = (r, core') ->
  match r with
  | Ok receipt =>
      exists p pe', nc_pending core = Some p /\
        receipt = receipt_for (pf_executed p) (len (pe_journal (nc_execution core))) /\
        pe' = mk_PersistentExecution context
          (pe_journal (nc_execution core) ++ block_frame (stored_of (pf_executed p)))
          (into_committed_state (pf_executed p)) (Some (eb_app_hash (pf_executed p)))
          (Some (len (pe_journal (nc_execution core)))) true /\
        coordinator context ledger pe' /\ nc_lifecycle core = Running /\
        core' = mk_NoxisCometCore (nc_identity core) pe' (mempool_new (pe_candidate pe')) None Running
  | Err _ =>
      exists pe', core' = set_execution pe' core /\ coordinator context ledger pe' /\
        pe_committed pe' = pe_committed (nc_execution core)
  end.
Proof.
  intros Hi Hfit. unfold commit. msimpl. pose proof (ci_coordinator _ Hi) as Hco.
  assert (Hsame : core = set_execution (nc_execution core) core) by by destruct core.
  destruct (ensure_initialized core) as [[]|] eqn:He; cbn [map_err];
    [|intros [= <- <-]; by exists (nc_execution core)].
  apply ensure_initialized_Ok in He.
  destruct (nc_pending core) as [p|] eqn:Hp; [|intros [= <- <-]; by exists (nc_execution core)].
  specialize (Hfit p Hp). destruct (coordinator_facts _ Hco) as [_ Hst].
  pose proof (pending_committable _ _ Hst (ci_pending _ Hi _ Hp)) as Hc.
  destruct Hco as [blocks st Hh|blocks st next st' file Hh Hh' Ha].
  - cbn [tip_state pe_journal pe_committed] in Hfit, Hc. rewrite <-log_bytes_snoc in Hfit.
    destruct (pe_commit io (pf_executed p) (tip_state context st blocks)) as [res pe'] eqn:Hcommit.
    apply (pe_commit_cases _ Hctx _ Hledger _ _ _ _ _ _ _ Hh Hc Hfit) in Hcommit. cbv zeta in Hcommit.
    pose proof (history_snoc _ Hctx _ Hledger _ _ _ _ Hh Hc Hfit) as Hnew. msimpl.
    destruct res as [receipt|e]; cbn [map_err]; msimpl; intros [= <- <-].
    + destruct Hcommit as [-> ->]. exists p. eexists. split_and!; [done|done|reflexivity| |done|].
      * cbn [tip_state pe_journal]. rewrite <-log_bytes_snoc, <-tip_state_snoc. by constructor.
      * unfold set_mempool, set_pending, set_execution, mempool_reset, mempool_new.
        cbn [nc_identity nc_execution nc_lifecycle]. by rewrite He, tip_state_snoc, log_bytes_snoc.
    + destruct Hcommit as (_ & file & Ha & ->). eexists. split_and!; [done| |done].
      by econstructor.
  - unfold pe_commit. msimpl. cbn [pe_writes_available negb]. msimpl. intros [= <- <-].
    eexists. split_and!; [done| |done]. by econstructor.
Qed.

Lemma commit_inv io core r core' :
  core_inv core -> commit_fits core -> commit io core = (r, core') -> core_inv core'.
Proof.
  intros Hi Hfit Hc. apply commit_cases in Hc; [|done..]. destruct r as [receipt|e].
  - destruct Hc as (p & pe' & Hp & _ & Hpe & Hco & Hrun & ->). destruct Hi. split; cbn; try done.
    rewrite Hpe. apply mempool_new_inv.
  - destruct Hc as (pe' & -> & Hco & Hsame). destruct Hi. split; cbn; rewrite ?Hsame; done.
Qed.

Lemma prepare_proposal_Ok core height maximum hash txs selected :
  prepare_proposal core height maximum hash txs = Ok selected ->
  let config := ec_consensus_config (pe_context (nc_execution core)) in
  nc_lifecycle core = Running /\
  (exists n, expected_next_noxis_height core = Ok n /\
     engine_height_for (cg_identity (nc_identity core)) n = Ok height) /\
  hash = cvs_hash (cg_validators (nc_identity core)) /\ 0 <= maximum <= USIZE_MAX /\
  selected = select_transactions (nc_execution core)
    (Z.min maximum (cc_maximum_block_transaction_bytes config)) (cc_maximum_block_records config)
    (pe_candidate (nc_execution core)) 0 0 txs.
Proof.
  unfold prepare_proposal, ensure_next_engine_height, engine_height. intros Hp. inv_ok. destruct_units. zbool.
  apply ensure_initialized_Ok in Hx.
  match goal with Ht : try_from _ _ = Some _ |- _ => apply try_from_Some in Ht as [-> Hmax] end. subst.
  split_and!; eauto; apply Hmax.
Qed.

Lemma process_proposal_Accept core d txs :
  process_proposal core d txs = Ok Accept ->
  nc_lifecycle core = Running /\ validate_decision core d = Ok tt /\
  exists b, execute_for_engine_decision core d txs = Ok b.
Proof.
  unfold process_proposal. intros Hp. inv_ok. destruct_units.
  apply ensure_initialized_Ok in Hx. split_and!; [done..|].
  destruct (execute_for_engine_decision core d txs) as [b|[]]; try done; [by exists b|].
  by destruct error.
Qed.

Lemma process_proposal_run core d txs b :
  nc_lifecycle core = Running -> validate_decision core d = Ok tt ->
  execute_for_engine_decision core d txs = Ok b -> process_proposal core d txs = Ok Accept.
Proof.
  intros Hr Hv He. unfold process_proposal. rewrite (proj2 (ensure_initialized_Ok core) Hr).
  cbn [mbind result_bind]. rewrite Hv. cbn [mbind result_bind]. by rewrite He.
Qed.

Lemma finalize_block_run core d txs b :
  nc_lifecycle core = Running -> nc_pending core = None -> validate_decision core d = Ok tt ->
  execute_for_engine_decision core d txs = Ok b ->
  finalize_block d txs core =
  (Ok (finalize_result b),
   set_pending (Some (mk_PendingFinalization d txs b (finalize_result b))) core).
Proof.
  intros Hr Hp Hv He. unfold finalize_block. msimpl.
  rewrite (proj2 (ensure_initialized_Ok core) Hr), Hp. msimpl. rewrite Hv. msimpl. by rewrite He.
Qed.

Lemma finalize_conflict (d d' : CometBftDecision) (txs txs' : list (list byte)) :
  (d', txs') <> (d, txs) -> bool_decide (d = d') && bool_decide (txs = txs') = false.
Proof. intros Hne. repeat case_bool_decide; cbn; congruence. Qed.

(** [commit] of a retained block succeeds unless the file system fails. *)
Lemma commit_succeeds core p :
  core_inv core -> nc_pending core = Some p -> nc_lifecycle core = Running ->
  pe_writes_available (nc_execution core) = true -> commit_fits core ->
  exists pe',
    pe' = mk_PersistentExecution context
      (pe_journal (nc_execution core) ++ block_frame (stored_of (pf_executed p)))
      (into_committed_state (pf_executed p)) (Some (eb_app_hash (pf_executed p)))
      (Some (len (pe_journal (nc_execution core)))) true /\
    commit AppendSucceeds core =
      (Ok (receipt_for (pf_executed p) (len (pe_journal (nc_execution core)))),
       mk_NoxisCometCore (nc_identity core) pe' (mempool_new (pe_candidate pe')) None Running).
Proof.
  intros Hi Hp Hlife Hw Hfit.
  destruct (commit AppendSucceeds core) as [r core'] eqn:Hc.
  pose proof (commit_cases _ _ _ _ Hi Hfit Hc) as Hcase. destruct r as [receipt|e].
  - destruct Hcase as (p' & pe' & Hp' & -> & Hpe & _ & _ & ->). rewrite Hp in Hp'. injection Hp' as <-.
    by exists pe'.
  - exfalso. revert Hc. unfold commit. msimpl. rewrite (proj2 (ensure_initialized_Ok core) Hlife), Hp.
    cbn [map_err]. pose proof (ci_coordinator _ Hi) as Hco. destruct (coordinator_facts _ Hco) as [_ Hst].
    pose proof (pending_committable _ _ Hst (ci_pending _ Hi _ Hp)) as Hcm.
    destruct Hco as [blocks st Hh|]; [|done].
    rewrite (pe_commit_next _ Hctx _ Hledger _ _ _ _ _ Hh Hcm). unfold commit_stored.
    destruct (committable_reexecute _ Hctx _ _ _ Hst Hcm) as (_ & Hstore & _).
    rewrite append_block_storable by done. cbn [write_frame]. msimpl. cbn [map_err]. msimpl. done.
Qed.

(** The [InitChain] request of the configured network. *)
Definition genesis_request (id : CometIdentity) : InitChainRequest :=
  mk_InitChainRequest (chain_id id) (initial_height id) (parameters_sha256 id)
    (cvs_validators (cg_validators id)).

Lemma init_chain_genesis core :
  ce_height (pe_committed (nc_execution core)) = 0 ->
  init_chain (genesis_request (nc_identity core)) core = (Ok tt, set_lifecycle Running core).
Proof.
  intros Hz. unfold init_chain. msimpl. rewrite Hz. cbn [Z.eqb negb].
  cbn [genesis_request ic_chain_id ic_initial_height ic_parameters_sha256 ic_validators].
  by rewrite !bool_decide_eq_true_2, Z.eqb_refl by done.
Qed.

(** ** Reachable states *)

Inductive abci_call : Type :=
| CallInitChain (request : InitChainRequest)
| CallCheckTx (transaction : list byte)
| CallFinalizeBlock (decision : CometBftDecision) (transactions : list (list byte))
| CallCommit (io : AppendIo).

(** The state after a call; [Info], [PrepareProposal] and [ProcessProposal] take
    [&self]. *)
Definition run_call (call : abci_call) (core : NoxisCometCore) : NoxisCometCore :=
  match call with
  | CallInitChain request => (init_chain request core).2
  | CallCheckTx transaction => (check_tx transaction core).2
  | CallFinalizeBlock decision transactions => (finalize_block decision transactions core).2
  | CallCommit io => (commit io core).2
  end.

(** Decisions come from their constructors, and the file system can hold the
    next frame. *)
Definition call_ok (core : NoxisCometCore) (call : abci_call) : Prop :=
  match call with
  | CallFinalizeBlock decision _ => decision_wf decision
  | CallCommit _ => commit_fits core
  | _ => True
  end.

(** The states a core can be in: from any recovered execution, by any sequence
    of calls, in any order and with any failure of the file system. *)
Inductive reachable : NoxisCometCore -> Prop :=
| reach_new pe authorization core :
    coordinator context ledger pe -> try_new pe authorization = Ok core -> reachable core
| reach_call core call : reachable core -> call_ok core call -> reachable (run_call call core).

Lemma reach_finalize core d txs b :
  reachable core -> decision_wf d -> nc_lifecycle core = Running -> nc_pending core = None ->
  validate_decision core d = Ok tt -> execute_for_engine_decision core d txs = Ok b ->
  reachable (set_pending (Some (mk_PendingFinalization d txs b (finalize_result b))) core).
Proof.
  intros Hr Hd Hlife Hp Hv He. pose proof (reach_call core (CallFinalizeBlock d txs) Hr Hd) as Hr'.
  cbn [run_call] in Hr'. by rewrite (finalize_block_run core d txs b) in Hr'.
Qed.

Lemma reachable_inv core : reachable core -> core_inv core.
Proof.
  induction 1 as [pe authorization core Hco Hn|core call _ IH Hok]; [by eapply try_new_inv|].
  destruct call as [request|tx|d txs|io]; cbn [run_call].
  - by eapply init_chain_inv; [|apply surjective_pairing].
  - by eapply check_tx_inv; [|apply surjective_pairing].
  - by eapply finalize_block_inv; [..|apply surjective_pairing].
  - by eapply commit_inv; [..|apply surjective_pairing].
Qed.

End Facts.

(** ** Properties *)

(** C19: the lifecycle invariant.  In every state the core can reach, by any
    sequence of calls with any file-system failures: the durable side is a
    coordinator at a tip or in doubt about one append; the admitted mempool
    transactions run one after the other from the durable tip to the overlay and
    respect the count and byte limits; a retained block is the execution of
    exactly the retained request at the durable tip; before [InitChain] nothing
    is durable or retained.  No call but [Commit] touches the durable side. *)
Theorem abci_invariant `{Sha2} context ledger core call :
  context_wf context -> ledger_inv ledger -> reachable context ledger core ->
  core_inv context ledger core /\
  (call_ok core call -> (forall io, call <> CallCommit io) ->
   nc_execution (run_call call core) = nc_execution core).
Proof.
  intros Hctx Hl Hr. pose proof (reachable_inv _ Hctx _ Hl _ Hr) as Hi. split; [done|].
  intros Hok Hc. destruct call as [request|tx|d txs|io]; cbn [run_call].
  - by eapply init_chain_inv; [..|apply surjective_pairing].
  - by eapply check_tx_inv; [..|apply surjective_pairing].
  - by eapply finalize_block_inv; [..|apply surjective_pairing].
  - by destruct (Hc io).
Qed.

(** C11: an honest proposal is accepted.  Whatever transactions the engine offers,
    the selection [PrepareProposal] returns is an ordered sublist of them within
    the engine's byte limit and the configured limits, and every node at the
    same durable tip that checks it under a decision for that height and those
    validators accepts it in [ProcessProposal]. *)
Theorem prepared_proposal_accepted `{Sha2} context ledger core core' height maximum hash txs selected d :
  context_wf context -> ledger_inv ledger -> reachable context ledger core ->
  prepare_proposal core height maximum hash txs = Ok selected ->
  (selected `sublist_of` txs /\ len (concat selected) <= maximum /\
   len selected <= cc_maximum_block_records (ec_consensus_config context)) /\
  (reachable context ledger core' ->
   pe_committed (nc_execution core') = pe_committed (nc_execution core) ->
   nc_lifecycle core' = Running -> cd_height d = height -> cd_next_validators_hash d = hash ->
   cd_network_id d = cg_id (ec_comet_bft_genesis context) ->
   process_proposal core' d selected = Ok Accept).
Proof.
  intros Hctx Hl Hr Hprep. pose proof (reachable_inv _ Hctx _ Hl _ Hr) as Hi.
  destruct (coordinator_facts _ Hctx _ Hl _ (ci_coordinator _ _ _ Hi)) as [Hc Hst].
  apply prepare_proposal_Ok in Hprep as (_ & (n & Hn & Heng) & Hhash0 & Hmax & ->). rewrite !Hc.
  pose proof (config_bytes _ (ctx_config _ Hctx)) as Hcb. unfold MAX_BLOCK_TRANSACTION_BYTES in Hcb.
  pose proof (config_records _ (ctx_config _ Hctx)) as Hcr.
  destruct (select_transactions_spec context (nc_execution core)
    (maximum `min` cc_maximum_block_transaction_bytes (ec_consensus_config context))
    (cc_maximum_block_records (ec_consensus_config context)) txs (pe_candidate (nc_execution core)) 0 0 Hc)
    as (Hsub & Hbytes & Hcount & records & c & Hrun); [apply Hst|lia..|].
  set (sel := select_transactions _ _ _ _ _ _ _) in *. clearbody sel.
  split; [split_and!; [done|lia..]|]. intros Hr' Hsame Hlife Hheight Hhash Hnet.
  pose proof (reachable_inv _ Hctx _ Hl _ Hr') as Hi'.
  rewrite (ci_identity _ _ _ Hi) in Heng, Hhash0.
  apply (expected_height_Ok context ledger) in Hn as [-> Hm]; [|done].
  assert (Hv : validate_for d (ec_comet_bft_genesis context) (ce_height (pe_committed (nc_execution core)) + 1) =
    Ok tt) by (apply validate_for_Ok; split_and!; congruence).
  assert (Hex : exists b, execute_block context (pe_committed (nc_execution core'))
    (next_proposal (pe_committed (nc_execution core')) d sel) = Ok b).
  { rewrite Hsame. exists (sealed_block context (pe_committed (nc_execution core))
      (next_proposal (pe_committed (nc_execution core)) d sel) records c).
    apply execute_block_Ok; [done..|]. split; [|by eauto]. split; cbn; [done|done|lia..]. }
  destruct Hex as [b Hb]. apply (execute_for_decision_Ok _ Hctx _ Hl _ _ _ _ Hi') in Hb as [Hd He].
  by apply (process_proposal_run _ _ _ b).
Qed.

(** C18: an accepted proposal becomes durable.  If [ProcessProposal] accepts a
    proposal and nothing is retained, [FinalizeBlock] of the same request
    succeeds, repeating it returns the same result, and any other request is
    refused.  If the file system then does not fail, [Commit] succeeds with the
    application hash that was returned, leaves nothing retained and an empty
    mempool, and [Info] reports the decided height and that hash. *)
Theorem accepted_proposal_commits `{Sha2} context ledger core d txs :
  context_wf context -> ledger_inv ledger -> reachable context ledger core ->
  nc_pending core = None -> pe_writes_available (nc_execution core) = true -> decision_wf d ->
  process_proposal core d txs = Ok Accept ->
  exists result core1,
    finalize_block d txs core = (Ok result, core1) /\ finalize_block d txs core1 = (Ok result, core1) /\
    (forall d' txs', (d', txs') <> (d, txs) ->
       finalize_block d' txs' core1 = (Err (CometAbciError.FinalizeConflict (cd_height d')), core1)) /\
    (commit_fits core1 ->
     exists receipt core2,
       commit AppendSucceeds core1 = (Ok receipt, core2) /\ db_app_hash receipt = fr_app_hash result /\
       info core2 = Ok (mk_AppInfo (cd_height d) (Some (fr_app_hash result))) /\
       nc_pending core2 = None /\ mp_transactions (nc_mempool core2) = []).
Proof.
  intros Hctx Hl Hr Hp Hw Hd Hproc. pose proof (reachable_inv _ Hctx _ Hl _ Hr) as Hi.
  destruct (coordinator_facts _ Hctx _ Hl _ (ci_coordinator _ _ _ Hi)) as [Hc Hst].
  destruct (process_proposal_Accept _ _ _ Hproc) as (Hlife & Hv & b & Hb).
  pose proof (proj1 (execute_for_decision_Ok _ Hctx _ Hl _ _ _ _ Hi) (conj Hv Hb)) as Hex.
  set (p := mk_PendingFinalization d txs b (finalize_result b)).
  exists (finalize_result b), (set_pending (Some p) core).
  assert (Hinit : forall p', ensure_initialized (set_pending p' core) = Ok tt)
    by (intros p'; by apply ensure_initialized_Ok).
  split_and!.
  - by apply finalize_block_run.
  - unfold finalize_block. msimpl. rewrite Hinit. cbn [set_pending nc_pending].
    by rewrite !bool_decide_eq_true_2 by done.
  - intros d' txs' Hne. unfold finalize_block. msimpl. rewrite Hinit. cbn [set_pending nc_pending].
    by rewrite finalize_conflict.
  - intros Hfit. assert (Hi1 : core_inv context ledger (set_pending (Some p) core)).
    { destruct Hi. split; cbn; try done; [|by rewrite Hlife]. intros p' [= <-]. by split. }
    destruct (commit_succeeds _ Hctx _ Hl _ p Hi1 eq_refl Hlife Hw Hfit) as (pe' & Hpe & Hcommit).
    eexists _, _. split; [exact Hcommit|]. split; [done|]. split_and!; [|done|done].
    unfold info. cbn [nc_execution nc_identity]. rewrite Hpe. cbn [pe_committed pe_app_hash].
    destruct (executed_inv _ Hctx _ _ _ Hst Hex) as (_ & Hh & _). cbn [into_committed_state ce_height].
    pose proof (com_height _ _ Hst) as Hpos. cbn [pf_executed p]. rewrite Hh.
    destruct (Z.eqb_spec (ce_height (pe_committed (nc_execution core)) + 1) 0); [lia|].
    apply execute_block_Ok in Hex as [[_ Hdec _ _] _]; [|done..]. cbn in Hdec.
    apply validate_for_Ok in Hdec as (_ & He & _). unfold engine_height.
    cbn [set_pending nc_identity]. rewrite (ci_identity _ _ _ Hi), He. done.
Qed.

(** only what was finalized is committed.  When [Commit] succeeds there was a
    retained block, the receipt carries the application hash that [FinalizeBlock]
    returned for it, and the new durable state is the execution of exactly the
    retained transactions at the previous one; when it fails, the committed
    state, the retained block and the mempool are unchanged. *)
Theorem commit_only_finalized `{Sha2} context ledger core io r core' :
  context_wf context -> ledger_inv ledger -> reachable context ledger core -> commit_fits core ->
  commit io core = (r, core') ->
  match r with
  | Ok receipt =>
      exists p b, nc_pending core = Some p /\ db_app_hash receipt = fr_app_hash (pf_result p) /\
        execute_block context (pe_committed (nc_execution core))
          (next_proposal (pe_committed (nc_execution core)) (pf_engine_decision p) (pf_transactions p)) = Ok b /\
        pe_committed (nc_execution core') = into_committed_state b /\
        db_block_id receipt = bh_id (eb_header b)
  | Err _ =>
      pe_committed (nc_execution core') = pe_committed (nc_execution core) /\
      nc_pending core' = nc_pending core /\ nc_mempool core' = nc_mempool core
  end.
Proof.
  intros Hctx Hl Hr Hfit Hc. pose proof (reachable_inv _ Hctx _ Hl _ Hr) as Hi.
  apply (commit_cases _ Hctx _ Hl) in Hc; [|done..]. destruct r as [receipt|e].
  - destruct Hc as (p & pe' & Hp & -> & -> & _ & _ & ->).
    pose proof (ci_pending _ _ _ Hi _ Hp) as [_ Hx Hres].
    exists p, (pf_executed p). rewrite Hres. done.
  - by destruct Hc as (pe' & -> & _ & Hsame).
Qed.

(** mempool admission is exact.  A running core accepts a transaction exactly
    when fewer than ten thousand are pending, the pending bytes stay within 64
    MiB, and the transaction has a step after the ones already admitted, so that
    one which spends a pending nullifier is refused; it is then appended to the
    pending list.  A refusal changes nothing, and the code is zero exactly on
    acceptance. *)
Theorem check_tx_exact `{Sha2} context ledger core tx result core' :
  context_wf context -> ledger_inv ledger -> reachable context ledger core ->
  nc_lifecycle core = Running -> check_tx tx core = (result, core') ->
  let mp := nc_mempool core in
  (ct_accepted result = true <->
   len (mp_transactions mp) < MAX_PENDING_TRANSACTIONS /\
   len (concat (mp_transactions mp)) + len tx <= MAX_PENDING_TRANSACTION_BYTES /\
   exists record c, transaction_step context (mp_candidate mp) tx record c) /\
  (ct_code result = 0 <-> ct_accepted result = true) /\
  (if ct_accepted result then mp_transactions (nc_mempool core') = mp_transactions mp ++ [tx]
   else core' = core).
Proof.
  intros Hctx Hl Hr Hlife Hcheck mp. pose proof (reachable_inv _ Hctx _ Hl _ Hr) as Hi.
  destruct (coordinator_facts _ Hctx _ Hl _ (ci_coordinator _ _ _ Hi)) as [Hc Hst].
  pose proof (ci_mempool _ _ _ Hi) as Hmp. fold mp in Hmp.
  pose proof (admit_transaction_cases _ _ tx _ Hc Hst Hmp) as Ha.
  pose proof (mpi_count _ _ _ Hmp) as Hn.
  unfold check_tx in Hcheck. rewrite bool_decide_eq_true_2 in Hcheck by done. cbn [negb] in Hcheck.
  fold mp in Hcheck. destruct (admit_transaction _ tx mp) as [[[]|e] mp'] eqn:Hadm;
    injection Hcheck as <- <-; cbn [ct_accepted ct_code].
  - destruct Ha as (Hmp' & Htx & record & Hstep). split; [|split; [done|exact Htx]].
    split; [|done]. intros _. pose proof (mpi_limit _ _ _ Hmp') as Hlim. rewrite (mpi_bytes _ _ _ Hmp'), Htx in Hlim.
    pose proof (mpi_count _ _ _ Hmp') as Hcount. rewrite Htx in Hcount.
    rewrite concat_app, !length_app in *. cbn in Hlim, Hcount. rewrite app_nil_r in Hlim.
    split_and!; [lia|lia|by eauto].
  - destruct Ha as [-> Hwhy]. split; [|split; [done|by destruct core]].
    split; [done|]. intros (H1 & H2 & record & c & Hstep). rewrite (mpi_bytes _ _ _ Hmp) in Hwhy.
    destruct Hwhy as [|[|Hno]]; [lia|lia|]. by apply Hno in Hstep.
Qed.

(** height mapping.  From Noxis height one on, the engine height of a Noxis
    height and the Noxis height of an engine height are inverse to each other,
    with all overflows refused. *)
Theorem height_mapping_inverse id n h :
  1 <= initial_height id -> 1 <= n <= U64_MAX -> in_i64 h ->
  engine_height id n = Ok h <-> noxis_height id h = Ok n.
Proof.
  unfold in_i64, engine_height, noxis_height, initial_height. intros Hi Hn Hh.
  rewrite map_err_Ok, engine_height_for_Ok by lia.
  rewrite bind_Ok. setoid_rewrite bind_Ok. setoid_rewrite ok_or_Ok.
  setoid_rewrite checked_i64_Some. setoid_rewrite try_from_Some. unfold in_i64, in_range. split.
  - intros (_ & -> & Hm). eexists. split; [split; [reflexivity|lia]|].
    eexists. split; [split; [reflexivity|lia]|]. lia.
  - intros (r & [-> ?] & k & [-> ?] & -> & ?). lia.
Qed.


(** ** Witnesses *)

Section Samples.
#[local] Existing Instance toy_sha2.

Definition new_core : NoxisCometCore :=
  mk_NoxisCometCore sample_genesis fresh_coordinator (mempool_new (from_committed exec_state)) None
    GenesisUnverified.

Definition running_core : NoxisCometCore := set_lifecycle Running new_core.

Lemma new_core_reachable : reachable exec_context sample_ledger new_core.
Proof.
  apply (reach_new _ _ fresh_coordinator (mk_Authorization (context_id exec_validation))).
  - exact fresh_coordinator_ok.
  - unfold try_new, ensure_matches. cbn [fresh_coordinator tip_state pe_context exec_context
      ec_validation_context auth_validation_context_id].
    rewrite bool_decide_eq_true_2 by reflexivity. reflexivity.
Qed.

Lemma running_core_reachable : reachable exec_context sample_ledger running_core.
Proof.
  pose proof (reach_call _ _ new_core (CallInitChain (genesis_request sample_genesis)) new_core_reachable I)
    as Hr.
  cbn [run_call] in Hr.
  pose proof (init_chain_genesis new_core eq_refl) as Hi. cbn [new_core nc_identity] in Hi.
  rewrite Hi in Hr. exact Hr.
Qed.

(** The core after finalizing the sample block. *)
Definition finalized_core (b : ExecutedBlock) : NoxisCometCore :=
  set_pending (Some (mk_PendingFinalization (exec_decision x01) [transaction_bytes exec_mint] b
                       (finalize_result b))) running_core.

Lemma running_core_inv : core_inv exec_context sample_ledger running_core.
Proof. exact (reachable_inv _ exec_context_wf _ sample_ledger_inv _ running_core_reachable). Qed.

Lemma running_executes b :
  execute_block exec_context exec_state exec_proposal = Ok b ->
  validate_decision running_core (exec_decision x01) = Ok tt /\
  execute_for_engine_decision running_core (exec_decision x01) [transaction_bytes exec_mint] = Ok b.
Proof.
  intros Hb.
  exact (proj2 (execute_for_decision_Ok _ exec_context_wf _ sample_ledger_inv running_core _ _ b
    running_core_inv) Hb).
Qed.

Lemma finalized_core_reachable b :
  execute_block exec_context exec_state exec_proposal = Ok b ->
  reachable exec_context sample_ledger (finalized_core b).
Proof.
  intros Hb. destruct (running_executes b Hb) as [Hv He].
  exact (reach_finalize _ _ running_core _ _ b running_core_reachable exec_decision_wf eq_refl eq_refl Hv He).
Qed.

Lemma finalized_core_fits b :
  execute_block exec_context exec_state exec_proposal = Ok b -> commit_fits (finalized_core b).
Proof. intros Hb p Hp. injection Hp as <-. exact (fresh_size b Hb). Qed.

Lemma running_processes :
  process_proposal running_core (exec_decision x01) [transaction_bytes exec_mint] = Ok Accept.
Proof.
  destruct exec_executes as [b Hb]. destruct (running_executes b Hb) as [Hv He].
  exact (process_proposal_run running_core _ _ b eq_refl Hv He).
Qed.

End Samples.

Lemma abci_invariant_witness :
  @core_inv toy_sha2 exec_context sample_ledger running_core /\
  nc_execution (@run_call toy_sha2 (CallCheckTx []) running_core) = nc_execution running_core.
Proof.
  destruct (@abci_invariant toy_sha2 exec_context sample_ledger running_core (CallCheckTx [])
    exec_context_wf sample_ledger_inv running_core_reachable) as [Hi Hc].
  split; [exact Hi|]. apply Hc; [exact I|discriminate].
Defined.

Lemma prepared_proposal_accepted_witness :
  exists selected,
    @prepare_proposal toy_sha2 running_core 10 1000 (cvs_hash (cg_validators sample_genesis)) [[]] = Ok selected /\
    @process_proposal toy_sha2 running_core (exec_decision x01) selected = Ok Accept.
Proof.
  assert (Hp : exists selected, @prepare_proposal toy_sha2 running_core 10 1000
    (cvs_hash (cg_validators sample_genesis)) [[]] = Ok selected).
  { exists []. by_eval. }
  destruct Hp as [selected Hp]. exists selected. split; [exact Hp|].
  apply (proj2 (@prepared_proposal_accepted toy_sha2 exec_context sample_ledger running_core running_core 10 1000
    _ [[]] selected (exec_decision x01) exec_context_wf sample_ledger_inv running_core_reachable Hp)).
  - exact running_core_reachable.
  - reflexivity.
  - reflexivity.
  - reflexivity.
  - reflexivity.
  - reflexivity.
Defined.

Lemma accepted_proposal_commits_witness :
  exists result core1,
    @finalize_block toy_sha2 (exec_decision x01) [transaction_bytes exec_mint] running_core = (Ok result, core1).
Proof.
  destruct (@accepted_proposal_commits toy_sha2 exec_context sample_ledger running_core (exec_decision x01)
    [transaction_bytes exec_mint] exec_context_wf sample_ledger_inv running_core_reachable eq_refl eq_refl
    exec_decision_wf running_processes) as (result & core1 & Hf & _).
  exists result, core1. exact Hf.
Defined.

(** The append of the finalized block fails after thirty bytes. *)
Lemma commit_only_finalized_witness :
  exists b, match (@commit toy_sha2 (WriteFails 30) (finalized_core b)).1 with
            | Ok _ => True
            | Err _ => nc_pending (@commit toy_sha2 (WriteFails 30) (finalized_core b)).2 =
                       nc_pending (finalized_core b)
            end.
Proof.
  destruct exec_executes as [b Hb]. exists b.
  pose proof (@commit_only_finalized toy_sha2 exec_context sample_ledger (finalized_core b) (WriteFails 30)
    (@commit toy_sha2 (WriteFails 30) (finalized_core b)).1
    (@commit toy_sha2 (WriteFails 30) (finalized_core b)).2 exec_context_wf sample_ledger_inv
    (finalized_core_reachable b Hb) (finalized_core_fits b Hb) (surjective_pairing _)) as Hc.
  destruct (@commit toy_sha2 (WriteFails 30) (finalized_core b)).1; [exact I|].
  destruct Hc as (_ & Hp & _). exact Hp.
Defined.

(** The empty byte string is not a transaction. *)
Lemma check_tx_exact_witness :
  (@check_tx toy_sha2 [] running_core).2 = running_core.
Proof.
  destruct (@check_tx_exact toy_sha2 exec_context sample_ledger running_core []
    (@check_tx toy_sha2 [] running_core).1 (@check_tx toy_sha2 [] running_core).2
    exec_context_wf sample_ledger_inv running_core_reachable eq_refl (surjective_pairing _)) as (_ & _ & Hc).
  assert (ct_accepted (@check_tx toy_sha2 [] running_core).1 = false) as Hf by by_eval.
  rewrite Hf in Hc. exact Hc.
Defined.

Lemma height_mapping_inverse_witness :
  engine_height sample_genesis 1 = Ok 10 /\ noxis_height sample_genesis 10 = Ok 1.
Proof.
  assert (engine_height sample_genesis 1 = Ok 10) as He by by_eval. split; [exact He|].
  refine (proj1 (height_mapping_inverse sample_genesis 1 10 _ _ _) He); by_eval.
Defined.

