(* ===== verification/RecordLog.v ===== *)
(** * The state-record log and the legacy transaction log

    [StateRecordLog] ([noxis-storage/src/record_log.rs]) keeps one [NXRF] frame per
    transaction record, [TransactionLog] ([noxis-storage/src/lib.rs]) one [NXLG]
    frame per canonical transaction.  Both instantiate the framed logs; a file is
    its contents. *)

From Stdlib Require Import Strings.Byte Strings.String.
From S2P Require Import Prelude Arrays Reader Sha256 Types Crypto Ledger Codec RecordChain Crc32.
From S2P Require Import Frames FramesFacts.

(** ** The legacy transaction log *)

Definition FRAME_MAGIC : list byte := bytes_of_string "NXLG".
Definition FRAME_VERSION : Z := 1.
Definition MAX_FRAME_PAYLOAD_LENGTH : Z := 32 * 1024 * 1024.

Module StorageError.
Inductive StorageError : Type :=
| Io (operation : string)
| InvalidMagic (offset : Z)
| UnsupportedFrameVersion (offset version : Z)
| FrameTooLarge (offset actual maximum : Z)
| TruncatedFrame (offset : Z) (section : string)
| ChecksumMismatch (offset expected actual : Z)
| InvalidTransaction (offset : Z) (source : CodecError)
| NonCanonicalTransaction
| LogOffsetOverflow
| Codec (error : CodecError).
End StorageError.
Abbreviation StorageError := StorageError.StorageError.

Record StoredTransaction : Type := mk_StoredTransaction { stx_offset : Z; stx_bytes : list byte }.

(** [scan_frames] of the transaction log keeps the payload it could decode. *)
Definition transaction_format : FrameFormat StorageError StoredTransaction := {|
  ff_magic := FRAME_MAGIC;
  ff_version := FRAME_VERSION;
  ff_maximum := MAX_FRAME_PAYLOAD_LENGTH;
  ff_check_magic := exact_magic FRAME_MAGIC StorageError.InvalidMagic;
  ff_invalid_magic := StorageError.InvalidMagic;
  ff_unsupported_version := StorageError.UnsupportedFrameVersion;
  ff_too_large := StorageError.FrameTooLarge;
  ff_checksum_mismatch := StorageError.ChecksumMismatch;
  ff_offset_overflow := StorageError.LogOffsetOverflow;
  ff_decode := fun offset payload =>
    _ ← map_err (StorageError.InvalidTransaction offset) (decode_transaction payload);
    Ok (mk_StoredTransaction offset payload)
|}.

(** [scan_frames] and [encode_frame] of the transaction log. *)
Definition transaction_scan_frames
    : list byte -> Result StorageError (list StoredTransaction * option IncompleteTail) :=
  scan_frames transaction_format.

Definition transaction_encode_frame : list byte -> Result StorageError (list byte) :=
  encode_frame transaction_format.

Definition transaction_log_validate : list byte -> Result StorageError unit :=
  validate_file transaction_format StorageError.TruncatedFrame.

(** [TransactionLog::open]: every frame is validated, nothing is changed. *)
Definition transaction_log_open : M (list byte) StorageError unit :=
  file ← get; lift (transaction_log_validate file).

(** [TransactionLog::open_recovering_incomplete_tail]. *)
Definition open_recovering_incomplete_tail (io : TruncateIo) : M (list byte) StorageError unit :=
  file ← get;
  found ← lift (transaction_scan_frames file);
  match found.2 with
  | None => mret tt
  | Some tail =>
      cut_file (StorageError.Io "remove incomplete transaction-log tail")
        (StorageError.Io "sync recovered transaction log") transaction_log_validate io
        (tail_valid_prefix_length tail)
  end.

Definition transaction_append_calls : AppendCalls StorageError :=
  mk_AppendCalls (StorageError.Io "seek transaction log end")
    (StorageError.Io "append transaction frame") (StorageError.Io "flush transaction frame")
    (StorageError.Io "sync transaction frame") None.

(** [TransactionLog::append_transaction_bytes]. *)
Definition append_transaction_bytes (io : AppendIo) (transaction_bytes : list byte)
    : M (list byte) StorageError Z :=
  transaction ← lift (map_err StorageError.Codec (decode_transaction transaction_bytes));
  payload ← lift (map_err StorageError.Codec (encode_transaction transaction));
  if negb (bool_decide (payload = transaction_bytes))
  then lift (Err StorageError.NonCanonicalTransaction)
  else
    frame ← lift (transaction_encode_frame payload);
    write_frame transaction_append_calls io frame.

(** [read_frames], the whole of [TransactionLog::read_transactions]. *)
Definition read_transactions (file : list byte) : Result StorageError (list StoredTransaction) :=
  found ← transaction_scan_frames file;
  match found.2 with
  | None => Ok found.1
  | Some tail =>
      Err (StorageError.TruncatedFrame (tail_valid_prefix_length tail) (tail_section tail))
  end.

(** ** Facts about the transaction log *)

Definition transaction_kind : EntryKind (list byte) StoredTransaction :=
  mk_EntryKind (fun bs => bs) (fun bs => exists tx, bytes_of_tx bs tx) mk_StoredTransaction.

#[global] Instance transaction_laws : FrameLaws transaction_format transaction_kind.
Proof.
  split; [done..|apply exact_magic_Ok|].
  intros offset p e Hl. cbn [ff_decode transaction_format ff_maximum ek_ok ek_payload ek_at transaction_kind] in *.
  assert (Hi : len p <= ISIZE_MAX).
  { assert (MAX_FRAME_PAYLOAD_LENGTH <= ISIZE_MAX) by done. lia. }
  rewrite bind_Ok. split.
  - intros (tx & Hd%map_err_Ok & [= <-]). apply decode_bytes_of_tx in Hd; [|done].
    exists p. split; [by exists tx|done].
  - intros (bs & [tx Hb] & -> & ->). exists tx. split; [|done].
    by rewrite (bytes_of_tx_decode _ _ Hb).
Qed.

Abbreviation transaction_log_bytes := (log_bytes transaction_format transaction_kind).

Lemma transaction_storable bs tx :
  bytes_of_tx bs tx -> storable transaction_format transaction_kind bs.
Proof.
  intros Hb. split; [by exists tx|]. pose proof (bytes_of_tx_bound _ _ Hb) as Hl.
  cbn [ek_payload transaction_kind ff_maximum transaction_format].
  unfold MAX_FRAME_PAYLOAD_LENGTH, MAX_RECORD_TRANSACTION_BYTES in *. lia.
Qed.

(** Recovery of a log with a partial tail. *)
Lemma open_recovering_holds bodies tail torn :
  Forall (storable transaction_format transaction_kind) bodies ->
  len (transaction_log_bytes bodies) <= U64_MAX ->
  tail_of transaction_format transaction_kind bodies tail torn ->
  open_recovering_incomplete_tail TruncateSucceeds (transaction_log_bytes bodies ++ torn) =
  (Ok tt, transaction_log_bytes bodies).
Proof.
  intros Hs Hl Ht. unfold open_recovering_incomplete_tail, transaction_scan_frames. msimpl.
  rewrite (scan_frames_holds _ transaction_kind _ tail) by done. cbn [snd].
  destruct tail as [t|]; [|by rewrite Ht, app_nil_r]. rewrite cut_file_restores by done.
  unfold transaction_log_validate. by rewrite (validate_file_complete _ transaction_kind).
Qed.

Lemma read_transactions_complete bodies :
  Forall (storable transaction_format transaction_kind) bodies ->
  len (transaction_log_bytes bodies) <= U64_MAX ->
  read_transactions (transaction_log_bytes bodies) = Ok (placed transaction_format transaction_kind 0 bodies).
Proof.
  intros Hs Hl. unfold read_transactions, transaction_scan_frames.
  by rewrite (scan_frames_complete _ transaction_kind).
Qed.

Lemma append_transaction_cases io bs file :
  len bs <= ISIZE_MAX ->
  (exists tx, bytes_of_tx bs tx /\ append_transaction_bytes io bs file =
     write_frame transaction_append_calls io (entry_frame transaction_format transaction_kind bs) file) \/
  ((~ exists tx, bytes_of_tx bs tx) /\ exists e, append_transaction_bytes io bs file = (Err e, file)).
Proof.
  intros Hi. unfold append_transaction_bytes. msimpl.
  destruct (decode_transaction bs) as [tx|e] eqn:Hd; cbn [map_err]; msimpl.
  - apply decode_bytes_of_tx in Hd as Hb; [|done]. left. exists tx. split; [done|].
    rewrite (proj2 Hb). cbn [map_err]. msimpl. rewrite bool_decide_eq_true_2 by done. cbn [negb].
    rewrite M_bind_eq. unfold transaction_encode_frame.
    pose proof (encode_frame_storable transaction_format transaction_kind bs (transaction_storable _ _ Hb)) as Hf.
    cbn [ek_payload transaction_kind] in Hf. cbn [lift]. by rewrite Hf.
  - right. split; [|by eauto]. intros [tx Hb%bytes_of_tx_decode]. congruence.
Qed.

(** the transaction log survives crashes and keeps canonical transactions
    only.  Bytes that are not the encoding of a transaction are refused and the
    file is unchanged.  Otherwise, whatever call of the append fails, recovery
    returns a log that reads back as the old transactions or those and the new
    one, the latter if success was reported. *)
Theorem transaction_log_crash_atomic io bodies bs r file :
  Forall (storable transaction_format transaction_kind) bodies ->
  len (transaction_log_bytes (bodies ++ [bs])) <= U64_MAX -> len bs <= ISIZE_MAX ->
  append_transaction_bytes io bs (transaction_log_bytes bodies) = (r, file) ->
  exists kept,
    open_recovering_incomplete_tail TruncateSucceeds file = (Ok tt, transaction_log_bytes kept) /\
    read_transactions (transaction_log_bytes kept) = Ok (placed transaction_format transaction_kind 0 kept) /\
    (kept = bodies \/ kept = bodies ++ [bs] /\ exists tx, bytes_of_tx bs tx) /\
    (is_ok r = true -> kept = bodies ++ [bs]) /\
    ((~ exists tx, bytes_of_tx bs tx) -> is_ok r = false /\ file = transaction_log_bytes bodies).
Proof.
  intros Hs Hl Hi. destruct (append_transaction_cases io bs (transaction_log_bytes bodies) Hi)
    as [(tx & Hb & ->)|[Hn [e ->]]].
  - pose proof (transaction_storable _ _ Hb) as Hbs.
    intros [Ha _]%(write_frame_appended _ transaction_kind); [|done].
    apply (appended_holds _ transaction_kind) in Ha
      as (kept & tail & torn & Hk & -> & Ht & Hkl & Hcase & Hok); [|done..].
    exists kept. split_and!; [by eapply open_recovering_holds|by apply read_transactions_complete| |done|].
    + destruct Hcase as [?|[? _]]; eauto.
    + intros []. by exists tx.
  - intros [= <- <-]. exists bodies.
    assert (Hl0 : len (transaction_log_bytes bodies) <= U64_MAX)
      by (rewrite log_bytes_snoc, length_app in Hl; lia).
    pose proof (open_recovering_holds bodies None [] Hs Hl0 eq_refl) as Ho. rewrite app_nil_r in Ho.
    split_and!; [done|by apply read_transactions_complete|by left|done|done].
Qed.

Lemma transaction_log_crash_atomic_witness :
  exists kept,
    open_recovering_incomplete_tail TruncateSucceeds
      (append_transaction_bytes (WriteFails 9) (transaction_bytes sample_tx) []).2 =
    (Ok tt, transaction_log_bytes kept).
Proof.
  destruct (transaction_log_crash_atomic (WriteFails 9) [] (transaction_bytes sample_tx) _ _
    ltac:(constructor) ltac:(vm_compute; discriminate) ltac:(vm_compute; discriminate)
    (surjective_pairing _)) as (kept & Ho & _).
  exists kept. exact Ho.
Defined.

(** ** The state-record log *)

Definition RECORD_FRAME_MAGIC : list byte := bytes_of_string "NXRF".
Definition RECORD_FRAME_VERSION : Z := 1.
Definition MAX_RECORD_FRAME_PAYLOAD_LENGTH : Z := MAX_RECORD_TRANSACTION_BYTES + 146.

Module RecordLogError.
Inductive RecordLogError : Type :=
| Io (operation : string)
| InvalidMagic (offset : Z)
| LegacyTransactionLog (offset : Z)
| UnsupportedFrameVersion (offset version : Z)
| FrameTooLarge (offset actual maximum : Z)
| TruncatedFrame (offset : Z) (section : string)
| ChecksumMismatch (offset expected actual : Z)
| Record (offset : Z) (source : RecordError)
| OffsetOverflow
| RecoveryTailChanged.
End RecordLogError.
Abbreviation RecordLogError := RecordLogError.RecordLogError.

Record StoredRecord : Type := mk_StoredRecord { sr_offset : Z; sr_record : TransactionRecord }.

(** The magic bytes of the legacy log are recognised and refused as such. *)
Definition record_check_magic (offset : Z) (magic : list byte) : Result RecordLogError unit :=
  if bool_decide (magic = bytes_of_string "NXLG")
  then Err (RecordLogError.LegacyTransactionLog offset)
  else exact_magic RECORD_FRAME_MAGIC RecordLogError.InvalidMagic offset magic.

Section Records.
Context `{Sha2}.

Definition record_format : FrameFormat RecordLogError StoredRecord := {|
  ff_magic := RECORD_FRAME_MAGIC;
  ff_version := RECORD_FRAME_VERSION;
  ff_maximum := MAX_RECORD_FRAME_PAYLOAD_LENGTH;
  ff_check_magic := record_check_magic;
  ff_invalid_magic := RecordLogError.InvalidMagic;
  ff_unsupported_version := RecordLogError.UnsupportedFrameVersion;
  ff_too_large := RecordLogError.FrameTooLarge;
  ff_checksum_mismatch := RecordLogError.ChecksumMismatch;
  ff_offset_overflow := RecordLogError.OffsetOverflow;
  ff_decode := fun offset payload =>
    record ← map_err (RecordLogError.Record offset) (record_decode payload);
    Ok (mk_StoredRecord offset record)
|}.

(** [scan_frames] and [encode_frame] of the record log. *)
Definition record_scan_frames : list byte -> Result RecordLogError (list StoredRecord * option IncompleteTail) :=
  scan_frames record_format.

Definition record_encode_frame : list byte -> Result RecordLogError (list byte) :=
  encode_frame record_format.

Definition record_log_validate : list byte -> Result RecordLogError unit :=
  validate_file record_format RecordLogError.TruncatedFrame.

Definition record_append_calls : AppendCalls RecordLogError :=
  mk_AppendCalls (RecordLogError.Io "seek state-record log end")
    (RecordLogError.Io "append state-record frame") (RecordLogError.Io "flush state-record frame")
    (RecordLogError.Io "sync state-record frame") None.

(** [StateRecordLog::append_record]. *)
Definition append_record (io : AppendIo) (record : TransactionRecord) : M (list byte) RecordLogError Z :=
  let payload := record_encode record in
  _ ← lift (map_err (RecordLogError.Record 0) (record_decode payload));
  frame ← lift (record_encode_frame payload);
  write_frame record_append_calls io frame.

(** [StateRecordLog::scan_recoverable_tail]: the records and the partial tail. *)
Definition record_log_scan : list byte -> Result RecordLogError (list StoredRecord * option IncompleteTail) :=
  record_scan_frames.

(** [StateRecordLog::truncate_verified_incomplete_tail]. *)
Definition record_log_truncate (io : TruncateIo) (expected : IncompleteTail)
    : M (list byte) RecordLogError unit :=
  file ← get;
  found ← lift (record_log_scan file);
  truncate_found RecordLogError.RecoveryTailChanged
    (RecordLogError.Io "remove verified incomplete state-record-log tail")
    (RecordLogError.Io "sync recovered state-record log")
    record_log_validate io expected found.2.

(** ** Facts *)

Definition record_kind : EntryKind TransactionRecord StoredRecord :=
  mk_EntryKind record_encode record_wf mk_StoredRecord.

#[global] Instance record_laws : FrameLaws record_format record_kind.
Proof.
  split; [done..| |].
  - intros offset magic. cbn [ff_check_magic record_format]. unfold record_check_magic.
    case_bool_decide as Hm; [|apply exact_magic_Ok]. split; [done|]. by rewrite Hm.
  - intros offset p e Hl. cbn [ff_decode record_format ff_maximum] in *.
    assert (Hi : len p <= ISIZE_MAX).
    { assert (MAX_RECORD_FRAME_PAYLOAD_LENGTH <= ISIZE_MAX) by done. lia. }
    rewrite bind_Ok. split.
    + intros (r & Hd & [= <-]). apply map_err_Ok in Hd.
      apply record_decode_Ok in Hd as [Hw ->]; [|done]. by exists r.
    + intros (r & Hw & -> & ->). exists r. split; [|done]. apply map_err_Ok. by apply record_decode_Ok.
Qed.

(** Every well-formed record fits a frame. *)
Lemma record_storable r : record_wf r -> storable record_format record_kind r.
Proof.
  intros Hw. split; [done|]. cbn [ek_payload record_kind ff_maximum record_format].
  destruct Hw as (_ & tx & Hb & _). apply bytes_of_tx_bound in Hb.
  rewrite length_record_encode. unfold MAX_RECORD_FRAME_PAYLOAD_LENGTH. lia.
Qed.

Lemma append_record_wf io r file :
  record_wf r ->
  append_record io r file =
  write_frame record_append_calls io (entry_frame record_format record_kind r) file.
Proof.
  intros Hw. pose proof (record_storable r Hw) as Hs. unfold append_record. msimpl.
  assert (Hd : record_decode (record_encode r) = Ok r).
  { apply record_decode_Ok; [|done]. destruct Hs as [_ Hs].
    assert (ff_maximum record_format <= ISIZE_MAX) by done.
    cbn [ek_payload record_kind] in Hs. lia. }
  rewrite Hd. cbn [map_err].
  pose proof (encode_frame_storable record_format record_kind r Hs) as Hf.
  cbn [ek_payload record_kind] in Hf. unfold record_encode_frame. by rewrite Hf.
Qed.

(** Cutting the tail a scan found restores the log. *)
Lemma record_log_truncate_holds io records t torn :
  Forall record_wf records -> len (log_bytes record_format record_kind records) <= U64_MAX ->
  tail_of record_format record_kind records (Some t) torn ->
  record_log_truncate io t (log_bytes record_format record_kind records ++ torn) =
  match io with
  | SetLenFails => (Err (RecordLogError.Io "remove verified incomplete state-record-log tail"),
                    log_bytes record_format record_kind records ++ torn)
  | SyncAllFails => (Err (RecordLogError.Io "sync recovered state-record log"),
                     log_bytes record_format record_kind records)
  | TruncateSucceeds => (Ok tt, log_bytes record_format record_kind records)
  end.
Proof.
  intros Hw Hl Ht. unfold record_log_truncate, record_log_scan, record_scan_frames. msimpl.
  assert (Hs : Forall (storable record_format record_kind) records).
  { eapply Forall_impl; [exact Hw|]. apply record_storable. }
  rewrite (scan_frames_holds _ record_kind _ (Some t)) by done. cbn [snd].
  rewrite truncate_found_restores by done. unfold record_log_validate.
  by destruct io; rewrite ?(validate_file_complete _ record_kind).
Qed.

End Records.
