(* ===== verification/Checkpoint.v ===== *)
(** * Checkpoints ([noxis-checkpoint])

    An [NXCP] checkpoint is a complete ledger snapshot at one record, with the
    identities it belongs to, a hash of the snapshot and a hash of the whole. *)

From Stdlib Require Import Strings.Byte Strings.String.
From S2P Require Import Prelude Arrays Reader Sha256 Types Crypto Merkle Ledger LedgerFacts Snapshot.
From S2P Require Import RecordChain.

Definition CHECKPOINT_MAGIC : list byte := bytes_of_string "NXCP".
Definition CHECKPOINT_FORMAT_VERSION : Z := 1.
Definition SNAPSHOT_FORMAT_VERSION : Z := 1.
Definition MAX_SNAPSHOT_BYTES : Z := 128 * 1024 * 1024.
Definition HEADER_BYTES : Z := 180.
Definition CHECKPOINT_HASH_BYTES : Z := 32.
Definition MAX_CHECKPOINT_BYTES : Z := HEADER_BYTES + MAX_SNAPSHOT_BYTES + CHECKPOINT_HASH_BYTES.
Definition MAX_SNAPSHOT_ASSETS : Z := 4096.
Definition MAX_SNAPSHOT_IDENTIFIERS : Z := MAX_COMMITMENTS.
Definition SNAPSHOT_HASH_DOMAIN : list byte := bytes_of_string "NOXIS/CHECKPOINT/V1/SNAPSHOT" ++ [x00].
Definition CHECKPOINT_HASH_DOMAIN : list byte := bytes_of_string "NOXIS/CHECKPOINT/V1" ++ [x00].
Definition MAX_TICKER_BYTES : Z := 16.

Record Checkpoint : Type := mk_Checkpoint {
  ck_genesis_id : GenesisId;
  ck_validation_context_id : ValidationContextId;
  ck_sequence : Z;
  ck_state_id : StateId;
  ck_terminal_record_hash : RecordHash;
  ck_snapshot : LedgerSnapshot
}.

#[global] Instance Checkpoint_eq_dec : EqDecision Checkpoint.
Proof. solve_decision. Defined.

(** ** Errors *)

Module SnapshotError.
Inductive SnapshotError : Type :=
| UnexpectedEnd (offset : Z)
| TrailingBytes (count : Z)
| CollectionTooLarge (actual maximum : Z)
| UnknownAssetKind (tag : Z)
| TickerTooLong (index actual : Z)
| InvalidTickerEncoding (index : Z)
| InvalidAsset (index : Z) (source : AssetError)
| ZeroSupply.
End SnapshotError.
Abbreviation SnapshotError := SnapshotError.SnapshotError.

Record CheckpointAnchorMismatch : Type := mk_CheckpointAnchorMismatch {
  checkpoint_genesis : GenesisId;
  configured_genesis : GenesisId;
  checkpoint_context : ValidationContextId;
  configured_context : ValidationContextId
}.

Module CheckpointError.
Inductive CheckpointError : Type :=
| InvalidMagic
| UnsupportedFormatVersion (version : Z)
| UnsupportedSnapshotVersion (version : Z)
| UnexpectedEnd (offset : Z)
| TrailingBytes (count : Z)
| LengthOverflow
| SnapshotTooLarge (actual maximum : Z)
| CollectionTooLarge (actual maximum : Z)
| SnapshotHashMismatch
| CheckpointHashMismatch
| GenesisCheckpointUnsupported
| SnapshotSequenceMismatch (sequence accepted_transactions : Z)
| InvalidSnapshot (error : LedgerSnapshotError)
| Snapshot (error : SnapshotError)
| StateIdMismatch (encoded computed : StateId)
| AnchorMismatch (mismatch : CheckpointAnchorMismatch)
| NonCanonicalEncoding.
End CheckpointError.
Abbreviation CheckpointError := CheckpointError.CheckpointError.

(** [Reader] of the checkpoint and [SnapshotReader] raise the same error type in
    different constructors. *)
Definition checkpoint_read_error : ReadError CheckpointError := {|
  Reader.UnexpectedEnd := CheckpointError.UnexpectedEnd;
  Reader.LengthOverflow := CheckpointError.LengthOverflow;
  Reader.TrailingBytes := CheckpointError.TrailingBytes
|}.

Definition snapshot_read_error : ReadError CheckpointError := {|
  Reader.UnexpectedEnd := fun offset => CheckpointError.Snapshot (SnapshotError.UnexpectedEnd offset);
  Reader.LengthOverflow := CheckpointError.LengthOverflow;
  Reader.TrailingBytes := fun count => CheckpointError.Snapshot (SnapshotError.TrailingBytes count)
|}.

(** ** Snapshots *)

Definition ensure_count (actual maximum : Z) : Result CheckpointError unit :=
  if maximum <? actual then Err (CheckpointError.CollectionTooLarge actual maximum) else Ok tt.

Definition validate_snapshot_bounds (snapshot : LedgerSnapshot) : Result CheckpointError unit :=
  _ ← ensure_count (len (snap_assets snapshot)) MAX_SNAPSHOT_ASSETS;
  _ ← ensure_count (len (snap_commitments snapshot)) MAX_SNAPSHOT_IDENTIFIERS;
  _ ← ensure_count (len (snap_spent_nullifiers snapshot)) MAX_SNAPSHOT_IDENTIFIERS;
  _ ← ensure_count (len (snap_issued_supply snapshot)) MAX_SNAPSHOT_ASSETS;
  ensure_count (len (snap_accepted_transactions snapshot)) MAX_SNAPSHOT_IDENTIFIERS.

Definition encode_asset_kind (kind : AssetKind) : Z :=
  match kind with NativeBacked => 1 | Synthetic => 2 end.

Definition decode_asset_kind (tag : Z) : Result CheckpointError AssetKind :=
  match tag with
  | 1 => Ok NativeBacked
  | 2 => Ok Synthetic
  | _ => Err (CheckpointError.Snapshot (SnapshotError.UnknownAssetKind tag))
  end.

(** [write_count]: the count as four bytes, or an error above [u32]. *)
Definition snapshot_count (count : Z) : Result CheckpointError (list byte) :=
  count ← ok_or (try_from U32_MAX count) (CheckpointError.CollectionTooLarge count U32_MAX);
  Ok (to_be_bytes 4 count).

(** The bytes of one asset; the length of the ticker is cast to [u8]. *)
Definition snapshot_asset (asset : AssetDefinition) : list byte :=
  arr (asset_id asset) ++ to_be_bytes 1 (encode_asset_kind (asset_kind asset)) ++
  to_be_bytes 1 (len (asset_ticker asset)) ++ asset_ticker asset.

Definition snapshot_supply (entry : AssetId * Amount) : list byte :=
  arr entry.1 ++ to_be_bytes 16 (units entry.2).

Definition limit_snapshot (bytes : list byte) : Result CheckpointError (list byte) :=
  if MAX_SNAPSHOT_BYTES <? len bytes
  then Err (CheckpointError.SnapshotTooLarge (len bytes) MAX_SNAPSHOT_BYTES)
  else Ok bytes.

Definition encode_snapshot (snapshot : LedgerSnapshot) : Result CheckpointError (list byte) :=
  _ ← validate_snapshot_bounds snapshot;
  assets ← snapshot_count (len (snap_assets snapshot));
  commitments ← snapshot_count (len (snap_commitments snapshot));
  nullifiers ← snapshot_count (len (snap_spent_nullifiers snapshot));
  supply ← snapshot_count (len (snap_issued_supply snapshot));
  transactions ← snapshot_count (len (snap_accepted_transactions snapshot));
  limit_snapshot
    (to_be_bytes 1 (snap_tree_depth snapshot) ++
     assets ++ concat (snapshot_asset <$> snap_assets snapshot) ++
     commitments ++ concat (arr <$> snap_commitments snapshot) ++
     nullifiers ++ concat (arr <$> snap_spent_nullifiers snapshot) ++
     supply ++ concat (snapshot_supply <$> snap_issued_supply snapshot) ++
     transactions ++ concat (arr <$> snap_accepted_transactions snapshot)).

(** *** Decoding *)

Section SnapshotDecoder.
#[local] Existing Instance snapshot_read_error.

(** [SnapshotReader::read_count]. *)
Definition read_count (maximum : Z) : M Reader CheckpointError Z :=
  read_u32_at_most maximum
    (fun count => CheckpointError.Snapshot (SnapshotError.CollectionTooLarge count maximum)).

Definition read_ticker (index : Z) : M Reader CheckpointError (list byte) :=
  ticker_length ← read_u8;
  if MAX_TICKER_BYTES <? ticker_length
  then lift (Err (CheckpointError.Snapshot (SnapshotError.TickerTooLong index ticker_length)))
  else
    ticker ← read_exact ticker_length;
    if negb (valid_utf8 ticker)
    then lift (Err (CheckpointError.Snapshot (SnapshotError.InvalidTickerEncoding index)))
    else mret ticker.

(** The body of the loop over the assets. *)
Definition read_asset (index : Z) : M Reader CheckpointError AssetDefinition :=
  id ← read_array 32;
  tag ← read_u8;
  kind ← lift (decode_asset_kind tag);
  ticker ← read_ticker index;
  lift (map_err (fun source => CheckpointError.Snapshot (SnapshotError.InvalidAsset index source))
          (asset_definition_new id ticker kind)).

Definition read_snapshot_assets : M Reader CheckpointError (list AssetDefinition) :=
  asset_count ← read_count MAX_SNAPSHOT_ASSETS; read_indexed read_asset 0 (Z.to_nat asset_count).

(** [read_identifiers]. *)
Definition read_snapshot_identifiers : M Reader CheckpointError (list Id32) :=
  count ← read_count MAX_SNAPSHOT_IDENTIFIERS; read_n (Z.to_nat count) (read_array 32).

Definition read_supply_entry : M Reader CheckpointError (AssetId * Amount) :=
  asset_id ← read_array 32;
  units ← read_u128;
  amount ← lift (ok_or (amount_new units) (CheckpointError.Snapshot SnapshotError.ZeroSupply));
  mret (asset_id, amount).

Definition read_snapshot_supply : M Reader CheckpointError (list (AssetId * Amount)) :=
  supply_count ← read_count MAX_SNAPSHOT_ASSETS; read_n (Z.to_nat supply_count) read_supply_entry.

Definition decode_snapshot : list byte -> Result CheckpointError LedgerSnapshot :=
  run (
    tree_depth ← read_u8;
    assets ← read_snapshot_assets;
    commitments ← read_snapshot_identifiers;
    spent_nullifiers ← read_snapshot_identifiers;
    issued_supply ← read_snapshot_supply;
    accepted_transactions ← read_snapshot_identifiers;
    _ ← finish;
    lift (map_err CheckpointError.InvalidSnapshot
            (from_canonical_parts tree_depth assets commitments spent_nullifiers issued_supply
               accepted_transactions))).

End SnapshotDecoder.

(** ** Checkpoints *)

Section Checkpoints.
Context `{Sha2}.

Definition hash_snapshot (bytes : list byte) : array 32 := sha256 (SNAPSHOT_HASH_DOMAIN ++ bytes).
Definition hash_checkpoint (bytes : list byte) : array 32 := sha256 (CHECKPOINT_HASH_DOMAIN ++ bytes).

(** [Checkpoint::from_snapshot]. *)
Definition checkpoint_from_snapshot (anchor : ChainAnchor) (sequence : Z)
    (terminal_record_hash : RecordHash) (snapshot : LedgerSnapshot)
    : Result CheckpointError Checkpoint :=
  if sequence =? 0 then Err CheckpointError.GenesisCheckpointUnsupported
  else if negb (len (snap_accepted_transactions snapshot) =? sequence)
  then Err (CheckpointError.SnapshotSequenceMismatch sequence
              (len (snap_accepted_transactions snapshot)))
  else
    _ ← validate_snapshot_bounds snapshot;
    state ← map_err CheckpointError.InvalidSnapshot (from_snapshot snapshot);
    Ok (mk_Checkpoint (ca_genesis_id anchor) (ca_validation_context_id anchor) sequence
          (state_id state (ca_genesis_id anchor)) terminal_record_hash snapshot).

(** [Checkpoint::restore_state]. *)
Definition restore_state (self : Checkpoint) (anchor : ChainAnchor)
    : Result CheckpointError LedgerState :=
  if negb (bool_decide (ck_genesis_id self = ca_genesis_id anchor)) ||
     negb (bool_decide (ck_validation_context_id self = ca_validation_context_id anchor))
  then Err (CheckpointError.AnchorMismatch
              (mk_CheckpointAnchorMismatch (ck_genesis_id self) (ca_genesis_id anchor)
                 (ck_validation_context_id self) (ca_validation_context_id anchor)))
  else
    state ← map_err CheckpointError.InvalidSnapshot (from_snapshot (ck_snapshot self));
    let computed := state_id state (ca_genesis_id anchor) in
    if negb (bool_decide (computed = ck_state_id self))
    then Err (CheckpointError.StateIdMismatch (ck_state_id self) computed)
    else Ok state.

(** The bytes before the final hash. *)
Definition checkpoint_body (self : Checkpoint) (snapshot_bytes : list byte) : list byte :=
  CHECKPOINT_MAGIC ++ to_be_bytes 2 CHECKPOINT_FORMAT_VERSION ++
  to_be_bytes 2 SNAPSHOT_FORMAT_VERSION ++ arr (ck_genesis_id self) ++
  arr (ck_validation_context_id self) ++ to_be_bytes 8 (ck_sequence self) ++
  arr (ck_state_id self) ++ arr (ck_terminal_record_hash self) ++
  to_be_bytes 4 (len snapshot_bytes) ++ arr (hash_snapshot snapshot_bytes) ++ snapshot_bytes.

(** [Checkpoint::encode]; [None] is the panic of its [expect]. *)
Definition checkpoint_encode (self : Checkpoint) : option (list byte) :=
  match encode_snapshot (ck_snapshot self) with
  | Err _ => None
  | Ok snapshot_bytes =>
      let bytes := checkpoint_body self snapshot_bytes in
      Some (bytes ++ arr (hash_checkpoint bytes))
  end.

Section CheckpointDecoder.
#[local] Existing Instance checkpoint_read_error.

Definition read_sequence : M Reader CheckpointError Z :=
  sequence ← read_u64;
  if sequence =? 0 then lift (Err CheckpointError.GenesisCheckpointUnsupported) else mret sequence.

(** The length, the hash and the bytes of the snapshot. *)
Definition read_snapshot_bytes : M Reader CheckpointError (list byte) :=
  snapshot_length ← read_u32_at_most MAX_SNAPSHOT_BYTES
                      (fun actual => CheckpointError.SnapshotTooLarge actual MAX_SNAPSHOT_BYTES);
  encoded_snapshot_hash ← read_array 32;
  snapshot_bytes ← read_exact snapshot_length;
  if negb (bool_decide (encoded_snapshot_hash = hash_snapshot snapshot_bytes))
  then lift (Err CheckpointError.SnapshotHashMismatch)
  else mret snapshot_bytes.

(** The checks of [Checkpoint::decode] after the reader is exhausted, except the
    last one. *)
Definition build_checkpoint (genesis_id : GenesisId) (validation_context_id : ValidationContextId)
    (sequence : Z) (encoded_state_id : StateId) (terminal_record_hash : RecordHash)
    (snapshot_bytes : list byte) : Result CheckpointError Checkpoint :=
  snapshot ← decode_snapshot snapshot_bytes;
  if negb (len (snap_accepted_transactions snapshot) =? sequence)
  then Err (CheckpointError.SnapshotSequenceMismatch sequence
              (len (snap_accepted_transactions snapshot)))
  else
    state ← map_err CheckpointError.InvalidSnapshot (from_snapshot snapshot);
    let computed_state_id := state_id state genesis_id in
    if negb (bool_decide (computed_state_id = encoded_state_id))
    then Err (CheckpointError.StateIdMismatch encoded_state_id computed_state_id)
    else Ok (mk_Checkpoint genesis_id validation_context_id sequence encoded_state_id
               terminal_record_hash snapshot).

Definition decode_body : list byte -> Result CheckpointError Checkpoint :=
  run (
    _ ← read_magic CHECKPOINT_MAGIC CheckpointError.InvalidMagic;
    _ ← read_version CHECKPOINT_FORMAT_VERSION CheckpointError.UnsupportedFormatVersion;
    _ ← read_version SNAPSHOT_FORMAT_VERSION CheckpointError.UnsupportedSnapshotVersion;
    genesis_id ← read_array 32;
    validation_context_id ← read_array 32;
    sequence ← read_sequence;
    encoded_state_id ← read_array 32;
    terminal_record_hash ← read_array 32;
    snapshot_bytes ← read_snapshot_bytes;
    _ ← finish;
    lift (build_checkpoint genesis_id validation_context_id sequence encoded_state_id
            terminal_record_hash snapshot_bytes)).

End CheckpointDecoder.

(** [Checkpoint::decode]; the error [None] is a panic of the re-encoding. *)
Definition checkpoint_decode (bytes : list byte) : Result (option CheckpointError) Checkpoint :=
  if len bytes <? HEADER_BYTES + CHECKPOINT_HASH_BYTES
  then Err (Some (CheckpointError.UnexpectedEnd (len bytes)))
  else
    let split := Z.to_nat (len bytes - CHECKPOINT_HASH_BYTES) in
    let without_hash := take split bytes in
    let encoded_hash := drop split bytes in
    if negb (bool_decide (encoded_hash = arr (hash_checkpoint without_hash)))
    then Err (Some CheckpointError.CheckpointHashMismatch)
    else
      checkpoint ← map_err Some (decode_body without_hash);
      encoded ← ok_or (checkpoint_encode checkpoint) None;
      if negb (bool_decide (encoded = bytes)) then Err (Some CheckpointError.NonCanonicalEncoding)
      else Ok checkpoint.

End Checkpoints.
