(* ===== verification/CheckpointFacts.v ===== *)
(** * Facts about checkpoints

    The checkpoint codec is exact, never panics, and a checkpoint restores the
    state it was taken from. *)

From Stdlib Require Import Strings.Byte Strings.String.
From S2P Require Import Prelude Arrays Reader Sha256 Types Crypto Merkle Ledger LedgerFacts Snapshot.
From S2P Require Import RecordChain Checkpoint.

(** ** Snapshots *)

Record snapshot_bounded (snap : LedgerSnapshot) : Prop := mk_snapshot_bounded {
  bnd_assets : len (snap_assets snap) <= MAX_SNAPSHOT_ASSETS;
  bnd_commitments : len (snap_commitments snap) <= MAX_SNAPSHOT_IDENTIFIERS;
  bnd_nullifiers : len (snap_spent_nullifiers snap) <= MAX_SNAPSHOT_IDENTIFIERS;
  bnd_supply : len (snap_issued_supply snap) <= MAX_SNAPSHOT_ASSETS;
  bnd_transactions : len (snap_accepted_transactions snap) <= MAX_SNAPSHOT_IDENTIFIERS
}.

Lemma ensure_count_Ok actual maximum : ensure_count actual maximum = Ok tt <-> actual <= maximum.
Proof. unfold ensure_count. destruct (Z.ltb_spec maximum actual); split; done || lia. Qed.

Lemma validate_snapshot_bounds_Ok snap :
  validate_snapshot_bounds snap = Ok tt <-> snapshot_bounded snap.
Proof.
  unfold validate_snapshot_bounds. split.
  - intros Hv. inv_ok. destruct_units. split; by apply ensure_count_Ok.
  - intros [H1 H2 H3 H4 H5]. rewrite !(proj2 (ensure_count_Ok _ _)) by done. done.
Qed.

(** The bytes of a snapshot, without the error cases of the encoder. *)
Definition snapshot_bytes_of (snap : LedgerSnapshot) : list byte :=
  to_be_bytes 1 (snap_tree_depth snap) ++ counted snapshot_asset (snap_assets snap) ++
  counted arr (snap_commitments snap) ++ counted arr (snap_spent_nullifiers snap) ++
  counted snapshot_supply (snap_issued_supply snap) ++ counted arr (snap_accepted_transactions snap).

(** A snapshot that a checkpoint can hold. *)
Record snapshot_wf (snap : LedgerSnapshot) : Prop := mk_snapshot_wf {
  swf_canonical : snapshot_canonical snap;
  swf_amounts : snapshot_amounts_wf snap;
  swf_bounded : snapshot_bounded snap
}.

Lemma length_snapshot_asset a : asset_wf a -> len (snapshot_asset a) <= 50.
Proof.
  intros [Hl _]. unfold snapshot_asset. rewrite !length_app, length_arr, !length_to_be_bytes. lia.
Qed.

Lemma length_concat_bound {A} (enc : A -> list byte) (wf : A -> Prop) n xs :
  (forall x, wf x -> len (enc x) <= n) -> Forall wf xs -> len (concat (enc <$> xs)) <= n * len xs.
Proof.
  intros Hn. induction 1 as [|x xs Hx _ IH]; cbn; [lia|]. rewrite length_app. specialize (Hn x Hx). lia.
Qed.

Lemma length_counted {A} (enc : A -> list byte) xs :
  len (counted enc xs) = 4 + len (concat (enc <$> xs)).
Proof. unfold counted. rewrite length_app, length_to_be_bytes. lia. Qed.

(** The limit on the encoded snapshot follows from the limits on its parts. *)
Lemma length_snapshot_bytes snap :
  snapshot_canonical snap -> snapshot_bounded snap -> len (snapshot_bytes_of snap) <= MAX_SNAPSHOT_BYTES.
Proof.
  intros Hc [H1 H2 H3 H4 H5].
  pose proof (length_concat_bound snapshot_asset asset_wf 50 _ length_snapshot_asset
    (can_assets_wf _ Hc)) as L1.
  assert (Harr : forall xs : list Id32, len (concat (arr <$> xs)) <= 32 * len xs).
  { intros xs. apply (length_concat_bound _ (fun _ => True)); [|by apply Forall_true].
    intros x _. by rewrite length_arr. }
  pose proof (Harr (snap_commitments snap)). pose proof (Harr (snap_spent_nullifiers snap)).
  pose proof (Harr (snap_accepted_transactions snap)).
  assert (len (concat (snapshot_supply <$> snap_issued_supply snap)) <= 48 * len (snap_issued_supply snap)).
  { apply (length_concat_bound _ (fun _ => True)); [|by apply Forall_true].
    intros x _. unfold snapshot_supply. by rewrite length_app, length_arr, length_to_be_bytes. }
  unfold snapshot_bytes_of. rewrite !length_app, !Nat2Z.inj_add, length_to_be_bytes, !length_counted.
  unfold MAX_SNAPSHOT_ASSETS, MAX_SNAPSHOT_IDENTIFIERS, MAX_COMMITMENTS, MAX_SNAPSHOT_BYTES in *. lia.
Qed.

Lemma snapshot_count_Ok n : 0 <= n <= U32_MAX -> snapshot_count n = Ok (to_be_bytes 4 n).
Proof. intros Hn. unfold snapshot_count. by rewrite ok_or_try_from. Qed.

Lemma limit_snapshot_Ok bs bs' :
  limit_snapshot bs = Ok bs' <-> bs' = bs /\ len bs <= MAX_SNAPSHOT_BYTES.
Proof.
  unfold limit_snapshot. destruct (Z.ltb_spec MAX_SNAPSHOT_BYTES (len bs)); split; naive_solver lia.
Qed.

Lemma encode_snapshot_Ok snap bs :
  snapshot_canonical snap -> encode_snapshot snap = Ok bs <-> snapshot_bounded snap /\ bs = snapshot_bytes_of snap.
Proof.
  intros Hc. split.
  - unfold encode_snapshot. intros He. inv_ok. destruct_units.
    apply validate_snapshot_bounds_Ok in Hx as Hb. split; [done|]. destruct Hb as [H1 H2 H3 H4 H5].
    unfold MAX_SNAPSHOT_ASSETS, MAX_SNAPSHOT_IDENTIFIERS, MAX_COMMITMENTS in *.
    rewrite snapshot_count_Ok in Hx0, Hx1, Hx2, Hx3, Hx4 by lia. inv_ok.
    apply limit_snapshot_Ok in He as [-> _]. unfold snapshot_bytes_of, counted. by rewrite <-!app_assoc.
  - intros [Hb ->]. pose proof (length_snapshot_bytes snap Hc Hb) as Hl. unfold encode_snapshot.
    rewrite (proj2 (validate_snapshot_bounds_Ok snap) Hb). destruct Hb as [H1 H2 H3 H4 H5].
    unfold MAX_SNAPSHOT_ASSETS, MAX_SNAPSHOT_IDENTIFIERS, MAX_COMMITMENTS in *.
    rewrite !snapshot_count_Ok by lia. cbn [mbind result_bind]. apply limit_snapshot_Ok.
    unfold snapshot_bytes_of, counted in *. by rewrite <-!app_assoc in *.
Qed.

(** *** The decoder *)

Lemma decode_asset_kind_Ok tag kind : decode_asset_kind tag = Ok kind <-> tag = encode_asset_kind kind.
Proof.
  split.
  - unfold decode_asset_kind. intros Hd. destruct tag as [|[[]|[]|]|]; by simplify_eq.
  - by intros ->; destruct kind.
Qed.

Section SnapshotGrammar.
#[local] Existing Instance snapshot_read_error.

Lemma parse_spec_read_ticker index :
  parse_spec (read_ticker index)
    (fun t bs => len t <= MAX_TICKER_BYTES /\ valid_utf8 t = true /\ bs = to_be_bytes 1 (len t) ++ t).
Proof.
  eapply parse_spec_proper; cycle 1.
  { unfold read_ticker. apply parse_spec_bind; [apply parse_spec_read_u8|]. intros n.
    instantiate (1 := fun n t bs => n <= MAX_TICKER_BYTES /\ valid_utf8 t = true /\ bs = t /\ len t = n).
    cbv beta. destruct (Z.ltb_spec MAX_TICKER_BYTES n).
    { eapply parse_spec_proper; [|apply parse_spec_lift]. intros x bs. cbn. split; [by intros []|lia]. }
    eapply parse_spec_proper; cycle 1.
    { apply parse_spec_bind; [apply parse_spec_read_exact|]. intros t.
      instantiate (1 := fun t x bs => valid_utf8 t = true /\ x = t /\ bs = []). cbv beta.
      destruct (valid_utf8 t); cbn [negb].
      - eapply parse_spec_proper; [|apply parse_spec_ret]. naive_solver.
      - eapply parse_spec_proper; [|apply parse_spec_lift]. naive_solver. }
    intros t bs. cbv beta. split.
    - intros (t' & b1 & b2 & [-> Hl] & (Hv & -> & ->) & ->). by rewrite app_nil_r.
    - intros (_ & Hv & -> & Hl). exists t, t, []. by rewrite app_nil_r. }
  intros t bs. cbv beta. unfold be_grammar. split.
  - intros (n & b1 & b2 & [Hn ->] & (Hm & Hv & -> & <-) & ->). done.
  - intros (Hl & Hv & ->). unfold MAX_TICKER_BYTES in *.
    exists (len t), (to_be_bytes 1 (len t)), t. split_and!; (done || cbn; lia).
Qed.

Lemma parse_spec_read_asset index :
  parse_spec (read_asset index) (fun a bs => asset_wf a /\ bs = snapshot_asset a).
Proof.
  eapply parse_spec_proper; cycle 1.
  { unfold read_asset. do 3 (apply parse_spec_bind; [eauto with grammar|intros ?]).
    apply parse_spec_bind; [apply parse_spec_read_ticker|]. intros t. apply parse_spec_lift. }
  intros a bs. cbv beta. unfold be_grammar. split.
  - intros H'. grammar_inv. subst. rewrite map_err_Ok, decode_asset_kind_Ok, asset_definition_new_Ok in *.
    destruct_and?. subst. split; [done|]. unfold snapshot_asset. cbn. by rewrite app_nil_r.
  - intros [Hw ->]. destruct a as [i t k]. unfold snapshot_asset. cbn in *.
    destruct Hw as [Hl Hu]. cbn in Hl, Hu.
    rewrite <-(app_nil_r (to_be_bytes 1 (len t) ++ t)).
    grammar_split.
    refine (ex_intro _ _ (ex_intro _ _ (ex_intro _ _ (conj (conj _ eq_refl) (conj _ eq_refl)))));
      [by destruct k|].
    grammar_lift ltac:(by apply decode_asset_kind_Ok).
    refine (ex_intro _ _ (ex_intro _ _ (ex_intro _ _ (conj _ (conj _ eq_refl))))).
    + split_and!; [exact (proj2 Hl)|by apply valid_utf8_ticker|reflexivity].
    + split; [|done]. apply map_err_Ok, asset_definition_new_Ok. done.
Qed.

Lemma parse_spec_read_count maximum :
  parse_spec (read_count maximum) (fun n bs => n <= maximum /\ be_grammar 4 n bs).
Proof. apply parse_spec_read_u32_at_most. Qed.

Lemma parse_spec_read_snapshot_assets :
  parse_spec read_snapshot_assets
    (counted_grammar (fun n => n <= MAX_SNAPSHOT_ASSETS) asset_wf snapshot_asset).
Proof.
  apply parse_spec_counted_items; [done|apply parse_spec_read_count|].
  intros n. apply parse_spec_read_indexed, parse_spec_read_asset.
Qed.

Lemma parse_spec_read_snapshot_identifiers :
  parse_spec read_snapshot_identifiers
    (counted_grammar (fun n => n <= MAX_SNAPSHOT_IDENTIFIERS) (fun _ => True) arr).
Proof.
  apply (parse_spec_counted_items MAX_SNAPSHOT_IDENTIFIERS _ (fun n => read_n n (read_array 32)));
    [done|apply parse_spec_read_count|].
  intros n. apply parse_spec_read_n. eapply parse_spec_proper; [|apply parse_spec_read_array].
  naive_solver.
Qed.

Lemma parse_spec_read_supply_entry :
  parse_spec read_supply_entry (fun p bs => amount_wf p.2 /\ bs = snapshot_supply p).
Proof.
  eapply parse_spec_proper; [|unfold read_supply_entry; grammar_of].
  intros [i [u]] bs. cbv beta. unfold be_grammar, snapshot_supply. split.
  - intros H'. grammar_inv. rewrite ok_or_Ok in *. simplify_eq.
    match goal with Ha : amount_new _ = Some _ |- _ =>
      apply amount_new_Some in Ha as [Ha <-]; [|unfold in_range; cbn in *; lia] end.
    split; [done|]. by rewrite !app_nil_r.
  - cbn. intros [Hw ->]. rewrite <-(app_nil_r (to_be_bytes 16 u)).
    pose proof Hw as [Hu1 Hu2]. cbn in Hu1, Hu2.
    grammar_split.
    refine (ex_intro _ _ (ex_intro _ _ (ex_intro _ _ (conj (conj _ eq_refl) (conj _ eq_refl)))));
      [cbn; lia|].
    grammar_lift ltac:(apply ok_or_Ok; apply amount_new_Some; [unfold in_range; lia|done]). done.
Qed.

Lemma parse_spec_read_snapshot_supply :
  parse_spec read_snapshot_supply
    (counted_grammar (fun n => n <= MAX_SNAPSHOT_ASSETS) (fun p => amount_wf p.2) snapshot_supply).
Proof.
  apply (parse_spec_counted_items MAX_SNAPSHOT_ASSETS _ (fun n => read_n n read_supply_entry));
    [done|apply parse_spec_read_count|].
  intros n. apply parse_spec_read_n, parse_spec_read_supply_entry.
Qed.

#[local] Hint Extern 0 (parse_spec read_snapshot_assets _) =>
  eapply parse_spec_read_snapshot_assets : grammar.
#[local] Hint Extern 0 (parse_spec read_snapshot_identifiers _) =>
  eapply parse_spec_read_snapshot_identifiers : grammar.
#[local] Hint Extern 0 (parse_spec read_snapshot_supply _) =>
  eapply parse_spec_read_snapshot_supply : grammar.

Lemma decode_snapshot_Ok bs snap :
  len bs <= ISIZE_MAX -> decode_snapshot bs = Ok snap <-> snapshot_wf snap /\ bs = snapshot_bytes_of snap.
Proof.
  intros Hl. unfold decode_snapshot. erewrite run_iff; [|grammar_of|done].
  cbv beta. unfold be_grammar, counted_grammar. split.
  - intros H'. grammar_inv. subst. rewrite map_err_Ok in *.
    match goal with Hf : from_canonical_parts ?d ?a ?c ?n ?s ?t = Ok _ |- _ =>
      apply (from_canonical_parts_Ok (mk_LedgerSnapshot d a c n s t)) in Hf as [-> Hc] end.
    split; [|unfold snapshot_bytes_of; cbn; by rewrite app_nil_r].
    split; [done|done|by split].
  - intros [[Hc Ha [H1 H2 H3 H4 H5]] ->]. destruct snap as [d a c n s t]. cbn in *.
    pose proof (can_depth _ Hc) as Hd. cbn in Hd. unfold MIN_DEPTH, MAX_DEPTH in Hd.
    unfold snapshot_bytes_of. cbn.
    rewrite <-(app_nil_r (counted arr t)).
    refine (ex_intro _ _ (ex_intro _ _ (ex_intro _ _ (conj (conj _ eq_refl) (conj _ eq_refl)))));
      [cbn; lia|].
    do 5 (refine (ex_intro _ _ (ex_intro _ _ (ex_intro _ _ (conj _ (conj _ eq_refl)))));
      [refine (conj _ (conj _ eq_refl)); first [done|exact (can_assets_wf _ Hc)|exact Ha|by apply Forall_true]|]).
    split; [|done]. apply map_err_Ok.
    by apply (from_canonical_parts_Ok (mk_LedgerSnapshot d a c n s t)).
Qed.

End SnapshotGrammar.

(** ** Checkpoints *)

Section Facts.
Context `{Sha2}.

Record checkpoint_wf (c : Checkpoint) : Prop := mk_checkpoint_wf {
  ckw_snapshot : snapshot_wf (ck_snapshot c);
  ckw_sequence : ck_sequence c = len (snap_accepted_transactions (ck_snapshot c));
  ckw_positive : ck_sequence c <> 0;
  ckw_state : ck_state_id c = state_id (restored (ck_snapshot c)) (ck_genesis_id c)
}.

(** The bytes of a checkpoint before and with its final hash. *)
Definition body_of (c : Checkpoint) : list byte := checkpoint_body c (snapshot_bytes_of (ck_snapshot c)).
Definition checkpoint_bytes (c : Checkpoint) : list byte := body_of c ++ arr (hash_checkpoint (body_of c)).

Lemma length_body_of c : len (body_of c) = HEADER_BYTES + len (snapshot_bytes_of (ck_snapshot c)).
Proof.
  unfold body_of, checkpoint_body. generalize (snapshot_bytes_of (ck_snapshot c)). intros s.
  rewrite !length_app, !length_arr, !length_to_be_bytes. unfold HEADER_BYTES. cbn. lia.
Qed.

Lemma checkpoint_encode_wf c : checkpoint_wf c -> checkpoint_encode c = Some (checkpoint_bytes c).
Proof.
  intros [[Hc _ Hb] _ _ _]. unfold checkpoint_encode.
  by rewrite (proj2 (encode_snapshot_Ok _ (snapshot_bytes_of (ck_snapshot c)) Hc)).
Qed.

Lemma checkpoint_from_snapshot_Ok anchor sequence hash snap c :
  snapshot_amounts_wf snap ->
  checkpoint_from_snapshot anchor sequence hash snap = Ok c <->
  checkpoint_wf c /\ ck_genesis_id c = ca_genesis_id anchor /\
  ck_validation_context_id c = ca_validation_context_id anchor /\ ck_sequence c = sequence /\
  ck_terminal_record_hash c = hash /\ ck_snapshot c = snap.
Proof.
  intros Ha. unfold checkpoint_from_snapshot. split.
  - intros Hf. inv_ok. zbool. destruct_units.
    apply validate_snapshot_bounds_Ok in Hx. apply from_snapshot_Ok in Hx0 as [Hc ->].
    split; [|done]. split; cbn; [by split|done..].
  - intros ([[Hc _ Hb] Hs Hp Hst] & Hg & Hv & <- & <- & <-).
    rewrite (proj2 (Z.eqb_neq _ _) Hp), <-Hs, Z.eqb_refl. cbn [negb].
    rewrite (proj2 (validate_snapshot_bounds_Ok _) Hb).
    rewrite (proj2 (from_snapshot_Ok _ _) (conj Hc eq_refl)). cbn [map_err mbind result_bind].
    rewrite <-Hg, <-Hv, <-Hst. by destruct c.
Qed.

Lemma restore_state_Ok c anchor s :
  restore_state c anchor = Ok s <->
  ck_genesis_id c = ca_genesis_id anchor /\
  ck_validation_context_id c = ca_validation_context_id anchor /\
  snapshot_canonical (ck_snapshot c) /\ s = restored (ck_snapshot c) /\
  ck_state_id c = state_id s (ca_genesis_id anchor).
Proof.
  unfold restore_state. split.
  - intros Hr. inv_ok. zbool. apply from_snapshot_Ok in Hx as [Hc ->]. naive_solver.
  - intros (Hg & Hv & Hc & -> & Hs). rewrite !bool_decide_eq_true_2 by done. cbn [negb orb].
    rewrite (proj2 (from_snapshot_Ok _ _) (conj Hc eq_refl)). cbn [map_err mbind result_bind].
    by rewrite bool_decide_eq_true_2 by done.
Qed.

(** The checkpoint of a ledger restores it. *)
Lemma from_snapshot_restores anchor sequence hash s snap c :
  ledger_inv s -> snapshot s = Some snap ->
  checkpoint_from_snapshot anchor sequence hash snap = Ok c ->
  checkpoint_wf c /\ ck_genesis_id c = ca_genesis_id anchor /\
  ck_validation_context_id c = ca_validation_context_id anchor /\ ck_sequence c = sequence /\
  ck_terminal_record_hash c = hash /\ ck_snapshot c = snap /\ restore_state c anchor = Ok s.
Proof.
  intros Hinv [-> Hcan]%snapshot_parts Hc.
  assert (Hr : restored (parts_of s) = s) by by apply restored_parts.
  assert (Ha : snapshot_amounts_wf (parts_of s)).
  { unfold snapshot_amounts_wf, parts_of. cbn. by apply Forall_amounts. }
  apply checkpoint_from_snapshot_Ok in Hc as (Hw & Hg & Hv & Hq & Hh & Hs); [|done].
  split_and!; try done. apply restore_state_Ok. rewrite Hs, <-Hg, <-Hv. split_and!; [done..|congruence|].
  rewrite (ckw_state _ Hw), Hs. congruence.
Qed.

Lemma build_checkpoint_Ok genesis context sequence state hash bs c :
  len bs <= ISIZE_MAX ->
  build_checkpoint genesis context sequence state hash bs = Ok c /\ sequence <> 0 <->
  checkpoint_wf c /\ c = mk_Checkpoint genesis context sequence state hash (ck_snapshot c) /\
  bs = snapshot_bytes_of (ck_snapshot c).
Proof.
  intros Hl. unfold build_checkpoint. split.
  - intros [Hb Hs]. inv_ok. zbool. apply decode_snapshot_Ok in Hx as [Hw ->]; [|done].
    apply from_snapshot_Ok in Hx0 as [Hc ->]. cbn. split; [|done]. by split; cbn.
  - destruct c as [g v q st h snap]. cbn [ck_snapshot].
    intros ([Hw Hs Hp Hst] & [= <- <- <- <- <-] & ->).
    cbn [ck_genesis_id ck_sequence ck_state_id ck_snapshot] in *. split; [|done].
    rewrite (proj2 (decode_snapshot_Ok _ _ Hl) (conj Hw eq_refl)). cbn [mbind result_bind].
    rewrite <-Hs, Z.eqb_refl. cbn [negb].
    rewrite (proj2 (from_snapshot_Ok _ _) (conj (swf_canonical _ Hw) eq_refl)).
    cbn [map_err mbind result_bind]. by rewrite Hst, bool_decide_eq_true_2 by done.
Qed.

Section CheckpointGrammar.
#[local] Existing Instance checkpoint_read_error.

Lemma parse_spec_read_sequence :
  parse_spec read_sequence (fun n bs => n <> 0 /\ be_grammar 8 n bs).
Proof.
  eapply parse_spec_proper; cycle 1.
  { unfold read_sequence. apply parse_spec_bind; [apply parse_spec_read_u64|]. intros n.
    instantiate (1 := fun n x bs => n <> 0 /\ x = n /\ bs = []). cbv beta.
    destruct (Z.eqb_spec n 0).
    - eapply parse_spec_proper; [|apply parse_spec_lift]. naive_solver.
    - eapply parse_spec_proper; [|apply parse_spec_ret]. naive_solver. }
  intros x bs. cbv beta. split.
  - intros (n & b1 & b2 & Hb & (Hn & -> & ->) & ->). by rewrite app_nil_r.
  - intros [Hn Hb]. exists x, bs, []. by rewrite app_nil_r.
Qed.

Lemma parse_spec_read_snapshot_bytes :
  parse_spec read_snapshot_bytes
    (fun s bs => len s <= MAX_SNAPSHOT_BYTES /\
       bs = to_be_bytes 4 (len s) ++ arr (hash_snapshot s) ++ s).
Proof.
  eapply parse_spec_proper; cycle 1.
  { unfold read_snapshot_bytes. apply parse_spec_bind; [apply parse_spec_read_u32_at_most|]. intros n.
    apply parse_spec_bind; [apply parse_spec_read_array|]. intros h.
    apply parse_spec_bind; [apply parse_spec_read_exact|]. intros s.
    instantiate (1 := fun s x bs => h = hash_snapshot s /\ x = s /\ bs = []). cbv beta.
    case_bool_decide; cbn [negb].
    - eapply parse_spec_proper; [|apply parse_spec_ret]. naive_solver.
    - eapply parse_spec_proper; [|apply parse_spec_lift]. naive_solver. }
  intros s bs. cbv beta. unfold be_grammar. split.
  - intros H'. grammar_inv. subst. by rewrite app_nil_r.
  - intros [Hl ->].
    replace (arr (hash_snapshot s) ++ s) with (arr (hash_snapshot s) ++ s ++ []) by by rewrite app_nil_r.
    refine (ex_intro _ (len s) (ex_intro _ _ (ex_intro _ _ (conj _ (conj _ eq_refl))))).
    { split; [done|]. split; [|done]. unfold MAX_SNAPSHOT_BYTES in Hl. cbn. lia. }
    grammar_split. grammar_split. done.
Qed.

#[local] Hint Extern 0 (parse_spec read_sequence _) => eapply parse_spec_read_sequence : grammar.
#[local] Hint Extern 0 (parse_spec read_snapshot_bytes _) =>
  eapply parse_spec_read_snapshot_bytes : grammar.

Lemma decode_body_Ok bs c :
  len bs <= ISIZE_MAX -> decode_body bs = Ok c <-> checkpoint_wf c /\ bs = body_of c.
Proof.
  intros Hl. unfold decode_body. erewrite run_iff; [|grammar_of|done].
  cbv beta. unfold be_grammar. assert (MAX_SNAPSHOT_BYTES <= ISIZE_MAX) as Hmax by done. split.
  - intros H'. grammar_inv. subst.
    match goal with Hb : build_checkpoint _ _ _ _ _ ?s = Ok _, Hn : ?q <> 0, Hm : len ?s <= _ |- _ =>
      assert (Hs : len s <= ISIZE_MAX) by lia;
      pose proof (proj1 (build_checkpoint_Ok _ _ _ _ _ s _ Hs) (conj Hb Hn)) as (Hw & Hc & ->)
    end.
    split; [done|]. rewrite Hc. unfold body_of, checkpoint_body. cbn. by rewrite app_nil_r.
  - intros [Hw ->]. pose proof Hw as [[Hc _ Hb] Hs Hp _].
    pose proof (length_snapshot_bytes _ Hc Hb) as Hlen. pose proof (bnd_transactions _ Hb) as Ht.
    unfold MAX_SNAPSHOT_IDENTIFIERS, MAX_COMMITMENTS in Ht. clear Hl.
    destruct c as [g v q st h snap]. cbn [ck_snapshot ck_sequence] in *.
    unfold body_of, checkpoint_body.
    cbn [ck_snapshot ck_genesis_id ck_validation_context_id ck_sequence ck_state_id ck_terminal_record_hash].
    pose proof (fun hl => proj2 (build_checkpoint_Ok g v q st h (snapshot_bytes_of snap)
      (mk_Checkpoint g v q st h snap) hl) (conj Hw (conj eq_refl eq_refl))) as Hbuild.
    revert Hlen Hbuild. generalize (snapshot_bytes_of snap). intros s Hlen Hbuild.
    destruct (Hbuild ltac:(lia)) as [Hbc _].
    rewrite <-(app_nil_r (to_be_bytes 4 (len s) ++ arr (hash_snapshot s) ++ s)).
    do 3 (refine (ex_intro _ tt _); do 2 eexists; split; [reflexivity|]; split; [|reflexivity]).
    do 2 grammar_split.
    refine (ex_intro _ q (ex_intro _ _ (ex_intro _ _ (conj (conj Hp (conj _ eq_refl)) (conj _ eq_refl)))));
      [cbn; lia|].
    do 2 grammar_split.
    refine (ex_intro _ s (ex_intro _ _ (ex_intro _ _ (conj (conj Hlen eq_refl) (conj _ eq_refl))))). done.
Qed.

End CheckpointGrammar.

Lemma split_hash (body hash : list byte) n :
  len hash = n ->
  let split := Z.to_nat (len (body ++ hash) - n) in
  take split (body ++ hash) = body /\ drop split (body ++ hash) = hash.
Proof.
  intros <- split. subst split. rewrite length_app.
  replace (Z.to_nat _) with (length body) by lia. by rewrite take_app_length, drop_app_length.
Qed.

(** What [checkpoint_decode] returns; the re-encoding it ends with neither panics
    nor rejects anything. *)
Lemma checkpoint_decode_cases bs :
  len bs <= ISIZE_MAX ->
  match checkpoint_decode bs with
  | Ok c => checkpoint_wf c /\ bs = checkpoint_bytes c
  | Err e => (forall c, checkpoint_wf c -> bs <> checkpoint_bytes c) /\ is_Some e
  end.
Proof.
  intros Hl. unfold checkpoint_decode.
  assert (Hmin : forall c, HEADER_BYTES + CHECKPOINT_HASH_BYTES <= len (checkpoint_bytes c)).
  { intros c. unfold checkpoint_bytes. rewrite length_app, Nat2Z.inj_add, length_body_of, length_arr.
    unfold CHECKPOINT_HASH_BYTES. lia. }
  destruct (Z.ltb_spec (len bs) (HEADER_BYTES + CHECKPOINT_HASH_BYTES)) as [Hs|Hs].
  { split; [|by eexists]. intros c _ ->. specialize (Hmin c). lia. }
  cbv zeta. set (split := Z.to_nat (len bs - CHECKPOINT_HASH_BYTES)).
  assert (Hsplit : forall c, bs = checkpoint_bytes c ->
    take split bs = body_of c /\ drop split bs = arr (hash_checkpoint (body_of c))).
  { intros c ->. apply split_hash. by rewrite length_arr. }
  case_bool_decide as Hh; cbn [negb].
  2:{ split; [|by eexists]. intros c _ Hb. destruct (Hsplit c Hb) as [Ht Hd]. by rewrite Ht, Hd in Hh. }
  assert (Hlt : len (take split bs) <= ISIZE_MAX) by (rewrite length_take; lia).
  destruct (decode_body (take split bs)) as [c|e] eqn:Hd; cbn [map_err mbind result_bind].
  - apply decode_body_Ok in Hd as [Hw Hb]; [|done]. rewrite checkpoint_encode_wf by done.
    cbn [ok_or mbind result_bind]. assert (checkpoint_bytes c = bs) as Heq.
    { unfold checkpoint_bytes. rewrite <-Hb, <-Hh. apply take_drop. }
    by rewrite bool_decide_eq_true_2.
  - split; [|by eexists]. intros c Hw Hb. destruct (Hsplit c Hb) as [Ht _].
    by rewrite (proj2 (decode_body_Ok _ c Hlt)) in Hd.
Qed.

Lemma checkpoint_bytes_inj c1 c2 :
  checkpoint_wf c1 -> checkpoint_wf c2 -> checkpoint_bytes c1 = checkpoint_bytes c2 -> c1 = c2.
Proof.
  intros H1 H2 [Hb _]%app_inj_2; [|by rewrite !length_arr].
  assert (Hd : forall c, checkpoint_wf c -> decode_body (body_of c) = Ok c).
  { intros c Hw. apply decode_body_Ok; [|done]. rewrite length_body_of.
    pose proof (length_snapshot_bytes _ (swf_canonical _ (ckw_snapshot _ Hw))
      (swf_bounded _ (ckw_snapshot _ Hw))) as Hl.
    unfold MAX_SNAPSHOT_BYTES, HEADER_BYTES in *. lia. }
  pose proof (Hd c1 H1) as D1. rewrite Hb, (Hd c2 H2) in D1. by injection D1.
Qed.

Lemma checkpoint_decode_Ok bs c :
  len bs <= ISIZE_MAX -> checkpoint_decode bs = Ok c <-> checkpoint_wf c /\ bs = checkpoint_bytes c.
Proof.
  intros Hl. pose proof (checkpoint_decode_cases bs Hl) as Hc. split.
  - intros Hd. by rewrite Hd in Hc.
  - intros [Hw Hb]. destruct (checkpoint_decode bs) as [c'|e].
    + f_equal. destruct Hc as [Hw' Hb']. apply checkpoint_bytes_inj; [done..|congruence].
    + by destruct Hc as [Hn _]; destruct (Hn c Hw).
Qed.

End Facts.

(** ** Properties *)

(** the checkpoint codec is exact and total.  A byte string decodes to a
    checkpoint if and only if the checkpoint is well formed (a canonical bounded
    snapshot with as many accepted transactions as its sequence number, and the
    state identity of that snapshot) and the string is its encoding; encoding a
    well-formed checkpoint never hits its [expect], so neither does decoding. *)
Theorem checkpoint_codec_exact `{Sha2} bs c :
  len bs <= ISIZE_MAX ->
  (checkpoint_decode bs = Ok c <-> checkpoint_wf c /\ checkpoint_encode c = Some bs) /\
  checkpoint_decode bs <> Err None /\
  (checkpoint_wf c -> is_Some (checkpoint_encode c)).
Proof.
  intros Hl. split_and!.
  - rewrite checkpoint_decode_Ok by done. split; intros [Hw Hb]; (split; [done|]).
    + rewrite Hb. by apply checkpoint_encode_wf.
    + rewrite checkpoint_encode_wf in Hb by done. congruence.
  - intros Hd. pose proof (checkpoint_decode_cases bs Hl) as Hc. rewrite Hd in Hc.
    by destruct Hc as [_ [? [=]]].
  - intros Hw. rewrite checkpoint_encode_wf by done. by eexists.
Qed.

(** a checkpoint restores the state it was taken from.  A checkpoint of a
    ledger in its invariant encodes, decodes back to itself and restores exactly
    that ledger under the anchor it was taken with, and nothing under an anchor
    with another genesis or validation context. *)
Theorem checkpoint_restores `{Sha2} anchor sequence hash s snap c bs :
  ledger_inv s -> snapshot s = Some snap ->
  checkpoint_from_snapshot anchor sequence hash snap = Ok c ->
  checkpoint_encode c = Some bs -> len bs <= ISIZE_MAX ->
  checkpoint_decode bs = Ok c /\ restore_state c anchor = Ok s /\
  (forall other, ca_genesis_id other <> ca_genesis_id anchor \/
     ca_validation_context_id other <> ca_validation_context_id anchor ->
     exists m, restore_state c other = Err (CheckpointError.AnchorMismatch m)).
Proof.
  intros Hinv Hsnap Hc He Hl.
  destruct (from_snapshot_restores _ _ _ _ _ _ Hinv Hsnap Hc) as (Hw & Hg & Hv & _ & _ & _ & Hr).
  split_and!; [|done|].
  - apply checkpoint_decode_Ok; [done|]. split; [done|].
    rewrite checkpoint_encode_wf in He by done. congruence.
  - intros other Ho. unfold restore_state. rewrite Hg, Hv.
    destruct (bool_decide (ca_genesis_id anchor = _)) eqn:H1;
      destruct (bool_decide (ca_validation_context_id anchor = _)) eqn:H2; cbn [negb orb]; eauto.
    zbool. destruct Ho; congruence.
Qed.

(** ** Witnesses *)

Definition sample_anchor : ChainAnchor :=
  mk_ChainAnchor (id_of x01) (id_of x02) (id_of x03) (id_of x04) (id_of x05).

Definition sample_checkpoint `{Sha2} : Checkpoint :=
  mk_Checkpoint (id_of x01) (id_of x02) 2 (state_id (restored sample_snapshot) (id_of x01)) (id_of x0d)
    sample_snapshot.

Lemma sample_snapshot_wf : snapshot_wf sample_snapshot.
Proof.
  split.
  - split; try by_eval.
    + repeat constructor; by_eval.
    + apply NoDup_cons; split; [|apply NoDup_singleton].
      intros He%list_elem_of_singleton. by discriminate (f_equal arr He).
    + repeat constructor.
  - repeat constructor; by_eval.
  - split; by_eval.
Qed.

Lemma checkpoint_codec_exact_witness :
  let hash := toy_sha2 in checkpoint_decode (checkpoint_bytes sample_checkpoint) = Ok sample_checkpoint.
Proof.
  intros hash. assert (Hw : checkpoint_wf sample_checkpoint).
  { split; [exact sample_snapshot_wf|done|done|reflexivity]. }
  refine (proj2 (proj1 (checkpoint_codec_exact (checkpoint_bytes sample_checkpoint) sample_checkpoint _)) _).
  - by_eval.
  - split; [exact Hw|]. exact (checkpoint_encode_wf sample_checkpoint Hw).
Defined.

Lemma checkpoint_restores_witness :
  let hash := toy_sha2 in restore_state sample_checkpoint sample_anchor = Ok (restored sample_snapshot).
Proof.
  intros hash. assert (Hw : checkpoint_wf sample_checkpoint).
  { split; [exact sample_snapshot_wf|done|done|reflexivity]. }
  pose proof sample_snapshot_wf as [Hc Ha _].
  refine (proj1 (proj2 (checkpoint_restores sample_anchor 2 (id_of x0d) (restored sample_snapshot)
    sample_snapshot sample_checkpoint (checkpoint_bytes sample_checkpoint) _ _ _ _ _))).
  - exact (restored_inv _ Hc Ha).
  - apply snapshot_parts. rewrite parts_restored by assumption. split; [reflexivity|exact Hc].
  - apply checkpoint_from_snapshot_Ok; [exact Ha|]. split; [exact Hw|]. split_and!; reflexivity.
  - exact (checkpoint_encode_wf sample_checkpoint Hw).
  - by_eval.
Defined.
