(* ===== verification/CheckpointStore.v ===== *)
(** * The checkpoint directory ([noxis-storage/src/checkpoint_store.rs])

    Publication of a checkpoint under a name derived from it, without overwriting
    anything, and discovery of the checkpoints in a directory.  The directory is a
    map from file names to entries; every call that can fail, or be overtaken by
    another process, is a case of the model. *)

From Stdlib Require Import Strings.Byte Strings.String.
From S2P Require Import Prelude Arrays Reader Sha256 Types Crypto Merkle Ledger Snapshot RecordChain.
From S2P Require Import Checkpoint.

Definition MAX_DISCOVERED_CHECKPOINTS : Z := 1024.

(** ** File names *)

Abbreviation FileName := (list byte).

(** [{value:0width$}] for a value of at most [width] digits. *)
Fixpoint decimal_fixed (width : nat) (value : Z) : list byte :=
  match width with
  | O => []
  | S width => decimal_fixed width (value / 10) ++ [byte_of_Z (48 + value mod 10)]
  end.

(** [{value}]: the same without leading zeros. *)
Fixpoint trim_zeros (digits : list byte) : list byte :=
  match digits with
  | x30 :: ((_ :: _) as rest) => trim_zeros rest
  | _ => digits
  end.
Definition decimal (value : Z) : list byte := trim_zeros (decimal_fixed 20 value).

Definition hex_digit (value : Z) : byte := byte_of_Z (if value <? 10 then 48 + value else 87 + value).

Definition encode_hex (bytes : list byte) : list byte :=
  concat ((fun b => [hex_digit (Z_of_byte b / 16); hex_digit (Z_of_byte b mod 16)]) <$> bytes).

(** [CheckpointStore::final_path] and [temporary_path], relative to the directory. *)
Definition final_name (checkpoint : Checkpoint) : FileName :=
  bytes_of_string "checkpoint-" ++ decimal_fixed 20 (ck_sequence checkpoint) ++ bytes_of_string "-" ++
  encode_hex (arr (ck_terminal_record_hash checkpoint)) ++ bytes_of_string ".nxcp".

Definition temporary_name (process_id sequence : Z) : FileName :=
  bytes_of_string ".checkpoint-" ++ decimal process_id ++ bytes_of_string "-" ++ decimal sequence ++
  bytes_of_string ".tmp".

Definition strip_suffix (suffix l : list byte) : option (list byte) :=
  let keep := (length l - length suffix)%nat in
  if bool_decide (drop keep l = suffix) then Some (take keep l) else None.

Definition strip_prefix (prefix l : list byte) : option (list byte) :=
  if bool_decide (take (length prefix) l = prefix) then Some (drop (length prefix) l) else None.

(** [str::rsplit_once] at a one-byte pattern. *)
Fixpoint rsplit_once (separator : byte) (l : list byte) : option (list byte * list byte) :=
  match l with
  | [] => None
  | b :: l =>
      match rsplit_once separator l with
      | Some (before, after) => Some (b :: before, after)
      | None => if bool_decide (b = separator) then Some ([], l) else None
      end
  end.

Definition is_ascii_digit : byte -> bool := byte_between 48 57.
Definition is_ascii_hexdigit (b : byte) : bool :=
  is_ascii_digit b || byte_between 97 102 b || byte_between 65 70 b.

Definition is_candidate_filename (name : FileName) : bool :=
  if negb (valid_utf8 name) then false
  else match strip_suffix (bytes_of_string ".nxcp") name with
  | None => false
  | Some stem =>
      match rsplit_once x2d stem with
      | None => false
      | Some (prefix, hash) =>
          match strip_prefix (bytes_of_string "checkpoint-") prefix with
          | None => false
          | Some sequence =>
              (len sequence =? 20) && forallb is_ascii_digit sequence &&
              (len hash =? 64) && forallb is_ascii_hexdigit hash
          end
      end
  end.

(** ** The directory *)

(** An entry that is not a regular file has a length of its own in its metadata. *)
Inductive Entry : Type :=
| RegularFile (contents : list byte)
| OtherEntry (length : Z).

#[global] Instance Entry_eq_dec : EqDecision Entry.
Proof. solve_decision. Defined.

Inductive DirectoryState : Type :=
| MissingDirectory
| NotADirectory
| Directory (entries : gmap FileName Entry).

Module CheckpointStoreError.
Inductive CheckpointStoreError : Type :=
| EmptyDirectoryPath
| DirectoryIsNotDirectory
| Io (operation : string) (path : FileName)
| ExistingFileConflict (path : FileName)
| InvalidPublishedCheckpoint (path : FileName) (source : CheckpointError)
| TooManyCandidates (maximum : Z).
End CheckpointStoreError.
Abbreviation CheckpointStoreError := CheckpointStoreError.CheckpointStoreError.

Record CheckpointReceipt : Type := mk_CheckpointReceipt {
  cr_path : FileName;
  cr_checkpoint : Checkpoint
}.

(** Which call of a publication fails, if any.  [LinkRaced] is another process
    that creates the final file just before the link. *)
Inductive PublishIo : Type :=
| PublishSucceeds
| CreateDirectoryFails
| InspectDirectoryFails
| CreateTemporaryFails
| WriteTemporaryFails (written : nat)
| SyncTemporaryFails
| LinkFails
| LinkRaced (entry : Entry)
| VerifyMetadataFails
| VerifyReadFails.

#[global] Instance PublishIo_eq_dec : EqDecision PublishIo.
Proof. solve_decision. Defined.

Section Store.
Context `{Sha2}.

Abbreviation Publishing := (M DirectoryState (option CheckpointStoreError)).

Definition io_error {A} (operation : string) (path : FileName) : Publishing A :=
  lift (Err (Some (CheckpointStoreError.Io operation path))).

(** [CheckpointStore::ensure_directory]; the path of the directory is []. *)
Definition ensure_directory (io : PublishIo) : Publishing (gmap FileName Entry) :=
  if bool_decide (io = CreateDirectoryFails) then io_error "create checkpoint directory" []
  else
    state ← get;
    match state with
    | NotADirectory => io_error "create checkpoint directory" []
    | MissingDirectory =>
        _ ← put (Directory ∅);
        if bool_decide (io = InspectDirectoryFails) then io_error "inspect checkpoint directory" []
        else mret ∅
    | Directory entries =>
        if bool_decide (io = InspectDirectoryFails) then io_error "inspect checkpoint directory" []
        else mret entries
    end.

(** A read of [CheckpointStore::verify_existing]. *)
Definition verify_contents (path : FileName) (expected : Checkpoint) (contents : list byte)
    : Result (option CheckpointStoreError) CheckpointReceipt :=
  checkpoint ←
    map_err (fun error => CheckpointStoreError.InvalidPublishedCheckpoint path <$> error)
      (checkpoint_decode contents);
  if negb (bool_decide (checkpoint = expected))
  then Err (Some (CheckpointStoreError.ExistingFileConflict path))
  else Ok (mk_CheckpointReceipt path checkpoint).

(** [CheckpointStore::verify_existing]. *)
Definition verify_existing (io : PublishIo) (entries : gmap FileName Entry) (path : FileName)
    (expected : Checkpoint) : Result (option CheckpointStoreError) CheckpointReceipt :=
  if bool_decide (io = VerifyMetadataFails)
  then Err (Some (CheckpointStoreError.Io "inspect published checkpoint" path))
  else match entries !! path with
  | None => Err (Some (CheckpointStoreError.Io "inspect published checkpoint" path))
  | Some entry =>
      let length := match entry with RegularFile contents => len contents | OtherEntry n => n end in
      if MAX_CHECKPOINT_BYTES <? length
      then Err (Some (CheckpointStoreError.ExistingFileConflict path))
      else match entry with
      | OtherEntry _ => Err (Some (CheckpointStoreError.Io "read published checkpoint" path))
      | RegularFile contents =>
          if bool_decide (io = VerifyReadFails)
          then Err (Some (CheckpointStoreError.Io "read published checkpoint" path))
          else verify_contents path expected contents
      end
  end.

(** The closure of [publish]: create, write, synchronise and link the temporary
    file; the result and the entries it leaves. *)
Definition write_and_link (io : PublishIo) (entries : gmap FileName Entry)
    (temporary_path final_path : FileName) (encoded : list byte) (checkpoint : Checkpoint)
    : Result (option CheckpointStoreError) CheckpointReceipt * gmap FileName Entry :=
  let fails operation path := Err (Some (CheckpointStoreError.Io operation path)) in
  if bool_decide (io = CreateTemporaryFails) || bool_decide (is_Some (entries !! temporary_path))
  then (fails "create temporary checkpoint"%string temporary_path, entries)
  else
    let written := <[temporary_path := RegularFile encoded]> entries in
    match io with
    | WriteTemporaryFails n =>
        (fails "write temporary checkpoint"%string temporary_path,
         <[temporary_path := RegularFile (take n encoded)]> entries)
    | SyncTemporaryFails => (fails "sync temporary checkpoint"%string temporary_path, written)
    | LinkFails => (fails "publish checkpoint without overwrite"%string final_path, written)
    | LinkRaced entry =>
        let raced := <[final_path := entry]> written in
        (verify_existing io raced final_path checkpoint, raced)
    | _ =>
        let linked := <[final_path := RegularFile encoded]> written in
        (verify_existing io linked final_path checkpoint, linked)
    end.

(** [CheckpointStore::publish]; [cleanup_fails] is a failure of the removal of
    the temporary file other than its absence. *)
Definition publish (io : PublishIo) (cleanup_fails : bool) (temporary_path : FileName)
    (checkpoint : Checkpoint) : Publishing CheckpointReceipt :=
  entries ← ensure_directory io;
  encoded ← lift (ok_or (checkpoint_encode checkpoint) None);
  let final_path := final_name checkpoint in
  if bool_decide (is_Some (entries !! final_path))
  then lift (verify_existing io entries final_path checkpoint)
  else
    let '(result, entries) :=
      write_and_link io entries temporary_path final_path encoded checkpoint in
    _ ← put (Directory (if cleanup_fails then entries else delete temporary_path entries));
    match result with
    | Ok receipt =>
        if cleanup_fails then io_error "remove published temporary checkpoint" temporary_path
        else mret receipt
    | Err error => lift (Err error)
    end.

(** ** Discovery *)

(** What the operating system answers about one entry of the listing. *)
Inductive EntryIo : Type := EntryReadable | EntryFails | EntryMetadataFails | EntryReadFails.

(** The order of [load_candidates]: later sequences first, then by path. *)
Definition receipt_before (left right : CheckpointReceipt) : Prop :=
  ck_sequence (cr_checkpoint right) < ck_sequence (cr_checkpoint left) \/
  (ck_sequence (cr_checkpoint right) = ck_sequence (cr_checkpoint left) /\
   bytes_compare (cr_path left) (cr_path right) <> Gt).

#[global] Instance receipt_before_dec left right : Decision (receipt_before left right).
Proof. unfold receipt_before. apply _. Defined.

(** The loop over the entries in the order the directory lists them. *)
Fixpoint load_loop (io : FileName -> EntryIo) (listing : list (FileName * Entry))
    (candidates : list CheckpointReceipt)
    : Result (option CheckpointStoreError) (list CheckpointReceipt) :=
  match listing with
  | [] => Ok candidates
  | (path, entry) :: listing =>
      match io path with
      | EntryFails => Err (Some (CheckpointStoreError.Io "read checkpoint directory entry" []))
      | answer =>
          if negb (is_candidate_filename path) then load_loop io listing candidates
          else match answer, entry with
          | EntryMetadataFails, _ =>
              Err (Some (CheckpointStoreError.Io "inspect checkpoint candidate" path))
          | _, OtherEntry _ => load_loop io listing candidates
          | _, RegularFile contents =>
              if MAX_CHECKPOINT_BYTES <? len contents then load_loop io listing candidates
              else match answer with
              | EntryReadFails => Err (Some (CheckpointStoreError.Io "read checkpoint candidate" path))
              | _ =>
                  match checkpoint_decode contents with
                  | Err None => Err None
                  | Err (Some _) => load_loop io listing candidates
                  | Ok checkpoint =>
                      let candidates := candidates ++ [mk_CheckpointReceipt path checkpoint] in
                      if MAX_DISCOVERED_CHECKPOINTS <? len candidates
                      then Err (Some (CheckpointStoreError.TooManyCandidates MAX_DISCOVERED_CHECKPOINTS))
                      else load_loop io listing candidates
                  end
              end
          end
      end
  end.

(** [CheckpointStore::load_candidates], given the order in which the directory
    lists its entries. *)
Definition load_candidates (io : FileName -> EntryIo) (listing : list (FileName * Entry))
    (state : DirectoryState) : Result (option CheckpointStoreError) (list CheckpointReceipt) :=
  match state with
  | MissingDirectory => Ok []
  | NotADirectory => Err (Some (CheckpointStoreError.Io "read checkpoint directory" []))
  | Directory _ =>
      candidates ← load_loop io listing [];
      Ok (merge_sort receipt_before candidates)
  end.

End Store.
