(* ===== verification/CheckpointStoreFacts.v ===== *)
(** * Facts about the checkpoint directory

    The final name of a checkpoint is a candidate name and determines its
    sequence number and record hash, a temporary name never is one; a publication
    changes nothing that exists and leaves at worst a temporary file; discovery
    finds exactly the decodable candidates, in an order that does not depend on
    the listing. *)

From Stdlib Require Import Strings.Byte Strings.String.
From S2P Require Import Prelude Arrays Reader Sha256 Types Crypto Merkle Ledger Snapshot RecordChain.
From S2P Require Import Checkpoint CheckpointFacts CheckpointStore.

(** ** Names *)

Lemma length_decimal_fixed width value : length (decimal_fixed width value) = width.
Proof.
  revert value. induction width as [|width IH]; intros value; [done|]. cbn [decimal_fixed].
  rewrite length_app, IH. cbn. lia.
Qed.

Lemma digit_code d : 0 <= d < 10 -> Z_of_byte (byte_of_Z (48 + d)) = 48 + d.
Proof. intros Hd. rewrite Z_of_byte_of_Z. apply Z.mod_small. lia. Qed.

Lemma decimal_fixed_digits width value :
  Forall (fun b => is_ascii_digit b = true) (decimal_fixed width value).
Proof.
  revert value. induction width as [|width IH]; intros value; [constructor|]. cbn [decimal_fixed].
  apply Forall_app_2; [apply IH|]. constructor; [|constructor].
  pose proof (Z.mod_pos_bound value 10 ltac:(lia)) as Hm. unfold is_ascii_digit, byte_between.
  rewrite digit_code by lia. rewrite !(proj2 (Z.leb_le _ _)) by lia. done.
Qed.

Lemma decimal_fixed_inj width v1 v2 :
  0 <= v1 < 10 ^ Z.of_nat width -> 0 <= v2 < 10 ^ Z.of_nat width ->
  decimal_fixed width v1 = decimal_fixed width v2 -> v1 = v2.
Proof.
  revert v1 v2. induction width as [|width IH]; intros v1 v2 H1 H2; [cbn in *; lia|].
  cbn [decimal_fixed]. rewrite Nat2Z.inj_succ, Z.pow_succ_r in H1, H2 by lia.
  intros [Hd Hl]%app_inj_2; [|done]. injection Hl as Hl.
  pose proof (Z.mod_pos_bound v1 10 ltac:(lia)). pose proof (Z.mod_pos_bound v2 10 ltac:(lia)).
  apply (f_equal Z_of_byte) in Hl. rewrite !digit_code in Hl by lia.
  apply IH in Hd; [|split; [apply Z.div_pos; lia|apply Z.div_lt_upper_bound; lia]..].
  rewrite (Z.div_mod v1 10), (Z.div_mod v2 10) by lia. lia.
Qed.

Lemma hex_digit_code d : 0 <= d < 16 -> Z_of_byte (hex_digit d) = if d <? 10 then 48 + d else 87 + d.
Proof. intros Hd. unfold hex_digit. rewrite Z_of_byte_of_Z. apply Z.mod_small. destruct (_ <? _); lia. Qed.

Lemma hex_digit_ok d : 0 <= d < 16 -> is_ascii_hexdigit (hex_digit d) = true.
Proof.
  intros Hd. unfold is_ascii_hexdigit, is_ascii_digit, byte_between. rewrite hex_digit_code by done.
  destruct (Z.ltb_spec d 10).
  - by rewrite !(proj2 (Z.leb_le _ _)) by lia.
  - rewrite (proj2 (Z.leb_le 97 _)), (proj2 (Z.leb_le _ 102)) by lia. cbn [andb]. by rewrite orb_true_r.
Qed.

Lemma hex_digit_inj d1 d2 : 0 <= d1 < 16 -> 0 <= d2 < 16 -> hex_digit d1 = hex_digit d2 -> d1 = d2.
Proof.
  intros H1 H2 He%(f_equal Z_of_byte). rewrite !hex_digit_code in He by done.
  destruct (Z.ltb_spec d1 10), (Z.ltb_spec d2 10); lia.
Qed.

Lemma nibbles b : 0 <= Z_of_byte b / 16 < 16 /\ 0 <= Z_of_byte b mod 16 < 16.
Proof.
  pose proof (Z_of_byte_range b). split; [|apply Z.mod_pos_bound; lia].
  split; [apply Z.div_pos; lia|apply Z.div_lt_upper_bound; lia].
Qed.

Lemma length_encode_hex l : length (encode_hex l) = (2 * length l)%nat.
Proof. unfold encode_hex. induction l as [|b l IH]; cbn in *; [done|]. lia. Qed.

Lemma encode_hex_digits l : Forall (fun b => is_ascii_hexdigit b = true) (encode_hex l).
Proof.
  unfold encode_hex. induction l as [|b l IH]; cbn; [constructor|]. destruct (nibbles b) as [H1 H2].
  constructor; [by apply hex_digit_ok|]. constructor; [by apply hex_digit_ok|done].
Qed.

Lemma encode_hex_inj l1 l2 : encode_hex l1 = encode_hex l2 -> l1 = l2.
Proof.
  revert l2. induction l1 as [|b l1 IH]; intros [|c l2]; try done. cbn. intros [= H1 H2 H3].
  destruct (nibbles b), (nibbles c). apply hex_digit_inj in H1; [|done..]. apply hex_digit_inj in H2; [|done..].
  f_equal; [|by apply IH]. rewrite <-(byte_of_Z_of_byte b), <-(byte_of_Z_of_byte c). f_equal.
  rewrite (Z.div_mod (Z_of_byte b) 16), (Z.div_mod (Z_of_byte c) 16) by lia. lia.
Qed.

Lemma strip_suffix_app l suffix : strip_suffix suffix (l ++ suffix) = Some l.
Proof.
  unfold strip_suffix. rewrite length_app, Nat.add_sub.
  by rewrite drop_app_length, take_app_length, bool_decide_eq_true_2.
Qed.

Lemma strip_prefix_app prefix l : strip_prefix prefix (prefix ++ l) = Some l.
Proof. unfold strip_prefix. by rewrite take_app_length, drop_app_length, bool_decide_eq_true_2. Qed.

Lemma rsplit_once_none separator l : separator ∉ l -> rsplit_once separator l = None.
Proof.
  induction l as [|b l IH]; [done|]. intros Hn. cbn [rsplit_once].
  rewrite IH by set_solver. by rewrite bool_decide_eq_false_2 by set_solver.
Qed.

Lemma rsplit_once_app separator l1 l2 :
  separator ∉ l2 -> rsplit_once separator (l1 ++ separator :: l2) = Some (l1, l2).
Proof.
  intros Hn. induction l1 as [|b l1 IH]; cbn [app rsplit_once]; [|by rewrite IH].
  by rewrite rsplit_once_none, bool_decide_eq_true_2.
Qed.

Lemma valid_utf8_ascii l : Forall (fun b => byte_between 0 127 b = true) l -> valid_utf8 l = true.
Proof. induction 1 as [|b l Hb _ IH]; [done|]. cbn [valid_utf8]. by rewrite Hb. Qed.

Lemma byte_between_weaken lo hi lo' hi' b :
  byte_between lo hi b = true -> lo' <= lo -> hi <= hi' -> byte_between lo' hi' b = true.
Proof.
  unfold byte_between. intros Hb H1 H2. zbool. rewrite !(proj2 (Z.leb_le _ _)) by lia. done.
Qed.

Lemma hexdigit_between b : is_ascii_hexdigit b = true -> byte_between 48 102 b = true.
Proof.
  unfold is_ascii_hexdigit, is_ascii_digit. rewrite !orb_true_iff.
  intros [[Hb|Hb]|Hb]; (eapply byte_between_weaken; [exact Hb|lia|lia]).
Qed.

(** The final name of a checkpoint is a candidate name. *)
Lemma final_name_candidate c : is_candidate_filename (final_name c) = true.
Proof.
  pose proof (decimal_fixed_digits 20 (ck_sequence c)) as Hdec.
  pose proof (length_decimal_fixed 20 (ck_sequence c)) as Hlen.
  pose proof (encode_hex_digits (arr (ck_terminal_record_hash c))) as Hhex.
  pose proof (length_encode_hex (arr (ck_terminal_record_hash c))) as Hlh. rewrite length_arr in Hlh.
  unfold is_candidate_filename, final_name. revert Hdec Hlen Hhex Hlh.
  generalize (decimal_fixed 20 (ck_sequence c)), (encode_hex (arr (ck_terminal_record_hash c))).
  intros d h Hdec Hlen Hhex Hlh.
  rewrite valid_utf8_ascii.
  2:{ repeat apply Forall_app_2.
      - by repeat constructor.
      - eapply Forall_impl; [exact Hdec|]. intros b Hb. eapply byte_between_weaken; [exact Hb|lia..].
      - by repeat constructor.
      - eapply Forall_impl; [exact Hhex|]. intros b Hb%hexdigit_between.
        eapply byte_between_weaken; [exact Hb|lia..].
      - by repeat constructor. }
  cbn [negb].
  assert (Hname : bytes_of_string "checkpoint-" ++ d ++ bytes_of_string "-" ++ h ++ bytes_of_string ".nxcp" =
    ((bytes_of_string "checkpoint-" ++ d) ++ x2d :: h) ++ bytes_of_string ".nxcp")
    by (by rewrite <-!app_assoc).
  rewrite Hname, strip_suffix_app, rsplit_once_app.
  2:{ intros Hin. rewrite Forall_forall in Hhex. by specialize (Hhex _ Hin). }
  rewrite strip_prefix_app, Hlen, Hlh.
  by rewrite !(proj2 (forallb_Forall _ _)).
Qed.

Lemma final_name_inj c1 c2 :
  in_range U64_MAX (ck_sequence c1) -> in_range U64_MAX (ck_sequence c2) -> final_name c1 = final_name c2 ->
  ck_sequence c1 = ck_sequence c2 /\ ck_terminal_record_hash c1 = ck_terminal_record_hash c2.
Proof.
  unfold in_range, final_name. intros H1 H2 He. apply app_inv_head in He.
  apply app_inj_1 in He as [Hd He]; [|by rewrite !length_decimal_fixed].
  apply decimal_fixed_inj in Hd; [|cbn; lia..]. split; [done|].
  apply app_inv_head, app_inv_tail, encode_hex_inj in He. by apply array_eq.
Qed.

Lemma temporary_name_not_candidate pid sequence :
  is_candidate_filename (temporary_name pid sequence) = false.
Proof.
  unfold is_candidate_filename. destruct (negb (valid_utf8 _)); [done|].
  unfold temporary_name. rewrite !app_assoc.
  generalize (((bytes_of_string ".checkpoint-" ++ decimal pid) ++ bytes_of_string "-") ++ decimal sequence).
  intros l. unfold strip_suffix. case_bool_decide as Hd; [|done]. exfalso. revert Hd.
  rewrite length_app. change (length (bytes_of_string ".tmp")) with 4%nat.
  change (length (bytes_of_string ".nxcp")) with 5%nat.
  destruct l as [|b l _] using rev_ind; [done|].
  rewrite length_app. cbn [length]. replace (length l + 1 + 4 - 5)%nat with (length l) by lia.
  rewrite <-app_assoc, drop_app_length. discriminate.
Qed.

(** ** Publication *)

Section Publication.
Context `{Sha2}.

Definition entries_of (state : DirectoryState) : gmap FileName Entry :=
  match state with Directory entries => entries | _ => ∅ end.

Lemma length_checkpoint_bytes c : checkpoint_wf c -> len (checkpoint_bytes c) <= MAX_CHECKPOINT_BYTES.
Proof.
  intros Hw. unfold checkpoint_bytes. rewrite length_app, Nat2Z.inj_add, length_body_of, length_arr.
  pose proof (length_snapshot_bytes _ (swf_canonical _ (ckw_snapshot _ Hw))
    (swf_bounded _ (ckw_snapshot _ Hw))) as Hl.
  unfold MAX_CHECKPOINT_BYTES, CHECKPOINT_HASH_BYTES. lia.
Qed.

Lemma MAX_CHECKPOINT_fits : MAX_CHECKPOINT_BYTES <= ISIZE_MAX.
Proof. done. Qed.

Lemma regular_inj a b : Some (RegularFile a) = Some (RegularFile b) -> a = b.
Proof. by intros [= ->]. Qed.

(** A file is accepted as the published checkpoint exactly when it holds its
    encoding; reading it never panics. *)
Lemma verify_existing_cases io entries path c :
  checkpoint_wf c ->
  match verify_existing io entries path c with
  | Ok receipt => receipt = mk_CheckpointReceipt path c /\
      entries !! path = Some (RegularFile (checkpoint_bytes c))
  | Err e => is_Some e /\
      (io <> VerifyMetadataFails -> io <> VerifyReadFails ->
       entries !! path <> Some (RegularFile (checkpoint_bytes c)))
  end.
Proof.
  intros Hw. unfold verify_existing. case_bool_decide as Hm; [split; [by eexists|done]|].
  destruct (entries !! path) as [entry|] eqn:He; [|split; [by eexists|done]].
  pose proof (length_checkpoint_bytes c Hw) as Hlen. pose proof MAX_CHECKPOINT_fits as Hfit.
  destruct entry as [contents|n]; cbv zeta.
  2:{ destruct (_ <? _); (split; [by eexists|done]). }
  destruct (Z.ltb_spec MAX_CHECKPOINT_BYTES (len contents)) as [Hl|Hl].
  { split; [by eexists|]. intros _ _ ->%regular_inj. lia. }
  case_bool_decide as Hr; [split; [by eexists|done]|]. unfold verify_contents.
  pose proof (checkpoint_decode_cases contents ltac:(lia)) as Hd.
  destruct (checkpoint_decode contents) as [c'|e]; cbn [map_err mbind result_bind].
  - destruct Hd as [Hw' ->]. case_bool_decide as Hc; cbn [negb]; [by subst|].
    split; [by eexists|]. intros _ _ Hb%regular_inj%checkpoint_bytes_inj; done.
  - destruct Hd as [Hn [e' ->]]. split; [by eexists|]. intros _ _ Hb%regular_inj. by destruct (Hn c Hw).
Qed.

(** The closure of [publish] on a directory without the final name. *)
Lemma write_and_link_cases io entries temporary final c r after :
  checkpoint_wf c -> temporary <> final -> entries !! final = None ->
  write_and_link io entries temporary final (checkpoint_bytes c) c = (r, after) ->
  (forall name, name <> temporary -> name <> final -> after !! name = entries !! name) /\
  (after !! final = None \/ after !! final = Some (RegularFile (checkpoint_bytes c)) \/
   exists entry, io = LinkRaced entry /\ after !! final = Some entry) /\
  match r with
  | Ok receipt => receipt = mk_CheckpointReceipt final c /\
      after !! final = Some (RegularFile (checkpoint_bytes c))
  | Err e => is_Some e /\ (io = PublishSucceeds -> is_Some (entries !! temporary))
  end.
Proof.
  intros Hw Hne Hfinal. unfold write_and_link.
  pose proof (fun es => verify_existing_cases io es final c Hw) as Hv. revert Hv.
  generalize (checkpoint_bytes c). intros encoded Hv.
  destruct (bool_decide (io = CreateTemporaryFails) || _) eqn:Hc.
  { intros [= <- <-]. split; [done|]. split; [by left|]. split; [by eexists|].
    intros ->. apply orb_true_iff in Hc as [Hc|Hc]; by apply bool_decide_eq_true in Hc. }
  clear Hc. cbv zeta.
  assert (Hlinked : forall entry,
    (verify_existing io (<[final := entry]> (<[temporary := RegularFile encoded]> entries)) final c,
     <[final := entry]> (<[temporary := RegularFile encoded]> entries)) = (r, after) ->
    entry = RegularFile encoded \/ io = LinkRaced entry ->
    (forall name, name <> temporary -> name <> final -> after !! name = entries !! name) /\
    (after !! final = None \/ after !! final = Some (RegularFile encoded) \/
     exists entry, io = LinkRaced entry /\ after !! final = Some entry) /\
    match r with
    | Ok receipt => receipt = mk_CheckpointReceipt final c /\ after !! final = Some (RegularFile encoded)
    | Err e => is_Some e /\ (io = PublishSucceeds -> is_Some (entries !! temporary))
    end).
  { intros entry [= <- <-] Hentry. split; [intros; by rewrite !lookup_insert_ne|].
    specialize (Hv (<[final := entry]> (<[temporary := RegularFile encoded]> entries))).
    rewrite lookup_insert_eq in *. split; [destruct Hentry as [->|]; eauto|].
    destruct (verify_existing _ _ _ _) as [receipt|e]; [done|]. destruct Hv as [He Hn].
    split; [done|]. intros ->. destruct Hentry as [->|[=]]. by destruct Hn. }
  destruct io; try (intros Hr; apply Hlinked in Hr; [done|first [by left|by right]]).
  all: clear Hlinked Hv; intros [= <- <-]; split; [intros; by rewrite lookup_insert_ne|].
  all: split; [left; by rewrite lookup_insert_ne by congruence|split; [by eexists|done]].
Qed.

Lemma ensure_directory_cases io state :
  match ensure_directory io state with
  | (Ok entries, state') => entries = entries_of state /\ state' = Directory entries
  | (Err e, state') => is_Some e /\ entries_of state' = entries_of state /\
      (io = PublishSucceeds -> state = NotADirectory)
  end.
Proof.
  unfold ensure_directory. case_bool_decide; [subst; split_and!; (done || by eexists)|]. msimpl.
  destruct state; [|split_and!; (done || by eexists)|]; case_bool_decide; subst; cbn;
    split_and!; (done || by eexists).
Qed.

(** A reported success has put the encoding under the final name. *)
Lemma publish_Ok io cleanup_fails temporary c state receipt state' :
  checkpoint_wf c -> temporary <> final_name c ->
  publish io cleanup_fails temporary c state = (Ok receipt, state') ->
  receipt = mk_CheckpointReceipt (final_name c) c /\
  exists entries, state' = Directory entries /\
    entries !! final_name c = Some (RegularFile (checkpoint_bytes c)).
Proof.
  intros Hw Hne. unfold publish. msimpl. pose proof (ensure_directory_cases io state) as Hd.
  destruct (ensure_directory io state) as [[entries|e] s1]; [|done]. destruct Hd as [-> ->].
  rewrite checkpoint_encode_wf by done. cbn [ok_or]. msimpl. case_bool_decide as Hex.
  - pose proof (verify_existing_cases io (entries_of state) (final_name c) c Hw) as Hv.
    intros [= Hr <-]. rewrite Hr in Hv. destruct Hv as [-> He]. by eauto.
  - apply eq_None_not_Some in Hex.
    destruct (write_and_link _ _ _ _ _ _) as [[receipt'|e] entries'] eqn:Hl; msimpl; [|done].
    apply write_and_link_cases in Hl as (_ & _ & -> & Hf); [|done..].
    destruct cleanup_fails; [done|]. intros [= <- <-]. split; [done|]. eexists. split; [done|].
    by rewrite lookup_delete_ne.
Qed.

End Publication.

(** ** Discovery *)

Lemma bytes_compare_Eq a b : bytes_compare a b = Eq <-> a = b.
Proof.
  revert b. induction a as [|x a IH]; intros [|y b]; cbn; try done.
  destruct (Z.compare_spec (Z_of_byte x) (Z_of_byte y)) as [He|Hl|Hg].
  - assert (x = y) as -> by (rewrite <-(byte_of_Z_of_byte x), He; apply byte_of_Z_of_byte).
    rewrite IH. naive_solver.
  - split; [done|]. intros [= -> _]. lia.
  - split; [done|]. intros [= -> _]. lia.
Qed.

Lemma bytes_compare_opp a b : bytes_compare b a = CompOpp (bytes_compare a b).
Proof.
  revert b. induction a as [|x a IH]; intros [|y b]; cbn; try done.
  rewrite (Z.compare_antisym (Z_of_byte x)). destruct (Z_of_byte x ?= Z_of_byte y); cbn; auto.
Qed.

Lemma bytes_compare_trans a b c :
  bytes_compare a b <> Gt -> bytes_compare b c <> Gt -> bytes_compare a c <> Gt.
Proof.
  revert b c. induction a as [|x a IH]; intros [|y b] [|z c]; cbn; try done.
  destruct (Z.compare_spec (Z_of_byte x) (Z_of_byte y)) as [->|Hl|Hg]; try done;
    destruct (Z.compare_spec (Z_of_byte y) (Z_of_byte z)) as [He|Hl'|Hg']; try done; intros H1 H2.
  - by apply IH with b.
  - rewrite <-He. rewrite (proj2 (Z.compare_lt_iff _ _)) by lia. done.
  - rewrite (proj2 (Z.compare_lt_iff (Z_of_byte x) _)) by lia. done.
Qed.

#[local] Instance receipt_before_trans : Transitive receipt_before.
Proof.
  intros a b c [H1|[H1 H1']] [H2|[H2 H2']]; unfold receipt_before; [left; lia..|].
  right. split; [lia|]. by eapply bytes_compare_trans.
Qed.

#[local] Instance receipt_before_total : Total receipt_before.
Proof.
  intros a b. unfold receipt_before.
  destruct (Z.lt_trichotomy (ck_sequence (cr_checkpoint a)) (ck_sequence (cr_checkpoint b))) as [H'|[H'|H']];
    [right; left; lia| |left; left; lia].
  rewrite (bytes_compare_opp (cr_path a)).
  destruct (bytes_compare (cr_path a) (cr_path b)) eqn:Hc; [left|left|right]; right; (split; [lia|]);
    by rewrite ?Hc.
Qed.

Lemma receipt_before_path a b : receipt_before a b -> receipt_before b a -> cr_path a = cr_path b.
Proof.
  unfold receipt_before. intros [H1|[H1 H1']] [H2|[H2 H2']]; try lia.
  rewrite (bytes_compare_opp (cr_path a)) in H2'. apply bytes_compare_Eq.
  by destruct (bytes_compare (cr_path a) (cr_path b)).
Qed.

Section Discovery.
Context `{Sha2}.

(** The candidate an entry of the directory is, if any. *)
Definition candidate_of (named : FileName * Entry) : option CheckpointReceipt :=
  match named.2 with
  | RegularFile contents =>
      if is_candidate_filename named.1 && (len contents <=? MAX_CHECKPOINT_BYTES)
      then match checkpoint_decode contents with
           | Ok checkpoint => Some (mk_CheckpointReceipt named.1 checkpoint)
           | Err _ => None
           end
      else None
  | OtherEntry _ => None
  end.

Lemma load_loop_readable listing acc :
  len acc <= MAX_DISCOVERED_CHECKPOINTS ->
  load_loop (fun _ => EntryReadable) listing acc =
  if MAX_DISCOVERED_CHECKPOINTS <? len (acc ++ omap candidate_of listing)
  then Err (Some (CheckpointStoreError.TooManyCandidates MAX_DISCOVERED_CHECKPOINTS))
  else Ok (acc ++ omap candidate_of listing).
Proof.
  revert acc. induction listing as [|[path entry] listing IH]; intros acc Hacc; cbn [load_loop].
  { cbn. rewrite app_nil_r, (proj2 (Z.ltb_ge _ _)) by lia. done. }
  assert (Hskip : candidate_of (path, entry) = None ->
    load_loop (fun _ => EntryReadable) listing acc =
    if MAX_DISCOVERED_CHECKPOINTS <? len (acc ++ omap candidate_of ((path, entry) :: listing))
    then Err (Some (CheckpointStoreError.TooManyCandidates MAX_DISCOVERED_CHECKPOINTS))
    else Ok (acc ++ omap candidate_of ((path, entry) :: listing))).
  { intros Hn. cbn [omap list_omap]. rewrite Hn. by apply IH. }
  destruct (is_candidate_filename path) eqn:Hname; cbn [negb].
  2:{ apply Hskip. unfold candidate_of. cbn. rewrite Hname. by destruct entry. }
  destruct entry as [contents|n]; [|by apply Hskip].
  destruct (Z.ltb_spec MAX_CHECKPOINT_BYTES (len contents)) as [Hl|Hl].
  { apply Hskip. unfold candidate_of. cbn. by rewrite Hname, (proj2 (Z.leb_gt _ _)). }
  assert (Hof : candidate_of (path, RegularFile contents) =
    match checkpoint_decode contents with
    | Ok checkpoint => Some (mk_CheckpointReceipt path checkpoint) | Err _ => None end).
  { unfold candidate_of. cbn. by rewrite Hname, (proj2 (Z.leb_le _ _) Hl). }
  pose proof MAX_CHECKPOINT_fits as Hfit.
  pose proof (checkpoint_decode_cases contents ltac:(lia)) as Hd.
  destruct (checkpoint_decode contents) as [c|e] eqn:Hdec.
  2:{ destruct Hd as [_ [e' ->]]. by apply Hskip. }
  cbn [omap list_omap]. rewrite Hof. cbv zeta.
  rewrite (cons_middle _ acc (omap candidate_of listing)), (app_assoc acc).
  destruct (Z.ltb_spec MAX_DISCOVERED_CHECKPOINTS (len (acc ++ [mk_CheckpointReceipt path c]))).
  - rewrite (proj2 (Z.ltb_lt _ _)); [done|]. rewrite length_app. lia.
  - by apply IH.
Qed.

Lemma omap_paths listing : (cr_path <$> omap candidate_of listing) `sublist_of` listing.*1.
Proof.
  induction listing as [|[path entry] listing IH]; [constructor|]. cbn [omap list_omap].
  destruct (candidate_of (path, entry)) as [r|] eqn:Hr; [|by apply sublist_cons].
  assert (cr_path r = path) as Hp.
  { unfold candidate_of in Hr. cbn in Hr. repeat case_match; by simplify_eq. }
  cbn. rewrite Hp. by apply sublist_skip.
Qed.

(** Sorting the candidates of any listing of a directory gives one list. *)
Lemma sorted_candidates (entries : gmap FileName Entry) listing :
  listing ≡ₚ map_to_list entries ->
  merge_sort receipt_before (omap candidate_of listing) =
  merge_sort receipt_before (omap candidate_of (map_to_list entries)).
Proof.
  intros Hperm.
  assert (Hall : forall l, merge_sort receipt_before l ≡ₚ l) by (intros l; apply merge_sort_Permutation).
  assert (Hp : omap candidate_of listing ≡ₚ omap candidate_of (map_to_list entries)) by by rewrite Hperm.
  assert (Hnd : NoDup (cr_path <$> omap candidate_of (map_to_list entries))).
  { eapply sublist_NoDup; [|apply omap_paths]. apply NoDup_fst_map_to_list. }
  apply (StronglySorted_unique_strong receipt_before); [|apply StronglySorted_merge_sort; apply _..|].
  - intros x y Hx Hy H1 H2. pose proof (receipt_before_path _ _ H1 H2) as Hxy.
    rewrite Hall, Hp in Hx. rewrite Hall in Hy.
    apply list_elem_of_lookup in Hx as [i Hi], Hy as [j Hj].
    assert (i = j) as ->.
    { eapply (NoDup_lookup _ i j (cr_path x) Hnd); rewrite list_lookup_fmap; [by rewrite Hi|].
      rewrite Hj, Hxy. done. }
    congruence.
  - by rewrite !Hall.
Qed.

Lemma load_candidates_directory entries listing :
  listing ≡ₚ map_to_list entries ->
  let found := omap candidate_of (map_to_list entries) in
  load_candidates (fun _ => EntryReadable) listing (Directory entries) =
  if MAX_DISCOVERED_CHECKPOINTS <? len found
  then Err (Some (CheckpointStoreError.TooManyCandidates MAX_DISCOVERED_CHECKPOINTS))
  else Ok (merge_sort receipt_before found).
Proof.
  intros Hperm found. unfold load_candidates. rewrite load_loop_readable by done. cbn [app].
  assert (Hp : omap candidate_of listing ≡ₚ found) by (unfold found; by rewrite Hperm).
  rewrite Hp. destruct (_ <? _); [done|]. cbn [mbind result_bind]. f_equal. by apply sorted_candidates.
Qed.

Lemma candidate_of_found (entries : gmap FileName Entry) r :
  r ∈ omap candidate_of (map_to_list entries) <->
  is_candidate_filename (cr_path r) = true /\ checkpoint_wf (cr_checkpoint r) /\
  entries !! cr_path r = Some (RegularFile (checkpoint_bytes (cr_checkpoint r))).
Proof.
  destruct r as [path c]. cbn [cr_path cr_checkpoint]. rewrite list_elem_of_omap.
  pose proof MAX_CHECKPOINT_fits as Hfit. split.
  - intros ([p entry] & Hin & Hr). apply elem_of_map_to_list in Hin. unfold candidate_of in Hr. cbn in Hr.
    destruct entry as [contents|]; [|done].
    destruct (is_candidate_filename p) eqn:Hn; [|done]. cbn [andb] in Hr.
    destruct (Z.leb_spec (len contents) MAX_CHECKPOINT_BYTES) as [Hl|]; [|done].
    destruct (checkpoint_decode contents) as [c'|] eqn:Hd; [|done]. injection Hr as -> ->.
    apply checkpoint_decode_Ok in Hd as [Hw ->]; [|lia]. done.
  - intros (Hn & Hw & He). exists (path, RegularFile (checkpoint_bytes c)).
    split; [by apply elem_of_map_to_list|]. pose proof (length_checkpoint_bytes c Hw) as Hl.
    unfold candidate_of. cbn [fst snd]. rewrite Hn, (proj2 (Z.leb_le _ _) Hl). cbn [andb].
    assert (Hi : len (checkpoint_bytes c) <= ISIZE_MAX) by (etransitivity; [exact Hl|exact Hfit]).
    by rewrite (proj2 (checkpoint_decode_Ok _ c Hi)).
Qed.

(** Whatever the operating system answers, what is returned is well formed and
    nothing panics. *)
Lemma load_loop_wf io listing acc :
  Forall (fun r => checkpoint_wf (cr_checkpoint r)) acc ->
  match load_loop io listing acc with
  | Ok found => Forall (fun r => checkpoint_wf (cr_checkpoint r)) found
  | Err e => is_Some e
  end.
Proof.
  revert acc. induction listing as [|[path entry] listing IH]; intros acc Hacc; cbn [load_loop]; [done|].
  assert (Hread : forall contents, len contents <= MAX_CHECKPOINT_BYTES ->
    match (match checkpoint_decode contents with
           | Err None => Err None
           | Err (Some _) => load_loop io listing acc
           | Ok checkpoint =>
               let candidates := acc ++ [mk_CheckpointReceipt path checkpoint] in
               if MAX_DISCOVERED_CHECKPOINTS <? len candidates
               then Err (Some (CheckpointStoreError.TooManyCandidates MAX_DISCOVERED_CHECKPOINTS))
               else load_loop io listing candidates
           end) with
    | Ok found => Forall (fun r => checkpoint_wf (cr_checkpoint r)) found
    | Err e => is_Some e
    end).
  { intros contents Hl. pose proof MAX_CHECKPOINT_fits as Hfit.
    pose proof (checkpoint_decode_cases contents ltac:(lia)) as Hd.
    destruct (checkpoint_decode contents) as [c|e]; [|destruct Hd as [_ [? ->]]; by apply IH].
    destruct Hd as [Hw _]. cbv zeta. destruct (_ <? _); [by eexists|]. apply IH.
    apply Forall_app_2; [done|by constructor]. }
  destruct (io path); [|by eexists|..]; (destruct (is_candidate_filename path); cbn [negb]; [|by apply IH]).
  all: destruct entry as [contents|n]; try (by apply IH); try (by eexists).
  all: destruct (Z.ltb_spec MAX_CHECKPOINT_BYTES (len contents)); [by apply IH|]; first [by eexists|by apply Hread].
Qed.

Lemma load_candidates_wf io listing state :
  match load_candidates io listing state with
  | Ok found => Forall (fun r => checkpoint_wf (cr_checkpoint r)) found
  | Err e => is_Some e
  end.
Proof.
  unfold load_candidates. destruct state as [| |entries]; [done|by eexists|].
  pose proof (load_loop_wf io listing [] ltac:(constructor)) as Hl.
  destruct (load_loop _ _ _) as [found|e]; cbn [mbind result_bind]; [|done].
  by rewrite (merge_sort_Permutation receipt_before found).
Qed.

End Discovery.

(** ** Properties *)

(** C23: publication is atomic and never overwrites.  Whatever call fails, and
    even if another process creates the final file first, no existing file other
    than the temporary one changes; what a candidate name newly holds is the
    complete encoding of the checkpoint, or what the other process put there; a
    reported success means the final file holds that encoding; and without
    failures, on a directory that does not hold another file under the final
    name, publication succeeds. *)
Theorem publish_atomic `{Sha2} io cleanup_fails pid n c state r state' :
  checkpoint_wf c -> publish io cleanup_fails (temporary_name pid n) c state = (r, state') ->
  let before := entries_of state in
  let after := entries_of state' in
  let complete := RegularFile (checkpoint_bytes c) in
  (forall name entry, before !! name = Some entry -> name <> temporary_name pid n ->
     after !! name = Some entry) /\
  (forall name entry, is_candidate_filename name = true -> after !! name = Some entry ->
     before !! name = Some entry \/
     name = final_name c /\ (entry = complete \/ io = LinkRaced entry)) /\
  match r with
  | Ok receipt => receipt = mk_CheckpointReceipt (final_name c) c /\ after !! final_name c = Some complete
  | Err e => is_Some e /\
      (io = PublishSucceeds -> cleanup_fails = false -> state <> NotADirectory ->
       before !! temporary_name pid n = None ->
       exists other, before !! final_name c = Some other /\ other <> complete)
  end.
Proof.
  intros Hw Hp before after complete.
  assert (Hcand : forall name, is_candidate_filename name = true -> name <> temporary_name pid n).
  { intros name Hn ->. by rewrite temporary_name_not_candidate in Hn. }
  assert (Hne : temporary_name pid n <> final_name c)
    by (intros He; symmetry in He; revert He; apply Hcand, final_name_candidate).
  revert Hp. unfold publish. msimpl. pose proof (ensure_directory_cases io state) as Hd.
  destruct (ensure_directory io state) as [[entries|e] s1].
  2:{ intros [= <- <-]. destruct Hd as (He & Hsame & Hbad). unfold after, before. rewrite Hsame.
      split_and!; [done|by left|done|]. by intros ? _ ?; destruct Hbad. }
  destruct Hd as [-> ->]. fold before. rewrite checkpoint_encode_wf by done. cbn [ok_or]. msimpl.
  case_bool_decide as Hex.
  - intros [= <- <-]. unfold after. cbn [entries_of]. fold before.
    split; [done|]. split; [by left|].
    pose proof (verify_existing_cases io before (final_name c) c Hw) as Hv.
    destruct (verify_existing _ _ _ _) as [receipt|e]; [done|]. destruct Hv as [He Hn]. split; [done|].
    intros -> _ _ _. destruct Hex as [other Ho]. exists other. split; [done|]. intros ->.
    by apply Hn in Ho.
  - apply eq_None_not_Some in Hex.
    destruct (write_and_link _ _ _ _ _ _) as [result entries'] eqn:Hl. msimpl.
    apply write_and_link_cases in Hl as (Hother & Hfinal & Hres); [|done..].
    assert (Hafter : forall name, name <> temporary_name pid n ->
      (if cleanup_fails then entries' else delete (temporary_name pid n) entries') !! name = entries' !! name).
    { intros name Hn. destruct cleanup_fails; [done|]. by rewrite lookup_delete_ne. }
    intros Hp.
    assert (Heq : after = (if cleanup_fails then entries' else delete (temporary_name pid n) entries')).
    { unfold after. destruct result as [receipt|e]; [destruct cleanup_fails|]; by injection Hp as _ <-. }
    rewrite Heq. split; [|split].
    + intros name entry Hb Hn. rewrite Hafter, Hother by congruence. done.
    + intros name entry Hn. rewrite Hafter by by apply Hcand. intros He.
      destruct (decide (name = final_name c)) as [->|Hnf]; [|left; by rewrite <-Hother by (done || by apply Hcand)].
      right. split; [done|]. destruct Hfinal as [Hf|[Hf|(other & Hio & Hf)]]; rewrite Hf in He.
      * done.
      * left. by injection He as <-.
      * right. by injection He as <-.
    + destruct result as [receipt|e].
      * destruct Hres as [-> Hf].
        destruct cleanup_fails; injection Hp as <- _; [split; [by eexists|done]|].
        split; [done|]. rewrite (Hafter (final_name c)) by done. exact Hf.
      * destruct Hres as [He Ht]. injection Hp as <- _. split; [done|].
        intros Hio _ _ Hnone. apply Ht in Hio. rewrite Hnone in Hio. by destruct Hio.
Qed.

(** discovery is exact and does not depend on the listing.  In whatever order
    the directory lists its entries, [load_candidates] returns the decodable
    checkpoints under candidate names, newest sequence first and by name among
    equals, or refuses a directory with more than the maximum; nothing else is
    returned, and nothing panics. *)
Theorem discovery_exact `{Sha2} entries listing :
  listing ≡ₚ map_to_list entries ->
  let found := omap candidate_of (map_to_list entries) in
  load_candidates (fun _ => EntryReadable) listing (Directory entries) =
    (if MAX_DISCOVERED_CHECKPOINTS <? len found
     then Err (Some (CheckpointStoreError.TooManyCandidates MAX_DISCOVERED_CHECKPOINTS))
     else Ok (merge_sort receipt_before found)) /\
  (forall r, r ∈ found <->
     is_candidate_filename (cr_path r) = true /\
     checkpoint_wf (cr_checkpoint r) /\
     entries !! cr_path r = Some (RegularFile (checkpoint_bytes (cr_checkpoint r)))).
Proof.
  intros Hperm found. split; [by apply load_candidates_directory|]. intros r. apply candidate_of_found.
Qed.

(** ** Witnesses *)

Section Samples.
#[local] Existing Instance toy_sha2.

Lemma sample_checkpoint_wf : checkpoint_wf sample_checkpoint.
Proof. split; [exact sample_snapshot_wf|done|done|reflexivity]. Qed.

(** The temporary file is cut after seven bytes; the final name stays free. *)
Lemma publish_atomic_witness :
  match entries_of (publish (WriteTemporaryFails 7) true (temporary_name 17 0) sample_checkpoint
          MissingDirectory).2 !! final_name sample_checkpoint with
  | Some entry => entry = RegularFile (checkpoint_bytes sample_checkpoint)
  | None => True
  end.
Proof.
  destruct (publish (WriteTemporaryFails 7) true (temporary_name 17 0) sample_checkpoint MissingDirectory)
    as [r s'] eqn:Hp.
  destruct (publish_atomic _ _ _ _ _ _ _ _ sample_checkpoint_wf Hp) as (_ & Hnew & _). cbn [snd].
  destruct (entries_of s' !! final_name sample_checkpoint) as [entry|] eqn:He; [|exact I].
  destruct (Hnew _ entry (final_name_candidate _) He) as [Hb|[_ [Hc|Hr]]];
    [discriminate Hb|exact Hc|discriminate Hr].
Defined.

Lemma discovery_exact_witness :
  mk_CheckpointReceipt (final_name sample_checkpoint) sample_checkpoint ∈
  omap candidate_of (map_to_list
    ({[ final_name sample_checkpoint := RegularFile (checkpoint_bytes sample_checkpoint) ]}
     : gmap FileName Entry)).
Proof.
  apply (proj2 (discovery_exact
    {[ final_name sample_checkpoint := RegularFile (checkpoint_bytes sample_checkpoint) ]} _
    (Permutation_refl _))).
  split; [apply final_name_candidate|]. split; [exact sample_checkpoint_wf|]. apply lookup_singleton_eq.
Defined.

End Samples.
