(* ===== verification/PersistentLedger.v ===== *)
(** * The durable single-record ledger ([noxis-storage/src/lib.rs])

    [PersistentLedger] keeps a ledger, the chain of its records and the log that
    makes them durable.  Opening it replays the log from genesis; checkpoints are
    compared with the replay and never replace it.  An apply validates the
    transaction on a copy, appends the record and only then publishes the copy. *)

From Stdlib Require Import Strings.Byte Strings.String.
From S2P Require Import Prelude Arrays Reader Sha256 Types Crypto Merkle Ledger Codec RecordChain Crc32.
From S2P Require Import Frames RecordLog Checkpoint CheckpointStore.

Record ValidationContextMismatch : Type := mk_ValidationContextMismatch {
  vcm_expected : ValidationContextId;
  vcm_expected_proof_verifier : ProofVerifierId;
  vcm_actual_proof_verifier : ProofVerifierId;
  vcm_expected_mint_policy : MintPolicyId;
  vcm_actual_mint_policy : MintPolicyId
}.

Module PersistentLedgerError.
Inductive PersistentLedgerError : Type :=
| Storage (error : StorageError)
| RecordLog (error : RecordLogError)
| RecordChain (error : RecordError)
| Codec (error : CodecError)
| Ledger (error : LedgerError)
| Checkpoint (error : CheckpointError)
| CheckpointStore (error : CheckpointStoreError)
| InvalidValidationContext (error : ValidationContextError)
| CheckpointAtGenesis
| AmbiguousCheckpoints (sequence : Z) (first second : FileName)
| InvalidChainAnchor (configured computed : StateId)
| InvalidChainAnchorContext (anchor supplied : ValidationContextId)
| ValidationContextMismatch (mismatch : ValidationContextMismatch)
| TransactionCryptoSuiteMismatch (expected actual : CryptoSuite)
| ResultingStateIdMismatch (record computed : StateId)
| WriteUnavailable.
End PersistentLedgerError.
Abbreviation PersistentLedgerError := PersistentLedgerError.PersistentLedgerError.

(** The record log is its contents. *)
Record PersistentLedger : Type := mk_PersistentLedger {
  pl_state : LedgerState;
  pl_anchor : ChainAnchor;
  pl_validation_context : ValidationContext;
  pl_record_log : list byte;
  pl_chain : RecordChain;
  pl_terminal_record_hash : option RecordHash;
  pl_recovered_checkpoint_sequence : option Z;
  pl_writes_available : bool
}.

Record PersistentCommitReceipt : Type := mk_PersistentCommitReceipt {
  pcr_sequence : Z;
  pcr_transaction_intent_id : TransactionIntentId;
  pcr_record_hash : RecordHash;
  pcr_state_id : StateId;
  pcr_log_offset : Z
}.

Record PersistentLedgerStatus : Type := mk_PersistentLedgerStatus {
  pls_genesis_id : GenesisId;
  pls_validation_context_id : ValidationContextId;
  pls_sequence : Z;
  pls_recovered_checkpoint_sequence : option Z;
  pls_state_id : StateId
}.

(** [PersistentLedger::status]. *)
Definition ledger_status (self : PersistentLedger) : PersistentLedgerStatus :=
  mk_PersistentLedgerStatus (ca_genesis_id (pl_anchor self))
    (ca_validation_context_id (pl_anchor self)) (current_sequence (pl_chain self))
    (pl_recovered_checkpoint_sequence self) (current_state_id (pl_chain self)).

Definition ensure_validation_components (anchor : ChainAnchor) (verifier : ProofVerifier)
    (mint_policy : MintPolicy) : Result PersistentLedgerError unit :=
  if negb (bool_decide (proof_verifier_id verifier = ca_proof_verifier_id anchor)) ||
     negb (bool_decide (mint_policy_id mint_policy = ca_mint_policy_id anchor))
  then Err (PersistentLedgerError.ValidationContextMismatch
              (mk_ValidationContextMismatch (ca_validation_context_id anchor)
                 (ca_proof_verifier_id anchor) (proof_verifier_id verifier)
                 (ca_mint_policy_id anchor) (mint_policy_id mint_policy)))
  else Ok tt.

Definition ensure_transaction_suite (validation_context : ValidationContext)
    (transaction_suite : CryptoSuite) : Result PersistentLedgerError unit :=
  let expected := vc_crypto_suite validation_context in
  if bool_decide (transaction_suite = expected) then Ok tt
  else Err (PersistentLedgerError.TransactionCryptoSuiteMismatch expected transaction_suite).

(** [checkpoint_candidates_by_sequence] on the candidates found, if any. *)
Fixpoint candidates_loop (by_sequence : gmap Z CheckpointReceipt) (candidates : list CheckpointReceipt)
    : Result PersistentLedgerError (gmap Z CheckpointReceipt) :=
  match candidates with
  | [] => Ok by_sequence
  | candidate :: candidates =>
      let sequence := ck_sequence (cr_checkpoint candidate) in
      match by_sequence !! sequence with
      | None => candidates_loop (<[sequence := candidate]> by_sequence) candidates
      | Some first =>
          if bool_decide (cr_checkpoint first = cr_checkpoint candidate)
          then candidates_loop by_sequence candidates
          else Err (PersistentLedgerError.AmbiguousCheckpoints sequence (cr_path first)
                      (cr_path candidate))
      end
  end.

Definition checkpoint_candidates_by_sequence (candidates : option (list CheckpointReceipt))
    : Result PersistentLedgerError (gmap Z CheckpointReceipt) :=
  candidates_loop ∅ (default [] candidates).

(** Panics of [LedgerState::snapshot] are the error [None]. *)
Abbreviation Failure := (option PersistentLedgerError).

Section Ledgers.
Context `{Sha2}.

(** [restore_verified_checkpoint_at_record]. *)
Definition restore_verified_checkpoint_at_record (checkpoint : CheckpointReceipt)
    (record : TransactionRecord) (replayed_state : LedgerState) (anchor : ChainAnchor)
    : Result Failure (option LedgerState) :=
  let c := cr_checkpoint checkpoint in
  if negb (ck_sequence c =? rec_sequence record) ||
     negb (bool_decide (ck_terminal_record_hash c = rec_record_hash record)) ||
     negb (bool_decide (ck_state_id c = rec_resulting_state_id record))
  then Ok None
  else match restore_state c anchor with
  | Err _ => Ok None
  | Ok restored_state =>
      restored ← ok_or (snapshot restored_state) None;
      replayed ← ok_or (snapshot replayed_state) None;
      Ok (if bool_decide (restored = replayed) then Some restored_state else None)
  end.

(** The variables of the replay loop of [open_internal]. *)
Record Replay : Type := mk_Replay {
  rp_state : LedgerState;
  rp_chain : RecordChain;
  rp_terminal_record_hash : option RecordHash;
  rp_recovered_checkpoint_sequence : option Z;
  rp_candidates : gmap Z CheckpointReceipt
}.

Section Open.
Context (anchor : ChainAnchor) (validation_context : ValidationContext)
  (verifier : ProofVerifier) (mint_policy : MintPolicy).

(** The transition a record stands for, from the state before it: the checks of
    the loop body up to the resulting state. *)
Definition replay_transition (record : TransactionRecord) (state : LedgerState)
    : Result PersistentLedgerError LedgerState :=
  transaction ← map_err PersistentLedgerError.Codec
                  (decode_transaction (rec_transaction_bytes record));
  _ ← ensure_transaction_suite validation_context (tx_suite transaction);
  let transition_context :=
    mk_TransactionValidationContext (ca_genesis_id anchor) (ca_validation_context_id anchor)
      (rec_transaction_intent_id record) (rec_previous_state_id record) in
  let '(applied, next_state) := apply transaction verifier mint_policy transition_context state in
  _ ← map_err PersistentLedgerError.Ledger applied;
  let computed_state_id := state_id next_state (ca_genesis_id anchor) in
  if negb (bool_decide (rec_resulting_state_id record = computed_state_id))
  then Err (PersistentLedgerError.ResultingStateIdMismatch (rec_resulting_state_id record)
              computed_state_id)
  else Ok next_state.

(** The loop body of [open_internal]. *)
Definition replay_record (stored : StoredRecord) (self : Replay) : Result Failure Replay :=
  let record := sr_record stored in
  let '(linked, chain) := chain_apply record (rp_chain self) in
  _ ← map_err (fun e => Some (PersistentLedgerError.RecordChain e)) linked;
  next_state ← map_err Some (replay_transition record (rp_state self));
  let terminal := Some (rec_record_hash record) in
  let candidates := delete (rec_sequence record) (rp_candidates self) in
  let replayed := mk_Replay next_state chain terminal (rp_recovered_checkpoint_sequence self) candidates in
  match rp_candidates self !! rec_sequence record with
  | None => Ok replayed
  | Some checkpoint =>
      restored ← restore_verified_checkpoint_at_record checkpoint record next_state anchor;
      match restored with
      | None => Ok replayed
      | Some restored =>
          Ok (mk_Replay restored chain terminal (Some (rec_sequence record)) candidates)
      end
  end.

Fixpoint replay_records (records : list StoredRecord) (self : Replay) : Result Failure Replay :=
  match records with
  | [] => Ok self
  | record :: records => self ← replay_record record self; replay_records records self
  end.

(** The checks of [open_internal] before the log is read. *)
Definition check_anchor (initial_state : LedgerState) : Result PersistentLedgerError unit :=
  _ ← map_err PersistentLedgerError.InvalidValidationContext (context_validate validation_context);
  if negb (bool_decide (context_id validation_context = ca_validation_context_id anchor)) ||
     negb (bool_decide (vc_proof_verifier_id validation_context = ca_proof_verifier_id anchor)) ||
     negb (bool_decide (vc_mint_policy_id validation_context = ca_mint_policy_id anchor))
  then Err (PersistentLedgerError.InvalidChainAnchorContext (ca_validation_context_id anchor)
              (context_id validation_context))
  else
    _ ← ensure_validation_components anchor verifier mint_policy;
    let computed_genesis_state_id := state_id initial_state (ca_genesis_id anchor) in
    if negb (bool_decide (computed_genesis_state_id = ca_genesis_state_id anchor))
    then Err (PersistentLedgerError.InvalidChainAnchor (ca_genesis_state_id anchor)
                computed_genesis_state_id)
    else Ok tt.

(** A log call inside [open_internal]. *)
Definition on_record_log {A} (m : M (list byte) RecordLogError A) : M (list byte) Failure A :=
  fun file =>
    let '(r, file') := m file in (map_err (fun e => Some (PersistentLedgerError.RecordLog e)) r, file').

(** [PersistentLedger::open_internal] on the contents of the log; [candidates] is
    the answer of the checkpoint store, if one is used. *)
Definition open_internal (io : TruncateIo) (initial_state : LedgerState)
    (candidates : option (Result (option CheckpointStoreError) (list CheckpointReceipt)))
    : M (list byte) Failure PersistentLedger :=
  _ ← lift (map_err Some (check_anchor initial_state));
  file ← get;
  scan ← lift (map_err (fun e => Some (PersistentLedgerError.RecordLog e)) (record_log_scan file));
  found ← lift (match candidates with
                | None => Ok None
                | Some found =>
                    Some <$> map_err (fun e => PersistentLedgerError.CheckpointStore <$> e) found
                end);
  by_sequence ← lift (map_err Some (checkpoint_candidates_by_sequence found));
  replay ← lift (replay_records scan.1
             (mk_Replay initial_state (chain_new (ca_genesis_state_id anchor)) None None by_sequence));
  _ ← match scan.2 with
      | Some tail => on_record_log (record_log_truncate io tail)
      | None => mret tt
      end;
  file ← get;
  mret (mk_PersistentLedger (rp_state replay) anchor validation_context file (rp_chain replay)
          (rp_terminal_record_hash replay) (rp_recovered_checkpoint_sequence replay) true).

(** [PersistentLedger::open]. *)
Definition ledger_open (io : TruncateIo) (initial_state : LedgerState)
    : M (list byte) Failure PersistentLedger := open_internal io initial_state None.

(** [PersistentLedger::open_with_checkpoints] on a directory that lists its
    entries as [listing]. *)
Definition open_with_checkpoints (io : TruncateIo) (entry_io : FileName -> EntryIo)
    (listing : list (FileName * Entry)) (directory : DirectoryState) (initial_state : LedgerState)
    : M (list byte) Failure PersistentLedger :=
  open_internal io initial_state (Some (load_candidates entry_io listing directory)).

End Open.

(** A call of the checkpoint store. *)
Definition on_directory {A} (m : M DirectoryState (option CheckpointStoreError) A)
    : M DirectoryState Failure A :=
  fun directory =>
    let '(r, directory') := m directory in
    (map_err (fun e => PersistentLedgerError.CheckpointStore <$> e) r, directory').

(** [PersistentLedger::publish_checkpoint]. *)
Definition publish_checkpoint (io : PublishIo) (cleanup_fails : bool) (temporary_path : FileName)
    (self : PersistentLedger) : M DirectoryState Failure CheckpointReceipt :=
  terminal_record_hash ← lift (ok_or (pl_terminal_record_hash self)
                                 (Some PersistentLedgerError.CheckpointAtGenesis));
  captured ← lift (ok_or (snapshot (pl_state self)) None);
  checkpoint ← lift (map_err (fun e => Some (PersistentLedgerError.Checkpoint e))
                 (checkpoint_from_snapshot (pl_anchor self) (current_sequence (pl_chain self))
                    terminal_record_hash captured));
  on_directory (publish io cleanup_fails temporary_path checkpoint).

(** The validation of [PersistentLedger::apply] on copies: the record, the
    candidate state and the candidate chain. *)
Definition prepare_record (self : PersistentLedger) (transaction : Transaction)
    (verifier : ProofVerifier) (mint_policy : MintPolicy)
    : Result PersistentLedgerError (TransactionRecord * LedgerState * RecordChain) :=
  _ ← ensure_validation_components (pl_anchor self) verifier mint_policy;
  _ ← ensure_transaction_suite (pl_validation_context self) (tx_suite transaction);
  transaction_bytes ← map_err PersistentLedgerError.Codec (encode_transaction transaction);
  intent_id ← map_err PersistentLedgerError.Codec (transaction_intent_id transaction);
  let transition_context :=
    mk_TransactionValidationContext (ca_genesis_id (pl_anchor self))
      (ca_validation_context_id (pl_anchor self)) intent_id (current_state_id (pl_chain self)) in
  let '(applied, candidate) := apply transaction verifier mint_policy transition_context (pl_state self) in
  _ ← map_err PersistentLedgerError.Ledger applied;
  record ← map_err PersistentLedgerError.RecordChain
             (record_new (next_sequence (pl_chain self)) (current_state_id (pl_chain self))
                transaction_bytes (state_id candidate (ca_genesis_id (pl_anchor self))));
  let '(linked, candidate_chain) := chain_apply record (pl_chain self) in
  _ ← map_err PersistentLedgerError.RecordChain linked;
  Ok (record, candidate, candidate_chain).

(** [PersistentLedger::apply]. *)
Definition ledger_apply (io : AppendIo) (transaction : Transaction) (verifier : ProofVerifier)
    (mint_policy : MintPolicy) : M PersistentLedger PersistentLedgerError PersistentCommitReceipt :=
  fun self =>
    if negb (pl_writes_available self) then (Err PersistentLedgerError.WriteUnavailable, self)
    else match prepare_record self transaction verifier mint_policy with
    | Err error => (Err error, self)
    | Ok (record, candidate, candidate_chain) =>
        match append_record io record (pl_record_log self) with
        | (Ok offset, file) =>
            (Ok (mk_PersistentCommitReceipt (rec_sequence record) (rec_transaction_intent_id record)
                   (rec_record_hash record) (rec_resulting_state_id record) offset),
             mk_PersistentLedger candidate (pl_anchor self) (pl_validation_context self) file
               candidate_chain (Some (rec_record_hash record))
               (pl_recovered_checkpoint_sequence self) (pl_writes_available self))
        | (Err error, file) =>
            (Err (PersistentLedgerError.RecordLog error),
             mk_PersistentLedger (pl_state self) (pl_anchor self) (pl_validation_context self) file
               (pl_chain self) (pl_terminal_record_hash self)
               (pl_recovered_checkpoint_sequence self) false)
        end
    end.

End Ledgers.
