(* ===== verification/PersistentLedgerFacts.v ===== *)
(** * Facts about the durable ledger

    Opening replays exactly the records of the log; checkpoints confirm the
    replay and never change it; an apply is atomic across crashes; a published
    checkpoint is found and confirmed at the next opening. *)

From Stdlib Require Import Strings.Byte Strings.String.
From S2P Require Import Prelude Arrays Reader Sha256 Types Crypto Merkle Ledger LedgerFacts Snapshot.
From S2P Require Import Codec RecordChain Crc32 Frames FramesFacts RecordLog Checkpoint CheckpointFacts.
From S2P Require Import CheckpointStore CheckpointStoreFacts PersistentLedger.

Abbreviation record_bytes := (log_bytes record_format record_kind).
Abbreviation placed_records := (placed record_format record_kind).
Abbreviation record_tail := (tail_of record_format record_kind).

Section Replays.
Context `{Sha2}.

(** ** The abstract ledger

    A record takes the ledger and its chain one step when its bytes encode a
    transaction of the configured suite that the ledger can execute in the
    current state, and the record links that state to the produced one. *)

Context (anchor : ChainAnchor) (vc : ValidationContext) (verifier : ProofVerifier)
  (policy : MintPolicy).

Definition position : Type := LedgerState * RecordChain.

Inductive record_step (p : position) (r : TransactionRecord) : position -> Prop :=
| mk_record_step tx s' :
    bytes_of_tx (rec_transaction_bytes r) tx -> tx_suite tx = vc_crypto_suite vc ->
    rec_sequence r = next_sequence p.2 -> rec_previous_state_id r = current_state_id p.2 ->
    next_sequence p.2 < U64_MAX ->
    ledger_step verifier policy
      (mk_TransactionValidationContext (ca_genesis_id anchor) (ca_validation_context_id anchor)
         (rec_transaction_intent_id r) (current_state_id p.2)) p.1 tx s' ->
    rec_resulting_state_id r = state_id s' (ca_genesis_id anchor) ->
    record_step p r (s', mk_RecordChain (next_sequence p.2 + 1) (rec_resulting_state_id r)).

Inductive records_run : position -> list TransactionRecord -> position -> Prop :=
| records_nil p : records_run p [] p
| records_cons p r p1 rs p2 : record_step p r p1 -> records_run p1 rs p2 -> records_run p (r :: rs) p2.

Lemma records_run_snoc p rs p1 r p2 :
  records_run p rs p1 -> record_step p1 r p2 -> records_run p (rs ++ [r]) p2.
Proof.
  induction 1 as [|p r' p' rs p1 Hs _ IH]; intros Hr; cbn.
  - eapply records_cons; [exact Hr|constructor].
  - eapply records_cons; [exact Hs|by apply IH].
Qed.

Lemma records_run_app p rs rs' p2 :
  records_run p (rs ++ rs') p2 -> exists p1, records_run p rs p1 /\ records_run p1 rs' p2.
Proof.
  revert p. induction rs as [|r rs IH]; intros p; cbn; [intros Hr; exists p; split; [constructor|done]|].
  inversion 1 as [|? ? p1 ? ? Hs Hrun]; subst. apply IH in Hrun as (p' & H1 & H2).
  exists p'. split; [by eapply records_cons|done].
Qed.

(** The invariant of a position: the chain stands at the state of the ledger. *)
Record position_inv (p : position) : Prop := mk_position_inv {
  pos_ledger : ledger_inv p.1;
  pos_state : state_id p.1 (ca_genesis_id anchor) = current_state_id p.2;
  pos_sequence : 1 <= next_sequence p.2 <= U64_MAX
}.

Lemma bytes_of_tx_amount bs tx : bytes_of_tx bs tx -> tx_amount_wf tx.
Proof. intros [[_ Hr] _]. unfold tx_amount_wf. by destruct (tx_operation tx). Qed.

Lemma record_step_inv p r p' : position_inv p -> record_step p r p' -> position_inv p'.
Proof.
  intros [Hl Hs Hq] [tx s' Hb Hsuite Hseq Hprev Hn Hstep Hres]. split; cbn.
  - eapply ledger_step_inv; [exact Hl|by eapply bytes_of_tx_amount|exact Hstep].
  - by rewrite Hres.
  - lia.
Qed.

Lemma records_run_inv p rs p' : position_inv p -> records_run p rs p' -> position_inv p'.
Proof. intros Hp. induction 1 as [|p r p1 rs p2 Hs _ IH]; [done|]. by eapply IH, record_step_inv. Qed.

Lemma record_step_functional p r p1 p2 :
  position_inv p -> record_step p r p1 -> record_step p r p2 -> p1 = p2.
Proof.
  intros [Hl _ _] [tx s1 Hb _ _ _ _ H1 _] [tx' s2 Hb' _ _ _ _ H2 _].
  rewrite (bytes_of_tx_unique _ _ _ Hb' Hb) in H2.
  apply ledger_step_apply in H1, H2; [|by eauto using bytes_of_tx_amount..]. congruence.
Qed.

Lemma records_run_functional p rs p1 p2 :
  position_inv p -> records_run p rs p1 -> records_run p rs p2 -> p1 = p2.
Proof.
  intros Hp H1. revert p2. induction H1 as [|p r p1 rs p' Hs _ IH]; intros p2 H2; inversion H2; subst; [done|].
  assert (p1 = p3) as <- by by eapply record_step_functional.
  apply IH; [by eapply record_step_inv|done].
Qed.

(** ** The loop body *)

(** [replay_transition] accepts exactly the records that take a step. *)
Lemma replay_transition_step s c r s' :
  position_inv (s, c) -> record_wf r -> rec_previous_state_id r = current_state_id c ->
  rec_sequence r = next_sequence c -> next_sequence c < U64_MAX ->
  replay_transition anchor vc verifier policy r s = Ok s' <->
  record_step (s, c) r (s', mk_RecordChain (next_sequence c + 1) (rec_resulting_state_id r)).
Proof.
  intros [Hl Hs Hq] (_ & tx & Hb & Hi & _) Hprev Hseq Hn.
  unfold replay_transition, ensure_transaction_suite.
  rewrite (bytes_of_tx_decode _ _ Hb). cbn [map_err mbind result_bind]. split.
  - case_bool_decide as Hsuite; cbn [mbind result_bind]; [|done].
    destruct (apply tx verifier policy _ s) as [[u|e] s1] eqn:Hap; cbn [map_err mbind result_bind]; [|done].
    case_bool_decide as Hres; cbn [negb]; [|done]. intros [= <-].
    apply (mk_record_step (s, c) r tx); [done..| |done]. cbn [fst snd]. rewrite <-Hprev.
    by eapply apply_Ok_step; [done|by eapply bytes_of_tx_amount|].
  - inversion 1 as [tx' s1 Hb' Hsuite _ _ _ Hstep Hres]; subst. cbn [fst snd] in *.
    rewrite (bytes_of_tx_unique _ _ _ Hb' Hb) in *. rewrite bool_decide_eq_true_2 by done.
    cbn [mbind result_bind]. rewrite Hprev.
    rewrite (ledger_step_apply _ _ _ _ _ _ Hl (bytes_of_tx_amount _ _ Hb) Hstep).
    cbn [map_err mbind result_bind]. by rewrite Hres, bool_decide_eq_true_2.
Qed.

(** A checkpoint that passes [restore_verified_checkpoint_at_record] is the
    replayed state, and the comparison never panics. *)
Lemma restore_verified_cases c r s :
  checkpoint_wf (cr_checkpoint c) -> ledger_inv s ->
  exists restored, restore_verified_checkpoint_at_record c r s anchor = Ok restored /\
    (restored = None \/ restored = Some s).
Proof.
  intros Hw Hs. unfold restore_verified_checkpoint_at_record.
  destruct (_ || _ || _); [by eauto|].
  destruct (restore_state (cr_checkpoint c) anchor) as [s'|e] eqn:Hr; [|by eauto].
  apply restore_state_Ok in Hr as (_ & _ & Hcan & -> & _).
  pose proof (parts_restored _ Hcan (swf_amounts _ (ckw_snapshot _ Hw))) as Hparts.
  rewrite (proj2 (snapshot_parts (restored (ck_snapshot (cr_checkpoint c))) (ck_snapshot (cr_checkpoint c))))
    by (by rewrite Hparts).
  rewrite (proj2 (snapshot_parts s (parts_of s))) by (split; [done|by apply parts_canonical]).
  cbn [ok_or mbind result_bind]. eexists. split; [done|]. case_bool_decide as He; [right|by left].
  f_equal. rewrite He. by apply restored_parts.
Qed.

(** ** The loop *)

Definition candidates_wf (candidates : gmap Z CheckpointReceipt) : Prop :=
  map_Forall (fun _ r => checkpoint_wf (cr_checkpoint r)) candidates.

Definition terminal_hash (terminal : option RecordHash) (rs : list TransactionRecord) : option RecordHash :=
  match last rs with Some r => Some (rec_record_hash r) | None => terminal end.

Lemma terminal_hash_cons t r rs : terminal_hash t (r :: rs) = terminal_hash (Some (rec_record_hash r)) rs.
Proof. unfold terminal_hash. rewrite last_cons. by destruct (last rs). Qed.

(** The sequence reported as recovered after a record. *)
Definition confirmed (self : Replay) (r : TransactionRecord) (s : LedgerState) : option Z :=
  match rp_candidates self !! rec_sequence r with
  | None => rp_recovered_checkpoint_sequence self
  | Some c =>
      match restore_verified_checkpoint_at_record c r s anchor with
      | Ok (Some _) => Some (rec_sequence r)
      | _ => rp_recovered_checkpoint_sequence self
      end
  end.

(** One iteration, with whatever checkpoints there are. *)
Lemma replay_record_cases stored (self : Replay) :
  position_inv (rp_state self, rp_chain self) -> record_wf (sr_record stored) ->
  candidates_wf (rp_candidates self) ->
  let r := sr_record stored in
  replay_record anchor vc verifier policy stored self =
  match chain_apply r (rp_chain self), replay_transition anchor vc verifier policy r (rp_state self) with
  | (Err e, _), _ => Err (Some (PersistentLedgerError.RecordChain e))
  | (Ok _, _), Err e => Err (Some e)
  | (Ok _, chain), Ok s' =>
      Ok (mk_Replay s' chain (Some (rec_record_hash r)) (confirmed self r s')
            (delete (rec_sequence r) (rp_candidates self)))
  end.
Proof.
  intros Hp Hw Hc r. unfold replay_record, confirmed. fold r.
  destruct (chain_apply r (rp_chain self)) as [[u|e] chain] eqn:Hlink; cbn [map_err mbind result_bind]; [|done].
  destruct (replay_transition _ _ _ _ _ _) as [s'|e] eqn:Ht; cbn [map_err mbind result_bind]; [|done].
  destruct (rp_candidates self !! rec_sequence r) as [c|] eqn:Hlook; [|done].
  rewrite chain_apply_cases in Hlink. case_decide as Hd; [|by case_decide]. case_decide; [|done].
  destruct Hd as [Hseq Hprev].
  apply (replay_transition_step (rp_state self) (rp_chain self)) in Ht; [|done..].
  destruct (restore_verified_cases c r s') as (restored & -> & [->| ->]);
    [by apply (Hc _ _ Hlook)|exact (pos_ledger _ (record_step_inv _ _ _ Hp Ht))|done..].
Qed.

(** It succeeds exactly when the record takes a step, and the state is the one
    after the step. *)
Lemma replay_record_step stored (self : Replay) p' :
  position_inv (rp_state self, rp_chain self) -> record_wf (sr_record stored) ->
  candidates_wf (rp_candidates self) ->
  let r := sr_record stored in
  record_step (rp_state self, rp_chain self) r p' ->
  replay_record anchor vc verifier policy stored self =
  Ok (mk_Replay p'.1 p'.2 (Some (rec_record_hash r)) (confirmed self r p'.1)
        (delete (rec_sequence r) (rp_candidates self))).
Proof.
  intros Hp Hw Hc r; subst r; intros Hstep. rewrite replay_record_cases by done. pose proof Hstep as Hstep0.
  destruct Hstep as [tx s' Hb Hsuite Hseq Hprev Hn Hst Hres]. cbn [fst snd] in *.
  rewrite chain_apply_cases, !decide_True by done.
  by rewrite (proj2 (replay_transition_step _ _ _ s' Hp Hw Hprev Hseq Hn)).
Qed.

Lemma replay_record_facts stored (self self' : Replay) :
  position_inv (rp_state self, rp_chain self) -> record_wf (sr_record stored) ->
  candidates_wf (rp_candidates self) ->
  replay_record anchor vc verifier policy stored self = Ok self' ->
  record_step (rp_state self, rp_chain self) (sr_record stored) (rp_state self', rp_chain self') /\
  position_inv (rp_state self', rp_chain self') /\ candidates_wf (rp_candidates self') /\
  rp_terminal_record_hash self' = Some (rec_record_hash (sr_record stored)).
Proof.
  intros Hp Hw Hc. rewrite replay_record_cases by done. rewrite chain_apply_cases.
  case_decide as Hlink; [|by case_decide]. case_decide as Hn; [|done]. destruct Hlink as [Hseq Hprev].
  destruct (replay_transition _ _ _ _ _ _) as [s'|] eqn:Ht; [|done]. intros [= <-].
  apply (replay_transition_step (rp_state self) (rp_chain self)) in Ht; [|done..]. cbn.
  split; [done|]. split; [by eapply record_step_inv|]. split; [|done]. by apply map_Forall_delete.
Qed.

(** Two replays that differ in their checkpoints only. *)
Definition same_replay (a b : Replay) : Prop :=
  rp_state a = rp_state b /\ rp_chain a = rp_chain b /\
  rp_terminal_record_hash a = rp_terminal_record_hash b.

Definition same_answer (x y : Result Failure Replay) : Prop :=
  match x, y with
  | Ok a, Ok b => same_replay a b
  | Err e, Err e' => e = e' /\ is_Some e
  | _, _ => False
  end.

Lemma replay_records_same stored (a b : Replay) :
  position_inv (rp_state a, rp_chain a) -> Forall record_wf (sr_record <$> stored) ->
  candidates_wf (rp_candidates a) -> candidates_wf (rp_candidates b) -> same_replay a b ->
  same_answer (replay_records anchor vc verifier policy stored a)
    (replay_records anchor vc verifier policy stored b).
Proof.
  revert a b. induction stored as [|r stored IH]; intros a b Hp Hw Ha Hb Hsame; [done|].
  rewrite fmap_cons in *. cbn [replay_records]. apply Forall_cons in Hw as [Hr Hw].
  destruct Hsame as (Hs & Hch & Ht).
  assert (Hp' : position_inv (rp_state b, rp_chain b)) by by rewrite <-Hs, <-Hch.
  pose proof (fun a' => replay_record_facts r a a' Hp Hr Ha) as Hfa.
  pose proof (fun b' => replay_record_facts r b b' Hp' Hr Hb) as Hfb. revert Hfa Hfb.
  rewrite !replay_record_cases by done. rewrite <-Hs, <-Hch.
  destruct (chain_apply (sr_record r) (rp_chain a)) as [[u|e] chain]; cbn [mbind result_bind];
    [|intros _ _; split; [done|by eexists]].
  destruct (replay_transition _ _ _ _ _ _) as [s'|e]; cbn [mbind result_bind];
    [|intros _ _; split; [done|by eexists]].
  intros Hfa Hfb. specialize (Hfa _ eq_refl) as (_ & Hpa & Hca & _).
  specialize (Hfb _ eq_refl) as (_ & _ & Hcb & _). by apply IH.
Qed.

Lemma replay_records_candidates stored (self self' : Replay) :
  position_inv (rp_state self, rp_chain self) -> Forall record_wf (sr_record <$> stored) ->
  candidates_wf (rp_candidates self) ->
  replay_records anchor vc verifier policy stored self = Ok self' -> candidates_wf (rp_candidates self').
Proof.
  revert self. induction stored as [|r stored IH]; intros self Hp Hw Hc; [by intros [= <-]|].
  rewrite fmap_cons in *. cbn [replay_records]. apply Forall_cons in Hw as [Hr Hw].
  destruct (replay_record _ _ _ _ r self) as [self1|e] eqn:Hrec; cbn [mbind result_bind]; [|done].
  destruct (replay_record_facts _ _ _ Hp Hr Hc Hrec) as (_ & Hp' & Hc' & _). by apply IH.
Qed.

(** The loop runs exactly the histories of the abstract ledger. *)
Lemma replay_records_sound stored (self self' : Replay) :
  position_inv (rp_state self, rp_chain self) -> Forall record_wf (sr_record <$> stored) ->
  candidates_wf (rp_candidates self) ->
  replay_records anchor vc verifier policy stored self = Ok self' ->
  records_run (rp_state self, rp_chain self) (sr_record <$> stored) (rp_state self', rp_chain self').
Proof.
  revert self. induction stored as [|r stored IH]; intros self Hp Hw Hc.
  { intros [= <-]. constructor. }
  rewrite fmap_cons in *. cbn [replay_records]. apply Forall_cons in Hw as [Hr Hw].
  destruct (replay_record _ _ _ _ r self) as [self1|e] eqn:Hrec; cbn [mbind result_bind]; [|done].
  destruct (replay_record_facts _ _ _ Hp Hr Hc Hrec) as (Hstep & Hp' & Hc' & _). intros Hrun.
  by eapply records_cons, IH.
Qed.

Lemma records_run_sequence p rs p' : records_run p rs p' -> next_sequence p.2 <= next_sequence p'.2.
Proof. induction 1 as [|p r p1 rs p2 Hs _ IH]; [lia|]. destruct Hs. cbn in *. lia. Qed.

Lemma replay_records_complete stored (self : Replay) p' :
  position_inv (rp_state self, rp_chain self) -> Forall record_wf (sr_record <$> stored) ->
  candidates_wf (rp_candidates self) ->
  records_run (rp_state self, rp_chain self) (sr_record <$> stored) p' ->
  exists recovered candidates,
    replay_records anchor vc verifier policy stored self =
    Ok (mk_Replay p'.1 p'.2 (terminal_hash (rp_terminal_record_hash self) (sr_record <$> stored))
          recovered candidates) /\
    (forall n, next_sequence p'.2 <= n -> candidates !! n = rp_candidates self !! n) /\
    (rp_candidates self = ∅ -> recovered = rp_recovered_checkpoint_sequence self).
Proof.
  revert self. induction stored as [|r stored IH]; intros self Hp Hw Hc.
  { inversion 1; subst. destruct self. by eexists _, _. }
  rewrite fmap_cons in *. cbn [replay_records]. apply Forall_cons in Hw as [Hr Hw].
  rewrite terminal_hash_cons. inversion 1 as [|? ? p1 ? ? Hs1 Hrun]; subst.
  pose proof (replay_record_step _ _ _ Hp Hr Hc Hs1) as Hrec.
  destruct (replay_record_facts _ _ _ Hp Hr Hc Hrec) as (_ & Hp' & Hc' & _).
  rewrite Hrec. cbn [mbind result_bind].
  destruct (IH _ Hp' Hw Hc' ltac:(by destruct p1)) as (recovered & cs & Hrs & Hlook & Hnone).
  eexists _, _. split; [exact Hrs|]. cbn in Hlook, Hnone. split.
  - intros n Hn. rewrite Hlook by done. rewrite lookup_delete_ne; [done|].
    apply records_run_sequence in Hrun. destruct Hs1 as [? ? _ _ Hseq _ _ _ _]. cbn in *. lia.
  - intros He. unfold confirmed in Hnone. rewrite He, lookup_empty, delete_empty in Hnone. auto.
Qed.

(** ** Opening *)

Context (initial : LedgerState).

Definition genesis_position : position := (initial, chain_new (ca_genesis_state_id anchor)).

(** The records of a log and the position they lead to. *)
Record ledger_history (records : list TransactionRecord) (p : position) : Prop := mk_ledger_history {
  lh_wf : Forall record_wf records;
  lh_size : len (record_bytes records) <= U64_MAX;
  lh_run : records_run genesis_position records p
}.

(** The coordinator that stands at the end of a log. *)
Definition tip (records : list TransactionRecord) (p : position) (recovered : option Z) : PersistentLedger :=
  mk_PersistentLedger p.1 anchor vc (record_bytes records) p.2 (terminal_hash None records) recovered true.

(** The answer of the checkpoint store, if one is used, as a map by sequence. *)
Definition candidates_answer
    (candidates : option (Result (option CheckpointStoreError) (list CheckpointReceipt)))
    (by_sequence : gmap Z CheckpointReceipt) : Prop :=
  exists found,
    (candidates = None /\ found = None \/ exists cs, candidates = Some (Ok cs) /\ found = Some cs) /\
    checkpoint_candidates_by_sequence found = Ok by_sequence /\ candidates_wf by_sequence.

Lemma no_candidates : candidates_answer None ∅.
Proof. exists None. split_and!; [by left|done|]. apply map_Forall_empty. Qed.

Lemma records_of_placed o records : sr_record <$> placed_records o records = records.
Proof.
  revert o. induction records as [|r records IH]; intros o; [done|]. cbn [placed]. rewrite fmap_cons.
  by rewrite IH.
Qed.

Lemma check_anchor_state :
  check_anchor anchor vc verifier policy initial = Ok tt ->
  state_id initial (ca_genesis_id anchor) = ca_genesis_state_id anchor.
Proof. unfold check_anchor. intros Hc. inv_ok. by zbool. Qed.

Lemma genesis_inv :
  ledger_inv initial -> check_anchor anchor vc verifier policy initial = Ok tt -> position_inv genesis_position.
Proof. intros Hi Hc. split; cbn; [done|by apply check_anchor_state|done]. Qed.

Section Opening.
Context (Hinv : ledger_inv initial) (Hanchor : check_anchor anchor vc verifier policy initial = Ok tt).

(** The part of [open_internal] before the replay. *)
Lemma open_internal_eq io candidates by_sequence file :
  candidates_answer candidates by_sequence ->
  open_internal anchor vc verifier policy io initial candidates file =
  match record_log_scan file with
  | Err e => (Err (Some (PersistentLedgerError.RecordLog e)), file)
  | Ok (stored, tail) =>
      match replay_records anchor vc verifier policy stored
              (mk_Replay initial (chain_new (ca_genesis_state_id anchor)) None None by_sequence) with
      | Err e => (Err e, file)
      | Ok replay =>
          let opened file := mk_PersistentLedger (rp_state replay) anchor vc file (rp_chain replay)
            (rp_terminal_record_hash replay) (rp_recovered_checkpoint_sequence replay) true in
          match tail with
          | None => (Ok (opened file), file)
          | Some tail =>
              match record_log_truncate io tail file with
              | (Ok _, file') => (Ok (opened file'), file')
              | (Err e, file') => (Err (Some (PersistentLedgerError.RecordLog e)), file')
              end
          end
      end
  end.
Proof.
  intros (found & Hfound & Hby & _). unfold open_internal. msimpl. rewrite Hanchor. cbn [map_err]. msimpl.
  destruct (record_log_scan file) as [[stored tail]|e]; cbn [map_err fst snd]; msimpl; [|done].
  assert (Hans : match candidates with
    | None => Ok None
    | Some found => Some <$> map_err (fun e => PersistentLedgerError.CheckpointStore <$> e) found
    end = (Ok found : Result Failure (option (list CheckpointReceipt)))).
  { by destruct Hfound as [[-> ->]|(cs & -> & ->)]. }
  rewrite Hans, Hby. cbn [map_err]. msimpl.
  destruct (replay_records _ _ _ _ _ _) as [replay|e]; [|done].
  destruct tail as [tail|]; [|done]. unfold on_record_log. rewrite M_bind_eq.
  by destruct (record_log_truncate io tail file) as [[u|e] file'].
Qed.

Lemma open_internal_holds io records p tail torn candidates by_sequence :
  ledger_history records p -> record_tail records tail torn -> candidates_answer candidates by_sequence ->
  exists recovered, (by_sequence = ∅ -> recovered = None) /\
    open_internal anchor vc verifier policy io initial candidates (record_bytes records ++ torn) =
    match tail, io with
    | None, _ | Some _, TruncateSucceeds => (Ok (tip records p recovered), record_bytes records)
    | Some _, SetLenFails =>
        (Err (Some (PersistentLedgerError.RecordLog
               (RecordLogError.Io "remove verified incomplete state-record-log tail"))),
         record_bytes records ++ torn)
    | Some _, SyncAllFails =>
        (Err (Some (PersistentLedgerError.RecordLog (RecordLogError.Io "sync recovered state-record log"))),
         record_bytes records)
    end.
Proof.
  intros [Hw Hl Hrun] Ht Hc. rewrite (open_internal_eq _ _ _ _ Hc).
  assert (Hs : Forall (storable record_format record_kind) records).
  { eapply Forall_impl; [exact Hw|]. apply record_storable. }
  unfold record_log_scan, record_scan_frames. rewrite (scan_frames_holds _ record_kind _ tail) by done.
  rewrite <-(records_of_placed 0 records) in Hrun.
  apply (replay_records_complete (placed_records 0 records)
    (mk_Replay initial (chain_new (ca_genesis_state_id anchor)) None None by_sequence)) in Hrun
    as (recovered & cs & Hrep & _ & Hnone).
  2:{ by apply genesis_inv. }
  2:{ by rewrite records_of_placed. }
  2:{ by destruct Hc as (_ & _ & _ & Hcw). }
  rewrite Hrep. cbn [rp_terminal_record_hash]. rewrite records_of_placed. cbv zeta.
  exists recovered. split; [done|]. destruct tail as [t|]; [|by rewrite Ht, app_nil_r].
  rewrite (record_log_truncate_holds io records t torn) by done. by destruct io.
Qed.

(** A successful opening has found a history. *)
Lemma open_internal_sound io candidates by_sequence file pl file' :
  len file <= U64_MAX -> candidates_answer candidates by_sequence ->
  open_internal anchor vc verifier policy io initial candidates file = (Ok pl, file') ->
  exists records p tail torn recovered, ledger_history records p /\ record_tail records tail torn /\
    (tail = None \/ io = TruncateSucceeds) /\
    file = record_bytes records ++ torn /\ file' = record_bytes records /\ pl = tip records p recovered /\
    (by_sequence = ∅ -> recovered = None).
Proof.
  intros Hlen Hc Hopen. pose proof Hopen as Hopen0. rewrite (open_internal_eq _ _ _ _ Hc) in Hopen.
  destruct (record_log_scan file) as [[stored tail]|e] eqn:Hscan; [|done].
  apply (scan_frames_Ok _ record_kind) in Hscan as (records & torn & -> & Hs & -> & Ht); [|done].
  destruct (replay_records _ _ _ _ _ _) as [[s chain terminal recovered cs]|e] eqn:Hrep; [|done].
  assert (Hw : Forall record_wf records) by (eapply Forall_impl; [exact Hs|]; by intros r [? _]).
  assert (Hl : len (record_bytes records) <= U64_MAX) by (rewrite length_app in Hlen; lia).
  apply replay_records_sound in Hrep as Hrun;
    [|by apply genesis_inv|by rewrite records_of_placed|by destruct Hc as (_ & _ & _ & Hcw)].
  rewrite records_of_placed in Hrun.
  assert (Hh : ledger_history records (s, chain)) by by split.
  destruct (open_internal_holds io records (s, chain) tail torn candidates by_sequence Hh Ht Hc)
    as (recovered' & Hnone & Hholds).
  rewrite Hholds in Hopen0. exists records, (s, chain), tail, torn, recovered'.
  destruct tail as [t|], io; simplify_eq; split_and!; auto.
Qed.

(** ** Applying *)

Lemma check_anchor_components :
  check_anchor anchor vc verifier policy initial = Ok tt ->
  ensure_validation_components anchor verifier policy = Ok tt.
Proof. unfold check_anchor. intros Hc. inv_ok. by destruct_units. Qed.

(** The validation of an apply produces exactly the records of the transaction
    that take a step. *)
Lemma prepare_record_step records p recovered tx r p' :
  ledger_history records p -> tx_range tx ->
  prepare_record (tip records p recovered) tx verifier policy = Ok (r, p'.1, p'.2) <->
  record_wf r /\ bytes_of_tx (rec_transaction_bytes r) tx /\ record_step p r p'.
Proof.
  intros [_ _ Hrun] Hrange. pose proof (records_run_inv _ _ _ (genesis_inv Hinv Hanchor) Hrun) as [Hl Hs Hq].
  unfold prepare_record. cbn [tip pl_anchor pl_validation_context pl_chain pl_state].
  rewrite (check_anchor_components Hanchor). cbn [mbind result_bind]. unfold ensure_transaction_suite. split.
  - case_bool_decide as Hsuite; cbn [mbind result_bind]; [|done].
    destruct (encode_transaction tx) as [bs|] eqn:He; cbn [map_err mbind result_bind]; [|done].
    assert (Hb : bytes_of_tx bs tx) by by split.
    destruct (transaction_intent_id tx) as [i|] eqn:Hi; cbn [map_err mbind result_bind]; [|done].
    destruct (apply tx verifier policy _ p.1) as [[u|e] s'] eqn:Hap; cbn [map_err mbind result_bind]; [|done].
    apply apply_Ok_step in Hap; [|done|by eapply bytes_of_tx_amount].
    destruct (record_new _ _ _ _) as [r'|] eqn:Hnew; cbn [map_err mbind result_bind]; [|done].
    apply record_new_Ok in Hnew as (tx' & i' & Hb' & Hi' & ->).
    rewrite (bytes_of_tx_unique _ _ _ Hb' Hb) in Hi'. assert (i' = i) as -> by congruence.
    rewrite chain_apply_cases. cbn [rec_sequence rec_previous_state_id rec_resulting_state_id].
    rewrite decide_True by done. case_decide as Hn; cbn [map_err mbind result_bind]; [|done].
    destruct p' as [s1 c1]. intros [= <- <- <-]. split_and!; [|done|].
    + split; cbn; [unfold in_range; lia|]. by exists tx.
    + by apply (mk_record_step p (mk_TransactionRecord _ _ bs i (state_id s' _) _) tx s').
  - intros ((_ & tx1 & Hb1 & Hi & Hh) & Hb & [tx2 s' Hb2 Hsuite Hseq Hprev Hn Hstep Hres]).
    rewrite (bytes_of_tx_unique _ _ _ Hb1 Hb) in Hi. rewrite (bytes_of_tx_unique _ _ _ Hb2 Hb) in *.
    rewrite bool_decide_eq_true_2 by done. cbn [mbind result_bind].
    rewrite (proj2 Hb). cbn [map_err mbind result_bind]. rewrite Hi. cbn [map_err mbind result_bind].
    rewrite (ledger_step_apply _ _ _ _ _ _ Hl (bytes_of_tx_amount _ _ Hb) Hstep).
    cbn [map_err mbind result_bind]. rewrite <-Hres, <-Hseq, <-Hprev.
    rewrite (proj2 (record_new_Ok _ _ _ _ r)).
    2:{ exists tx, (rec_transaction_intent_id r). split_and!; [done..|]. rewrite <-Hh. by destruct r. }
    cbn [map_err mbind result_bind]. rewrite chain_apply_cases, !decide_True by done.
    cbn [map_err mbind result_bind fst snd]. by rewrite Hseq.
Qed.

Lemma ledger_history_snoc records p r p' :
  ledger_history records p -> record_wf r -> record_step p r p' ->
  len (record_bytes (records ++ [r])) <= U64_MAX -> ledger_history (records ++ [r]) p'.
Proof.
  intros [Hw _ Hrun] Hr Hs Hl. split; [|done|by eapply records_run_snoc].
  apply Forall_app_2; [done|by constructor].
Qed.

(** Room for one more record. *)
Definition log_room (records : list TransactionRecord) : Prop :=
  len (record_bytes records) + FRAME_HEADER_LENGTH + MAX_RECORD_FRAME_PAYLOAD_LENGTH +
  FRAME_CHECKSUM_LENGTH <= U64_MAX.

Lemma room_snoc records r :
  log_room records -> record_wf r -> len (record_bytes (records ++ [r])) <= U64_MAX.
Proof.
  unfold log_room. intros Hroom Hr. destruct (record_storable r Hr) as [_ Hm].
  cbn [ff_maximum record_format] in Hm.
  rewrite log_bytes_snoc, length_app, Nat2Z.inj_add, (length_entry_frame _ record_kind).
  unfold FRAME_HEADER_LENGTH, FRAME_CHECKSUM_LENGTH in *. lia.
Qed.

(** What a log holds after an append of the record of a step. *)
Lemma appended_history records p r p' io (answer : Result RecordLogError Z) file :
  ledger_history records p -> record_wf r -> record_step p r p' -> log_room records ->
  append_record io r (record_bytes records) = (answer, file) ->
  exists kept q, ledger_history kept q /\
    ledger_open anchor vc verifier policy TruncateSucceeds initial file =
      (Ok (tip kept q None), record_bytes kept) /\
    (kept = records /\ q = p \/ kept = records ++ [r] /\ q = p') /\
    match answer with
    | Ok offset => offset = len (record_bytes records) /\ kept = records ++ [r] /\ q = p' /\
        file = record_bytes kept
    | Err _ => True
    end.
Proof.
  intros Hh Hr Hstep Hroom Happ. pose proof Hh as [Hw Hl _].
  pose proof (room_snoc _ _ Hroom Hr) as Hsize. pose proof (ledger_history_snoc _ _ _ _ Hh Hr Hstep Hsize) as Hh'.
  rewrite append_record_wf in Happ by done.
  apply (write_frame_appended _ record_kind) in Happ as [Happ Hoff]; [|by apply record_storable].
  apply (appended_holds _ record_kind) in Happ
    as (kept & tail & torn & _ & -> & Ht & _ & Hkept & Hok);
    [|eapply Forall_impl; [exact Hw|apply record_storable]|by apply record_storable|done].
  assert (Hq : exists q, ledger_history kept q /\
    (kept = records /\ q = p \/ kept = records ++ [r] /\ q = p')).
  { destruct Hkept as [->|[-> _]]; [exists p|exists p']; auto. }
  destruct Hq as (q & Hhq & Hcase). exists kept, q.
  destruct (open_internal_holds TruncateSucceeds kept q tail torn None ∅ Hhq Ht no_candidates)
    as (recovered & Hnone & Hopen).
  split; [done|]. split; [|split; [done|]].
  - unfold ledger_open. rewrite Hopen, (Hnone eq_refl). by destruct tail.
  - destruct answer as [offset|]; [|done]. specialize (Hok eq_refl) as ->.
    destruct Hkept as [He|[_ ->]]; [by apply (f_equal length) in He; rewrite length_app in He; cbn in He; lia|].
    cbn in Ht. subst torn. rewrite app_nil_r. split_and!; try done.
    destruct Hcase as [[He _]|[_ ->]]; [|done].
    apply (f_equal length) in He. rewrite length_app in He. cbn in He. lia.
Qed.

End Opening.

End Replays.

(** ** Checkpoints by sequence *)

(** Every candidate is in the map under its sequence, and nothing else is. *)
Lemma candidates_loop_Ok cs by_sequence m :
  candidates_loop by_sequence cs = Ok m ->
  (forall n r, by_sequence !! n = Some r -> m !! n = Some r) /\
  (forall n r, m !! n = Some r -> by_sequence !! n = Some r \/ r ∈ cs) /\
  (forall r, r ∈ cs -> exists r', m !! ck_sequence (cr_checkpoint r) = Some r' /\
     cr_checkpoint r' = cr_checkpoint r).
Proof.
  revert by_sequence. induction cs as [|c cs IH]; intros by_sequence; cbn [candidates_loop].
  { intros [= <-]. split_and!; [done|by left|by intros r ?%not_elem_of_nil]. }
  destruct (by_sequence !! _) as [first|] eqn:Hlook.
  - case_bool_decide as Heq; [|done]. intros (H1 & H2 & H3)%IH. split_and!; [done| |].
    + intros n r Hm. destruct (H2 n r Hm); [by left|]. right. by constructor.
    + intros r [->|Hr]%elem_of_cons; [|by apply H3]. exists first. split; [by apply H1|done].
  - intros (H1 & H2 & H3)%IH. split_and!.
    + intros n r Hb. apply H1. rewrite lookup_insert_ne; [done|congruence].
    + intros n r Hm. destruct (H2 n r Hm) as [Hb|]; [|right; by constructor].
      apply lookup_insert_Some in Hb as [[_ <-]|[_ Hb]]; [right; constructor|by left].
    + intros r [->|Hr]%elem_of_cons; [|by apply H3]. exists c. split; [|done]. apply H1.
      by rewrite lookup_insert_eq.
Qed.

Lemma candidates_loop_Err cs by_sequence e :
  candidates_loop by_sequence cs = Err e ->
  exists n first second, e = PersistentLedgerError.AmbiguousCheckpoints n first second.
Proof.
  revert by_sequence. induction cs as [|c cs IH]; intros by_sequence; cbn [candidates_loop]; [done|].
  destruct (by_sequence !! _); [|apply IH]. case_bool_decide; [apply IH|]. intros [= <-]. by eauto.
Qed.

Lemma candidates_found `{Sha2} cs m :
  Forall (fun r => checkpoint_wf (cr_checkpoint r)) cs -> candidates_loop ∅ cs = Ok m ->
  candidates_answer (Some (Ok cs)) m.
Proof.
  intros Hw Hm. exists (Some cs). split_and!; [by eauto|done|]. intros n r Hr.
  destruct (candidates_loop_Ok _ _ _ Hm) as (_ & Hin & _).
  destruct (Hin n r Hr) as [He|Hr']; [by rewrite lookup_empty in He|]. rewrite Forall_forall in Hw. by apply Hw.
Qed.

(** How [open_with_checkpoints] refuses a directory. *)
Definition refusal (found : Result (option CheckpointStoreError) (list CheckpointReceipt)) (e : Failure) : Prop :=
  (exists e', found = Err (Some e') /\ e = Some (PersistentLedgerError.CheckpointStore e')) \/
  (exists n first second, e = Some (PersistentLedgerError.AmbiguousCheckpoints n first second)).

Section Checkpoints.
Context `{Sha2} (anchor : ChainAnchor) (vc : ValidationContext) (verifier : ProofVerifier)
  (policy : MintPolicy) (initial : LedgerState).

Lemma open_internal_scan_Err io candidates file e :
  check_anchor anchor vc verifier policy initial = Ok tt -> record_log_scan file = Err e ->
  open_internal anchor vc verifier policy io initial candidates file =
  (Err (Some (PersistentLedgerError.RecordLog e)), file).
Proof. intros Ha Hs. unfold open_internal. msimpl. rewrite Ha. cbn [map_err]. msimpl. by rewrite Hs. Qed.

Lemma open_internal_anchor_Err io candidates file e :
  check_anchor anchor vc verifier policy initial = Err e ->
  open_internal anchor vc verifier policy io initial candidates file = (Err (Some e), file).
Proof. intros Ha. unfold open_internal. msimpl. by rewrite Ha. Qed.

Lemma answer_or_refusal found :
  check_anchor anchor vc verifier policy initial = Ok tt ->
  match found with
  | Ok cs => Forall (fun r => checkpoint_wf (cr_checkpoint r)) cs
  | Err e => is_Some e
  end ->
  (exists by_sequence, candidates_answer (Some found) by_sequence) \/
  (exists e, refusal found e /\ forall io file scan, record_log_scan file = Ok scan ->
     open_internal anchor vc verifier policy io initial (Some found) file = (Err e, file)).
Proof.
  intros Ha Hw. destruct found as [cs|e].
  - destruct (candidates_loop ∅ cs) as [m|e] eqn:Hm; [left; exists m; by apply candidates_found|].
    right. exists (Some e). destruct (candidates_loop_Err _ _ _ Hm) as (n & first & second & ->).
    split; [right; by eauto|]. intros io file scan Hs. unfold open_internal. msimpl. rewrite Ha. cbn [map_err].
    msimpl. rewrite Hs. cbn [map_err]. msimpl. unfold checkpoint_candidates_by_sequence.
    cbn [map_err fmap result_fmap default from_option]. msimpl. cbn. by rewrite Hm.
  - right. destruct Hw as [e' ->]. exists (Some (PersistentLedgerError.CheckpointStore e')).
    split; [left; by eauto|]. intros io file scan Hs. unfold open_internal. msimpl. rewrite Ha. cbn [map_err].
    msimpl. by rewrite Hs.
Qed.

Lemma replay_records_app a b self :
  replay_records anchor vc verifier policy (a ++ b) self =
  (self' ← replay_records anchor vc verifier policy a self;
   replay_records anchor vc verifier policy b self').
Proof.
  revert self. induction a as [|r a IH]; intros self; [done|]. cbn [app replay_records].
  by destruct (replay_record _ _ _ _ r self); cbn [mbind result_bind].
Qed.

(** The checkpoint of the state after a record confirms it. *)
Lemma checkpoint_confirms c r s snap :
  ledger_inv s -> snapshot s = Some snap ->
  checkpoint_from_snapshot anchor (rec_sequence r) (rec_record_hash r) snap = Ok (cr_checkpoint c) ->
  rec_resulting_state_id r = state_id s (ca_genesis_id anchor) ->
  restore_verified_checkpoint_at_record c r s anchor = Ok (Some s).
Proof.
  intros Hs Hsnap Hc Hres. unfold restore_verified_checkpoint_at_record.
  destruct (from_snapshot_restores _ _ _ _ _ _ Hs Hsnap Hc) as (_ & _ & _ & Hseq & Hh & _ & Hr).
  rewrite Hr, Hseq, Hh, Z.eqb_refl. apply restore_state_Ok in Hr as (_ & _ & _ & _ & Hst).
  rewrite Hst, Hres, !bool_decide_eq_true_2 by done. cbn [negb orb]. rewrite Hsnap.
  cbn [ok_or mbind result_bind]. by rewrite bool_decide_eq_true_2.
Qed.

(** Replaying a log whose last record a candidate is the checkpoint of. *)
Lemma replay_confirmed offset records r p by_sequence snap c :
  position_inv anchor (initial, chain_new (ca_genesis_state_id anchor)) ->
  Forall record_wf (records ++ [r]) -> candidates_wf by_sequence ->
  records_run anchor vc verifier policy (genesis_position anchor initial) (records ++ [r]) p ->
  snapshot p.1 = Some snap ->
  checkpoint_from_snapshot anchor (current_sequence p.2) (rec_record_hash r) snap = Ok (cr_checkpoint c) ->
  by_sequence !! current_sequence p.2 = Some c ->
  exists candidates,
    replay_records anchor vc verifier policy (placed_records offset (records ++ [r]))
      (mk_Replay initial (chain_new (ca_genesis_state_id anchor)) None None by_sequence) =
    Ok (mk_Replay p.1 p.2 (Some (rec_record_hash r)) (Some (current_sequence p.2)) candidates).
Proof.
  intros Hg [Hw [Hr _]%Forall_cons]%Forall_app Hc Hrun Hsnap Hfrom Hlook.
  apply records_run_app in Hrun as (p1 & Hrun & Hone). inversion Hone as [|? ? p2 ? ? Hstep Hnil]; subst.
  inversion Hnil; subst. pose proof (records_run_inv _ _ _ _ _ _ _ Hg Hrun) as Hp1.
  pose proof (record_step_inv _ _ _ _ _ _ _ Hp1 Hstep) as Hp.
  rewrite placed_app, replay_records_app. rewrite <-(records_of_placed offset records) in Hrun.
  eapply (replay_records_complete _ _ _ _ _ (mk_Replay initial _ None None by_sequence)) in Hrun
    as (recovered & cs & Hrep & Hlooks & _); [|exact Hg|by rewrite records_of_placed|done].
  apply replay_records_candidates in Hrep as Hcs; [|exact Hg|by rewrite records_of_placed|done].
  rewrite Hrep. cbn [mbind result_bind placed replay_records].
  assert (Hseq : rec_sequence r = current_sequence p.2 /\ next_sequence p1.2 = rec_sequence r).
  { destruct Hstep as [? ? _ _ Hs _ _ _ _]. unfold current_sequence. cbn. lia. }
  destruct Hseq as [Hseq Hnext]. rewrite <-Hseq in *.
  rewrite (replay_record_step _ _ _ _ _ (mk_Replay p1.1 p1.2 _ recovered cs) p); cbn; [|by destruct p1|done..|by destruct p1].
  eexists. do 2 f_equal. unfold confirmed. cbn [rp_candidates] in *. rewrite Hlooks by lia. rewrite Hlook.
  rewrite (checkpoint_confirms _ _ _ snap); [done|exact (pos_ledger _ _ Hp)|done..|].
  by destruct Hstep.
Qed.

(** A replay with checkpoints and the one without. *)
Lemma replay_without stored by_sequence :
  position_inv anchor (initial, chain_new (ca_genesis_state_id anchor)) ->
  Forall record_wf (sr_record <$> stored) -> candidates_wf by_sequence ->
  let replay := replay_records anchor vc verifier policy stored in
  let start := mk_Replay initial (chain_new (ca_genesis_state_id anchor)) None None in
  match replay (start by_sequence) with
  | Ok a => exists cs, replay (start ∅) =
      Ok (mk_Replay (rp_state a) (rp_chain a) (rp_terminal_record_hash a) None cs)
  | Err e => is_Some e /\ replay (start ∅) = Err e
  end.
Proof.
  intros Hg Hw Hc replay start.
  assert (Hempty : candidates_wf ∅) by apply map_Forall_empty.
  pose proof (replay_records_same anchor vc verifier policy stored (start by_sequence) (start ∅)
    Hg Hw Hc Hempty ltac:(done)) as Hsame. fold replay in Hsame. unfold same_answer in Hsame.
  destruct (replay (start by_sequence)) as [a|e], (replay (start ∅)) as [b|e'] eqn:Hb; try done.
  - apply replay_records_sound in Hb as Hrun; [|done..].
    apply replay_records_complete in Hrun as (recovered & cs & Hrep & _ & Hnone); [|done..].
    fold replay in Hrep. rewrite Hb in Hrep. destruct b as [s c t n cs']. injection Hrep as Ht Hr Hcs.
    destruct Hsame as (-> & -> & ->). exists cs'. by rewrite Hr, (Hnone eq_refl).
  - destruct Hsame as [-> ?]. done.
Qed.

(** What a reported publication has written. *)
Lemma publish_checkpoint_Ok records p recovered io cleanup_fails pid n directory receipt entries :
  ledger_inv p.1 ->
  publish_checkpoint io cleanup_fails (temporary_name pid n) (tip anchor vc records p recovered) directory =
    (Ok receipt, Directory entries) ->
  exists rest r snap c, records = rest ++ [r] /\ snapshot p.1 = Some snap /\
    checkpoint_from_snapshot anchor (current_sequence p.2) (rec_record_hash r) snap = Ok c /\
    entries !! final_name c = Some (RegularFile (checkpoint_bytes c)).
Proof.
  intros Hs. unfold publish_checkpoint. msimpl.
  cbn [tip pl_terminal_record_hash pl_state pl_anchor pl_chain]. unfold terminal_hash.
  destruct records as [|r rest _] using rev_ind; [done|]. rewrite last_snoc. cbn [ok_or]. msimpl.
  destruct (snapshot p.1) as [snap|] eqn:Hsnap; cbn [ok_or]; msimpl; [|done].
  destruct (checkpoint_from_snapshot _ _ _ _) as [c|] eqn:Hfrom; cbn [map_err]; msimpl; [|done].
  unfold on_directory. destruct (publish _ _ _ _ _) as [[rc|e] d] eqn:Hpub; cbn [map_err]; [|done].
  intros [= <- ->].
  pose proof (from_snapshot_restores _ _ _ _ _ _ Hs Hsnap Hfrom) as (Hcw & _).
  apply publish_Ok in Hpub as (_ & es & [= ->] & He); [|done|].
  - by exists rest, r, snap, c.
  - intros Heq. pose proof (temporary_name_not_candidate pid n) as Ht.
    by rewrite Heq, final_name_candidate in Ht.
Qed.

End Checkpoints.

(** ** Properties *)

(** C9: the durable ledger refines the abstract one.  [open] accepts exactly the
    logs that are the frames of a history from genesis, possibly followed by a
    partial frame that it can cut, and stands at the end of that history, with
    the cut log on disk. *)
Theorem ledger_open_exact `{Sha2} anchor vc verifier policy initial io file pl file' :
  ledger_inv initial -> check_anchor anchor vc verifier policy initial = Ok tt -> len file <= U64_MAX ->
  ledger_open anchor vc verifier policy io initial file = (Ok pl, file') <->
  exists records p tail torn,
    ledger_history anchor vc verifier policy initial records p /\ record_tail records tail torn /\
    (tail = None \/ io = TruncateSucceeds) /\ file = record_bytes records ++ torn /\
    file' = record_bytes records /\ pl = tip anchor vc records p None.
Proof.
  intros Hinv Ha Hl. split.
  - intros Hopen. eapply open_internal_sound in Hopen
      as (records & p & tail & torn & recovered & Hh & Ht & Hio & -> & -> & -> & Hnone);
      [|done..|apply no_candidates].
    exists records, p, tail, torn. by rewrite (Hnone eq_refl).
  - intros (records & p & tail & torn & Hh & Ht & Hio & -> & -> & ->).
    destruct (open_internal_holds _ _ _ _ _ Hinv Ha io _ _ _ _ _ _ Hh Ht no_candidates)
      as (recovered & Hnone & Hopen).
    unfold ledger_open. rewrite Hopen, (Hnone eq_refl). destruct tail, io; naive_solver.
Qed.

(** C21: checkpoints confirm and never decide.  Whatever the checkpoint directory
    holds and whatever reading it answers, opening with checkpoints either
    refuses the directory and leaves the log alone, or does exactly what opening
    without them does, apart from the sequence it reports; it never panics. *)
Theorem checkpoints_only_confirm `{Sha2} anchor vc verifier policy initial io entry_io listing directory
    file r file' :
  ledger_inv initial -> len file <= U64_MAX ->
  open_with_checkpoints anchor vc verifier policy io entry_io listing directory initial file = (r, file') ->
  match r with
  | Ok pl =>
      ledger_open anchor vc verifier policy io initial file =
      (Ok (mk_PersistentLedger (pl_state pl) (pl_anchor pl) (pl_validation_context pl) (pl_record_log pl)
             (pl_chain pl) (pl_terminal_record_hash pl) None (pl_writes_available pl)), file')
  | Err e => is_Some e /\
      (ledger_open anchor vc verifier policy io initial file = (Err e, file') \/
       refusal (load_candidates entry_io listing directory) e /\ file' = file)
  end.
Proof.
  intros Hinv Hl. unfold open_with_checkpoints, ledger_open.
  destruct (check_anchor anchor vc verifier policy initial) as [[]|e] eqn:Ha.
  2:{ rewrite !(open_internal_anchor_Err _ _ _ _ _ _ _ _ _ Ha). intros [= <- <-]. split; [by eexists|by left]. }
  destruct (record_log_scan file) as [scan|e] eqn:Hscan.
  2:{ rewrite !(open_internal_scan_Err _ _ _ _ _ _ _ _ _ Ha Hscan). intros [= <- <-].
      split; [by eexists|by left]. }
  destruct (answer_or_refusal anchor vc verifier policy initial _ Ha
    (load_candidates_wf entry_io listing directory)) as [[m Hc]|(e & Hr & Hopen)].
  2:{ rewrite (Hopen _ _ _ Hscan). intros [= <- <-]. split; [|by right].
      destruct Hr as [(? & _ & ->)|(? & ? & ? & ->)]; by eexists. }
  revert Hscan. rewrite (open_internal_eq _ _ _ _ _ Ha _ _ _ _ Hc).
  rewrite (open_internal_eq _ _ _ _ _ Ha _ _ _ _ no_candidates).
  destruct scan as [stored tail]. intros Hscan. rewrite Hscan.
  apply (scan_frames_Ok _ record_kind) in Hscan as (records & torn & _ & Hs & -> & _); [|done].
  assert (Hw : Forall record_wf (sr_record <$> placed_records 0 records)).
  { rewrite records_of_placed. eapply Forall_impl; [exact Hs|]. by intros rec [? _]. }
  pose proof (replay_without anchor vc verifier policy initial _ m (genesis_inv _ _ _ _ _ Hinv Ha) Hw
    ltac:(by destruct Hc as (_ & _ & _ & ?))) as Hreplay. cbv zeta in Hreplay.
  destruct (replay_records _ _ _ _ _ _) as [a|e] eqn:Hrun in Hreplay; rewrite Hrun.
  - destruct Hreplay as [cs ->]. cbv zeta. destruct tail as [t|]; [|by intros [= <- <-]].
    destruct (record_log_truncate io t file) as [[u|e] after]; intros [= <- <-]; [done|].
    split; [by eexists|by left].
  - destruct Hreplay as [He ->]. intros [= <- <-]. split; [done|by left].
Qed.

(** C5: an apply is atomic and durable across crashes.  Whatever call of the
    append fails, and wherever a partial write stops, opening the log again finds
    the history before the transaction or that history and the record of the
    transaction; it finds the record if success was reported, and then the
    coordinator in memory is the reopened one.  A failed append leaves the state
    and disables further writes; every other refusal changes nothing, and is of a
    transaction that no record can take a step with. *)
Theorem ledger_apply_durable `{Sha2} anchor vc verifier policy initial records p recovered io tx r pl' :
  ledger_inv initial -> check_anchor anchor vc verifier policy initial = Ok tt ->
  ledger_history anchor vc verifier policy initial records p -> log_room records -> tx_range tx ->
  ledger_apply io tx verifier policy (tip anchor vc records p recovered) = (r, pl') ->
  exists kept q,
    ledger_open anchor vc verifier policy TruncateSucceeds initial (pl_record_log pl') =
      (Ok (tip anchor vc kept q None), record_bytes kept) /\
    (kept = records /\ q = p \/
     exists record, kept = records ++ [record] /\ bytes_of_tx (rec_transaction_bytes record) tx /\
       record_step anchor vc verifier policy p record q) /\
    match r with
    | Ok receipt => exists record,
        kept = records ++ [record] /\ pl' = tip anchor vc kept q recovered /\
        receipt = mk_PersistentCommitReceipt (rec_sequence record) (rec_transaction_intent_id record)
          (rec_record_hash record) (rec_resulting_state_id record) (len (record_bytes records))
    | Err e =>
        (exists e', e = PersistentLedgerError.RecordLog e' /\ io <> AppendSucceeds /\
           pl_state pl' = p.1 /\ pl_chain pl' = p.2 /\ pl_writes_available pl' = false) \/
        (pl' = tip anchor vc records p recovered /\
         ~ exists record q', record_wf record /\ bytes_of_tx (rec_transaction_bytes record) tx /\
             record_step anchor vc verifier policy p record q')
    end.
Proof.
  intros Hinv Ha Hh Hroom Hrange.
  pose proof (fun rec q => prepare_record_step _ _ _ _ _ Hinv Ha records p recovered tx rec q Hh Hrange) as Hprep.
  unfold ledger_apply. cbn [tip pl_writes_available negb].
  destruct (prepare_record _ tx verifier policy) as [[[rec s'] c']|e] eqn:Hp.
  - destruct (proj1 (Hprep rec (s', c')) eq_refl) as (Hw & Hb & Hstep). cbn [pl_record_log tip].
    destruct (append_record io rec (record_bytes records)) as [answer file] eqn:Happ.
    assert (Hio : io = AppendSucceeds -> is_ok answer = true).
    { intros ->. rewrite append_record_wf in Happ by done. by injection Happ as <- _. }
    apply (appended_history _ _ _ _ _ Hinv Ha _ _ _ _ _ _ _ Hh Hw Hstep Hroom) in Happ
      as (kept & q & Hhq & Hopen & Hcase & Hans).
    assert (Hkept : kept = records /\ q = p \/ exists record, kept = records ++ [record] /\
      bytes_of_tx (rec_transaction_bytes record) tx /\ record_step anchor vc verifier policy p record q).
    { destruct Hcase as [?|[-> ->]]; [by left|right; by exists rec]. }
    destruct answer as [offset|e]; intros [= <- <-]; exists kept, q; (split; [exact Hopen|split; [exact Hkept|]]).
    + destruct Hans as (-> & -> & -> & ->). exists rec. split_and!; [done| |done].
      unfold tip. cbn. unfold terminal_hash. by rewrite last_snoc.
    + left. exists e. split_and!; [done| |done..]. intros He. by specialize (Hio He).
  - intros [= <- <-]. exists records, p.
    destruct (open_internal_holds _ _ _ _ _ Hinv Ha TruncateSucceeds records p None [] None ∅ Hh eq_refl no_candidates)
      as (recovered' & Hnone & Hopen). rewrite app_nil_r, (Hnone eq_refl) in Hopen.
    split; [exact Hopen|]. split; [by left|]. right. split; [done|]. intros (rec & q' & Hbad).
    by apply Hprep in Hbad.
Qed.

(** a published checkpoint is found and confirmed.  After a reported
    publication, the directory read back in any order, opening with checkpoints
    returns the ledger that published, with its sequence as the recovered one;
    it can only refuse a directory that holds too many checkpoints or two
    different ones for one sequence. *)
Theorem published_checkpoint_confirmed `{Sha2} anchor vc verifier policy initial records p recovered io
    cleanup_fails pid n directory receipt entries truncate listing r file :
  ledger_inv initial -> check_anchor anchor vc verifier policy initial = Ok tt ->
  ledger_history anchor vc verifier policy initial records p ->
  publish_checkpoint io cleanup_fails (temporary_name pid n) (tip anchor vc records p recovered) directory =
    (Ok receipt, Directory entries) ->
  listing ≡ₚ map_to_list entries ->
  open_with_checkpoints anchor vc verifier policy truncate (fun _ => EntryReadable) listing
    (Directory entries) initial (record_bytes records) = (r, file) ->
  file = record_bytes records /\
  match r with
  | Ok pl => pl = tip anchor vc records p (Some (current_sequence p.2))
  | Err e =>
      e = Some (PersistentLedgerError.CheckpointStore
             (CheckpointStoreError.TooManyCandidates MAX_DISCOVERED_CHECKPOINTS)) \/
      exists sequence first second,
        e = Some (PersistentLedgerError.AmbiguousCheckpoints sequence first second)
  end.
Proof.
  intros Hinv Ha Hh Hpub Hperm Hopen. pose proof Hh as [Hw Hl Hrun].
  pose proof (genesis_inv _ _ _ _ _ Hinv Ha) as Hg.
  pose proof (pos_ledger _ _ (records_run_inv _ _ _ _ _ _ _ Hg Hrun)) as Hs.
  destruct (publish_checkpoint_Ok _ _ _ _ _ _ _ _ _ _ _ _ Hs Hpub)
    as (rest & rec & snap & c & -> & Hsnap & Hfrom & Hentry).
  pose proof (from_snapshot_restores _ _ _ _ _ _ Hs Hsnap Hfrom) as (Hcw & _ & _ & Hseq & _).
  assert (Hst : Forall (storable record_format record_kind) (rest ++ [rec]))
    by (eapply Forall_impl; [exact Hw|apply record_storable]).
  pose proof (scan_frames_complete _ record_kind _ Hst Hl) as Hscan.
  unfold open_with_checkpoints in Hopen. pose proof (load_candidates_directory entries listing Hperm) as Hload.
  destruct (answer_or_refusal anchor vc verifier policy initial _ Ha
    (load_candidates_wf (fun _ => EntryReadable) listing (Directory entries))) as [[m Hc]|(e & Hr & Hre)].
  2:{ rewrite (Hre _ _ _ Hscan) in Hopen. injection Hopen as <- <-. split; [done|].
      destruct Hr as [(e' & He & ->)|?]; [left|by right]. rewrite Hload in He.
      destruct (_ <? _) in He; [by injection He as <-|done]. }
  pose proof Hc as (found & [[? _]|(cs & Hcs & ->)] & Hm & Hmw); [done|].
  apply (inj Some) in Hcs. rewrite Hload in Hcs. cbv zeta in Hcs.
  destruct (_ <? _) in Hcs; [done|]. injection Hcs as <-.
  destruct (candidates_loop_Ok _ _ _ Hm) as (_ & _ & Hin).
  destruct (Hin (mk_CheckpointReceipt (final_name c) c)) as (c' & Hlook & Hcc).
  { cbn. rewrite (merge_sort_Permutation receipt_before). apply candidate_of_found.
    split; [apply final_name_candidate|]. by split. }
  cbn [cr_checkpoint] in Hlook, Hcc. rewrite Hseq in Hlook. rewrite <-Hcc in Hfrom.
  destruct (replay_confirmed anchor vc verifier policy initial 0 rest rec p m snap c' Hg Hw Hmw Hrun Hsnap Hfrom Hlook)
    as [left Hreplay].
  rewrite (open_internal_eq _ _ _ _ _ Ha _ _ _ _ Hc) in Hopen. unfold record_log_scan, record_scan_frames in Hopen.
  rewrite Hscan, Hreplay in Hopen. injection Hopen as <- <-. split; [done|].
  unfold tip. cbn. unfold terminal_hash. by rewrite last_snoc.
Qed.

(** ** Witnesses *)

Section Samples.
#[local] Existing Instance toy_sha2.

Definition durable_context : ValidationContext :=
  mk_ValidationContext RESEARCH_V1 (id_of x31) (id_of x32).

Definition durable_anchor : ChainAnchor :=
  mk_ChainAnchor (id_of x01) (context_id durable_context) (id_of x31) (id_of x32)
    (state_id sample_ledger (id_of x01)).

Definition durable_mint : Transaction :=
  mk_Transaction (id_of x41) RESEARCH_V1
    (OpMint (mk_Mint (id_of x0a) (mk_Amount 700) [id_of x51] [x07])).

Definition durable_genesis : position := genesis_position durable_anchor sample_ledger.

Definition durable_empty : PersistentLedger := tip durable_anchor durable_context [] durable_genesis None.

Lemma durable_anchor_ok :
  check_anchor durable_anchor durable_context accept_verifier accept_policy sample_ledger = Ok tt.
Proof. by_eval. Qed.

Lemma durable_empty_history :
  ledger_history durable_anchor durable_context accept_verifier accept_policy sample_ledger [] durable_genesis.
Proof. split; [constructor|by_eval|constructor]. Qed.

Lemma durable_mint_range : tx_range durable_mint.
Proof. vm_compute. repeat split; discriminate. Qed.

(** The record of the mint and the position after it. *)
Definition durable_first : TransactionRecord * position :=
  match prepare_record durable_empty durable_mint accept_verifier accept_policy with
  | Ok (r, s, c) => (r, (s, c))
  | Err _ => (sample_record 1 x01 x02, durable_genesis)
  end.

Lemma durable_first_step :
  record_wf durable_first.1 /\
  record_step durable_anchor durable_context accept_verifier accept_policy durable_genesis durable_first.1
    durable_first.2.
Proof.
  assert (Hok : is_ok (prepare_record durable_empty durable_mint accept_verifier accept_policy) = true) by by_eval.
  destruct (prepare_record durable_empty durable_mint accept_verifier accept_policy)
    as [[[r s] c]|e] eqn:Hp; [|done].
  pose proof (prepare_record_step _ _ _ _ _ sample_ledger_inv durable_anchor_ok [] durable_genesis None
    durable_mint r (s, c) durable_empty_history durable_mint_range) as Hiff.
  apply Hiff in Hp as Hs. unfold durable_first. rewrite Hp. destruct Hs as (? & _ & ?). by split.
Qed.

Lemma durable_history :
  ledger_history durable_anchor durable_context accept_verifier accept_policy sample_ledger [durable_first.1]
    durable_first.2.
Proof.
  destruct durable_first_step as [Hw Hs].
  apply (ledger_history_snoc _ _ _ _ _ [] durable_genesis durable_first.1); [exact durable_empty_history|done..|].
  by apply (room_snoc []).
Qed.

Lemma ledger_open_exact_witness :
  ledger_open durable_anchor durable_context accept_verifier accept_policy SetLenFails sample_ledger [] =
  (Ok durable_empty, []).
Proof.
  apply (ledger_open_exact durable_anchor durable_context accept_verifier accept_policy sample_ledger
    SetLenFails [] durable_empty [] sample_ledger_inv durable_anchor_ok).
  - by_eval.
  - exists [], durable_genesis, None, []. split; [exact durable_empty_history|].
    split; [reflexivity|]. split; [left; reflexivity|]. split_and!; reflexivity.
Defined.

(** The checkpoint directory is not a directory. *)
Lemma checkpoints_only_confirm_witness :
  exists e, (open_with_checkpoints durable_anchor durable_context accept_verifier accept_policy
    TruncateSucceeds (fun _ => EntryReadable) [] NotADirectory sample_ledger []).1 = Err (Some e).
Proof.
  destruct (open_with_checkpoints durable_anchor durable_context accept_verifier accept_policy
    TruncateSucceeds (fun _ => EntryReadable) [] NotADirectory sample_ledger []) as [r file'] eqn:Ho.
  assert (Hl : len (@nil byte) <= U64_MAX) by by_eval.
  pose proof (checkpoints_only_confirm _ _ _ _ _ _ _ _ _ _ _ _ sample_ledger_inv Hl Ho) as Hr.
  destruct r as [pl|e]; [vm_compute in Ho; discriminate Ho|].
  destruct Hr as [[e' ->] _]. exists e'. reflexivity.
Defined.

(** The write of the record fails after thirty bytes. *)
Lemma ledger_apply_durable_witness :
  exists kept q,
    ledger_open durable_anchor durable_context accept_verifier accept_policy TruncateSucceeds sample_ledger
      (pl_record_log (ledger_apply (WriteFails 30) durable_mint accept_verifier accept_policy durable_empty).2) =
    (Ok (tip durable_anchor durable_context kept q None), record_bytes kept).
Proof.
  destruct (ledger_apply_durable durable_anchor durable_context accept_verifier accept_policy sample_ledger
    [] durable_genesis None (WriteFails 30) durable_mint _ _ sample_ledger_inv durable_anchor_ok
    durable_empty_history ltac:(vm_compute; discriminate) durable_mint_range (surjective_pairing _))
    as (kept & q & Ho & _).
  exists kept, q. exact Ho.
Defined.

Lemma published_checkpoint_confirmed_witness :
  exists entries,
    let '(r, file) := open_with_checkpoints durable_anchor durable_context accept_verifier accept_policy
      TruncateSucceeds (fun _ => EntryReadable) (map_to_list entries) (Directory entries) sample_ledger
      (record_bytes [durable_first.1]) in
    file = record_bytes [durable_first.1].
Proof.
  assert (Hok : match publish_checkpoint PublishSucceeds false (temporary_name 17 0)
    (tip durable_anchor durable_context [durable_first.1] durable_first.2 None) MissingDirectory with
    | (Ok _, Directory _) => true | _ => false end = true) by by_eval.
  destruct (publish_checkpoint _ _ _ _ _) as [[receipt|e] [| |entries]] eqn:Hp; try discriminate Hok.
  exists entries. destruct (open_with_checkpoints _ _ _ _ _ _ _ _ _ _) as [r file] eqn:Ho.
  exact (proj1 (published_checkpoint_confirmed _ _ _ _ _ _ _ _ _ _ _ _ _ _ _ _ _ _ _ sample_ledger_inv
    durable_anchor_ok durable_history Hp (Permutation_refl _) Ho)).
Defined.

End Samples.
