(* ===== verification/BabyBear.v ===== *)
(** * The BabyBear field

    The arithmetic of the Poseidon2 crates ([noxis-poseidon2-core],
    [noxis-poseidon2-reference]) on canonical [u32] elements: the addition with
    one conditional subtraction, the addition and multiplication in [u64] with a
    reduction, and the S-box [x^7], which is a bijection because the modulus is
    prime and 7 does not divide its predecessor. *)

From Stdlib Require Import Znumtheory Zpow_facts.
From S2P Require Import Prelude Privacy.

(** [add] of [noxis-poseidon2-core]: the sum of two [u32] at the width of [u32]. *)
Definition core_add (left right : Z) : Z :=
  let sum := (left + right) mod 2 ^ 32 in
  if BABYBEAR_MODULUS <=? sum then sum - BABYBEAR_MODULUS else sum.

(** [add] of [noxis-poseidon2-reference], in [u64]. *)
Definition field_add (left right : Z) : Z := (left + right) mod BABYBEAR_MODULUS.

(** [multiply], in [u64]. *)
Definition multiply (left right : Z) : Z := (left * right) mod BABYBEAR_MODULUS.

Definition sbox_seven (value : Z) : Z :=
  let square := multiply value value in
  let fourth := multiply square square in
  multiply (multiply fourth square) value.

(** ** Canonical elements *)

Lemma field_add_wf a b : element_wf (field_add a b).
Proof. apply Z.mod_pos_bound. done. Qed.

Lemma multiply_wf a b : element_wf (multiply a b).
Proof. apply Z.mod_pos_bound. done. Qed.

Lemma sbox_seven_wf a : element_wf (sbox_seven a).
Proof. apply multiply_wf. Qed.

(** The sum of canonical elements fits [u32], and the conditional subtraction is
    the reduction. *)
Lemma core_add_canonical a b :
  element_wf a -> element_wf b -> a + b <= U32_MAX /\ core_add a b = field_add a b.
Proof.
  unfold element_wf, core_add, field_add. intros Ha Hb.
  assert (Hp : BABYBEAR_MODULUS = 2013265921) by done. split; [lia|].
  rewrite (Z.mod_small (a + b)) by lia. destruct (Z.leb_spec BABYBEAR_MODULUS (a + b)) as [Hl|Hl].
  - apply (Z.mod_unique _ _ 1); lia.
  - by rewrite Z.mod_small by lia.
Qed.

Lemma element_small a : element_wf a -> a mod BABYBEAR_MODULUS = a.
Proof. apply Z.mod_small. Qed.

Lemma sbox_seven_pow a : sbox_seven a = a ^ 7 mod BABYBEAR_MODULUS.
Proof.
  unfold sbox_seven, multiply. generalize BABYBEAR_MODULUS. intros p.
  assert (Hs : forall x y z, (x mod p * (y mod p) * z) mod p = (x * y * z) mod p).
  { intros x y z. by rewrite (Zmult_mod (x mod p * (y mod p))), <-(Zmult_mod x), <-Zmult_mod. }
  rewrite Zmult_mod_idemp_l, Hs, <-(Z.mul_assoc (_ * _)), Hs. f_equal. ring.
Qed.

(** ** Fermat's little theorem *)

Section Fermat.
Context (p : Z) (Hp : prime p).

Definition product (l : list Z) : Z := foldr Z.mul 1 l.

Lemma product_permutation l1 l2 : l1 ≡ₚ l2 -> product l1 = product l2.
Proof. unfold product. induction 1; cbn; lia || nia. Qed.

Lemma product_scaled a l :
  product ((fun i => (a * i) mod p) <$> l) mod p = (a ^ len l * product l) mod p.
Proof.
  induction l as [|x l IH]; [done|]. rewrite fmap_cons. cbn [product foldr length].
  fold (product ((fun i => (a * i) mod p) <$> l)) (product l).
  rewrite Zmult_mod_idemp_l, Zmult_mod, IH, <-Zmult_mod. f_equal.
  rewrite Nat2Z.inj_succ, Z.pow_succ_r by lia. ring.
Qed.

Lemma product_coprime l : Forall (fun i => ~ (p | i)) l -> ~ (p | product l).
Proof.
  induction 1 as [|x l Hx _ IH]; cbn.
  - intros Hd. apply Z.divide_1_r_nonneg in Hd; destruct Hp; lia.
  - intros [?|?]%(prime_mult _ Hp); done.
Qed.

Lemma small_not_divided i : 1 <= i < p -> ~ (p | i).
Proof. intros Hi Hd. apply Z.divide_pos_le in Hd; lia. Qed.

Lemma fermat a : ~ (p | a) -> a ^ (p - 1) mod p = 1.
Proof.
  intros Ha. pose proof (prime_ge_2 _ Hp) as H2. set (l := seqZ 1 (p - 1)).
  assert (Hperm : (fun i => (a * i) mod p) <$> l ≡ₚ l).
  { apply submseteq_length_Permutation; [|by rewrite length_fmap].
    apply NoDup_submseteq.
    - apply NoDup_fmap_2_strong; [|apply NoDup_seqZ]. intros x y Hx%elem_of_seqZ Hy%elem_of_seqZ Heq.
      assert (Hd : (p | a * (x - y))).
      { apply Z.mod_divide; [lia|]. rewrite Z.mul_sub_distr_l, Zminus_mod, Heq.
        by rewrite Z.sub_diag, Z.mod_0_l by lia. }
      apply (prime_mult _ Hp) in Hd as [?|[k Hk]]; [done|].
      assert (k = 0 \/ 1 <= k \/ k <= -1) as [->|[?|?]] by lia; nia.
    - intros x (i & -> & Hi%elem_of_seqZ)%list_elem_of_fmap. apply elem_of_seqZ.
      pose proof (Z.mod_pos_bound (a * i) p ltac:(lia)).
      assert ((a * i) mod p <> 0); [|lia]. intros [?|Hd]%Z.mod_divide%(prime_mult _ Hp); [done| |lia].
      by apply small_not_divided in Hd; [|lia]. }
  pose proof (product_scaled a l) as Hprod. rewrite (product_permutation _ _ Hperm) in Hprod.
  unfold l in Hprod at 2. rewrite length_seqZ, Z2Nat.id in Hprod by lia.
  assert (Hc : ~ (p | product l)).
  { apply product_coprime, Forall_forall. intros i Hi%elem_of_seqZ. apply small_not_divided. lia. }
  assert (Hd : (p | (a ^ (p - 1) - 1) * product l)).
  { apply Z.mod_divide; [lia|]. rewrite Z.mul_sub_distr_r, Zminus_mod, <-Hprod, Z.mul_1_l.
    by rewrite Z.sub_diag, Z.mod_0_l by lia. }
  apply (prime_mult _ Hp) in Hd as [Hd|?]; [|done]. apply Z.mod_divide in Hd; [|lia].
  rewrite Zminus_mod, (Z.mod_small 1) in Hd by lia.
  pose proof (Z.mod_pos_bound (a ^ (p - 1)) p ltac:(lia)) as Hb.
  destruct (decide (a ^ (p - 1) mod p = 0)) as [H0|H0].
  - rewrite H0 in Hd. apply Z.mod_divide in Hd; [|lia]. change (0 - 1) with (- (1)) in Hd.
    apply Z.divide_opp_r, Z.divide_1_r_nonneg in Hd; lia.
  - rewrite Z.mod_small in Hd by lia. lia.
Qed.

Lemma pow_cycle a k : 0 <= a < p -> 0 <= k -> a ^ (k * (p - 1) + 1) mod p = a.
Proof.
  intros Ha Hk. pose proof (prime_ge_2 _ Hp) as H2.
  destruct (decide (a = 0)) as [->|Hn]; [by rewrite Z.pow_0_l, Z.mod_0_l by nia|].
  rewrite Z.pow_add_r, Z.pow_1_r, Z.mul_comm by nia. rewrite (Z.mul_comm k), Z.pow_mul_r by lia.
  rewrite Zmult_mod, Zpower_mod, fermat by (lia || by apply small_not_divided; lia).
  rewrite Z.pow_1_l, <-Zmult_mod, Z.mul_1_r by lia. by apply Z.mod_small.
Qed.

End Fermat.

(** ** The modulus is prime *)

(** None of [d], ..., [d + n - 1] divides [m]. *)
Fixpoint no_divisor (n : nat) (d m : Z) : bool :=
  match n with
  | O => true
  | S n => negb (m mod d =? 0) && no_divisor n (d + 1) m
  end.

Lemma no_divisor_spec n d m :
  0 < d -> no_divisor n d m = true -> forall k, d <= k < d + Z.of_nat n -> ~ (k | m).
Proof.
  revert d. induction n as [|n IH]; intros d Hd; [lia|]. cbn [no_divisor].
  intros [Hn Hrest]%andb_true_iff k Hk. destruct (decide (k = d)) as [->|Hne].
  - intros Hdiv%Z.mod_divide; [|lia]. by rewrite Hdiv in Hn.
  - apply (IH (d + 1)); [lia|done|lia].
Qed.

Lemma prime_by_trial n m :
  1 < m -> m < (Z.of_nat n + 2) ^ 2 -> no_divisor n 2 m = true -> prime m.
Proof.
  intros Hm Hn Hd. apply prime_alt. split; [done|]. intros k Hk [q Hq].
  pose proof (no_divisor_spec n 2 m ltac:(lia) Hd) as Hsmall.
  assert (Hqr : 1 < q < m) by nia.
  destruct (Z.lt_ge_cases k (Z.of_nat n + 2)) as [Hlt|Hge].
  - apply (Hsmall k); [lia|]. by exists q.
  - apply (Hsmall q); [nia|]. exists k. lia.
Qed.

Lemma babybear_prime : prime BABYBEAR_MODULUS.
Proof.
  apply (prime_by_trial (Z.to_nat 44870)); [done| |by vm_compute].
  rewrite Z2Nat.id by done. done.
Qed.

(** ** The S-box is a bijection *)

(** The exponent of the inverse: [7 * 1725656503 = 6 * (p - 1) + 1]. *)
Definition seventh_root (value : Z) : Z := value ^ 1725656503 mod BABYBEAR_MODULUS.

Lemma seventh_root_wf a : element_wf (seventh_root a).
Proof. apply Z.mod_pos_bound. done. Qed.

Lemma sbox_seven_bijective a :
  element_wf a -> seventh_root (sbox_seven a) = a /\ sbox_seven (seventh_root a) = a.
Proof.
  intros Ha. unfold seventh_root. rewrite !sbox_seven_pow, <-!Zpower_mod, <-!Z.pow_mul_r by done.
  change (7 * 1725656503) with (6 * (2013265921 - 1) + 1).
  change (1725656503 * 7) with (6 * (2013265921 - 1) + 1).
  change 2013265921 with BABYBEAR_MODULUS. split; apply pow_cycle; (exact babybear_prime || done).
Qed.
