(* ===== verification/Poseidon2.v ===== *)
(** * The Poseidon2 permutation and its tree hash

    [noxis-poseidon2-core] evaluates the permutation from one flat parameter array
    and uses the structure of the internal matrix; [noxis-poseidon2-reference] is
    the dense evaluator it is compared with.  Both hash with the same fixed-arity
    sponge.  A state is the list of its 24 lanes, a digest the list of its 16
    elements. *)

From Stdlib Require Import Strings.Byte.
From S2P Require Import Prelude Arrays BabyBear Privacy.

Definition P24_WIDTH : nat := 24.
Definition P24_FULL_ROUNDS : nat := 8.
Definition P24_PARTIAL_ROUNDS : nat := 21.
Definition P24_TREE_DIGEST_ELEMENTS : nat := 16.
Definition P24_TREE_DEPTH : nat := 32.
Definition P24_HALF_FULL_ROUNDS : nat := P24_FULL_ROUNDS / 2.
Definition P24_TOTAL_ROUNDS : nat := P24_FULL_ROUNDS + P24_PARTIAL_ROUNDS.
Definition P24_DIAGONAL_OFFSET : nat := 0.
Definition P24_EXTERNAL_OFFSET : nat := P24_DIAGONAL_OFFSET + P24_WIDTH.
Definition P24_INTERNAL_OFFSET : nat := P24_EXTERNAL_OFFSET + P24_WIDTH * P24_WIDTH.
Definition P24_ROUND_CONSTANT_OFFSET : nat := P24_INTERNAL_OFFSET + P24_WIDTH * P24_WIDTH.
Definition P24_IV_OFFSET : nat := P24_ROUND_CONSTANT_OFFSET + P24_TOTAL_ROUNDS * P24_WIDTH.
Definition P24_RATE : nat := 15.

Abbreviation BabyBearStateP24 := (list Z) (only parsing).
Abbreviation BabyBearDigestV2 := (list Z) (only parsing).

(** The tree roles; the two crates declare the same enum. *)
Module P24TreeDomain.
Inductive P24TreeDomain : Type := Leaf | Node | EmptyBase.
End P24TreeDomain.
Abbreviation P24TreeDomain := P24TreeDomain.P24TreeDomain.

Definition input_elements (self : P24TreeDomain) : nat :=
  match self with
  | P24TreeDomain.Leaf => P24_TREE_DIGEST_ELEMENTS
  | P24TreeDomain.Node => P24_TREE_DIGEST_ELEMENTS * 2
  | P24TreeDomain.EmptyBase => 0
  end.

(** The position of a domain among the initialisation vectors. *)
Definition domain_index (self : P24TreeDomain) : nat :=
  match self with P24TreeDomain.Leaf => 0 | P24TreeDomain.Node => 1 | P24TreeDomain.EmptyBase => 2 end.

(** [slice::chunks]. *)
Fixpoint chunks_loop {A} (fuel n : nat) (l : list A) : list (list A) :=
  match fuel, l with
  | S fuel, _ :: _ => take n l :: chunks_loop fuel n (drop n l)
  | _, _ => []
  end.

Definition chunks {A} (n : nat) (l : list A) : list (list A) := chunks_loop (length l) n l.

(** [for (index, value) in input.iter().enumerate()]: the first element that is
    not canonical. *)
Fixpoint first_noncanonical (index : Z) (input : list Z) : option (Z * Z) :=
  match input with
  | [] => None
  | value :: input =>
      if BABYBEAR_MODULUS <=? value then Some (index, value) else first_noncanonical (index + 1) input
  end.

Definition validate_with {E} (error : Z -> Z -> E) (input : list Z) : Result E unit :=
  match first_noncanonical 0 input with
  | Some (index, value) => Err (error index value)
  | None => Ok tt
  end.

(** ** The sponge *)

(** [for (lane, value) in state[..15].iter_mut().zip(block)]. *)
Definition absorb_block (add : Z -> Z -> Z) (state block : list Z) : list Z :=
  zip_with add (take P24_RATE state) block ++ drop (length block) state.

(** [Hash16]: absorb the blocks, squeeze fifteen elements and one more. *)
Definition sponge {E} (add : Z -> Z -> Z) (permutation : list Z -> Result E (list Z)) (iv input : list Z)
    : Result E (list Z) :=
  let state := replicate P24_RATE 0 ++ iv in
  state ← match input with
          | [] => permutation state
          | _ => try_fold (fun state block => permutation (absorb_block add state block)) state
                   (chunks P24_RATE input)
          end;
  next ← permutation state;
  Ok (take P24_RATE state ++ take 1 next).

(** ** The allocation-free evaluator ([noxis-poseidon2-core]) *)

Module P24CoreError.
Inductive P24CoreError : Type :=
| NonCanonicalInput (index value : Z)
| InvalidDomainArity (domain : P24TreeDomain) (actual expected : Z).
End P24CoreError.
Abbreviation P24CoreError := P24CoreError.P24CoreError.

Definition validate_elements (input : list Z) : Result P24CoreError unit :=
  validate_with P24CoreError.NonCanonicalInput input.

Definition apply_sbox_to_all (state : BabyBearStateP24) : BabyBearStateP24 := sbox_seven <$> state.

Section Core.
(** The array the build step writes from the checked-in fixture. *)
Context (P24_PARAMETERS : list Z).

Definition parameter (index : nat) : Z := nth index P24_PARAMETERS 0.

Definition matmul_parameters (offset : nat) (state : BabyBearStateP24) : BabyBearStateP24 :=
  (fun row =>
     foldl (fun accumulated column =>
              let matrix_value := parameter (offset + row * P24_WIDTH + column) in
              core_add accumulated (multiply matrix_value (nth column state 0)))
       0 (seq 0 P24_WIDTH)) <$> seq 0 P24_WIDTH.

Definition internal_j_plus_diagonal (state : BabyBearStateP24) : BabyBearStateP24 :=
  let sum := foldl core_add 0 state in
  (fun index =>
     core_add sum (multiply (parameter (P24_DIAGONAL_OFFSET + index)) (nth index state 0))) <$>
  seq 0 P24_WIDTH.

Definition round_constant (round lane : nat) : Z :=
  parameter (P24_ROUND_CONSTANT_OFFSET + round * P24_WIDTH + lane).

Definition add_round_constants (state : BabyBearStateP24) (round : nat) : BabyBearStateP24 :=
  imap (fun lane value => core_add value (round_constant round lane)) state.

Definition full_round (state : BabyBearStateP24) (round : nat) : BabyBearStateP24 :=
  matmul_parameters P24_EXTERNAL_OFFSET (apply_sbox_to_all (add_round_constants state round)).

Definition partial_round (state : BabyBearStateP24) (round : nat) : BabyBearStateP24 :=
  internal_j_plus_diagonal
    (alter (fun lane => sbox_seven (core_add lane (round_constant round 0))) 0%nat state).

Definition core_permutation (input : BabyBearStateP24) : Result P24CoreError BabyBearStateP24 :=
  _ ← validate_elements input;
  let state := matmul_parameters P24_EXTERNAL_OFFSET input in
  let state := foldl full_round state (seq 0 P24_HALF_FULL_ROUNDS) in
  let state := foldl partial_round state (seq P24_HALF_FULL_ROUNDS P24_PARTIAL_ROUNDS) in
  Ok (foldl full_round state (seq (P24_HALF_FULL_ROUNDS + P24_PARTIAL_ROUNDS) P24_HALF_FULL_ROUNDS)).

Definition core_iv (domain : P24TreeDomain) : list Z :=
  take 9 (drop (P24_IV_OFFSET + domain_index domain * 9) P24_PARAMETERS).

Definition core_hash16 (domain : P24TreeDomain) (input : list Z) : Result P24CoreError BabyBearDigestV2 :=
  let expected := input_elements domain in
  if negb (length input =? expected)%nat
  then Err (P24CoreError.InvalidDomainArity domain (len input) (Z.of_nat expected))
  else
    _ ← validate_elements input;
    sponge core_add core_permutation (core_iv domain) input.

Definition core_leaf (note : BabyBearDigestV2) : Result P24CoreError BabyBearDigestV2 :=
  core_hash16 P24TreeDomain.Leaf note.

Definition core_node (left right : BabyBearDigestV2) : Result P24CoreError BabyBearDigestV2 :=
  core_hash16 P24TreeDomain.Node (left ++ right).

(** The loop of [root_from_note_path] over [siblings.into_iter().enumerate()]. *)
Fixpoint note_path_loop (leaf_index : Z) (level : Z) (siblings : list BabyBearDigestV2)
    (current : BabyBearDigestV2) : Result P24CoreError BabyBearDigestV2 :=
  match siblings with
  | [] => Ok current
  | sibling :: siblings =>
      current ← (if Z.land (Z.shiftr leaf_index level) 1 =? 0
                 then core_node current sibling else core_node sibling current);
      note_path_loop leaf_index (level + 1) siblings current
  end.

Definition root_from_note_path (note : BabyBearDigestV2) (leaf_index : Z)
    (siblings : list BabyBearDigestV2) : Result P24CoreError BabyBearDigestV2 :=
  current ← core_leaf note; note_path_loop leaf_index 0 siblings current.

End Core.

(** ** The dense evaluator ([noxis-poseidon2-reference]) *)

Module Poseidon2P24CandidateError.
Inductive Poseidon2P24CandidateError : Type :=
| InvalidEmbeddedBase64
| InvalidPayloadLength (actual expected : Z)
| PayloadChecksumMismatch
| NonCanonicalFieldElement (index value : Z)
| InvalidDerivedIv (domain : P24TreeDomain)
| InvalidManifestLength (actual expected : Z)
| InvalidManifestMagic
| UnsupportedManifestVersion
| UnsupportedManifestKind
| NonCanonicalManifest.
End Poseidon2P24CandidateError.
Abbreviation Poseidon2P24CandidateError := Poseidon2P24CandidateError.Poseidon2P24CandidateError.

Module Poseidon2P24ReferenceError.
Inductive Poseidon2P24ReferenceError : Type :=
| Candidate (error : Poseidon2P24CandidateError)
| InvalidPayloadLength (length : Z)
| NonCanonicalParameter (index value : Z)
| InvalidInternalMatrix (row column : Z)
| NonCanonicalInput (index value : Z)
| InvalidDomainArity (domain : P24TreeDomain) (actual expected : Z)
| NonCanonicalHashInput (index value : Z)
| TooManySmallTreeNotes (actual limit : Z)
| SmallTreePathIndexOutOfBounds (index count : Z).
End Poseidon2P24ReferenceError.
Abbreviation Poseidon2P24ReferenceError := Poseidon2P24ReferenceError.Poseidon2P24ReferenceError.

(** The frozen candidate manifest as its users see it: its parameter bytes, its
    initialisation vectors and its identity. *)
Record P24Manifest : Type := mk_P24Manifest {
  parameter_payload : Result Poseidon2P24CandidateError (list byte);
  manifest_iv : P24TreeDomain -> Result Poseidon2P24CandidateError (list Z);
  manifest_candidate_id : Result Poseidon2P24CandidateError (array 32)
}.

Record Poseidon2P24Reference : Type := mk_Poseidon2P24Reference {
  external_matrix : list (list Z);
  internal_matrix : list (list Z);
  round_constants : list (list Z)
}.

(** [decode_elements]: little-endian words, each canonical. *)
Definition decode_elements (payload : list byte) : Result Poseidon2P24ReferenceError (list Z) :=
  if negb (length payload mod 4 =? 0)%nat
  then Err (Poseidon2P24ReferenceError.InvalidPayloadLength (len payload))
  else
    let values := elements_of payload in
    _ ← validate_with Poseidon2P24ReferenceError.NonCanonicalParameter values;
    Ok values.

Definition matrix_from (rows : nat) (values : list Z) : list (list Z) :=
  (fun row => take P24_WIDTH (drop (row * P24_WIDTH) values)) <$> seq 0 rows.

(** [validate_internal_matrix]: the first entry that differs from [J + diagonal]. *)
Fixpoint validate_internal_row (diagonal : Z) (row column : Z) (values : list Z)
    : Result Poseidon2P24ReferenceError unit :=
  match values with
  | [] => Ok tt
  | value :: values =>
      let expected := if row =? column then field_add diagonal 1 else 1 in
      if negb (value =? expected) then Err (Poseidon2P24ReferenceError.InvalidInternalMatrix row column)
      else validate_internal_row diagonal row (column + 1) values
  end.

Fixpoint validate_internal_rows (row : Z) (diagonal : list Z) (matrix : list (list Z))
    : Result Poseidon2P24ReferenceError unit :=
  match diagonal, matrix with
  | d :: diagonal, values :: matrix =>
      _ ← validate_internal_row d row 0 values; validate_internal_rows (row + 1) diagonal matrix
  | _, _ => Ok tt
  end.

(** [Poseidon2P24Reference::load_candidate].  The payload has 1899 words, so the
    slices below are in bounds. *)
Definition load_reference (manifest : P24Manifest) : Result Poseidon2P24ReferenceError Poseidon2P24Reference :=
  payload ← map_err Poseidon2P24ReferenceError.Candidate (parameter_payload manifest);
  values ← decode_elements payload;
  let diagonal := take P24_WIDTH (drop P24_DIAGONAL_OFFSET values) in
  let external := matrix_from P24_WIDTH (drop P24_EXTERNAL_OFFSET values) in
  let internal := matrix_from P24_WIDTH (drop P24_INTERNAL_OFFSET values) in
  let constants := matrix_from P24_TOTAL_ROUNDS (drop P24_ROUND_CONSTANT_OFFSET values) in
  _ ← validate_internal_rows 0 diagonal internal;
  Ok (mk_Poseidon2P24Reference external internal constants).

Definition dot_product (row state : list Z) : Z :=
  foldl (fun accumulated '(matrix_value, value) => field_add accumulated (multiply matrix_value value))
    0 (zip row state).

Definition matmul (matrix : list (list Z)) (state : BabyBearStateP24) : BabyBearStateP24 :=
  (fun row => dot_product row state) <$> matrix.

Definition add_constants (state constants : list Z) : BabyBearStateP24 := zip_with field_add state constants.

Section Reference.
Context (self : Poseidon2P24Reference).

Definition reference_full_round (state : BabyBearStateP24) (constants : list Z) : BabyBearStateP24 :=
  matmul (external_matrix self) (apply_sbox_to_all (add_constants state constants)).

Definition reference_partial_round (state : BabyBearStateP24) (constants : list Z) : BabyBearStateP24 :=
  matmul (internal_matrix self)
    (alter (fun lane => sbox_seven (field_add lane (nth 0 constants 0))) 0%nat state).

(** [Poseidon2P24Reference::permutation]; rounds are slices of the constants. *)
Definition reference_permutation (input : BabyBearStateP24)
    : Result Poseidon2P24ReferenceError BabyBearStateP24 :=
  _ ← validate_with Poseidon2P24ReferenceError.NonCanonicalInput input;
  let constants := round_constants self in
  let state := matmul (external_matrix self) input in
  let state := foldl reference_full_round state (take P24_HALF_FULL_ROUNDS constants) in
  let state := foldl reference_partial_round state
                 (take P24_PARTIAL_ROUNDS (drop P24_HALF_FULL_ROUNDS constants)) in
  Ok (foldl reference_full_round state
        (take P24_HALF_FULL_ROUNDS (drop (P24_HALF_FULL_ROUNDS + P24_PARTIAL_ROUNDS) constants))).

Context (manifest : P24Manifest).

Definition reference_hash16 (domain : P24TreeDomain) (input : list Z)
    : Result Poseidon2P24ReferenceError BabyBearDigestV2 :=
  let expected := input_elements domain in
  if negb (length input =? expected)%nat
  then Err (Poseidon2P24ReferenceError.InvalidDomainArity domain (len input) (Z.of_nat expected))
  else
    _ ← validate_with Poseidon2P24ReferenceError.NonCanonicalHashInput input;
    iv ← map_err Poseidon2P24ReferenceError.Candidate (manifest_iv manifest domain);
    sponge field_add reference_permutation iv input.

Definition reference_leaf (note : BabyBearDigestV2) : Result Poseidon2P24ReferenceError BabyBearDigestV2 :=
  reference_hash16 P24TreeDomain.Leaf note.

Definition reference_node (left right : BabyBearDigestV2)
    : Result Poseidon2P24ReferenceError BabyBearDigestV2 :=
  reference_hash16 P24TreeDomain.Node (left ++ right).

(** [for next in &mut empty[1..]]. *)
Fixpoint empty_values_loop (levels : nat) (previous : BabyBearDigestV2)
    : Result Poseidon2P24ReferenceError (list BabyBearDigestV2) :=
  match levels with
  | O => Ok []
  | S levels =>
      next ← reference_node previous previous;
      rest ← empty_values_loop levels next;
      Ok (next :: rest)
  end.

Definition empty_values : Result Poseidon2P24ReferenceError (list BabyBearDigestV2) :=
  base ← reference_hash16 P24TreeDomain.EmptyBase [];
  rest ← empty_values_loop P24_TREE_DEPTH base;
  Ok (base :: rest).

(** [for pair in nodes.chunks_exact(2)]. *)
Fixpoint parents (nodes : list BabyBearDigestV2) : Result Poseidon2P24ReferenceError (list BabyBearDigestV2) :=
  match nodes with
  | first :: second :: nodes =>
      parent ← reference_node first second; rest ← parents nodes; Ok (parent :: rest)
  | _ => Ok []
  end.

Definition pad_level (nodes : list BabyBearDigestV2) (empty_value : BabyBearDigestV2) : list BabyBearDigestV2 :=
  if (length nodes mod 2 =? 1)%nat then nodes ++ [empty_value] else nodes.

Definition next_level (nodes : list BabyBearDigestV2) (empty_value : BabyBearDigestV2)
    : Result Poseidon2P24ReferenceError (list BabyBearDigestV2) :=
  parents (pad_level nodes empty_value).

Definition MAX_SMALL_TREE_NOTES : nat := 4.

(** A level is never empty below a tree with a note, so [nodes[0]] is in bounds. *)
Definition small_tree_root (notes : list BabyBearDigestV2) : Result Poseidon2P24ReferenceError BabyBearDigestV2 :=
  if (MAX_SMALL_TREE_NOTES <? length notes)%nat
  then Err (Poseidon2P24ReferenceError.TooManySmallTreeNotes (len notes) (Z.of_nat MAX_SMALL_TREE_NOTES))
  else
    empty ← empty_values;
    match notes with
    | [] => Ok (nth P24_TREE_DEPTH empty [])
    | _ =>
        nodes ← try_map reference_leaf notes;
        nodes ← try_fold next_level nodes (take P24_TREE_DEPTH empty);
        Ok (nth 0 nodes [])
    end.

(** [for level in 0..32]: the sibling of the path, then the next level. *)
Fixpoint small_tree_path_loop (empty : list BabyBearDigestV2) (nodes : list BabyBearDigestV2) (index : Z)
    : Result Poseidon2P24ReferenceError (list BabyBearDigestV2 * list BabyBearDigestV2) :=
  match empty with
  | [] => Ok ([], nodes)
  | empty_value :: empty =>
      let sibling := default empty_value (nodes !! Z.to_nat (Z.lxor index 1)) in
      nodes ← next_level nodes empty_value;
      '(siblings, nodes) ← small_tree_path_loop empty nodes (Z.shiftr index 1);
      Ok (sibling :: siblings, nodes)
  end.

Definition small_tree_path (commitments : list BabyBearDigestV2) (leaf_index : Z)
    : Result Poseidon2P24ReferenceError (BabyBearDigestV2 * list BabyBearDigestV2 * BabyBearDigestV2) :=
  if (MAX_SMALL_TREE_NOTES <? length commitments)%nat
  then Err (Poseidon2P24ReferenceError.TooManySmallTreeNotes (len commitments) (Z.of_nat MAX_SMALL_TREE_NOTES))
  else match commitments !! Z.to_nat leaf_index with
  | None =>
      Err (Poseidon2P24ReferenceError.SmallTreePathIndexOutOfBounds leaf_index (len commitments))
  | Some commitment =>
      empty ← empty_values;
      leaf ← reference_leaf commitment;
      nodes ← try_map reference_leaf commitments;
      '(siblings, nodes) ← small_tree_path_loop (take P24_TREE_DEPTH empty) nodes leaf_index;
      Ok (leaf, siblings, nth 0 nodes [])
  end.

(** The loop of [root_from_path] over [siblings.into_iter().enumerate()]. *)
Fixpoint path_loop (leaf_index level : Z) (siblings : list BabyBearDigestV2) (current : BabyBearDigestV2)
    : Result Poseidon2P24ReferenceError BabyBearDigestV2 :=
  match siblings with
  | [] => Ok current
  | sibling :: siblings =>
      _ ← validate_with Poseidon2P24ReferenceError.NonCanonicalHashInput sibling;
      current ← (if Z.land (Z.shiftr leaf_index level) 1 =? 0
                 then reference_node current sibling else reference_node sibling current);
      path_loop leaf_index (level + 1) siblings current
  end.

Definition root_from_path (leaf : BabyBearDigestV2) (leaf_index : Z) (siblings : list BabyBearDigestV2)
    : Result Poseidon2P24ReferenceError BabyBearDigestV2 :=
  _ ← validate_with Poseidon2P24ReferenceError.NonCanonicalHashInput leaf;
  path_loop leaf_index 0 siblings leaf.

End Reference.
