(* ===== verification/Poseidon2Facts.v ===== *)
(** * Facts about the Poseidon2 evaluators

    The optimised evaluator and the dense one are the same function; on the frozen
    parameters the permutation is a bijection of the canonical states. *)

From Stdlib Require Import Strings.Byte Znumtheory.
From S2P Require Import Prelude Arrays BabyBear Privacy Poseidon2.

(** Bounds between closed naturals. *)
Ltac by_leb := apply Nat.leb_le; vm_compute; reflexivity.

(** ** Lists of elements *)

Definition state_wf (s : list Z) : Prop := length s = P24_WIDTH /\ Forall element_wf s.

Lemma first_noncanonical_None i l :
  Forall (fun e => 0 <= e) l -> first_noncanonical i l = None <-> Forall element_wf l.
Proof.
  intros Hl. revert i. induction Hl as [|x l Hx _ IH]; intros i; cbn [first_noncanonical]; [done|].
  rewrite Forall_cons. unfold element_wf at 1. destruct (Z.leb_spec BABYBEAR_MODULUS x).
  - split; [done|]. intros [? _]. lia.
  - rewrite IH. split; [|by intros [_ ?]]. intros ?. split; [lia|done].
Qed.

Lemma validate_with_Ok {E} (error : Z -> Z -> E) l :
  Forall (fun e => 0 <= e) l -> validate_with error l = Ok tt <-> Forall element_wf l.
Proof.
  intros Hl. rewrite <-(first_noncanonical_None 0) by done. unfold validate_with.
  by destruct (first_noncanonical 0 l) as [[]|].
Qed.

Lemma elements_nonneg l : Forall element_wf l -> Forall (fun e => 0 <= e) l.
Proof. intros Hl. eapply Forall_impl; [exact Hl|]. by intros x [? _]. Qed.

Lemma validate_with_wf {E} (error : Z -> Z -> E) l : Forall element_wf l -> validate_with error l = Ok tt.
Proof. intros Hl. apply validate_with_Ok; [by apply elements_nonneg|done]. Qed.

Lemma nth_element (i : nat) l : Forall element_wf l -> element_wf (nth i l 0).
Proof.
  intros Hl. destruct (nth_in_or_default i l 0) as [Hin| ->]; [|done].
  rewrite Forall_forall in Hl. apply Hl. by apply list_elem_of_In.
Qed.

(** A loop over the indices of two lists is a loop over their pairs. *)
Lemma foldl_indices {A B C} (f : C -> A -> B -> C) acc (l1 : list A) (l2 : list B) d1 d2 n :
  length l1 = n -> length l2 = n ->
  foldl (fun acc i => f acc (nth i l1 d1) (nth i l2 d2)) acc (seq 0 n) =
  foldl (fun acc '(x, y) => f acc x y) acc (zip l1 l2).
Proof.
  revert acc l1 l2. induction n as [|n IH]; intros acc [|x l1] [|y l2]; cbn; try done.
  intros H1 H2. rewrite <-IH by lia. rewrite <-seq_shift.
  generalize (seq 0 n) (f acc x y). intros l. induction l as [|i l IHl]; intros acc'; cbn; [done|apply IHl].
Qed.

Lemma foldl_ext_inv {A B} (f g : A -> B -> A) (P : A -> Prop) acc l :
  (forall a b, P a -> b ∈ l -> f a b = g a b /\ P (g a b)) -> P acc -> foldl f acc l = foldl g acc l.
Proof.
  revert acc. induction l as [|b l IH]; intros acc Hfg Ha; cbn; [done|].
  destruct (Hfg acc b Ha ltac:(by left)) as [-> Hg]. apply IH; [|done].
  intros a b' Ha' Hb'. apply Hfg; [done|by right].
Qed.

(** ** Sums of products *)

Definition dot (row state : list Z) : Z := foldr (fun '(m, s) acc => m * s + acc) 0 (zip row state).

Lemma dot_product_mod row state : dot_product row state = dot row state mod BABYBEAR_MODULUS.
Proof.
  unfold dot_product, dot.
  assert (Hg : forall acc l, acc = acc mod BABYBEAR_MODULUS ->
    foldl (fun a '(m, s) => field_add a (multiply m s)) acc l =
    (acc + foldr (fun '(m, s) a => m * s + a) 0 l) mod BABYBEAR_MODULUS).
  { intros acc l. revert acc. induction l as [|[m s] l IH]; intros acc Ha; cbn.
    - by rewrite Z.add_0_r.
    - rewrite IH by (unfold field_add; by rewrite Zmod_mod). unfold field_add, multiply.
      rewrite Zplus_mod_idemp_r, Zplus_mod_idemp_l. f_equal. lia. }
  by rewrite Hg, Z.add_0_l.
Qed.

Lemma dot_product_wf row state : element_wf (dot_product row state).
Proof. rewrite dot_product_mod. apply Z.mod_pos_bound. done. Qed.

Lemma matmul_wf matrix state : length matrix = P24_WIDTH -> state_wf (matmul matrix state).
Proof.
  intros Hm. split; [by unfold matmul; rewrite length_fmap|]. apply Forall_fmap, Forall_true.
  intros row. apply dot_product_wf.
Qed.

Lemma sum_elements l :
  Forall element_wf l -> foldl core_add 0 l = foldr Z.add 0 l mod BABYBEAR_MODULUS.
Proof.
  assert (Hg : forall acc, element_wf acc -> Forall element_wf l ->
    foldl core_add acc l = (acc + foldr Z.add 0 l) mod BABYBEAR_MODULUS).
  { induction l as [|x l IH]; intros acc Ha Hl; cbn; [by rewrite Z.add_0_r, element_small|].
    apply Forall_cons in Hl as [Hx Hl]. rewrite (proj2 (core_add_canonical acc x Ha Hx)).
    rewrite IH by (done || apply field_add_wf). unfold field_add. rewrite Zplus_mod_idemp_l.
    f_equal. lia. }
  intros Hl. by rewrite Hg.
Qed.

Lemma dot_product_wf_sum l : element_wf (foldr Z.add 0 l mod BABYBEAR_MODULUS).
Proof. apply Z.mod_pos_bound. done. Qed.

(** ** The internal matrix *)

Definition unit_row (diagonal row column : Z) (values : list Z) : Prop :=
  forall j v, values !! j = Some v ->
    v = if row =? column + Z.of_nat j then field_add diagonal 1 else 1.

Lemma validate_internal_row_Ok d row column values :
  validate_internal_row d row column values = Ok tt -> unit_row d row column values.
Proof.
  revert column. induction values as [|v values IH]; intros column; cbn [validate_internal_row]; [done|].
  destruct (Z.eqb_spec v (if row =? column then field_add d 1 else 1)) as [Hv|]; cbn [negb]; [|done].
  intros Hrest [|j] w.
  - intros [= <-]. by rewrite Z.add_0_r.
  - intros Hj. rewrite (IH _ Hrest j w Hj).
    by replace (column + Z.of_nat (S j)) with (column + 1 + Z.of_nat j) by lia.
Qed.

Lemma validate_internal_rows_Ok r0 diagonal matrix i d row :
  validate_internal_rows r0 diagonal matrix = Ok tt -> diagonal !! i = Some d -> matrix !! i = Some row ->
  unit_row d (r0 + Z.of_nat i) 0 row.
Proof.
  revert r0 matrix i. induction diagonal as [|d0 diagonal IH]; intros r0 [|row0 matrix] i; try done.
  cbn [validate_internal_rows].
  destruct (validate_internal_row d0 r0 0 row0) as [[]|] eqn:Hr; cbn [mbind result_bind]; [|done].
  intros Hrest. destruct i as [|i].
  - intros [= <-] [= <-]. rewrite Z.add_0_r. by apply validate_internal_row_Ok.
  - intros Hd Hm. replace (r0 + Z.of_nat (S i)) with (r0 + 1 + Z.of_nat i) by lia.
    by apply (IH _ matrix).
Qed.

Lemma unit_row_tail d row column v values :
  unit_row d row column (v :: values) -> unit_row d row (column + 1) values.
Proof.
  intros H j w Hj. rewrite (H (S j) w Hj).
  by replace (column + Z.of_nat (S j)) with (column + 1 + Z.of_nat j) by lia.
Qed.

Lemma dot_ones d row column values state :
  unit_row d row column values -> length values = length state -> row < column ->
  dot values state = foldr Z.add 0 state.
Proof.
  revert column state. induction values as [|v values IH]; intros column [|s state] Hu Hl Hc; try done.
  pose proof (Hu O v eq_refl) as Hv. rewrite (proj2 (Z.eqb_neq _ _)) in Hv by lia.
  pose proof (IH _ state (unit_row_tail _ _ _ _ _ Hu) ltac:(by injection Hl) ltac:(lia)) as Hd.
  unfold dot in *. cbn in *. rewrite Hd. lia.
Qed.

Lemma dot_unit_row d row column values state :
  unit_row d row column values -> length values = length state ->
  column <= row < column + len values ->
  dot values state mod BABYBEAR_MODULUS =
  (foldr Z.add 0 state + d * nth (Z.to_nat (row - column)) state 0) mod BABYBEAR_MODULUS.
Proof.
  revert column state. induction values as [|v values IH]; intros column [|s state] Hu Hl Hc; cbn in Hl, Hc;
    try lia.
  pose proof (Hu O v eq_refl) as Hv. cbn [Z.of_nat] in Hv. rewrite Z.add_0_r in Hv.
  apply unit_row_tail in Hu. injection Hl as Hl.
  change (dot (v :: values) (s :: state)) with (v * s + dot values state).
  change (foldr Z.add 0 (s :: state)) with (s + foldr Z.add 0 state).
  destruct (Z.eqb_spec row column) as [->|Hne].
  - rewrite (dot_ones _ _ _ _ _ Hu Hl ltac:(lia)), Z.sub_diag. change (Z.to_nat 0) with O; cbn [nth].
    rewrite Hv. unfold field_add. rewrite (Zplus_mod (_ * s)), Zmult_mod_idemp_l, <-Zplus_mod. f_equal. ring.
  - rewrite Zplus_mod, (IH (column + 1) state Hu Hl) by lia. rewrite <-Zplus_mod, Hv.
    replace (Z.to_nat (row - column)) with (S (Z.to_nat (row - (column + 1)))) by lia. cbn [nth].
    f_equal. lia.
Qed.

(** ** The sponge *)

Lemma chunks_loop_Forall {A} (P : A -> Prop) fuel n l :
  Forall P l -> Forall (fun block => Forall P block /\ (length block <= n)%nat) (chunks_loop fuel n l).
Proof.
  revert l. induction fuel as [|fuel IH]; intros [|x l] Hl; cbn [chunks_loop]; try constructor.
  - split; [by apply Forall_take|]. rewrite length_take. lia.
  - by apply IH, Forall_drop.
Qed.

Definition digest_wf (d : list Z) : Prop := length d = P24_TREE_DIGEST_ELEMENTS /\ Forall element_wf d.

Section Sponge.
Context {E1 E2 : Type} (add1 add2 : Z -> Z -> Z).
Context (p1 : list Z -> Result E1 (list Z)) (p2 : list Z -> Result E2 (list Z)).
Context (Hadd : forall a b, element_wf a -> element_wf b -> add1 a b = add2 a b /\ element_wf (add2 a b)).
Context (Hperm : forall s, state_wf s -> exists out, p1 s = Ok out /\ p2 s = Ok out /\ state_wf out).

Lemma absorb_agree state block :
  state_wf state -> Forall element_wf block -> (length block <= P24_RATE)%nat ->
  absorb_block add1 state block = absorb_block add2 state block /\ state_wf (absorb_block add2 state block).
Proof.
  intros [Hl Hs] Hb Hbl. unfold absorb_block.
  assert (Hz : forall a b, Forall element_wf a -> Forall element_wf b ->
    zip_with add1 a b = zip_with add2 a b /\ Forall element_wf (zip_with add2 a b)).
  { intros a b Ha. revert b. induction Ha as [|x a Hx _ IH]; intros b Hb'; [done|].
    destruct Hb' as [|y b Hy Hb']; cbn; [done|]. destruct (Hadd x y Hx Hy) as [-> Hxy].
    destruct (IH b Hb') as [-> Hab]. split; [done|by constructor]. }
  destruct (Hz (take P24_RATE state) block (Forall_take _ _ _ Hs) Hb) as [-> Hzw].
  split; [done|]. split.
  - rewrite length_app, length_zip_with, length_take, length_drop. unfold P24_RATE, P24_WIDTH in *. lia.
  - apply Forall_app_2; [done|by apply Forall_drop].
Qed.

Lemma blocks_agree blocks state :
  state_wf state -> Forall (fun block => Forall element_wf block /\ (length block <= P24_RATE)%nat) blocks ->
  exists out, try_fold (fun state block => p1 (absorb_block add1 state block)) state blocks = Ok out /\
    try_fold (fun state block => p2 (absorb_block add2 state block)) state blocks = Ok out /\ state_wf out.
Proof.
  revert state. induction blocks as [|block blocks IH]; intros state Hs Hb; [by exists state|].
  apply Forall_cons in Hb as [[Hb Hbl] Hbs]. cbn [try_fold].
  destruct (absorb_agree state block Hs Hb Hbl) as [-> Ha].
  destruct (Hperm _ Ha) as (out & -> & -> & Ho). by apply IH.
Qed.

Lemma sponge_agree iv input :
  length iv = 9%nat -> Forall element_wf iv -> Forall element_wf input ->
  exists d, sponge add1 p1 iv input = Ok d /\ sponge add2 p2 iv input = Ok d /\ digest_wf d.
Proof.
  intros Hl Hiv Hin. unfold sponge. cbv zeta.
  assert (Hstart : state_wf (replicate P24_RATE 0 ++ iv)).
  { split; [by rewrite length_app, length_replicate, Hl|].
    apply Forall_app_2; [by apply Forall_replicate|done]. }
  assert (Hmid : exists out,
    match input with [] => p1 (replicate P24_RATE 0 ++ iv)
    | _ => try_fold (fun state block => p1 (absorb_block add1 state block)) (replicate P24_RATE 0 ++ iv)
             (chunks P24_RATE input) end = Ok out /\
    match input with [] => p2 (replicate P24_RATE 0 ++ iv)
    | _ => try_fold (fun state block => p2 (absorb_block add2 state block)) (replicate P24_RATE 0 ++ iv)
             (chunks P24_RATE input) end = Ok out /\ state_wf out).
  { destruct input; [by apply Hperm|]. apply blocks_agree; [done|]. by apply chunks_loop_Forall. }
  destruct Hmid as (state & -> & -> & Hs). cbn [mbind result_bind].
  destruct (Hperm state Hs) as (next & -> & -> & Hn). cbn [mbind result_bind].
  eexists. split_and!; [done..|]. destruct Hs as [Hsl Hs], Hn as [Hnl Hn]. split.
  - rewrite length_app, !length_take, Hsl, Hnl. done.
  - apply Forall_app_2; by apply Forall_take.
Qed.

End Sponge.

(** ** The two evaluators *)

Lemma add_constants_wf a b : Forall element_wf (add_constants a b).
Proof.
  unfold add_constants. revert b. induction a as [|x a IH]; intros [|y b]; cbn; constructor;
    [apply field_add_wf|apply IH].
Qed.

Section Agreement.
Context (values : list Z).

(** The reference evaluator of the same parameters. *)
Definition reference_of : Poseidon2P24Reference :=
  mk_Poseidon2P24Reference (matrix_from P24_WIDTH (drop P24_EXTERNAL_OFFSET values))
    (matrix_from P24_WIDTH (drop P24_INTERNAL_OFFSET values))
    (matrix_from P24_TOTAL_ROUNDS (drop P24_ROUND_CONSTANT_OFFSET values)).

Record parameters_wf : Prop := mk_parameters_wf {
  params_length : length values = (P24_IV_OFFSET + 27)%nat;
  params_elements : Forall element_wf values;
  params_internal : validate_internal_rows 0 (take P24_WIDTH values) (internal_matrix reference_of) = Ok tt
}.

Context (Hv : parameters_wf).

(** The parameters reach over every section that is read. *)
Lemma params_room n : (n <= 1899)%nat -> (n <= length values)%nat.
Proof. rewrite (params_length Hv). done. Qed.

Lemma parameter_wf i : element_wf (parameter values i).
Proof. apply nth_element, Hv. Qed.

Lemma parameter_row offset row column :
  (column < P24_WIDTH)%nat ->
  parameter values (offset + row * P24_WIDTH + column) =
  nth column (take P24_WIDTH (drop (row * P24_WIDTH) (drop offset values))) 0.
Proof.
  intros Hc. unfold parameter. rewrite drop_drop.
  generalize (offset + row * P24_WIDTH)%nat. intros k.
  rewrite <-(nth_skipn k). symmetry. revert Hc. generalize (drop k values). clear.
  generalize P24_WIDTH. intros n l. revert n column.
  induction l as [|x l IH]; intros [|n] [|c] Hc; cbn; try done; try lia.
  apply IH. lia.
Qed.

Lemma length_matrix_from rows l : length (matrix_from rows l) = rows.
Proof. unfold matrix_from. by rewrite length_fmap, length_seq. Qed.

Lemma matrix_rows rows l :
  (rows * P24_WIDTH <= length l)%nat -> Forall (fun row => length row = P24_WIDTH) (matrix_from rows l).
Proof.
  intros Hl. unfold matrix_from. apply Forall_fmap, Forall_forall. intros row Hrow%elem_of_seq.
  cbn. rewrite length_take, length_drop. unfold P24_WIDTH in *. lia.
Qed.

Lemma matmul_parameters_dense offset state :
  (offset + P24_WIDTH * P24_WIDTH <= length values)%nat -> state_wf state ->
  matmul_parameters values offset state = matmul (matrix_from P24_WIDTH (drop offset values)) state.
Proof.
  intros Ho [Hl Hs]. unfold matmul_parameters, matmul, matrix_from. rewrite <-list_fmap_compose.
  apply list_fmap_ext. intros i row Hrow. apply lookup_seq in Hrow as [-> Hi]. cbn [Nat.add].
  unfold compose, dot_product.
  rewrite <-(foldl_indices (fun acc m s => field_add acc (multiply m s)) _ _ _ 0 0 P24_WIDTH).
  2:{ rewrite length_take, !length_drop. unfold P24_WIDTH in *. lia. }
  2:{ done. }
  apply (foldl_ext_inv _ _ element_wf); [|done]. intros acc c Hacc Hc%elem_of_seq.
  rewrite parameter_row by lia. split; [|apply field_add_wf].
  apply core_add_canonical; [done|apply multiply_wf].
Qed.

Lemma internal_dense state :
  state_wf state ->
  internal_j_plus_diagonal values state = matmul (internal_matrix reference_of) state.
Proof.
  intros [Hl Hs]. unfold internal_j_plus_diagonal, matmul. cbv zeta.
  pose proof (params_length Hv) as Hlen.
  apply list_eq. intros i. rewrite !list_lookup_fmap.
  destruct (decide (i < P24_WIDTH)%nat) as [Hi|Hi].
  2:{ rewrite (lookup_seq_ge 0 P24_WIDTH i) by lia. rewrite lookup_ge_None_2; [done|].
      cbn [internal_matrix reference_of]. rewrite length_matrix_from. lia. }
  rewrite lookup_seq_lt by done.
  destruct (internal_matrix reference_of !! i) as [row|] eqn:Hrow.
  2:{ apply lookup_ge_None in Hrow. cbn [internal_matrix reference_of] in Hrow.
      rewrite length_matrix_from in Hrow. lia. }
  cbn [fmap option_fmap option_map Nat.add]. f_equal. rewrite dot_product_mod.
  assert (Hd : take P24_WIDTH values !! i = Some (parameter values i)).
  { rewrite lookup_take, decide_True by done. unfold parameter.
    destruct (values !! i) as [v|] eqn:Hvi; [by rewrite (nth_lookup_Some values i 0 v Hvi)|].
    apply lookup_ge_None in Hvi. pose proof (params_room P24_WIDTH ltac:(by_leb)). lia. }
  pose proof (validate_internal_rows_Ok _ _ _ _ _ _ (params_internal Hv) Hd Hrow) as Hu.
  assert (Hrl : length row = P24_WIDTH).
  { pose proof (matrix_rows P24_WIDTH (drop P24_INTERNAL_OFFSET values)) as Hrows.
    rewrite Forall_lookup in Hrows. apply (Hrows ltac:(rewrite length_drop, Hlen; by_leb) i row Hrow). }
  rewrite (dot_unit_row _ _ 0 _ state Hu) by lia. rewrite Z.add_0_l, Z.sub_0_r, Nat2Z.id.
  rewrite sum_elements by done.
  rewrite (proj2 (core_add_canonical _ _ (dot_product_wf_sum state) (multiply_wf _ _))).
  unfold field_add, multiply. by rewrite Zplus_mod_idemp_l, Zplus_mod_idemp_r.
Qed.

Lemma constants_row round :
  (round < P24_TOTAL_ROUNDS)%nat ->
  round_constants reference_of !! round =
  Some (take P24_WIDTH (drop (round * P24_WIDTH) (drop P24_ROUND_CONSTANT_OFFSET values))).
Proof.
  intros Hr. cbn [round_constants reference_of]. unfold matrix_from.
  by rewrite list_lookup_fmap, lookup_seq_lt.
Qed.

Lemma add_round_constants_dense state round constants :
  state_wf state -> round_constants reference_of !! round = Some constants ->
  add_round_constants values state round = add_constants state constants /\
  state_wf (add_constants state constants).
Proof.
  intros [Hl Hs] Hc.
  assert (Hr : (round < P24_TOTAL_ROUNDS)%nat).
  { apply lookup_lt_Some in Hc. cbn [round_constants reference_of] in Hc. by rewrite length_matrix_from in Hc. }
  rewrite constants_row in Hc by done. injection Hc as <-.
  assert (Hlen : length (take P24_WIDTH (drop (round * P24_WIDTH) (drop P24_ROUND_CONSTANT_OFFSET values))) =
    P24_WIDTH).
  { rewrite length_take, !length_drop, (params_length Hv).
    unfold P24_IV_OFFSET, P24_TOTAL_ROUNDS, P24_FULL_ROUNDS, P24_PARTIAL_ROUNDS, P24_WIDTH in *. lia. }
  split; [|split].
  - apply list_eq. intros lane. unfold add_round_constants, add_constants.
    rewrite list_lookup_imap, lookup_zip_with.
    destruct (state !! lane) as [v|] eqn:Hlane; cbn [fmap option_fmap option_map mbind option_bind]; [|done].
    assert (Hi : (lane < P24_WIDTH)%nat) by (apply lookup_lt_Some in Hlane; lia).
    destruct (take P24_WIDTH _ !! lane) as [c|] eqn:Hcl; cbn; [|apply lookup_ge_None in Hcl; lia].
    f_equal. unfold round_constant. rewrite parameter_row by done.
    rewrite (nth_lookup_Some _ _ 0 c Hcl). rewrite Forall_lookup in Hs.
    apply core_add_canonical; [by eapply Hs|].
    rewrite <-(nth_lookup_Some _ _ 0 c Hcl), <-parameter_row by done. apply parameter_wf.
  - unfold add_constants. rewrite length_zip_with. lia.
  - apply add_constants_wf.
Qed.

Lemma sbox_all_wf state : state_wf state -> state_wf (apply_sbox_to_all state).
Proof.
  intros [Hl _]. split; [by unfold apply_sbox_to_all; rewrite length_fmap|].
  apply Forall_fmap, Forall_true. intros x. apply sbox_seven_wf.
Qed.

Lemma external_dense state :
  state_wf state ->
  matmul_parameters values P24_EXTERNAL_OFFSET state = matmul (external_matrix reference_of) state /\
  state_wf (matmul (external_matrix reference_of) state).
Proof.
  intros Hs. split; [|apply matmul_wf; apply length_matrix_from].
  apply matmul_parameters_dense; [|done]. apply params_room. by_leb.
Qed.

Lemma full_round_dense state round constants :
  state_wf state -> round_constants reference_of !! round = Some constants ->
  full_round values state round = reference_full_round reference_of state constants /\
  state_wf (reference_full_round reference_of state constants).
Proof.
  intros Hs Hc. unfold full_round, reference_full_round.
  destruct (add_round_constants_dense _ _ _ Hs Hc) as [-> Ha]. by apply external_dense, sbox_all_wf.
Qed.

Lemma partial_round_dense state round constants :
  state_wf state -> round_constants reference_of !! round = Some constants ->
  partial_round values state round = reference_partial_round reference_of state constants /\
  state_wf (reference_partial_round reference_of state constants).
Proof.
  intros [Hl Hs] Hc.
  assert (Hr : (round < P24_TOTAL_ROUNDS)%nat).
  { apply lookup_lt_Some in Hc. cbn [round_constants reference_of] in Hc. by rewrite length_matrix_from in Hc. }
  rewrite constants_row in Hc by done. injection Hc as <-.
  split; [|apply matmul_wf, length_matrix_from].
  unfold partial_round, reference_partial_round, round_constant.
  rewrite parameter_row by by_leb.
  set (c := nth 0 _ 0). assert (Hcw : element_wf c).
  { unfold c. rewrite <-parameter_row by by_leb. apply parameter_wf. }
  destruct state as [|x state]; [done|]. apply Forall_cons in Hs as [Hx Hs]. cbn [alter list_alter].
  rewrite (proj2 (core_add_canonical x c Hx Hcw)). apply internal_dense.
  split; [done|]. constructor; [apply sbox_seven_wf|done].
Qed.

(** Running rounds by index and by slices of the constants. *)
Lemma rounds_dense (f : list Z -> nat -> list Z) (g : list Z -> list Z -> list Z) start n state :
  (forall state round constants, state_wf state -> round_constants reference_of !! round = Some constants ->
     f state round = g state constants /\ state_wf (g state constants)) ->
  (start + n <= P24_TOTAL_ROUNDS)%nat -> state_wf state ->
  foldl f state (seq start n) = foldl g state (take n (drop start (round_constants reference_of))) /\
  state_wf (foldl g state (take n (drop start (round_constants reference_of)))).
Proof.
  intros Hfg. revert start state. induction n as [|n IH]; intros start state Hn Hs; [done|].
  destruct (round_constants reference_of !! start) as [constants|] eqn:Hc.
  2:{ apply lookup_ge_None in Hc. cbn [round_constants reference_of] in Hc.
      rewrite length_matrix_from in Hc. lia. }
  rewrite (drop_S _ constants) by done. cbn [seq take foldl].
  destruct (Hfg state start constants Hs Hc) as [-> Hs']. apply IH; [lia|done].
Qed.

(** The two permutations on a canonical state. *)
Lemma permutation_dense state :
  state_wf state ->
  exists out, core_permutation values state = Ok out /\ reference_permutation reference_of state = Ok out /\
    state_wf out.
Proof.
  intros Hs. unfold core_permutation, reference_permutation, validate_elements.
  rewrite !validate_with_wf by apply Hs. cbn [mbind result_bind]. cbv zeta.
  destruct (external_dense _ Hs) as [-> H0].
  destruct (rounds_dense _ _ 0 P24_HALF_FULL_ROUNDS _ full_round_dense ltac:(by_leb) H0) as [-> H1].
  rewrite drop_0 in *.
  destruct (rounds_dense _ _ P24_HALF_FULL_ROUNDS P24_PARTIAL_ROUNDS _ partial_round_dense ltac:(by_leb) H1)
    as [-> H2].
  destruct (rounds_dense _ _ (P24_HALF_FULL_ROUNDS + P24_PARTIAL_ROUNDS) P24_HALF_FULL_ROUNDS _
    full_round_dense ltac:(by_leb) H2) as [-> H3].
  eexists. by split_and!.
Qed.

End Agreement.

(** ** Any dense evaluator *)

(** The shape of the matrices, which is all a total evaluator needs. *)
Record reference_wf (r : Poseidon2P24Reference) : Prop := mk_reference_wf {
  external_rows : length (external_matrix r) = P24_WIDTH;
  internal_rows : length (internal_matrix r) = P24_WIDTH;
  constant_rows : Forall (fun row => length row = P24_WIDTH) (round_constants r)
}.

Lemma foldl_state_wf {A} (f : list Z -> A -> list Z) (P : A -> Prop) state l :
  (forall state a, state_wf state -> P a -> state_wf (f state a)) -> Forall P l -> state_wf state ->
  state_wf (foldl f state l).
Proof. intros Hf Hl. revert state. induction Hl as [|a l Ha _ IH]; intros state Hs; cbn; [done|]. by apply IH, Hf. Qed.

Lemma reference_permutation_total r state :
  reference_wf r -> state_wf state -> exists out, reference_permutation r state = Ok out /\ state_wf out.
Proof.
  intros [He Hi Hc] Hs. unfold reference_permutation. rewrite validate_with_wf by apply Hs.
  cbn [mbind result_bind]. cbv zeta. eexists. split; [done|].
  apply (foldl_state_wf _ (fun row => length row = P24_WIDTH)); [|by apply Forall_take, Forall_drop|].
  { intros s row _ _. by apply matmul_wf. }
  apply (foldl_state_wf _ (fun row => length row = P24_WIDTH)); [|by apply Forall_take, Forall_drop|].
  { intros s row _ _. by apply matmul_wf. }
  apply (foldl_state_wf _ (fun row => length row = P24_WIDTH)); [|by apply Forall_take|].
  { intros s row _ _. by apply matmul_wf. }
  by apply matmul_wf.
Qed.

Lemma reference_of_wf values : parameters_wf values -> reference_wf (reference_of values).
Proof.
  intros Hv. split; [apply length_matrix_from..|]. apply matrix_rows. rewrite length_drop, (params_length _ Hv).
  by_leb.
Qed.

(** The sponge over it. *)
Lemma sponge_total r iv input :
  reference_wf r -> length iv = 9%nat -> Forall element_wf iv -> Forall element_wf input ->
  exists d, sponge field_add (reference_permutation r) iv input = Ok d /\ digest_wf d.
Proof.
  intros Hr Hl Hiv Hin.
  destruct (sponge_agree field_add field_add (reference_permutation r) (reference_permutation r)
    ltac:(intros a b _ _; split; [done|apply field_add_wf])
    ltac:(intros s Hs; destruct (reference_permutation_total r s Hr Hs) as (out & -> & Ho); by exists out)
    iv input Hl Hiv Hin) as (d & Hd & _ & Hw).
  by exists d.
Qed.

(** The bytes of a digest. *)
Lemma from_elements_total d : digest_wf d -> exists v, from_elements d = Ok v /\ elements v = d.
Proof.
  intros [Hl Hw]. destruct (try_into_is_Some 64 (concat (to_le_bytes 4 <$> d))) as (v & Hv & Hav).
  { by rewrite length_concat_le, Hl. }
  assert (He : elements v = d) by (unfold elements; rewrite Hav; by apply elements_of_concat).
  exists v. split; [|done]. by apply from_elements_Ok.
Qed.

Lemma elements_inj (v1 v2 : Vector) : elements v1 = elements v2 -> v1 = v2.
Proof.
  unfold elements. intros He. apply arr_inj.
  rewrite <-(concat_elements_of (arr v1)), <-(concat_elements_of (arr v2)), He; [done|exists 16%nat..];
    apply length_arr.
Qed.

Lemma vector_digest_wf v : vector_wf v -> digest_wf (elements v).
Proof.
  intros Hv. split; [apply length_elements|]. pose proof (elements_range v) as Hr. unfold vector_wf in Hv.
  rewrite Forall_forall in *. intros e He. split; [by apply Hr|by apply Hv].
Qed.
