(* ===== verification/Fips180.v ===== *)
(** * SHA-256 of FIPS 180-4

    An executable digest after the standard, an instance of the class [Sha2].  No
    definition of the development depends on it: it evaluates the checks of the
    frozen artifacts, whose expected digests are those of the real function. *)

From Stdlib Require Import Strings.Byte Strings.String.
From S2P Require Import Prelude Arrays Sha256.

Definition word_mask : Z := Z.ones 32.
Definition word_add (x y : Z) : Z := Z.land (x + y) word_mask.
Definition rotate_right (n x : Z) : Z :=
  Z.lor (Z.shiftr x n) (Z.land (Z.shiftl x (32 - n)) word_mask).

Definition choose (x y z : Z) : Z := Z.lxor z (Z.land x (Z.lxor y z)).
Definition majority (x y z : Z) : Z := Z.lor (Z.land x y) (Z.land z (Z.lor x y)).
Definition rotate_three (a b c x : Z) : Z :=
  Z.lxor (rotate_right a x) (Z.lxor (rotate_right b x) (rotate_right c x)).
Definition rotate_shift (a b c x : Z) : Z :=
  Z.lxor (rotate_right a x) (Z.lxor (rotate_right b x) (Z.shiftr x c)).

(** The constants are the first 32 bits of the fractional parts of roots of the
    first primes: cube roots for the rounds, square roots for the initial state. *)
Definition is_prime (n : nat) : bool := (2 <=? n)%nat && forallb (fun d => negb (n mod d =? 0)%nat) (seq 2 (n - 2)).
Definition first_primes (count bound : nat) : list Z := take count (Z.of_nat <$> List.filter is_prime (seq 0 bound)).

(** The largest [x < 2 ^ bits] with [x ^ 3 <= n], from its high bit down. *)
Fixpoint cube_root (bits : nat) (x n : Z) : Z :=
  match bits with
  | O => x
  | S bits => let y := x + 2 ^ Z.of_nat bits in cube_root bits (if y ^ 3 <=? n then y else x) n
  end.

Definition round_words : list Z :=
  Eval vm_compute in (fun p => Z.land (cube_root 40 0 (p * 2 ^ 96)) word_mask) <$> first_primes 64 312.

Definition initial_words : list Z :=
  Eval vm_compute in (fun p => Z.land (Z.sqrt (p * 2 ^ 64)) word_mask) <$> first_primes 8 20.

(** One round: the eight working words and the window of the next sixteen words
    of the message schedule. *)
Definition sha_round (s : list Z * list Z) (k : Z) : list Z * list Z :=
  match s with
  | ([a; b; c; d; e; f; g; h], w :: window) =>
      let t1 := word_add (word_add h (rotate_three 6 11 25 e)) (word_add (choose e f g) (word_add k w)) in
      let t2 := word_add (rotate_three 2 13 22 a) (majority a b c) in
      let next := word_add (word_add (rotate_shift 17 19 10 (nth 13 window 0)) (nth 8 window 0))
                    (word_add (rotate_shift 7 18 3 (nth 0 window 0)) w) in
      ([word_add t1 t2; a; b; c; word_add d t1; e; f; g], window ++ [next])
  | _ => s
  end.

Fixpoint be_words (bytes : list byte) : list Z :=
  match bytes with
  | a :: b :: c :: d :: bytes => from_be_bytes [a; b; c; d] :: be_words bytes
  | _ => []
  end.

Definition sha_block (state words : list Z) : list Z :=
  zip_with word_add state (fst (fold_left sha_round round_words (state, words))).

Fixpoint sha_blocks (fuel : nat) (state words : list Z) : list Z :=
  match fuel, words with
  | S fuel, _ :: _ => sha_blocks fuel (sha_block state (take 16 words)) (drop 16 words)
  | _, _ => state
  end.

Definition sha_padded (bytes : list byte) : list byte :=
  bytes ++ [x80] ++ replicate (Z.to_nat ((55 - len bytes) mod 64)) x00 ++ to_be_bytes 8 (8 * len bytes).

Definition fips_digest (bytes : list byte) : array 32 :=
  let words := be_words (sha_padded bytes) in
  let z := fold_left (fun acc w => acc * 2 ^ 32 + w) (sha_blocks (length words) initial_words words) 0 in
  mk_array (to_be_bytes 32 z) (norm_true (length_take_arr 32 _ (length_to_be_bytes 32 z))).

Definition fips_sha2 : Sha2 := {| sha256 := fips_digest |}.

(** The digest of [abc] in the standard. *)
Example fips_digest_abc :
  arr (fips_digest (bytes_of_string "abc")) =
  to_be_bytes 32 0xba7816bf8f01cfea414140de5dae2223b00361a396177a9cb410ff61f20015ad.
Proof. vm_compute. reflexivity. Qed.
