(* ===== verification/TreeManifest.v ===== *)
(** * The frozen parameter manifests ([noxis-tree-params])

    A candidate manifest embeds a payload of field elements, checks it against a
    frozen digest and re-derives the initialisation vectors it stores from hashes
    by rejection sampling.  The evaluators read a manifest through the record
    [P24Manifest]; [P24ManifestLaws] is what they rely on.  The base64 decoding of
    the embedded text is done by a crate outside the repository: [embedded] is its
    result, absent if the text is not base64. *)

From Stdlib Require Import Strings.Byte Strings.String.
From S2P Require Import Prelude Arrays Sha256 BabyBear Privacy Poseidon2 Poseidon2Facts.

(** ** Rejection sampling *)

Definition IV_ELEMENTS : nat := 9.

(** [for chunk in digest.chunks_exact(4)]: the canonical words, up to the number
    still wanted. *)
Definition accept_words (accepted words : list Z) : list Z :=
  take IV_ELEMENTS (accepted ++ filter (fun word => word < BABYBEAR_MODULUS) words).

Section Sampling.
Context `{Sha2}.
(** The hash input for a counter. *)
Context (preimage : Z -> list byte).

Definition digest_words (counter : Z) : list Z :=
  from_be_bytes <$> chunks 4 (arr (sha256 (preimage counter))).

(** [while accepted < output.len()], for at most [2 ^ depth] hashes; [None] is the
    panic of [checked_add]. *)
Fixpoint sample (depth : nat) (accepted : list Z) (counter : Z) : option (list Z * Z) :=
  if (IV_ELEMENTS <=? length accepted)%nat then Some (accepted, counter)
  else match depth with
  | O =>
      counter' ← checked_add U32_MAX counter 1;
      Some (accept_words accepted (digest_words counter), counter')
  | S depth =>
      '(accepted, counter) ← sample depth accepted counter; sample depth accepted counter
  end.

(** [derive_iv]: the counter has 32 bits, so 2^32 hashes exhaust it. *)
Definition derive_iv : option (list Z) := fst <$> sample 32 [] 0.

End Sampling.

(** ** The tree-parameter candidate ([p24.rs]) *)

Definition P24_CANDIDATE_MANIFEST_ID_DOMAIN : list byte :=
  bytes_of_string "NOXIS/TREE-P24-PARAMETERS-CANDIDATE-ID/V1" ++ [x00].
Definition P24_PARAMETER_PAYLOAD_LENGTH : nat := 7596.
Definition P24_CANDIDATE_MANIFEST_LENGTH : nat := 64 + P24_PARAMETER_PAYLOAD_LENGTH.
Definition DRAFT_TREE_MANIFEST_MAGIC : list byte := bytes_of_string "NXTM".
Definition P24_CANDIDATE_MANIFEST_VERSION : Z := 2.
Definition P24_CANDIDATE_KIND : Z := 1.
Definition P24_HEADER_RESERVED_BYTES : nat := 22.
Definition P24_IV_KDF_PREFIX : list byte := bytes_of_string "NOXIS/POSEIDON2-TREE-IV/V2" ++ [x00].
Definition EXPECTED_PAYLOAD_SHA256 : list byte :=
  [x48; xf6; xc2; x5b; x02; xa6; x40; xc0; x6e; x3b; xbc; x8f; xc4; x97; x04; x63;
   x4f; x25; x4c; xd0; xa7; x71; x61; xa5; x9b; x28; x3e; x53; x02; xa3; x90; xb0].

Definition tree_label (self : P24TreeDomain) : list byte :=
  match self with
  | P24TreeDomain.Leaf => bytes_of_string "NOXIS/POSEIDON2-TREE/V2/LEAF" ++ [x00]
  | P24TreeDomain.Node => bytes_of_string "NOXIS/POSEIDON2-TREE/V2/NODE" ++ [x00]
  | P24TreeDomain.EmptyBase => bytes_of_string "NOXIS/POSEIDON2-TREE/V2/EMPTY-BASE" ++ [x00]
  end.

Section Tree.
Context `{Sha2}.

Definition derive_tree_iv (domain : P24TreeDomain) : option (list Z) :=
  derive_iv (fun counter => P24_IV_KDF_PREFIX ++ tree_label domain ++ to_be_bytes 4 counter).

Context (embedded : option (list byte)).
(** The vectors that [derive_iv] returns. *)
Context (derived : P24TreeDomain -> list Z).

(** The nine words of a domain in the payload. *)
Definition stored_iv (payload : list byte) (domain : P24TreeDomain) : list Z :=
  let offset := ((P24_IV_OFFSET + domain_index domain * 9) * 4)%nat in
  (fun index => from_le_bytes (take 4 (drop (offset + index * 4) payload))) <$> seq 0 9.

Definition validate_iv (payload : list byte) (domain : P24TreeDomain)
    : Result Poseidon2P24CandidateError (list Z) :=
  let stored := stored_iv payload domain in
  if negb (bool_decide (stored = derived domain))
  then Err (Poseidon2P24CandidateError.InvalidDerivedIv domain)
  else Ok stored.

Definition validate_payload (payload : list byte) : Result Poseidon2P24CandidateError unit :=
  if negb (length payload =? P24_PARAMETER_PAYLOAD_LENGTH)%nat
  then Err (Poseidon2P24CandidateError.InvalidPayloadLength (len payload)
              (Z.of_nat P24_PARAMETER_PAYLOAD_LENGTH))
  else if negb (bool_decide (arr (sha256 payload) = EXPECTED_PAYLOAD_SHA256))
  then Err Poseidon2P24CandidateError.PayloadChecksumMismatch
  else
    _ ← validate_with Poseidon2P24CandidateError.NonCanonicalFieldElement (elements_of payload);
    _ ← validate_iv payload P24TreeDomain.Leaf;
    _ ← validate_iv payload P24TreeDomain.Node;
    _ ← validate_iv payload P24TreeDomain.EmptyBase;
    Ok tt.

Definition candidate_payload : Result Poseidon2P24CandidateError (list byte) :=
  payload ← ok_or embedded Poseidon2P24CandidateError.InvalidEmbeddedBase64;
  _ ← validate_payload payload;
  Ok payload.

Definition candidate_iv (domain : P24TreeDomain) : Result Poseidon2P24CandidateError (list Z) :=
  payload ← candidate_payload; validate_iv payload domain.

Definition manifest_header : list byte :=
  DRAFT_TREE_MANIFEST_MAGIC ++ to_be_bytes 2 P24_CANDIDATE_MANIFEST_VERSION ++
  (byte_of_Z <$> [P24_CANDIDATE_KIND; 0]) ++ to_be_bytes 2 1 ++
  (byte_of_Z <$> [32; 2; 1; 1; 16; 24; 7; 8; 21; 15; 9; 1; 1; 0]) ++
  to_be_bytes 4 BABYBEAR_MODULUS ++ to_be_bytes 2 24 ++
  (byte_of_Z <$> [24; 24; 24; 24; 29; 24; 3; 9]) ++
  to_be_bytes 4 (Z.of_nat P24_PARAMETER_PAYLOAD_LENGTH) ++ replicate P24_HEADER_RESERVED_BYTES x00.

Definition manifest_encode : Result Poseidon2P24CandidateError (list byte) :=
  payload ← candidate_payload; Ok (manifest_header ++ payload).

Definition manifest_decode (bytes : list byte) : Result Poseidon2P24CandidateError unit :=
  if negb (length bytes =? P24_CANDIDATE_MANIFEST_LENGTH)%nat
  then Err (Poseidon2P24CandidateError.InvalidManifestLength (len bytes)
              (Z.of_nat P24_CANDIDATE_MANIFEST_LENGTH))
  else if negb (bool_decide (take 4 bytes = DRAFT_TREE_MANIFEST_MAGIC))
  then Err Poseidon2P24CandidateError.InvalidManifestMagic
  else if negb (bool_decide (take 2 (drop 4 bytes) = to_be_bytes 2 P24_CANDIDATE_MANIFEST_VERSION))
  then Err Poseidon2P24CandidateError.UnsupportedManifestVersion
  else if negb (bool_decide (nth 6 bytes x00 = byte_of_Z P24_CANDIDATE_KIND))
  then Err Poseidon2P24CandidateError.UnsupportedManifestKind
  else
    canonical ← manifest_encode;
    if negb (bool_decide (bytes = canonical))
    then Err Poseidon2P24CandidateError.NonCanonicalManifest
    else Ok tt.

Definition candidate_id : Result Poseidon2P24CandidateError (array 32) :=
  manifest ← manifest_encode; Ok (sha256 (P24_CANDIDATE_MANIFEST_ID_DOMAIN ++ manifest)).

(** What its users see of the manifest. *)
Definition p24_manifest : P24Manifest := mk_P24Manifest candidate_payload candidate_iv candidate_id.

End Tree.
