(* ===== verification/P24Parameters.v ===== *)
(** * The frozen Poseidon2 parameters

    The 1899 words of the checked-in fixture
    [noxis-tree-params/fixtures/poseidon2_babybear_p24_candidate_v1.base64], which
    the build writes as [P24_PARAMETERS]: the internal diagonal, the external and
    the internal matrix, the round constants and the initialisation vectors. *)

From S2P Require Import Prelude.

Definition frozen_parameters : list Z := [
  1083257840; 375892129; 111593398; 1867716110; 658182609; 51866717; 1928969209; 1942928017; 1558116381;
  20525701; 1188752902; 106789798; 1389833583; 98371040; 1001081699; 1792686146; 801504236; 1997365680;
  1461037801; 65998480; 1974912880; 606789471; 13683276; 918610824; 10; 14; 2; 6; 5; 7; 1; 3; 5; 7; 1; 3;
  5; 7; 1; 3; 5; 7; 1; 3; 5; 7; 1; 3; 8; 12; 2; 2; 4; 6; 1; 1; 4; 6; 1; 1; 4; 6; 1; 1; 4; 6; 1; 1; 4; 6; 1;
  1; 2; 6; 10; 14; 1; 3; 5; 7; 1; 3; 5; 7; 1; 3; 5; 7; 1; 3; 5; 7; 1; 3; 5; 7; 2; 2; 8; 12; 1; 1; 4; 6; 1;
  1; 4; 6; 1; 1; 4; 6; 1; 1; 4; 6; 1; 1; 4; 6; 5; 7; 1; 3; 10; 14; 2; 6; 5; 7; 1; 3; 5; 7; 1; 3; 5; 7; 1;
  3; 5; 7; 1; 3; 4; 6; 1; 1; 8; 12; 2; 2; 4; 6; 1; 1; 4; 6; 1; 1; 4; 6; 1; 1; 4; 6; 1; 1; 1; 3; 5; 7; 2; 6;
  10; 14; 1; 3; 5; 7; 1; 3; 5; 7; 1; 3; 5; 7; 1; 3; 5; 7; 1; 1; 4; 6; 2; 2; 8; 12; 1; 1; 4; 6; 1; 1; 4; 6;
  1; 1; 4; 6; 1; 1; 4; 6; 5; 7; 1; 3; 5; 7; 1; 3; 10; 14; 2; 6; 5; 7; 1; 3; 5; 7; 1; 3; 5; 7; 1; 3; 4; 6;
  1; 1; 4; 6; 1; 1; 8; 12; 2; 2; 4; 6; 1; 1; 4; 6; 1; 1; 4; 6; 1; 1; 1; 3; 5; 7; 1; 3; 5; 7; 2; 6; 10; 14;
  1; 3; 5; 7; 1; 3; 5; 7; 1; 3; 5; 7; 1; 1; 4; 6; 1; 1; 4; 6; 2; 2; 8; 12; 1; 1; 4; 6; 1; 1; 4; 6; 1; 1; 4;
  6; 5; 7; 1; 3; 5; 7; 1; 3; 5; 7; 1; 3; 10; 14; 2; 6; 5; 7; 1; 3; 5; 7; 1; 3; 4; 6; 1; 1; 4; 6; 1; 1; 4;
  6; 1; 1; 8; 12; 2; 2; 4; 6; 1; 1; 4; 6; 1; 1; 1; 3; 5; 7; 1; 3; 5; 7; 1; 3; 5; 7; 2; 6; 10; 14; 1; 3; 5;
  7; 1; 3; 5; 7; 1; 1; 4; 6; 1; 1; 4; 6; 1; 1; 4; 6; 2; 2; 8; 12; 1; 1; 4; 6; 1; 1; 4; 6; 5; 7; 1; 3; 5; 7;
  1; 3; 5; 7; 1; 3; 5; 7; 1; 3; 10; 14; 2; 6; 5; 7; 1; 3; 4; 6; 1; 1; 4; 6; 1; 1; 4; 6; 1; 1; 4; 6; 1; 1;
  8; 12; 2; 2; 4; 6; 1; 1; 1; 3; 5; 7; 1; 3; 5; 7; 1; 3; 5; 7; 1; 3; 5; 7; 2; 6; 10; 14; 1; 3; 5; 7; 1; 1;
  4; 6; 1; 1; 4; 6; 1; 1; 4; 6; 1; 1; 4; 6; 2; 2; 8; 12; 1; 1; 4; 6; 5; 7; 1; 3; 5; 7; 1; 3; 5; 7; 1; 3; 5;
  7; 1; 3; 5; 7; 1; 3; 10; 14; 2; 6; 4; 6; 1; 1; 4; 6; 1; 1; 4; 6; 1; 1; 4; 6; 1; 1; 4; 6; 1; 1; 8; 12; 2;
  2; 1; 3; 5; 7; 1; 3; 5; 7; 1; 3; 5; 7; 1; 3; 5; 7; 1; 3; 5; 7; 2; 6; 10; 14; 1; 1; 4; 6; 1; 1; 4; 6; 1;
  1; 4; 6; 1; 1; 4; 6; 1; 1; 4; 6; 2; 2; 8; 12; 1083257841; 1; 1; 1; 1; 1; 1; 1; 1; 1; 1; 1; 1; 1; 1; 1; 1;
  1; 1; 1; 1; 1; 1; 1; 1; 375892130; 1; 1; 1; 1; 1; 1; 1; 1; 1; 1; 1; 1; 1; 1; 1; 1; 1; 1; 1; 1; 1; 1; 1;
  1; 111593399; 1; 1; 1; 1; 1; 1; 1; 1; 1; 1; 1; 1; 1; 1; 1; 1; 1; 1; 1; 1; 1; 1; 1; 1; 1867716111; 1; 1;
  1; 1; 1; 1; 1; 1; 1; 1; 1; 1; 1; 1; 1; 1; 1; 1; 1; 1; 1; 1; 1; 1; 658182610; 1; 1; 1; 1; 1; 1; 1; 1; 1;
  1; 1; 1; 1; 1; 1; 1; 1; 1; 1; 1; 1; 1; 1; 1; 51866718; 1; 1; 1; 1; 1; 1; 1; 1; 1; 1; 1; 1; 1; 1; 1; 1; 1;
  1; 1; 1; 1; 1; 1; 1; 1928969210; 1; 1; 1; 1; 1; 1; 1; 1; 1; 1; 1; 1; 1; 1; 1; 1; 1; 1; 1; 1; 1; 1; 1; 1;
  1942928018; 1; 1; 1; 1; 1; 1; 1; 1; 1; 1; 1; 1; 1; 1; 1; 1; 1; 1; 1; 1; 1; 1; 1; 1; 1558116382; 1; 1; 1;
  1; 1; 1; 1; 1; 1; 1; 1; 1; 1; 1; 1; 1; 1; 1; 1; 1; 1; 1; 1; 1; 20525702; 1; 1; 1; 1; 1; 1; 1; 1; 1; 1; 1;
  1; 1; 1; 1; 1; 1; 1; 1; 1; 1; 1; 1; 1; 1188752903; 1; 1; 1; 1; 1; 1; 1; 1; 1; 1; 1; 1; 1; 1; 1; 1; 1; 1;
  1; 1; 1; 1; 1; 1; 106789799; 1; 1; 1; 1; 1; 1; 1; 1; 1; 1; 1; 1; 1; 1; 1; 1; 1; 1; 1; 1; 1; 1; 1; 1;
  1389833584; 1; 1; 1; 1; 1; 1; 1; 1; 1; 1; 1; 1; 1; 1; 1; 1; 1; 1; 1; 1; 1; 1; 1; 1; 98371041; 1; 1; 1; 1;
  1; 1; 1; 1; 1; 1; 1; 1; 1; 1; 1; 1; 1; 1; 1; 1; 1; 1; 1; 1; 1001081700; 1; 1; 1; 1; 1; 1; 1; 1; 1; 1; 1;
  1; 1; 1; 1; 1; 1; 1; 1; 1; 1; 1; 1; 1; 1792686147; 1; 1; 1; 1; 1; 1; 1; 1; 1; 1; 1; 1; 1; 1; 1; 1; 1; 1;
  1; 1; 1; 1; 1; 1; 801504237; 1; 1; 1; 1; 1; 1; 1; 1; 1; 1; 1; 1; 1; 1; 1; 1; 1; 1; 1; 1; 1; 1; 1; 1;
  1997365681; 1; 1; 1; 1; 1; 1; 1; 1; 1; 1; 1; 1; 1; 1; 1; 1; 1; 1; 1; 1; 1; 1; 1; 1; 1461037802; 1; 1; 1;
  1; 1; 1; 1; 1; 1; 1; 1; 1; 1; 1; 1; 1; 1; 1; 1; 1; 1; 1; 1; 1; 65998481; 1; 1; 1; 1; 1; 1; 1; 1; 1; 1; 1;
  1; 1; 1; 1; 1; 1; 1; 1; 1; 1; 1; 1; 1; 1974912881; 1; 1; 1; 1; 1; 1; 1; 1; 1; 1; 1; 1; 1; 1; 1; 1; 1; 1;
  1; 1; 1; 1; 1; 1; 606789472; 1; 1; 1; 1; 1; 1; 1; 1; 1; 1; 1; 1; 1; 1; 1; 1; 1; 1; 1; 1; 1; 1; 1; 1;
  13683277; 1; 1; 1; 1; 1; 1; 1; 1; 1; 1; 1; 1; 1; 1; 1; 1; 1; 1; 1; 1; 1; 1; 1; 1; 918610825; 262278199;
  127253399; 314968988; 246143118; 157582794; 118043943; 454905424; 815798990; 1004040026; 1773108264;
  1066694495; 1930780904; 1180307149; 1464793095; 1660766320; 1389166148; 343354132; 1307439985; 638242172;
  525458520; 1964135730; 1751797115; 1421525369; 831813382; 695835963; 1845603984; 540703332; 1333667262;
  1917861751; 1170029417; 1989924532; 1518763784; 1339793538; 622609176; 686842369; 1737016378; 1282239129;
  897025192; 716894289; 1997503974; 395622276; 1201063290; 1917549072; 1150912935; 1687379185; 1507936940;
  241306552; 989176635; 1147522062; 27129487; 1257820264; 142102402; 217046702; 1664590951; 855276054;
  1215259350; 946500736; 552696906; 1424297384; 538103555; 1608853840; 162510541; 623051854; 1549062383;
  1908416316; 1622328571; 1079030649; 1584033957; 1099252725; 1910423126; 447555988; 862495875; 128479034;
  1587822577; 608401422; 1290028279; 342857858; 825405577; 427731030; 1718628547; 588764636; 204228775;
  1454563174; 1740472809; 1338899225; 1269493554; 53007114; 1647670797; 306391314; 172614232; 51256176;
  1221257987; 1239734761; 273790406; 1781980094; 1291790245; 497520322; 0; 0; 0; 0; 0; 0; 0; 0; 0; 0; 0; 0;
  0; 0; 0; 0; 0; 0; 0; 0; 0; 0; 0; 1930103076; 0; 0; 0; 0; 0; 0; 0; 0; 0; 0; 0; 0; 0; 0; 0; 0; 0; 0; 0; 0;
  0; 0; 0; 1052077299; 0; 0; 0; 0; 0; 0; 0; 0; 0; 0; 0; 0; 0; 0; 0; 0; 0; 0; 0; 0; 0; 0; 0; 1540960371; 0;
  0; 0; 0; 0; 0; 0; 0; 0; 0; 0; 0; 0; 0; 0; 0; 0; 0; 0; 0; 0; 0; 0; 924863639; 0; 0; 0; 0; 0; 0; 0; 0; 0;
  0; 0; 0; 0; 0; 0; 0; 0; 0; 0; 0; 0; 0; 0; 1365519753; 0; 0; 0; 0; 0; 0; 0; 0; 0; 0; 0; 0; 0; 0; 0; 0; 0;
  0; 0; 0; 0; 0; 0; 1726563304; 0; 0; 0; 0; 0; 0; 0; 0; 0; 0; 0; 0; 0; 0; 0; 0; 0; 0; 0; 0; 0; 0; 0;
  440300254; 0; 0; 0; 0; 0; 0; 0; 0; 0; 0; 0; 0; 0; 0; 0; 0; 0; 0; 0; 0; 0; 0; 0; 1891545577; 0; 0; 0; 0;
  0; 0; 0; 0; 0; 0; 0; 0; 0; 0; 0; 0; 0; 0; 0; 0; 0; 0; 0; 822033215; 0; 0; 0; 0; 0; 0; 0; 0; 0; 0; 0; 0;
  0; 0; 0; 0; 0; 0; 0; 0; 0; 0; 0; 1111544260; 0; 0; 0; 0; 0; 0; 0; 0; 0; 0; 0; 0; 0; 0; 0; 0; 0; 0; 0; 0;
  0; 0; 0; 308575117; 0; 0; 0; 0; 0; 0; 0; 0; 0; 0; 0; 0; 0; 0; 0; 0; 0; 0; 0; 0; 0; 0; 0; 1708681573; 0;
  0; 0; 0; 0; 0; 0; 0; 0; 0; 0; 0; 0; 0; 0; 0; 0; 0; 0; 0; 0; 0; 0; 1240419708; 0; 0; 0; 0; 0; 0; 0; 0; 0;
  0; 0; 0; 0; 0; 0; 0; 0; 0; 0; 0; 0; 0; 0; 1199068823; 0; 0; 0; 0; 0; 0; 0; 0; 0; 0; 0; 0; 0; 0; 0; 0; 0;
  0; 0; 0; 0; 0; 0; 1186174623; 0; 0; 0; 0; 0; 0; 0; 0; 0; 0; 0; 0; 0; 0; 0; 0; 0; 0; 0; 0; 0; 0; 0;
  1551596046; 0; 0; 0; 0; 0; 0; 0; 0; 0; 0; 0; 0; 0; 0; 0; 0; 0; 0; 0; 0; 0; 0; 0; 1886977120; 0; 0; 0; 0;
  0; 0; 0; 0; 0; 0; 0; 0; 0; 0; 0; 0; 0; 0; 0; 0; 0; 0; 0; 1327682690; 0; 0; 0; 0; 0; 0; 0; 0; 0; 0; 0; 0;
  0; 0; 0; 0; 0; 0; 0; 0; 0; 0; 0; 1210751726; 0; 0; 0; 0; 0; 0; 0; 0; 0; 0; 0; 0; 0; 0; 0; 0; 0; 0; 0; 0;
  0; 0; 0; 1810596765; 0; 0; 0; 0; 0; 0; 0; 0; 0; 0; 0; 0; 0; 0; 0; 0; 0; 0; 0; 0; 0; 0; 0; 53041581;
  723038058; 1439947916; 1136469704; 205609311; 1883820770; 14387587; 720724951; 1854174607; 1629316321;
  530151394; 1679178250; 1549779579; 48375137; 976057819; 463976218; 875839332; 1946596189; 434078361;
  1878280202; 1363837384; 1470845646; 1792450386; 1040977421; 1209164052; 714957516; 390340387; 1213686459;
  790726260; 117294666; 140621810; 993455846; 1889603648; 78845751; 925018226; 708123747; 1647665372;
  1649953458; 942439428; 1006235079; 238616145; 930036496; 1401020792; 989618631; 1545325389; 1715719711;
  755691969; 150307788; 1567618575; 1663353317; 1950429111; 1891637550; 192082241; 1080533265; 1463323727;
  890243564; 158646617; 1402624179; 59510015; 1198261138; 1065075039; 1150410028; 1293938517; 76770019;
  1478577620; 1748789933; 457372011; 1841795381; 760115692; 1042892522; 1507649755; 1827572010; 1206940496;
  1896271507; 1003792297; 738091882; 1124078057; 1889898; 813674331; 228520958; 1832911930; 781141772;
  459826664; 202271745; 1296144415; 1111203133; 1090783436; 641665156; 1393671120; 1303271640; 809508074;
  162506101; 1262312258; 1672219447; 1608891156; 1380248020; 1715759230; 249999687; 1330481756; 332819014;
  858899600; 1629379922; 798936327; 1891598621; 1138906242; 1083254345; 979775538; 39404930; 747249100;
  754301869; 1796627618; 536507185; 1559761034; 980659263; 1123440458; 1059224467; 343664718; 1070154018;
  1064192615; 460784134; 1802221789; 29930173; 691548159 ].

(** The inverses of the two matrices modulo the field prime. *)
Definition external_inverse : list (list Z) := [
  [ 1366144732; 1941363567; 143804708; 503316481; 1114486492; 683072366; 647121189; 251658240; 1114486492;
    683072366; 647121189; 251658240; 1114486492; 683072366; 647121189; 251658240; 1114486492; 683072366;
    647121189; 251658240; 1114486492; 683072366; 647121189; 251658240 ];
  [ 647121189; 1366144732; 575218835; 790925897; 898779429; 1114486492; 1581851795; 1545900618; 898779429;
    1114486492; 1581851795; 1545900618; 898779429; 1114486492; 1581851795; 1545900618; 898779429;
    1114486492; 1581851795; 1545900618; 898779429; 1114486492; 1581851795; 1545900618 ];
  [ 143804708; 503316481; 1366144732; 1941363567; 647121189; 251658240; 1114486492; 683072366; 647121189;
    251658240; 1114486492; 683072366; 647121189; 251658240; 1114486492; 683072366; 647121189; 251658240;
    1114486492; 683072366; 647121189; 251658240; 1114486492; 683072366 ];
  [ 575218835; 790925897; 647121189; 1366144732; 1581851795; 1545900618; 898779429; 1114486492; 1581851795;
    1545900618; 898779429; 1114486492; 1581851795; 1545900618; 898779429; 1114486492; 1581851795;
    1545900618; 898779429; 1114486492; 1581851795; 1545900618; 898779429; 1114486492 ];
  [ 1114486492; 683072366; 647121189; 251658240; 1366144732; 1941363567; 143804708; 503316481; 1114486492;
    683072366; 647121189; 251658240; 1114486492; 683072366; 647121189; 251658240; 1114486492; 683072366;
    647121189; 251658240; 1114486492; 683072366; 647121189; 251658240 ];
  [ 898779429; 1114486492; 1581851795; 1545900618; 647121189; 1366144732; 575218835; 790925897; 898779429;
    1114486492; 1581851795; 1545900618; 898779429; 1114486492; 1581851795; 1545900618; 898779429;
    1114486492; 1581851795; 1545900618; 898779429; 1114486492; 1581851795; 1545900618 ];
  [ 647121189; 251658240; 1114486492; 683072366; 143804708; 503316481; 1366144732; 1941363567; 647121189;
    251658240; 1114486492; 683072366; 647121189; 251658240; 1114486492; 683072366; 647121189; 251658240;
    1114486492; 683072366; 647121189; 251658240; 1114486492; 683072366 ];
  [ 1581851795; 1545900618; 898779429; 1114486492; 575218835; 790925897; 647121189; 1366144732; 1581851795;
    1545900618; 898779429; 1114486492; 1581851795; 1545900618; 898779429; 1114486492; 1581851795;
    1545900618; 898779429; 1114486492; 1581851795; 1545900618; 898779429; 1114486492 ];
  [ 1114486492; 683072366; 647121189; 251658240; 1114486492; 683072366; 647121189; 251658240; 1366144732;
    1941363567; 143804708; 503316481; 1114486492; 683072366; 647121189; 251658240; 1114486492; 683072366;
    647121189; 251658240; 1114486492; 683072366; 647121189; 251658240 ];
  [ 898779429; 1114486492; 1581851795; 1545900618; 898779429; 1114486492; 1581851795; 1545900618;
    647121189; 1366144732; 575218835; 790925897; 898779429; 1114486492; 1581851795; 1545900618; 898779429;
    1114486492; 1581851795; 1545900618; 898779429; 1114486492; 1581851795; 1545900618 ];
  [ 647121189; 251658240; 1114486492; 683072366; 647121189; 251658240; 1114486492; 683072366; 143804708;
    503316481; 1366144732; 1941363567; 647121189; 251658240; 1114486492; 683072366; 647121189; 251658240;
    1114486492; 683072366; 647121189; 251658240; 1114486492; 683072366 ];
  [ 1581851795; 1545900618; 898779429; 1114486492; 1581851795; 1545900618; 898779429; 1114486492;
    575218835; 790925897; 647121189; 1366144732; 1581851795; 1545900618; 898779429; 1114486492; 1581851795;
    1545900618; 898779429; 1114486492; 1581851795; 1545900618; 898779429; 1114486492 ];
  [ 1114486492; 683072366; 647121189; 251658240; 1114486492; 683072366; 647121189; 251658240; 1114486492;
    683072366; 647121189; 251658240; 1366144732; 1941363567; 143804708; 503316481; 1114486492; 683072366;
    647121189; 251658240; 1114486492; 683072366; 647121189; 251658240 ];
  [ 898779429; 1114486492; 1581851795; 1545900618; 898779429; 1114486492; 1581851795; 1545900618;
    898779429; 1114486492; 1581851795; 1545900618; 647121189; 1366144732; 575218835; 790925897; 898779429;
    1114486492; 1581851795; 1545900618; 898779429; 1114486492; 1581851795; 1545900618 ];
  [ 647121189; 251658240; 1114486492; 683072366; 647121189; 251658240; 1114486492; 683072366; 647121189;
    251658240; 1114486492; 683072366; 143804708; 503316481; 1366144732; 1941363567; 647121189; 251658240;
    1114486492; 683072366; 647121189; 251658240; 1114486492; 683072366 ];
  [ 1581851795; 1545900618; 898779429; 1114486492; 1581851795; 1545900618; 898779429; 1114486492;
    1581851795; 1545900618; 898779429; 1114486492; 575218835; 790925897; 647121189; 1366144732; 1581851795;
    1545900618; 898779429; 1114486492; 1581851795; 1545900618; 898779429; 1114486492 ];
  [ 1114486492; 683072366; 647121189; 251658240; 1114486492; 683072366; 647121189; 251658240; 1114486492;
    683072366; 647121189; 251658240; 1114486492; 683072366; 647121189; 251658240; 1366144732; 1941363567;
    143804708; 503316481; 1114486492; 683072366; 647121189; 251658240 ];
  [ 898779429; 1114486492; 1581851795; 1545900618; 898779429; 1114486492; 1581851795; 1545900618;
    898779429; 1114486492; 1581851795; 1545900618; 898779429; 1114486492; 1581851795; 1545900618;
    647121189; 1366144732; 575218835; 790925897; 898779429; 1114486492; 1581851795; 1545900618 ];
  [ 647121189; 251658240; 1114486492; 683072366; 647121189; 251658240; 1114486492; 683072366; 647121189;
    251658240; 1114486492; 683072366; 647121189; 251658240; 1114486492; 683072366; 143804708; 503316481;
    1366144732; 1941363567; 647121189; 251658240; 1114486492; 683072366 ];
  [ 1581851795; 1545900618; 898779429; 1114486492; 1581851795; 1545900618; 898779429; 1114486492;
    1581851795; 1545900618; 898779429; 1114486492; 1581851795; 1545900618; 898779429; 1114486492;
    575218835; 790925897; 647121189; 1366144732; 1581851795; 1545900618; 898779429; 1114486492 ];
  [ 1114486492; 683072366; 647121189; 251658240; 1114486492; 683072366; 647121189; 251658240; 1114486492;
    683072366; 647121189; 251658240; 1114486492; 683072366; 647121189; 251658240; 1114486492; 683072366;
    647121189; 251658240; 1366144732; 1941363567; 143804708; 503316481 ];
  [ 898779429; 1114486492; 1581851795; 1545900618; 898779429; 1114486492; 1581851795; 1545900618;
    898779429; 1114486492; 1581851795; 1545900618; 898779429; 1114486492; 1581851795; 1545900618;
    898779429; 1114486492; 1581851795; 1545900618; 647121189; 1366144732; 575218835; 790925897 ];
  [ 647121189; 251658240; 1114486492; 683072366; 647121189; 251658240; 1114486492; 683072366; 647121189;
    251658240; 1114486492; 683072366; 647121189; 251658240; 1114486492; 683072366; 647121189; 251658240;
    1114486492; 683072366; 143804708; 503316481; 1366144732; 1941363567 ];
  [ 1581851795; 1545900618; 898779429; 1114486492; 1581851795; 1545900618; 898779429; 1114486492;
    1581851795; 1545900618; 898779429; 1114486492; 1581851795; 1545900618; 898779429; 1114486492;
    1581851795; 1545900618; 898779429; 1114486492; 575218835; 790925897; 647121189; 1366144732 ] ].

Definition internal_inverse : list (list Z) := [
  [ 120749269; 1930929105; 501437788; 24438405; 1445165850; 1470656466; 207022456; 372427644; 901060571;
    455052532; 343708240; 187550684; 247101282; 867207458; 1627203685; 601930238; 652300547; 275542997;
    1780149505; 203469958; 733815332; 1458054966; 596049377; 328292325 ];
  [ 1930929105; 372798824; 1663436658; 50224104; 1676552720; 1315493058; 594826170; 527986745; 214881781;
    278319840; 1510343400; 507014271; 574293120; 126298686; 1739674607; 1898477166; 1662861162; 154457236;
    1684832225; 1167387212; 587328476; 800284179; 1428608938; 362286422 ];
  [ 501437788; 1663436658; 636393660; 444926013; 498854313; 565710000; 957578268; 476349509; 1982345545;
    1425908549; 704080960; 1816309941; 782240769; 644885233; 1818514424; 1320764981; 1120411953; 200042937;
    1582250732; 621110833; 768940206; 183982104; 1703924997; 2004573490 ];
  [ 24438405; 50224104; 444926013; 345933121; 903181107; 841209443; 1105044570; 1625258806; 1458976836;
    1130286074; 1880766239; 642125394; 157266051; 1386506619; 1872786787; 935075920; 191498059; 1414936925;
    664897022; 357155741; 1591735588; 1774636411; 1412627062; 67538722 ];
  [ 1445165850; 1676552720; 498854313; 903181107; 137262692; 1307338997; 801277610; 1152946803; 1942932420;
    1682865775; 1458689523; 317608068; 825293952; 189672774; 1150450805; 964690629; 1284212711; 427762275;
    984280861; 1156402708; 1362996587; 1121690355; 1473655894; 192605785 ];
  [ 1470656466; 1315493058; 565710000; 841209443; 1307338997; 1792785469; 1812450350; 571440788; 985783208;
    922918379; 1311148883; 429148953; 1872585200; 879351415; 79418738; 441191755; 455897869; 1784875073;
    618914815; 326958329; 1745722498; 1594726604; 644114750; 1547543735 ];
  [ 207022456; 594826170; 957578268; 1105044570; 801277610; 1812450350; 874473891; 1182867373; 21827777;
    1056351522; 1205110989; 72004481; 988123825; 248138909; 914954535; 1580200320; 1557193264; 1161657282;
    564982386; 1636677092; 1125306654; 643124039; 1803579812; 1099512937 ];
  [ 372427644; 527986745; 476349509; 1625258806; 1152946803; 571440788; 1182867373; 844918720; 1095778669;
    1325138472; 684141886; 1502979136; 1423186567; 1318728943; 1885963346; 794432146; 537474058; 573585561;
    1055805063; 645309727; 1069209508; 708819883; 1418134296; 1040017737 ];
  [ 901060571; 214881781; 1982345545; 1458976836; 1942932420; 985783208; 21827777; 1095778669; 817431199;
    1454799852; 1353824649; 788098578; 487849601; 429785288; 117035659; 66857316; 567747467; 956954575;
    1446188191; 111413079; 1516712744; 1401640736; 409598176; 1152133935 ];
  [ 455052532; 278319840; 1425908549; 1130286074; 1682865775; 922918379; 1056351522; 1325138472;
    1454799852; 1809833502; 222237247; 20391214; 827932425; 397089542; 2004461056; 374658733; 636780233;
    436808075; 2010483510; 758300057; 759371959; 1467233538; 549129902; 1108148944 ];
  [ 343708240; 1510343400; 704080960; 1880766239; 1458689523; 1311148883; 1205110989; 684141886;
    1353824649; 222237247; 744683751; 1256320617; 845933927; 1958485118; 33935242; 1299952227; 1223588247;
    1834503918; 454402071; 1884703484; 1752969443; 750970207; 458236146; 1096634451 ];
  [ 187550684; 507014271; 1816309941; 642125394; 317608068; 429148953; 72004481; 1502979136; 788098578;
    20391214; 1256320617; 85893979; 1519950421; 1962059862; 99785962; 1607756813; 1746048100; 1560059657;
    448098824; 807260106; 252338121; 852741527; 160758908; 1420879032 ];
  [ 247101282; 574293120; 782240769; 157266051; 825293952; 1872585200; 988123825; 1423186567; 487849601;
    827932425; 845933927; 1519950421; 1807590886; 1932776109; 94072442; 410464312; 947885471; 1941164597;
    1083093019; 791981937; 23067880; 530519149; 329774216; 1380015366 ];
  [ 867207458; 126298686; 644885233; 1386506619; 189672774; 879351415; 248138909; 1318728943; 429785288;
    397089542; 1958485118; 1962059862; 1932776109; 1327582153; 304911240; 577450575; 1377412685; 209608750;
    1719637633; 918447308; 495282120; 1566616628; 616833463; 1475200656 ];
  [ 1627203685; 1739674607; 1818514424; 1872786787; 1150450805; 79418738; 914954535; 1885963346; 117035659;
    2004461056; 33935242; 99785962; 94072442; 304911240; 1383551587; 236099002; 1033248229; 1284712315;
    1878437064; 1028155800; 51223901; 1109386932; 484011177; 1098335554 ];
  [ 601930238; 1898477166; 1320764981; 935075920; 964690629; 441191755; 1580200320; 794432146; 66857316;
    374658733; 1299952227; 1607756813; 410464312; 577450575; 236099002; 1421181850; 1670532601; 1509814694;
    1538363600; 1447769738; 1151927217; 72444064; 521616106; 821363546 ];
  [ 652300547; 1662861162; 1120411953; 191498059; 1284212711; 455897869; 1557193264; 537474058; 567747467;
    636780233; 1223588247; 1746048100; 947885471; 1377412685; 1033248229; 1670532601; 1614214521;
    403181365; 1338468476; 1397085758; 333563504; 1998152725; 720067172; 961873141 ];
  [ 275542997; 154457236; 200042937; 1414936925; 427762275; 1784875073; 1161657282; 573585561; 956954575;
    436808075; 1834503918; 1560059657; 1941164597; 209608750; 1284712315; 1509814694; 403181365;
    1185770200; 218123586; 100031788; 1559195019; 1546378971; 1798383881; 1561950597 ];
  [ 1780149505; 1684832225; 1582250732; 664897022; 984280861; 618914815; 564982386; 1055805063; 1446188191;
    2010483510; 454402071; 448098824; 1083093019; 1719637633; 1878437064; 1538363600; 1338468476;
    218123586; 214901793; 1744468710; 1703780110; 963602816; 1160715349; 1948709637 ];
  [ 203469958; 1167387212; 621110833; 357155741; 1156402708; 326958329; 1636677092; 645309727; 111413079;
    758300057; 1884703484; 807260106; 791981937; 918447308; 1028155800; 1447769738; 1397085758; 100031788;
    1744468710; 1150440881; 1412186953; 412465442; 876427828; 317937545 ];
  [ 733815332; 587328476; 768940206; 1591735588; 1362996587; 1745722498; 1125306654; 1069209508;
    1516712744; 759371959; 1752969443; 252338121; 23067880; 495282120; 51223901; 1151927217; 333563504;
    1559195019; 1703780110; 1412186953; 104100602; 897760237; 295249757; 1423060905 ];
  [ 1458054966; 800284179; 183982104; 1774636411; 1121690355; 1594726604; 643124039; 708819883; 1401640736;
    1467233538; 750970207; 852741527; 530519149; 1566616628; 1109386932; 72444064; 1998152725; 1546378971;
    963602816; 412465442; 897760237; 723380535; 1903327821; 746295583 ];
  [ 596049377; 1428608938; 1703924997; 1412627062; 1473655894; 644114750; 1803579812; 1418134296;
    409598176; 549129902; 458236146; 160758908; 329774216; 616833463; 484011177; 521616106; 720067172;
    1798383881; 1160715349; 876427828; 295249757; 1903327821; 926049573; 1588221412 ];
  [ 328292325; 362286422; 2004573490; 67538722; 192605785; 1547543735; 1099512937; 1040017737; 1152133935;
    1108148944; 1096634451; 1420879032; 1380015366; 1475200656; 1098335554; 821363546; 961873141;
    1561950597; 1948709637; 317937545; 1423060905; 746295583; 1588221412; 1648301281 ] ].
