(* ===== verification/Poseidon2Frozen.v ===== *)
(** * The frozen permutation is a permutation

    The linear layers of the frozen candidate are invertible and the S-box is a
    bijection, so the evaluated function permutes the canonical states. *)

From Stdlib Require Import Strings.Byte.
From S2P Require Import Prelude BabyBear Privacy Poseidon2 Poseidon2Facts P24Parameters.

#[local] Instance ok_inj {E A} : Inj (=) (=) (@Ok E A).
Proof. by intros x y [= ->]. Qed.

(** ** Linear algebra modulo the prime *)

Definition vadd (u v : list Z) : list Z := zip_with Z.add u v.
Definition scale (m : Z) (u : list Z) : list Z := Z.mul m <$> u.

(** The linear combination of the rows of a matrix. *)
Definition combination (n : nat) (coefficients : list Z) (matrix : list (list Z)) : list Z :=
  foldr (fun '(m, row) acc => vadd (scale m row) acc) (replicate n 0) (zip coefficients matrix).

Definition unit_vector (n i : nat) : list Z := (fun j => if (j =? i)%nat then 1 else 0) <$> seq 0 n.

(** The left matrix inverts the right one. *)
Definition inverts (n : nat) (left right : list (list Z)) : bool :=
  forallb (fun i =>
    bool_decide ((fun v => v mod BABYBEAR_MODULUS) <$> combination n (nth i left []) right = unit_vector n i))
    (seq 0 n).

Definition square (n : nat) (matrix : list (list Z)) : bool :=
  (length matrix =? n)%nat && forallb (fun row => (length row =? n)%nat) matrix.

Lemma dot_cons m row s state : dot (m :: row) (s :: state) = m * s + dot row state.
Proof. done. Qed.

Lemma dot_vadd u v state : length u = length v -> dot (vadd u v) state = dot u state + dot v state.
Proof.
  revert v state. induction u as [|x u IH]; intros [|y v] [|s state] Hl; try done.
  unfold vadd. cbn [zip_with]. rewrite !dot_cons. fold (vadd u v). rewrite IH by (by injection Hl). lia.
Qed.

Lemma dot_scale m u state : dot (scale m u) state = m * dot u state.
Proof.
  revert state. induction u as [|x u IH]; intros [|s state]; try (cbn; lia).
  unfold scale. rewrite fmap_cons, !dot_cons. fold (scale m u). rewrite IH. ring.
Qed.

Lemma dot_zeros n state : dot (replicate n 0) state = 0.
Proof.
  revert state. induction n as [|n IH]; intros [|s state]; try done. cbn [replicate]. by rewrite dot_cons, IH.
Qed.

Lemma length_combination n coefficients matrix :
  Forall (fun row => length row = n) matrix -> length (combination n coefficients matrix) = n.
Proof.
  intros Hm. revert coefficients. unfold combination.
  induction Hm as [|row matrix Hr _ IH]; intros [|m coefficients]; cbn; try by rewrite length_replicate.
  unfold vadd. rewrite length_zip_with. unfold scale. rewrite length_fmap, IH. lia.
Qed.

Lemma dot_combination n coefficients matrix state :
  Forall (fun row => length row = n) matrix ->
  dot (combination n coefficients matrix) state = dot coefficients ((fun row => dot row state) <$> matrix).
Proof.
  intros Hm. revert coefficients. induction Hm as [|row matrix Hr Hm IH]; intros [|m coefficients];
    try (etransitivity; [apply (dot_zeros n)|done]).
  rewrite fmap_cons, dot_cons, <-IH. change (combination n (m :: coefficients) (row :: matrix))
    with (vadd (scale m row) (combination n coefficients matrix)).
  rewrite dot_vadd, dot_scale; [done|].
  rewrite length_combination by done. unfold scale. by rewrite length_fmap.
Qed.

Lemma dot_mod_left row state :
  dot ((fun v => v mod BABYBEAR_MODULUS) <$> row) state mod BABYBEAR_MODULUS =
  dot row state mod BABYBEAR_MODULUS.
Proof.
  revert state. induction row as [|m row IH]; intros [|s state]; try done.
  rewrite fmap_cons, !dot_cons, (Zplus_mod (_ * s)), IH, Zmult_mod_idemp_l, <-Zplus_mod. done.
Qed.

Lemma dot_mod_right row state :
  dot row ((fun v => v mod BABYBEAR_MODULUS) <$> state) mod BABYBEAR_MODULUS =
  dot row state mod BABYBEAR_MODULUS.
Proof.
  revert state. induction row as [|m row IH]; intros [|s state]; try done.
  rewrite fmap_cons, !dot_cons, (Zplus_mod (m * _)), IH, Zmult_mod_idemp_r, <-Zplus_mod. done.
Qed.

Lemma dot_unit n i state :
  length state = n -> (i < n)%nat -> dot (unit_vector n i) state = nth i state 0.
Proof.
  unfold unit_vector. intros Hl Hi.
  assert (Hgen : forall start, length state = n ->
    dot ((fun j => if (j =? i)%nat then 1 else 0) <$> seq start n) state =
    if (start <=? i)%nat then nth (i - start) state 0 else 0).
  { clear Hl Hi. revert state. induction n as [|n IH]; intros [|s state] start Hl; try done.
    - destruct (start <=? i)%nat; [|done]. by destruct (i - start)%nat.
    - cbn [seq]. rewrite fmap_cons, dot_cons, IH by (by injection Hl).
      destruct (Nat.eqb_spec start i) as [->|Hne].
      + rewrite Nat.leb_refl, Nat.sub_diag, (proj2 (Nat.leb_gt _ _)) by lia. cbn [nth]. lia.
      + destruct (Nat.leb_spec (S start) i) as [Hs|Hs].
        * rewrite (proj2 (Nat.leb_le _ _)) by lia. replace (i - start)%nat with (S (i - S start)) by lia. done.
        * by rewrite (proj2 (Nat.leb_gt start i)) by lia. }
  rewrite Hgen by done. cbn [Nat.leb]. by rewrite Nat.sub_0_r.
Qed.

Lemma matmul_inverse n left right state :
  square n left = true -> square n right = true -> inverts n left right = true ->
  length state = n -> Forall element_wf state -> matmul left (matmul right state) = state.
Proof.
  intros [Hll _]%andb_true_iff [Hrl Hr]%andb_true_iff Hinv Hl Hs.
  apply Nat.eqb_eq in Hll, Hrl. unfold inverts in Hinv.
  rewrite forallb_forall in Hr, Hinv.
  assert (Hrows : Forall (fun row => length row = n) right).
  { apply Forall_forall. intros row Hrow. apply Nat.eqb_eq, Hr. by apply list_elem_of_In. }
  apply list_eq. intros i. unfold matmul at 1. rewrite list_lookup_fmap.
  destruct (decide (i < n)%nat) as [Hi|Hi].
  2:{ rewrite !lookup_ge_None_2 by lia. done. }
  destruct (left !! i) as [row|] eqn:Hrow; [|apply lookup_ge_None in Hrow; lia].
  destruct (state !! i) as [v|] eqn:Hv; [|apply lookup_ge_None in Hv; lia].
  cbn [fmap option_fmap option_map]. f_equal. rewrite dot_product_mod. unfold matmul.
  assert (Hmod : (fun r => dot_product r state) <$> right =
    (fun x => x mod BABYBEAR_MODULUS) <$> ((fun r => dot r state) <$> right)).
  { rewrite <-list_fmap_compose. apply list_fmap_ext. intros j r _. apply dot_product_mod. }
  rewrite Hmod, dot_mod_right, <-(dot_combination n) by done. rewrite <-dot_mod_left.
  specialize (Hinv i ltac:(apply in_seq; lia)). apply bool_decide_eq_true in Hinv.
  rewrite (nth_lookup_Some left i [] row Hrow) in Hinv. rewrite Hinv, dot_unit by done.
  rewrite (nth_lookup_Some state i 0 v Hv). apply element_small. rewrite Forall_lookup in Hs. by eapply Hs.
Qed.

(** ** Bijections of the canonical states *)

Definition bijective (f : list Z -> list Z) : Prop :=
  exists g, forall s, state_wf s -> state_wf (f s) /\ state_wf (g s) /\ g (f s) = s /\ f (g s) = s.

Lemma bijective_compose f g : bijective f -> bijective g -> bijective (fun s => f (g s)).
Proof.
  intros [f' Hf] [g' Hg]. exists (fun s => g' (f' s)). intros s Hs.
  destruct (Hg s Hs) as (Hgs & _ & Hgg & _). destruct (Hf (g s) Hgs) as (Hfgs & _ & Hff & _).
  destruct (Hf s Hs) as (_ & Hf's & _ & Hff'). destruct (Hg (f' s) Hf's) as (_ & Hg'f & _ & Hgg').
  split_and!; [done..| |]; congruence.
Qed.

Lemma bijective_id : bijective (fun s => s).
Proof. exists (fun s => s). auto. Qed.

Lemma bijective_foldl {A} (f : list Z -> A -> list Z) l :
  Forall (fun a => bijective (fun s => f s a)) l -> bijective (fun s => foldl f s l).
Proof.
  induction l as [|a l IH]; intros Hl; [apply bijective_id|]. apply Forall_cons in Hl as [Ha Hl].
  exact (bijective_compose (fun s => foldl f s l) (fun s => f s a) (IH Hl) Ha).
Qed.

Lemma bijective_ext f g : (forall s, state_wf s -> f s = g s) -> bijective g -> bijective f.
Proof.
  intros Hfg [g' Hg]. exists g'. intros s Hs. destruct (Hg s Hs) as (H1 & H2 & H3 & H4).
  rewrite !Hfg by done. done.
Qed.

Lemma bijective_lanes (f g : nat -> Z -> Z) :
  (forall i x, element_wf x -> element_wf (f i x) /\ element_wf (g i x) /\
     g i (f i x) = x /\ f i (g i x) = x) ->
  bijective (imap f).
Proof.
  intros Hfg. exists (imap g). intros s [Hl Hs].
  assert (Hwf : forall h, (forall i x, element_wf x -> element_wf (h i x)) -> state_wf (imap h s)).
  { intros h Hh. split; [by rewrite length_imap|]. apply Forall_lookup. intros i x.
    rewrite list_lookup_imap. intros (y & Hy & ->)%fmap_Some. rewrite Forall_lookup in Hs. by eapply Hh, Hs. }
  assert (Hid : forall h k : nat -> Z -> Z, (forall i x, element_wf x -> k i (h i x) = x) -> imap k (imap h s) = s).
  { intros h k Hk. apply list_eq. intros i. rewrite !list_lookup_imap. rewrite Forall_lookup in Hs.
    destruct (s !! i) as [x|] eqn:Hx; cbn; [|done]. f_equal. by eapply Hk, Hs. }
  split_and!; [apply Hwf|apply Hwf|apply Hid|apply Hid]; intros i x Hx; by apply Hfg.
Qed.

Lemma add_subtract c x :
  element_wf x -> field_add x c mod BABYBEAR_MODULUS = field_add x c /\
  (field_add x c - c) mod BABYBEAR_MODULUS = x /\ field_add ((x - c) mod BABYBEAR_MODULUS) c = x.
Proof.
  intros Hx. unfold field_add. split_and!.
  - apply Zmod_mod.
  - rewrite Zminus_mod_idemp_l. rewrite Z.add_simpl_r. by apply element_small.
  - rewrite Zplus_mod_idemp_l, Z.sub_add. by apply element_small.
Qed.

Lemma element_mod x : element_wf (x mod BABYBEAR_MODULUS).
Proof. apply Z.mod_pos_bound. done. Qed.

Lemma bijective_constants constants :
  length constants = P24_WIDTH -> bijective (fun s => add_constants s constants).
Proof.
  intros Hc. eapply (bijective_ext _ (imap (fun i x => field_add x (nth i constants 0)))).
  - intros s [Hl _]. apply list_eq. intros i. unfold add_constants.
    rewrite lookup_zip_with, list_lookup_imap.
    destruct (s !! i) as [x|] eqn:Hx; cbn; [|done].
    destruct (constants !! i) as [c|] eqn:Hci; cbn; [by rewrite (nth_lookup_Some _ _ 0 c Hci)|].
    apply lookup_ge_None in Hci. apply lookup_lt_Some in Hx. lia.
  - apply (bijective_lanes _ (fun i x => (x - nth i constants 0) mod BABYBEAR_MODULUS)). intros i x Hx.
    destruct (add_subtract (nth i constants 0) x Hx) as (_ & H1 & H2).
    split_and!; [apply field_add_wf|apply element_mod|done|done].
Qed.

Lemma bijective_sbox : bijective apply_sbox_to_all.
Proof.
  eapply (bijective_ext _ (imap (fun _ => sbox_seven))).
  - intros s _. unfold apply_sbox_to_all. by rewrite <-imap_const.
  - apply (bijective_lanes _ (fun _ => seventh_root)). intros i x Hx.
    destruct (sbox_seven_bijective x Hx). split_and!; [apply sbox_seven_wf|apply seventh_root_wf|done|done].
Qed.

Lemma bijective_first_lane c :
  bijective (alter (fun lane => sbox_seven (field_add lane c)) 0%nat).
Proof.
  eapply (bijective_ext _ (imap (fun i x => match i with O => sbox_seven (field_add x c) | _ => x end))).
  - intros [|x s] _; [done|]. cbn. f_equal. apply list_eq. intros i. rewrite list_lookup_imap.
    by destruct (s !! i).
  - apply (bijective_lanes _ (fun i x => match i with
      | O => (seventh_root x - c) mod BABYBEAR_MODULUS | _ => x end)). intros [|i] x Hx; [|done].
    destruct (add_subtract c x Hx) as [H1 _].
    destruct (sbox_seven_bijective (field_add x c) ltac:(apply field_add_wf)) as [H2 _].
    destruct (sbox_seven_bijective x Hx) as [_ H3].
    destruct (add_subtract c (seventh_root x) (seventh_root_wf x)) as (_ & H4 & H5).
    destruct (add_subtract c x Hx) as (_ & H6 & _).
    split_and!; [apply sbox_seven_wf|apply element_mod| |]; [by rewrite H2|by rewrite H5].
Qed.

Lemma bijective_matmul left right :
  square P24_WIDTH left = true -> square P24_WIDTH right = true ->
  inverts P24_WIDTH left right = true -> inverts P24_WIDTH right left = true -> bijective (matmul right).
Proof.
  intros Hl Hr H1 H2. exists (matmul left). intros s [Hs Hw].
  assert (Hlen : forall m, square P24_WIDTH m = true -> length m = P24_WIDTH).
  { intros m Hm. apply andb_true_iff in Hm as [Hm _]. by apply Nat.eqb_eq. }
  split_and!; try (apply matmul_wf; by apply Hlen); by eapply matmul_inverse.
Qed.

(** ** The frozen parameters *)

Lemma frozen_parameters_wf : parameters_wf frozen_parameters.
Proof.
  split; [by vm_compute| |by vm_compute]. apply (first_noncanonical_None 0).
  - apply Forall_forall. intros x Hx. apply list_elem_of_In in Hx.
    assert (Hall : forallb (Z.leb 0) frozen_parameters = true) by by vm_compute.
    rewrite forallb_forall in Hall. by apply Z.leb_le, Hall.
  - by vm_compute.
Qed.

Lemma bijective_external : bijective (matmul (external_matrix (reference_of frozen_parameters))).
Proof. apply (bijective_matmul external_inverse); by vm_compute. Qed.

Lemma bijective_internal : bijective (matmul (internal_matrix (reference_of frozen_parameters))).
Proof. apply (bijective_matmul internal_inverse); by vm_compute. Qed.

Lemma bijective_full_rounds constants :
  Forall (fun row => length row = P24_WIDTH) constants ->
  bijective (fun s => foldl (reference_full_round (reference_of frozen_parameters)) s constants).
Proof.
  intros Hc. apply bijective_foldl. eapply Forall_impl; [exact Hc|]. intros row Hrow.
  apply (bijective_compose _ _ bijective_external), (bijective_compose _ _ bijective_sbox).
  by apply bijective_constants.
Qed.

Lemma bijective_partial_rounds constants :
  bijective (fun s => foldl (reference_partial_round (reference_of frozen_parameters)) s constants).
Proof.
  apply bijective_foldl, Forall_true. intros row.
  apply (bijective_compose _ _ bijective_internal), bijective_first_lane.
Qed.

Lemma frozen_round_rows :
  Forall (fun row => length row = P24_WIDTH) (round_constants (reference_of frozen_parameters)).
Proof. apply matrix_rows. by_leb. Qed.

Lemma frozen_permutation :
  exists f, bijective f /\ forall s, state_wf s -> core_permutation frozen_parameters s = Ok (f s).
Proof.
  eexists. split.
  2:{ intros s Hs. destruct (permutation_dense _ frozen_parameters_wf s Hs) as (out & Hc & Hr & _).
      unfold reference_permutation in Hr. rewrite validate_with_wf in Hr by apply Hs.
      cbn [mbind result_bind] in Hr. cbv zeta in Hr. apply (inj Ok) in Hr.
      etransitivity; [exact Hc|]. f_equal. symmetry. exact Hr. }
  eapply (bijective_compose (fun s => foldl _ s _) (fun s => foldl _ (foldl _ (matmul _ s) _) _)).
  - apply bijective_full_rounds, Forall_take, Forall_drop, frozen_round_rows.
  - eapply (bijective_compose (fun s => foldl _ s _) (fun s => foldl _ (matmul _ s) _));
      [apply bijective_partial_rounds|].
    eapply (bijective_compose (fun s => foldl _ s _) (fun s => matmul _ s)); [|apply bijective_external].
    apply bijective_full_rounds, Forall_take, frozen_round_rows.
Qed.

(** C26: on the checked-in parameters the evaluated permutation is one: every canonical
    state is the image of exactly one canonical state. *)
Theorem permutation_bijective (out : BabyBearStateP24) (Hout : state_wf out) :
  exists s, state_wf s /\ core_permutation frozen_parameters s = Ok out /\
    forall s', state_wf s' -> core_permutation frozen_parameters s' = Ok out -> s' = s.
Proof.
  destruct frozen_permutation as (f & (g & Hg) & Hf). destruct (Hg out Hout) as (_ & Hs & _ & Hfg).
  exists (g out). split_and!; [done|by rewrite Hf, Hfg|].
  intros s' Hs'. rewrite Hf by done. intros [= <-]. symmetry. by apply Hg.
Qed.

(** The start of the checked-in vector of the zero state. *)
Lemma permutation_bijective_witness :
  (exists s, state_wf s /\ core_permutation frozen_parameters s = Ok (replicate P24_WIDTH 0) /\
    forall s', state_wf s' -> core_permutation frozen_parameters s' = Ok (replicate P24_WIDTH 0) -> s' = s) /\
  (fun s => take 2 s) <$> core_permutation frozen_parameters (replicate P24_WIDTH 0) = Ok [972705262; 946791486].
Proof.
  split; [|vm_compute; reflexivity].
  apply (permutation_bijective (replicate P24_WIDTH 0)). split; [done|]. apply Forall_replicate. done.
Defined.
