(* ===== verification/FullTree.v ===== *)
(** * Complete binary trees

    The specification of the note and nullifier trees: the value of a node of a
    complete binary tree over all leaf positions.  The lemmas say what a level of
    an evaluator that stores only part of the tree, in a list or in a map, has to
    agree with, and how a path of siblings leads to the root. *)

From stdpp Require Import gmap.
From S2P Require Import Prelude.

(** The other child of the same parent. *)
Lemma lxor_one position : Z.lxor position 1 = 2 * Z.div2 position + (if Z.odd position then 0 else 1).
Proof.
  rewrite (Z.div2_odd position) at 1. generalize (Z.div2 position) as q, (Z.odd position) as b. intros q b.
  apply Z.bits_inj'. intros n Hn. rewrite Z.lxor_spec.
  destruct b; cbn [Z.b2z]; destruct (Z.eq_dec n 0) as [->|Hn0];
    rewrite ?Z.add_0_r, ?Z.testbit_odd_0, ?Z.testbit_even_0; try done.
  all: replace n with (Z.succ (n - 1)) by lia.
  all: rewrite ?Z.testbit_odd_succ, ?Z.testbit_even_succ by lia.
  all: change 1 with (2 * 0 + 1) at 2; rewrite Z.testbit_odd_succ, Z.bits_0 by lia; apply xorb_false_r.
Qed.

Section FullTree.
Context {D : Type} (node : D -> D -> D).

(** The node at a height and a position, over the given leaves. *)
Fixpoint full_root (leaf : Z -> D) (height : nat) (position : Z) : D :=
  match height with
  | O => leaf position
  | S height => node (full_root leaf height (2 * position)) (full_root leaf height (2 * position + 1))
  end.

Lemma full_root_leaf leaf position : full_root leaf 0 position = leaf position.
Proof. done. Qed.

(** The value of a node without leaves below. *)
Fixpoint empty_node (base : D) (height : nat) : D :=
  match height with
  | O => base
  | S height => node (empty_node base height) (empty_node base height)
  end.

Lemma full_root_ext leaf1 leaf2 height position :
  (forall i, position * 2 ^ Z.of_nat height <= i < (position + 1) * 2 ^ Z.of_nat height -> leaf1 i = leaf2 i) ->
  full_root leaf1 height position = full_root leaf2 height position.
Proof.
  revert position. induction height as [|height IH]; intros position Hl; cbn [full_root].
  - apply Hl. cbn. lia.
  - rewrite Nat2Z.inj_succ, Z.pow_succ_r in Hl by lia.
    f_equal; apply IH; intros i Hi; apply Hl; nia.
Qed.

Lemma full_root_empty base height position : full_root (fun _ => base) height position = empty_node base height.
Proof. revert position. induction height as [|h IH]; intros p; cbn; [done|]. by rewrite !IH. Qed.

Lemma full_root_no_leaves leaf base height position :
  (forall i, position * 2 ^ Z.of_nat height <= i < (position + 1) * 2 ^ Z.of_nat height -> leaf i = base) ->
  full_root leaf height position = empty_node base height.
Proof. intros Hl. rewrite <-(full_root_empty base height position). by apply full_root_ext. Qed.

(** ** Stored levels *)

Section Levels.
Context (leaf : Z -> D) (base : D).

(** The stored nodes of a level agree with the tree; the others are empty. *)
Definition level_of (height : nat) (stored : Z -> option D) : Prop :=
  forall i, 0 <= i -> full_root leaf height i = default (empty_node base height) (stored i).

Lemma level_next height stored stored' :
  level_of height stored ->
  (forall i, 0 <= i ->
     match stored' i with
     | Some d => d = node (default (empty_node base height) (stored (2 * i)))
                       (default (empty_node base height) (stored (2 * i + 1)))
     | None => stored (2 * i) = None /\ stored (2 * i + 1) = None
     end) ->
  level_of (S height) stored'.
Proof.
  intros Hlevel Hnext i Hi. cbn [full_root empty_node]. rewrite !Hlevel by lia.
  specialize (Hnext i Hi). destruct (stored' i) as [d|]; cbn; [done|]. by destruct Hnext as [-> ->].
Qed.

End Levels.

(** ** Paths *)

(** The direction at a level, as the position's lowest bit. *)
Lemma full_root_step leaf height position :
  full_root leaf (S height) (Z.div2 position) =
  if Z.odd position
  then node (full_root leaf height (Z.lxor position 1)) (full_root leaf height position)
  else node (full_root leaf height position) (full_root leaf height (Z.lxor position 1)).
Proof.
  pose proof (Z.div2_odd position) as Hp. cbn [full_root].
  rewrite lxor_one. destruct (Z.odd position); cbn [Z.b2z] in Hp; rewrite Z.add_0_r in *; by rewrite <-Hp.
Qed.

(** The root a path of siblings leads to, and the pairs hashed on the way. *)
Definition path_pair (position : Z) (sibling current : D) : D * D :=
  if Z.odd position then (sibling, current) else (current, sibling).

Definition node_pair (pair : D * D) : D := node pair.1 pair.2.

Fixpoint path_root (position : Z) (siblings : list D) (current : D) : D :=
  match siblings with
  | [] => current
  | sibling :: siblings =>
      path_root (Z.div2 position) siblings (node_pair (path_pair position sibling current))
  end.

Fixpoint path_pairs (position : Z) (siblings : list D) (current : D) : list (D * D) :=
  match siblings with
  | [] => []
  | sibling :: siblings =>
      path_pair position sibling current ::
      path_pairs (Z.div2 position) siblings (node_pair (path_pair position sibling current))
  end.

(** The siblings of a position in the tree, from a height up. *)
Fixpoint tree_siblings (leaf : Z -> D) (height : nat) (position : Z) (levels : nat) : list D :=
  match levels with
  | O => []
  | S levels =>
      full_root leaf height (Z.lxor position 1) :: tree_siblings leaf (S height) (Z.div2 position) levels
  end.

Lemma length_tree_siblings leaf height position levels :
  length (tree_siblings leaf height position levels) = levels.
Proof. revert height position. induction levels as [|n IH]; intros h p; cbn; [done|]. by rewrite IH. Qed.

Lemma full_root_pair leaf height position :
  node_pair (path_pair position (full_root leaf height (Z.lxor position 1)) (full_root leaf height position)) =
  full_root leaf (S height) (Z.div2 position).
Proof. rewrite full_root_step. unfold node_pair, path_pair. by destruct (Z.odd position). Qed.

Lemma path_complete leaf height position levels :
  path_root position (tree_siblings leaf height position levels) (full_root leaf height position) =
  full_root leaf (height + levels) (Z.shiftr position (Z.of_nat levels)).
Proof.
  revert height position. induction levels as [|n IH]; intros height position; cbn [tree_siblings path_root].
  - by rewrite Nat.add_0_r, Z.shiftr_0_r.
  - rewrite full_root_pair, IH, Nat.add_succ_r. f_equal.
    rewrite Nat2Z.inj_succ, <-Z.add_1_l, <-Z.shiftr_shiftr by lia. by rewrite <-Z.div2_spec.
Qed.

(** Pairs hashed at the same level do not collide. *)
Definition no_collision (pairs pairs' : list (D * D)) : Prop :=
  Forall2 (fun p q => node_pair p = node_pair q -> p = q) pairs pairs'.

Lemma no_collision_refl pairs : no_collision pairs pairs.
Proof. apply Forall_Forall2_diag, Forall_true. done. Qed.

(** A path that leads to the root of the tree is the path of the tree, unless it
    shows a collision. *)
Lemma path_sound leaf height position siblings current :
  path_root position siblings current =
    full_root leaf (height + length siblings) (Z.shiftr position (Z.of_nat (length siblings))) ->
  no_collision (path_pairs position siblings current)
    (path_pairs position (tree_siblings leaf height position (length siblings)) (full_root leaf height position)) ->
  current = full_root leaf height position /\ siblings = tree_siblings leaf height position (length siblings).
Proof.
  revert height position current. induction siblings as [|sibling siblings IH]; intros height position current.
  - cbn. by rewrite Nat.add_0_r, Z.shiftr_0_r.
  - cbn [path_root path_pairs tree_siblings length]. rewrite full_root_pair.
    intros Hroot [Hpair Hrest]%Forall2_cons_1.
    assert (Hup : node_pair (path_pair position sibling current) = full_root leaf (S height) (Z.div2 position) /\
      siblings = tree_siblings leaf (S height) (Z.div2 position) (length siblings)).
    { apply IH; [|done]. rewrite Hroot, Nat.add_succ_r. f_equal.
      rewrite Nat2Z.inj_succ, <-Z.add_1_l, <-Z.shiftr_shiftr by lia. by rewrite <-Z.div2_spec. }
    destruct Hup as [Hhash Hsib]. rewrite <-(full_root_pair leaf height position) in Hhash.
    apply Hpair in Hhash. unfold path_pair in Hhash. rewrite <-Hsib.
    destruct (Z.odd position); injection Hhash as -> ->; done.
Qed.

End FullTree.
