(* ===== verification/TreeManifestFacts.v ===== *)
(** * Facts about the frozen parameter manifest

    What an accepted payload is, the interface it gives the evaluators and the
    agreement of the evaluators loaded from it.  On the checked-in payload, with
    SHA-256 evaluated, every check of the manifest passes. *)

From Stdlib Require Import Strings.Byte Strings.String.
From S2P Require Import Prelude Arrays Sha256 BabyBear Privacy Poseidon2 Poseidon2Facts.
From S2P Require Import TreeManifest P24Parameters Poseidon2Frozen Fips180.

#[local] Opaque P24_PARAMETER_PAYLOAD_LENGTH P24_IV_OFFSET.

(** ** What the evaluators rely on *)

Class P24ManifestLaws (m : P24Manifest) : Prop := {
  payload_length payload : parameter_payload m = Ok payload -> length payload = P24_PARAMETER_PAYLOAD_LENGTH;
  payload_canonical payload : parameter_payload m = Ok payload -> Forall element_wf (elements_of payload);
  payload_iv payload domain :
    parameter_payload m = Ok payload -> manifest_iv m domain = Ok (core_iv (elements_of payload) domain)
}.

Lemma length_elements_of n bs : length bs = (4 * n)%nat -> length (elements_of bs) = n.
Proof.
  intros Hl. pose proof (concat_elements_of bs ltac:(by exists n)) as Hc.
  apply (f_equal length) in Hc. rewrite length_concat_le, Hl in Hc. lia.
Qed.

Lemma elements_nonneg_of bs : Forall (fun e => 0 <= e) (elements_of bs).
Proof.
  induction bs as [l Hl|a b c d l IH] using list_four_ind.
  - destruct l as [|? [|? [|? [|]]]]; cbn in *; try lia; constructor.
  - cbn [elements_of]. constructor; [apply from_le_bytes_range|done].
Qed.

Lemma word_at k bs :
  (4 * k + 4 <= length bs)%nat ->
  elements_of bs !! k = Some (from_le_bytes (take 4 (drop (k * 4) bs))).
Proof.
  revert bs. induction k as [|k IH]; intros bs Hl;
    destruct bs as [|a [|b [|c [|d bs]]]]; cbn in Hl; try lia; [done|].
  cbn [elements_of lookup list_lookup]. apply IH. lia.
Qed.

Lemma slice_indices {A} (f : nat -> A) k n l :
  (forall i, (i < n)%nat -> l !! (k + i)%nat = Some (f i)) -> take n (drop k l) = f <$> seq 0 n.
Proof.
  intros Hf. apply list_eq. intros i. rewrite list_lookup_fmap, lookup_take, lookup_drop.
  case_decide as Hi; [by rewrite Hf, lookup_seq_lt by done|]. by rewrite lookup_seq_ge by lia.
Qed.

Lemma stored_iv_core payload domain :
  length payload = P24_PARAMETER_PAYLOAD_LENGTH -> stored_iv payload domain = core_iv (elements_of payload) domain.
Proof.
  intros Hl. unfold stored_iv, core_iv. cbv zeta. symmetry. apply slice_indices. intros i Hi.
  assert (Hb : (4 * (P24_IV_OFFSET + domain_index domain * 9 + 8) + 4 <= length payload)%nat).
  { rewrite Hl. destruct domain; by_leb. }
  revert Hb. generalize (P24_IV_OFFSET + domain_index domain * 9)%nat. clear Hl. intros k Hb.
  rewrite word_at by lia. do 4 f_equal. lia.
Qed.

Section Manifest.
Context `{Sha2} (embedded : option (list byte)) (derived : P24TreeDomain -> list Z).

(** An accepted payload. *)
Record payload_accepted (payload : list byte) : Prop := mk_payload_accepted {
  accepted_embedded : embedded = Some payload;
  accepted_length : length payload = P24_PARAMETER_PAYLOAD_LENGTH;
  accepted_checksum : arr (sha256 payload) = EXPECTED_PAYLOAD_SHA256;
  accepted_elements : Forall element_wf (elements_of payload);
  accepted_ivs : forall domain, stored_iv payload domain = derived domain
}.

Lemma validate_iv_Ok payload domain iv :
  validate_iv derived payload domain = Ok iv <-> iv = stored_iv payload domain /\ iv = derived domain.
Proof. unfold validate_iv. case_bool_decide; cbn; split; naive_solver congruence. Qed.

Lemma candidate_payload_Ok payload : candidate_payload embedded derived = Ok payload <-> payload_accepted payload.
Proof.
  unfold candidate_payload, validate_payload. split.
  - intros Hok. destruct embedded as [bytes|] eqn:Hemb; cbn in Hok; [|done].
    destruct (Nat.eqb_spec (length bytes) P24_PARAMETER_PAYLOAD_LENGTH) as [Hl|]; cbn in Hok; [|done].
    case_bool_decide as Hc; cbn in Hok; [|done]. inv_ok. destruct_units.
    repeat match goal with Hi : validate_iv _ _ _ = Ok _ |- _ => apply validate_iv_Ok in Hi as [? ?] end.
    match goal with Hv : validate_with _ _ = Ok tt |- _ =>
      apply validate_with_Ok in Hv; [|apply elements_nonneg_of] end.
    split; [done..|]. intros []; congruence.
  - intros [-> Hl Hc He Hi]. cbn. rewrite (proj2 (Nat.eqb_eq _ _) Hl). cbn.
    rewrite bool_decide_true by done. cbn. rewrite validate_with_wf by done. cbn.
    unfold validate_iv. rewrite !bool_decide_true by done. done.
Qed.

#[export] Instance p24_manifest_laws : P24ManifestLaws (p24_manifest embedded derived).
Proof.
  split; cbn [parameter_payload manifest_iv p24_manifest].
  - intros payload Hp%candidate_payload_Ok. apply Hp.
  - intros payload Hp%candidate_payload_Ok. apply Hp.
  - intros payload domain Hp. unfold candidate_iv. rewrite Hp. cbn.
    apply candidate_payload_Ok in Hp. apply validate_iv_Ok.
    rewrite <-(stored_iv_core payload domain) by apply Hp. split; [done|apply Hp].
Qed.

Lemma manifest_encode_Ok bytes :
  manifest_encode embedded derived = Ok bytes <->
  exists payload, payload_accepted payload /\ bytes = manifest_header ++ payload.
Proof.
  unfold manifest_encode. setoid_rewrite <-candidate_payload_Ok.
  destruct (candidate_payload embedded derived) as [payload|e]; cbn; split.
  - intros [= <-]. by exists payload.
  - by intros (p & [= ->] & ->).
  - done.
  - by intros (p & ? & _).
Qed.

Lemma manifest_decode_Ok bytes :
  manifest_decode embedded derived bytes = Ok tt <-> manifest_encode embedded derived = Ok bytes.
Proof.
  unfold manifest_decode. split.
  - intros Hok. inv_ok. by zbool; subst.
  - intros Henc. pose proof (proj1 (manifest_encode_Ok bytes) Henc) as (payload & Hp & ->).
    rewrite Henc, length_app, (accepted_length _ Hp).
    assert (Hh : (length manifest_header + P24_PARAMETER_PAYLOAD_LENGTH =? P24_CANDIDATE_MANIFEST_LENGTH)%nat = true)
      by by vm_compute.
    rewrite Hh. cbn [negb mbind result_bind]. rewrite bool_decide_true by done.
    by rewrite !bool_decide_true by by vm_compute.
Qed.

(** the decoder of the candidate accepts exactly one byte string, the canonical
    header followed by the embedded payload, and only if the payload has its length,
    the frozen SHA-256 digest, canonical elements, and for every domain the
    initialisation vector that rejection sampling derives. *)
Theorem manifest_decode_exact (Hderived : forall domain, derive_tree_iv domain = Some (derived domain)) bytes :
  manifest_decode embedded derived bytes = Ok tt <->
  exists payload, bytes = manifest_header ++ payload /\ embedded = Some payload /\
    length payload = P24_PARAMETER_PAYLOAD_LENGTH /\ arr (sha256 payload) = EXPECTED_PAYLOAD_SHA256 /\
    Forall element_wf (elements_of payload) /\
    forall domain, derive_tree_iv domain = Some (stored_iv payload domain).
Proof.
  rewrite manifest_decode_Ok, manifest_encode_Ok. split.
  - intros (payload & [He Hl Hc Hw Hi] & ->). exists payload. split_and!; try done.
    intros domain. by rewrite Hi, Hderived.
  - intros (payload & -> & He & Hl & Hc & Hw & Hi). exists payload. split; [|done]. split; try done.
    intros domain. specialize (Hi domain). rewrite Hderived in Hi. by injection Hi.
Qed.

End Manifest.

(** ** The two evaluators of an accepted manifest *)

(** The reference evaluator's names for the errors of the core one. *)
Definition permutation_error (e : P24CoreError) : Poseidon2P24ReferenceError :=
  match e with
  | P24CoreError.NonCanonicalInput index value => Poseidon2P24ReferenceError.NonCanonicalInput index value
  | P24CoreError.InvalidDomainArity domain actual expected =>
      Poseidon2P24ReferenceError.InvalidDomainArity domain actual expected
  end.

Definition hash_error (e : P24CoreError) : Poseidon2P24ReferenceError :=
  match e with
  | P24CoreError.NonCanonicalInput index value => Poseidon2P24ReferenceError.NonCanonicalHashInput index value
  | P24CoreError.InvalidDomainArity domain actual expected =>
      Poseidon2P24ReferenceError.InvalidDomainArity domain actual expected
  end.

Lemma validate_with_map {E1 E2} (f : E1 -> E2) e1 e2 input :
  (forall i v, e2 i v = f (e1 i v)) -> validate_with e2 input = map_err f (validate_with e1 input).
Proof.
  intros He. unfold validate_with. destruct (first_noncanonical 0 input) as [[]|]; cbn; [by rewrite He|done].
Qed.

Section Loaded.
Context (m : P24Manifest) `{!P24ManifestLaws m} (payload : list byte) (self : Poseidon2P24Reference).
Context (Hpayload : parameter_payload m = Ok payload) (Hload : load_reference m = Ok self).

Lemma loaded_parameters : parameters_wf (elements_of payload) /\ self = reference_of (elements_of payload).
Proof.
  pose proof (payload_length _ Hpayload) as Hl. pose proof (payload_canonical _ Hpayload) as Hc.
  unfold load_reference in Hload. rewrite Hpayload in Hload. cbn [map_err mbind result_bind] in Hload.
  unfold decode_elements in Hload. rewrite Hl in Hload.
  assert (Hmod : negb (P24_PARAMETER_PAYLOAD_LENGTH mod 4 =? 0)%nat = false) by by vm_compute.
  rewrite Hmod, validate_with_wf in Hload by done. cbn [mbind result_bind] in Hload. cbv zeta in Hload.
  destruct (validate_internal_rows 0 _ _) as [[]|] eqn:Hrows in Hload; [|done].
  cbn [mbind result_bind] in Hload. injection Hload as <-. split; [|done]. split; [|done|exact Hrows].
  apply length_elements_of. rewrite Hl. by vm_compute.
Qed.

Lemma permutation_agrees state :
  length state = P24_WIDTH -> Forall (fun e => 0 <= e) state ->
  reference_permutation self state = map_err permutation_error (core_permutation (elements_of payload) state).
Proof.
  intros Hl Hn. destruct loaded_parameters as [Hv ->].
  destruct (validate_elements state) as [[]|e] eqn:Hval.
  - apply validate_with_Ok in Hval; [|done].
    destruct (permutation_dense _ Hv state (conj Hl Hval)) as (out & -> & -> & _). done.
  - unfold reference_permutation, core_permutation. rewrite Hval.
    rewrite (validate_with_map permutation_error P24CoreError.NonCanonicalInput) by done.
    unfold validate_elements in Hval. rewrite Hval. done.
Qed.

Lemma core_iv_wf domain :
  length (core_iv (elements_of payload) domain) = 9%nat /\
  Forall element_wf (core_iv (elements_of payload) domain).
Proof.
  unfold core_iv. split; [|apply Forall_take, Forall_drop, (payload_canonical _ Hpayload)].
  rewrite length_take, length_drop, (params_length _ (proj1 loaded_parameters)).
  destruct domain; by vm_compute.
Qed.

(** A canonical input of the right length is hashed by both, to the same digest. *)
Lemma hash16_total domain input :
  length input = input_elements domain -> Forall element_wf input ->
  exists d, core_hash16 (elements_of payload) domain input = Ok d /\
    reference_hash16 self m domain input = Ok d /\ digest_wf d.
Proof.
  intros Hl Hin. unfold core_hash16, reference_hash16, validate_elements.
  rewrite (proj2 (Nat.eqb_eq _ _) Hl), !validate_with_wf, (payload_iv _ domain Hpayload) by done.
  destruct (core_iv_wf domain) as [Hivl Hiv]. destruct loaded_parameters as [Hv ->].
  destruct (sponge_agree core_add field_add (core_permutation (elements_of payload))
    (reference_permutation (reference_of (elements_of payload)))
    ltac:(intros a b Ha Hb; split; [by apply core_add_canonical|apply field_add_wf])
    (permutation_dense _ Hv) _ input Hivl Hiv Hin) as (d & Hc & Hr & Hd).
  exists d. split_and!; done.
Qed.

Lemma hash16_agrees domain input :
  Forall (fun e => 0 <= e) input ->
  reference_hash16 self m domain input = map_err hash_error (core_hash16 (elements_of payload) domain input).
Proof.
  intros Hn. destruct (decide (length input = input_elements domain)) as [Hl|Hl].
  - destruct (validate_elements input) as [[]|e] eqn:Hval.
    + apply validate_with_Ok in Hval; [|done].
      by destruct (hash16_total domain input Hl Hval) as (d & -> & -> & _).
    + unfold reference_hash16, core_hash16. rewrite (proj2 (Nat.eqb_eq _ _) Hl), Hval.
      rewrite (validate_with_map hash_error P24CoreError.NonCanonicalInput) by done.
      unfold validate_elements in Hval. rewrite Hval. done.
  - unfold reference_hash16, core_hash16. by rewrite (proj2 (Nat.eqb_neq _ _) Hl).
Qed.

(** C25: the optimised evaluator and the dense one, loaded from the same manifest,
    are the same function, errors included: on every state of 24 words and on every
    hash input, whatever its length. *)
Theorem evaluators_agree :
  (forall state, length state = P24_WIDTH -> Forall (fun e => 0 <= e) state ->
     reference_permutation self state = map_err permutation_error (core_permutation (elements_of payload) state)) /\
  (forall domain input, Forall (fun e => 0 <= e) input ->
     reference_hash16 self m domain input = map_err hash_error (core_hash16 (elements_of payload) domain input)).
Proof. split; [exact permutation_agrees|exact hash16_agrees]. Qed.

(** C28: with an accepted manifest the permutation takes every canonical state of 24
    words to a canonical state, and each hash takes every canonical input of its arity
    to a canonical digest of 16 words; neither ever fails or leaves the field.  This
    holds of both evaluators. *)
Theorem poseidon_well_typed :
  (forall state, state_wf state ->
     exists out, core_permutation (elements_of payload) state = Ok out /\
       reference_permutation self state = Ok out /\ state_wf out) /\
  (forall domain input, length input = input_elements domain -> Forall element_wf input ->
     exists d, core_hash16 (elements_of payload) domain input = Ok d /\
       reference_hash16 self m domain input = Ok d /\ digest_wf d).
Proof.
  split; [|exact hash16_total]. intros state Hs. destruct loaded_parameters as [Hv ->].
  exact (permutation_dense _ Hv state Hs).
Qed.

End Loaded.

(** ** The checked-in candidate *)

Definition frozen_payload : list byte := concat (to_le_bytes 4 <$> frozen_parameters).

Lemma frozen_checksum : arr (@sha256 fips_sha2 frozen_payload) = EXPECTED_PAYLOAD_SHA256.
Proof. vm_compute. reflexivity. Qed.

Lemma frozen_ivs domain : @derive_tree_iv fips_sha2 domain = Some (stored_iv frozen_payload domain).
Proof. destruct domain; vm_compute; reflexivity. Qed.

Lemma frozen_payload_accepted :
  @payload_accepted fips_sha2 (Some frozen_payload) (stored_iv frozen_payload) frozen_payload.
Proof.
  split; [done|by vm_compute|exact frozen_checksum| |done].
  unfold frozen_payload. rewrite elements_of_concat; apply frozen_parameters_wf.
Qed.

(** The checked-in candidate is the accepted string, for SHA-256 itself. *)
Lemma manifest_decode_exact_witness :
  @manifest_decode fips_sha2 (Some frozen_payload) (stored_iv frozen_payload)
    (manifest_header ++ frozen_payload) = Ok tt.
Proof.
  apply (proj2 (@manifest_decode_exact fips_sha2 (Some frozen_payload) (stored_iv frozen_payload)
    frozen_ivs _)).
  destruct frozen_payload_accepted as [He Hl Hc Hw _].
  exists frozen_payload. split_and!; [done|exact He|exact Hl|exact Hc|exact Hw|exact frozen_ivs].
Defined.

(** What the evaluators see of it. *)
Definition frozen_manifest : P24Manifest :=
  @p24_manifest fips_sha2 (Some frozen_payload) (stored_iv frozen_payload).

Definition frozen_reference : Poseidon2P24Reference := reference_of frozen_parameters.

#[export] Instance frozen_manifest_laws : P24ManifestLaws frozen_manifest.
Proof. apply p24_manifest_laws. Qed.

Lemma frozen_manifest_payload : parameter_payload frozen_manifest = Ok frozen_payload.
Proof. apply (@candidate_payload_Ok fips_sha2), frozen_payload_accepted. Qed.

Lemma frozen_manifest_reference : load_reference frozen_manifest = Ok frozen_reference.
Proof.
  unfold load_reference. rewrite frozen_manifest_payload. cbn [map_err mbind result_bind].
  vm_compute. reflexivity.
Qed.

Lemma evaluators_agree_witness :
  reference_permutation frozen_reference (replicate P24_WIDTH 1) =
    map_err permutation_error (core_permutation (elements_of frozen_payload) (replicate P24_WIDTH 1)).
Proof.
  apply (proj1 (@evaluators_agree _ frozen_manifest_laws _ _ frozen_manifest_payload frozen_manifest_reference));
    [done|]. by apply Forall_replicate.
Defined.

Lemma poseidon_well_typed_witness :
  exists d, core_hash16 (elements_of frozen_payload) P24TreeDomain.EmptyBase [] = Ok d /\ digest_wf d.
Proof.
  destruct (proj2 (@poseidon_well_typed _ frozen_manifest_laws _ _ frozen_manifest_payload frozen_manifest_reference)
    P24TreeDomain.EmptyBase [] eq_refl (Forall_nil_2 _)) as (d & Hd & _ & Hwf).
  exists d. split; [exact Hd|exact Hwf].
Defined.
