(* ===== verification/NoteTreeFacts.v ===== *)
(** * The note tree of the reference evaluator

    Roots, paths and their verification, for an evaluator loaded from an accepted
    manifest: the evaluators compute the root of the complete tree of depth 32. *)

From Stdlib Require Import Strings.Byte.
From S2P Require Import Prelude BabyBear Privacy Poseidon2 Poseidon2Facts FullTree.
From S2P Require Import TreeManifest TreeManifestFacts.

Section NoteTree.
Context (m : P24Manifest) `{!P24ManifestLaws m} (payload : list byte) (self : Poseidon2P24Reference).
Context (Hpayload : parameter_payload m = Ok payload) (Hload : load_reference m = Ok self).

(** The digest, where the evaluator returns one. *)
Definition digest_of (r : Result Poseidon2P24ReferenceError BabyBearDigestV2) : BabyBearDigestV2 :=
  match r with Ok d => d | Err _ => [] end.

Definition node_value (a b : BabyBearDigestV2) : BabyBearDigestV2 := digest_of (reference_node self m a b).
Definition leaf_value (note : BabyBearDigestV2) : BabyBearDigestV2 := digest_of (reference_leaf self m note).
Definition empty_base : BabyBearDigestV2 := digest_of (reference_hash16 self m P24TreeDomain.EmptyBase []).

(** The leaves of the tree of a list of notes. *)
Definition note_leaf (notes : list BabyBearDigestV2) (i : Z) : BabyBearDigestV2 :=
  default empty_base (leaf_value <$> notes !! Z.to_nat i).

Abbreviation empty_at := (empty_node node_value empty_base).

(** The root of the complete tree. *)
Definition note_root (notes : list BabyBearDigestV2) : BabyBearDigestV2 :=
  full_root node_value (note_leaf notes) P24_TREE_DEPTH 0.

Lemma node_total a b :
  digest_wf a -> digest_wf b ->
  reference_node self m a b = Ok (node_value a b) /\
  core_node (elements_of payload) a b = Ok (node_value a b) /\ digest_wf (node_value a b).
Proof.
  intros [Ha Hwa] [Hb Hwb]. unfold node_value, reference_node, core_node.
  destruct (hash16_total m payload self Hpayload Hload P24TreeDomain.Node (a ++ b)) as (d & -> & -> & Hd);
    [by rewrite length_app, Ha, Hb|by apply Forall_app|done].
Qed.

Lemma leaf_total note :
  digest_wf note ->
  reference_leaf self m note = Ok (leaf_value note) /\
  core_leaf (elements_of payload) note = Ok (leaf_value note) /\ digest_wf (leaf_value note).
Proof.
  intros [Hn Hw]. unfold leaf_value, reference_leaf, core_leaf.
  by destruct (hash16_total m payload self Hpayload Hload P24TreeDomain.Leaf note Hn Hw) as (d & -> & -> & Hd).
Qed.

Lemma base_total :
  reference_hash16 self m P24TreeDomain.EmptyBase [] = Ok empty_base /\ digest_wf empty_base.
Proof.
  unfold empty_base.
  by destruct (hash16_total m payload self Hpayload Hload P24TreeDomain.EmptyBase []) as (d & _ & -> & Hd).
Qed.

Lemma empty_at_wf height : digest_wf (empty_at height).
Proof.
  induction height as [|h IH]; cbn [empty_node]; [apply base_total|]. by apply node_total.
Qed.

Lemma empty_values_loop_exact levels height :
  empty_values_loop self m levels (empty_at height) = Ok (empty_at <$> seq (S height) levels).
Proof.
  revert height. induction levels as [|n IH]; intros height; cbn [empty_values_loop seq]; [done|].
  destruct (node_total _ _ (empty_at_wf height) (empty_at_wf height)) as (-> & _ & _).
  cbn [mbind result_bind].
  change (node_value (empty_at height) (empty_at height)) with (empty_at (S height)). by rewrite IH.
Qed.

Lemma empty_values_exact : empty_values self m = Ok (empty_at <$> seq 0 (S P24_TREE_DEPTH)).
Proof.
  unfold empty_values. destruct base_total as [-> _]. cbn [mbind result_bind].
  change empty_base with (empty_at 0). by rewrite empty_values_loop_exact.
Qed.

Lemma empty_levels : take P24_TREE_DEPTH (empty_at <$> seq 0 (S P24_TREE_DEPTH)) = empty_at <$> seq 0 P24_TREE_DEPTH.
Proof. done. Qed.

(** ** Levels kept in a list *)

Definition stored_nodes (nodes : list BabyBearDigestV2) (i : Z) : option BabyBearDigestV2 := nodes !! Z.to_nat i.

Lemma parents_exact k nodes :
  length nodes = (2 * k)%nat -> Forall digest_wf nodes ->
  exists next, parents self m nodes = Ok next /\ length next = k /\ Forall digest_wf next /\
    forall i d, next !! i = Some d -> exists a b, nodes !! (2 * i)%nat = Some a /\
      nodes !! (2 * i + 1)%nat = Some b /\ d = node_value a b.
Proof.
  revert nodes. induction k as [|k IH]; intros nodes Hl Hw.
  - destruct nodes; [|done]. exists []. by split_and!.
  - destruct nodes as [|a [|b nodes]]; cbn in Hl; try lia.
    apply Forall_cons in Hw as [Ha Hw]. apply Forall_cons in Hw as [Hb Hw].
    destruct (IH nodes ltac:(lia) Hw) as (next & Hn & Hk & Hwn & Hlook).
    destruct (node_total a b Ha Hb) as (Hab & _ & Hd). cbn [parents]. rewrite Hab, Hn.
    exists (node_value a b :: next). split_and!; [done|cbn; lia|by constructor|].
    intros [|i] d; [intros [= <-]; by exists a, b|]. intros Hi.
    replace (2 * S i)%nat with (S (S (2 * i))) by lia. replace (2 * i + 1)%nat with (S (2 * i)) in Hlook by lia.
    by apply Hlook.
Qed.

Lemma pad_level_stored nodes (i : Z) e :
  0 <= i -> default e (stored_nodes (pad_level nodes e) i) = default e (stored_nodes nodes i).
Proof.
  intros Hi. unfold stored_nodes, pad_level. destruct (_ =? 1)%nat; [|done].
  destruct (decide (Z.to_nat i < length nodes)%nat) as [Hl|Hl]; [by rewrite lookup_app_l|].
  rewrite lookup_app_r by lia. rewrite (lookup_ge_None_2 nodes) by lia.
  by destruct (Z.to_nat i - length nodes)%nat.
Qed.

Lemma next_level_exact leaf height nodes :
  level_of node_value leaf empty_base height (stored_nodes nodes) -> Forall digest_wf nodes ->
  exists next, next_level self m nodes (empty_at height) = Ok next /\ Forall digest_wf next /\
    level_of node_value leaf empty_base (S height) (stored_nodes next) /\
    length next = ((length nodes + 1) / 2)%nat.
Proof.
  intros Hlevel Hw. set (k := ((length nodes + 1) / 2)%nat). pose proof (empty_at_wf height) as He.
  assert (Hpad : length (pad_level nodes (empty_at height)) = (2 * k)%nat).
  { unfold pad_level, k. pose proof (Nat.div_mod_eq (length nodes) 2).
    pose proof (Nat.mod_upper_bound (length nodes) 2).
    destruct (Nat.eqb_spec (length nodes mod 2) 1).
    - rewrite length_app. cbn [length]. replace (length nodes + 1)%nat with (2 * (length nodes / 2 + 1))%nat by lia.
      rewrite Nat.mul_comm, Nat.div_mul; lia.
    - replace (length nodes + 1)%nat with (1 + (length nodes / 2) * 2)%nat by lia.
      rewrite Nat.div_add by lia. change (1 / 2)%nat with 0%nat. lia. }
  assert (Hpw : Forall digest_wf (pad_level nodes (empty_at height))).
  { unfold pad_level. case_match; [|done]. apply Forall_app_2; [done|by constructor]. }
  destruct (parents_exact k _ Hpad Hpw) as (next & Hn & Hk & Hwn & Hlook).
  exists next. split_and!; [done..| |done].
  apply (level_next _ _ _ _ (stored_nodes nodes)); [done|]. intros i Hi. unfold stored_nodes at 1.
  destruct (next !! Z.to_nat i) as [d|] eqn:Hd.
  - destruct (Hlook _ _ Hd) as (a & b & Ha & Hb & ->).
    rewrite <-!(pad_level_stored nodes) by lia. unfold stored_nodes.
    replace (Z.to_nat (2 * i)) with (2 * Z.to_nat i)%nat by lia.
    replace (Z.to_nat (2 * i + 1)) with (2 * Z.to_nat i + 1)%nat by lia. by rewrite Ha, Hb.
  - apply lookup_ge_None in Hd. rewrite Hk in Hd. unfold stored_nodes.
    assert (length nodes <= 2 * k)%nat by (rewrite <-Hpad; unfold pad_level; case_match; rewrite ?length_app; lia).
    split; apply lookup_ge_None_2; lia.
Qed.

Lemma levels_exact leaf n height nodes :
  level_of node_value leaf empty_base height (stored_nodes nodes) -> Forall digest_wf nodes -> nodes <> [] ->
  exists next, try_fold (next_level self m) nodes (empty_at <$> seq height n) = Ok next /\
    nth 0 next [] = full_root node_value leaf (height + n) 0.
Proof.
  revert height nodes. induction n as [|n IH]; intros height nodes Hlevel Hw Hne; cbn [seq fmap list_fmap try_fold].
  - exists nodes. split; [done|]. rewrite Nat.add_0_r, (Hlevel 0) by done. by destruct nodes.
  - destruct (next_level_exact leaf height nodes Hlevel Hw) as (next & -> & Hwn & Hln & Hk).
    cbn [mbind result_bind]. rewrite Nat.add_succ_r. apply (IH (S height) next Hln Hwn).
    intros ->. destruct nodes; [done|]. cbn [length] in Hk. rewrite Nat.add_comm in Hk. cbn [Nat.add] in Hk.
    pose proof (Nat.div_str_pos (S (S (length nodes))) 2 ltac:(lia)). lia.
Qed.

Lemma paths_exact leaf n height nodes index :
  0 <= index -> level_of node_value leaf empty_base height (stored_nodes nodes) -> Forall digest_wf nodes ->
  exists next, small_tree_path_loop self m (empty_at <$> seq height n) nodes index =
      Ok (tree_siblings node_value leaf height index n, next) /\
    try_fold (next_level self m) nodes (empty_at <$> seq height n) = Ok next.
Proof.
  revert height nodes index. induction n as [|n IH]; intros height nodes index Hi Hlevel Hw;
    cbn [seq fmap list_fmap try_fold small_tree_path_loop tree_siblings]; [by eexists|].
  destruct (next_level_exact leaf height nodes Hlevel Hw) as (next & -> & Hwn & Hln & Hk).
  cbn [mbind result_bind]. cbv zeta.
  destruct (IH (S height) next (Z.shiftr index 1)) as (last & -> & Hlast); [by apply Z.shiftr_nonneg|done..|].
  cbn [mbind result_bind]. exists last. split; [|done]. rewrite <-Z.div2_spec.
  rewrite (Hlevel (Z.lxor index 1)); [done|]. by apply Z.lxor_nonneg.
Qed.

Lemma notes_level notes :
  Forall digest_wf notes ->
  exists nodes, try_map (reference_leaf self m) notes = Ok nodes /\ nodes = leaf_value <$> notes /\
    Forall digest_wf nodes /\ level_of node_value (note_leaf notes) empty_base 0 (stored_nodes nodes).
Proof.
  intros Hw. exists (leaf_value <$> notes). split_and!; [|done| |].
  - apply try_map_Forall2, Forall2_fmap_r. induction Hw as [|note notes Hn Hw IH]; constructor; [|done].
    by apply leaf_total.
  - apply Forall_fmap. eapply Forall_impl; [exact Hw|]. intros note Hn. by apply leaf_total.
  - intros i Hi. cbn. unfold note_leaf, stored_nodes. by rewrite list_lookup_fmap.
Qed.

(** ** Paths *)

Lemma low_bit index level :
  (Z.land (Z.shiftr index level) 1 =? 0) = negb (Z.odd (Z.shiftr index level)).
Proof.
  change 1 with (Z.ones 1). rewrite Z.land_ones by lia. rewrite Zmod_odd. by destruct (Z.odd _).
Qed.

Lemma shiftr_next index level : 0 <= level -> Z.shiftr index (level + 1) = Z.div2 (Z.shiftr index level).
Proof. intros Hl. by rewrite Z.div2_spec, Z.shiftr_shiftr by lia. Qed.

Lemma path_loops_exact siblings index level current :
  0 <= level -> Forall digest_wf siblings -> digest_wf current ->
  path_loop self m index level siblings current =
    Ok (path_root node_value (Z.shiftr index level) siblings current) /\
  note_path_loop (elements_of payload) index level siblings current =
    Ok (path_root node_value (Z.shiftr index level) siblings current).
Proof.
  revert level current. induction siblings as [|sibling siblings IH]; intros level current Hl Hs Hc; [done|].
  apply Forall_cons in Hs as [Hsib Hs]. cbn [path_loop note_path_loop path_root].
  rewrite validate_with_wf by apply Hsib. cbn [mbind result_bind].
  rewrite low_bit, <-shiftr_next by done. unfold node_pair, path_pair.
  destruct (Z.odd (Z.shiftr index level)); cbn [negb fst snd].
  - destruct (node_total sibling current Hsib Hc) as (-> & -> & Hd). cbn [mbind result_bind].
    apply IH; [lia|done..].
  - destruct (node_total current sibling Hc Hsib) as (-> & -> & Hd). cbn [mbind result_bind].
    apply IH; [lia|done..].
Qed.

Lemma full_root_wf leaf height position :
  (forall i, digest_wf (leaf i)) -> digest_wf (full_root node_value leaf height position).
Proof.
  intros Hl. revert position. induction height as [|h IH]; intros p; cbn [full_root]; [done|]. by apply node_total.
Qed.

Lemma tree_siblings_wf leaf height position levels :
  (forall i, digest_wf (leaf i)) -> Forall digest_wf (tree_siblings node_value leaf height position levels).
Proof.
  intros Hl. revert height position. induction levels as [|n IH]; intros h p; cbn [tree_siblings]; constructor;
    [by apply full_root_wf|apply IH].
Qed.

Lemma note_leaf_wf notes i : Forall digest_wf notes -> digest_wf (note_leaf notes i).
Proof.
  intros Hw. unfold note_leaf. destruct (notes !! Z.to_nat i) as [note|] eqn:Hn; cbn; [|apply base_total].
  apply leaf_total. rewrite Forall_lookup in Hw. by eapply Hw.
Qed.

#[local] Opaque full_root tree_siblings empty_node.

Lemma shiftr_depth index : 0 <= index < 2 ^ Z.of_nat P24_TREE_DEPTH -> Z.shiftr index (Z.of_nat P24_TREE_DEPTH) = 0.
Proof. intros Hi. rewrite Z.shiftr_div_pow2 by done. by apply Z.div_small. Qed.

(** The path of a note in the tree, checked by both evaluators. *)
Lemma note_path_complete notes index note :
  Forall digest_wf notes -> 0 <= index < 2 ^ Z.of_nat P24_TREE_DEPTH -> notes !! Z.to_nat index = Some note ->
  root_from_path self m (leaf_value note) index
    (tree_siblings node_value (note_leaf notes) 0 index P24_TREE_DEPTH) = Ok (note_root notes) /\
  root_from_note_path (elements_of payload) note index
    (tree_siblings node_value (note_leaf notes) 0 index P24_TREE_DEPTH) = Ok (note_root notes).
Proof.
  intros Hnotes Hindex Hnote.
  assert (Hn : digest_wf note) by (rewrite Forall_lookup in Hnotes; by eapply Hnotes).
  destruct (leaf_total note Hn) as (_ & Hcore & Hlw).
  pose proof (path_complete node_value (note_leaf notes) 0 index P24_TREE_DEPTH) as Hback.
  rewrite shiftr_depth, full_root_leaf in Hback by done. unfold note_leaf in Hback at 2. rewrite Hnote in Hback.
  cbn [fmap option_fmap option_map default id] in Hback.
  change (0 + P24_TREE_DEPTH)%nat with P24_TREE_DEPTH in Hback.
  change (full_root node_value (note_leaf notes) P24_TREE_DEPTH 0) with (note_root notes) in Hback.
  pose proof (tree_siblings_wf (note_leaf notes) 0 index P24_TREE_DEPTH (fun i => note_leaf_wf notes i Hnotes)) as Hsw.
  destruct (path_loops_exact _ index 0 _ ltac:(lia) Hsw Hlw) as [Href Hcor]. rewrite Z.shiftr_0_r in Href, Hcor.
  unfold root_from_path, root_from_note_path. rewrite validate_with_wf, Hcore by apply Hlw.
  cbn [mbind result_bind]. rewrite Href, Hcor, Hback. split; reflexivity.
Qed.

(** for up to four notes the small-tree routines compute the root of the complete
    depth-32 tree, and the path they build for a note leads both evaluators back to
    that root. *)
Theorem small_tree_exact notes index note
    (Hnotes : Forall digest_wf notes) (Hcount : (length notes <= 4)%nat)
    (Hindex : 0 <= index) (Hnote : notes !! Z.to_nat index = Some note) :
  small_tree_root self m notes = Ok (note_root notes) /\
  exists siblings,
    small_tree_path self m notes index = Ok (leaf_value note, siblings, note_root notes) /\
    root_from_path self m (leaf_value note) index siblings = Ok (note_root notes) /\
    root_from_note_path (elements_of payload) note index siblings = Ok (note_root notes).
Proof.
  assert (Hn : digest_wf note) by (rewrite Forall_lookup in Hnotes; by eapply Hnotes).
  destruct (leaf_total note Hn) as (Hleaf & _ & _).
  destruct (notes_level notes Hnotes) as (nodes & Hnodes & -> & Hw & Hlevel).
  assert (Hne : leaf_value <$> notes <> []) by by destruct notes.
  destruct (levels_exact _ P24_TREE_DEPTH 0 _ Hlevel Hw Hne) as (last & Hfold & Hroot).
  destruct (paths_exact _ P24_TREE_DEPTH 0 _ index Hindex Hlevel Hw) as (last' & Hpath & Hfold').
  rewrite Hfold in Hfold'. injection Hfold' as <-.
  change (0 + P24_TREE_DEPTH)%nat with P24_TREE_DEPTH in Hroot.
  change (full_root node_value (note_leaf notes) P24_TREE_DEPTH 0) with (note_root notes) in Hroot.
  assert (Hlt : index < 2 ^ Z.of_nat P24_TREE_DEPTH).
  { apply lookup_lt_Some in Hnote. change (2 ^ Z.of_nat P24_TREE_DEPTH) with 4294967296. lia. }
  assert (Hover : (MAX_SMALL_TREE_NOTES <? length notes)%nat = false) by by apply Nat.ltb_ge.
  split.
  - unfold small_tree_root. rewrite Hover, empty_values_exact, Hnodes. cbn [mbind result_bind].
    destruct notes; [discriminate Hnote|]. rewrite empty_levels, Hfold. cbn [mbind result_bind].
    rewrite Hroot. reflexivity.
  - eexists. split; [|exact (note_path_complete notes index note Hnotes (conj Hindex Hlt) Hnote)].
    unfold small_tree_path. rewrite Hover, Hnote, empty_values_exact, Hleaf, Hnodes. cbn [mbind result_bind].
    rewrite empty_levels, Hpath. cbn [mbind result_bind]. rewrite Hroot. reflexivity.
Qed.

(** A path that leads to the root of the notes is the path of a note. *)
Lemma path_root_member notes index note siblings :
  length siblings = P24_TREE_DEPTH -> 0 <= index < 2 ^ Z.of_nat P24_TREE_DEPTH ->
  no_collision node_value (path_pairs node_value index siblings (leaf_value note))
    (path_pairs node_value index (tree_siblings node_value (note_leaf notes) 0 index P24_TREE_DEPTH)
       (note_leaf notes index)) ->
  (forall n, n ∈ notes -> leaf_value n = leaf_value note -> n = note) -> leaf_value note <> empty_base ->
  path_root node_value index siblings (leaf_value note) = note_root notes ->
  notes !! Z.to_nat index = Some note.
Proof.
  intros Hlength Hindex Hnodes Hleaves Hempty Hroot.
  destruct (path_sound node_value (note_leaf notes) 0 index siblings (leaf_value note)) as [Hl _].
  - rewrite Hlength. rewrite shiftr_depth by done. exact Hroot.
  - by rewrite Hlength.
  - rewrite full_root_leaf in Hl. unfold note_leaf in Hl.
    destruct (notes !! Z.to_nat index) as [n|] eqn:Hn; cbn in Hl; [|done].
    f_equal. apply Hleaves; [by eapply list_elem_of_lookup_2|done].
Qed.

(** C27: a path the verifier accepts against the root of the notes proves membership:
    the note is the one at that index, unless the path exhibits two different inputs
    with the same digest (a pair of the path and the pair of the tree at the same
    level, or two leaves). *)
Theorem note_path_sound notes index note siblings
    (Hnotes : Forall digest_wf notes) (Hnote : digest_wf note) (Hsiblings : Forall digest_wf siblings)
    (Hlength : length siblings = P24_TREE_DEPTH) (Hindex : 0 <= index < 2 ^ Z.of_nat P24_TREE_DEPTH)
    (Hnodes : no_collision node_value (path_pairs node_value index siblings (leaf_value note))
       (path_pairs node_value index (tree_siblings node_value (note_leaf notes) 0 index P24_TREE_DEPTH)
          (note_leaf notes index)))
    (Hleaves : forall n, n ∈ notes -> leaf_value n = leaf_value note -> n = note)
    (Hempty : leaf_value note <> empty_base) :
  root_from_note_path (elements_of payload) note index siblings = Ok (note_root notes) ->
  notes !! Z.to_nat index = Some note.
Proof.
  destruct (leaf_total note Hnote) as (_ & Hcore & Hlw).
  unfold root_from_note_path. rewrite Hcore. cbn [mbind result_bind].
  destruct (path_loops_exact siblings index 0 _ ltac:(lia) Hsiblings Hlw) as [_ ->].
  rewrite Z.shiftr_0_r. intros [= Hroot]. by apply (path_root_member _ _ _ siblings).
Qed.

End NoteTree.

(** ** The checked-in candidate *)

#[local] Opaque P24_TREE_DEPTH.

Definition sample_note : BabyBearDigestV2 := replicate 16 1.

Lemma sample_note_wf : digest_wf sample_note.
Proof. split; [done|]. by apply Forall_replicate. Qed.

Lemma sample_notes_wf : Forall digest_wf [sample_note].
Proof. constructor; [apply sample_note_wf|constructor]. Qed.

Lemma small_tree_exact_witness :
  exists siblings,
    small_tree_path frozen_reference frozen_manifest [sample_note] 0 =
      Ok (leaf_value frozen_manifest frozen_reference sample_note, siblings,
          note_root frozen_manifest frozen_reference [sample_note]) /\
    root_from_note_path (elements_of frozen_payload) sample_note 0 siblings =
      Ok (note_root frozen_manifest frozen_reference [sample_note]).
Proof.
  destruct (@small_tree_exact frozen_manifest frozen_manifest_laws frozen_payload frozen_reference
    frozen_manifest_payload frozen_manifest_reference [sample_note] 0 sample_note sample_notes_wf
    ltac:(cbn; lia) ltac:(lia) eq_refl) as [_ (siblings & Hp & _ & Hr)].
  exists siblings. split; [exact Hp|exact Hr].
Defined.

Definition first_element {E} (r : Result E BabyBearDigestV2) : Z :=
  match r with Ok d => nth 0 d 0 | Err _ => 0 end.

Lemma sample_hashes_differ :
  (first_element (core_hash16 (elements_of frozen_payload) P24TreeDomain.Leaf sample_note) =?
   first_element (core_hash16 (elements_of frozen_payload) P24TreeDomain.EmptyBase [])) = false.
Proof. vm_compute. reflexivity. Qed.

Lemma sample_leaf_not_empty :
  leaf_value frozen_manifest frozen_reference sample_note <> empty_base frozen_manifest frozen_reference.
Proof.
  destruct (hash16_total frozen_manifest frozen_payload frozen_reference frozen_manifest_payload
    frozen_manifest_reference P24TreeDomain.Leaf sample_note eq_refl (proj2 sample_note_wf)) as (a & Ha & Hra & _).
  destruct (hash16_total frozen_manifest frozen_payload frozen_reference frozen_manifest_payload
    frozen_manifest_reference P24TreeDomain.EmptyBase [] eq_refl (Forall_nil_2 _)) as (b & Hb & Hrb & _).
  unfold leaf_value, empty_base, reference_leaf. rewrite Hra, Hrb. cbn [digest_of]. intros <-.
  rewrite <-Hb in Ha. exact (proj1 (Z.eqb_neq _ _) sample_hashes_differ (f_equal first_element Ha)).
Qed.

Lemma sample_leaf m self : note_leaf m self [sample_note] 0 = leaf_value m self sample_note.
Proof. reflexivity. Qed.

Lemma note_path_sound_witness :
  exists siblings,
    root_from_note_path (elements_of frozen_payload) sample_note 0 siblings =
      Ok (note_root frozen_manifest frozen_reference [sample_note]) /\
    [sample_note] !! Z.to_nat 0 = Some sample_note.
Proof.
  assert (Hdepth : 0 <= 0 < 2 ^ Z.of_nat P24_TREE_DEPTH) by (split; [lia|by apply Z.pow_pos_nonneg; lia]).
  destruct (note_path_complete frozen_manifest frozen_payload frozen_reference frozen_manifest_payload
    frozen_manifest_reference [sample_note] 0 sample_note sample_notes_wf Hdepth eq_refl) as [_ Hr].
  eexists. split; [exact Hr|].
  apply (@note_path_sound frozen_manifest frozen_manifest_laws frozen_payload frozen_reference
    frozen_manifest_payload frozen_manifest_reference [sample_note] 0 sample_note _ sample_notes_wf sample_note_wf
    (tree_siblings_wf frozen_manifest frozen_payload frozen_reference frozen_manifest_payload
       frozen_manifest_reference _ 0 0 P24_TREE_DEPTH
       (fun i => note_leaf_wf frozen_manifest frozen_payload frozen_reference frozen_manifest_payload
          frozen_manifest_reference [sample_note] i sample_notes_wf))
    (length_tree_siblings _ _ _ _ _) Hdepth); [| |exact sample_leaf_not_empty|exact Hr].
  - rewrite sample_leaf. exact (no_collision_refl _ _).
  - intros n Hn%list_elem_of_singleton _. exact Hn.
Defined.
