(* ===== verification/NullifierTree.v ===== *)
(** * The sparse nullifier tree
      ([noxis-nullifier-tree-reference], [noxis-nullifier-tree-state])

    A Merkle tree of depth 512 with one leaf per nullifier encoding, of which only
    the non-empty nodes are stored.  The reference crate hashes and checks paths,
    the state crate keeps the map of nodes and marks nullifiers as spent.  An error
    [None] is a panic. *)

From Stdlib Require Import Strings.Byte.
From stdpp Require Import gmap.
From S2P Require Import Prelude Arrays Privacy BabyBear Poseidon2.

(** ** The candidate manifest, as the tree sees it *)

Module NullifierSparseDomain.
Inductive Poseidon2P24NullifierSparseDomainV1 : Type := Leaf | Node | Empty.
End NullifierSparseDomain.
Abbreviation Poseidon2P24NullifierSparseDomainV1 := NullifierSparseDomain.Poseidon2P24NullifierSparseDomainV1.

Definition sparse_input_bytes (self : Poseidon2P24NullifierSparseDomainV1) : nat :=
  match self with
  | NullifierSparseDomain.Leaf => 64
  | NullifierSparseDomain.Node => 128
  | NullifierSparseDomain.Empty => 0
  end.

Definition P24_BYTE_PACK_WIDTH : nat := 3.

Record SparseManifest (E : Type) : Type := mk_SparseManifest {
  sparse_encode : Result E (list byte);
  sparse_iv : Poseidon2P24NullifierSparseDomainV1 -> Result E (list Z);
  sparse_candidate_id : Result E (array 32)
}.
Arguments sparse_encode {E} _.
Arguments sparse_iv {E} _ _.
Arguments sparse_candidate_id {E} _.

(** ** The reference evaluator *)

Definition NULLIFIER_SPARSE_TREE_DEPTH_V1 : nat := 512.

Module NullifierTreeReferenceError.
Inductive NullifierTreeReferenceError (E : Type) : Type :=
| TreeReference (error : Poseidon2P24ReferenceError)
| Candidate (error : E)
| PublicValue (error : PrivacyTypesError)
| InvalidInputLength (domain : Poseidon2P24NullifierSparseDomainV1) (actual expected : Z)
| InvalidPathLength (actual expected : Z)
| NonCanonicalDigest (index value : Z)
| RootMismatch.
Arguments TreeReference {E} error.
Arguments Candidate {E} error.
Arguments PublicValue {E} error.
Arguments InvalidInputLength {E} domain actual expected.
Arguments InvalidPathLength {E} actual expected.
Arguments NonCanonicalDigest {E} index value.
Arguments RootMismatch {E}.
End NullifierTreeReferenceError.
Abbreviation NullifierTreeReferenceError := NullifierTreeReferenceError.NullifierTreeReferenceError.

Record NullifierSparseTreeReferenceV1 : Type := mk_NullifierSparseTreeReferenceV1 {
  permutation : Poseidon2P24Reference;
  leaf_iv : list Z;
  node_iv : list Z;
  empty_iv : list Z;
  sparse_empty_values : list BabyBearDigestV2
}.

Abbreviation NullifierV2 := Vector (only parsing).
Abbreviation NullifierSparseRootV1 := Vector (only parsing).

(** The fold over a chunk: byte [offset] is shifted by [offset * 8]. *)
Definition pack_chunk (chunk : list byte) : Z :=
  foldl Z.lor 0 (imap (fun offset byte => Z.shiftl (Z_of_byte byte) (Z.of_nat offset * 8)) chunk).

Definition write_digest (digest : BabyBearDigestV2) : list byte := concat (to_le_bytes 4 <$> digest).

(** [(bytes[level / 8] >> (level % 8)) & 1 == 1]. *)
Definition path_bit_of (bytes : list byte) (level : nat) : bool :=
  Z.land (Z.shiftr (Z_of_byte (nth (level / 8) bytes x00)) (Z.of_nat (level mod 8))) 1 =? 1.

Section Reference.
Context {E : Type}.

Definition validate_digest (digest : BabyBearDigestV2) : Result (NullifierTreeReferenceError E) unit :=
  validate_with NullifierTreeReferenceError.NonCanonicalDigest digest.

Definition root_from_elements (elements : BabyBearDigestV2)
    : Result (option (NullifierTreeReferenceError E)) NullifierSparseRootV1 :=
  map_err (option_map NullifierTreeReferenceError.PublicValue) (from_elements elements).

Section Hashing.
Context (self : NullifierSparseTreeReferenceV1).

Definition hash_bytes (domain : Poseidon2P24NullifierSparseDomainV1) (input : list byte)
    : Result (NullifierTreeReferenceError E) BabyBearDigestV2 :=
  if negb (length input =? sparse_input_bytes domain)%nat
  then Err (NullifierTreeReferenceError.InvalidInputLength domain (len input)
              (Z.of_nat (sparse_input_bytes domain)))
  else
    let packed := pack_chunk <$> chunks P24_BYTE_PACK_WIDTH input in
    let iv := match domain with
              | NullifierSparseDomain.Leaf => leaf_iv self
              | NullifierSparseDomain.Node => node_iv self
              | NullifierSparseDomain.Empty => empty_iv self
              end in
    map_err NullifierTreeReferenceError.TreeReference
      (sponge field_add (reference_permutation (permutation self)) iv packed).

Definition spent_leaf (nullifier : NullifierV2) : Result (NullifierTreeReferenceError E) BabyBearDigestV2 :=
  hash_bytes NullifierSparseDomain.Leaf (arr nullifier).

Definition sparse_node (left right : BabyBearDigestV2)
    : Result (NullifierTreeReferenceError E) BabyBearDigestV2 :=
  _ ← validate_digest left;
  _ ← validate_digest right;
  hash_bytes NullifierSparseDomain.Node (write_digest left ++ write_digest right).

(** [for _ in 0..NULLIFIER_SPARSE_TREE_DEPTH_V1]. *)
Fixpoint sparse_empty_loop (levels : nat) (current : BabyBearDigestV2)
    : Result (NullifierTreeReferenceError E) (list BabyBearDigestV2) :=
  match levels with
  | O => Ok []
  | S levels =>
      current ← sparse_node current current;
      rest ← sparse_empty_loop levels current;
      Ok (current :: rest)
  end.

Definition derive_empty_values : Result (NullifierTreeReferenceError E) (list BabyBearDigestV2) :=
  current ← hash_bytes NullifierSparseDomain.Empty [];
  rest ← sparse_empty_loop NULLIFIER_SPARSE_TREE_DEPTH_V1 current;
  Ok (current :: rest).

Definition empty_root : Result (option (NullifierTreeReferenceError E)) NullifierSparseRootV1 :=
  root_from_elements (nth NULLIFIER_SPARSE_TREE_DEPTH_V1 (sparse_empty_values self) []).

Fixpoint sparse_path_loop (nullifier : NullifierV2) (level : nat) (siblings : list BabyBearDigestV2)
    (current : BabyBearDigestV2) : Result (NullifierTreeReferenceError E) BabyBearDigestV2 :=
  match siblings with
  | [] => Ok current
  | sibling :: siblings =>
      _ ← validate_digest sibling;
      current ← (if path_bit_of (arr nullifier) level
                 then sparse_node sibling current else sparse_node current sibling);
      sparse_path_loop nullifier (S level) siblings current
  end.

Definition sparse_root_from_path (nullifier : NullifierV2) (leaf : BabyBearDigestV2)
    (siblings : list BabyBearDigestV2)
    : Result (option (NullifierTreeReferenceError E)) NullifierSparseRootV1 :=
  if negb (length siblings =? NULLIFIER_SPARSE_TREE_DEPTH_V1)%nat
  then Err (Some (NullifierTreeReferenceError.InvalidPathLength (len siblings)
              (Z.of_nat NULLIFIER_SPARSE_TREE_DEPTH_V1)))
  else
    _ ← map_err Some (validate_digest leaf);
    current ← map_err Some (sparse_path_loop nullifier 0 siblings leaf);
    root_from_elements current.

Definition verify_inclusion (root : NullifierSparseRootV1) (nullifier : NullifierV2)
    (siblings : list BabyBearDigestV2) : Result (option (NullifierTreeReferenceError E)) unit :=
  leaf ← map_err Some (spent_leaf nullifier);
  computed ← sparse_root_from_path nullifier leaf siblings;
  ensure (bool_decide (computed = root)) (Some NullifierTreeReferenceError.RootMismatch).

Definition verify_absence (root : NullifierSparseRootV1) (nullifier : NullifierV2)
    (siblings : list BabyBearDigestV2) : Result (option (NullifierTreeReferenceError E)) unit :=
  computed ← sparse_root_from_path nullifier (nth 0 (sparse_empty_values self) []) siblings;
  ensure (bool_decide (computed = root)) (Some NullifierTreeReferenceError.RootMismatch).

End Hashing.

(** [NullifierSparseTreeReferenceV1::load_candidate]. *)
Definition load_sparse_reference (tree : P24Manifest) (manifest : SparseManifest E)
    : Result (NullifierTreeReferenceError E) NullifierSparseTreeReferenceV1 :=
  _ ← map_err NullifierTreeReferenceError.Candidate (sparse_encode manifest);
  permutation ← map_err NullifierTreeReferenceError.TreeReference (load_reference tree);
  leaf_iv ← map_err NullifierTreeReferenceError.Candidate (sparse_iv manifest NullifierSparseDomain.Leaf);
  node_iv ← map_err NullifierTreeReferenceError.Candidate (sparse_iv manifest NullifierSparseDomain.Node);
  empty_iv ← map_err NullifierTreeReferenceError.Candidate (sparse_iv manifest NullifierSparseDomain.Empty);
  empty_values ← derive_empty_values
                   (mk_NullifierSparseTreeReferenceV1 permutation leaf_iv node_iv empty_iv []);
  Ok (mk_NullifierSparseTreeReferenceV1 permutation leaf_iv node_iv empty_iv empty_values).

End Reference.

(** ** Node positions ([position.rs]) *)

Record NodePositionV1 : Type := mk_NodePositionV1 { np_height : nat; np_key : list byte }.

#[global] Instance NodePositionV1_eq_dec : EqDecision NodePositionV1.
Proof. solve_decision. Defined.

Lemma position_code_inv (p : NodePositionV1) :
  (fun '(h, k) => mk_NodePositionV1 h k) <$> decode (encode (np_height p, np_key p)) = Some p.
Proof. rewrite decode_encode. by destruct p. Qed.

#[global] Instance NodePositionV1_countable : Countable NodePositionV1 := {|
  encode p := encode (np_height p, np_key p);
  decode c := (fun '(h, k) => mk_NodePositionV1 h k) <$> decode c;
  decode_encode := position_code_inv
|}.

Definition position_leaf (nullifier : NullifierV2) : NodePositionV1 := mk_NodePositionV1 0 (arr nullifier).

Definition position_root : NodePositionV1 :=
  mk_NodePositionV1 NULLIFIER_SPARSE_TREE_DEPTH_V1 (replicate 64 x00).

(** [1 << (self.height % 8)], an octet. *)
Definition height_bit (height : nat) : Z := Z.shiftl 1 (Z.of_nat (height mod 8)).

(** [key[self.height / 8] ^= 1 << (self.height % 8)]. *)
Definition sibling (self : NodePositionV1) : NodePositionV1 :=
  mk_NodePositionV1 (np_height self)
    (alter (fun b => byte_of_Z (Z.lxor (Z_of_byte b) (height_bit (np_height self))))
       (np_height self / 8)%nat (np_key self)).

(** [key[self.height / 8] &= !(1 << (self.height % 8))]. *)
Definition parent (self : NodePositionV1) : NodePositionV1 :=
  mk_NodePositionV1 (S (np_height self))
    (alter (fun b => byte_of_Z (Z.land (Z_of_byte b) (Z.lxor 255 (height_bit (np_height self)))))
       (np_height self / 8)%nat (np_key self)).

Definition path_bit (self : NodePositionV1) : bool := path_bit_of (np_key self) (np_height self).

(** ** State ([state.rs]) *)

Module NullifierSparseTreeStateError.
Inductive NullifierSparseTreeStateError (E : Type) : Type :=
| Reference (error : NullifierTreeReferenceError E)
| AlreadySpent (nullifier : NullifierV2).
Arguments Reference {E} error.
Arguments AlreadySpent {E} nullifier.
End NullifierSparseTreeStateError.
Abbreviation NullifierSparseTreeStateError := NullifierSparseTreeStateError.NullifierSparseTreeStateError.

Record NullifierSparseTreeStateV1 : Type := mk_NullifierSparseTreeStateV1 {
  nt_reference : NullifierSparseTreeReferenceV1;
  nt_non_empty_nodes : gmap NodePositionV1 BabyBearDigestV2;
  nt_spent_count : Z
}.

Record NullifierTreeUpdateV1 : Type := mk_NullifierTreeUpdateV1 {
  update_nullifier : NullifierV2;
  update_previous_root : NullifierSparseRootV1;
  update_root : NullifierSparseRootV1
}.

Section State.
Context {E : Type}.

Abbreviation StateError := (option (NullifierSparseTreeStateError E)).

Definition from_reference {A} (r : Result (option (NullifierTreeReferenceError E)) A) : Result StateError A :=
  map_err (option_map NullifierSparseTreeStateError.Reference) r.

Definition new_candidate (tree : P24Manifest) (manifest : SparseManifest E)
    : Result StateError NullifierSparseTreeStateV1 :=
  reference ← from_reference (map_err Some (load_sparse_reference tree manifest));
  Ok (mk_NullifierSparseTreeStateV1 reference ∅ 0).

(** [empty_values()[position.height()]]: the heights of positions are at most 512. *)
Definition value_at (self : NullifierSparseTreeStateV1) (position : NodePositionV1) : BabyBearDigestV2 :=
  default (nth (np_height position) (sparse_empty_values (nt_reference self)) [])
    (nt_non_empty_nodes self !! position).

Definition tree_root (self : NullifierSparseTreeStateV1) : Result StateError NullifierSparseRootV1 :=
  from_reference (root_from_elements (value_at self position_root)).

Definition stored_node_count (self : NullifierSparseTreeStateV1) : Z := Z.of_nat (size (nt_non_empty_nodes self)).

Definition is_spent (self : NullifierSparseTreeStateV1) (nullifier : NullifierV2) : bool :=
  bool_decide (is_Some (nt_non_empty_nodes self !! position_leaf nullifier)).

Fixpoint prove_loop (self : NullifierSparseTreeStateV1) (levels : nat) (position : NodePositionV1)
    : list BabyBearDigestV2 :=
  match levels with
  | O => []
  | S levels => value_at self (sibling position) :: prove_loop self levels (parent position)
  end.

Definition prove (self : NullifierSparseTreeStateV1) (nullifier : NullifierV2) : list BabyBearDigestV2 :=
  prove_loop self NULLIFIER_SPARSE_TREE_DEPTH_V1 (position_leaf nullifier).

Definition state_verify_inclusion (self : NullifierSparseTreeStateV1) (root : NullifierSparseRootV1)
    (nullifier : NullifierV2) (proof : list BabyBearDigestV2) : Result StateError unit :=
  from_reference (verify_inclusion (nt_reference self) root nullifier proof).

Definition state_verify_absence (self : NullifierSparseTreeStateV1) (root : NullifierSparseRootV1)
    (nullifier : NullifierV2) (proof : list BabyBearDigestV2) : Result StateError unit :=
  from_reference (verify_absence (nt_reference self) root nullifier proof).

(** ** Spending ([transition.rs]) *)

Fixpoint prepare_loop (state : NullifierSparseTreeStateV1) (levels : nat) (position : NodePositionV1)
    (current : BabyBearDigestV2) : Result (NullifierTreeReferenceError E) (list (NodePositionV1 * BabyBearDigestV2)) :=
  match levels with
  | O => Ok []
  | S levels =>
      let sibling := value_at state (sibling position) in
      current ← (if path_bit position
                 then sparse_node (nt_reference state) sibling current
                 else sparse_node (nt_reference state) current sibling);
      let position := parent position in
      rest ← prepare_loop state levels position current;
      Ok ((position, current) :: rest)
  end.

Definition prepare_spend (state : NullifierSparseTreeStateV1) (nullifier : NullifierV2)
    : Result (NullifierTreeReferenceError E) (list (NodePositionV1 * BabyBearDigestV2)) :=
  let position := position_leaf nullifier in
  current ← spent_leaf (nt_reference state) nullifier;
  rest ← prepare_loop state NULLIFIER_SPARSE_TREE_DEPTH_V1 position current;
  Ok ((position, current) :: rest).

(** [state.non_empty_nodes.extend(updates)]. *)
Definition extend_nodes (nodes : gmap NodePositionV1 BabyBearDigestV2)
    (updates : list (NodePositionV1 * BabyBearDigestV2)) : gmap NodePositionV1 BabyBearDigestV2 :=
  foldl (fun nodes '(position, digest) => <[position := digest]> nodes) nodes updates.

(** [mark_spent].  The nodes are installed before the count is incremented; the
    panic on an exhausted counter leaves them behind. *)
Definition mark_spent (nullifier : NullifierV2) : M NullifierSparseTreeStateV1 StateError NullifierTreeUpdateV1 :=
  state ← get;
  previous_root ← lift (tree_root state);
  _ ← lift (ensure (negb (is_spent state nullifier))
              (Some (NullifierSparseTreeStateError.AlreadySpent nullifier)));
  updates ← lift (from_reference (map_err Some (prepare_spend state nullifier)));
  '(_, top) ← lift (ok_or (last updates) None);
  root ← lift (from_reference (root_from_elements top));
  let nodes := extend_nodes (nt_non_empty_nodes state) updates in
  _ ← put (mk_NullifierSparseTreeStateV1 (nt_reference state) nodes (nt_spent_count state));
  count ← lift (ok_or (checked_add U64_MAX (nt_spent_count state) 1) None);
  _ ← put (mk_NullifierSparseTreeStateV1 (nt_reference state) nodes count);
  mret (mk_NullifierTreeUpdateV1 nullifier previous_root root).

End State.
