(* ===== verification/NullifierTreeFacts.v ===== *)
(** * Facts about the sparse nullifier tree

    The addresses of the stored nodes are the positions of a complete tree of depth
    512, the state represents a set of spent nullifiers, and its root is the root
    of the complete tree over that set. *)

From Stdlib Require Import Strings.Byte.
From stdpp Require Import gmap.
From S2P Require Import Prelude Arrays Privacy BabyBear Poseidon2 Poseidon2Facts FullTree NullifierTree.
From S2P Require Import TreeManifest TreeManifestFacts.

#[local] Opaque NULLIFIER_SPARSE_TREE_DEPTH_V1.

(** ** Bits of little-endian byte strings *)

Lemma lookup_to_le_bytes n z i :
  (i < n)%nat -> to_le_bytes n z !! i = Some (byte_of_Z (Z.shiftr z (8 * Z.of_nat i))).
Proof.
  revert z i. induction n as [|n IH]; intros z i Hi; [lia|]. cbn [to_le_bytes].
  destruct i as [|i]; [done|]. transitivity (to_le_bytes n (z / 256) !! i); [done|].
  rewrite IH by lia. do 2 f_equal.
  change 256 with (2 ^ 8). rewrite <-Z.shiftr_div_pow2, Z.shiftr_shiftr by lia. f_equal. lia.
Qed.

Lemma byte_of_Z_bits a b :
  (forall k, 0 <= k < 8 -> Z.testbit a k = Z.testbit b k) -> byte_of_Z a = byte_of_Z b.
Proof.
  intros Hk. unfold byte_of_Z. assert (Hmod : a mod 256 = b mod 256); [|by rewrite Hmod].
  change 256 with (2 ^ 8). apply Z.bits_inj'. intros k Hk0.
  destruct (Z.ltb_spec k 8).
  - rewrite !Z.mod_pow2_bits_low by lia. apply Hk. lia.
  - rewrite !Z.mod_pow2_bits_high by lia. done.
Qed.

Lemma Z_of_byte_testbit z k : 0 <= k < 8 -> Z.testbit (Z_of_byte (byte_of_Z z)) k = Z.testbit z k.
Proof. intros Hk. rewrite Z_of_byte_of_Z. change 256 with (2 ^ 8). apply Z.mod_pow2_bits_low. lia. Qed.

Lemma one_bit h k : 0 <= h -> Z.testbit (Z.shiftl 1 h) k = (h =? k).
Proof. intros Hh. rewrite Z.shiftl_1_l. by apply Z.pow2_bits_eqb. Qed.

(** The octet and the position within it of a height. *)
Lemma height_split h : Z.of_nat h = 8 * Z.of_nat (h / 8) + Z.of_nat (h mod 8) /\ 0 <= Z.of_nat (h mod 8) < 8.
Proof. pose proof (Nat.div_mod_eq h 8). pose proof (Nat.mod_upper_bound h 8). lia. Qed.

(** Changing one bit of the octets changes that bit of the number. *)
Lemma alter_bit (f g : Z -> Z -> Z) (op : bool -> bool -> bool) n z h :
  (forall a b k, 0 <= k < 8 -> Z.testbit (f a b) k = op (Z.testbit a k) (Z.testbit b k)) ->
  (forall a b k, 0 <= k -> Z.testbit (g a b) k = op (Z.testbit a k) (Z.testbit b k)) ->
  (forall x, op x false = x) ->
  alter (fun b => byte_of_Z (f (Z_of_byte b) (height_bit h))) (h / 8)%nat (to_le_bytes n z) =
  to_le_bytes n (g z (Z.shiftl 1 (Z.of_nat h))).
Proof.
  intros Hf Hg Hop. destruct (height_split h) as [Hh Hm]. apply list_eq. intros i.
  destruct (decide (i < n)%nat) as [Hi|Hi].
  2:{ rewrite !lookup_ge_None_2; [done|rewrite length_to_le_bytes; lia|].
      rewrite length_alter, length_to_le_bytes. lia. }
  rewrite (lookup_to_le_bytes n (g _ _)) by done. destruct (decide (i = h / 8)%nat) as [->|Hne].
  - rewrite list_lookup_alter_eq, lookup_to_le_bytes by done. cbn [fmap option_fmap option_map]. f_equal. apply byte_of_Z_bits. intros k Hk.
    unfold height_bit. rewrite Hf, Z_of_byte_testbit, !Z.shiftr_spec, Hg, !one_bit by lia.
    f_equal. apply eq_true_iff_eq. rewrite !Z.eqb_eq. lia.
  - rewrite list_lookup_alter_ne, lookup_to_le_bytes by done. f_equal. apply byte_of_Z_bits. intros k Hk.
    rewrite !Z.shiftr_spec, Hg, one_bit by lia. rewrite (proj2 (Z.eqb_neq _ _)), Hop; [done|]. lia.
Qed.

(** ** Positions *)

(** The position of a node of the complete tree. *)
Definition node_at (height : nat) (index : Z) : NodePositionV1 :=
  mk_NodePositionV1 height (to_le_bytes 64 (Z.shiftl index (Z.of_nat height))).

(** The leaf of a nullifier. *)
Definition key (nullifier : NullifierV2) : Z := from_le_bytes (arr nullifier).

Lemma key_bytes nullifier : to_le_bytes 64 (key nullifier) = arr nullifier.
Proof. unfold key. rewrite <-(length_arr nullifier) at 1. apply to_from_le_bytes. Qed.

Lemma key_range nullifier : 0 <= key nullifier < 2 ^ 512.
Proof.
  unfold key. pose proof (from_le_bytes_range (arr nullifier)) as Hr. rewrite length_arr in Hr.
  change (256 ^ Z.of_nat 64) with (2 ^ 512) in Hr. exact Hr.
Qed.

Lemma key_inj n1 n2 : key n1 = key n2 -> n1 = n2.
Proof. intros Hk. apply arr_inj. by rewrite <-(key_bytes n1), Hk, key_bytes. Qed.

Lemma position_leaf_at nullifier : position_leaf nullifier = node_at 0 (key nullifier).
Proof. unfold position_leaf, node_at. by rewrite Z.shiftl_0_r, key_bytes. Qed.

Lemma position_root_at : position_root = node_at NULLIFIER_SPARSE_TREE_DEPTH_V1 0.
Proof. unfold position_root, node_at. rewrite Z.shiftl_0_l. f_equal. Qed.

Lemma sibling_at height index : sibling (node_at height index) = node_at height (Z.lxor index 1).
Proof.
  unfold sibling, node_at. cbn [np_height np_key]. f_equal.
  rewrite (alter_bit Z.lxor Z.lxor xorb); [by rewrite <-Z.shiftl_lxor| | |].
  - intros. apply Z.lxor_spec.
  - intros. apply Z.lxor_spec.
  - apply xorb_false_r.
Qed.

Lemma parent_at height index : parent (node_at height index) = node_at (S height) (Z.div2 index).
Proof.
  unfold parent, node_at. cbn [np_height np_key]. f_equal.
  rewrite (alter_bit (fun a b => Z.land a (Z.lxor 255 b)) Z.ldiff (fun x y => x && negb y)).
  - rewrite <-Z.shiftl_ldiff. change 1 with (Z.ones 1). rewrite Z.ldiff_ones_r, Z.shiftl_shiftl by lia.
    rewrite <-Z.div2_spec. do 2 f_equal. lia.
  - intros a b k Hk. rewrite Z.land_spec, Z.lxor_spec. f_equal.
    change 255 with (Z.ones 8). rewrite Z.ones_spec_low by lia. done.
  - intros. apply Z.ldiff_spec.
  - intros []; done.
Qed.

Lemma path_bit_testbit bytes level z :
  (level < 512)%nat -> bytes = to_le_bytes 64 z -> path_bit_of bytes level = Z.testbit z (Z.of_nat level).
Proof.
  intros Hl ->. destruct (height_split level) as [Hh Hm]. unfold path_bit_of.
  assert (Hb : (level / 8 < 64)%nat) by (apply Nat.Div0.div_lt_upper_bound; lia).
  rewrite (nth_lookup_Some _ _ x00 _ (lookup_to_le_bytes 64 z (level / 8) Hb)).
  assert (Hland : forall w, (Z.land w 1 =? 1) = Z.odd w).
  { intros w. change 1 with (Z.ones 1) at 1. rewrite Z.land_ones, Zmod_odd by lia. by destruct (Z.odd w). }
  rewrite Hland, <-Z.bit0_odd, Z.shiftr_spec, Z_of_byte_testbit, Z.shiftr_spec by lia. f_equal. lia.
Qed.

(** ** Hashing *)

Lemma lor_bound n a b : 0 <= n -> 0 <= a < 2 ^ n -> 0 <= b < 2 ^ n -> 0 <= Z.lor a b < 2 ^ n.
Proof.
  intros Hn Ha Hb. assert (Hm : Z.lor a b mod 2 ^ n = Z.lor a b).
  { rewrite <-Z.land_ones, Z.land_lor_distr_l, !Z.land_ones by lia. by rewrite !Z.mod_small. }
  rewrite <-Hm. apply Z.mod_pos_bound. lia.
Qed.

Lemma pack_chunk_wf chunk : (length chunk <= 3)%nat -> element_wf (pack_chunk chunk).
Proof.
  intros Hl. assert (Hb : 0 <= pack_chunk chunk < 2 ^ 24).
  { destruct chunk as [|a [|b [|c [|]]]]; cbn in Hl; try lia; cbn -[Z.lor Z.shiftl Z.pow].
    all: repeat (apply lor_bound; [lia| |]); try lia.
    all: rewrite Z.shiftl_mul_pow2 by lia.
    all: match goal with |- context [Z_of_byte ?x] => pose proof (Z_of_byte_range x) end.
    all: split; [apply Z.mul_nonneg_nonneg; lia|]; cbn; lia. }
  unfold element_wf, BABYBEAR_MODULUS. change (2 ^ 24) with 16777216 in Hb. lia.
Qed.

Lemma packed_wf input : Forall element_wf (pack_chunk <$> chunks P24_BYTE_PACK_WIDTH input).
Proof.
  apply Forall_fmap. eapply Forall_impl; [apply (chunks_loop_Forall (fun _ => True)), Forall_true; done|].
  intros chunk [_ Hl]. by apply pack_chunk_wf.
Qed.

(** What hashing relies on: an evaluator of the right shape and canonical vectors. *)
Record sparse_wf (r : NullifierSparseTreeReferenceV1) : Prop := mk_sparse_wf {
  swf_permutation : reference_wf (permutation r);
  swf_leaf_iv : length (leaf_iv r) = 9%nat /\ Forall element_wf (leaf_iv r);
  swf_node_iv : length (node_iv r) = 9%nat /\ Forall element_wf (node_iv r);
  swf_empty_iv : length (empty_iv r) = 9%nat /\ Forall element_wf (empty_iv r)
}.

Section Tree.
Context {E : Type} (r : NullifierSparseTreeReferenceV1) (Hr : sparse_wf r).

(** The digest, where hashing returns one. *)
Definition sparse_digest (x : Result (NullifierTreeReferenceError E) BabyBearDigestV2) : BabyBearDigestV2 :=
  match x with Ok d => d | Err _ => [] end.

Definition sparse_value (a b : BabyBearDigestV2) : BabyBearDigestV2 := sparse_digest (sparse_node r a b).
Definition spent_value (bytes : list byte) : BabyBearDigestV2 :=
  sparse_digest (hash_bytes r NullifierSparseDomain.Leaf bytes).
Definition unspent_value : BabyBearDigestV2 := sparse_digest (hash_bytes r NullifierSparseDomain.Empty []).

Lemma hash_bytes_total domain input :
  length input = sparse_input_bytes domain ->
  exists d, @hash_bytes E r domain input = Ok d /\ digest_wf d.
Proof.
  intros Hl. unfold hash_bytes. rewrite (proj2 (Nat.eqb_eq _ _) Hl). cbn [negb]. cbv zeta.
  set (iv := match domain with NullifierSparseDomain.Leaf => _ | _ => _ end).
  assert (Hiv : length iv = 9%nat /\ Forall element_wf iv) by (destruct domain; apply Hr).
  destruct (sponge_total _ iv _ (swf_permutation _ Hr) (proj1 Hiv) (proj2 Hiv) (packed_wf input)) as (d & -> & Hd).
  by exists d.
Qed.

Lemma length_write_digest d : digest_wf d -> length (write_digest d) = 64%nat.
Proof. intros [Hl _]. unfold write_digest. by rewrite length_concat_le, Hl. Qed.

Lemma sparse_node_total a b :
  digest_wf a -> digest_wf b -> @sparse_node E r a b = Ok (sparse_value a b) /\ digest_wf (sparse_value a b).
Proof.
  intros Ha Hb. unfold sparse_value, sparse_node, validate_digest.
  rewrite !validate_with_wf by (apply Ha || apply Hb). cbn [mbind result_bind].
  destruct (hash_bytes_total NullifierSparseDomain.Node (write_digest a ++ write_digest b)) as (d & -> & Hd);
    [by rewrite length_app, !length_write_digest|done].
Qed.

Lemma spent_value_total bytes :
  length bytes = 64%nat -> @hash_bytes E r NullifierSparseDomain.Leaf bytes = Ok (spent_value bytes) /\
  digest_wf (spent_value bytes).
Proof.
  intros Hl. unfold spent_value. by destruct (hash_bytes_total NullifierSparseDomain.Leaf bytes Hl) as (d & -> & Hd).
Qed.

Lemma spent_leaf_total nullifier :
  @spent_leaf E r nullifier = Ok (spent_value (arr nullifier)) /\ digest_wf (spent_value (arr nullifier)).
Proof. apply spent_value_total, length_arr. Qed.

Lemma unspent_total : @hash_bytes E r NullifierSparseDomain.Empty [] = Ok unspent_value /\ digest_wf unspent_value.
Proof. unfold unspent_value. by destruct (hash_bytes_total NullifierSparseDomain.Empty []) as (d & -> & Hd). Qed.

Abbreviation empty_at := (empty_node sparse_value unspent_value).

Lemma sparse_empty_wf height : digest_wf (empty_at height).
Proof. induction height as [|h IH]; cbn [empty_node]; [apply unspent_total|]. by apply sparse_node_total. Qed.

Lemma sparse_empty_loop_exact levels height :
  @sparse_empty_loop E r levels (empty_at height) = Ok (empty_at <$> seq (S height) levels).
Proof.
  revert height. induction levels as [|n IH]; intros height; cbn [sparse_empty_loop seq]; [done|].
  destruct (sparse_node_total _ _ (sparse_empty_wf height) (sparse_empty_wf height)) as [-> _].
  cbn [mbind result_bind].
  change (sparse_value (empty_at height) (empty_at height)) with (empty_at (S height)). by rewrite IH.
Qed.

Lemma derive_empty_exact :
  @derive_empty_values E r = Ok (empty_at <$> seq 0 (S NULLIFIER_SPARSE_TREE_DEPTH_V1)).
Proof.
  unfold derive_empty_values. rewrite (proj1 unspent_total). cbn [mbind result_bind].
  change unspent_value with (empty_at 0). rewrite sparse_empty_loop_exact. done.
Qed.

(** The stored chain is the derived one. *)
Context (Hvalues : @derive_empty_values E r = Ok (sparse_empty_values r)).

Lemma sparse_empty_exact : sparse_empty_values r = empty_at <$> seq 0 (S NULLIFIER_SPARSE_TREE_DEPTH_V1).
Proof. rewrite derive_empty_exact in Hvalues. by injection Hvalues. Qed.

Lemma sparse_empty_nth height :
  (height <= NULLIFIER_SPARSE_TREE_DEPTH_V1)%nat -> nth height (sparse_empty_values r) [] = empty_at height.
Proof.
  intros Hh. apply nth_lookup_Some. rewrite sparse_empty_exact, list_lookup_fmap, lookup_seq_lt by lia. done.
Qed.

(** ** The set of spent nullifiers *)

(** The leaves of the complete tree over a set. *)
Definition sparse_leaf (spent : gset NullifierV2) (i : Z) : BabyBearDigestV2 :=
  if bool_decide (i ∈ (set_map key spent : gset Z)) then spent_value (to_le_bytes 64 i) else unspent_value.

Definition sparse_root (spent : gset NullifierV2) : BabyBearDigestV2 :=
  full_root sparse_value (sparse_leaf spent) NULLIFIER_SPARSE_TREE_DEPTH_V1 0.

(** A spent nullifier lies below the node. *)
Definition occupied (spent : gset NullifierV2) (height : nat) (index : Z) : Prop :=
  exists n, n ∈ spent /\ Z.shiftr (key n) (Z.of_nat height) = index.

Definition in_level (height : nat) (index : Z) : Prop :=
  (height <= NULLIFIER_SPARSE_TREE_DEPTH_V1)%nat /\
  0 <= index < 2 ^ (Z.of_nat NULLIFIER_SPARSE_TREE_DEPTH_V1 - Z.of_nat height).

(** The state stores the nodes above the spent leaves, with their values. *)
Record represents (st : NullifierSparseTreeStateV1) (spent : gset NullifierV2) : Prop := mk_represents {
  rep_reference : nt_reference st = r;
  rep_nodes : forall height index, in_level height index ->
    match nt_non_empty_nodes st !! node_at height index with
    | Some d => d = full_root sparse_value (sparse_leaf spent) height index /\ occupied spent height index
    | None => ~ occupied spent height index
    end;
  rep_positions : forall p d, nt_non_empty_nodes st !! p = Some d ->
    exists height index, in_level height index /\ p = node_at height index;
  rep_count : nt_spent_count st = Z.of_nat (size spent);
  rep_range : nt_spent_count st <= U64_MAX
}.

Lemma depth_512 : Z.of_nat NULLIFIER_SPARSE_TREE_DEPTH_V1 = 512.
Proof. done. Qed.

Lemma shiftr_level n height :
  (height <= NULLIFIER_SPARSE_TREE_DEPTH_V1)%nat -> in_level height (Z.shiftr (key n) (Z.of_nat height)).
Proof.
  intros Hh. split; [done|]. pose proof (key_range n) as Hk. rewrite depth_512. pose proof depth_512.
  rewrite Z.shiftr_div_pow2 by lia. split; [apply Z.div_pos; lia|].
  apply Z.div_lt_upper_bound; [lia|]. rewrite <-Z.pow_add_r by lia.
  replace (Z.of_nat height + (512 - Z.of_nat height)) with 512 by lia. lia.
Qed.

(** Nodes cover the leaves whose address they are a prefix of. *)
Lemma covered height index i :
  index * 2 ^ Z.of_nat height <= i < (index + 1) * 2 ^ Z.of_nat height <-> Z.shiftr i (Z.of_nat height) = index.
Proof.
  rewrite Z.shiftr_div_pow2 by lia. pose proof (Z.pow_pos_nonneg 2 (Z.of_nat height) ltac:(lia) ltac:(lia)) as Hp.
  pose proof (Z.div_mod i (2 ^ Z.of_nat height) ltac:(lia)).
  pose proof (Z.mod_pos_bound i (2 ^ Z.of_nat height) Hp). split; [|nia].
  intros Hi. symmetry. apply (Z.div_unique_pos _ _ _ (i - index * 2 ^ Z.of_nat height)); lia.
Qed.

Lemma elem_of_keys i (spent : gset NullifierV2) : i ∈ (set_map key spent : gset Z) <-> exists n, n ∈ spent /\ key n = i.
Proof. rewrite elem_of_map. split; intros (n & ? & ?); exists n; naive_solver. Qed.

Lemma unoccupied_empty spent height index :
  ~ occupied spent height index ->
  full_root sparse_value (sparse_leaf spent) height index = empty_at height.
Proof.
  intros Hno. apply full_root_no_leaves. intros i Hi%covered. unfold sparse_leaf.
  rewrite bool_decide_false; [done|]. intros (n & Hn & <-)%elem_of_keys. apply Hno. by exists n.
Qed.

(** Spending a nullifier changes only the nodes above its leaf. *)
Lemma spend_elsewhere spent n height index :
  Z.shiftr (key n) (Z.of_nat height) <> index ->
  full_root sparse_value (sparse_leaf ({[n]} ∪ spent)) height index =
  full_root sparse_value (sparse_leaf spent) height index.
Proof.
  intros Hne. apply full_root_ext. intros i Hi%covered. unfold sparse_leaf.
  replace (bool_decide (i ∈ (set_map key ({[n]} ∪ spent) : gset Z)))
    with (bool_decide (i ∈ (set_map key spent : gset Z))); [done|].
  apply bool_decide_ext. rewrite !elem_of_keys. set_unfold. naive_solver.
Qed.

Lemma sparse_leaf_wf spent i : digest_wf (sparse_leaf spent i).
Proof.
  unfold sparse_leaf. case_bool_decide; [|apply unspent_total].
  apply spent_value_total, length_to_le_bytes.
Qed.

Lemma sparse_root_wf spent height index : digest_wf (full_root sparse_value (sparse_leaf spent) height index).
Proof.
  revert index. induction height as [|h IH]; intros i; cbn [full_root]; [apply sparse_leaf_wf|].
  by apply sparse_node_total.
Qed.

Section Represented.
Context (st : NullifierSparseTreeStateV1) (spent : gset NullifierV2) (Hst : represents st spent).

Lemma value_at_node height index :
  in_level height index ->
  value_at st (node_at height index) = full_root sparse_value (sparse_leaf spent) height index.
Proof.
  intros Hl. unfold value_at. pose proof (rep_nodes _ _ Hst height index Hl) as Hn.
  destruct (nt_non_empty_nodes st !! node_at height index) as [d|]; cbn [default id]; [apply Hn|].
  rewrite (rep_reference _ _ Hst). cbn [np_height node_at].
  rewrite sparse_empty_nth by apply Hl. symmetry. by apply unoccupied_empty.
Qed.

Lemma value_at_root : value_at st position_root = sparse_root spent.
Proof.
  rewrite position_root_at. apply value_at_node. split; [done|]. rewrite Z.sub_diag. done.
Qed.

Lemma is_spent_exact n : is_spent st n = true <-> n ∈ spent.
Proof.
  unfold is_spent. rewrite position_leaf_at, bool_decide_eq_true.
  pose proof (shiftr_level n 0 ltac:(lia)) as Hl. rewrite Z.shiftr_0_r in Hl.
  pose proof (rep_nodes _ _ Hst 0 (key n) Hl) as Hn.
  assert (Hocc : occupied spent 0 (key n) <-> n ∈ spent).
  { unfold occupied. split; [|by exists n]. intros (n' & Hn' & Hk). rewrite Z.shiftr_0_r in Hk.
    by apply key_inj in Hk as ->. }
  destruct (nt_non_empty_nodes st !! node_at 0 (key n)) as [d|]; rewrite <-Hocc.
  - split; [intros _; apply Hn|by eexists].
  - split; [by intros [? ?]|]. done.
Qed.

(** A step up stays in the tree. *)
Lemma level_step height index :
  (height < NULLIFIER_SPARSE_TREE_DEPTH_V1)%nat -> in_level height index ->
  in_level height (Z.lxor index 1) /\ in_level (S height) (Z.div2 index).
Proof.
  intros Hh [_ Hi]. pose proof (Z.div2_odd index) as Hd.
  set (w := Z.of_nat NULLIFIER_SPARSE_TREE_DEPTH_V1 - Z.of_nat height) in *.
  assert (Hw : 2 ^ w = 2 * 2 ^ (w - 1)) by (rewrite <-Z.pow_succ_r by lia; f_equal; lia).
  assert (Hx : Z.lxor index 1 = 2 * Z.div2 index + (if Z.odd index then 0 else 1)) by apply lxor_one.
  split; split; try lia.
  - fold w. destruct (Z.odd index); cbn [Z.b2z] in Hd; lia.
  - replace (Z.of_nat NULLIFIER_SPARSE_TREE_DEPTH_V1 - Z.of_nat (S height)) with (w - 1) by lia.
    destruct (Z.odd index); cbn [Z.b2z] in Hd; lia.
Qed.

Lemma prove_loop_exact levels height index :
  (height + levels)%nat = NULLIFIER_SPARSE_TREE_DEPTH_V1 -> in_level height index ->
  prove_loop st levels (node_at height index) =
  tree_siblings sparse_value (sparse_leaf spent) height index levels.
Proof.
  revert height index. induction levels as [|n IH]; intros height index Hd Hl; cbn [prove_loop tree_siblings]; [done|].
  destruct (level_step height index ltac:(lia) Hl) as [Hs Hp].
  rewrite sibling_at, parent_at, value_at_node, IH by (done || lia). done.
Qed.

Lemma prove_exact n :
  prove st n = tree_siblings sparse_value (sparse_leaf spent) 0 (key n) NULLIFIER_SPARSE_TREE_DEPTH_V1.
Proof.
  unfold prove. rewrite position_leaf_at. apply prove_loop_exact; [done|].
  pose proof (shiftr_level n 0 ltac:(lia)) as Hl. by rewrite Z.shiftr_0_r in Hl.
Qed.

(** The nodes above the leaf of [n], once it is spent. *)
Definition spent_nodes (n : NullifierV2) (height levels : nat) : list (NodePositionV1 * BabyBearDigestV2) :=
  (fun h => (node_at h (Z.shiftr (key n) (Z.of_nat h)),
             full_root sparse_value (sparse_leaf ({[n]} ∪ spent)) h (Z.shiftr (key n) (Z.of_nat h)))) <$>
    seq height levels.

Lemma path_bit_at height index :
  (height < NULLIFIER_SPARSE_TREE_DEPTH_V1)%nat -> 0 <= index -> path_bit (node_at height index) = Z.odd index.
Proof.
  intros Hh Hi. unfold path_bit. cbn [np_key np_height node_at]. pose proof depth_512.
  rewrite (path_bit_testbit _ _ (Z.shiftl index (Z.of_nat height))) by (done || lia).
  rewrite Z.shiftl_spec, Z.sub_diag by lia. by rewrite Z.bit0_odd.
Qed.

Lemma shiftr_up n height : Z.div2 (Z.shiftr (key n) (Z.of_nat height)) = Z.shiftr (key n) (Z.of_nat (S height)).
Proof. rewrite Z.div2_spec, Z.shiftr_shiftr by lia. f_equal. lia. Qed.

Lemma prepare_loop_exact n levels height :
  (height + levels)%nat = NULLIFIER_SPARSE_TREE_DEPTH_V1 ->
  prepare_loop st levels (node_at height (Z.shiftr (key n) (Z.of_nat height)))
    (full_root sparse_value (sparse_leaf ({[n]} ∪ spent)) height (Z.shiftr (key n) (Z.of_nat height))) =
  @Ok (NullifierTreeReferenceError E) _ (spent_nodes n (S height) levels).
Proof.
  revert height. induction levels as [|m IH]; intros height Hd; cbn [prepare_loop]; [done|]. cbv zeta.
  set (i := Z.shiftr (key n) (Z.of_nat height)).
  pose proof (shiftr_level n height ltac:(lia)) as Hl. fold i in Hl.
  destruct (level_step height i ltac:(lia) Hl) as [Hs Hp].
  rewrite sibling_at, parent_at, path_bit_at, value_at_node, (rep_reference _ _ Hst) by (apply Hl || done || lia).
  rewrite <-(spend_elsewhere spent n) by (fold i; rewrite lxor_one; pose proof (Z.div2_odd i);
    destruct (Z.odd i); cbn [Z.b2z] in *; lia).
  pose proof (full_root_step sparse_value (sparse_leaf ({[n]} ∪ spent)) height i) as Hstep.
  pose proof (sparse_root_wf ({[n]} ∪ spent) height i) as Hwi.
  pose proof (sparse_root_wf ({[n]} ∪ spent) height (Z.lxor i 1)) as Hws.
  assert (Hi : Z.div2 i = Z.shiftr (key n) (Z.of_nat (S height))) by apply shiftr_up.
  destruct (Z.odd i).
  - destruct (sparse_node_total _ _ Hws Hwi) as [-> _]. cbn [mbind result_bind]. rewrite <-Hstep, Hi, IH by lia. done.
  - destruct (sparse_node_total _ _ Hwi Hws) as [-> _]. cbn [mbind result_bind]. rewrite <-Hstep, Hi, IH by lia. done.
Qed.

Lemma prepare_spend_exact n :
  prepare_spend st n = @Ok (NullifierTreeReferenceError E) _ (spent_nodes n 0 (S NULLIFIER_SPARSE_TREE_DEPTH_V1)).
Proof.
  unfold prepare_spend. cbv zeta. rewrite (rep_reference _ _ Hst), (proj1 (spent_leaf_total n)).
  cbn [mbind result_bind]. rewrite position_leaf_at.
  pose proof (prepare_loop_exact n NULLIFIER_SPARSE_TREE_DEPTH_V1 0 eq_refl) as Hp.
  rewrite !Z.shiftr_0_r, full_root_leaf in Hp. unfold sparse_leaf in Hp at 1.
  rewrite bool_decide_true in Hp by (apply elem_of_keys; exists n; set_solver).
  rewrite key_bytes in Hp. rewrite Hp. cbn [mbind result_bind]. unfold spent_nodes. cbn [seq].
  rewrite fmap_cons, Z.shiftr_0_r, full_root_leaf. unfold sparse_leaf at 2.
  rewrite bool_decide_true by (apply elem_of_keys; exists n; set_solver). by rewrite key_bytes.
Qed.

Lemma node_at_inj h1 i1 h2 i2 :
  in_level h1 i1 -> in_level h2 i2 -> node_at h1 i1 = node_at h2 i2 -> h1 = h2 /\ i1 = i2.
Proof.
  intros [Hh1 Hi1] [_ Hi2] Heq. pose proof (f_equal np_height Heq) as Hh. pose proof (f_equal np_key Heq) as Hb.
  cbn [np_height np_key node_at] in Hh, Hb. subst h2. split; [reflexivity|]. clear Heq.
  rewrite depth_512 in *. pose proof depth_512.
  apply (f_equal from_le_bytes) in Hb. rewrite !from_to_le_bytes in Hb.
  change (256 ^ Z.of_nat 64) with (2 ^ 512) in Hb.
  assert (Hs : forall i, 0 <= i < 2 ^ (512 - Z.of_nat h1) -> 0 <= Z.shiftl i (Z.of_nat h1) < 2 ^ 512).
  { intros i Hi. rewrite Z.shiftl_mul_pow2 by lia.
    assert (H512 : 2 ^ 512 = 2 ^ (512 - Z.of_nat h1) * 2 ^ Z.of_nat h1)
      by (rewrite <-Z.pow_add_r by lia; f_equal; lia).
    rewrite H512. pose proof (Z.pow_pos_nonneg 2 (Z.of_nat h1)). split; [apply Z.mul_nonneg_nonneg; lia|].
    apply Z.mul_lt_mono_pos_r; lia. }
  rewrite !Z.mod_small in Hb by (by apply Hs). rewrite !Z.shiftl_mul_pow2 in Hb by lia.
  apply Z.mul_cancel_r in Hb; [done|]. by apply Z.pow_nonzero; lia.
Qed.

Lemma extend_nodes_lookup nodes n start levels height index :
  (start + levels <= S NULLIFIER_SPARSE_TREE_DEPTH_V1)%nat -> in_level height index ->
  extend_nodes nodes (spent_nodes n start levels) !! node_at height index =
  if bool_decide ((start <= height < start + levels)%nat /\ index = Z.shiftr (key n) (Z.of_nat height))
  then Some (full_root sparse_value (sparse_leaf ({[n]} ∪ spent)) height index)
  else nodes !! node_at height index.
Proof.
  intros Hs Hl. revert start nodes Hs. induction levels as [|m IH]; intros start nodes Hs.
  { rewrite bool_decide_false by lia. done. }
  change (extend_nodes nodes (spent_nodes n start (S m))) with
    (extend_nodes (<[node_at start (Z.shiftr (key n) (Z.of_nat start)) :=
       full_root sparse_value (sparse_leaf ({[n]} ∪ spent)) start (Z.shiftr (key n) (Z.of_nat start))]> nodes)
       (spent_nodes n (S start) m)).
  rewrite IH by lia. pose proof (shiftr_level n start ltac:(lia)) as Hstart.
  destruct (decide (height = start /\ index = Z.shiftr (key n) (Z.of_nat height))) as [[Hhs His]|Hne].
  - subst height index. rewrite bool_decide_false, bool_decide_true, lookup_insert_eq by lia. done.
  - rewrite lookup_insert_ne by
      (intros Heq; apply node_at_inj in Heq as [Hhs His]; [subst; by apply Hne|done..]).
    erewrite bool_decide_ext; [done|]. split; intros [? ?]; (split; [|done]); [lia|].
    destruct (decide (height = start)) as [->|]; [by destruct Hne|lia].
Qed.

Lemma extend_nodes_positions nodes n start levels :
  (start + levels <= S NULLIFIER_SPARSE_TREE_DEPTH_V1)%nat ->
  (forall p d, nodes !! p = Some d -> exists height index, in_level height index /\ p = node_at height index) ->
  forall p d, extend_nodes nodes (spent_nodes n start levels) !! p = Some d ->
    exists height index, in_level height index /\ p = node_at height index.
Proof.
  revert start nodes. induction levels as [|m IH]; intros start nodes Hs Hold; [exact Hold|].
  change (extend_nodes nodes (spent_nodes n start (S m))) with
    (extend_nodes (<[node_at start (Z.shiftr (key n) (Z.of_nat start)) :=
       full_root sparse_value (sparse_leaf ({[n]} ∪ spent)) start (Z.shiftr (key n) (Z.of_nat start))]> nodes)
       (spent_nodes n (S start) m)).
  apply IH; [lia|]. intros p d. rewrite lookup_insert_Some. intros [[<- _]|[_ Hp]]; [|by eapply Hold].
  do 2 eexists. split; [apply (shiftr_level n start); lia|done].
Qed.

Lemma last_spent_nodes n :
  last (spent_nodes n 0 (S NULLIFIER_SPARSE_TREE_DEPTH_V1)) =
  Some (position_root, sparse_root ({[n]} ∪ spent)).
Proof.
  unfold spent_nodes. rewrite seq_S, fmap_app. cbn [fmap list_fmap Nat.add]. rewrite last_snoc.
  pose proof (shiftr_level n NULLIFIER_SPARSE_TREE_DEPTH_V1 ltac:(lia)) as [_ Hr0].
  rewrite Z.sub_diag in Hr0. replace (Z.shiftr (key n) (Z.of_nat NULLIFIER_SPARSE_TREE_DEPTH_V1)) with 0 by lia.
  by rewrite position_root_at.
Qed.

(** Installing the prepared nodes adds the nullifier to the set. *)
Lemma spend_represents n :
  n ∉ spent -> Z.of_nat (size spent) < U64_MAX ->
  represents (mk_NullifierSparseTreeStateV1 r
    (extend_nodes (nt_non_empty_nodes st) (spent_nodes n 0 (S NULLIFIER_SPARSE_TREE_DEPTH_V1)))
    (nt_spent_count st + 1)) ({[n]} ∪ spent).
Proof.
  intros Hn Hsize. split; [done| | | |].
  - intros height index Hl. cbn [nt_non_empty_nodes]. rewrite extend_nodes_lookup by done.
    case_bool_decide as Hin.
    + destruct Hin as [_ ->]. split; [done|]. exists n. split; [set_solver|done].
    + assert (Hother : Z.shiftr (key n) (Z.of_nat height) <> index).
      { intros <-. apply Hin. split; [|done]. destruct Hl. lia. }
      pose proof (rep_nodes _ _ Hst height index Hl) as Hold.
      destruct (nt_non_empty_nodes st !! node_at height index) as [d|].
      * destruct Hold as [-> (n' & Hn' & <-)]. rewrite spend_elsewhere by done. split; [done|].
        exists n'. split; [set_solver|done].
      * intros (n' & Hn' & Hk). apply elem_of_union in Hn' as [->%elem_of_singleton|Hn']; [done|].
        apply Hold. by exists n'.
  - cbn [nt_non_empty_nodes]. apply extend_nodes_positions; [lia|apply Hst].
  - cbn. rewrite size_union, size_singleton, (rep_count _ _ Hst) by set_solver. lia.
  - cbn [nt_spent_count]. rewrite (rep_count _ _ Hst). lia.
Qed.

End Represented.

Lemma root_from_elements_total d :
  digest_wf d -> exists v, @root_from_elements E d = Ok v /\ elements v = d.
Proof. intros Hd. unfold root_from_elements. destruct (from_elements_total d Hd) as (v & -> & Hv). by exists v. Qed.

Lemma tree_root_exact st spent :
  represents st spent -> exists root, @tree_root E st = Ok root /\ elements root = sparse_root spent.
Proof.
  intros Hst. unfold tree_root. rewrite (value_at_root st spent Hst).
  destruct (root_from_elements_total (sparse_root spent)) as (v & -> & Hv); [apply sparse_root_wf|]. by exists v.
Qed.

Lemma mark_spent_again st spent n :
  represents st spent -> n ∈ spent ->
  @mark_spent E n st = (Err (Some (NullifierSparseTreeStateError.AlreadySpent n)), st).
Proof.
  intros Hst Hn. unfold mark_spent. destruct (tree_root_exact st spent Hst) as (root & Hroot & _).
  msimpl. rewrite Hroot. msimpl. by rewrite (proj2 (is_spent_exact st spent Hst n) Hn).
Qed.

Lemma mark_spent_fresh st spent n :
  represents st spent -> n ∉ spent -> Z.of_nat (size spent) < U64_MAX ->
  exists update st', @mark_spent E n st = (Ok update, st') /\ represents st' ({[n]} ∪ spent) /\
    update_nullifier update = n /\ elements (update_previous_root update) = sparse_root spent /\
    elements (update_root update) = sparse_root ({[n]} ∪ spent).
Proof.
  intros Hst Hn Hsize. unfold mark_spent. destruct (tree_root_exact st spent Hst) as (previous & Hprev & Hpe).
  destruct (root_from_elements_total (sparse_root ({[n]} ∪ spent))) as (root & Hroot & Hre); [apply sparse_root_wf|].
  assert (Hfresh : is_spent st n = false).
  { destruct (is_spent st n) eqn:Hs; [|done]. by apply (is_spent_exact st spent Hst) in Hs. }
  assert (Hcount : checked_add U64_MAX (nt_spent_count st) 1 = Some (nt_spent_count st + 1)).
  { apply checked_add_Some. rewrite (rep_count _ _ Hst). lia. }
  msimpl. rewrite Hprev. msimpl. rewrite Hfresh. msimpl. rewrite (prepare_spend_exact st spent Hst n). msimpl.
  cbn [from_reference map_err]. rewrite (last_spent_nodes spent n). msimpl. rewrite Hroot. cbn [map_err].
  msimpl. rewrite Hcount. msimpl. do 2 eexists. split; [done|]. rewrite (rep_reference _ _ Hst).
  split_and!; [by apply spend_represents|done|exact Hpe|exact Hre].
Qed.

(** The stored tree is determined by the set. *)
Lemma represents_unique st st' spent : represents st spent -> represents st' spent -> st = st'.
Proof.
  intros H1 H2. destruct st as [r1 nodes1 count1], st' as [r2 nodes2 count2].
  pose proof (rep_reference _ _ H1) as Hr1. pose proof (rep_reference _ _ H2) as Hr2.
  pose proof (rep_count _ _ H1) as Hc1. pose proof (rep_count _ _ H2) as Hc2.
  cbn [nt_reference nt_spent_count] in *. subst. f_equal. apply map_eq. intros p. apply option_eq. intros d.
  assert (Hone : forall s1 s2, represents s1 spent -> represents s2 spent ->
    nt_non_empty_nodes s1 !! p = Some d -> nt_non_empty_nodes s2 !! p = Some d).
  { clear. intros s1 s2 H1 H2 Hp. destruct (rep_positions _ _ H1 p d Hp) as (h & i & Hl & ->).
    pose proof (rep_nodes _ _ H1 h i Hl) as Hn1. pose proof (rep_nodes _ _ H2 h i Hl) as Hn2. rewrite Hp in Hn1.
    destruct (nt_non_empty_nodes s2 !! node_at h i) as [d'|]; [|by destruct Hn2; apply Hn1].
    f_equal. etransitivity; [apply Hn2|symmetry; apply Hn1]. }
  split; [apply (Hone _ _ H1 H2)|apply (Hone _ _ H2 H1)].
Qed.

(** C17: marking a nullifier as spent is insertion into the set the tree represents:
    a spent nullifier is rejected and nothing changes, a fresh one is added and the
    reported roots are those of the complete trees over the set before and after. *)
Theorem mark_spent_refines st spent n
    (Hst : represents st spent) (Hsize : Z.of_nat (size spent) < U64_MAX) :
  if decide (n ∈ spent)
  then @mark_spent E n st = (Err (Some (NullifierSparseTreeStateError.AlreadySpent n)), st)
  else exists update st', @mark_spent E n st = (Ok update, st') /\ represents st' ({[n]} ∪ spent) /\
    update_nullifier update = n /\ elements (update_previous_root update) = sparse_root spent /\
    elements (update_root update) = sparse_root ({[n]} ∪ spent).
Proof. case_decide; [by apply mark_spent_again with spent|by apply mark_spent_fresh]. Qed.

(** ** Proofs of inclusion and absence *)

(** Sixteen machine words. *)
Definition digest_typed (d : BabyBearDigestV2) : Prop :=
  length d = P24_TREE_DIGEST_ELEMENTS /\ Forall (fun e => 0 <= e) d.

Lemma digest_wf_typed d : digest_wf d -> digest_typed d.
Proof. intros [Hl Hw]. split; [done|]. by apply elements_nonneg. Qed.

Lemma sparse_path_loop_canonical n level siblings current d :
  Forall digest_typed siblings -> @sparse_path_loop E r n level siblings current = Ok d ->
  Forall digest_wf siblings.
Proof.
  intros Ht. revert level current. induction Ht as [|sib siblings [Hl Hn] _ IH]; intros level current Hok; [done|].
  cbn [sparse_path_loop] in Hok. inv_ok. destruct_units.
  constructor; [|by eapply IH]. split; [done|].
  match goal with Hv : validate_digest _ = _ |- _ => by apply validate_with_Ok in Hv end.
Qed.

Lemma sparse_path_loop_exact n level siblings current :
  (level + length siblings <= NULLIFIER_SPARSE_TREE_DEPTH_V1)%nat -> Forall digest_wf siblings -> digest_wf current ->
  @sparse_path_loop E r n level siblings current =
    Ok (path_root sparse_value (Z.shiftr (key n) (Z.of_nat level)) siblings current) /\
  digest_wf (path_root sparse_value (Z.shiftr (key n) (Z.of_nat level)) siblings current).
Proof.
  revert level current. induction siblings as [|sib siblings IH]; intros level current Hd Hs Hc; [done|].
  cbn [length] in Hd. apply Forall_cons in Hs as [Hsib Hs]. cbn [sparse_path_loop path_root].
  unfold validate_digest. rewrite validate_with_wf by apply Hsib. cbn [mbind result_bind].
  pose proof depth_512.
  rewrite (path_bit_testbit _ _ (key n)) by (lia || by rewrite key_bytes).
  replace (Z.testbit (key n) (Z.of_nat level)) with (Z.odd (Z.shiftr (key n) (Z.of_nat level)))
    by (rewrite <-Z.bit0_odd, Z.shiftr_spec by lia; f_equal).
  rewrite shiftr_up. unfold node_pair, path_pair.
  destruct (Z.odd (Z.shiftr (key n) (Z.of_nat level))); cbn [fst snd].
  - destruct (sparse_node_total sib current Hsib Hc) as [-> Hw]. cbn [mbind result_bind]. by apply IH; [lia|..].
  - destruct (sparse_node_total current sib Hc Hsib) as [-> Hw]. cbn [mbind result_bind]. by apply IH; [lia|..].
Qed.

(** What a path computes, and that an accepted one is canonical. *)
Lemma sparse_root_from_path_exact n leaf siblings :
  digest_wf leaf -> Forall digest_wf siblings -> length siblings = NULLIFIER_SPARSE_TREE_DEPTH_V1 ->
  exists v, @sparse_root_from_path E r n leaf siblings = Ok v /\
    elements v = path_root sparse_value (key n) siblings leaf.
Proof.
  intros Hleaf Hs Hl. unfold sparse_root_from_path. rewrite (proj2 (Nat.eqb_eq _ _) Hl). cbn [negb].
  unfold validate_digest. rewrite validate_with_wf by apply Hleaf. cbn [map_err mbind result_bind].
  destruct (sparse_path_loop_exact n 0 siblings leaf ltac:(lia) Hs Hleaf) as [-> Hw].
  rewrite Z.shiftr_0_r in *. cbn [map_err mbind result_bind]. by apply root_from_elements_total.
Qed.

Lemma sparse_root_from_path_Ok n leaf siblings v :
  digest_wf leaf -> Forall digest_typed siblings -> @sparse_root_from_path E r n leaf siblings = Ok v ->
  Forall digest_wf siblings /\ length siblings = NULLIFIER_SPARSE_TREE_DEPTH_V1 /\
  elements v = path_root sparse_value (key n) siblings leaf.
Proof.
  intros Hleaf Ht Hok. assert (Hs : Forall digest_wf siblings /\ length siblings = NULLIFIER_SPARSE_TREE_DEPTH_V1).
  { unfold sparse_root_from_path in Hok. inv_ok. destruct_units. apply negb_false_iff, Nat.eqb_eq in Hb.
    split; [by eapply sparse_path_loop_canonical|done]. }
  destruct Hs as [Hs Hl]. split_and!; [done..|].
  destruct (sparse_root_from_path_exact n leaf siblings Hleaf Hs Hl) as (v' & Hv' & Hev). congruence.
Qed.

Lemma spent_leaf_of spent n : n ∈ spent -> sparse_leaf spent (key n) = spent_value (arr n).
Proof.
  intros Hn. unfold sparse_leaf. rewrite bool_decide_true by (apply elem_of_keys; by exists n). by rewrite key_bytes.
Qed.

Lemma unspent_leaf_of spent n : n ∉ spent -> sparse_leaf spent (key n) = unspent_value.
Proof.
  intros Hn. unfold sparse_leaf. rewrite bool_decide_false; [done|].
  intros (n' & Hn' & Hk%key_inj)%elem_of_keys. by subst.
Qed.

Lemma tree_path_root spent n :
  path_root sparse_value (key n)
    (tree_siblings sparse_value (sparse_leaf spent) 0 (key n) NULLIFIER_SPARSE_TREE_DEPTH_V1)
    (sparse_leaf spent (key n)) = sparse_root spent.
Proof.
  pose proof (path_complete sparse_value (sparse_leaf spent) 0 (key n) NULLIFIER_SPARSE_TREE_DEPTH_V1) as Hp.
  rewrite full_root_leaf in Hp. etransitivity; [exact Hp|]. clear Hp.
  pose proof (shiftr_level n NULLIFIER_SPARSE_TREE_DEPTH_V1 ltac:(lia)) as [_ H0].
  rewrite Z.sub_diag in H0. replace (Z.shiftr (key n) (Z.of_nat NULLIFIER_SPARSE_TREE_DEPTH_V1)) with 0 by lia.
  change (0 + NULLIFIER_SPARSE_TREE_DEPTH_V1)%nat with NULLIFIER_SPARSE_TREE_DEPTH_V1.
  unfold sparse_root. reflexivity.
Qed.

Lemma sparse_siblings_wf spent height index levels :
  Forall digest_wf (tree_siblings sparse_value (sparse_leaf spent) height index levels).
Proof.
  revert height index. induction levels as [|n IH]; intros h i; cbn [tree_siblings]; constructor;
    [apply sparse_root_wf|apply IH].
Qed.

(** The check of either kind of proof. *)
Lemma path_check_exact n leaf siblings root :
  digest_wf leaf -> Forall digest_wf siblings -> length siblings = NULLIFIER_SPARSE_TREE_DEPTH_V1 ->
  elements root = path_root sparse_value (key n) siblings leaf ->
  @sparse_root_from_path E r n leaf siblings = Ok root.
Proof.
  intros Hleaf Hs Hl Hroot. destruct (sparse_root_from_path_exact n leaf siblings Hleaf Hs Hl) as (v & -> & Hv).
  f_equal. apply elements_inj. congruence.
Qed.

Lemma empty_value_0 : nth 0 (sparse_empty_values r) [] = unspent_value.
Proof. by rewrite sparse_empty_nth by lia. Qed.

(** The path of the tree is accepted. *)
Lemma tree_path_accepted spent n root :
  elements root = sparse_root spent ->
  @sparse_root_from_path E r n (sparse_leaf spent (key n))
    (tree_siblings sparse_value (sparse_leaf spent) 0 (key n) NULLIFIER_SPARSE_TREE_DEPTH_V1) = Ok root.
Proof.
  intros Hel. rewrite <-(tree_path_root spent n) in Hel.
  apply path_check_exact; [apply sparse_leaf_wf|apply sparse_siblings_wf|apply length_tree_siblings|exact Hel].
Qed.

Lemma tree_inclusion spent n root :
  n ∈ spent -> elements root = sparse_root spent ->
  @verify_inclusion E r root n
    (tree_siblings sparse_value (sparse_leaf spent) 0 (key n) NULLIFIER_SPARSE_TREE_DEPTH_V1) = Ok tt.
Proof.
  intros Hn Hel. unfold verify_inclusion. rewrite (proj1 (spent_leaf_total n)), <-(spent_leaf_of spent n Hn).
  cbn [map_err mbind result_bind]. rewrite (tree_path_accepted spent n root Hel). cbn [mbind result_bind].
  by rewrite bool_decide_true.
Qed.

Lemma tree_absence spent n root :
  n ∉ spent -> elements root = sparse_root spent ->
  @verify_absence E r root n
    (tree_siblings sparse_value (sparse_leaf spent) 0 (key n) NULLIFIER_SPARSE_TREE_DEPTH_V1) = Ok tt.
Proof.
  intros Hn Hel. unfold verify_absence. rewrite empty_value_0, <-(unspent_leaf_of spent n Hn).
  rewrite (tree_path_accepted spent n root Hel). cbn [mbind result_bind]. by rewrite bool_decide_true.
Qed.

Lemma tree_pairs_agree spent n :
  n ∈ spent ->
  no_collision sparse_value
    (path_pairs sparse_value (key n)
       (tree_siblings sparse_value (sparse_leaf spent) 0 (key n) NULLIFIER_SPARSE_TREE_DEPTH_V1)
       (spent_value (arr n)))
    (path_pairs sparse_value (key n)
       (tree_siblings sparse_value (sparse_leaf spent) 0 (key n) NULLIFIER_SPARSE_TREE_DEPTH_V1)
       (sparse_leaf spent (key n))).
Proof. intros Hn. rewrite (spent_leaf_of spent n Hn). apply no_collision_refl. Qed.

(** the path a state generates for a nullifier proves inclusion against the
    state's root if the nullifier is spent, and absence if it is not. *)
Theorem nullifier_proofs_complete st spent root n
    (Hst : represents st spent) (Hroot : @tree_root E st = Ok root) :
  if decide (n ∈ spent)
  then @state_verify_inclusion E st root n (prove st n) = Ok tt
  else @state_verify_absence E st root n (prove st n) = Ok tt.
Proof.
  destruct (tree_root_exact st spent Hst) as (root' & Hroot' & Hel). rewrite Hroot in Hroot'.
  injection Hroot' as <-. unfold state_verify_inclusion, state_verify_absence.
  rewrite (prove_exact st spent Hst), (rep_reference _ _ Hst).
  case_decide as Hn; [by rewrite tree_inclusion|by rewrite tree_absence].
Qed.

Lemma path_check_sound spent root n leaf siblings :
  digest_wf leaf -> Forall digest_typed siblings -> elements root = sparse_root spent ->
  no_collision sparse_value (path_pairs sparse_value (key n) siblings leaf)
    (path_pairs sparse_value (key n)
       (tree_siblings sparse_value (sparse_leaf spent) 0 (key n) NULLIFIER_SPARSE_TREE_DEPTH_V1)
       (sparse_leaf spent (key n))) ->
  @sparse_root_from_path E r n leaf siblings = Ok root -> leaf = sparse_leaf spent (key n).
Proof.
  intros Hleaf Ht Hroot Hcol Hok.
  destruct (sparse_root_from_path_Ok n leaf siblings root Hleaf Ht Hok) as (_ & Hl & Hel).
  destruct (path_sound sparse_value (sparse_leaf spent) 0 (key n) siblings leaf) as [Heq _]; [| |exact Heq].
  - rewrite Hl, <-Hel, Hroot, <-(tree_path_root spent n).
    pose proof (path_complete sparse_value (sparse_leaf spent) 0 (key n) NULLIFIER_SPARSE_TREE_DEPTH_V1) as Hp.
    rewrite full_root_leaf in Hp. exact Hp.
  - rewrite Hl, full_root_leaf. exact Hcol.
Qed.

(** C24: no other path can lie.  Against the root of a set of spent nullifiers, an
    accepted proof of inclusion is about a spent nullifier and an accepted proof of
    absence about an unspent one, unless it shows two different pairs, one of the
    path and the one of the tree at the same level, with the same digest.  The two
    kinds of leaf have different digests by hypothesis. *)
Theorem nullifier_proofs_sound spent root n siblings
    (Htyped : Forall digest_typed siblings) (Hroot : elements root = sparse_root spent)
    (Hdomain : spent_value (arr n) <> unspent_value) :
  let tree_pairs := path_pairs sparse_value (key n)
    (tree_siblings sparse_value (sparse_leaf spent) 0 (key n) NULLIFIER_SPARSE_TREE_DEPTH_V1)
    (sparse_leaf spent (key n)) in
  (no_collision sparse_value (path_pairs sparse_value (key n) siblings (spent_value (arr n))) tree_pairs ->
   @verify_inclusion E r root n siblings = Ok tt -> n ∈ spent) /\
  (no_collision sparse_value (path_pairs sparse_value (key n) siblings unspent_value) tree_pairs ->
   @verify_absence E r root n siblings = Ok tt -> n ∉ spent).
Proof.
  cbv zeta. destruct (spent_leaf_total n) as [Hs Hsw]. destruct unspent_total as [_ Huw]. split.
  - intros Hcol. unfold verify_inclusion. rewrite Hs. intros Hok. inv_ok. zbool. subst.
    destruct (decide (n ∈ spent)) as [|Hn]; [done|]. exfalso. apply Hdomain.
    rewrite <-(unspent_leaf_of spent n Hn). by eapply path_check_sound.
  - intros Hcol. unfold verify_absence. rewrite empty_value_0. intros Hok Hn. inv_ok. zbool. subst.
    apply Hdomain. rewrite <-(spent_leaf_of spent n Hn). symmetry. by eapply path_check_sound.
Qed.

End Tree.

(** ** Loading *)

Class SparseManifestLaws {E} (m : SparseManifest E) : Prop := {
  sparse_iv_length domain iv : sparse_iv m domain = Ok iv -> length iv = 9%nat;
  sparse_iv_canonical domain iv : sparse_iv m domain = Ok iv -> Forall element_wf iv
}.

(** The empty values do not take part in hashing. *)
Lemma derive_empty_values_ext {E} p l n e values values' :
  @derive_empty_values E (mk_NullifierSparseTreeReferenceV1 p l n e values) =
  derive_empty_values (mk_NullifierSparseTreeReferenceV1 p l n e values').
Proof.
  set (a := mk_NullifierSparseTreeReferenceV1 p l n e values).
  set (b := mk_NullifierSparseTreeReferenceV1 p l n e values').
  assert (Hnode : forall x y, @sparse_node E a x y = sparse_node b x y) by done.
  assert (Hloop : forall levels current, @sparse_empty_loop E a levels current = sparse_empty_loop b levels current).
  { induction levels as [|levels IH]; intros current; cbn [sparse_empty_loop]; [done|]. rewrite Hnode.
    destruct (sparse_node b current current); cbn [mbind result_bind]; [by rewrite IH|done]. }
  unfold derive_empty_values.
  assert (Hbase : @hash_bytes E a NullifierSparseDomain.Empty [] = hash_bytes b NullifierSparseDomain.Empty [])
    by reflexivity.
  rewrite Hbase. destruct (hash_bytes b NullifierSparseDomain.Empty []); cbn [mbind result_bind]; [|done].
  by rewrite Hloop.
Qed.

Lemma loaded_reference_wf (tree : P24Manifest) `{!P24ManifestLaws tree} self :
  load_reference tree = Ok self -> reference_wf self.
Proof.
  intros Hload. destruct (parameter_payload tree) as [payload|e] eqn:Hp.
  - destruct (loaded_parameters tree payload self Hp Hload) as [Hv ->]. by apply reference_of_wf.
  - unfold load_reference in Hload. rewrite Hp in Hload. done.
Qed.

Lemma load_sparse_wf {E} (tree : P24Manifest) (m : SparseManifest E)
    `{!P24ManifestLaws tree} `{!SparseManifestLaws m} r :
  load_sparse_reference tree m = Ok r ->
  sparse_wf r /\ @derive_empty_values E r = Ok (sparse_empty_values r).
Proof.
  unfold load_sparse_reference. intros Hload. inv_ok.
  split; [split|]; cbn [permutation leaf_iv node_iv empty_iv sparse_empty_values].
  - by eapply loaded_reference_wf.
  - split; [by eapply sparse_iv_length|by eapply sparse_iv_canonical].
  - split; [by eapply sparse_iv_length|by eapply sparse_iv_canonical].
  - split; [by eapply sparse_iv_length|by eapply sparse_iv_canonical].
  - rewrite <-(derive_empty_values_ext _ _ _ _ []). done.
Qed.

(** Loading succeeds when the manifests do. *)
Lemma load_sparse_total {E} (tree : P24Manifest) (m : SparseManifest E)
    `{!P24ManifestLaws tree} `{!SparseManifestLaws m} self manifest iv :
  load_reference tree = Ok self -> sparse_encode m = Ok manifest ->
  (forall domain, sparse_iv m domain = Ok (iv domain)) ->
  exists r, load_sparse_reference tree m = Ok r.
Proof.
  intros Hload Henc Hiv. unfold load_sparse_reference. rewrite Henc, Hload, !Hiv. cbn [map_err mbind result_bind].
  set (r := mk_NullifierSparseTreeReferenceV1 _ _ _ _ _).
  assert (Hwf : forall domain, length (iv domain) = 9%nat /\ Forall element_wf (iv domain)).
  { intros domain. split; [by eapply sparse_iv_length|by eapply sparse_iv_canonical]. }
  assert (Hr : sparse_wf r) by (split; [by eapply loaded_reference_wf|apply Hwf..]).
  rewrite (derive_empty_exact r Hr). cbn [mbind result_bind]. by eexists.
Qed.

Lemma empty_nodes {E} r height index :
  in_level height index ->
  match (∅ : gmap NodePositionV1 BabyBearDigestV2) !! node_at height index with
  | Some d => d = full_root (@sparse_value E r) (@sparse_leaf E r ∅) height index /\ occupied ∅ height index
  | None => ~ occupied ∅ height index
  end.
Proof. intros _. rewrite lookup_empty. intros (n & Hn & _). by apply not_elem_of_empty in Hn. Qed.

(** A new tree represents the empty set. *)
Lemma new_candidate_represents {E} (tree : P24Manifest) (m : SparseManifest E)
    `{!P24ManifestLaws tree} `{!SparseManifestLaws m} st :
  @new_candidate E tree m = Ok st ->
  load_sparse_reference tree m = Ok (nt_reference st) /\ @represents E (nt_reference st) st ∅.
Proof.
  unfold new_candidate, from_reference. intros Hnew. inv_ok. cbn [nt_reference].
  split; [done|]. split; cbn [nt_reference nt_non_empty_nodes nt_spent_count]; [done| | |done|done].
  - apply empty_nodes.
  - intros p d. by rewrite lookup_empty.
Qed.

(** ** A small evaluator

    One column per matrix and no rounds: cheap to evaluate, and all the theorems
    above ask of an evaluator. *)

Definition small_reference : Poseidon2P24Reference :=
  let rows := (fun i => [Z.of_nat i + 1]) <$> seq 0 P24_WIDTH in mk_Poseidon2P24Reference rows rows [].

Definition small_tree (values : list BabyBearDigestV2) : NullifierSparseTreeReferenceV1 :=
  mk_NullifierSparseTreeReferenceV1 small_reference (replicate 9 1) (replicate 9 2) (replicate 9 3) values.

Lemma small_tree_wf values : sparse_wf (small_tree values).
Proof.
  split; [by split; [done..|constructor]|..]; (split; [done|by apply Forall_replicate]).
Qed.

Definition small_sparse : NullifierSparseTreeReferenceV1 :=
  small_tree (empty_node (@sparse_value unit (small_tree [])) (@unspent_value unit (small_tree [])) <$>
    seq 0 (S NULLIFIER_SPARSE_TREE_DEPTH_V1)).

Lemma small_sparse_values : @derive_empty_values unit small_sparse = Ok (sparse_empty_values small_sparse).
Proof.
  unfold small_sparse, small_tree. rewrite (derive_empty_values_ext _ _ _ _ _ []).
  exact (derive_empty_exact (small_tree []) (small_tree_wf [])).
Qed.

Definition small_nullifier : NullifierV2 := @mk_array 64 (replicate 64 x01) eq_refl.

Definition small_state : NullifierSparseTreeStateV1 := mk_NullifierSparseTreeStateV1 small_sparse ∅ 0.

Lemma small_state_represents : @represents unit small_sparse small_state ∅.
Proof.
  split; cbn [small_state nt_reference nt_non_empty_nodes nt_spent_count]; [done| | |done|done].
  - apply empty_nodes.
  - intros p d. by rewrite lookup_empty.
Qed.

Lemma small_leaves_differ :
  @spent_value unit small_sparse (arr small_nullifier) <> @unspent_value unit small_sparse.
Proof.
  intros Heq%(f_equal (fun d => nth 0 d 0)). unfold small_sparse in Heq.
  assert (Hd : (nth 0 (@spent_value unit (small_tree []) (arr small_nullifier)) 0 =?
    nth 0 (@unspent_value unit (small_tree [])) 0) = false) by (vm_compute; reflexivity).
  apply Z.eqb_neq in Hd. apply Hd. exact Heq.
Qed.

Lemma mark_spent_refines_witness :
  exists update st', @mark_spent unit small_nullifier small_state = (Ok update, st') /\
    @represents unit small_sparse st' {[small_nullifier]}.
Proof.
  pose proof (mark_spent_refines small_sparse (small_tree_wf _) small_sparse_values small_state ∅ small_nullifier
    small_state_represents ltac:(by rewrite size_empty)) as Hm.
  rewrite decide_False in Hm by apply not_elem_of_empty. destruct Hm as (update & st' & Hm & Hrep & _).
  exists update, st'. split; [exact Hm|]. rewrite union_empty_r_L in Hrep. exact Hrep.
Defined.

Lemma nullifier_proofs_complete_witness :
  exists root, @tree_root unit small_state = Ok root /\
    @state_verify_absence unit small_state root small_nullifier (prove small_state small_nullifier) = Ok tt.
Proof.
  destruct (tree_root_exact small_sparse (small_tree_wf _) small_sparse_values small_state ∅
    small_state_represents) as (root & Hroot & _).
  exists root. split; [exact Hroot|].
  pose proof (nullifier_proofs_complete small_sparse (small_tree_wf _) small_sparse_values small_state ∅ root
    small_nullifier small_state_represents Hroot) as Hp.
  rewrite decide_False in Hp by apply not_elem_of_empty. exact Hp.
Defined.

(** The path of the tree itself is accepted and shows no collision. *)
Lemma nullifier_proofs_sound_witness :
  exists root siblings, @verify_inclusion unit small_sparse root small_nullifier siblings = Ok tt /\
    small_nullifier ∈ ({[small_nullifier]} : gset NullifierV2).
Proof.
  pose proof (elem_of_singleton_2 (C := gset NullifierV2) small_nullifier small_nullifier eq_refl) as Hn.
  pose proof (sparse_root_wf (E := unit) small_sparse (small_tree_wf _) {[small_nullifier]}
    NULLIFIER_SPARSE_TREE_DEPTH_V1 0) as Hw.
  destruct (root_from_elements_total (E := unit) _ Hw) as (root & _ & Hel).
  pose proof (tree_inclusion small_sparse (small_tree_wf _) _ _ root Hn Hel) as Hok.
  eexists root, _. split; [exact Hok|].
  refine (proj1 (nullifier_proofs_sound small_sparse (small_tree_wf _) small_sparse_values {[small_nullifier]} root
    small_nullifier _ _ Hel small_leaves_differ) (tree_pairs_agree small_sparse _ _ Hn) Hok).
  eapply Forall_impl; [exact (sparse_siblings_wf small_sparse (small_tree_wf _) _ _ _ _)|].
  intros d. apply digest_wf_typed.
Defined.
