(* ===== verification/ChildManifests.v ===== *)
(** * The manifests below the tree candidate ([noxis-tree-params])

    Three artifacts embed their parent: [NXPH] the domains of the private note
    functions, and below it [NXIC] the intent commitment and [NXSM] the sparse
    nullifier tree.  They share one shape, a header, the parent's bytes, a descriptor
    per domain and a checksum, and differ in a layout.  The envelope digest has no
    wire form: an identity and an initialisation vector below [NXPH].  [None] as an
    error is the panic of an exhausted sampler. *)

From Stdlib Require Import Strings.Byte Strings.String.
From S2P Require Import Prelude Arrays Sha256 BabyBear Privacy Poseidon2 TreeManifest NullifierTree.

(** ** The shape *)

Module ChildCandidateError.
Inductive ChildCandidateError (P B : Type) : Type :=
| Parent (error : P)
| InvalidEmbeddedBase64
| InvalidPayloadLength (actual expected : Z)
| PayloadChecksumMismatch
| ManifestChecksumMismatch
| NonCanonicalFieldElement (index value : Z)
| InvalidDerivedIv (domain : B)
| InvalidManifestLength (actual expected : Z)
| InvalidManifestMagic
| UnsupportedManifestVersion
| NonCanonicalManifest.
Arguments Parent {P B} error.
Arguments InvalidEmbeddedBase64 {P B}.
Arguments InvalidPayloadLength {P B} actual expected.
Arguments PayloadChecksumMismatch {P B}.
Arguments ManifestChecksumMismatch {P B}.
Arguments NonCanonicalFieldElement {P B} index value.
Arguments InvalidDerivedIv {P B} domain.
Arguments InvalidManifestLength {P B} actual expected.
Arguments InvalidManifestMagic {P B}.
Arguments UnsupportedManifestVersion {P B}.
Arguments NonCanonicalManifest {P B}.
End ChildCandidateError.
Abbreviation ChildCandidateError := ChildCandidateError.ChildCandidateError.

(** The constants of one artifact over the domains [D]; [B] is what its error says
    about a vector that differs. *)
Record ChildLayout (D B : Type) : Type := mk_ChildLayout {
  cl_magic : list byte;
  cl_parent_length : Z;
  cl_profile : list Z;
  cl_payload_length : nat;
  cl_manifest_length : nat;
  cl_id_domain : list byte;
  cl_checksum_domain : list byte;
  cl_kdf_prefix : list byte;
  cl_expected_sha256 : list byte;
  cl_domains : list D;
  cl_label : D -> list byte;
  cl_input_bytes : D -> Z;
  cl_input_elements : D -> Z;
  cl_payload_index : D -> nat;
  cl_blame : D -> B
}.
Arguments cl_magic {D B} _.
Arguments cl_parent_length {D B} _.
Arguments cl_profile {D B} _.
Arguments cl_payload_length {D B} _.
Arguments cl_manifest_length {D B} _.
Arguments cl_id_domain {D B} _.
Arguments cl_checksum_domain {D B} _.
Arguments cl_kdf_prefix {D B} _.
Arguments cl_expected_sha256 {D B} _.
Arguments cl_domains {D B} _.
Arguments cl_label {D B} _ _.
Arguments cl_input_bytes {D B} _ _.
Arguments cl_input_elements {D B} _ _.
Arguments cl_payload_index {D B} _ _.
Arguments cl_blame {D B} _ _.

(** What a child reads of its parent. *)
Record ParentManifest (P : Type) : Type := mk_ParentManifest {
  parent_encode : Result (option P) (list byte);
  parent_candidate_id : Result (option P) (array 32)
}.
Arguments mk_ParentManifest {P} parent_encode parent_candidate_id.
Arguments parent_encode {P} _.
Arguments parent_candidate_id {P} _.

Definition MANIFEST_VERSION : Z := 1.
Definition CANDIDATE_KIND : Z := 1.
Definition FLAGS : Z := 0.
Definition CHECKSUM_LENGTH : nat := 32.

(** The nine words from the start of a slice. *)
Definition decode_iv (bytes : list byte) : list Z :=
  (fun index => from_le_bytes (take 4 (drop (index * 4) bytes))) <$> seq 0 IV_ELEMENTS.

Section Child.
Context `{Sha2} {P D B : Type} (layout : ChildLayout D B) (parent : ParentManifest P).
(** The embedded payload, absent if its text is not base64. *)
Context (embedded : option (list byte)).

Abbreviation Error := (option (ChildCandidateError P B)).

Definition from_parent {A} (r : Result (option P) A) : Result Error A :=
  map_err (option_map ChildCandidateError.Parent) r.

Definition child_derive_iv (domain : D) : Result Error (list Z) :=
  parent_id ← from_parent (parent_candidate_id parent);
  ok_or (derive_iv (fun counter =>
           cl_kdf_prefix layout ++ arr parent_id ++ cl_label layout domain ++ to_be_bytes 4 counter)) None.

(** The slice of a domain in the payload. *)
Definition iv_slice (payload : list byte) (domain : D) : list byte :=
  take (IV_ELEMENTS * 4) (drop (cl_payload_index layout domain * IV_ELEMENTS * 4) payload).

Definition check_iv (payload : list byte) (domain : D) : Result Error (list Z) :=
  let stored := decode_iv (iv_slice payload domain) in
  derived ← child_derive_iv domain;
  if negb (bool_decide (stored = derived))
  then Err (Some (ChildCandidateError.InvalidDerivedIv (cl_blame layout domain)))
  else Ok stored.

Definition child_validate_payload (payload : list byte) : Result Error unit :=
  if negb (length payload =? cl_payload_length layout)%nat
  then Err (Some (ChildCandidateError.InvalidPayloadLength (len payload) (Z.of_nat (cl_payload_length layout))))
  else if negb (bool_decide (arr (sha256 payload) = cl_expected_sha256 layout))
  then Err (Some ChildCandidateError.PayloadChecksumMismatch)
  else
    _ ← validate_with (fun index value => Some (ChildCandidateError.NonCanonicalFieldElement index value))
          (elements_of payload);
    _ ← try_map (check_iv payload) (cl_domains layout);
    Ok tt.

Definition child_payload : Result Error (list byte) :=
  payload ← ok_or embedded (Some ChildCandidateError.InvalidEmbeddedBase64);
  _ ← child_validate_payload payload;
  Ok payload.

Definition child_iv (domain : D) : Result Error (list Z) :=
  payload ← child_payload; check_iv payload domain.

Definition append_descriptor (payload : list byte) (domain : D) : list byte :=
  let label := cl_label layout domain in
  [byte_of_Z (Z.of_nat (cl_payload_index layout domain) + 1); byte_of_Z (len label)] ++
  to_be_bytes 2 (cl_input_bytes layout domain) ++ [byte_of_Z (cl_input_elements layout domain)] ++
  label ++ iv_slice payload domain.

Definition manifest_checksum (bytes : list byte) : array 32 := sha256 (cl_checksum_domain layout ++ bytes).

Definition child_encode : Result Error (list byte) :=
  parent_bytes ← from_parent (parent_encode parent);
  parent_id ← from_parent (parent_candidate_id parent);
  payload ← child_payload;
  let manifest :=
    cl_magic layout ++ to_be_bytes 2 MANIFEST_VERSION ++ (byte_of_Z <$> [CANDIDATE_KIND; FLAGS]) ++
    to_be_bytes 2 (cl_parent_length layout) ++ arr parent_id ++ (byte_of_Z <$> cl_profile layout) ++
    parent_bytes ++ concat (append_descriptor payload <$> cl_domains layout) in
  Ok (manifest ++ arr (manifest_checksum manifest)).

Definition child_decode (bytes : list byte) : Result Error unit :=
  if negb (length bytes =? cl_manifest_length layout)%nat
  then Err (Some (ChildCandidateError.InvalidManifestLength (len bytes) (Z.of_nat (cl_manifest_length layout))))
  else if negb (bool_decide (take 4 bytes = cl_magic layout))
  then Err (Some ChildCandidateError.InvalidManifestMagic)
  else if negb (bool_decide (take 2 (drop 4 bytes) = to_be_bytes 2 MANIFEST_VERSION))
  then Err (Some ChildCandidateError.UnsupportedManifestVersion)
  else if negb (bool_decide (nth 6 bytes x00 = byte_of_Z CANDIDATE_KIND)) ||
          negb (bool_decide (nth 7 bytes x00 = byte_of_Z FLAGS))
  then Err (Some ChildCandidateError.NonCanonicalManifest)
  else
    let checksum_offset := (length bytes - CHECKSUM_LENGTH)%nat in
    if negb (bool_decide (drop checksum_offset bytes = arr (manifest_checksum (take checksum_offset bytes))))
    then Err (Some ChildCandidateError.ManifestChecksumMismatch)
    else
      canonical ← child_encode;
      if negb (bool_decide (bytes = canonical))
      then Err (Some ChildCandidateError.NonCanonicalManifest)
      else Ok tt.

Definition child_candidate_id : Result Error (array 32) :=
  manifest ← child_encode; Ok (sha256 (cl_id_domain layout ++ manifest)).

(** A child as the parent of another. *)
Definition as_parent : ParentManifest (ChildCandidateError P B) := mk_ParentManifest child_encode child_candidate_id.

End Child.

Definition label (s : string) : list byte := bytes_of_string s ++ [x00].

(** [div_ceil(P24_BYTE_PACK_WIDTH)]. *)
Definition byte_pack_elements (bytes : Z) : Z := (bytes + 2) / 3.

(** ** [NXPH]: the note domains ([p24_note_domains.rs]) *)

Module NoteDomain.
Inductive Poseidon2P24NoteDomainV1 : Type := Addr | Note | Nullifier.
End NoteDomain.
Abbreviation Poseidon2P24NoteDomainV1 := NoteDomain.Poseidon2P24NoteDomainV1.

#[global] Instance note_domain_eq_dec : EqDecision Poseidon2P24NoteDomainV1.
Proof. solve_decision. Defined.

Definition P24_NOTE_DOMAINS_MANIFEST_LENGTH : nat := 7980.

Definition note_input_bytes (self : Poseidon2P24NoteDomainV1) : Z :=
  match self with NoteDomain.Addr => 32 | NoteDomain.Note => 178 | NoteDomain.Nullifier => 132 end.

Definition note_input_elements (self : Poseidon2P24NoteDomainV1) : Z := byte_pack_elements (note_input_bytes self).

Definition note_label (self : Poseidon2P24NoteDomainV1) : list byte :=
  match self with
  | NoteDomain.Addr => label "NOXIS/POSEIDON2-PRIVACY/V1/ADDR"
  | NoteDomain.Note => label "NOXIS/POSEIDON2-PRIVACY/V1/NOTE"
  | NoteDomain.Nullifier => label "NOXIS/POSEIDON2-PRIVACY/V1/NULLIFIER"
  end.

Definition note_payload_index (self : Poseidon2P24NoteDomainV1) : nat :=
  match self with NoteDomain.Addr => 0 | NoteDomain.Note => 1 | NoteDomain.Nullifier => 2 end.

Definition nxph_layout : ChildLayout Poseidon2P24NoteDomainV1 Poseidon2P24NoteDomainV1 := {|
  cl_magic := bytes_of_string "NXPH";
  cl_parent_length := Z.of_nat P24_CANDIDATE_MANIFEST_LENGTH;
  cl_profile := [1; 1; 16; 24; 15; 9; 1; 1; 3; 1; 1; 1; 1; 3; 9; 1; 0; 0; 0; 0; 0; 0];
  cl_payload_length := 108;
  cl_manifest_length := P24_NOTE_DOMAINS_MANIFEST_LENGTH;
  cl_id_domain := label "NOXIS/POSEIDON2-PRIVACY-HASH-CANDIDATE-ID/V1";
  cl_checksum_domain := label "NOXIS/POSEIDON2-PRIVACY-HASH-MANIFEST-CHECKSUM/V1";
  cl_kdf_prefix := label "NOXIS/POSEIDON2-PRIVACY-HASH-IV/V1";
  cl_expected_sha256 :=
    [xd1; xec; x18; xbc; x78; xac; x13; xaa; xd2; xed; xd6; xa0; xe9; x99; x18; xa1;
     xff; xb8; x96; x4b; x0e; xad; x25; x77; x30; xfa; xbd; xa2; xfa; x8d; xf0; x9c];
  cl_domains := [NoteDomain.Addr; NoteDomain.Note; NoteDomain.Nullifier];
  cl_label := note_label;
  cl_input_bytes := note_input_bytes;
  cl_input_elements := note_input_elements;
  cl_payload_index := note_payload_index;
  cl_blame := id
|}.

(** ** [NXIC]: the intent commitment ([p24_intent_commitment.rs]) *)

Module IntentDomain.
Inductive Poseidon2P24IntentCommitmentDomainV1 : Type := Intent.
End IntentDomain.
Abbreviation Poseidon2P24IntentCommitmentDomainV1 := IntentDomain.Poseidon2P24IntentCommitmentDomainV1.

Definition P24_INTENT_COMMITMENT_INPUT_BYTES : Z := 640.
Definition P24_INTENT_COMMITMENT_INPUT_ELEMENTS : Z := 214.

Definition nxic_layout : ChildLayout Poseidon2P24IntentCommitmentDomainV1 unit := {|
  cl_magic := bytes_of_string "NXIC";
  cl_parent_length := Z.of_nat P24_NOTE_DOMAINS_MANIFEST_LENGTH;
  cl_profile := [1; 1; 16; 24; 15; 9; 1; 1; 3; 1; 1; 1; 1; 1; 9; 1; 0; 0; 0; 0; 0; 0];
  cl_payload_length := 36;
  cl_manifest_length := 8162;
  cl_id_domain := label "NOXIS/POSEIDON2-INTENT-COMMITMENT-CANDIDATE-ID/V1";
  cl_checksum_domain := label "NOXIS/POSEIDON2-INTENT-COMMITMENT-MANIFEST-CHECKSUM/V1";
  cl_kdf_prefix := label "NOXIS/POSEIDON2-INTENT-COMMITMENT-IV/V1";
  cl_expected_sha256 :=
    [xcf; x82; x83; xc1; x8d; xd1; xac; x74; xae; x1e; xb9; xb1; xd0; x5e; x4b; xb8;
     x9e; xa4; x19; x96; x0d; xd6; xff; xf4; x27; x0a; xa5; x9f; x52; x74; xc4; x69];
  cl_domains := [IntentDomain.Intent];
  cl_label := fun _ => label "NOXIS/POSEIDON2-PRIVACY/V1/INTENT-COMMITMENT";
  cl_input_bytes := fun _ => P24_INTENT_COMMITMENT_INPUT_BYTES;
  cl_input_elements := fun _ => P24_INTENT_COMMITMENT_INPUT_ELEMENTS;
  cl_payload_index := fun _ => 0%nat;
  cl_blame := fun _ => tt
|}.

(** ** [NXSM]: the sparse nullifier tree ([p24_nullifier_sparse.rs]) *)

Definition sparse_label (self : Poseidon2P24NullifierSparseDomainV1) : list byte :=
  match self with
  | NullifierSparseDomain.Leaf => label "NOXIS/POSEIDON2-PRIVACY/V1/NULLIFIER-SPARSE-LEAF"
  | NullifierSparseDomain.Node => label "NOXIS/POSEIDON2-PRIVACY/V1/NULLIFIER-SPARSE-NODE"
  | NullifierSparseDomain.Empty => label "NOXIS/POSEIDON2-PRIVACY/V1/NULLIFIER-SPARSE-EMPTY"
  end.

Definition sparse_payload_index (self : Poseidon2P24NullifierSparseDomainV1) : nat :=
  match self with
  | NullifierSparseDomain.Leaf => 0
  | NullifierSparseDomain.Node => 1
  | NullifierSparseDomain.Empty => 2
  end.

Definition nxsm_layout : ChildLayout Poseidon2P24NullifierSparseDomainV1 Poseidon2P24NullifierSparseDomainV1 := {|
  cl_magic := bytes_of_string "NXSM";
  cl_parent_length := Z.of_nat P24_NOTE_DOMAINS_MANIFEST_LENGTH;
  cl_profile := [1; 1; 16; 24; 15; 9; 1; 1; 3; 1; 1; 1; 1; 3; 9; 1; 2; 0; 1; 1; 1; 1];
  cl_payload_length := 108;
  cl_manifest_length := 8347;
  cl_id_domain := label "NOXIS/POSEIDON2-NULLIFIER-SPARSE-MERKLE-CANDIDATE-ID/V1";
  cl_checksum_domain := label "NOXIS/POSEIDON2-NULLIFIER-SPARSE-MERKLE-MANIFEST-CHECKSUM/V1";
  cl_kdf_prefix := label "NOXIS/POSEIDON2-NULLIFIER-SPARSE-MERKLE-IV/V1";
  cl_expected_sha256 :=
    [xfa; x1d; x30; x6b; xf4; xa4; x7d; x77; xe7; x66; x2f; xfb; x48; xd9; xc7; xc9;
     x22; x66; xd9; xda; xae; xe0; x79; x2b; x31; xbc; x6c; xf4; x9d; x97; x8f; x57];
  cl_domains := [NullifierSparseDomain.Leaf; NullifierSparseDomain.Node; NullifierSparseDomain.Empty];
  cl_label := sparse_label;
  cl_input_bytes := fun domain => Z.of_nat (sparse_input_bytes domain);
  cl_input_elements := fun domain => byte_pack_elements (Z.of_nat (sparse_input_bytes domain));
  cl_payload_index := sparse_payload_index;
  cl_blame := id
|}.

(** ** The chain *)

Definition NoteDomainsError : Type := ChildCandidateError Poseidon2P24CandidateError Poseidon2P24NoteDomainV1.

Module EnvelopeDigestCandidateError.
Inductive Poseidon2P24EnvelopeDigestCandidateError : Type := Parent (error : NoteDomainsError).
End EnvelopeDigestCandidateError.
Abbreviation Poseidon2P24EnvelopeDigestCandidateError :=
  EnvelopeDigestCandidateError.Poseidon2P24EnvelopeDigestCandidateError.

Section Chain.
Context `{Sha2} (tree_embedded : option (list byte)) (tree_derived : P24TreeDomain -> list Z).
Context (nxph_embedded nxic_embedded nxsm_embedded : option (list byte)).

(** The tree candidate as the parent of [NXPH]. *)
Definition tree_parent : ParentManifest Poseidon2P24CandidateError :=
  mk_ParentManifest (map_err Some (manifest_encode tree_embedded tree_derived))
    (map_err Some (candidate_id tree_embedded tree_derived)).

Definition nxph_parent : ParentManifest NoteDomainsError := as_parent nxph_layout tree_parent nxph_embedded.

Definition nxph_decode := child_decode nxph_layout tree_parent nxph_embedded.
Definition nxph_iv := child_iv nxph_layout tree_parent nxph_embedded.

(** The operations of [NXIC]. *)
Definition nxic_derive_iv := child_derive_iv nxic_layout nxph_parent.
Definition nxic_validate_payload := child_validate_payload nxic_layout nxph_parent.
Definition nxic_payload := child_payload nxic_layout nxph_parent nxic_embedded.
Definition nxic_iv := child_iv nxic_layout nxph_parent nxic_embedded.
Definition nxic_append_descriptor := append_descriptor nxic_layout.
Definition nxic_encode := child_encode nxic_layout nxph_parent nxic_embedded.
Definition nxic_decode := child_decode nxic_layout nxph_parent nxic_embedded.
Definition nxic_candidate_id := child_candidate_id nxic_layout nxph_parent nxic_embedded.

(** The operations of [NXSM]. *)
Definition nxsm_derive_iv := child_derive_iv nxsm_layout nxph_parent.
Definition nxsm_validate_payload := child_validate_payload nxsm_layout nxph_parent.
Definition nxsm_payload := child_payload nxsm_layout nxph_parent nxsm_embedded.
Definition nxsm_iv := child_iv nxsm_layout nxph_parent nxsm_embedded.
Definition nxsm_append_descriptor := append_descriptor nxsm_layout.
Definition nxsm_encode := child_encode nxsm_layout nxph_parent nxsm_embedded.
Definition nxsm_decode := child_decode nxsm_layout nxph_parent nxsm_embedded.
Definition nxsm_candidate_id := child_candidate_id nxsm_layout nxph_parent nxsm_embedded.

(** The manifest the sparse nullifier tree is loaded from. *)
Definition nxsm_manifest
    : SparseManifest (option (ChildCandidateError NoteDomainsError Poseidon2P24NullifierSparseDomainV1)) := {|
  sparse_encode := nxsm_encode;
  sparse_iv := nxsm_iv;
  sparse_candidate_id := nxsm_candidate_id
|}.

(** ** The envelope digest ([p24_envelope_digest.rs]) *)

Definition P24_ENVELOPE_DIGEST_LABEL : list byte := label "NOXIS/POSEIDON2-PRIVACY/V1/RECIPIENT-ENVELOPE-DIGEST".
Definition P24_ENVELOPE_DIGEST_MAX_NXRE_BYTES : Z := 3242.
Definition P24_ENVELOPE_DIGEST_FRAME_PREFIX_BYTES : Z := 69.
Definition P24_ENVELOPE_DIGEST_MAX_INPUT_BYTES : Z :=
  P24_ENVELOPE_DIGEST_FRAME_PREFIX_BYTES + P24_ENVELOPE_DIGEST_MAX_NXRE_BYTES.
Definition P24_ENVELOPE_DIGEST_MIN_INPUT_BYTES : Z := 1279.
Definition ENVELOPE_IV_KDF_PREFIX : list byte := label "NOXIS/POSEIDON2-ENVELOPE-DIGEST-IV/V1".
Definition CANDIDATE_DESCRIPTOR : list byte :=
  bytes_of_string "P24|BytePack3LE|zero-final-group|squeeze-16|frame-v1|slot-u8|commitment-babybear-le32x16|nxre-u16be-length|max-3311".

Definition envelope_candidate_id : Result (option Poseidon2P24EnvelopeDigestCandidateError) (array 32) :=
  parent_id ← map_err (option_map EnvelopeDigestCandidateError.Parent) (parent_candidate_id nxph_parent);
  Ok (sha256 (label "NOXIS/POSEIDON2-ENVELOPE-DIGEST-CANDIDATE-ID/V1" ++ arr parent_id ++ CANDIDATE_DESCRIPTOR ++
        P24_ENVELOPE_DIGEST_LABEL ++ to_be_bytes 2 P24_ENVELOPE_DIGEST_MAX_INPUT_BYTES)).

Definition envelope_iv : Result (option Poseidon2P24EnvelopeDigestCandidateError) (list Z) :=
  parent_id ← map_err (option_map EnvelopeDigestCandidateError.Parent) (parent_candidate_id nxph_parent);
  ok_or (derive_iv (fun counter =>
           ENVELOPE_IV_KDF_PREFIX ++ arr parent_id ++ P24_ENVELOPE_DIGEST_LABEL ++ to_be_bytes 4 counter)) None.

End Chain.
