(* ===== verification/ChildManifestFacts.v ===== *)
(** * Facts about the manifests below the tree candidate

    A child accepts exactly one byte string.  With SHA-256 evaluated, the checked-in
    payloads are accepted along the whole chain and give the identities that the
    repository freezes. *)

From Stdlib Require Import Strings.Byte Strings.String.
From S2P Require Import Prelude Arrays Sha256 BabyBear Privacy Poseidon2 Poseidon2Facts Fips180.
From S2P Require Import TreeManifest P24Parameters TreeManifestFacts NullifierTree NullifierTreeFacts ChildManifests.

#[local] Opaque P24_PARAMETER_PAYLOAD_LENGTH P24_NOTE_DOMAINS_MANIFEST_LENGTH.

(** ** The shape *)

Lemma length_decode_iv bytes : length (decode_iv bytes) = IV_ELEMENTS.
Proof. unfold decode_iv. by rewrite length_fmap, length_seq. Qed.

(** The constants of an artifact agree with each other. *)
Record layout_wf {D B} (layout : ChildLayout D B) : Prop := mk_layout_wf {
  lw_magic : length (cl_magic layout) = 4%nat;
  lw_slices : forall d, ((cl_payload_index layout d + 1) * IV_ELEMENTS * 4 <= cl_payload_length layout)%nat;
  lw_domains : forall d, d ∈ cl_domains layout;
  lw_total : 42 + len (cl_profile layout) + cl_parent_length layout +
    Z.of_nat (sum_list_with (fun d => 41 + length (cl_label layout d))%nat (cl_domains layout)) + 32 =
    Z.of_nat (cl_manifest_length layout)
}.

Section Child.
Context `{Sha2} {P D B : Type} (layout : ChildLayout D B) (parent : ParentManifest P).
Context (embedded : option (list byte)) (Hlayout : layout_wf layout).
Context (Hparent : forall bytes, parent_encode parent = Ok bytes -> len bytes = cl_parent_length layout).

(** An accepted payload. *)
Record child_accepted (payload : list byte) : Prop := mk_child_accepted {
  ca_embedded : embedded = Some payload;
  ca_length : length payload = cl_payload_length layout;
  ca_checksum : arr (sha256 payload) = cl_expected_sha256 layout;
  ca_elements : Forall element_wf (elements_of payload);
  ca_ivs : forall domain, child_derive_iv layout parent domain =
    Ok (decode_iv (iv_slice layout payload domain))
}.

Lemma check_iv_Ok payload domain iv :
  check_iv layout parent payload domain = Ok iv <->
  iv = decode_iv (iv_slice layout payload domain) /\ child_derive_iv layout parent domain = Ok iv.
Proof.
  unfold check_iv. cbv zeta. destruct (child_derive_iv layout parent domain) as [d|e]; cbn [mbind result_bind].
  - case_bool_decide; cbn [negb]; split; naive_solver congruence.
  - split; [done|]. by intros [_ ?].
Qed.

Lemma child_payload_Ok payload : child_payload layout parent embedded = Ok payload <-> child_accepted payload.
Proof.
  unfold child_payload, child_validate_payload. split.
  - intros Hok. destruct embedded as [bytes|] eqn:Hemb; cbn [ok_or mbind result_bind] in Hok; [|done].
    destruct (Nat.eqb_spec (length bytes) (cl_payload_length layout)) as [Hl|]; cbn [negb mbind result_bind] in Hok; [|done].
    case_bool_decide as Hc; cbn [negb mbind result_bind] in Hok; [|done]. inv_ok. destruct_units.
    match goal with Hv : validate_with _ _ = Ok tt |- _ =>
      apply validate_with_Ok in Hv; [|apply elements_nonneg_of] end.
    match goal with Ht : try_map _ _ = Ok _ |- _ => apply try_map_Forall2 in Ht as Hivs end.
    split; [done..|]. intros d. pose proof (lw_domains _ Hlayout d) as Hd.
    apply list_elem_of_lookup in Hd as [i Hi]. apply (Forall2_lookup_l _ _ _ _ _ Hivs) in Hi as (iv & _ & Hiv).
    apply check_iv_Ok in Hiv as [-> Hiv]. exact Hiv.
  - intros [-> Hl Hc He Hi]. cbn [ok_or mbind result_bind].
    rewrite (proj2 (Nat.eqb_eq _ _) Hl), bool_decide_true, validate_with_wf by done. cbn [negb mbind result_bind].
    rewrite (proj2 (try_map_Forall2 _ _ ((fun d => decode_iv (iv_slice layout payload d)) <$> cl_domains layout)));
      [done|]. apply Forall2_fmap_r, Forall_Forall2_diag, Forall_true. intros d. apply check_iv_Ok. split; [done|apply Hi].
Qed.

(** The bytes before the checksum. *)
Definition child_body (parent_bytes : list byte) (parent_id : array 32) (payload : list byte) : list byte :=
  cl_magic layout ++ to_be_bytes 2 MANIFEST_VERSION ++ (byte_of_Z <$> [CANDIDATE_KIND; FLAGS]) ++
  to_be_bytes 2 (cl_parent_length layout) ++ arr parent_id ++ (byte_of_Z <$> cl_profile layout) ++
  parent_bytes ++ concat (append_descriptor layout payload <$> cl_domains layout).

Definition child_bytes (parent_bytes : list byte) (parent_id : array 32) (payload : list byte) : list byte :=
  child_body parent_bytes parent_id payload ++
  arr (manifest_checksum layout (child_body parent_bytes parent_id payload)).

(** What the encoder returns, and from what. *)
Record child_encoded (bytes parent_bytes : list byte) (parent_id : array 32) (payload : list byte) : Prop :=
    mk_child_encoded {
  ce_parent : parent_encode parent = Ok parent_bytes;
  ce_id : parent_candidate_id parent = Ok parent_id;
  ce_payload : child_accepted payload;
  ce_bytes : bytes = child_bytes parent_bytes parent_id payload
}.

Lemma child_encode_Ok bytes :
  child_encode layout parent embedded = Ok bytes <->
  exists parent_bytes parent_id payload, child_encoded bytes parent_bytes parent_id payload.
Proof.
  unfold child_encode, from_parent. split.
  - intros Hok. inv_ok. eexists _, _, _. split; [eassumption..| |done]. by apply child_payload_Ok.
  - intros (parent_bytes & parent_id & payload & [-> -> Hp ->]). apply child_payload_Ok in Hp. rewrite Hp. done.
Qed.

Lemma length_iv_slice payload domain :
  length payload = cl_payload_length layout -> length (iv_slice layout payload domain) = (IV_ELEMENTS * 4)%nat.
Proof.
  intros Hl. unfold iv_slice. rewrite length_take, length_drop, Hl.
  pose proof (lw_slices _ Hlayout domain). unfold IV_ELEMENTS in *. lia.
Qed.

Lemma length_descriptors payload domains :
  length payload = cl_payload_length layout ->
  length (concat (append_descriptor layout payload <$> domains)) =
  sum_list_with (fun d => 41 + length (cl_label layout d))%nat domains.
Proof.
  intros Hl. induction domains as [|d domains IH]; [done|]. rewrite fmap_cons. cbn [concat sum_list_with].
  rewrite length_app, IH. unfold append_descriptor. cbv zeta. rewrite !length_app, length_to_be_bytes.
  rewrite length_iv_slice by done. unfold IV_ELEMENTS. cbn [length]. lia.
Qed.

Lemma length_child_bytes bytes parent_bytes parent_id payload :
  child_encoded bytes parent_bytes parent_id payload -> length bytes = cl_manifest_length layout.
Proof.
  intros [Hpb _ Hp ->]. pose proof (Hparent _ Hpb) as Hpl. pose proof (lw_total _ Hlayout) as Ht.
  unfold child_bytes, child_body. rewrite !length_app, !length_arr, !length_fmap, !length_to_be_bytes.
  rewrite length_descriptors by apply Hp. rewrite (lw_magic _ Hlayout). cbn [length]. lia.
Qed.

Lemma child_decode_Ok bytes :
  child_decode layout parent embedded bytes = Ok tt <-> child_encode layout parent embedded = Ok bytes.
Proof.
  unfold child_decode. split.
  - intros Hok. inv_ok. by zbool; subst.
  - intros Henc. pose proof (proj1 (child_encode_Ok bytes) Henc) as (pb & pid & payload & Hc).
    rewrite Henc, (proj2 (Nat.eqb_eq _ _) (length_child_bytes _ _ _ _ Hc)). cbn [negb mbind result_bind].
    rewrite (bool_decide_true (bytes = bytes)) by done.
    destruct Hc as [_ _ _ ->]. pose proof (lw_magic _ Hlayout) as Hm.
    assert (Hsplit : (length (child_bytes pb pid payload) - CHECKSUM_LENGTH)%nat = length (child_body pb pid payload)).
    { unfold child_bytes. rewrite length_app, length_arr. unfold CHECKSUM_LENGTH. lia. }
    assert (Hsum : drop (length (child_body pb pid payload)) (child_bytes pb pid payload) =
      arr (manifest_checksum layout (take (length (child_body pb pid payload)) (child_bytes pb pid payload)))).
    { unfold child_bytes. by rewrite drop_app_length, take_app_length. }
    rewrite Hsplit, (bool_decide_true _ Hsum).
    unfold child_bytes, child_body. destruct (cl_magic layout) as [|m0 [|m1 [|m2 [|m3 [|]]]]]; try done.
    cbn [app take drop nth to_be_bytes to_le_bytes rev fmap list_fmap].
    by rewrite !bool_decide_true by (by vm_compute).
Qed.

(** a child's decoder accepts exactly one byte string, the one its encoder
    returns: the header with the parent's identity, the parent's own bytes, the
    descriptors and their checksum.  It exists only if the parent is accepted and the
    embedded payload has its length, its frozen digest, canonical words and every
    initialisation vector that rejection sampling derives from the parent. *)
Theorem child_decode_exact bytes :
  child_decode layout parent embedded bytes = Ok tt <->
  exists parent_bytes parent_id payload, child_encoded bytes parent_bytes parent_id payload.
Proof. rewrite child_decode_Ok. apply child_encode_Ok. Qed.

Lemma child_iv_Ok domain iv :
  child_iv layout parent embedded domain = Ok iv ->
  exists payload, child_accepted payload /\ iv = decode_iv (iv_slice layout payload domain).
Proof.
  unfold child_iv. intros Hok. inv_ok. exists x. split; [by apply child_payload_Ok|]. by apply check_iv_Ok in Hok as [-> _].
Qed.

Lemma child_iv_total payload domain :
  child_accepted payload -> child_iv layout parent embedded domain = Ok (decode_iv (iv_slice layout payload domain)).
Proof.
  intros Hp. unfold child_iv. rewrite (proj2 (child_payload_Ok payload) Hp). cbn [mbind result_bind].
  apply check_iv_Ok. split; [done|apply Hp].
Qed.

Lemma iv_slice_wf payload domain :
  child_accepted payload -> Forall element_wf (decode_iv (iv_slice layout payload domain)).
Proof.
  intros Hp. unfold decode_iv, iv_slice. apply Forall_fmap, Forall_forall. intros i Hi%elem_of_seq.
  cbn [compose]. rewrite skipn_firstn_comm, firstn_firstn, drop_drop.
  pose proof (lw_slices _ Hlayout domain) as Hs. rewrite <-(ca_length _ Hp) in Hs. unfold IV_ELEMENTS in *.
  rewrite Nat.min_l by lia.
  replace (cl_payload_index layout domain * 9 * 4 + i * 4)%nat
    with ((cl_payload_index layout domain * 9 + i) * 4)%nat by lia.
  pose proof (word_at (cl_payload_index layout domain * 9 + i) payload ltac:(lia)) as Hw.
  exact (Forall_lookup_1 _ _ _ _ (ca_elements _ Hp) Hw).
Qed.

End Child.

(** ** The three layouts *)

Lemma nxph_layout_wf : layout_wf nxph_layout.
Proof. split; [done|intros []; by_leb|intros []; set_solver|by vm_compute]. Qed.

Lemma nxic_layout_wf : layout_wf nxic_layout.
Proof. split; [done|intros []; by_leb|intros []; set_solver|by vm_compute]. Qed.

Lemma nxsm_layout_wf : layout_wf nxsm_layout.
Proof. split; [done|intros []; by_leb|intros []; set_solver|by vm_compute]. Qed.

Section Chain.
Context `{Sha2} (tree_embedded : option (list byte)) (tree_derived : P24TreeDomain -> list Z).
Context (nxph_embedded : option (list byte)).

Lemma tree_parent_length bytes :
  parent_encode (tree_parent tree_embedded tree_derived) = Ok bytes -> len bytes = cl_parent_length nxph_layout.
Proof.
  cbn [parent_encode tree_parent]. intros Hok%map_err_Ok. apply manifest_encode_Ok in Hok as (payload & Hp & ->).
  rewrite length_app, (accepted_length _ _ _ Hp). by vm_compute.
Qed.

Lemma nxph_parent_length bytes :
  parent_encode (nxph_parent tree_embedded tree_derived nxph_embedded) = Ok bytes ->
  len bytes = Z.of_nat P24_NOTE_DOMAINS_MANIFEST_LENGTH.
Proof.
  cbn [parent_encode nxph_parent as_parent].
  intros (pb & pid & payload & Hc)%(child_encode_Ok _ _ _ nxph_layout_wf).
  by rewrite (length_child_bytes _ _ _ nxph_layout_wf tree_parent_length _ _ _ _ Hc).
Qed.

#[export] Instance nxsm_manifest_laws nxsm_embedded :
  SparseManifestLaws (nxsm_manifest tree_embedded tree_derived nxph_embedded nxsm_embedded).
Proof.
  split; cbn [sparse_iv nxsm_manifest]; unfold nxsm_iv;
    intros domain iv (payload & Hp & ->)%(child_iv_Ok _ _ _ nxsm_layout_wf).
  - apply length_decode_iv.
  - by eapply (iv_slice_wf _ _ _ nxsm_layout_wf).
Qed.

End Chain.

(** ** The checked-in chain *)

Definition frozen_nxph_words : list Z :=
  [1853478823; 529778630; 506741799; 1608476876; 816368906; 1273220496; 1218690866; 1576195064; 1858227912;
   1926189073; 1208975911; 242297839; 635783994; 1142650684; 892401344; 128332252; 681128792; 617769955;
   1717594402; 638074386; 490092013; 312141919; 1403482202; 1123788004; 243901173; 1733743138; 1330989840].
Definition frozen_nxsm_words : list Z :=
  [912309436; 919118717; 653394617; 403449216; 526859383; 411519376; 304387794; 273950072; 1095032848;
   1112581690; 1837936338; 1180009246; 1429629540; 819566281; 514555396; 411183118; 699191811; 1553632313;
   1807917715; 1462410577; 756732517; 233662170; 1213627537; 1064474933; 1863126662; 1458807881; 535719093].
Definition frozen_nxic_words : list Z :=
  [1819200036; 1876339393; 1398038240; 209277844; 1313667583; 1517749525; 1941790785; 769299377; 68669752].

Definition frozen_nxph : list byte := concat (to_le_bytes 4 <$> frozen_nxph_words).
Definition frozen_nxsm : list byte := concat (to_le_bytes 4 <$> frozen_nxsm_words).
Definition frozen_nxic : list byte := concat (to_le_bytes 4 <$> frozen_nxic_words).

#[local] Existing Instance fips_sha2.

Definition frozen_tree_parent := tree_parent (Some frozen_payload) (stored_iv frozen_payload).
Definition frozen_nxph_parent := nxph_parent (Some frozen_payload) (stored_iv frozen_payload) (Some frozen_nxph).

(** The identities of the four artifacts. *)
Definition frozen_tree_id : array 32 :=
  @mk_array 32
    [x96; xd8; xc3; x94; xfc; x3e; xca; x45; x6b; x91; x8b; x96; xbc; x53; x2a; x33;
     x95; xd5; x3b; x67; x7d; x79; x89; xe7; x79; x14; x31; x4c; x07; x7d; xfa; x3b] eq_refl.
Definition frozen_nxph_id : array 32 :=
  @mk_array 32
    [x57; xe2; x27; xfd; x9d; x4c; xbc; xc6; x97; x19; x03; x72; xb8; x98; x3d; x2b;
     xdc; x5e; x33; x94; x17; x75; x10; xee; xa5; x4f; x9f; x90; xf3; x63; x4b; x8e] eq_refl.
Definition frozen_nxic_id : array 32 :=
  @mk_array 32
    [xfe; xc7; x3e; x2b; x82; x38; xb7; x49; x35; x70; x42; xbd; xba; x55; x47; x0d;
     x67; x4f; xb1; x2c; xa4; x98; xc4; x7b; xb7; x61; x85; x4c; xa8; x5b; x20; xe5] eq_refl.
Definition frozen_nxsm_id : array 32 :=
  @mk_array 32
    [x17; x6a; x86; x8c; x85; x5f; x3c; xc5; x21; xbf; x15; x33; x89; xa8; x3e; x03;
     xb4; xae; x26; xfc; x42; x6a; x33; x04; xca; xed; x59; xec; x74; x87; x9a; xf1] eq_refl.

Lemma words_canonical es : forallb (fun e => (0 <=? e) && (e <? BABYBEAR_MODULUS)) es = true -> Forall element_wf es.
Proof.
  intros Hall. apply Forall_forall. intros e He%list_elem_of_In. rewrite forallb_forall in Hall.
  specialize (Hall e He). unfold element_wf. lia.
Qed.

(** The words of a payload written from canonical words. *)
Lemma payload_words es : forallb (fun e => (0 <=? e) && (e <? BABYBEAR_MODULUS)) es = true ->
  Forall element_wf (elements_of (concat (to_le_bytes 4 <$> es))).
Proof. intros Hall%words_canonical. by rewrite elements_of_concat. Qed.

Lemma frozen_tree_encode : parent_encode frozen_tree_parent = Ok (manifest_header ++ frozen_payload).
Proof.
  cbn [frozen_tree_parent tree_parent parent_encode]. apply map_err_Ok, manifest_encode_Ok.
  exists frozen_payload. split; [exact frozen_payload_accepted|done].
Qed.

Lemma frozen_tree_candidate_id : parent_candidate_id frozen_tree_parent = Ok frozen_tree_id.
Proof.
  cbn [frozen_tree_parent tree_parent parent_candidate_id]. apply map_err_Ok. unfold candidate_id.
  pose proof frozen_tree_encode as He. apply map_err_Ok in He. rewrite He. cbn [mbind result_bind].
  apply (f_equal Ok), arr_inj. vm_compute. reflexivity.
Qed.

(** An accepted payload gives the bytes and the identity. *)
Lemma frozen_child {P D B} (layout : ChildLayout D B) (parent : ParentManifest P) pb pid payload id :
  layout_wf layout -> child_accepted layout parent (Some payload) payload ->
  parent_encode parent = Ok pb -> parent_candidate_id parent = Ok pid ->
  arr (sha256 (cl_id_domain layout ++ child_bytes layout pb pid payload)) = arr id ->
  child_encode layout parent (Some payload) = Ok (child_bytes layout pb pid payload) /\
  child_candidate_id layout parent (Some payload) = Ok id.
Proof.
  intros Hl Hp Hpb Hpid Hid.
  assert (Henc : child_encode layout parent (Some payload) = Ok (child_bytes layout pb pid payload)).
  { apply (child_encode_Ok _ _ _ Hl). by exists pb, pid, payload. }
  split; [exact Henc|]. unfold child_candidate_id. rewrite Henc. cbn [mbind result_bind].
  by apply (f_equal Ok), arr_inj.
Qed.

Lemma frozen_nxph_accepted : child_accepted nxph_layout frozen_tree_parent (Some frozen_nxph) frozen_nxph.
Proof.
  split; [done|done|by vm_compute|by apply payload_words|].
  intros d. unfold child_derive_iv. rewrite frozen_tree_candidate_id. cbn [from_parent map_err mbind result_bind].
  destruct d; vm_compute; reflexivity.
Qed.

Definition frozen_nxph_bytes : list byte :=
  child_bytes nxph_layout (manifest_header ++ frozen_payload) frozen_tree_id frozen_nxph.

Lemma frozen_nxph_facts :
  parent_encode frozen_nxph_parent = Ok frozen_nxph_bytes /\ parent_candidate_id frozen_nxph_parent = Ok frozen_nxph_id.
Proof.
  apply (frozen_child _ _ _ _ _ _ nxph_layout_wf frozen_nxph_accepted frozen_tree_encode frozen_tree_candidate_id).
  vm_compute. reflexivity.
Qed.

Lemma frozen_nxic_accepted : child_accepted nxic_layout frozen_nxph_parent (Some frozen_nxic) frozen_nxic.
Proof.
  split; [done|done|by vm_compute|by apply payload_words|].
  intros d. unfold child_derive_iv. rewrite (proj2 frozen_nxph_facts). cbn [from_parent map_err mbind result_bind].
  destruct d; vm_compute; reflexivity.
Qed.

Lemma frozen_nxsm_accepted : child_accepted nxsm_layout frozen_nxph_parent (Some frozen_nxsm) frozen_nxsm.
Proof.
  split; [done|done|by vm_compute|by apply payload_words|].
  intros d. unfold child_derive_iv. rewrite (proj2 frozen_nxph_facts). cbn [from_parent map_err mbind result_bind].
  destruct d; vm_compute; reflexivity.
Qed.

Lemma frozen_nxic_facts :
  exists bytes, child_encode nxic_layout frozen_nxph_parent (Some frozen_nxic) = Ok bytes /\
    child_candidate_id nxic_layout frozen_nxph_parent (Some frozen_nxic) = Ok frozen_nxic_id.
Proof.
  eexists. apply (frozen_child _ _ _ _ _ _ nxic_layout_wf frozen_nxic_accepted (proj1 frozen_nxph_facts)
    (proj2 frozen_nxph_facts)).
  vm_compute. reflexivity.
Qed.

Lemma frozen_nxsm_facts :
  exists bytes, child_encode nxsm_layout frozen_nxph_parent (Some frozen_nxsm) = Ok bytes /\
    child_candidate_id nxsm_layout frozen_nxph_parent (Some frozen_nxsm) = Ok frozen_nxsm_id.
Proof.
  eexists. apply (frozen_child _ _ _ _ _ _ nxsm_layout_wf frozen_nxsm_accepted (proj1 frozen_nxph_facts)
    (proj2 frozen_nxph_facts)).
  vm_compute. reflexivity.
Qed.

(** The real manifest of the nullifier tree. *)
Definition frozen_sparse := nxsm_manifest (Some frozen_payload) (stored_iv frozen_payload) (Some frozen_nxph)
  (Some frozen_nxsm).

#[export] Instance frozen_sparse_laws : SparseManifestLaws frozen_sparse := nxsm_manifest_laws _ _ _ _.

(** the checked-in payloads are accepted along the whole chain, with SHA-256
    itself evaluated, and give the identities that the repository's tests freeze. *)
Theorem frozen_identities :
  parent_candidate_id frozen_nxph_parent = Ok frozen_nxph_id /\
  nxic_candidate_id (Some frozen_payload) (stored_iv frozen_payload) (Some frozen_nxph) (Some frozen_nxic) =
    Ok frozen_nxic_id /\
  nxsm_candidate_id (Some frozen_payload) (stored_iv frozen_payload) (Some frozen_nxph) (Some frozen_nxsm) =
    Ok frozen_nxsm_id.
Proof.
  destruct frozen_nxic_facts as (_ & _ & Hic), frozen_nxsm_facts as (_ & _ & Hsm).
  split_and!; [apply frozen_nxph_facts|exact Hic|exact Hsm].
Qed.

(** The bytes of the sparse candidate are accepted. *)
Lemma child_decode_exact_witness :
  exists bytes, child_decode nxsm_layout frozen_nxph_parent (Some frozen_nxsm) bytes = Ok tt.
Proof.
  eexists. apply (child_decode_exact nxsm_layout frozen_nxph_parent (Some frozen_nxsm) nxsm_layout_wf
    (nxph_parent_length _ _ _)).
  eexists _, _, frozen_nxsm. split; [apply frozen_nxph_facts|apply frozen_nxph_facts|exact frozen_nxsm_accepted|done].
Defined.

(** It loads. *)
Lemma frozen_sparse_loads : exists r, load_sparse_reference frozen_manifest frozen_sparse = Ok r.
Proof.
  destruct frozen_nxsm_facts as (bytes & Henc & _).
  apply (load_sparse_total frozen_manifest frozen_sparse frozen_reference bytes
    (fun d => decode_iv (iv_slice nxsm_layout frozen_nxsm d))).
  - exact frozen_manifest_reference.
  - exact Henc.
  - intros d. exact (child_iv_total nxsm_layout frozen_nxph_parent (Some frozen_nxsm) nxsm_layout_wf frozen_nxsm d
      frozen_nxsm_accepted).
Qed.
