(* ===== verification/PrivateState.v ===== *)
(** * The candidate private state ([noxis-private-state])

    The snapshot of note commitments and spent nullifiers ([lib.rs]), the two state
    anchors that an intent is bound to ([state_anchor.rs], [state_anchor_v2.rs]) and
    the transition of a 2x2 transfer ([transition_v2.rs]).  An error [None] is a
    panic. *)

From Stdlib Require Import Strings.Byte Strings.String.
From stdpp Require Import gmap.
From S2P Require Import Prelude Arrays Sha256 Types Privacy BabyBear Poseidon2 NullifierTree.

Abbreviation NoteCommitmentV2 := Vector (only parsing).
Abbreviation MerkleRootV2 := Vector (only parsing).

(** ** The snapshot ([lib.rs]) *)

Definition CANDIDATE_PRIVATE_STATE_MAX_NOTES : Z := 1024.
Definition CANDIDATE_PRIVATE_STATE_ID_DOMAIN : list byte :=
  bytes_of_string "NOXIS/PRIVATE-STATE-CANDIDATE-ID/V1" ++ [x00].

Module CandidatePrivateStateError.
Inductive CandidatePrivateStateError : Type :=
| Tree (error : Poseidon2P24ReferenceError)
| Candidate (error : Poseidon2P24CandidateError)
| PublicValue (error : PrivacyTypesError)
| TooManyCommitments (count : Z)
| DuplicateCommitment
| DuplicateNullifier.
End CandidatePrivateStateError.
Abbreviation CandidatePrivateStateError := CandidatePrivateStateError.CandidatePrivateStateError.

Record CandidatePrivateStateSnapshotV1 : Type := mk_CandidatePrivateStateSnapshotV1 {
  sn_commitments : list NoteCommitmentV2;
  sn_spent_nullifiers : list NullifierV2;
  sn_root : MerkleRootV2
}.

#[global] Instance CandidatePrivateStateSnapshotV1_eq_dec : EqDecision CandidatePrivateStateSnapshotV1.
Proof. solve_decision. Defined.

(** [BTreeSet] of the keys: ascending and without duplicates. *)
Definition btree_set (s : gset Z) : list Z := merge_sort Z.le (base.elements s).

(** [windows(2).any(|pair| pair[0] == pair[1])]. *)
Fixpoint adjacent_equal (l : list NullifierV2) : bool :=
  match l with
  | a :: ((b :: _) as rest) => bool_decide (a = b) || adjacent_equal rest
  | _ => false
  end.

Section Snapshot.
Context (tree : P24Manifest) (reference : Poseidon2P24Reference).

(** [for parent in parents]: the next level of the map of nodes. *)
Definition next_nodes (nodes : gmap Z BabyBearDigestV2) (empty_value : BabyBearDigestV2)
    : Result Poseidon2P24ReferenceError (gmap Z BabyBearDigestV2) :=
  let parents := btree_set (set_map (fun index => Z.shiftr index 1) (dom nodes)) in
  try_fold (fun next parent =>
      let left := default empty_value (nodes !! Z.shiftl parent 1) in
      let right := default empty_value (nodes !! Z.lor (Z.shiftl parent 1) 1) in
      digest ← reference_node reference tree left right;
      Ok (<[parent := digest]> next))
    ∅ parents.

Definition root_for_commitments (commitments : list NoteCommitmentV2)
    : Result (option CandidatePrivateStateError) BabyBearDigestV2 :=
  empty ← map_err (fun e => Some (CandidatePrivateStateError.Tree e)) (empty_values reference tree);
  match commitments with
  | [] => Ok (nth P24_TREE_DEPTH empty [])
  | _ =>
      leaves ← map_err (fun e => Some (CandidatePrivateStateError.Tree e))
                 (try_map (fun commitment => reference_leaf reference tree (elements commitment)) commitments);
      let nodes := list_to_map (imap (fun index leaf => (Z.of_nat index, leaf)) leaves) in
      nodes ← map_err (fun e => Some (CandidatePrivateStateError.Tree e))
                (try_fold next_nodes nodes (take P24_TREE_DEPTH empty));
      ok_or (nodes !! 0) None
  end.

(** [CandidatePrivateStateSnapshotV1::new]. *)
Definition snapshot_new (commitments : list NoteCommitmentV2) (spent_nullifiers : list NullifierV2)
    : Result (option CandidatePrivateStateError) CandidatePrivateStateSnapshotV1 :=
  if CANDIDATE_PRIVATE_STATE_MAX_NOTES <? len commitments
  then Err (Some (CandidatePrivateStateError.TooManyCommitments (len commitments)))
  else if negb (size (list_to_set commitments : gset NoteCommitmentV2) =? length commitments)%nat
  then Err (Some CandidatePrivateStateError.DuplicateCommitment)
  else
    let spent_nullifiers := sort_by_key id spent_nullifiers in
    if adjacent_equal spent_nullifiers
    then Err (Some CandidatePrivateStateError.DuplicateNullifier)
    else
      digest ← root_for_commitments commitments;
      root ← map_err (option_map CandidatePrivateStateError.PublicValue) (from_elements digest);
      Ok (mk_CandidatePrivateStateSnapshotV1 commitments spent_nullifiers root).

End Snapshot.

(** [binary_search] of a sorted slice finds exactly its elements. *)
Definition snapshot_is_spent (self : CandidatePrivateStateSnapshotV1) (nullifier : NullifierV2) : bool :=
  bool_decide (nullifier ∈ sn_spent_nullifiers self).

(** [CandidatePrivateStateSnapshotV1::id]. *)
Definition snapshot_id `{Sha2} (tree : P24Manifest) (self : CandidatePrivateStateSnapshotV1)
    : Result (option CandidatePrivateStateError) (array 32) :=
  manifest_id ← map_err (fun e => Some (CandidatePrivateStateError.Candidate e)) (manifest_candidate_id tree);
  commitments ← ok_or (try_from U32_MAX (len (sn_commitments self))) None;
  nullifiers ← ok_or (try_from U32_MAX (len (sn_spent_nullifiers self))) None;
  Ok (sha256 (CANDIDATE_PRIVATE_STATE_ID_DOMAIN ++ arr manifest_id ++ arr (sn_root self) ++
        to_be_bytes 4 commitments ++ concat (arr <$> sn_commitments self) ++
        to_be_bytes 4 nullifiers ++ concat (arr <$> sn_spent_nullifiers self))).

(** ** The first anchor ([state_anchor.rs]) *)

Definition PRIVATE_NULLIFIER_SET_COMMITMENT_DOMAIN : list byte :=
  bytes_of_string "NOXIS/PRIVATE-NULLIFIER-SET/V1" ++ [x00].
Definition PRIVATE_STATE_ANCHOR_ID_DOMAIN : list byte := bytes_of_string "NOXIS/PRIVATE-STATE-ID/V1" ++ [x00].
Definition NXPS_MAGIC : list byte := bytes_of_string "NXPS".
Definition TREE_ARITY : Z := 2.
Definition BABYBEAR_LE32X16_ENCODING : Z := 1.

Module PrivateStateAnchorError.
Inductive PrivateStateAnchorError : Type :=
| GenesisMismatch
| ValidationContextMismatch
| TreeParametersMismatch
| NoteRootMismatch
| StateIdMismatch.
End PrivateStateAnchorError.
Abbreviation PrivateStateAnchorError := PrivateStateAnchorError.PrivateStateAnchorError.

Record PrivateStateAnchorV1 : Type := mk_PrivateStateAnchorV1 {
  a1_genesis_id : GenesisId;
  a1_validation_context_id : ValidationContextId;
  a1_tree_parameters : TreeParametersV2;
  a1_next_leaf_index : Z;
  a1_note_root : MerkleRootV2;
  a1_spent_nullifier_count : Z;
  a1_nullifier_set_commitment : array 32;
  a1_state_id : StateId
}.

(** The 220-byte frame; [state_id] is not part of it. *)
Definition anchor1_encode (self : PrivateStateAnchorV1) : list byte :=
  NXPS_MAGIC ++ to_be_bytes 2 1 ++ replicate 2 x00 ++
  arr (a1_genesis_id self) ++ arr (a1_validation_context_id self) ++
  arr (tree_parameters_id (a1_tree_parameters self)) ++
  (byte_of_Z <$> [PRIVATE_TRANSFER_V2_TREE_DEPTH; TREE_ARITY; BABYBEAR_LE32X16_ENCODING; BABYBEAR_LE32X16_ENCODING]) ++
  to_be_bytes 8 (a1_next_leaf_index self) ++ arr (a1_note_root self) ++
  to_be_bytes 8 (a1_spent_nullifier_count self) ++ arr (a1_nullifier_set_commitment self).

Definition zero_state_id : StateId := fill 32 x00.

Section Anchor1.
Context `{Sha2}.

Definition nullifier_set_commitment (nullifiers : list NullifierV2) : array 32 :=
  sha256 (PRIVATE_NULLIFIER_SET_COMMITMENT_DOMAIN ++ to_be_bytes 8 (len nullifiers) ++ concat (arr <$> nullifiers)).

Definition anchor1_new (genesis_id : GenesisId) (validation_context_id : ValidationContextId)
    (tree_parameters : TreeParametersV2) (snapshot : CandidatePrivateStateSnapshotV1) : PrivateStateAnchorV1 :=
  let anchor := mk_PrivateStateAnchorV1 genesis_id validation_context_id tree_parameters
    (len (sn_commitments snapshot)) (sn_root snapshot) (len (sn_spent_nullifiers snapshot))
    (nullifier_set_commitment (sn_spent_nullifiers snapshot)) in
  let frame := anchor1_encode (anchor zero_state_id) in
  anchor (sha256 (PRIVATE_STATE_ANCHOR_ID_DOMAIN ++ frame)).

End Anchor1.

Definition anchor1_assert_matches_intent (self : PrivateStateAnchorV1) (intent : PrivateTransferIntentV2)
    : Result PrivateStateAnchorError unit :=
  _ ← ensure (bool_decide (pi_genesis_id intent = a1_genesis_id self)) PrivateStateAnchorError.GenesisMismatch;
  _ ← ensure (bool_decide (pi_validation_context_id intent = a1_validation_context_id self))
        PrivateStateAnchorError.ValidationContextMismatch;
  _ ← ensure (bool_decide (pi_tree_parameters intent = a1_tree_parameters self))
        PrivateStateAnchorError.TreeParametersMismatch;
  _ ← ensure (bool_decide (pi_pre_state_root intent = a1_note_root self)) PrivateStateAnchorError.NoteRootMismatch;
  ensure (bool_decide (pi_pre_state_id intent = a1_state_id self)) PrivateStateAnchorError.StateIdMismatch.

(** ** The second anchor ([state_anchor_v2.rs]) *)

Definition PRIVATE_STATE_NXSM_ANCHOR_ID_DOMAIN : list byte := bytes_of_string "NOXIS/PRIVATE-STATE-ID/V2" ++ [x00].
Definition SPARSE_DEPTH : Z := 512.

Module PrivateStateAnchorV2Error.
Inductive PrivateStateAnchorV2Error (E : Type) : Type :=
| Candidate (error : E)
| SparseTree (error : NullifierSparseTreeStateError E)
| SpentCountMismatch (snapshot tree : Z)
| NullifierRootMismatch.
Arguments Candidate {E} error.
Arguments SparseTree {E} error.
Arguments SpentCountMismatch {E} snapshot tree.
Arguments NullifierRootMismatch {E}.
End PrivateStateAnchorV2Error.
Abbreviation PrivateStateAnchorV2Error := PrivateStateAnchorV2Error.PrivateStateAnchorV2Error.

Record PrivateStateAnchorV2 : Type := mk_PrivateStateAnchorV2 {
  a2_genesis_id : GenesisId;
  a2_validation_context_id : ValidationContextId;
  a2_note_tree_parameters : TreeParametersV2;
  a2_nullifier_tree_candidate : array 32;
  a2_next_leaf_index : Z;
  a2_note_root : MerkleRootV2;
  a2_spent_nullifier_count : Z;
  a2_nullifier_root : NullifierSparseRootV1;
  a2_state_id : StateId
}.

#[global] Instance PrivateStateAnchorV2_eq_dec : EqDecision PrivateStateAnchorV2.
Proof. solve_decision. Defined.

(** The 288-byte frame; [state_id] is not part of it. *)
Definition anchor2_encode (self : PrivateStateAnchorV2) : list byte :=
  NXPS_MAGIC ++ to_be_bytes 2 2 ++ replicate 2 x00 ++
  arr (a2_genesis_id self) ++ arr (a2_validation_context_id self) ++
  arr (tree_parameters_id (a2_note_tree_parameters self)) ++
  (byte_of_Z <$> [PRIVATE_TRANSFER_V2_TREE_DEPTH; TREE_ARITY; BABYBEAR_LE32X16_ENCODING]) ++
  arr (a2_nullifier_tree_candidate self) ++ to_be_bytes 2 SPARSE_DEPTH ++
  (byte_of_Z <$> [BABYBEAR_LE32X16_ENCODING; BABYBEAR_LE32X16_ENCODING; 0]) ++
  to_be_bytes 8 (a2_next_leaf_index self) ++ arr (a2_note_root self) ++
  to_be_bytes 8 (a2_spent_nullifier_count self) ++ arr (a2_nullifier_root self).

Definition assert_matches_intent (self : PrivateStateAnchorV2) (intent : PrivateTransferIntentV2)
    : Result PrivateStateAnchorError unit :=
  _ ← ensure (bool_decide (pi_genesis_id intent = a2_genesis_id self)) PrivateStateAnchorError.GenesisMismatch;
  _ ← ensure (bool_decide (pi_validation_context_id intent = a2_validation_context_id self))
        PrivateStateAnchorError.ValidationContextMismatch;
  _ ← ensure (bool_decide (pi_tree_parameters intent = a2_note_tree_parameters self))
        PrivateStateAnchorError.TreeParametersMismatch;
  _ ← ensure (bool_decide (pi_pre_state_root intent = a2_note_root self)) PrivateStateAnchorError.NoteRootMismatch;
  ensure (bool_decide (pi_pre_state_id intent = a2_state_id self)) PrivateStateAnchorError.StateIdMismatch.

(** [for nullifier in nullifiers { tree.mark_spent(nullifier)? }]. *)
Fixpoint mark_all_spent {E} (nullifiers : list NullifierV2)
    : M NullifierSparseTreeStateV1 (option (NullifierSparseTreeStateError E)) unit :=
  match nullifiers with
  | [] => mret tt
  | nullifier :: nullifiers => _ ← mark_spent nullifier; mark_all_spent nullifiers
  end.

(** A loop over a local tree: its value afterwards. *)
Definition spend_all {E} (nullifiers : list NullifierV2) (tree : NullifierSparseTreeStateV1)
    : Result (option (NullifierSparseTreeStateError E)) NullifierSparseTreeStateV1 :=
  let '(result, tree) := mark_all_spent nullifiers tree in
  _ ← result; Ok tree.

Section Anchor2.
Context `{Sha2} (tree : P24Manifest) {E : Type} (sparse : SparseManifest E).

Abbreviation AnchorError := (option (PrivateStateAnchorV2Error E)).

Definition from_tree_state {A} (r : Result (option (NullifierSparseTreeStateError E)) A) : Result AnchorError A :=
  map_err (option_map PrivateStateAnchorV2Error.SparseTree) r.

Definition verify_snapshot_tree (snapshot : CandidatePrivateStateSnapshotV1) (nullifier_tree : NullifierSparseTreeStateV1)
    : Result AnchorError NullifierSparseRootV1 :=
  let snapshot_count := len (sn_spent_nullifiers snapshot) in
  _ ← ensure (nt_spent_count nullifier_tree =? snapshot_count)
        (Some (PrivateStateAnchorV2Error.SpentCountMismatch snapshot_count (nt_spent_count nullifier_tree)));
  rebuilt ← from_tree_state (new_candidate tree sparse);
  rebuilt ← from_tree_state (spend_all (sn_spent_nullifiers snapshot) rebuilt);
  expected_root ← from_tree_state (tree_root rebuilt);
  supplied_root ← from_tree_state (tree_root nullifier_tree);
  _ ← ensure (bool_decide (supplied_root = expected_root)) (Some PrivateStateAnchorV2Error.NullifierRootMismatch);
  Ok supplied_root.

Definition anchor2_new (genesis_id : GenesisId) (validation_context_id : ValidationContextId)
    (note_tree_parameters : TreeParametersV2) (snapshot : CandidatePrivateStateSnapshotV1)
    (nullifier_tree : NullifierSparseTreeStateV1) : Result AnchorError PrivateStateAnchorV2 :=
  nullifier_root ← verify_snapshot_tree snapshot nullifier_tree;
  nullifier_tree_candidate ← map_err (fun e => Some (PrivateStateAnchorV2Error.Candidate e))
                               (sparse_candidate_id sparse);
  let anchor := mk_PrivateStateAnchorV2 genesis_id validation_context_id note_tree_parameters
    nullifier_tree_candidate (len (sn_commitments snapshot)) (sn_root snapshot) (nt_spent_count nullifier_tree)
    nullifier_root in
  Ok (anchor (sha256 (PRIVATE_STATE_NXSM_ANCHOR_ID_DOMAIN ++ anchor2_encode (anchor zero_state_id)))).

End Anchor2.

(** ** The transition ([transition_v2.rs]) *)

Module CandidatePrivateStateTransitionV2Error.
Inductive CandidatePrivateStateTransitionV2Error (E : Type) : Type :=
| Snapshot (error : CandidatePrivateStateError)
| PreAnchor (error : PrivateStateAnchorV2Error E)
| Intent (error : PrivateStateAnchorError)
| SparseTree (error : NullifierSparseTreeStateError E)
| PreAnchorMismatch
| InputAlreadySpent (index : Z)
| PostStateMismatch.
Arguments Snapshot {E} error.
Arguments PreAnchor {E} error.
Arguments Intent {E} error.
Arguments SparseTree {E} error.
Arguments PreAnchorMismatch {E}.
Arguments InputAlreadySpent {E} index.
Arguments PostStateMismatch {E}.
End CandidatePrivateStateTransitionV2Error.
Abbreviation CandidatePrivateStateTransitionV2Error :=
  CandidatePrivateStateTransitionV2Error.CandidatePrivateStateTransitionV2Error.

Record CandidatePrivateStateTransitionV2 : Type := mk_CandidatePrivateStateTransitionV2 {
  tr_pre_anchor : PrivateStateAnchorV2;
  tr_post_anchor : PrivateStateAnchorV2;
  tr_post_snapshot : CandidatePrivateStateSnapshotV1;
  tr_post_tree : NullifierSparseTreeStateV1
}.

Definition intent_nullifiers (intent : PrivateTransferIntentV2) : list NullifierV2 :=
  [pi_nullifier0 intent; pi_nullifier1 intent].

Definition output_commitments (intent : PrivateTransferIntentV2) : list NoteCommitmentV2 :=
  [out_commitment (pi_output0 intent); out_commitment (pi_output1 intent)].

(** The first input that is already spent, with its index. *)
Fixpoint first_spent (tree : NullifierSparseTreeStateV1) (index : Z) (nullifiers : list NullifierV2) : option Z :=
  match nullifiers with
  | [] => None
  | nullifier :: nullifiers => if is_spent tree nullifier then Some index else first_spent tree (index + 1) nullifiers
  end.

Section Transition.
Context `{Sha2} (tree : P24Manifest) {E : Type} (sparse : SparseManifest E).

Abbreviation TransitionError := (option (CandidatePrivateStateTransitionV2Error E)).

Definition rebuild_anchor (anchor : PrivateStateAnchorV2) (snapshot : CandidatePrivateStateSnapshotV1)
    (nullifier_tree : NullifierSparseTreeStateV1) : Result TransitionError PrivateStateAnchorV2 :=
  map_err (option_map CandidatePrivateStateTransitionV2Error.PreAnchor)
    (anchor2_new tree sparse (a2_genesis_id anchor) (a2_validation_context_id anchor)
       (a2_note_tree_parameters anchor) snapshot nullifier_tree).

(** [CandidatePrivateStateTransitionV2::apply]. *)
Definition transition_apply (pre_anchor : PrivateStateAnchorV2) (pre_snapshot : CandidatePrivateStateSnapshotV1)
    (pre_tree : NullifierSparseTreeStateV1) (intent : PrivateTransferIntentV2) (reference : Poseidon2P24Reference)
    : Result TransitionError CandidatePrivateStateTransitionV2 :=
  rebuilt_pre_anchor ← rebuild_anchor pre_anchor pre_snapshot pre_tree;
  _ ← ensure (bool_decide (rebuilt_pre_anchor = pre_anchor))
        (Some CandidatePrivateStateTransitionV2Error.PreAnchorMismatch);
  _ ← map_err (fun e => Some (CandidatePrivateStateTransitionV2Error.Intent e))
        (assert_matches_intent pre_anchor intent);
  _ ← match first_spent pre_tree 0 (intent_nullifiers intent) with
      | Some index => Err (Some (CandidatePrivateStateTransitionV2Error.InputAlreadySpent index))
      | None => Ok tt
      end;
  post_tree ← map_err (option_map CandidatePrivateStateTransitionV2Error.SparseTree)
                (spend_all (intent_nullifiers intent) pre_tree);
  post_snapshot ← map_err (option_map CandidatePrivateStateTransitionV2Error.Snapshot)
                    (snapshot_new tree reference (sn_commitments pre_snapshot ++ output_commitments intent)
                       (sn_spent_nullifiers pre_snapshot ++ intent_nullifiers intent));
  post_anchor ← rebuild_anchor pre_anchor post_snapshot post_tree;
  Ok (mk_CandidatePrivateStateTransitionV2 pre_anchor post_anchor post_snapshot post_tree).

(** [revalidate]: the comparisons stop at the first difference, so the roots are
    computed only if the anchors and snapshots agree. *)
Definition transition_revalidate (self : CandidatePrivateStateTransitionV2) (pre_anchor : PrivateStateAnchorV2)
    (pre_snapshot : CandidatePrivateStateSnapshotV1) (pre_tree : NullifierSparseTreeStateV1)
    (intent : PrivateTransferIntentV2) (reference : Poseidon2P24Reference) : Result TransitionError unit :=
  expected ← transition_apply pre_anchor pre_snapshot pre_tree intent reference;
  if negb (bool_decide (tr_pre_anchor expected = tr_pre_anchor self)) ||
     negb (bool_decide (tr_post_anchor expected = tr_post_anchor self)) ||
     negb (bool_decide (tr_post_snapshot expected = tr_post_snapshot self))
  then Err (Some CandidatePrivateStateTransitionV2Error.PostStateMismatch)
  else
    expected_root ← map_err (option_map CandidatePrivateStateTransitionV2Error.SparseTree)
                      (tree_root (tr_post_tree expected));
    own_root ← map_err (option_map CandidatePrivateStateTransitionV2Error.SparseTree)
                 (tree_root (tr_post_tree self));
    if negb (bool_decide (expected_root = own_root)) ||
       negb (nt_spent_count (tr_post_tree expected) =? nt_spent_count (tr_post_tree self))
    then Err (Some CandidatePrivateStateTransitionV2Error.PostStateMismatch)
    else Ok tt.

End Transition.
