(* ===== verification/PrivateLedger.v ===== *)
(** * The candidate private ledger ([noxis-private-state/src/ledger])

    The asset register and the three components of the private state, the admission
    of a transfer and its authorization seam.  The verifier of the authorization is
    injected by the caller: [CandidatePrivateTransferAuthorizer] is the trait. *)

From Stdlib Require Import Strings.Byte.
From stdpp Require Import gmap.
From S2P Require Import Prelude Arrays Sha256 Types Privacy Poseidon2 NullifierTree PrivateState.

(** ** Errors ([error.rs]) *)

Module CandidatePrivateTransferAuthorizationError.
Inductive CandidatePrivateTransferAuthorizationError : Type := Rejected.
End CandidatePrivateTransferAuthorizationError.
Abbreviation CandidatePrivateTransferAuthorizationError :=
  CandidatePrivateTransferAuthorizationError.CandidatePrivateTransferAuthorizationError.

Module CandidatePrivateLedgerError.
Inductive CandidatePrivateLedgerError (E : Type) : Type :=
| StateConstruction (error : PrivateStateAnchorV2Error E)
| AssetAlreadyRegistered (asset_id : AssetId)
| UnknownAsset (asset_id : AssetId)
| StateTransition (error : CandidatePrivateStateTransitionV2Error E)
| Authorization (error : CandidatePrivateTransferAuthorizationError).
Arguments StateConstruction {E} error.
Arguments AssetAlreadyRegistered {E} asset_id.
Arguments UnknownAsset {E} asset_id.
Arguments StateTransition {E} error.
Arguments Authorization {E} error.
End CandidatePrivateLedgerError.
Abbreviation CandidatePrivateLedgerError := CandidatePrivateLedgerError.CandidatePrivateLedgerError.

(** ** State ([model.rs]) *)

Record CandidatePrivateTransferRequestV1 (A : Type) : Type := mk_CandidatePrivateTransferRequestV1 {
  rq_intent : PrivateTransferIntentV2;
  rq_authorization : A
}.
Arguments mk_CandidatePrivateTransferRequestV1 {A} rq_intent rq_authorization.
Arguments rq_intent {A} _.
Arguments rq_authorization {A} _.

Class CandidatePrivateTransferAuthorizer (A : Type) : Type := {
  authorizer_verify : A -> PrivateStateAnchorV2 -> NullifierSparseTreeStateV1 -> PrivateTransferIntentV2 ->
    Result CandidatePrivateTransferAuthorizationError unit
}.

Record CandidatePrivateTransferAdmissionReceiptV1 : Type := mk_CandidatePrivateTransferAdmissionReceiptV1 {
  rc_pre_state_id : StateId;
  rc_post_state_id : StateId;
  rc_asset_id : AssetId;
  rc_input_nullifiers : list NullifierV2;
  rc_output_commitments : list NoteCommitmentV2
}.

Record CandidatePrivateLedgerStateV1 : Type := mk_CandidatePrivateLedgerStateV1 {
  pl_assets : gmap AssetId AssetDefinition;
  pl_snapshot : CandidatePrivateStateSnapshotV1;
  pl_nullifier_tree : NullifierSparseTreeStateV1;
  pl_anchor : PrivateStateAnchorV2
}.

Section Ledger.
Context `{Sha2} (tree : P24Manifest) {E : Type} (sparse : SparseManifest E).

Abbreviation LedgerError := (option (CandidatePrivateLedgerError E)).

(** [CandidatePrivateLedgerStateV1::new]. *)
Definition ledger_new (genesis_id : GenesisId) (validation_context_id : ValidationContextId)
    (note_tree_parameters : TreeParametersV2) (snapshot : CandidatePrivateStateSnapshotV1)
    (nullifier_tree : NullifierSparseTreeStateV1) : Result LedgerError CandidatePrivateLedgerStateV1 :=
  anchor ← map_err (option_map CandidatePrivateLedgerError.StateConstruction)
             (anchor2_new tree sparse genesis_id validation_context_id note_tree_parameters snapshot nullifier_tree);
  Ok (mk_CandidatePrivateLedgerStateV1 ∅ snapshot nullifier_tree anchor).

(** ** Admission ([invariants.rs], [mutation.rs]) *)

Definition register_asset (asset : AssetDefinition) : M CandidatePrivateLedgerStateV1 LedgerError unit :=
  self ← get;
  _ ← lift (ensure (negb (bool_decide (is_Some (pl_assets self !! asset_id asset))))
              (Some (CandidatePrivateLedgerError.AssetAlreadyRegistered (asset_id asset))));
  put (mk_CandidatePrivateLedgerStateV1 (<[asset_id asset := asset]> (pl_assets self)) (pl_snapshot self)
         (pl_nullifier_tree self) (pl_anchor self)).

Context {A : Type} `{!CandidatePrivateTransferAuthorizer A}.

Definition prepare_transfer (self : CandidatePrivateLedgerStateV1) (request : CandidatePrivateTransferRequestV1 A)
    : Result LedgerError CandidatePrivateStateTransitionV2 :=
  let intent := rq_intent request in
  _ ← ensure (bool_decide (is_Some (pl_assets self !! pi_asset_id intent)))
        (Some (CandidatePrivateLedgerError.UnknownAsset (pi_asset_id intent)));
  reference ← map_err (fun e => Some (CandidatePrivateLedgerError.StateTransition
                  (CandidatePrivateStateTransitionV2Error.Snapshot (CandidatePrivateStateError.Tree e))))
                (load_reference tree);
  transition ← map_err (option_map CandidatePrivateLedgerError.StateTransition)
                 (transition_apply tree sparse (pl_anchor self) (pl_snapshot self) (pl_nullifier_tree self)
                    intent reference);
  _ ← map_err (fun e => Some (CandidatePrivateLedgerError.Authorization e))
        (authorizer_verify (rq_authorization request) (pl_anchor self) (pl_nullifier_tree self) intent);
  _ ← map_err (option_map CandidatePrivateLedgerError.StateTransition)
        (transition_revalidate tree sparse transition (pl_anchor self) (pl_snapshot self)
           (pl_nullifier_tree self) intent reference);
  Ok transition.

Definition apply_transfer (request : CandidatePrivateTransferRequestV1 A)
    : M CandidatePrivateLedgerStateV1 LedgerError CandidatePrivateTransferAdmissionReceiptV1 :=
  self ← get;
  transition ← lift (prepare_transfer self request);
  let intent := rq_intent request in
  let receipt := mk_CandidatePrivateTransferAdmissionReceiptV1 (a2_state_id (tr_pre_anchor transition))
    (a2_state_id (tr_post_anchor transition)) (pi_asset_id intent) (intent_nullifiers intent)
    (output_commitments intent) in
  _ ← put (mk_CandidatePrivateLedgerStateV1 (pl_assets self) (tr_post_snapshot transition)
             (tr_post_tree transition) (tr_post_anchor transition));
  mret receipt.

End Ledger.
