(* ===== verification/PrivateStateFacts.v ===== *)
(** * Facts about the private state

    The snapshot's root is the root of the complete note tree, the anchors bind what
    they name, and a transition is the append of two notes and the spending of two
    nullifiers. *)

From Stdlib Require Import Strings.Byte Strings.String.
From stdpp Require Import gmap.
From S2P Require Import Prelude Arrays Sha256 Types Privacy BabyBear Poseidon2 Poseidon2Facts FullTree.
From S2P Require Import TreeManifest TreeManifestFacts NoteTreeFacts NullifierTree NullifierTreeFacts PrivateState.

#[local] Opaque P24_TREE_DEPTH NULLIFIER_SPARSE_TREE_DEPTH_V1 full_root empty_node.

(** ** Levels kept in a map *)

Lemma elem_of_btree_set i s : i ∈ btree_set s <-> i ∈ s.
Proof. unfold btree_set. rewrite merge_sort_Permutation. apply elem_of_elements. Qed.

(** A loop that inserts one computed value per key. *)
Lemma try_fold_insert {E D} (f : Z -> Result E D) (g : Z -> D) ps (acc : gmap Z D) :
  (forall p, p ∈ ps -> f p = Ok (g p)) ->
  exists next, try_fold (fun next p => d ← f p; Ok (<[p := d]> next)) acc ps = Ok next /\
    forall i, next !! i = if bool_decide (i ∈ ps) then Some (g i) else acc !! i.
Proof.
  revert acc. induction ps as [|p ps IH]; intros acc Hf; cbn [try_fold].
  - exists acc. split; [done|]. intros i. rewrite bool_decide_false; [done|]. apply not_elem_of_nil.
  - rewrite Hf by (by left). cbn [mbind result_bind].
    destruct (IH (<[p := g p]> acc)) as (next & -> & Hn); [intros q Hq; apply Hf; by right|].
    exists next. split; [done|]. intros i. rewrite Hn. destruct (decide (i = p)) as [->|Hne].
    + rewrite (bool_decide_true (p ∈ p :: ps)) by (by left). rewrite lookup_insert_eq. by case_bool_decide.
    + rewrite lookup_insert_ne by done. erewrite bool_decide_ext; [done|]. set_solver.
Qed.

Lemma shiftl_double p : Z.shiftl p 1 = 2 * p.
Proof. rewrite Z.shiftl_mul_pow2 by lia. lia. Qed.

Lemma lor_double p : Z.lor (Z.shiftl p 1) 1 = 2 * p + 1.
Proof.
  rewrite shiftl_double. assert (H0 : Z.land (2 * p) 1 = 0).
  { change 1 with (Z.ones 1). rewrite Z.land_ones by lia. change (2 ^ 1) with 2. rewrite Z.mul_comm. apply Z_mod_mult. }
  by rewrite <-Z.lxor_lor, <-Z.add_nocarry_lxor.
Qed.

Lemma shiftr_half i b : 0 <= b < 2 -> Z.shiftr (2 * i + b) 1 = i.
Proof.
  intros Hb. rewrite Z.shiftr_div_pow2 by lia. change (2 ^ 1) with 2. symmetry.
  apply (Z.div_unique_pos _ _ _ b); lia.
Qed.

Lemma shiftr_children k : k = 2 * Z.shiftr k 1 \/ k = 2 * Z.shiftr k 1 + 1.
Proof.
  rewrite Z.shiftr_div_pow2 by lia. change (2 ^ 1) with 2. pose proof (Z.div_mod k 2). pose proof (Z.mod_pos_bound k 2).
  lia.
Qed.

Section NoteRoot.
Context (m : P24Manifest) `{!P24ManifestLaws m} (payload : list byte) (self : Poseidon2P24Reference).
Context (Hpayload : parameter_payload m = Ok payload) (Hload : load_reference m = Ok self).

Abbreviation node_of := (node_value m self).
Abbreviation base_of := (empty_base m self).
Abbreviation empty_of := (empty_node node_of base_of).

(** Keys are positions and values digests. *)
Definition nodes_wf (nodes : gmap Z BabyBearDigestV2) : Prop :=
  forall i d, nodes !! i = Some d -> 0 <= i /\ digest_wf d.

Lemma default_wf (o : option BabyBearDigestV2) height :
  (forall d, o = Some d -> digest_wf d) -> digest_wf (default (empty_of height) o).
Proof. destruct o; cbn; [by auto|]. intros _. by eapply empty_at_wf. Qed.

Lemma next_nodes_exact leaf height nodes :
  level_of node_of leaf base_of height (fun i => nodes !! i) -> nodes_wf nodes ->
  exists next, next_nodes m self nodes (empty_of height) = Ok next /\ nodes_wf next /\
    level_of node_of leaf base_of (S height) (fun i => next !! i) /\
    (is_Some (nodes !! 0) -> is_Some (next !! 0)).
Proof.
  intros Hlevel Hw. unfold next_nodes. cbv zeta. set (ps := btree_set _).
  assert (Hps : forall i, i ∈ ps <-> is_Some (nodes !! (2 * i)) \/ is_Some (nodes !! (2 * i + 1))).
  { intros i. unfold ps. rewrite elem_of_btree_set, elem_of_map. setoid_rewrite elem_of_dom. split.
    - intros (k & -> & Hk). destruct (shiftr_children k) as [He|He]; [left|right]; by rewrite <-He.
    - intros [Hs|Hs]; eexists; (split; [|exact Hs]); [by rewrite <-(shiftr_half i 0), Z.add_0_r at 1|].
      by rewrite shiftr_half. }
  set (value := fun p => node_of (default (empty_of height) (nodes !! (2 * p)))
                           (default (empty_of height) (nodes !! (2 * p + 1)))).
  assert (Hvw : forall p, digest_wf (value p) /\ reference_node self m
    (default (empty_of height) (nodes !! (2 * p))) (default (empty_of height) (nodes !! (2 * p + 1))) = Ok (value p)).
  { intros p. destruct (node_total m payload self Hpayload Hload
      (default (empty_of height) (nodes !! (2 * p))) (default (empty_of height) (nodes !! (2 * p + 1))))
      as (H1 & _ & H2); [apply default_wf; intros d Hd; by eapply Hw..|done]. }
  destruct (try_fold_insert (fun p => reference_node self m
    (default (empty_of height) (nodes !! Z.shiftl p 1))
    (default (empty_of height) (nodes !! Z.lor (Z.shiftl p 1) 1))) value ps ∅) as (next & Hnext & Hlook).
  { intros p _. rewrite lor_double, shiftl_double. apply Hvw. }
  exists next. split_and!; [exact Hnext| | |].
  - intros i d. rewrite Hlook, lookup_empty. case_bool_decide as Hi; [|done]. intros [= <-].
    split; [|apply Hvw]. apply Hps in Hi as [[d Hd]|[d Hd]]; apply Hw in Hd as [Hd _]; lia.
  - apply (level_next _ _ _ _ (fun i => nodes !! i)); [done|]. intros i _. rewrite Hlook, lookup_empty.
    case_bool_decide as Hi; [done|]. rewrite Hps in Hi.
    split; apply eq_None_not_Some; tauto.
  - intros H0. rewrite Hlook, bool_decide_true; [by eexists|]. apply Hps. by left.
Qed.

Lemma map_levels_exact leaf n height nodes :
  level_of node_of leaf base_of height (fun i => nodes !! i) -> nodes_wf nodes -> is_Some (nodes !! 0) ->
  exists last, try_fold (next_nodes m self) nodes (empty_of <$> seq height n) = Ok last /\
    last !! 0 = Some (full_root node_of leaf (height + n) 0).
Proof.
  revert height nodes. induction n as [|n IH]; intros height nodes Hlevel Hw H0; cbn [seq fmap list_fmap try_fold].
  - exists nodes. split; [done|]. rewrite Nat.add_0_r, (Hlevel 0) by done. by destruct H0 as [d ->].
  - destruct (next_nodes_exact leaf height nodes Hlevel Hw) as (next & -> & Hwn & Hln & Hkeep).
    cbn [mbind result_bind]. rewrite Nat.add_succ_r. apply (IH (S height) next Hln Hwn). by apply Hkeep.
Qed.

Lemma vectors_digest_wf vs : Forall vector_wf vs -> Forall digest_wf (elements <$> vs).
Proof. intros Hv. apply Forall_fmap. eapply Forall_impl; [exact Hv|]. apply vector_digest_wf. Qed.

Lemma lookup_indexed {D} (l : list D) k (j : Z) :
  (list_to_map (imap (fun i x => (Z.of_nat (k + i), x)) l) : gmap Z D) !! j =
  if bool_decide (Z.of_nat k <= j) then l !! (Z.to_nat j - k)%nat else None.
Proof.
  revert k. induction l as [|x l IH]; intros k; [by case_bool_decide|].
  rewrite imap_cons, list_to_map_cons, Nat.add_0_r.
  rewrite (imap_ext _ (fun i y => (Z.of_nat (S k + i), y))) by (intros; cbn; do 2 f_equal; lia).
  destruct (decide (j = Z.of_nat k)) as [->|Hne].
  - rewrite lookup_insert_eq, bool_decide_true, Nat2Z.id, Nat.sub_diag by lia. done.
  - rewrite lookup_insert_ne, IH by done. destruct (decide (Z.of_nat k <= j)) as [Hle|Hle].
    + rewrite !bool_decide_true by lia. replace (Z.to_nat j - k)%nat with (S (Z.to_nat j - S k)) by lia. done.
    + by rewrite !bool_decide_false by lia.
Qed.

Lemma empty_note_root : note_root m self [] = empty_of P24_TREE_DEPTH.
Proof. apply full_root_no_leaves. done. Qed.

(** The sparse evaluation of the snapshot computes the root of the complete tree. *)
Lemma root_for_commitments_exact commitments :
  Forall vector_wf commitments ->
  root_for_commitments m self commitments = Ok (note_root m self (elements <$> commitments)).
Proof.
  intros Hc. unfold root_for_commitments. rewrite (empty_values_exact m payload self Hpayload Hload).
  cbn [map_err mbind result_bind].
  assert (Hnth : nth P24_TREE_DEPTH (empty_of <$> seq 0 (S P24_TREE_DEPTH)) [] = empty_of P24_TREE_DEPTH).
  { apply nth_lookup_Some. rewrite list_lookup_fmap, lookup_seq_lt by lia. done. }
  destruct commitments as [|c0 cs]; [|].
  { rewrite Hnth. exact (f_equal Ok (eq_sym empty_note_root)). }
  set (commitments := c0 :: cs) in *.
  destruct (notes_level m payload self Hpayload Hload _ (vectors_digest_wf _ Hc)) as (leaves & Hleaves & -> & Hw & Hlevel).
  assert (Hmap : try_map (fun c => reference_leaf self m (elements c)) commitments =
    Ok (leaf_value m self <$> (elements <$> commitments))).
  { apply try_map_Forall2. apply try_map_Forall2 in Hleaves. apply Forall2_fmap_l in Hleaves. exact Hleaves. }
  rewrite Hmap. cbn [map_err mbind result_bind]. set (leaves := leaf_value m self <$> (elements <$> commitments)) in *.
  assert (Hlook : forall i : Z, 0 <= i ->
    (list_to_map (imap (fun index leaf => (Z.of_nat index, leaf)) leaves) : gmap Z BabyBearDigestV2) !! i =
    leaves !! Z.to_nat i).
  { intros i Hi. etransitivity; [apply (lookup_indexed leaves 0 i)|].
    by rewrite bool_decide_true, Nat.sub_0_r by lia. }
  set (nodes := list_to_map _) in *.
  assert (Hnodes : nodes_wf nodes).
  { intros i d Hd. destruct (decide (0 <= i)) as [Hi|Hi].
    - split; [done|]. rewrite Hlook in Hd by done. rewrite Forall_lookup in Hw. by eapply Hw.
    - exfalso. assert (Hnone : nodes !! i = None); [|congruence].
      etransitivity; [apply (lookup_indexed leaves 0 i)|]. by rewrite bool_decide_false by lia. }
  destruct (map_levels_exact (note_leaf m self (elements <$> commitments)) P24_TREE_DEPTH 0 nodes)
    as (last & Hlast & H0).
  - intros i Hi. rewrite Hlook by done. by apply Hlevel.
  - done.
  - rewrite Hlook by done. by eexists.
  - replace (take P24_TREE_DEPTH (empty_of <$> seq 0 (S P24_TREE_DEPTH))) with (empty_of <$> seq 0 P24_TREE_DEPTH).
    + rewrite Hlast. cbn [map_err mbind result_bind]. rewrite H0. reflexivity.
    + rewrite <-fmap_take, take_seq. by rewrite Nat.min_l by lia.
Qed.

End NoteRoot.

(** ** Snapshots *)

Lemma size_list_to_set_le {A} `{Countable A} (l : list A) : (size (list_to_set l : gset A) <= length l)%nat.
Proof.
  induction l as [|x l IH]; [done|]. cbn [list_to_set length].
  pose proof (size_union_alt ({[x]} : gset A) (list_to_set l)) as Hs.
  rewrite Hs, size_singleton. pose proof (subseteq_size (list_to_set l ∖ {[x]} : gset A) (list_to_set l)
    ltac:(set_solver)). lia.
Qed.

Lemma size_list_to_set_NoDup {A} `{Countable A} (l : list A) :
  size (list_to_set l : gset A) = length l <-> NoDup l.
Proof.
  split; [|apply size_list_to_set]. induction l as [|x l IH]; [constructor|]. cbn [list_to_set length]. intros Hs.
  pose proof (size_list_to_set_le l) as Hle. destruct (decide (x ∈ l)) as [Hx|Hx].
  - rewrite subseteq_union_1_L in Hs by set_solver. lia.
  - constructor; [done|]. apply IH. rewrite size_union, size_singleton in Hs by set_solver. lia.
Qed.

Lemma adjacent_equal_sorted l :
  StronglySorted array_le l -> adjacent_equal l = negb (strictly_sorted l).
Proof.
  induction 1 as [|a l Hs IH Hall]; [done|]. destruct l as [|b l]; [done|].
  change (bool_decide (a = b) || adjacent_equal (b :: l) =
    negb (bool_decide (array_lt a b) && strictly_sorted (b :: l))). rewrite IH. apply Forall_cons in Hall as [Hab _].
  apply array_le_lt_eq in Hab as [Hlt| ->].
  - rewrite (bool_decide_true (array_lt a b)) by done. rewrite bool_decide_false; [done|].
    intros ->. by apply (irreflexivity array_lt b).
  - rewrite (bool_decide_true (b = b)) by done. rewrite bool_decide_false; [done|].
    intros Hlt. by apply (irreflexivity array_lt b).
Qed.

Lemma sorted_nullifiers (l : list NullifierV2) : adjacent_equal (sort_by_key id l) = false <-> NoDup l.
Proof.
  rewrite adjacent_equal_sorted by apply sort_by_key_Sorted. rewrite negb_false_iff. split.
  - intros Hs%strictly_sorted_NoDup. by rewrite (sort_by_key_Permutation id l) in Hs.
  - intros Hnd. rewrite <-(list_fmap_id (sort_by_key id l)). apply sort_by_key_strict. by rewrite list_fmap_id.
Qed.

Section Snapshot.
Context (m : P24Manifest) `{!P24ManifestLaws m} (self : Poseidon2P24Reference) (Hload : load_reference m = Ok self).

Lemma loaded_payload : exists payload, parameter_payload m = Ok payload.
Proof.
  destruct (parameter_payload m) as [payload|e] eqn:Hp; [by exists payload|].
  unfold load_reference in Hload. by rewrite Hp in Hload.
Qed.

(** The root of the complete tree over a list of commitments. *)
Abbreviation commitments_root commitments := (note_root m self (elements <$> commitments)).

Record snapshot_wf (sn : CandidatePrivateStateSnapshotV1) : Prop := mk_snapshot_wf {
  snw_commitments : Forall vector_wf (sn_commitments sn);
  snw_bound : len (sn_commitments sn) <= CANDIDATE_PRIVATE_STATE_MAX_NOTES;
  snw_distinct : NoDup (sn_commitments sn);
  snw_sorted : strictly_sorted (sn_spent_nullifiers sn) = true;
  snw_root : elements (sn_root sn) = commitments_root (sn_commitments sn)
}.

Lemma commitments_root_wf commitments :
  Forall vector_wf commitments -> digest_wf (commitments_root commitments).
Proof.
  intros Hc. destruct loaded_payload as [payload Hp]. unfold note_root.
  eapply full_root_wf; [done..|]. intros i. eapply note_leaf_wf; [done..|]. by apply vectors_digest_wf.
Qed.

Lemma snapshot_new_digest commitments nullifiers sn digest :
  root_for_commitments m self commitments = Ok digest -> digest_wf digest ->
  snapshot_new m self commitments nullifiers = Ok sn <->
  len commitments <= CANDIDATE_PRIVATE_STATE_MAX_NOTES /\ NoDup commitments /\ NoDup nullifiers /\
  sn_commitments sn = commitments /\ sn_spent_nullifiers sn = sort_by_key id nullifiers /\
  elements (sn_root sn) = digest.
Proof.
  intros Hdigest Hw. unfold snapshot_new. cbv zeta. rewrite Hdigest.
  destruct (from_elements_total digest Hw) as (root & Hroot & Hel).
  cbn [mbind result_bind]. rewrite Hroot. cbn [map_err mbind result_bind].
  destruct (Z.ltb_spec CANDIDATE_PRIVATE_STATE_MAX_NOTES (len commitments)); [split; [done|lia]|].
  destruct (Nat.eqb_spec (size (list_to_set commitments : gset NoteCommitmentV2)) (length commitments)) as [Hs|Hs];
    cbn [negb]; [|split; [done|]; by intros (_ & Hnd & _); apply size_list_to_set_NoDup in Hnd].
  apply size_list_to_set_NoDup in Hs. destruct (adjacent_equal (sort_by_key id nullifiers)) eqn:Ha.
  - split; [done|]. intros (_ & _ & Hnd & _). apply sorted_nullifiers in Hnd. congruence.
  - apply sorted_nullifiers in Ha. split.
    + by intros [= <-].
    + intros (_ & _ & _ & H1 & H2 & H3). destruct sn. cbn in *. subst. do 2 f_equal.
      apply elements_inj. congruence.
Qed.

(** A snapshot is built exactly from at most 1024 distinct commitments and distinct
    nullifiers; it keeps the commitments in order, sorts the nullifiers and carries
    the root of the complete depth-32 tree over the commitments. *)
Lemma snapshot_new_Ok commitments nullifiers sn :
  Forall vector_wf commitments ->
  snapshot_new m self commitments nullifiers = Ok sn <->
  len commitments <= CANDIDATE_PRIVATE_STATE_MAX_NOTES /\ NoDup commitments /\ NoDup nullifiers /\
  sn_commitments sn = commitments /\ sn_spent_nullifiers sn = sort_by_key id nullifiers /\
  elements (sn_root sn) = commitments_root commitments.
Proof.
  intros Hc. destruct loaded_payload as [payload Hp].
  apply snapshot_new_digest; [exact (root_for_commitments_exact m payload self Hp Hload _ Hc)|].
  exact (commitments_root_wf _ Hc).
Qed.

End Snapshot.

(** ** Spending a list of nullifiers *)

Section Spending.
Context {E : Type} (r : NullifierSparseTreeReferenceV1) (Hr : sparse_wf r).
Context (Hvalues : @derive_empty_values E r = Ok (sparse_empty_values r)).

Lemma mark_spent_Ok st spent n update st' :
  @represents E r st spent -> @mark_spent E n st = (Ok update, st') ->
  n ∉ spent /\ @represents E r st' ({[n]} ∪ spent).
Proof.
  intros Hst Hm. destruct (decide (n ∈ spent)) as [Hn|Hn].
  { rewrite (mark_spent_again r Hr Hvalues st spent n Hst Hn) in Hm. done. }
  split; [done|]. destruct (decide (Z.of_nat (size spent) < U64_MAX)) as [Hs|Hs].
  - destruct (mark_spent_fresh r Hr Hvalues st spent n Hst Hn Hs) as (u & s & Hm' & Hrep & _).
    rewrite Hm in Hm'. by injection Hm' as <- <-.
  - exfalso. revert Hm. unfold mark_spent.
    destruct (tree_root_exact r Hr Hvalues st spent Hst) as (previous & Hprev & _).
    destruct (root_from_elements_total (E := E) (sparse_root (E := E) r ({[n]} ∪ spent))) as (root & Hroot & _);
      [by apply sparse_root_wf|].
    assert (Hfresh : is_spent st n = false).
    { destruct (is_spent st n) eqn:Hsp; [|done]. by apply (is_spent_exact r st spent Hst) in Hsp. }
    assert (Hcount : checked_add U64_MAX (nt_spent_count st) 1 = None).
    { apply checked_add_None. rewrite (rep_count _ _ _ Hst). lia. }
    msimpl. rewrite Hprev. msimpl. rewrite Hfresh. msimpl.
    rewrite (prepare_spend_exact r Hr Hvalues st spent Hst n). msimpl.
    cbn [from_reference map_err]. rewrite (last_spent_nodes r spent n). msimpl. rewrite Hroot. cbn [map_err].
    msimpl. rewrite Hcount. msimpl. done.
Qed.

Lemma spend_all_Ok ns st spent st' :
  @represents E r st spent -> @spend_all E ns st = Ok st' ->
  NoDup ns /\ (forall n, n ∈ ns -> n ∉ spent) /\ @represents E r st' (list_to_set ns ∪ spent).
Proof.
  unfold spend_all. revert st spent. induction ns as [|n ns IH]; intros st spent Hst.
  - cbn. intros [= <-]. split_and!; [constructor|by intros n ?%not_elem_of_nil|]. by rewrite union_empty_l_L.
  - cbn [mark_all_spent]. rewrite M_bind_eq.
    destruct (mark_spent n st) as [[u|e] s] eqn:Hm; [|done]. intros Hok.
    destruct (mark_spent_Ok _ _ _ _ _ Hst Hm) as [Hn Hs]. destruct (IH s _ Hs Hok) as (Hnd & Hfresh & Hrep).
    split_and!.
    + constructor; [|done]. intros Hin. apply Hfresh in Hin. set_solver.
    + intros x [->|Hx]%elem_of_cons; [done|]. apply Hfresh in Hx. set_solver.
    + cbn [list_to_set]. replace ({[n]} ∪ list_to_set ns ∪ spent) with (list_to_set ns ∪ ({[n]} ∪ spent) : gset NullifierV2)
        by set_solver. done.
Qed.

Lemma spend_all_fresh ns st spent :
  @represents E r st spent -> NoDup ns -> (forall n, n ∈ ns -> n ∉ spent) ->
  Z.of_nat (size spent) + len ns <= U64_MAX ->
  exists st', @spend_all E ns st = Ok st' /\ @represents E r st' (list_to_set ns ∪ spent).
Proof.
  unfold spend_all. revert st spent. induction ns as [|n ns IH]; intros st spent Hst Hnd Hfresh Hsize.
  - exists st. cbn. split; [done|]. by rewrite union_empty_l_L.
  - apply NoDup_cons in Hnd as [Hn Hnd]. cbn [length] in Hsize. cbn [mark_all_spent]. rewrite M_bind_eq.
    destruct (mark_spent_fresh r Hr Hvalues st spent n Hst ltac:(apply Hfresh; by left) ltac:(lia))
      as (u & s & -> & Hs & _).
    destruct (IH s ({[n]} ∪ spent) Hs Hnd) as (st' & Hok & Hrep).
    + intros x Hx. assert (x <> n) by (intros ->; done). assert (x ∉ spent) by (apply Hfresh; by right). set_solver.
    + rewrite size_union, size_singleton by (pose proof (Hfresh n ltac:(by left)); set_solver). lia.
    + exists st'. split; [done|]. cbn [list_to_set].
      replace ({[n]} ∪ list_to_set ns ∪ spent) with (list_to_set ns ∪ ({[n]} ∪ spent) : gset NullifierV2)
        by set_solver. done.
Qed.

End Spending.
