(* ===== verification/PrivateTransitionFacts.v ===== *)
(** * Facts about anchors and transitions

    With the frozen artifacts loaded, an anchor is a function of the state it is
    built from, its frame determines what it binds, and a transition appends the
    outputs and spends the inputs of an intent. *)

From Stdlib Require Import Strings.Byte Strings.String.
From stdpp Require Import gmap.
From S2P Require Import Prelude Arrays Sha256 Types Privacy Poseidon2 Poseidon2Facts TreeManifestFacts NoteTreeFacts.
From S2P Require Import NullifierTree NullifierTreeFacts PrivateState PrivateStateFacts.

#[local] Opaque P24_TREE_DEPTH NULLIFIER_SPARSE_TREE_DEPTH_V1.

(** ** Frames *)

(** A frame is cut at fixed offsets. *)
Lemma app_inj_length {A} (x1 x2 y1 y2 : list A) :
  length x1 = length x2 -> x1 ++ y1 = x2 ++ y2 -> x1 = x2 /\ y1 = y2.
Proof. intros Hl He. by apply app_inj_1 in He. Qed.

(** Splits an equation between concatenations of fields of fixed width. *)
Ltac split_frame H :=
  repeat (apply app_inj_length in H as [? H];
          [|rewrite ?length_arr, ?length_to_be_bytes, ?length_fmap, ?length_replicate; reflexivity]).

Record anchor2_typed (a : PrivateStateAnchorV2) : Prop := mk_anchor2_typed {
  a2t_leaf : in_range U64_MAX (a2_next_leaf_index a);
  a2t_count : in_range U64_MAX (a2_spent_nullifier_count a)
}.

Lemma to_be_bytes_8_inj a b :
  in_range U64_MAX a -> in_range U64_MAX b -> to_be_bytes 8 a = to_be_bytes 8 b -> a = b.
Proof.
  intros Ha Hb He. apply (f_equal from_be_bytes) in He. rewrite !from_to_be_bytes in He.
  change (256 ^ Z.of_nat 8) with (U64_MAX + 1) in He. unfold in_range in *. rewrite !Z.mod_small in He; lia.
Qed.

(** The frame determines every field of the anchor but the identity. *)
Lemma anchor2_encode_inj a b :
  anchor2_typed a -> anchor2_typed b -> anchor2_encode a = anchor2_encode b ->
  a2_genesis_id a = a2_genesis_id b /\ a2_validation_context_id a = a2_validation_context_id b /\
  a2_note_tree_parameters a = a2_note_tree_parameters b /\
  a2_nullifier_tree_candidate a = a2_nullifier_tree_candidate b /\
  a2_next_leaf_index a = a2_next_leaf_index b /\ a2_note_root a = a2_note_root b /\
  a2_spent_nullifier_count a = a2_spent_nullifier_count b /\ a2_nullifier_root a = a2_nullifier_root b.
Proof.
  intros [Hla Hca] [Hlb Hcb] He. unfold anchor2_encode in He. split_frame He.
  split_and!; try (by apply arr_inj); try (by apply to_be_bytes_8_inj).
  destruct (a2_note_tree_parameters a), (a2_note_tree_parameters b). f_equal. by apply arr_inj.
Qed.

(** ** Anchors *)

Section Loaded.
Context `{Sha2} (tree : P24Manifest) `{!P24ManifestLaws tree} {E : Type} (sparse : SparseManifest E).
Context `{!SparseManifestLaws sparse} (reference : Poseidon2P24Reference) (Hload : load_reference tree = Ok reference).
Context (r : NullifierSparseTreeReferenceV1) (Hsparse : load_sparse_reference tree sparse = Ok r).
Context (candidate : array 32) (Hcandidate : sparse_candidate_id sparse = Ok candidate).

Abbreviation represents := (@represents E r).
Abbreviation sparse_root := (@sparse_root E r).

Lemma sparse_loaded : sparse_wf r /\ @derive_empty_values E r = Ok (sparse_empty_values r).
Proof. exact (load_sparse_wf tree sparse r Hsparse). Qed.

(** The set a snapshot has spent. *)
Definition spent_set (sn : CandidatePrivateStateSnapshotV1) : gset NullifierV2 :=
  list_to_set (sn_spent_nullifiers sn).

(** The anchor of a deployment, a snapshot and a nullifier root. *)
Definition anchor_of (genesis : GenesisId) (context : ValidationContextId) (parameters : TreeParametersV2)
    (sn : CandidatePrivateStateSnapshotV1) (root : NullifierSparseRootV1) : PrivateStateAnchorV2 :=
  let anchor := mk_PrivateStateAnchorV2 genesis context parameters candidate (len (sn_commitments sn)) (sn_root sn)
    (len (sn_spent_nullifiers sn)) root in
  anchor (sha256 (PRIVATE_STATE_NXSM_ANCHOR_ID_DOMAIN ++ anchor2_encode (anchor zero_state_id))).

Lemma size_spent_set sn :
  strictly_sorted (sn_spent_nullifiers sn) = true -> Z.of_nat (size (spent_set sn)) = len (sn_spent_nullifiers sn).
Proof. intros Hs. unfold spent_set. by rewrite size_list_to_set by (by apply strictly_sorted_NoDup). Qed.

Lemma new_candidate_Ok :
  exists st, @new_candidate E tree sparse = Ok st /\ represents st ∅.
Proof.
  assert (Hnew : @new_candidate E tree sparse = Ok (mk_NullifierSparseTreeStateV1 r ∅ 0)).
  { unfold new_candidate. by rewrite Hsparse. }
  exists (mk_NullifierSparseTreeStateV1 r ∅ 0). split; [done|].
  apply (new_candidate_represents tree sparse) in Hnew as [_ Hrep]. exact Hrep.
Qed.

Lemma verify_snapshot_tree_exact sn nt :
  strictly_sorted (sn_spent_nullifiers sn) = true -> represents nt (spent_set sn) ->
  exists root, verify_snapshot_tree tree sparse sn nt = Ok root /\ elements root = sparse_root (spent_set sn).
Proof.
  intros Hs Hnt. destruct sparse_loaded as [Hr Hv]. unfold verify_snapshot_tree. cbv zeta.
  pose proof (rep_count _ _ _ Hnt) as Hcount. rewrite (size_spent_set sn Hs) in Hcount.
  rewrite Hcount, Z.eqb_refl. cbn [ensure mbind result_bind].
  destruct new_candidate_Ok as (st & -> & Hst). cbn [from_tree_state map_err mbind result_bind].
  destruct (spend_all_fresh r Hr Hv (sn_spent_nullifiers sn) st ∅ Hst) as (rebuilt & -> & Hrebuilt).
  { by apply strictly_sorted_NoDup. }
  { intros n _. apply not_elem_of_empty. }
  { rewrite size_empty, <-Hcount. pose proof (rep_range _ _ _ Hnt). lia. }
  cbn [from_tree_state map_err mbind result_bind]. rewrite union_empty_r_L in Hrebuilt.
  rewrite <-(represents_unique r nt rebuilt (spent_set sn) Hnt Hrebuilt).
  destruct (tree_root_exact r Hr Hv nt (spent_set sn) Hnt) as (root & -> & Hroot).
  cbn [from_tree_state map_err mbind result_bind]. rewrite bool_decide_true by done. by exists root.
Qed.

Lemma anchor2_new_exact genesis context parameters sn nt :
  strictly_sorted (sn_spent_nullifiers sn) = true -> represents nt (spent_set sn) ->
  exists root, elements root = sparse_root (spent_set sn) /\
    anchor2_new tree sparse genesis context parameters sn nt = Ok (anchor_of genesis context parameters sn root).
Proof.
  intros Hs Hnt. destruct (verify_snapshot_tree_exact sn nt Hs Hnt) as (root & Hver & Hroot).
  exists root. split; [done|]. unfold anchor2_new. rewrite Hver, Hcandidate. cbn [map_err mbind result_bind].
  rewrite (rep_count _ _ _ Hnt), (size_spent_set sn Hs). done.
Qed.

Lemma anchor2_new_fields genesis context parameters sn nt a :
  anchor2_new tree sparse genesis context parameters sn nt = Ok a ->
  a2_genesis_id a = genesis /\ a2_validation_context_id a = context /\ a2_note_tree_parameters a = parameters.
Proof. unfold anchor2_new. intros Hok. inv_ok. done. Qed.

(** ** Transitions *)

(** A consistent private state: a well-formed snapshot, the tree of its spent
    nullifiers and the anchor built from both. *)
Record private_wf (anchor : PrivateStateAnchorV2) (sn : CandidatePrivateStateSnapshotV1)
    (nt : NullifierSparseTreeStateV1) : Prop := mk_private_wf {
  pw_snapshot : snapshot_wf tree reference sn;
  pw_tree : represents nt (spent_set sn);
  pw_anchor : anchor2_new tree sparse (a2_genesis_id anchor) (a2_validation_context_id anchor)
    (a2_note_tree_parameters anchor) sn nt = Ok anchor
}.

(** What the state asks of an intent. *)
Record admissible (anchor : PrivateStateAnchorV2) (sn : CandidatePrivateStateSnapshotV1)
    (intent : PrivateTransferIntentV2) : Prop := mk_admissible {
  ad_anchor : assert_matches_intent anchor intent = Ok tt;
  ad_fresh : forall n, n ∈ intent_nullifiers intent -> n ∉ spent_set sn;
  ad_outputs : forall c, c ∈ output_commitments intent -> c ∉ sn_commitments sn;
  ad_room : len (sn_commitments sn) + 2 <= CANDIDATE_PRIVATE_STATE_MAX_NOTES
}.

Lemma intent_nullifiers_NoDup intent : intent_wf intent -> NoDup (intent_nullifiers intent).
Proof.
  intros Hi. unfold intent_nullifiers. apply NoDup_cons. split; [|apply NoDup_singleton].
  rewrite list_elem_of_singleton. intros He. pose proof (iw_nullifiers _ Hi) as Hlt. rewrite He in Hlt.
  by apply (irreflexivity array_lt _ Hlt).
Qed.

Lemma output_commitments_NoDup intent : intent_wf intent -> NoDup (output_commitments intent).
Proof.
  intros Hi. unfold output_commitments. apply NoDup_cons. split; [|apply NoDup_singleton].
  rewrite list_elem_of_singleton. intros He. pose proof (iw_outputs _ Hi) as Hlt. rewrite He in Hlt.
  by apply (irreflexivity array_lt _ Hlt).
Qed.

Lemma first_spent_None nt spent index ns :
  represents nt spent -> first_spent nt index ns = None <-> forall n, n ∈ ns -> n ∉ spent.
Proof.
  intros Hnt. revert index. induction ns as [|n ns IH]; intros index; cbn [first_spent].
  - split; [|done]. by intros _ n ?%not_elem_of_nil.
  - destruct (is_spent nt n) eqn:Hs.
    + apply (is_spent_exact r nt spent Hnt) in Hs. split; [done|]. intros Hall. by destruct (Hall n ltac:(by left)).
    + assert (Hn : n ∉ spent) by (intros Hn; apply (is_spent_exact r nt spent Hnt) in Hn; congruence).
      rewrite IH. split.
      * intros Hall x [->|Hx]%elem_of_cons; [done|by apply Hall].
      * intros Hall x Hx. apply Hall. by right.
Qed.

(** The spent set of the appended and sorted list. *)
Lemma spent_set_snoc sn sn' ns :
  sn_spent_nullifiers sn' = sort_by_key id (sn_spent_nullifiers sn ++ ns) ->
  spent_set sn' = list_to_set ns ∪ spent_set sn.
Proof.
  intros He. unfold spent_set. rewrite He. apply set_eq. intros x.
  rewrite elem_of_list_to_set, sort_by_key_Permutation, elem_of_app, elem_of_union, !elem_of_list_to_set. tauto.
Qed.

Lemma snapshot_wf_new commitments nullifiers sn :
  Forall vector_wf commitments -> snapshot_new tree reference commitments nullifiers = Ok sn ->
  snapshot_wf tree reference sn.
Proof.
  intros Hc Hn. apply (snapshot_new_Ok tree reference Hload) in Hn as (Hb & Hd & Hs & H1 & H2 & H3); [|done].
  split; rewrite ?H1; try done. rewrite H2.
  rewrite <-(list_fmap_id (sort_by_key id nullifiers)). apply sort_by_key_strict. by rewrite list_fmap_id.
Qed.

Section Step.
Context (anchor : PrivateStateAnchorV2) (sn : CandidatePrivateStateSnapshotV1) (nt : NullifierSparseTreeStateV1).
Context (intent : PrivateTransferIntentV2) (Hpre : private_wf anchor sn nt) (Hintent : intent_wf intent).

Lemma outputs_wf : Forall vector_wf (sn_commitments sn ++ output_commitments intent).
Proof.
  apply Forall_app_2; [apply Hpre|]. repeat constructor; apply Hintent.
Qed.

Lemma transition_admitted tr :
  transition_apply tree sparse anchor sn nt intent reference = Ok tr ->
  admissible anchor sn intent /\ tr_pre_anchor tr = anchor /\
  private_wf (tr_post_anchor tr) (tr_post_snapshot tr) (tr_post_tree tr) /\
  a2_genesis_id (tr_post_anchor tr) = a2_genesis_id anchor /\
  a2_validation_context_id (tr_post_anchor tr) = a2_validation_context_id anchor /\
  a2_note_tree_parameters (tr_post_anchor tr) = a2_note_tree_parameters anchor /\
  sn_commitments (tr_post_snapshot tr) = sn_commitments sn ++ output_commitments intent /\
  spent_set (tr_post_snapshot tr) = list_to_set (intent_nullifiers intent) ∪ spent_set sn.
Proof.
  destruct sparse_loaded as [Hr Hv]. unfold transition_apply, rebuild_anchor. rewrite (pw_anchor _ _ _ Hpre).
  cbn [map_err mbind result_bind]. rewrite bool_decide_true by done. cbn [ensure mbind result_bind].
  intros Hok. inv_ok. destruct_units. cbn [tr_pre_anchor tr_post_anchor tr_post_snapshot tr_post_tree].
  destruct (first_spent nt 0 (intent_nullifiers intent)) eqn:Hfirst; [done|].
  rename Hx into Hmatch, Hx1 into Hspend, Hx2 into Hsnap, Hx3 into Hpost.
  destruct (spend_all_Ok r Hr Hv _ _ _ _ (pw_tree _ _ _ Hpre) Hspend) as (_ & Hfresh & Htree).
  pose proof (snapshot_wf_new _ _ _ outputs_wf Hsnap) as Hwf.
  apply (snapshot_new_Ok tree reference Hload) in Hsnap as (Hb & Hd & _ & Hcs & Hns & _); [|apply outputs_wf].
  destruct (anchor2_new_fields _ _ _ _ _ _ Hpost) as (Hg & Hc & Hp).
  split_and!; try done.
  - split; try done.
    + intros c Hc1 Hc2. apply NoDup_app in Hd as (_ & Hd & _). by apply (Hd c).
    + rewrite length_app in Hb. cbn [output_commitments length] in Hb. lia.
  - split; [done| |by rewrite Hg, Hc, Hp]. by rewrite (spent_set_snoc _ _ _ Hns).
  - by apply spent_set_snoc.
Qed.

Lemma transition_admits :
  admissible anchor sn intent -> Z.of_nat (size (spent_set sn)) + 2 <= U64_MAX ->
  exists tr, transition_apply tree sparse anchor sn nt intent reference = Ok tr.
Proof.
  intros [Hmatch Hfresh Hout Hroom] Hsize. destruct sparse_loaded as [Hr Hv].
  unfold transition_apply, rebuild_anchor. rewrite (pw_anchor _ _ _ Hpre).
  cbn [map_err mbind result_bind]. rewrite bool_decide_true by done. cbn [ensure mbind result_bind].
  rewrite Hmatch. cbn [map_err mbind result_bind].
  rewrite (proj2 (first_spent_None nt (spent_set sn) 0 _ (pw_tree _ _ _ Hpre))) by done. cbn [mbind result_bind].
  destruct (spend_all_fresh r Hr Hv _ nt _ (pw_tree _ _ _ Hpre) (intent_nullifiers_NoDup _ Hintent) Hfresh)
    as (post & -> & Htree); [exact Hsize|]. cbn [map_err mbind result_bind].
  destruct (from_elements_total _ (commitments_root_wf tree reference Hload _ outputs_wf)) as (root & _ & Hroot).
  set (post_sn := mk_CandidatePrivateStateSnapshotV1 (sn_commitments sn ++ output_commitments intent)
    (sort_by_key id (sn_spent_nullifiers sn ++ intent_nullifiers intent)) root).
  assert (Hsnap : snapshot_new tree reference (sn_commitments sn ++ output_commitments intent)
    (sn_spent_nullifiers sn ++ intent_nullifiers intent) = Ok post_sn).
  { apply (snapshot_new_Ok tree reference Hload); [apply outputs_wf|].
    pose proof (snw_distinct _ _ _ (pw_snapshot _ _ _ Hpre)) as Hd.
    pose proof (strictly_sorted_NoDup _ (snw_sorted _ _ _ (pw_snapshot _ _ _ Hpre))) as Hn.
    split_and!; try done.
    - rewrite length_app. cbn [output_commitments length]. lia.
    - apply NoDup_app. split_and!; [done| |by apply output_commitments_NoDup]. intros c H1 H2. by apply (Hout c).
    - apply NoDup_app. split_and!; [done| |by apply intent_nullifiers_NoDup]. intros n H1 H2.
      apply (Hfresh n H2). by apply elem_of_list_to_set. }
  rewrite Hsnap. cbn [map_err mbind result_bind].
  pose proof (snapshot_wf_new _ _ _ outputs_wf Hsnap) as Hwf.
  destruct (anchor2_new_exact (a2_genesis_id anchor) (a2_validation_context_id anchor)
    (a2_note_tree_parameters anchor) post_sn post (snw_sorted _ _ _ Hwf)) as (nroot & _ & ->).
  { by rewrite (spent_set_snoc sn post_sn (intent_nullifiers intent) eq_refl). }
  by eexists.
Qed.

(** Applying again after the authorization changes nothing. *)
Lemma transition_revalidates tr :
  transition_apply tree sparse anchor sn nt intent reference = Ok tr ->
  transition_revalidate tree sparse tr anchor sn nt intent reference = Ok tt.
Proof.
  intros Hok. destruct sparse_loaded as [Hr Hv]. unfold transition_revalidate. rewrite Hok.
  cbn [mbind result_bind]. rewrite !bool_decide_true by done. cbn [negb orb].
  destruct (transition_admitted tr Hok) as (_ & _ & Hpost & _).
  destruct (tree_root_exact r Hr Hv _ _ (pw_tree _ _ _ Hpost)) as (root & -> & _).
  cbn [map_err mbind result_bind]. rewrite bool_decide_true, Z.eqb_refl by done. done.
Qed.

End Step.
End Loaded.
