(* ===== verification/PrivateLedgerFacts.v ===== *)
(** * The private ledger is exact

    Over a consistent state a transfer is admitted exactly when its asset is
    registered, its intent is admissible and its authorization verifies.  It then
    appends the outputs and spends the inputs; otherwise nothing changes.  Along any
    sequence of operations no nullifier is spent twice and no commitment is created
    twice. *)

From Stdlib Require Import Strings.Byte Strings.String.
From stdpp Require Import gmap.
From S2P Require Import Prelude Arrays Sha256 Types Privacy BabyBear Poseidon2 Poseidon2Facts Fips180 TreeManifestFacts NoteTreeFacts.
From S2P Require Import NullifierTree NullifierTreeFacts ChildManifests ChildManifestFacts.
From S2P Require Import PrivateState PrivateLedger PrivateStateFacts PrivateTransitionFacts.

#[local] Opaque P24_TREE_DEPTH NULLIFIER_SPARSE_TREE_DEPTH_V1 transition_apply transition_revalidate.

Section Loaded.
Context `{Sha2} (tree : P24Manifest) `{!P24ManifestLaws tree} {E : Type} (sparse : SparseManifest E).
Context `{!SparseManifestLaws sparse} (reference : Poseidon2P24Reference) (Hload : load_reference tree = Ok reference).
Context (r : NullifierSparseTreeReferenceV1) (Hsparse : load_sparse_reference tree sparse = Ok r).
Context (candidate : array 32) (Hcandidate : sparse_candidate_id sparse = Ok candidate).
Context {A : Type} `{!CandidatePrivateTransferAuthorizer A}.

Abbreviation private_wf := (private_wf tree sparse reference r).
Abbreviation Ledger := CandidatePrivateLedgerStateV1.
Abbreviation Request := (CandidatePrivateTransferRequestV1 A).

(** The invariant of the ledger. *)
Definition ledger_wf (l : Ledger) : Prop := private_wf (pl_anchor l) (pl_snapshot l) (pl_nullifier_tree l).

Definition ledger_spent (l : Ledger) : gset NullifierV2 := spent_set (pl_snapshot l).
Definition ledger_notes (l : Ledger) : list NoteCommitmentV2 := sn_commitments (pl_snapshot l).

(** What admits a request. *)
Record accepted (l : Ledger) (request : Request) : Prop := mk_accepted {
  ac_asset : is_Some (pl_assets l !! pi_asset_id (rq_intent request));
  ac_admissible : admissible (pl_anchor l) (pl_snapshot l) (rq_intent request);
  ac_authorized : authorizer_verify (rq_authorization request) (pl_anchor l) (pl_nullifier_tree l)
    (rq_intent request) = Ok tt
}.

(** What an admitted request does. *)
Record transferred (l : Ledger) (intent : PrivateTransferIntentV2)
    (receipt : CandidatePrivateTransferAdmissionReceiptV1) (l' : Ledger) : Prop := mk_transferred {
  tf_assets : pl_assets l' = pl_assets l;
  tf_notes : ledger_notes l' = ledger_notes l ++ output_commitments intent;
  tf_spent : ledger_spent l' = list_to_set (intent_nullifiers intent) ∪ ledger_spent l;
  tf_genesis : a2_genesis_id (pl_anchor l') = a2_genesis_id (pl_anchor l);
  tf_context : a2_validation_context_id (pl_anchor l') = a2_validation_context_id (pl_anchor l);
  tf_parameters : a2_note_tree_parameters (pl_anchor l') = a2_note_tree_parameters (pl_anchor l);
  tf_receipt : receipt = mk_CandidatePrivateTransferAdmissionReceiptV1 (a2_state_id (pl_anchor l))
    (a2_state_id (pl_anchor l')) (pi_asset_id intent) (intent_nullifiers intent) (output_commitments intent)
}.

(** ** One transfer *)

Section Transfer.
Context (l : Ledger) (request : Request) (Hwf : ledger_wf l) (Hintent : intent_wf (rq_intent request)).

Lemma prepare_transfer_Ok tr :
  prepare_transfer tree sparse l request = Ok tr ->
  accepted l request /\
  transition_apply tree sparse (pl_anchor l) (pl_snapshot l) (pl_nullifier_tree l) (rq_intent request) reference = Ok tr.
Proof.
  unfold prepare_transfer. rewrite Hload. cbn [map_err]. intros Hok. inv_ok. destruct_units.
  apply bool_decide_eq_true in Hx. rename Hx into Hasset, Hx0 into Happly, Hx1 into Hauth.
  cbn [mbind result_bind] in Happly. split; [|exact Happly].
  pose proof (transition_admitted _ _ _ Hload _ Hsparse _ _ _ _ Hwf Hintent _ Happly) as (Had & _). done.
Qed.

Lemma prepare_transfer_complete :
  accepted l request -> Z.of_nat (size (ledger_spent l)) + 2 <= U64_MAX ->
  exists tr, prepare_transfer tree sparse l request = Ok tr.
Proof.
  intros [Hasset Had Hauth] Hsize.
  destruct (transition_admits _ _ _ Hload _ Hsparse _ Hcandidate _ _ _ _ Hwf Hintent Had Hsize) as (tr & Happly).
  pose proof (transition_revalidates _ _ _ Hload _ Hsparse _ _ _ _ Hwf Hintent _ Happly) as Hre.
  exists tr. unfold prepare_transfer. rewrite bool_decide_true by done.
  rewrite Hload. cbn [ensure map_err mbind result_bind]. rewrite Happly. cbn [map_err mbind result_bind].
  rewrite Hauth. cbn [map_err mbind result_bind]. rewrite Hre. done.
Qed.

Lemma apply_transfer_eq :
  apply_transfer tree sparse request l =
  match prepare_transfer tree sparse l request with
  | Err e => (Err e, l)
  | Ok tr => (Ok (mk_CandidatePrivateTransferAdmissionReceiptV1 (a2_state_id (tr_pre_anchor tr))
                    (a2_state_id (tr_post_anchor tr)) (pi_asset_id (rq_intent request))
                    (intent_nullifiers (rq_intent request)) (output_commitments (rq_intent request))),
             mk_CandidatePrivateLedgerStateV1 (pl_assets l) (tr_post_snapshot tr) (tr_post_tree tr) (tr_post_anchor tr))
  end.
Proof. unfold apply_transfer. msimpl. by destruct (prepare_transfer tree sparse l request). Qed.

Lemma apply_transfer_Ok receipt l' :
  apply_transfer tree sparse request l = (Ok receipt, l') ->
  accepted l request /\ ledger_wf l' /\ transferred l (rq_intent request) receipt l'.
Proof.
  rewrite apply_transfer_eq. destruct (prepare_transfer tree sparse l request) as [tr|e] eqn:Hprep; [|done].
  intros [= <- <-]. apply prepare_transfer_Ok in Hprep as [Hac Happly]. split; [done|].
  pose proof (transition_admitted _ _ _ Hload _ Hsparse _ _ _ _ Hwf Hintent _ Happly)
    as (_ & Hpre & Hpost & Hg & Hc & Hp & Hnotes & Hspent).
  split; [exact Hpost|]. split; try done. by rewrite Hpre.
Qed.

Lemma apply_transfer_Err e l' : apply_transfer tree sparse request l = (Err e, l') -> l' = l.
Proof. rewrite apply_transfer_eq. destruct (prepare_transfer tree sparse l request); [discriminate|congruence]. Qed.

(** C14: over a consistent ledger a transfer succeeds exactly when its asset is
    registered, its intent is admissible (it names this anchor, spends only unspent
    nullifiers, creates only new commitments, and two leaves are free) and its
    authorization verifies.  Success appends the two outputs, spends the two inputs,
    keeps the invariant and returns the receipt of exactly this step; failure leaves
    the ledger as it was. *)
Theorem apply_transfer_exact :
  Z.of_nat (size (ledger_spent l)) + 2 <= U64_MAX ->
  match apply_transfer tree sparse request l with
  | (Ok receipt, l') => accepted l request /\ ledger_wf l' /\ transferred l (rq_intent request) receipt l'
  | (Err _, l') => ~ accepted l request /\ l' = l
  end.
Proof.
  intros Hsize. destruct (apply_transfer tree sparse request l) as [[receipt|e] l'] eqn:Ht.
  - by apply apply_transfer_Ok.
  - split; [|by eapply apply_transfer_Err]. intros Hac.
    destruct (prepare_transfer_complete Hac Hsize) as [tr Hprep]. rewrite apply_transfer_eq, Hprep in Ht. done.
Qed.

End Transfer.

(** ** Sequences of operations *)

Inductive LedgerOperation : Type :=
| RegisterAsset (asset : AssetDefinition)
| Transfer (request : Request).

(** The ledger over a sequence of calls, with the receipts it has returned. *)
Fixpoint run_ledger (ops : list LedgerOperation) (l : Ledger)
    : list CandidatePrivateTransferAdmissionReceiptV1 * Ledger :=
  match ops with
  | [] => ([], l)
  | RegisterAsset asset :: ops => run_ledger ops (@register_asset E asset l).2
  | Transfer request :: ops =>
      let '(result, l) := apply_transfer tree sparse request l in
      let '(receipts, l) := run_ledger ops l in
      (match result with Ok receipt => receipt :: receipts | Err _ => receipts end, l)
  end.

Definition operation_wf (op : LedgerOperation) : Prop :=
  match op with RegisterAsset _ => True | Transfer request => intent_wf (rq_intent request) end.

Definition spent_by (receipts : list CandidatePrivateTransferAdmissionReceiptV1) : list NullifierV2 :=
  receipts ≫= rc_input_nullifiers.
Definition created_by (receipts : list CandidatePrivateTransferAdmissionReceiptV1) : list NoteCommitmentV2 :=
  receipts ≫= rc_output_commitments.

Lemma register_asset_eq asset l :
  (@register_asset E asset l).2 = l \/
  exists assets, (@register_asset E asset l).2 =
    mk_CandidatePrivateLedgerStateV1 assets (pl_snapshot l) (pl_nullifier_tree l) (pl_anchor l).
Proof. unfold register_asset. msimpl. destruct (negb _); msimpl; [right; by eexists|by left]. Qed.

Lemma run_ledger_invariant ops l receipts l' :
  ledger_wf l -> Forall operation_wf ops -> run_ledger ops l = (receipts, l') ->
  ledger_wf l' /\ ledger_notes l' = ledger_notes l ++ created_by receipts /\
  ledger_spent l' = list_to_set (spent_by receipts) ∪ ledger_spent l /\
  NoDup (spent_by receipts) /\ (forall n, n ∈ spent_by receipts -> n ∉ ledger_spent l).
Proof.
  revert l receipts. induction ops as [|[asset|request] ops IH]; intros l receipts Hwf Hops; cbn [run_ledger].
  - intros [= <- <-]. cbn [spent_by created_by mbind list_bind list_to_set]. rewrite app_nil_r, union_empty_l_L.
    split_and!; try done; [apply NoDup_nil_2|]. by intros n ?%not_elem_of_nil.
  - apply Forall_cons in Hops as [_ Hops]. intros Hrun.
    destruct (register_asset_eq asset l) as [He|[assets He]]; rewrite He in Hrun; by apply (IH _ _) in Hrun.
  - apply Forall_cons in Hops as [Hi Hops]. destruct (apply_transfer tree sparse request l) as [result l1] eqn:Ht.
    destruct (run_ledger ops l1) as [receipts1 l2] eqn:Hrun. intros [= <- <-].
    destruct result as [receipt|e]; [|rewrite (apply_transfer_Err _ _ _ _ Ht) in Hrun; exact (IH l receipts1 Hwf Hops Hrun)].
    apply apply_transfer_Ok in Ht as (Hac & Hwf1 & Htf); [|done..].
    apply IH in Hrun as (Hwf2 & Hnotes & Hspent & Hdup & Hfresh); [|done..].
    rewrite (tf_notes _ _ _ _ Htf) in Hnotes. rewrite (tf_spent _ _ _ _ Htf) in Hspent, Hfresh.
    rewrite (tf_receipt _ _ _ _ Htf). cbn [spent_by created_by mbind list_bind rc_input_nullifiers rc_output_commitments].
    change (receipts1 ≫= rc_input_nullifiers) with (spent_by receipts1).
    change (receipts1 ≫= rc_output_commitments) with (created_by receipts1).
    split; [done|]. split; [by rewrite Hnotes, app_assoc|].
    split; [rewrite Hspent, list_to_set_app_L; set_solver|]. split.
    + apply NoDup_app. split_and!; [by apply intent_nullifiers_NoDup| |done]. intros n Hn Hn1.
      apply (Hfresh n Hn1), elem_of_union_l, elem_of_list_to_set, Hn.
    + intros n [Hn|Hn]%elem_of_app; [by apply (ad_fresh _ _ _ (ac_admissible _ _ Hac))|].
      intros Hs. apply (Hfresh n Hn). by apply elem_of_union_r.
Qed.

(** C15: along any sequence of registrations and transfers from a consistent ledger,
    no nullifier is spent twice, none that was spent before is spent again, no
    commitment is created twice or was there before, the spent set and the note list
    are exactly those of the receipts added to the initial ones, and the ledger stays
    consistent. *)
Theorem private_no_double_spend ops l receipts l' :
  ledger_wf l -> Forall operation_wf ops -> run_ledger ops l = (receipts, l') ->
  ledger_wf l' /\
  NoDup (spent_by receipts) /\ (forall n, n ∈ spent_by receipts -> n ∉ ledger_spent l) /\
  ledger_spent l' = list_to_set (spent_by receipts) ∪ ledger_spent l /\
  NoDup (ledger_notes l ++ created_by receipts) /\ ledger_notes l' = ledger_notes l ++ created_by receipts.
Proof.
  intros Hwf Hops Hrun. destruct (run_ledger_invariant ops l receipts l' Hwf Hops Hrun) as (Hwf' & Hn & Hs & Hd & Hf).
  split_and!; try done. rewrite <-Hn. apply (snw_distinct _ _ _ (pw_snapshot _ _ _ _ _ _ _ Hwf')).
Qed.

(** ** What a state id binds *)

Lemma ledger_anchor l :
  ledger_wf l ->
  anchor2_typed (pl_anchor l) /\ a2_nullifier_tree_candidate (pl_anchor l) = candidate /\
  a2_state_id (pl_anchor l) = sha256 (PRIVATE_STATE_NXSM_ANCHOR_ID_DOMAIN ++ anchor2_encode (pl_anchor l)).
Proof.
  intros [Hsn Hnt Ha]. pose proof (snw_sorted _ _ _ Hsn) as Hs.
  destruct (anchor2_new_exact _ _ _ Hsparse _ Hcandidate (a2_genesis_id (pl_anchor l))
    (a2_validation_context_id (pl_anchor l)) (a2_note_tree_parameters (pl_anchor l)) _ _ Hs Hnt) as (root & _ & Hnew).
  rewrite Hnew in Ha. assert (He := f_equal (fun r => match r with Ok a => a | Err _ => pl_anchor l end) Ha).
  cbn beta iota in He. rewrite <-He. split_and!; [|done|done]. split; unfold in_range, anchor_of; cbn [a2_next_leaf_index a2_spent_nullifier_count].
  - pose proof (snw_bound _ _ _ Hsn) as Hb. split; [apply Nat2Z.is_nonneg|].
    transitivity CANDIDATE_PRIVATE_STATE_MAX_NOTES; [exact Hb|by vm_compute].
  - pose proof (rep_range _ _ _ Hnt) as Hr. rewrite (rep_count _ _ _ Hnt), (size_spent_set _ Hs) in Hr. lia.
Qed.

(** the state id in an intent pins the whole anchor.  If one intent is admissible
    at two consistent ledgers then, unless their two 288-byte frames are an explicit
    SHA-256 collision, both have the same anchor: genesis, validation context, tree
    parameters, leaf count, note root, spent count and nullifier root. *)
Theorem intent_pins_anchor l1 l2 intent :
  ledger_wf l1 -> ledger_wf l2 ->
  admissible (pl_anchor l1) (pl_snapshot l1) intent -> admissible (pl_anchor l2) (pl_snapshot l2) intent ->
  (sha256 (PRIVATE_STATE_NXSM_ANCHOR_ID_DOMAIN ++ anchor2_encode (pl_anchor l1)) =
   sha256 (PRIVATE_STATE_NXSM_ANCHOR_ID_DOMAIN ++ anchor2_encode (pl_anchor l2)) ->
   anchor2_encode (pl_anchor l1) = anchor2_encode (pl_anchor l2)) ->
  pl_anchor l1 = pl_anchor l2.
Proof.
  intros Hl1 Hl2 [Hm1 _ _ _] [Hm2 _ _ _] Hsha. unfold assert_matches_intent in Hm1, Hm2. inv_ok.
  repeat match goal with H : bool_decide _ = true |- _ => apply bool_decide_eq_true in H end.
  assert (Hid : a2_state_id (pl_anchor l1) = a2_state_id (pl_anchor l2)) by congruence.
  destruct (ledger_anchor l1 Hl1) as (Ht1 & _ & Hid1), (ledger_anchor l2 Hl2) as (Ht2 & _ & Hid2).
  rewrite Hid1, Hid2 in Hid. pose proof (Hsha Hid) as Hframe.
  rewrite <-Hid1, <-Hid2 in Hid.
  destruct (anchor2_encode_inj _ _ Ht1 Ht2 Hframe) as (? & ? & ? & ? & ? & ? & ? & ?).
  destruct (pl_anchor l1), (pl_anchor l2). cbn in *. by f_equal.
Qed.

(** ** A fresh ledger *)

Lemma fresh_ledger (genesis : GenesisId) (context : ValidationContextId) (parameters : TreeParametersV2) assets :
  exists l, ledger_wf l /\ ledger_spent l = ∅ /\ ledger_notes l = [] /\ pl_assets l = assets.
Proof.
  destruct (new_candidate_Ok tree sparse r Hsparse) as (nt & _ & Hnt).
  destruct (from_elements_total _ (commitments_root_wf tree reference Hload [] (Forall_nil_2 _))) as (root & _ & Hroot).
  set (sn := mk_CandidatePrivateStateSnapshotV1 [] [] root).
  assert (Hsn : snapshot_wf tree reference sn).
  { split; [apply Forall_nil_2|by vm_compute|apply NoDup_nil_2|done|exact Hroot]. }
  destruct (anchor2_new_exact tree sparse r Hsparse candidate Hcandidate genesis context
    parameters sn nt eq_refl Hnt) as (nroot & _ & Hanchor).
  exists (mk_CandidatePrivateLedgerStateV1 assets sn nt (anchor_of candidate genesis context parameters sn nroot)).
  split; [|done]. split; [exact Hsn|exact Hnt|exact Hanchor].
Qed.

(** An intent that names the anchor of a ledger. *)
Definition intent_for (l : Ledger) (asset : AssetId) (n0 n1 c0 c1 : Vector) : PrivateTransferIntentV2 :=
  let a := pl_anchor l in
  mk_PrivateTransferIntentV2 (fill 32 x00) (a2_genesis_id a) (a2_validation_context_id a) (a2_state_id a)
    (a2_note_tree_parameters a) (a2_note_root a) asset n0 n1 (mk_PrivateTransferOutputV2 c0 c0)
    (mk_PrivateTransferOutputV2 c1 c1).

Lemma intent_for_matches l asset n0 n1 c0 c1 :
  assert_matches_intent (pl_anchor l) (intent_for l asset n0 n1 c0 c1) = Ok tt.
Proof. unfold assert_matches_intent, intent_for. cbn. by rewrite !bool_decide_true by done. Qed.

Lemma intent_for_wf l asset n0 n1 c0 c1 :
  ledger_wf l -> vector_wf n0 -> vector_wf n1 -> vector_wf c0 -> vector_wf c1 -> array_lt n0 n1 -> array_lt c0 c1 ->
  intent_wf (intent_for l asset n0 n1 c0 c1).
Proof.
  intros [Hsn Hnt Ha] ? ? ? ? ? ?. split; try done. cbn [intent_for pi_pre_state_root].
  assert (Hroot : a2_note_root (pl_anchor l) = sn_root (pl_snapshot l)).
  { unfold anchor2_new in Ha. inv_ok. by apply (f_equal a2_note_root) in Ha. }
  rewrite Hroot. unfold vector_wf. rewrite (snw_root _ _ _ Hsn).
  eapply Forall_impl; [apply (commitments_root_wf _ _ Hload), Hsn|]. by intros e [_ ?].
Qed.

End Loaded.

(** ** A ledger over the checked-in manifests *)

#[local] Existing Instance fips_sha2.

(** An authorization that is the verdict itself. *)
#[local] Instance verdict_authorizer : CandidatePrivateTransferAuthorizer bool := {|
  authorizer_verify := fun (verdict : bool) _ _ _ =>
    if verdict then Ok tt else Err CandidatePrivateTransferAuthorizationError.Rejected
|}.

Definition sample_id : array 32 := fill 32 x00.
Definition sample_vector (b : byte) : Vector := @mk_array 64 (b :: replicate 63 x00) eq_refl.
Definition sample_request (l : CandidatePrivateLedgerStateV1) : CandidatePrivateTransferRequestV1 bool :=
  mk_CandidatePrivateTransferRequestV1
    (intent_for l sample_id (sample_vector x01) (sample_vector x02) (sample_vector x03) (sample_vector x04)) true.

Lemma sample_vectors_wf b : vector_wf (sample_vector b).
Proof.
  apply Forall_forall. intros e He. apply list_elem_of_In in He.
  assert (Hall : forallb (fun e => e <? BABYBEAR_MODULUS) (elements (sample_vector b)) = true)
    by (destruct b; vm_compute; reflexivity).
  rewrite forallb_forall in Hall. by apply Z.ltb_lt, Hall.
Qed.

(** A fresh ledger with one asset, over the frozen manifests, admits the request. *)
Lemma sample_ledger :
  exists r l, load_sparse_reference frozen_manifest frozen_sparse = Ok r /\
    sparse_candidate_id frozen_sparse = Ok frozen_nxsm_id /\
    ledger_wf frozen_manifest frozen_sparse frozen_reference r l /\
    ledger_spent l = ∅ /\ intent_wf (rq_intent (sample_request l)) /\ accepted l (sample_request l).
Proof.
  destruct frozen_sparse_loads as [r Hr]. destruct frozen_nxsm_facts as (bytes & _ & Hid).
  destruct (fresh_ledger frozen_manifest frozen_sparse frozen_reference frozen_manifest_reference r Hr
    frozen_nxsm_id Hid sample_id sample_id (mk_TreeParametersV2 sample_id)
    {[sample_id := mk_AssetDefinition sample_id [] NativeBacked]}) as (l & Hl & Hspent & Hnotes & Hassets).
  exists r, l. split; [exact Hr|]. split; [exact Hid|]. split; [exact Hl|]. split; [exact Hspent|]. split.
  - apply (intent_for_wf _ _ _ frozen_manifest_reference _ _ _ _ _ _ _ Hl); try apply sample_vectors_wf; by vm_compute.
  - split; [rewrite Hassets; by eexists| |done]. split.
    + apply intent_for_matches.
    + intros n _. change (spent_set (pl_snapshot l)) with (ledger_spent l). rewrite Hspent. apply not_elem_of_empty.
    + intros c _. change (sn_commitments (pl_snapshot l)) with (ledger_notes l). rewrite Hnotes. apply not_elem_of_nil.
    + change (sn_commitments (pl_snapshot l)) with (ledger_notes l). by rewrite Hnotes.
Qed.

(** The request is admitted: two notes and two spent nullifiers. *)
Lemma apply_transfer_exact_witness :
  exists l receipt l', apply_transfer frozen_manifest frozen_sparse (sample_request l) l = (Ok receipt, l') /\
    transferred l (rq_intent (sample_request l)) receipt l'.
Proof.
  destruct sample_ledger as (r & l & Hr & Hid & Hl & Hspent & Hi & Hac).
  pose proof (apply_transfer_exact frozen_manifest frozen_sparse frozen_reference frozen_manifest_reference r Hr
    frozen_nxsm_id Hid l (sample_request l) Hl Hi ltac:(rewrite Hspent; by vm_compute)) as Hex.
  destruct (apply_transfer frozen_manifest frozen_sparse (sample_request l) l) as [[receipt|e] l'] eqn:Ht.
  - exists l, receipt, l'. split; [exact Ht|apply Hex].
  - destruct Hex as [Hno _]. destruct (Hno Hac).
Defined.

(** The same request twice: it is spent once. *)
Lemma private_no_double_spend_witness :
  exists l receipts l', run_ledger frozen_manifest frozen_sparse
      [Transfer (sample_request l); Transfer (sample_request l)] l = (receipts, l') /\
    NoDup (spent_by receipts).
Proof.
  destruct sample_ledger as (r & l & Hr & Hid & Hl & _ & Hi & _).
  destruct (run_ledger frozen_manifest frozen_sparse
    [Transfer (sample_request l); Transfer (sample_request l)] l) as [receipts l'] eqn:Hrun.
  exists l, receipts, l'. split; [exact Hrun|].
  refine (proj1 (proj2 (private_no_double_spend frozen_manifest frozen_sparse frozen_reference frozen_manifest_reference r Hr
    frozen_nxsm_id Hid _ l receipts l' Hl _ Hrun))).
  apply Forall_cons; split; [exact Hi|]. apply Forall_cons; split; [exact Hi|apply Forall_nil_2].
Defined.

Lemma intent_pins_anchor_witness :
  exists l1 l2 intent, admissible (pl_anchor l1) (pl_snapshot l1) intent /\ pl_anchor l1 = pl_anchor l2.
Proof.
  destruct sample_ledger as (r & l & Hr & Hid & Hl & _ & Hi & Hac). exists l, l, (rq_intent (sample_request l)).
  pose proof (ac_admissible _ _ Hac) as Had. split; [exact Had|].
  exact (intent_pins_anchor frozen_manifest frozen_sparse frozen_reference r Hr frozen_nxsm_id Hid
    l l _ Hl Hl Had Had (fun _ => eq_refl)).
Defined.
