(* ===== verification/PrivateRecord.v ===== *)
(** * The record of a private ledger ([noxis-private-state/src/private_state_record.rs])

    An [NXPR] record holds what determines a private ledger: its identities, notes,
    spent nullifiers and assets.  Decoding rebuilds the tree roots and the anchor
    and re-encodes the result.  An error [None] is a panic. *)

From Stdlib Require Import Strings.Byte Strings.String.
From stdpp Require Import gmap.
From S2P Require Import Prelude Arrays Reader Sha256 Types Ledger Privacy Poseidon2 NullifierTree PrivateState PrivateLedger.

Definition PRIVATE_STATE_RECORD_MAGIC : list byte := bytes_of_string "NXPR".
Definition PRIVATE_STATE_RECORD_VERSION : Z := 1.
Definition PRIVATE_STATE_RECORD_CHECKSUM_DOMAIN : list byte := bytes_of_string "NOXIS/PRIVATE-STATE-RECORD/V1" ++ [x00].
Definition PRIVATE_STATE_RECORD_MAX_ASSETS : Z := 4096.
Definition PRIVATE_STATE_RECORD_MAX_NULLIFIERS : Z := 2048.
Definition RECORD_HEADER_LENGTH : Z := 4 + 2 + 2 + 32 + 32 + 32 + 32 + 4 + 4 + 2.
Definition RECORD_CHECKSUM_LENGTH : Z := 32.
Definition PRIVATE_STATE_RECORD_MAX_BYTES : Z :=
  RECORD_HEADER_LENGTH + CANDIDATE_PRIVATE_STATE_MAX_NOTES * 64 + PRIVATE_STATE_RECORD_MAX_NULLIFIERS * 64 +
  PRIVATE_STATE_RECORD_MAX_ASSETS * (32 + 1 + 1 + 16) + RECORD_CHECKSUM_LENGTH.

Module CandidatePrivateStateRecordError.
Inductive CandidatePrivateStateRecordError (E : Type) : Type :=
| Truncated
| Magic
| Version
| Reserved
| ChecksumMismatch
| TrailingBytes
| NonCanonical
| LengthOverflow
| TooManyAssets (count : Z)
| TooManyNullifiers (count : Z)
| Count (field : string) (value maximum : Z)
| AssetOrder
| AssetKind (tag : Z)
| TickerLength (length : Z)
| TickerUtf8
| Privacy (error : PrivacyTypesError)
| Asset (error : AssetError)
| Reference (error : Poseidon2P24ReferenceError)
| Tree (error : NullifierSparseTreeStateError E)
| Snapshot (error : CandidatePrivateStateError)
| Ledger (error : CandidatePrivateLedgerError E)
| StateIdMismatch (encoded rebuilt : StateId).
Arguments Truncated {E}.
Arguments Magic {E}.
Arguments Version {E}.
Arguments Reserved {E}.
Arguments ChecksumMismatch {E}.
Arguments TrailingBytes {E}.
Arguments NonCanonical {E}.
Arguments LengthOverflow {E}.
Arguments TooManyAssets {E} count.
Arguments TooManyNullifiers {E} count.
Arguments Count {E} field value maximum.
Arguments AssetOrder {E}.
Arguments AssetKind {E} tag.
Arguments TickerLength {E} length.
Arguments TickerUtf8 {E}.
Arguments Privacy {E} error.
Arguments Asset {E} error.
Arguments Reference {E} error.
Arguments Tree {E} error.
Arguments Snapshot {E} error.
Arguments Ledger {E} error.
Arguments StateIdMismatch {E} encoded rebuilt.
End CandidatePrivateStateRecordError.
Abbreviation CandidatePrivateStateRecordError := CandidatePrivateStateRecordError.CandidatePrivateStateRecordError.

Module RecErr := CandidatePrivateStateRecordError.

(** [Reader] of this file: an overflowing offset and a short slice are the same error. *)
#[export] Instance private_record_read_error {E} : ReadError (option (CandidatePrivateStateRecordError E)) := {|
  Reader.UnexpectedEnd := fun _ => Some RecErr.Truncated;
  Reader.LengthOverflow := Some RecErr.Truncated;
  Reader.TrailingBytes := fun _ => Some RecErr.TrailingBytes
|}.

Definition asset_kind_tag (kind : AssetKind) : Z := match kind with NativeBacked => 1 | Synthetic => 2 end.

Definition record_asset_kind {E} (tag : Z) : Result (option (CandidatePrivateStateRecordError E)) AssetKind :=
  match tag with
  | 1 => Ok NativeBacked
  | 2 => Ok Synthetic
  | _ => Err (Some (RecErr.AssetKind tag))
  end.

(** [state.assets()]: the values of the map in the order of its keys. *)
Definition ledger_assets (state : CandidatePrivateLedgerStateV1) : list AssetDefinition :=
  (sort_by_key fst (map_to_list (pl_assets state))).*2.

(** The entry of one asset; a ticker longer than a byte can say is a panic. *)
Definition encode_record_asset {E} (asset : AssetDefinition)
    : Result (option (CandidatePrivateStateRecordError E)) (list byte) :=
  ticker_length ← ok_or (try_from U8_MAX (len (asset_ticker asset))) None;
  Ok (arr (asset_id asset) ++ to_be_bytes 1 (asset_kind_tag (asset_kind asset)) ++
      to_be_bytes 1 ticker_length ++ asset_ticker asset).

(** [put_u32] and [put_u16]. *)
Definition put_count {E} (width : nat) (maximum : Z) (value : Z)
    : Result (option (CandidatePrivateStateRecordError E)) (list byte) :=
  value ← ok_or (try_from maximum value) (Some RecErr.LengthOverflow); Ok (to_be_bytes width value).

Section Record.
Context `{Sha2} (tree : P24Manifest) {E : Type} (sparse : SparseManifest E).

Abbreviation RecordError := (option (CandidatePrivateStateRecordError E)).

Definition record_checksum (bytes : list byte) : array 32 := sha256 (PRIVATE_STATE_RECORD_CHECKSUM_DOMAIN ++ bytes).

(** [encode_candidate_private_ledger_state]. *)
Definition encode_candidate_private_ledger_state (state : CandidatePrivateLedgerStateV1) : Result RecordError (list byte) :=
  let commitments := sn_commitments (pl_snapshot state) in
  let nullifiers := sn_spent_nullifiers (pl_snapshot state) in
  let assets := ledger_assets state in
  if PRIVATE_STATE_RECORD_MAX_NULLIFIERS <? len nullifiers
  then Err (Some (RecErr.TooManyNullifiers (len nullifiers)))
  else if PRIVATE_STATE_RECORD_MAX_ASSETS <? len assets
  then Err (Some (RecErr.TooManyAssets (len assets)))
  else
    let anchor := pl_anchor state in
    commitment_count ← put_count 4 U32_MAX (len commitments);
    nullifier_count ← put_count 4 U32_MAX (len nullifiers);
    asset_count ← put_count 2 U16_MAX (len assets);
    asset_entries ← try_map encode_record_asset assets;
    let bytes :=
      PRIVATE_STATE_RECORD_MAGIC ++ to_be_bytes 2 PRIVATE_STATE_RECORD_VERSION ++ replicate 2 x00 ++
      arr (a2_genesis_id anchor) ++ arr (a2_validation_context_id anchor) ++
      arr (tree_parameters_id (a2_note_tree_parameters anchor)) ++ arr (a2_state_id anchor) ++
      commitment_count ++ nullifier_count ++ asset_count ++
      concat (arr <$> commitments) ++ concat (arr <$> nullifiers) ++ concat asset_entries in
    Ok (bytes ++ arr (record_checksum bytes)).

(** ** Decoding *)

(** [bounded(...)?] after a count. *)
Definition bounded (field : string) (maximum value : Z) : Result RecordError Z :=
  if maximum <? value then Err (Some (RecErr.Count field value maximum)) else Ok value.

Definition read_bounded (count : M Reader RecordError Z) (field : string) (maximum : Z) : M Reader RecordError Z :=
  value ← count; lift (bounded field maximum value).

Definition read_reserved : M Reader RecordError unit :=
  reserved ← read_array 2;
  lift (ensure (bool_decide (arr reserved = replicate 2 x00)) (Some RecErr.Reserved)).

(** [NoteCommitmentV2::new(reader.array()?)] and its sibling. *)
Definition read_vector : M Reader RecordError Vector :=
  bytes ← read_array 64;
  lift (map_err (fun e => Some (RecErr.Privacy e)) (vector_new bytes)).

Definition read_record_ticker : M Reader RecordError (list byte) :=
  ticker_length ← read_u8;
  if negb ((1 <=? ticker_length) && (ticker_length <=? 16))
  then lift (Err (Some (RecErr.TickerLength ticker_length)))
  else
    ticker ← read_exact ticker_length;
    if negb (valid_utf8 ticker) then lift (Err (Some RecErr.TickerUtf8)) else mret ticker.

(** The body of the loop over the assets. *)
Definition read_record_asset (previous : option AssetId) : M Reader RecordError AssetDefinition :=
  id ← read_array 32;
  _ ← lift (ensure (negb (not_increasing previous id)) (Some RecErr.AssetOrder));
  tag ← read_u8;
  kind ← lift (record_asset_kind tag);
  ticker ← read_record_ticker;
  lift (map_err (fun e => Some (RecErr.Asset e)) (asset_definition_new id ticker kind)).

Fixpoint read_record_assets (count : nat) (previous : option AssetId) : M Reader RecordError (list AssetDefinition) :=
  match count with
  | O => mret []
  | S count =>
      asset ← read_record_asset previous;
      assets ← read_record_assets count (Some (asset_id asset));
      mret (asset :: assets)
  end.

(** The fields of a record. *)
Record RecordFields : Type := mk_RecordFields {
  rf_genesis_id : GenesisId;
  rf_validation_context_id : ValidationContextId;
  rf_tree_parameters : TreeParametersV2;
  rf_state_id : StateId;
  rf_commitments : list NoteCommitmentV2;
  rf_nullifiers : list NullifierV2;
  rf_assets : list AssetDefinition
}.

(** The reader's part of the decoder. *)
Definition read_record : M Reader RecordError RecordFields :=
  _ ← read_magic PRIVATE_STATE_RECORD_MAGIC (Some RecErr.Magic);
  _ ← read_version PRIVATE_STATE_RECORD_VERSION (fun _ => Some RecErr.Version);
  _ ← read_reserved;
  genesis_id ← read_array 32;
  validation_context_id ← read_array 32;
  tree_parameters ← read_array 32;
  encoded_state_id ← read_array 32;
  commitment_count ← read_bounded read_u32 "commitments" CANDIDATE_PRIVATE_STATE_MAX_NOTES;
  nullifier_count ← read_bounded read_u32 "nullifiers" PRIVATE_STATE_RECORD_MAX_NULLIFIERS;
  asset_count ← read_bounded read_u16 "assets" PRIVATE_STATE_RECORD_MAX_ASSETS;
  commitments ← read_n (Z.to_nat commitment_count) read_vector;
  nullifiers ← read_n (Z.to_nat nullifier_count) read_vector;
  assets ← read_record_assets (Z.to_nat asset_count) None;
  _ ← finish;
  lift (Ok (mk_RecordFields genesis_id validation_context_id (mk_TreeParametersV2 tree_parameters) encoded_state_id
              commitments nullifiers assets)).

(** [for asset in assets { state.register_asset(asset)? }]. *)
Fixpoint register_all (assets : list AssetDefinition)
    : M CandidatePrivateLedgerStateV1 (option (CandidatePrivateLedgerError E)) unit :=
  match assets with
  | [] => mret tt
  | asset :: assets => _ ← register_asset asset; register_all assets
  end.

(** The ledger rebuilt from the fields. *)
Definition rebuild_ledger (fields : RecordFields) : Result RecordError CandidatePrivateLedgerStateV1 :=
  reference ← map_err (fun e => Some (RecErr.Reference e)) (load_reference tree);
  snapshot ← map_err (option_map RecErr.Snapshot)
               (snapshot_new tree reference (rf_commitments fields) (rf_nullifiers fields));
  nullifier_tree ← map_err (option_map RecErr.Tree) (new_candidate tree sparse);
  nullifier_tree ← map_err (option_map RecErr.Tree) (spend_all (sn_spent_nullifiers snapshot) nullifier_tree);
  state ← map_err (option_map RecErr.Ledger)
            (ledger_new tree sparse (rf_genesis_id fields) (rf_validation_context_id fields)
               (rf_tree_parameters fields) snapshot nullifier_tree);
  if negb (bool_decide (a2_state_id (pl_anchor state) = rf_state_id fields))
  then Err (Some (RecErr.StateIdMismatch (rf_state_id fields) (a2_state_id (pl_anchor state))))
  else
    let '(result, state) := register_all (rf_assets fields) state in
    _ ← map_err (option_map RecErr.Ledger) result;
    Ok state.

(** [decode_candidate_private_ledger_state]. *)
Definition decode_candidate_private_ledger_state (bytes : list byte) : Result RecordError CandidatePrivateLedgerStateV1 :=
  if len bytes <? RECORD_HEADER_LENGTH + RECORD_CHECKSUM_LENGTH
  then Err (Some RecErr.Truncated)
  else
    let split := Z.to_nat (len bytes - RECORD_CHECKSUM_LENGTH) in
    let body := take split bytes in
    if negb (bool_decide (arr (record_checksum body) = drop split bytes))
    then Err (Some RecErr.ChecksumMismatch)
    else
      fields ← run read_record body;
      state ← rebuild_ledger fields;
      encoded ← encode_candidate_private_ledger_state state;
      if negb (bool_decide (encoded = bytes)) then Err (Some RecErr.NonCanonical) else Ok state.

End Record.
