(* ===== verification/PrivateRecordFacts.v ===== *)
(** * Facts about the record of a private ledger

    The decoder accepts exactly the encodings of consistent ledgers within the
    limits of the record, and rebuilds them. *)

From Stdlib Require Import Strings.Byte Strings.String.
From stdpp Require Import gmap.
From S2P Require Import Prelude Arrays Reader Sha256 Types Ledger Snapshot Privacy Poseidon2 Poseidon2Facts Fips180 TreeManifestFacts NoteTreeFacts.
From S2P Require Import NullifierTree NullifierTreeFacts ChildManifests ChildManifestFacts PrivateState PrivateLedger PrivateStateFacts PrivateTransitionFacts.
From S2P Require Import PrivateLedgerFacts PrivateRecord.

#[local] Opaque P24_TREE_DEPTH NULLIFIER_SPARSE_TREE_DEPTH_V1.

(** ** The fields *)

Definition asset_entry_bytes (asset : AssetDefinition) : list byte :=
  arr (asset_id asset) ++ to_be_bytes 1 (asset_kind_tag (asset_kind asset)) ++
  to_be_bytes 1 (len (asset_ticker asset)) ++ asset_ticker asset.

Record fields_ok (f : RecordFields) : Prop := mk_fields_ok {
  fo_commitments : len (rf_commitments f) <= CANDIDATE_PRIVATE_STATE_MAX_NOTES;
  fo_commitments_wf : Forall vector_wf (rf_commitments f);
  fo_nullifiers : len (rf_nullifiers f) <= PRIVATE_STATE_RECORD_MAX_NULLIFIERS;
  fo_nullifiers_wf : Forall vector_wf (rf_nullifiers f);
  fo_assets : len (rf_assets f) <= PRIVATE_STATE_RECORD_MAX_ASSETS;
  fo_assets_sorted : strictly_sorted (asset_id <$> rf_assets f) = true;
  fo_assets_wf : Forall asset_wf (rf_assets f)
}.

Definition fields_bytes (f : RecordFields) : list byte :=
  PRIVATE_STATE_RECORD_MAGIC ++ to_be_bytes 2 PRIVATE_STATE_RECORD_VERSION ++ replicate 2 x00 ++
  arr (rf_genesis_id f) ++ arr (rf_validation_context_id f) ++
  arr (tree_parameters_id (rf_tree_parameters f)) ++ arr (rf_state_id f) ++
  to_be_bytes 4 (len (rf_commitments f)) ++ to_be_bytes 4 (len (rf_nullifiers f)) ++
  to_be_bytes 2 (len (rf_assets f)) ++
  concat (arr <$> rf_commitments f) ++ concat (arr <$> rf_nullifiers f) ++
  concat (asset_entry_bytes <$> rf_assets f).

Section Grammar.
Context {E : Type}.
Abbreviation RecordError := (option (CandidatePrivateStateRecordError E)).

Lemma parse_spec_record_vector : parse_spec (@read_vector E) (fun v bs => vector_wf v /\ bs = arr v).
Proof.
  eapply parse_spec_proper; [|unfold read_vector; grammar_of]. intros v bs. cbn. split.
  - intros (a & b1 & b2 & -> & [Ha ->] & ->). apply map_err_Ok, vector_new_Ok in Ha as [-> Hv]. by rewrite app_nil_r.
  - intros [Hv ->]. exists v, (arr v), []. split; [done|]. split; [|by rewrite app_nil_r].
    split; [|done]. by apply map_err_Ok, vector_new_Ok.
Qed.

Lemma parse_spec_read_reserved : parse_spec (@read_reserved E) (fun _ bs => bs = replicate 2 x00).
Proof.
  eapply parse_spec_proper; [|unfold read_reserved; grammar_of]. intros [] bs. cbn [fst]. split.
  - intros (a & b1 & b2 & -> & [Ha ->] & ->). apply ensure_Ok in Ha. zbool. by rewrite app_nil_r.
  - intros ->. exists (fill 2 x00), (replicate 2 x00), []. done.
Qed.

Lemma parse_spec_read_bounded width count field maximum :
  parse_spec count (be_grammar width) ->
  parse_spec (@read_bounded E count field maximum) (fun n bs => n <= maximum /\ be_grammar width n bs).
Proof.
  intros Hc. eapply parse_spec_proper; cycle 1.
  { unfold read_bounded. apply parse_spec_bind; [exact Hc|]. intros n. apply parse_spec_lift. }
  intros n bs. cbn. unfold bounded. split.
  - intros (m & b1 & b2 & Hm & [Hb ->] & ->). rewrite app_nil_r.
    destruct (Z.ltb_spec maximum m); [done|]. injection Hb as <-. done.
  - intros [Hn Hg]. exists n, bs, []. rewrite app_nil_r. split; [done|].
    by rewrite (proj2 (Z.ltb_ge _ _)).
Qed.

Lemma parse_spec_read_record_ticker :
  parse_spec (@read_record_ticker E)
    (fun t bs => 1 <= len t <= 16 /\ valid_utf8 t = true /\ bs = to_be_bytes 1 (len t) ++ t).
Proof.
  eapply parse_spec_proper; cycle 1.
  { unfold read_record_ticker. apply parse_spec_bind; [apply parse_spec_read_u8|]. intros n.
    instantiate (1 := fun n t bs => 1 <= n <= 16 /\ valid_utf8 t = true /\ bs = t /\ len t = n).
    cbv beta. destruct ((1 <=? n) && (n <=? 16)) eqn:Hn; cbn [negb]; zbool.
    2: { eapply parse_spec_proper; [|apply parse_spec_lift]. intros x bs. cbn. split; [by intros []|].
         intros ([? ?] & _). lia. }
    eapply parse_spec_proper; cycle 1.
    { apply parse_spec_bind; [apply parse_spec_read_exact|]. intros t.
      instantiate (1 := fun t x bs => valid_utf8 t = true /\ x = t /\ bs = []). cbv beta.
      destruct (valid_utf8 t); cbn [negb].
      - eapply parse_spec_proper; [|apply parse_spec_ret]. naive_solver.
      - eapply parse_spec_proper; [|apply parse_spec_lift]. naive_solver. }
    intros t bs. cbv beta. split.
    - intros (t' & b1 & b2 & [-> Hl] & (Hv & -> & ->) & ->). by rewrite app_nil_r.
    - intros (_ & Hv & -> & Hl). exists t, t, []. by rewrite app_nil_r. }
  intros t bs. cbv beta. unfold be_grammar. split.
  - intros (n & b1 & b2 & [Hn ->] & (Hm & Hv & -> & <-) & ->). done.
  - intros (Hl & Hv & ->). exists (len t), (to_be_bytes 1 (len t)), t. split_and!; (done || cbn; lia).
Qed.

Lemma record_asset_kind_Ok tag kind : @record_asset_kind E tag = Ok kind <-> tag = asset_kind_tag kind.
Proof.
  split.
  - unfold record_asset_kind. intros Hd. destruct tag as [|[[]|[]|]|]; by simplify_eq.
  - by intros ->; destruct kind.
Qed.

Lemma parse_spec_read_record_asset previous :
  parse_spec (@read_record_asset E previous)
    (fun a bs => (not_increasing previous (asset_id a) = false /\ asset_wf a) /\ bs = asset_entry_bytes a).
Proof.
  eapply parse_spec_proper; cycle 1.
  { unfold read_record_asset. do 4 (apply parse_spec_bind; [eauto with grammar|intros ?]).
    apply parse_spec_bind; [apply parse_spec_read_record_ticker|]. intros t. apply parse_spec_lift. }
  intros a bs. cbv beta. unfold be_grammar. split.
  - intros H'. grammar_inv. subst. rewrite map_err_Ok, record_asset_kind_Ok, asset_definition_new_Ok, ensure_Ok in *.
    destruct_and?. zbool. subst. split; [done|]. unfold asset_entry_bytes. cbn. by rewrite app_nil_r.
  - intros [[Hni Hw] ->]. destruct a as [i t k]. unfold asset_entry_bytes. cbn in *.
    destruct Hw as [Hl Hu]. cbn in Hl, Hu. rewrite <-(app_nil_r (to_be_bytes 1 (len t) ++ t)).
    grammar_split.
    refine (ex_intro _ tt (ex_intro _ [] (ex_intro _ _ (conj (conj _ eq_refl) (conj _ eq_refl)))));
      [apply ensure_Ok; by rewrite Hni|].
    refine (ex_intro _ _ (ex_intro _ _ (ex_intro _ _ (conj (conj _ eq_refl) (conj _ eq_refl)))));
      [by destruct k|].
    grammar_lift ltac:(by apply record_asset_kind_Ok).
    refine (ex_intro _ _ (ex_intro _ _ (ex_intro _ _ (conj _ (conj _ eq_refl))))).
    + split_and!; [exact (proj1 Hl)|exact (proj2 Hl)|by apply valid_utf8_ticker|reflexivity].
    + split; [|done]. apply map_err_Ok, asset_definition_new_Ok. done.
Qed.

Lemma parse_spec_read_record_assets count previous :
  parse_spec (@read_record_assets E count previous)
    (fun xs bs => length xs = count /\ strictly_sorted (after previous (asset_id <$> xs)) = true /\
       Forall asset_wf xs /\ bs = concat (asset_entry_bytes <$> xs)).
Proof.
  revert previous. induction count as [|count IH]; intros previous; cbn [read_record_assets].
  - eapply parse_spec_proper; [|apply parse_spec_ret]. intros xs bs. split.
    + intros [-> ->]. split_and!; [done|by destruct previous|constructor|done].
    + destruct xs; [|by intros [? _]]. by intros (_ & _ & _ & ->).
  - eapply parse_spec_proper; cycle 1.
    { apply parse_spec_bind; [apply parse_spec_read_record_asset|]. intros a. apply parse_spec_map, IH. }
    intros xs bs. cbv beta. split.
    + intros (a & b1 & b2 & [[Hni Hw] ->] & (ys & -> & Hl & Hs & Hws & ->) & ->).
      cbn [length fmap list_fmap concat]. rewrite not_increasing_after, Hni.
      split_and!; [by rewrite Hl|exact Hs|by constructor|done].
    + destruct xs as [|a ys]; [by intros [? _]|]. intros ([= Hl] & Hs & Hws & ->).
      cbn [fmap list_fmap concat] in *. rewrite not_increasing_after in Hs.
      apply andb_true_iff in Hs as [Hni Hs]. apply negb_true_iff in Hni. apply Forall_cons in Hws as [Hw Hws].
      eexists a, _, _. split; [done|]. split; [|reflexivity]. by exists ys.
Qed.

#[local] Hint Extern 0 (parse_spec read_vector _) => eapply parse_spec_record_vector : grammar.
#[local] Hint Extern 0 (parse_spec read_reserved _) => eapply parse_spec_read_reserved : grammar.
#[local] Hint Extern 0 (parse_spec (read_bounded _ _ _) _) => eapply parse_spec_read_bounded : grammar.
#[local] Hint Extern 0 (parse_spec (read_record_assets _ _) _) => eapply parse_spec_read_record_assets : grammar.

(** The reader accepts exactly the bytes of fields within the limits. *)
Lemma read_record_exact bs f :
  len bs <= ISIZE_MAX -> run (@read_record E) bs = Ok f <-> fields_ok f /\ bs = fields_bytes f.
Proof.
  intros Hl. unfold read_record. erewrite run_iff; [|grammar_of|done]. clear Hl. cbv beta. split.
  - intros H'. grammar_inv. simplify_eq.
    repeat match goal with Hg : list_grammar _ _ _ |- _ => apply list_grammar_enc in Hg as [? ->] end.
    match goal with
    | H1 : length ?c = Z.to_nat ?n1, H2 : length ?d = Z.to_nat ?n2, H3 : length ?a = Z.to_nat ?n3,
      G1 : be_grammar 4 ?n1 _, G2 : be_grammar 4 ?n2 _, G3 : be_grammar 2 ?n3 _ |- _ =>
        destruct G1 as [? ->], G2 as [? ->], G3 as [? ->];
        assert (n1 = len c) as -> by lia; assert (n2 = len d) as -> by lia; assert (n3 = len a) as -> by lia
    end.
    split; [by split|]. unfold fields_bytes. cbn [rf_genesis_id rf_validation_context_id rf_tree_parameters rf_state_id
      rf_commitments rf_nullifiers rf_assets tree_parameters_id]. by rewrite app_nil_r.
  - intros [[H1 H2 H3 H4 H5 H6 H7] ->]. destruct f as [g c [p] i cs ns assets]. unfold fields_bytes.
    cbn [rf_genesis_id rf_validation_context_id rf_tree_parameters rf_state_id rf_commitments rf_nullifiers rf_assets
      tree_parameters_id] in *.
    unfold CANDIDATE_PRIVATE_STATE_MAX_NOTES, PRIVATE_STATE_RECORD_MAX_NULLIFIERS, PRIVATE_STATE_RECORD_MAX_ASSETS in *.
    rewrite <-(app_nil_r (concat (asset_entry_bytes <$> assets))).
    do 3 (refine (ex_intro _ tt (ex_intro _ _ (ex_intro _ _ (conj eq_refl (conj _ eq_refl)))))).
    do 4 (refine (ex_intro _ _ (ex_intro _ _ (ex_intro _ _ (conj eq_refl (conj _ eq_refl)))))).
    do 3 (refine (ex_intro _ _ (ex_intro _ _ (ex_intro _ _
      (conj (conj _ (conj _ eq_refl)) (conj _ eq_refl))))); [cbn; lia|cbn; lia|]).
    refine (ex_intro _ cs (ex_intro _ _ (ex_intro _ _ (conj (conj _ (proj2 (list_grammar_enc _ _ _ _) (conj H2 eq_refl)))
      (conj _ eq_refl))))); [lia|].
    refine (ex_intro _ ns (ex_intro _ _ (ex_intro _ _ (conj (conj _ (proj2 (list_grammar_enc _ _ _ _) (conj H4 eq_refl)))
      (conj _ eq_refl))))); [lia|].
    refine (ex_intro _ assets (ex_intro _ _ (ex_intro _ _ (conj (conj _ (conj _ (conj H7 eq_refl))) (conj _ eq_refl)))));
      [lia|exact H6|]. done.
Qed.

End Grammar.

(** ** The reader does not panic *)

Section NoPanic.
Context {E : Type}.

Definition no_panic {A} (m : M Reader (option (CandidatePrivateStateRecordError E)) A) : Prop :=
  forall r, (m r).1 <> Err None.

Lemma no_panic_read_bind {A B} (m : M Reader _ A) (k : A -> M Reader _ B) :
  no_panic m -> (forall a, no_panic (k a)) -> no_panic (m ≫= k).
Proof.
  intros Hm Hk r. rewrite M_bind_eq. specialize (Hm r). destruct (m r) as [[a|e] r']; [apply Hk|].
  cbn in *. congruence.
Qed.

Lemma no_panic_ret {A} (a : A) : no_panic (mret a).
Proof. done. Qed.

Lemma no_panic_read_lift {A} (x : Result _ A) : x <> Err None -> no_panic (lift x).
Proof. intros Hx r. exact Hx. Qed.

Lemma no_panic_read_exact n : no_panic (read_exact n).
Proof. intros r. unfold read_exact. destruct (checked_add _ _ _); [|done]. by destruct (get_range _ _ _). Qed.

Lemma no_panic_read_array n : no_panic (read_array n).
Proof.
  apply no_panic_read_bind; [apply no_panic_read_exact|]. intros bytes r. cbn. by destruct (try_into n bytes).
Qed.

Lemma ensure_no_panic b e : ensure (E := option (CandidatePrivateStateRecordError E)) b (Some e) <> Err None.
Proof. by destruct b. Qed.

Lemma map_err_no_panic {A F} (g : F -> CandidatePrivateStateRecordError E) (x : Result F A) :
  map_err (fun e => Some (g e)) x <> Err None.
Proof. by destruct x. Qed.

Lemma no_panic_read_n {A} n (m : M Reader _ A) : no_panic m -> no_panic (read_n n m).
Proof.
  intros Hm. induction n as [|n IH]; cbn [read_n]; [apply no_panic_ret|].
  apply no_panic_read_bind; [done|]. intros x. apply no_panic_read_bind; [done|]. intros xs. apply no_panic_ret.
Qed.

#[local] Hint Resolve no_panic_ret no_panic_read_exact no_panic_read_array no_panic_read_n ensure_no_panic map_err_no_panic : no_panic.
#[local] Hint Extern 1 (no_panic (_ ≫= _)) => apply no_panic_read_bind; [|intros ?] : no_panic.
#[local] Hint Extern 1 (no_panic (lift _)) => apply no_panic_read_lift : no_panic.

Lemma no_panic_read_record_ticker : no_panic (@read_record_ticker E).
Proof.
  apply no_panic_read_bind; [apply no_panic_read_bind; auto with no_panic|]. intros n.
  destruct (negb _); [by apply no_panic_read_lift|]. apply no_panic_read_bind; [auto with no_panic|]. intros t.
  destruct (negb _); [by apply no_panic_read_lift|auto with no_panic].
Qed.

Lemma record_asset_kind_no_panic tag : @record_asset_kind E tag <> Err None.
Proof. unfold record_asset_kind. by destruct tag as [|[[]|[]|]|]. Qed.

#[local] Hint Resolve no_panic_read_record_ticker record_asset_kind_no_panic : no_panic.

Lemma no_panic_read_record_assets n previous : no_panic (@read_record_assets E n previous).
Proof.
  revert previous. induction n as [|n IH]; intros previous; cbn [read_record_assets]; [auto with no_panic|].
  unfold read_record_asset, read_u8. auto 20 with no_panic.
Qed.

#[local] Hint Resolve no_panic_read_record_assets : no_panic.

Lemma bounded_no_panic field maximum value : @bounded E field maximum value <> Err None.
Proof. unfold bounded. by destruct (_ <? _). Qed.

#[local] Hint Resolve bounded_no_panic : no_panic.

Lemma no_panic_finish : no_panic (finish (E := option (CandidatePrivateStateRecordError E))).
Proof. apply no_panic_read_bind; [done|]. intros r. apply no_panic_read_lift, ensure_no_panic. Qed.

#[local] Hint Resolve no_panic_finish : no_panic.

Lemma no_panic_read_record : no_panic (@read_record E).
Proof.
  unfold read_record, read_magic, read_version, read_reserved, read_bounded, read_u16, read_u32, read_vector.
  repeat (apply no_panic_read_bind; [auto 20 with no_panic|intros ?]). by apply no_panic_read_lift.
Qed.

End NoPanic.

(** ** Ledgers *)

Definition asset_pair (a : AssetDefinition) : AssetId * AssetDefinition := (asset_id a, a).

(** The assets of a ledger are keyed by their identity and have valid tickers. *)
Definition assets_ok (l : CandidatePrivateLedgerStateV1) : Prop :=
  map_Forall (fun id a => asset_id a = id /\ asset_wf a) (pl_assets l).

Definition fields_of (l : CandidatePrivateLedgerStateV1) : RecordFields :=
  mk_RecordFields (a2_genesis_id (pl_anchor l)) (a2_validation_context_id (pl_anchor l))
    (a2_note_tree_parameters (pl_anchor l)) (a2_state_id (pl_anchor l)) (sn_commitments (pl_snapshot l))
    (sn_spent_nullifiers (pl_snapshot l)) (ledger_assets l).

Definition with_assets (assets : gmap AssetId AssetDefinition) (l : CandidatePrivateLedgerStateV1) :=
  mk_CandidatePrivateLedgerStateV1 assets (pl_snapshot l) (pl_nullifier_tree l) (pl_anchor l).

Section Assets.
Context (l : CandidatePrivateLedgerStateV1) (Hok : assets_ok l).

Lemma ledger_asset_pairs : asset_pair <$> ledger_assets l = sort_by_key fst (map_to_list (pl_assets l)).
Proof.
  unfold ledger_assets. rewrite <-list_fmap_compose. rewrite <-(list_fmap_id (sort_by_key _ _)) at 2.
  apply list_fmap_ext. intros i [k a] Hi. apply list_elem_of_lookup_2 in Hi.
  rewrite (sort_by_key_Permutation fst) in Hi. apply elem_of_map_to_list in Hi. apply Hok in Hi as [Hi _].
  unfold asset_pair. cbn. by rewrite Hi.
Qed.

Lemma ledger_assets_sorted : strictly_sorted (asset_id <$> ledger_assets l) = true.
Proof.
  replace (asset_id <$> ledger_assets l) with (asset_pair <$> ledger_assets l).*1 by by rewrite <-list_fmap_compose.
  rewrite ledger_asset_pairs. apply sort_by_key_strict, NoDup_fst_map_to_list.
Qed.

Lemma ledger_assets_wf : Forall asset_wf (ledger_assets l).
Proof.
  apply Forall_forall. intros a Ha. unfold ledger_assets in Ha.
  apply list_elem_of_fmap in Ha as ([k b] & -> & Hb). rewrite (sort_by_key_Permutation fst) in Hb.
  apply elem_of_map_to_list in Hb. by apply Hok in Hb as [_ Hb].
Qed.

Lemma ledger_assets_map : list_to_map (asset_pair <$> ledger_assets l) = pl_assets l.
Proof.
  rewrite ledger_asset_pairs. rewrite (list_to_map_proper _ (map_to_list (pl_assets l))).
  - apply list_to_map_to_list.
  - rewrite sort_by_key_Permutation. apply NoDup_fst_map_to_list.
  - apply sort_by_key_Permutation.
Qed.

Lemma length_ledger_assets : len (ledger_assets l) = Z.of_nat (size (pl_assets l)).
Proof.
  unfold ledger_assets. rewrite length_fmap, (Permutation_length (sort_by_key_Permutation fst _)).
  by rewrite length_map_to_list.
Qed.

End Assets.

(** Registering a list of assets. *)
Lemma register_all_eq {E} assets l l' :
  @register_all E assets l = (Ok tt, l') <->
  NoDup (asset_id <$> assets) /\ (forall a, a ∈ assets -> pl_assets l !! asset_id a = None) /\
  l' = with_assets (list_to_map (asset_pair <$> assets) ∪ pl_assets l) l.
Proof.
  revert l. induction assets as [|a assets IH]; intros l; cbn [register_all].
  - split.
    + intros [= <-]. split_and!; [apply NoDup_nil_2|by intros a ?%not_elem_of_nil|].
      cbn [fmap list_fmap]. rewrite list_to_map_nil, (left_id_L ∅ (∪)). by destruct l.
    + intros (_ & _ & ->). cbn [fmap list_fmap]. rewrite list_to_map_nil, (left_id_L ∅ (∪)). by destruct l.
  - unfold register_asset. msimpl. case_bool_decide as Hs; cbn [negb]; msimpl.
    + split; [done|]. intros (_ & Hnew & _). rewrite (Hnew a) in Hs by (by left). by destruct Hs.
    + change (mk_CandidatePrivateLedgerStateV1 (<[asset_id a:=a]> (pl_assets l)) (pl_snapshot l) (pl_nullifier_tree l) (pl_anchor l))
        with (with_assets (<[asset_id a:=a]> (pl_assets l)) l).
      rewrite IH. cbn [with_assets pl_assets pl_snapshot pl_nullifier_tree pl_anchor fmap list_fmap].
      unfold with_assets. cbn [pl_snapshot pl_nullifier_tree pl_anchor]. rewrite NoDup_cons.
      apply eq_None_not_Some in Hs. change (asset_pair a) with (asset_id a, a). rewrite list_to_map_cons.
      assert (Hmap : asset_id a ∉ asset_id <$> assets ->
        list_to_map (asset_pair <$> assets) ∪ <[asset_id a:=a]> (pl_assets l) =
        <[asset_id a:=a]> (list_to_map (asset_pair <$> assets)) ∪ pl_assets l).
      { intros Hn. rewrite <-insert_union_l, insert_union_r; [done|]. apply not_elem_of_list_to_map_1.
        by rewrite <-list_fmap_compose. }
      split.
      * intros (Hnd & Hnew & ->).
        assert (Hn : asset_id a ∉ asset_id <$> assets).
        { intros (b & Hb & Hin)%list_elem_of_fmap. specialize (Hnew b Hin). by rewrite <-Hb, lookup_insert_eq in Hnew. }
        split_and!; [done|done| |by rewrite Hmap]. intros b [->|Hb]%elem_of_cons; [done|].
        specialize (Hnew b Hb). by apply lookup_insert_None in Hnew as [? _].
      * intros ([Hn Hnd] & Hnew & ->). split_and!; [done| |by rewrite Hmap]. intros b Hb.
        apply lookup_insert_None. split; [apply Hnew; by right|]. intros He. apply Hn. rewrite He.
        by apply list_elem_of_fmap_2.
Qed.

(** ** Records *)

Section Loaded.
Context `{Sha2} (tree : P24Manifest) `{!P24ManifestLaws tree} {E : Type} (sparse : SparseManifest E).
Context `{!SparseManifestLaws sparse} (reference : Poseidon2P24Reference) (Hload : load_reference tree = Ok reference).
Context (r : NullifierSparseTreeReferenceV1) (Hsparse : load_sparse_reference tree sparse = Ok r).

Abbreviation ledger_wf := (ledger_wf tree sparse reference r).

(** The ledgers a record can hold: consistent and within the limits. *)
Record recordable (l : CandidatePrivateLedgerStateV1) : Prop := mk_recordable {
  rc_wf : ledger_wf l;
  rc_nullifiers_wf : Forall vector_wf (sn_spent_nullifiers (pl_snapshot l));
  rc_nullifiers : len (sn_spent_nullifiers (pl_snapshot l)) <= PRIVATE_STATE_RECORD_MAX_NULLIFIERS;
  rc_assets_ok : assets_ok l;
  rc_assets : Z.of_nat (size (pl_assets l)) <= PRIVATE_STATE_RECORD_MAX_ASSETS
}.

Definition record_bytes (l : CandidatePrivateLedgerStateV1) : list byte :=
  fields_bytes (fields_of l) ++ arr (record_checksum (fields_bytes (fields_of l))).

Lemma fields_of_ok l : recordable l -> fields_ok (fields_of l).
Proof.
  intros [[Hsn _ _] Hnw Hn Ha Hs]. split; cbn [fields_of rf_commitments rf_nullifiers rf_assets].
  - apply Hsn.
  - apply Hsn.
  - exact Hn.
  - exact Hnw.
  - by rewrite length_ledger_assets.
  - by apply ledger_assets_sorted.
  - by apply ledger_assets_wf.
Qed.

Lemma encode_asset_eq a : asset_wf a -> @encode_record_asset E a = Ok (asset_entry_bytes a).
Proof.
  intros [Hl _]. unfold encode_record_asset. rewrite (proj2 (try_from_Some 255 _ (len (asset_ticker a)))); [done|].
  split; [done|]. unfold in_range. lia.
Qed.

Lemma encode_assets_eq assets :
  Forall asset_wf assets -> try_map (@encode_record_asset E) assets = Ok (asset_entry_bytes <$> assets).
Proof.
  induction 1 as [|a assets Ha _ IH]; [done|]. cbn [try_map fmap list_fmap]. by rewrite (encode_asset_eq a Ha), IH.
Qed.

Lemma put_count_eq width maximum value :
  0 <= value <= maximum -> @put_count E width maximum value = Ok (to_be_bytes width value).
Proof. intros Hv. unfold put_count. by rewrite (proj2 (try_from_Some _ _ _) (conj eq_refl Hv)). Qed.

(** A recordable ledger is encoded. *)
Lemma encode_recordable l :
  recordable l -> @encode_candidate_private_ledger_state _ E l = Ok (record_bytes l).
Proof.
  intros Hr. pose proof (fields_of_ok l Hr) as [H1 _ H3 _ H5 _ H7].
  cbn [fields_of rf_commitments rf_nullifiers rf_assets] in *.
  unfold encode_candidate_private_ledger_state. cbv zeta.
  rewrite (proj2 (Z.ltb_ge _ _) H3), (proj2 (Z.ltb_ge _ _) H5).
  unfold CANDIDATE_PRIVATE_STATE_MAX_NOTES, PRIVATE_STATE_RECORD_MAX_NULLIFIERS, PRIVATE_STATE_RECORD_MAX_ASSETS in *.
  rewrite !put_count_eq by lia. cbn [mbind result_bind].
  rewrite (encode_assets_eq _ H7). done.
Qed.

Lemma sort_sorted (ns : list NullifierV2) : strictly_sorted ns = true -> sort_by_key id ns = ns.
Proof.
  intros Hs. apply strictly_sorted_unique; [|done|apply sort_by_key_Permutation].
  rewrite <-(list_fmap_id (sort_by_key id ns)). apply sort_by_key_strict. rewrite list_fmap_id.
  by apply strictly_sorted_NoDup.
Qed.

(** Rebuilding the fields of a recordable ledger gives it back. *)
Lemma rebuild_fields l : recordable l -> rebuild_ledger tree sparse (fields_of l) = Ok l.
Proof.
  intros [[Hsn Hnt Ha] Hnw Hn Hok Hs]. destruct (sparse_loaded tree sparse r Hsparse) as [Hr Hv].
  unfold rebuild_ledger. rewrite Hload. cbn [map_err mbind result_bind fields_of rf_commitments rf_nullifiers].
  pose proof (snw_sorted _ _ _ Hsn) as Hsort.
  rewrite (proj2 (snapshot_new_Ok tree reference Hload _ _ (pl_snapshot l) (snw_commitments _ _ _ Hsn))); cycle 1.
  { split_and!; [apply Hsn|apply Hsn|by apply strictly_sorted_NoDup|done|by rewrite sort_sorted|apply Hsn]. }
  cbn [map_err mbind result_bind].
  destruct (new_candidate_Ok tree sparse r Hsparse) as (st & -> & Hst). cbn [map_err mbind result_bind].
  destruct (spend_all_fresh r Hr Hv (sn_spent_nullifiers (pl_snapshot l)) st ∅ Hst) as (nt & -> & Hnt').
  { by apply strictly_sorted_NoDup. }
  { intros n _. apply not_elem_of_empty. }
  { rewrite size_empty. unfold PRIVATE_STATE_RECORD_MAX_NULLIFIERS in Hn. lia. }
  rewrite union_empty_r_L in Hnt'.
  rewrite <-(represents_unique r (pl_nullifier_tree l) nt (spent_set (pl_snapshot l)) Hnt Hnt').
  cbn [map_err mbind result_bind]. unfold ledger_new.
  cbn [fields_of rf_genesis_id rf_validation_context_id rf_tree_parameters rf_state_id rf_assets].
  rewrite Ha. cbn [map_err mbind result_bind pl_anchor]. rewrite bool_decide_true by done. cbn [negb].
  rewrite (proj2 (register_all_eq (ledger_assets l) _ l)); [done|]. split_and!.
  - by apply strictly_sorted_NoDup, ledger_assets_sorted.
  - intros a _. apply lookup_empty.
  - rewrite ledger_assets_map by done. unfold with_assets. cbn. rewrite (right_id_L ∅ (∪)). by destruct l.
Qed.

(** What the decoder rebuilds is recordable. *)
Lemma rebuild_ledger_Ok f l : fields_ok f -> rebuild_ledger tree sparse f = Ok l -> recordable l.
Proof.
  intros [H1 H2 H3 H4 H5 H6 H7] Hok. destruct (sparse_loaded tree sparse r Hsparse) as [Hr Hv].
  unfold rebuild_ledger in Hok. rewrite Hload in Hok. cbn [map_err mbind result_bind] in Hok.
  destruct (snapshot_new tree reference (rf_commitments f) (rf_nullifiers f)) as [sn|e] eqn:Hnew; [|done].
  cbn [map_err mbind result_bind] in Hok.
  pose proof (snapshot_wf_new tree reference Hload _ _ sn H2 Hnew) as Hsn.
  apply (snapshot_new_Ok tree reference Hload _ _ _ H2) in Hnew as (_ & _ & _ & _ & Hns & _).
  destruct (new_candidate_Ok tree sparse r Hsparse) as (st & Hnew & Hst). rewrite Hnew in Hok.
  cbn [map_err mbind result_bind] in Hok.
  destruct (spend_all (sn_spent_nullifiers sn) st) as [nt|e] eqn:Hspend; [|done].
  apply (spend_all_Ok r Hr Hv _ _ _ _ Hst) in Hspend as (_ & _ & Hnt). rewrite union_empty_r_L in Hnt.
  cbn [map_err mbind result_bind] in Hok. unfold ledger_new in Hok.
  destruct (anchor2_new tree sparse _ _ _ sn nt) as [anchor|e] eqn:Ha; [|done].
  cbn [map_err mbind result_bind pl_anchor] in Hok.
  destruct (anchor2_new_fields _ _ _ _ _ _ _ _ Ha) as (Hg & Hc & Hp). rewrite <-Hg, <-Hc, <-Hp in Ha.
  case_bool_decide; cbn [negb] in Hok; [|done].
  destruct (register_all _ _) as [[[]|e] l'] eqn:Hreg; [|done]. cbn [map_err mbind result_bind] in Hok.
  injection Hok as ->. apply register_all_eq in Hreg as (Hnd & _ & ->). unfold with_assets.
  cbn [pl_assets pl_snapshot pl_nullifier_tree pl_anchor]. rewrite (right_id_L ∅ (∪)).
  assert (Hlook : forall id a, list_to_map (M := gmap AssetId AssetDefinition) (asset_pair <$> rf_assets f) !! id = Some a ->
    a ∈ rf_assets f /\ asset_id a = id).
  { intros id a Hid. apply elem_of_list_to_map_2, list_elem_of_fmap in Hid as (b & [= -> ->] & Hb). done. }
  split; cbn [pl_assets pl_snapshot pl_nullifier_tree pl_anchor].
  - by split.
  - rewrite Hns. by rewrite sort_by_key_Permutation.
  - rewrite Hns, (Permutation_length (sort_by_key_Permutation id _)). exact H3.
  - intros id a Hid. destruct (Hlook id a Hid) as [Hin <-]. split; [done|].
    rewrite Forall_forall in H7. by apply H7.
  - rewrite <-length_map_to_list, map_to_list_to_map, length_fmap; [exact H5|]. by rewrite <-list_fmap_compose.
Qed.

(** ** Lengths *)

Lemma length_vectors (vs : list Vector) : len (concat (arr <$> vs)) = 64 * len vs.
Proof. induction vs as [|v vs IH]; [done|]. cbn [fmap list_fmap concat length]. rewrite length_app, length_arr. lia. Qed.

Lemma length_entries assets :
  Forall asset_wf assets -> 0 <= len (concat (asset_entry_bytes <$> assets)) <= 50 * len assets.
Proof.
  induction 1 as [|a assets [Hl _] _ IH]; [done|]. cbn [fmap list_fmap concat length].
  rewrite length_app. unfold asset_entry_bytes at 1 3.
  rewrite !length_app, length_arr, !length_to_be_bytes. lia.
Qed.

Lemma length_fields_bytes f :
  fields_ok f ->
  RECORD_HEADER_LENGTH <= len (fields_bytes f) /\
  len (fields_bytes f) + RECORD_CHECKSUM_LENGTH <= PRIVATE_STATE_RECORD_MAX_BYTES.
Proof.
  intros [H1 _ H3 _ H5 _ H7]. pose proof (length_entries _ H7). unfold fields_bytes.
  rewrite !length_app, !length_arr, !length_to_be_bytes, length_replicate.
  change (length PRIVATE_STATE_RECORD_MAGIC) with 4%nat. rewrite !Nat2Z.inj_add, !length_vectors.
  unfold PRIVATE_STATE_RECORD_MAX_BYTES, RECORD_HEADER_LENGTH, RECORD_CHECKSUM_LENGTH in *. lia.
Qed.

Lemma record_fits : PRIVATE_STATE_RECORD_MAX_BYTES <= ISIZE_MAX.
Proof. by vm_compute. Qed.

Lemma record_bytes_bound l : recordable l -> len (record_bytes l) <= PRIVATE_STATE_RECORD_MAX_BYTES.
Proof.
  intros Hr. pose proof (length_fields_bytes _ (fields_of_ok l Hr)). unfold record_bytes.
  rewrite length_app, length_arr. unfold RECORD_CHECKSUM_LENGTH in *. lia.
Qed.

Lemma decode_record_bytes l : recordable l -> decode_candidate_private_ledger_state tree sparse (record_bytes l) = Ok l.
Proof.
  intros Hr. pose proof (fields_of_ok l Hr) as Hf. pose proof (length_fields_bytes _ Hf) as [Hlo Hhi].
  unfold decode_candidate_private_ledger_state.
  assert (Hlen : len (record_bytes l) = len (fields_bytes (fields_of l)) + RECORD_CHECKSUM_LENGTH).
  { unfold record_bytes. rewrite length_app, length_arr. unfold RECORD_CHECKSUM_LENGTH. lia. }
  rewrite Hlen, (proj2 (Z.ltb_ge _ _)) by lia. cbv zeta.
  replace (Z.to_nat (len (fields_bytes (fields_of l)) + RECORD_CHECKSUM_LENGTH - RECORD_CHECKSUM_LENGTH))
    with (length (fields_bytes (fields_of l))) by lia.
  rewrite (take_app_length _ _ : take _ (record_bytes l) = _), (drop_app_length _ _ : drop _ (record_bytes l) = _).
  rewrite bool_decide_true by done. cbn [negb].
  assert (Hfits : len (fields_bytes (fields_of l)) <= ISIZE_MAX).
  { pose proof record_fits. unfold RECORD_CHECKSUM_LENGTH in Hhi. lia. }
  rewrite (proj2 (read_record_exact _ (fields_of l) Hfits) (conj Hf eq_refl)).
  cbn [mbind result_bind]. rewrite (rebuild_fields l Hr). cbn [mbind result_bind].
  rewrite (encode_recordable l Hr). cbn [mbind result_bind]. by rewrite bool_decide_true.
Qed.

(** The decoder accepts exactly the encodings of recordable ledgers. *)
Lemma decode_record_Ok bytes l :
  len bytes <= ISIZE_MAX ->
  decode_candidate_private_ledger_state tree sparse bytes = Ok l <-> recordable l /\ bytes = record_bytes l.
Proof.
  intros Hl. split; [|intros [Hr ->]; by apply decode_record_bytes]. intros Hd.
  unfold decode_candidate_private_ledger_state in Hd.
  destruct (_ <? _); [done|]. cbv zeta in Hd. destruct (negb _); [done|].
  destruct (run read_record _) as [f|e] eqn:Hf; [|done]. cbn [mbind result_bind] in Hd.
  apply read_record_exact in Hf as [Hok _]; [|rewrite length_take; lia].
  destruct (rebuild_ledger tree sparse f) as [l'|e] eqn:Hb; [|done]. cbn [mbind result_bind] in Hd.
  pose proof (rebuild_ledger_Ok f l' Hok Hb) as Hr. rewrite (encode_recordable l' Hr) in Hd.
  cbn [mbind result_bind] in Hd. case_bool_decide as He; cbn [negb] in Hd; [|done]. injection Hd as <-.
  split; [exact Hr|by rewrite He].
Qed.

(** C32: records of a private ledger round-trip and are canonical.  Every consistent
    ledger within the record's limits encodes, within the size limit, and decodes to
    itself: the rebuilt note root, nullifier tree, anchor and asset registry are
    the recorded ones.  Conversely whatever the decoder accepts is the one encoding
    of the consistent ledger it returns. *)
Theorem private_record_exact :
  (forall l, recordable l -> exists bytes, @encode_candidate_private_ledger_state _ E l = Ok bytes /\
     len bytes <= PRIVATE_STATE_RECORD_MAX_BYTES /\ decode_candidate_private_ledger_state tree sparse bytes = Ok l) /\
  (forall bytes l, len bytes <= ISIZE_MAX -> decode_candidate_private_ledger_state tree sparse bytes = Ok l ->
     recordable l /\ @encode_candidate_private_ledger_state _ E l = Ok bytes).
Proof.
  split.
  - intros l Hr. exists (record_bytes l). split_and!; [by apply encode_recordable|by apply record_bytes_bound|].
    by apply decode_record_bytes.
  - intros bytes l Hl Hd. apply decode_record_Ok in Hd as [Hr ->]; [|done]. split; [done|]. by apply encode_recordable.
Qed.

(** ** Decoding does not panic *)

Lemma snapshot_new_no_panic_digest commitments nullifiers digest :
  root_for_commitments tree reference commitments = Ok digest -> digest_wf digest ->
  snapshot_new tree reference commitments nullifiers <> Err None.
Proof.
  intros Hd Hw. unfold snapshot_new. destruct (_ <? _); [done|]. destruct (negb _); [done|]. cbv zeta.
  destruct (adjacent_equal _); [done|]. rewrite Hd. cbn [mbind result_bind].
  destruct (from_elements_total _ Hw) as (root & -> & _). done.
Qed.

Lemma snapshot_new_no_panic commitments nullifiers :
  Forall vector_wf commitments -> snapshot_new tree reference commitments nullifiers <> Err None.
Proof.
  intros Hc. destruct (loaded_payload tree reference Hload) as [payload Hp].
  exact (snapshot_new_no_panic_digest _ _ _ (root_for_commitments_exact tree payload reference Hp Hload _ Hc)
    (commitments_root_wf tree reference Hload _ Hc)).
Qed.

Lemma anchor2_new_no_panic genesis context parameters sn nt :
  strictly_sorted (sn_spent_nullifiers sn) = true -> @represents E r nt (spent_set sn) ->
  anchor2_new tree sparse genesis context parameters sn nt <> Err None.
Proof.
  intros Hs Hnt. destruct (verify_snapshot_tree_exact tree sparse r Hsparse sn nt Hs Hnt) as (root & Hv & _).
  unfold anchor2_new. rewrite Hv. cbn [mbind result_bind]. by destruct (sparse_candidate_id sparse).
Qed.

Lemma register_all_no_panic assets l : (@register_all E assets l).1 <> Err None.
Proof.
  revert l. induction assets as [|a assets IH]; intros l; [done|]. cbn [register_all]. rewrite M_bind_eq.
  unfold register_asset. msimpl. case_bool_decide; cbn [negb ensure]; msimpl; [done|apply IH].
Qed.

Lemma rebuild_no_panic f : fields_ok f -> rebuild_ledger tree sparse f <> Err None.
Proof.
  intros [_ H2 H3 _ _ _ _] Hok. destruct (sparse_loaded tree sparse r Hsparse) as [Hr Hv].
  unfold rebuild_ledger in Hok. rewrite Hload in Hok. cbn [map_err mbind result_bind] in Hok.
  pose proof (snapshot_new_no_panic (rf_commitments f) (rf_nullifiers f) H2) as Hsn.
  destruct (snapshot_new _ _ _ _) as [sn|[e|]] eqn:Hnew; [|done..]. cbn [map_err mbind result_bind] in Hok. clear Hsn.
  pose proof (snapshot_wf_new tree reference Hload _ _ sn H2 Hnew) as Hsn. pose proof (snw_sorted _ _ _ Hsn) as Hs.
  apply (snapshot_new_Ok tree reference Hload _ _ _ H2) in Hnew as (_ & _ & _ & _ & Hns & _).
  destruct (new_candidate_Ok tree sparse r Hsparse) as (st & Hst' & Hst). rewrite Hst' in Hok.
  cbn [map_err mbind result_bind] in Hok.
  destruct (spend_all_fresh r Hr Hv (sn_spent_nullifiers sn) st ∅ Hst) as (nt & Hnt' & Hnt).
  { by apply strictly_sorted_NoDup. }
  { intros n _. apply not_elem_of_empty. }
  { rewrite size_empty, Hns, (Permutation_length (sort_by_key_Permutation id _)).
    unfold PRIVATE_STATE_RECORD_MAX_NULLIFIERS in H3. lia. }
  rewrite Hnt' in Hok. rewrite union_empty_r_L in Hnt. cbn [map_err mbind result_bind] in Hok. unfold ledger_new in Hok.
  pose proof (anchor2_new_no_panic (rf_genesis_id f) (rf_validation_context_id f) (rf_tree_parameters f) sn nt Hs Hnt) as Hp.
  destruct (anchor2_new _ _ _ _ _ _ _) as [anchor|[e|]]; [|done..]. cbn [map_err mbind result_bind] in Hok.
  destruct (negb _); [done|].
  match type of Hok with context [register_all ?a ?l] => pose proof (register_all_no_panic a l) as Hreg;
    destruct (register_all a l) as [[[]|[e|]] l'] end; done.
Qed.

Lemma decode_no_panic bytes :
  len bytes <= ISIZE_MAX -> decode_candidate_private_ledger_state tree sparse bytes <> Err None.
Proof.
  intros Hl Hd. unfold decode_candidate_private_ledger_state in Hd.
  destruct (_ <? _); [done|]. cbv zeta in Hd. destruct (negb _); [done|].
  destruct (run read_record _) as [f|e] eqn:Hf; cbn [mbind result_bind] in Hd; cycle 1.
  { apply (no_panic_read_record (E := E) (new (take (Z.to_nat (len bytes - RECORD_CHECKSUM_LENGTH)) bytes))).
    injection Hd as ->. exact Hf. }
  apply read_record_exact in Hf as [Hok _]; [|rewrite length_take; lia].
  pose proof (rebuild_no_panic f Hok) as Hb.
  destruct (rebuild_ledger tree sparse f) as [l'|e] eqn:Hl'; cbn [mbind result_bind] in Hd; [|done].
  rewrite (encode_recordable l' (rebuild_ledger_Ok f l' Hok Hl')) in Hd. cbn [mbind result_bind] in Hd.
  by destruct (negb _).
Qed.

End Loaded.

(** ** A record over the checked-in manifests *)

#[local] Existing Instance fips_sha2.

(** A fresh ledger with one asset. *)
Lemma sample_record :
  exists r l, load_sparse_reference frozen_manifest frozen_sparse = Ok r /\
    sparse_candidate_id frozen_sparse = Ok frozen_nxsm_id /\
    recordable frozen_manifest frozen_sparse frozen_reference r l /\ sn_spent_nullifiers (pl_snapshot l) = [] /\
    ledger_notes l = [] /\ pl_assets l = {[sample_id := mk_AssetDefinition sample_id (bytes_of_string "NOX") NativeBacked]}.
Proof.
  destruct frozen_sparse_loads as [r Hr]. destruct frozen_nxsm_facts as (nxsm & _ & Hid).
  destruct (fresh_ledger frozen_manifest frozen_sparse frozen_reference frozen_manifest_reference r Hr
    frozen_nxsm_id Hid sample_id sample_id (mk_TreeParametersV2 sample_id)
    {[sample_id := mk_AssetDefinition sample_id (bytes_of_string "NOX") NativeBacked]}) as (l & Hl & Hspent & Hnotes & Hassets).
  assert (Hns : sn_spent_nullifiers (pl_snapshot l) = []).
  { destruct (sn_spent_nullifiers (pl_snapshot l)) as [|n ns] eqn:Hn; [done|]. exfalso.
    apply (not_elem_of_empty (C := gset NullifierV2) n). rewrite <-Hspent. unfold ledger_spent, spent_set. rewrite Hn.
    apply elem_of_list_to_set. by left. }
  exists r, l. split_and!; [exact Hr|exact Hid| |exact Hns|exact Hnotes|exact Hassets].
  split; rewrite ?Hns; [exact Hl|by apply Forall_nil_2|by vm_compute| |].
  - unfold assets_ok. rewrite Hassets. apply map_Forall_singleton. split; [done|].
    refine (proj2 (proj1 (asset_definition_new_Ok sample_id (bytes_of_string "NOX") NativeBacked _) _)).
    vm_compute. reflexivity.
  - rewrite Hassets, map_size_singleton. by vm_compute.
Qed.

Lemma private_record_exact_witness :
  exists r l bytes, recordable frozen_manifest frozen_sparse frozen_reference r l /\
    decode_candidate_private_ledger_state frozen_manifest frozen_sparse bytes = Ok l /\ pl_assets l <> ∅.
Proof.
  destruct sample_record as (r & l & Hr & _ & Hrec & _ & _ & Hassets).
  destruct (proj1 (private_record_exact frozen_manifest frozen_sparse frozen_reference frozen_manifest_reference r Hr) l Hrec)
    as (bytes & _ & _ & Hd).
  exists r, l, bytes. split; [exact Hrec|]. split; [exact Hd|]. rewrite Hassets. apply map_non_empty_singleton.
Defined.
