(* ===== verification/Disk.v ===== *)
(** * Files under failures and crashes

    The stores of a private ledger keep three files of one directory.  Every call
    to the operating system has an outcome: it is done, it fails, or the process
    ends in it.  A failed or interrupted call may have had part of its effect.
    An outcome is chosen for each call in turn; when none is left, calls are
    done.  No file is longer than an [off_t] can say.  Renaming is atomic, and a
    file name that was created, renamed or removed stays so. *)

From Stdlib Require Import Strings.Byte Strings.String.
From stdpp Require Import gmap.
From S2P Require Import Prelude Arrays Types CheckpointStore.

Abbreviation Files := (gmap FileName (list byte)).

Inductive Outcome : Type :=
| Done
| Failed (progress : nat)
| Crashed (progress : nat).

Record Disk : Type := mk_Disk {
  d_files : Files;
  d_outcomes : list Outcome;
  d_process : Z;
  d_sequence : Z
}.

(** How an operation ends without a result. *)
Inductive Fault (E : Type) : Type :=
| Crash
| Panic
| Error (error : E).
Arguments Crash {E}.
Arguments Panic {E}.
Arguments Error {E} error.

Abbreviation IO E := (M Disk (Fault E)).

Definition MAX_FILE_LENGTH : Z := ISIZE_MAX.

Definition set_files (files : Files) (d : Disk) : Disk :=
  mk_Disk files (d_outcomes d) (d_process d) (d_sequence d).

Definition next_outcome {E} : IO E Outcome :=
  fun d =>
    match d_outcomes d with
    | [] => (Ok Done, d)
    | outcome :: outcomes => (Ok outcome, mk_Disk (d_files d) outcomes (d_process d) (d_sequence d))
    end.

(** The result of a computation without calls; [None] is a panic. *)
Definition of_result {E A} (r : Result (option E) A) : IO E A :=
  lift (map_err (fun e => match e with Some e => Error e | None => Panic end) r).

Definition of_error {E A} (error : E) : IO E A := lift (Err (Error error)).

Definition map_error {E E' A} (f : E -> E') (m : IO E A) : IO E' A :=
  fun d =>
    let '(r, d) := m d in
    (map_err (fun fault => match fault with Crash => Crash | Panic => Panic | Error e => Error (f e) end) r, d).

(** A result kept as a value: a crash or a panic goes past it. *)
Definition attempt {E E' A} (m : IO E A) : IO E' (Result E A) :=
  fun d =>
    match m d with
    | (Ok a, d) => (Ok (Ok a), d)
    | (Err (Error e), d) => (Ok (Err e), d)
    | (Err Crash, d) => (Err Crash, d)
    | (Err Panic, d) => (Err Panic, d)
    end.

(** ** Calls *)

(** A call with an effect on the files; [result] is what it does when done, [part]
    what a failed or interrupted one leaves. *)
Definition os_call {E A} (error : E) (result : Files -> option (A * Files)) (part : nat -> Files -> Files) : IO E A :=
  outcome ← next_outcome;
  d ← get;
  match outcome with
  | Done =>
      match result (d_files d) with
      | Some (a, files) => _ ← put (set_files files d); mret a
      | None => of_error error
      end
  | Failed progress => _ ← put (set_files (part progress (d_files d)) d); of_error error
  | Crashed progress => _ ← put (set_files (part progress (d_files d)) d); lift (Err Crash)
  end.

(** A call without an effect on the files. *)
Definition plain_call {E} (error : E) : IO E unit :=
  os_call error (fun files => Some (tt, files)) (fun _ files => files).

(** [Path::exists]: a failure reads as absence. *)
Definition path_exists {E} (path : FileName) : IO E bool :=
  outcome ← next_outcome;
  d ← get;
  match outcome with
  | Done => mret (bool_decide (is_Some (d_files d !! path)))
  | Failed _ => mret false
  | Crashed _ => lift (Err Crash)
  end.

(** [OpenOptions] with [create(true).truncate(false)]. *)
Definition open_or_create {E} (error : E) (path : FileName) : IO E unit :=
  os_call error
    (fun files => Some (tt, match files !! path with Some _ => files | None => <[path := []]> files end))
    (fun _ files => files).

(** [OpenOptions] with [create_new(true)]. *)
Definition create_new {E} (error : E) (path : FileName) : IO E unit :=
  os_call error
    (fun files => match files !! path with Some _ => None | None => Some (tt, <[path := []]> files) end)
    (fun _ files => files).

(** [n] of the bytes to append, as far as the file can grow. *)
Definition grown (contents bytes : list byte) (n : Z) : list byte :=
  contents ++ take (Z.to_nat (Z.min n (MAX_FILE_LENGTH - len contents))) bytes.

Definition write_all {E} (error : E) (path : FileName) (bytes : list byte) : IO E unit :=
  outcome ← next_outcome;
  d ← get;
  let contents := default [] (d_files d !! path) in
  let written n := set_files (<[path := grown contents bytes n]> (d_files d)) d in
  match outcome with
  | Done =>
      _ ← put (written (len bytes));
      if MAX_FILE_LENGTH <? len contents + len bytes then of_error error else mret tt
  | Failed progress => _ ← put (written (Z.of_nat progress)); of_error error
  | Crashed progress => _ ← put (written (Z.of_nat progress)); lift (Err Crash)
  end.

(** [flush], [sync_data] and [sync_all] after an append of [unsynced] bytes: unless
    the call is done some of them may be lost. *)
Definition sync_file {E} (error : E) (path : FileName) (unsynced : nat) : IO E unit :=
  os_call error (fun files => Some (tt, files))
    (fun progress files =>
       match files !! path with
       | Some contents => <[path := take (length contents - Nat.min progress unsynced) contents]> files
       | None => files
       end).

Definition rename {E} (error : E) (from to : FileName) : IO E unit :=
  os_call error
    (fun files =>
       match files !! from with
       | Some contents => Some (tt, <[to := contents]> (delete from files))
       | None => None
       end)
    (fun _ files => files).

Definition remove_file {E} (error : E) (path : FileName) : IO E unit :=
  os_call error
    (fun files => match files !! path with Some _ => Some (tt, delete path files) | None => None end)
    (fun _ files => files).

(** [fs::metadata(path)?.len()] and [fs::read(path)]. *)
Definition metadata_len {E} (error : E) (path : FileName) : IO E Z :=
  os_call error (fun files => (fun contents => (len contents, files)) <$> (files !! path)) (fun _ files => files).

Definition read_file {E} (error : E) (path : FileName) : IO E (list byte) :=
  os_call error (fun files => (fun contents => (contents, files)) <$> (files !! path)) (fun _ files => files).

Definition set_len {E} (error : E) (path : FileName) (length : Z) : IO E unit :=
  os_call error
    (fun files => Some (tt, alter (take (Z.to_nat length)) path files))
    (fun _ files => files).

(** ** File names *)

(** [Path::file_stem], with the directory before it, and [Path::extension] of a
    path that ends in an ordinary file name. *)
Definition file_split (path : FileName) : FileName * option (list byte) :=
  let '(directory, name) :=
    match rsplit_once x2f path with
    | Some (directory, name) => (directory ++ [x2f], name)
    | None => ([], path)
    end in
  match rsplit_once x2e name with
  | Some ([], _) | None => (path, None)
  | Some (before, after) => (directory ++ before, Some after)
  end.

(** [Path::with_extension]. *)
Definition with_extension (name : FileName) (extension : list byte) : FileName :=
  (file_split name).1 ++ match extension with [] => [] | _ => x2e :: extension end.

(** [path.extension().and_then(to_str).unwrap_or("nxpr")]. *)
Definition extension_or_nxpr (name : FileName) : list byte :=
  match (file_split name).2 with
  | Some extension => if valid_utf8 extension then extension else bytes_of_string "nxpr"
  | None => bytes_of_string "nxpr"
  end.

Definition sidecar_path (name : FileName) (suffix : list byte) : FileName :=
  with_extension name (extension_or_nxpr name ++ [x2e] ++ suffix).
