(* ===== verification/DiskFacts.v ===== *)
(** * Reasoning about files under failures

    A specification of an operation on files holds for every choice of outcomes
    ([is_calm = false]) or for the run in which every call is done ([is_calm = true]).
    The names of the sidecar, lock and temporary files of a path differ. *)

From Stdlib Require Import Strings.Byte Strings.String.
From stdpp Require Import gmap.
From S2P Require Import Prelude Arrays Types CheckpointStore Disk.

(** ** Specifications *)

(** Which runs a specification is about; in a calm one the process is known. *)
Record Mode : Type := mk_Mode {
  is_calm : bool;
  md_process : Z
}.

Definition steady (calm : Mode) (d : Disk) : Prop := is_calm calm = true -> d_outcomes d = [] /\ d_process d = md_process calm.

Section Spec.
Context {E : Type} (calm : Mode).

Definition spec {A : Type} (P : Files -> Prop) (m : IO E A) (Q : A -> Files -> Prop) (R : Fault E -> Files -> Prop) : Prop :=
  forall d, steady calm d -> P (d_files d) ->
  steady calm (m d).2 /\
  match (m d).1 with
  | Ok a => Q a (d_files (m d).2)
  | Err e => R e (d_files (m d).2)
  end.

(** Errors are left to the runs with failures, which keep [I]. *)
Definition failing (I : Files -> Prop) : Fault E -> Files -> Prop := fun _ f => is_calm calm = false /\ I f.

Lemma spec_bind {A B : Type} (P : Files -> Prop) (m : IO E A) (Q : A -> Files -> Prop) (k : A -> IO E B)
    (Q' : B -> Files -> Prop) (R : Fault E -> Files -> Prop) :
  spec P m Q R -> (forall a, spec (Q a) (k a) Q' R) -> spec P (m ≫= k) Q' R.
Proof.
  intros Hm Hk d Hc HP. rewrite M_bind_eq. destruct (Hm d Hc HP) as [Hc' Hr].
  destruct (m d) as [[a|e] d']; cbn in *; [by apply Hk|done].
Qed.

Lemma spec_conseq {A : Type} (P P' : Files -> Prop) (m : IO E A) (Q Q' : A -> Files -> Prop) (R R' : Fault E -> Files -> Prop) :
  spec P m Q R -> (forall f, P' f -> P f) -> (forall a f, Q a f -> Q' a f) -> (forall e f, R e f -> R' e f) ->
  spec P' m Q' R'.
Proof.
  intros Hm HP HQ HR d Hc H'. destruct (Hm d Hc (HP _ H')) as [Hc' Hr].
  destruct (m d) as [[a|e] d']; cbn in *; auto.
Qed.

Lemma spec_pre {A : Type} (P P' : Files -> Prop) (m : IO E A) (Q : A -> Files -> Prop) (R : Fault E -> Files -> Prop) : spec P m Q R -> (forall f, P' f -> P f) -> spec P' m Q R.
Proof. intros Hm HP. by eapply spec_conseq. Qed.

Lemma spec_weaken {A : Type} (I I' : Files -> Prop) (P : Files -> Prop) (m : IO E A) (Q : A -> Files -> Prop) :
  spec P m Q (failing I) -> (forall f, I f -> I' f) -> spec P m Q (failing I').
Proof. intros Hm HI. eapply spec_conseq; [exact Hm|done|done|]. intros e f [Hc Hf]. split; [done|by apply HI]. Qed.

Lemma spec_fact {A : Type} (φ : Prop) (P : Files -> Prop) (m : IO E A) (Q : A -> Files -> Prop) (R : Fault E -> Files -> Prop) :
  (φ -> spec P m Q R) -> spec (fun f => φ /\ P f) m Q R.
Proof. intros Hm d Hc [Hφ HP]. by apply Hm. Qed.

Lemma spec_exists {A X : Type} (P : X -> Files -> Prop) (m : IO E A) (Q : A -> Files -> Prop) (R : Fault E -> Files -> Prop) :
  (forall x, spec (P x) m Q R) -> spec (fun f => exists x, P x f) m Q R.
Proof. intros Hm d Hc [x HP]. by eapply Hm. Qed.

(** The files before the operation by name. *)
Lemma spec_at {A : Type} (P : Files -> Prop) (m : IO E A) (Q : A -> Files -> Prop) (R : Fault E -> Files -> Prop) :
  (forall f0, P f0 -> spec (fun f => f = f0) m Q R) -> spec P m Q R.
Proof. intros Hm d Hc HP. by apply (Hm (d_files d)). Qed.

Lemma spec_ret {A : Type} (P : Files -> Prop) (a : A) (Q : A -> Files -> Prop) (R : Fault E -> Files -> Prop) :
  (forall f, P f -> Q a f) -> spec P (mret a) Q R.
Proof. intros HQ d Hc HP. split; [done|]. by apply HQ. Qed.

Lemma spec_of_result {A : Type} (P : Files -> Prop) (r : Result (option E) A) (Q : A -> Files -> Prop) (R : Fault E -> Files -> Prop) :
  match r with
  | Ok a => forall f, P f -> Q a f
  | Err (Some e) => forall f, P f -> R (Error e) f
  | Err None => forall f, P f -> R Panic f
  end -> spec P (of_result r) Q R.
Proof. intros Hr d Hc HP. split; [by destruct r as [|[]]|]. destruct r as [|[]]; by apply Hr. Qed.

Lemma spec_of_error {A : Type} (P : Files -> Prop) (e : E) (Q : A -> Files -> Prop) (R : Fault E -> Files -> Prop) :
  (forall f, P f -> R (Error e) f) -> spec P (of_error e) Q R.
Proof. intros HR d Hc HP. split; [done|]. by apply HR. Qed.

(** With an outcome left the run is not calm. *)
Lemma steady_outcome d o os : steady calm d -> d_outcomes d = o :: os -> is_calm calm = false.
Proof. unfold steady. intros Hc Ho. destruct (is_calm calm); [|done]. destruct (Hc eq_refl). congruence. Qed.

Lemma steady_storm d : is_calm calm = false -> steady calm d.
Proof. intros Hf Hc. congruence. Qed.

(** ** Calls *)

Lemma spec_os_call {A : Type} (P : Files -> Prop) (e : E) (result : Files -> option (A * Files)) (part : nat -> Files -> Files) (Q : A -> Files -> Prop) (R : Fault E -> Files -> Prop) :
  (forall f, P f -> match result f with Some (a, f') => Q a f' | None => R (Error e) f end) ->
  (is_calm calm = false -> forall f n, P f -> R (Error e) (part n f) /\ R Crash (part n f)) ->
  spec P (os_call e result part) Q R.
Proof.
  intros Hdone Hpart d Hc HP. specialize (Hdone _ HP). unfold os_call. rewrite M_bind_eq. unfold next_outcome.
  destruct (d_outcomes d) as [|o os] eqn:Ho.
  - msimpl. destruct (result (d_files d)) as [[a f']|]; msimpl; done.
  - pose proof (steady_outcome d o os Hc Ho) as Hf. pose proof steady_storm as Hs.
    destruct o as [|n|n]; msimpl; cbn [d_files]; [|split; [by apply Hs|]; by apply Hpart..].
    destruct (result (d_files d)) as [[a f']|]; msimpl; (split; [by apply Hs|done]).
Qed.

(** A call that only looks at the files. *)
Lemma spec_plain_call (P : Files -> Prop) (e : E) : spec P (plain_call e) (fun _ => P) (failing P).
Proof. apply spec_os_call; [done|]. intros Hc f n HP. done. Qed.

Lemma spec_path_exists (P : Files -> Prop) (path : FileName) :
  spec P (path_exists path)
    (fun b f => P f /\ (b = true -> is_Some (f !! path)) /\ (is_calm calm = true -> b = bool_decide (is_Some (f !! path))))
    (failing P).
Proof.
  intros d Hc HP. unfold path_exists, failing. rewrite M_bind_eq. unfold next_outcome.
  destruct (d_outcomes d) as [|o os] eqn:Ho.
  - msimpl. split; [done|]. split_and!; [done| |done]. by intros ?%bool_decide_eq_true.
  - pose proof (steady_outcome d o os Hc Ho) as Hf. pose proof steady_storm as Hs. destruct o as [|n|n]; msimpl; cbn [d_files].
    + split; [by apply Hs|]. split_and!; [done| |done]. by intros ?%bool_decide_eq_true.
    + split; [by apply Hs|]. split_and!; [done|done|congruence].
    + cbn. split; [by apply Hs|]. by split.
Qed.

Lemma spec_metadata_len (P : Files -> Prop) (e : E) (path : FileName) :
  spec P (metadata_len e path) (fun n f => P f /\ exists c, f !! path = Some c /\ n = len c)
    (fun x f => P f /\ (is_calm calm = true -> x = Error e /\ f !! path = None)).
Proof.
  apply spec_os_call.
  - intros f HP. destruct (f !! path) as [c|] eqn:Hf; cbn; [|done]. split; [done|]. by exists c.
  - intros Hc f n HP. split; (split; [done|congruence]).
Qed.

Lemma spec_read_file (P : Files -> Prop) (e : E) (path : FileName) :
  spec P (read_file e path) (fun c f => P f /\ f !! path = Some c)
    (fun x f => P f /\ (is_calm calm = true -> x = Error e /\ f !! path = None)).
Proof.
  apply spec_os_call.
  - intros f HP. by destruct (f !! path) as [c|] eqn:Hf.
  - intros Hc f n HP. split; (split; [done|congruence]).
Qed.

Lemma grown_full (c bytes : list byte) : len c + len bytes <= MAX_FILE_LENGTH -> grown c bytes (len bytes) = c ++ bytes.
Proof. intros Hl. unfold grown. rewrite Z.min_l by lia. by rewrite Nat2Z.id, firstn_all. Qed.

Lemma grown_part (c bytes : list byte) (n : Z) : exists k, grown c bytes n = c ++ take k bytes.
Proof. unfold grown. by eexists. Qed.

Lemma grown_bound (c bytes : list byte) (n : Z) : len c <= MAX_FILE_LENGTH -> len (grown c bytes n) <= MAX_FILE_LENGTH.
Proof. intros Hl. unfold grown. rewrite length_app, length_take. lia. Qed.

(** An append to a file: all of it, or a part that fits. *)
Lemma spec_write_all (P : Files -> Prop) (e : E) (path : FileName) (c bytes : list byte) (Q : Files -> Prop) (R : Fault E -> Files -> Prop) :
  len c <= MAX_FILE_LENGTH -> (forall f, P f -> f !! path = Some c) ->
  (len c + len bytes <= MAX_FILE_LENGTH -> forall f, P f -> Q (<[path := c ++ bytes]> f)) ->
  (is_calm calm = true -> len c + len bytes <= MAX_FILE_LENGTH) ->
  (is_calm calm = false -> forall f k x, P f -> len (c ++ take k bytes) <= MAX_FILE_LENGTH ->
     R x (<[path := c ++ take k bytes]> f)) ->
  spec P (write_all e path bytes) (fun _ => Q) R.
Proof.
  intros Hl Hpath HQ Hcalm HR d Hc HP. specialize (Hpath _ HP).
  assert (Hpart : is_calm calm = false -> forall x n, R x (<[path := grown c bytes n]> (d_files d))).
  { intros Hf x n. pose proof (grown_bound c bytes n Hl) as Hb. destruct (grown_part c bytes n) as [k Hk].
    rewrite Hk in *. by apply HR. }
  unfold write_all. rewrite M_bind_eq. unfold next_outcome.
  destruct (d_outcomes d) as [|o os] eqn:Ho; msimpl; cbn [d_files]; rewrite ?Hpath; cbn [from_option id].
  - destruct (Z.ltb_spec MAX_FILE_LENGTH (len c + len bytes)) as [Hlt|Hle]; msimpl; cbn; (split; [exact Hc|]).
    + apply Hpart. destruct (is_calm calm); [|done]. specialize (Hcalm eq_refl). lia.
    + rewrite grown_full by done. by apply HQ.
  - pose proof (steady_outcome d o os Hc Ho) as Hf. pose proof steady_storm as Hs.
    destruct o as [|n|n]; msimpl; [|cbn; split; [by apply Hs|]; by apply Hpart..].
    destruct (Z.ltb_spec MAX_FILE_LENGTH (len c + len bytes)) as [Hlt|Hle]; msimpl; cbn; (split; [by apply Hs|]).
    + by apply Hpart.
    + rewrite grown_full by done. by apply HQ.
Qed.

End Spec.

Lemma spec_map_error {E E' A : Type} (calm : Mode) (g : E -> E') (P : Files -> Prop) (m : IO E A) (Q : A -> Files -> Prop) (I : Files -> Prop) :
  spec calm P m Q (failing calm I) -> spec calm P (map_error g m) Q (failing calm I).
Proof.
  intros Hm d Hc HP. destruct (Hm d Hc HP) as [Hc' Hr]. unfold map_error.
  by destruct (m d) as [[a|[| |e]] d'].
Qed.

Lemma spec_attempt {E E' A : Type} (calm : Mode) (P : Files -> Prop) (m : IO E A) (Q : A -> Files -> Prop) (R : Fault E -> Files -> Prop) (R' : Fault E' -> Files -> Prop) :
  spec calm P m Q R -> (forall f, R Crash f -> R' Crash f) -> (forall f, R Panic f -> R' Panic f) ->
  spec calm P (attempt m) (fun r f => match r with Ok a => Q a f | Err e => R (Error e) f end) R'.
Proof.
  intros Hm Hcr Hpa d Hc HP. destruct (Hm d Hc HP) as [Hc' Hr]. unfold attempt.
  destruct (m d) as [[a|[| |e]] d']; cbn in *; auto.
Qed.

(** ** Which errors an operation returns *)

Section Raises.
Context {E : Type} (φ : E -> Prop).

Definition raises {A : Type} (m : IO E A) : Prop := forall d, match (m d).1 with Err (Error e) => φ e | _ => True end.

Lemma raises_bind {A B : Type} (m : IO E A) (k : A -> IO E B) : raises m -> (forall a, raises (k a)) -> raises (m ≫= k).
Proof. intros Hm Hk d. rewrite M_bind_eq. specialize (Hm d). destruct (m d) as [[a|e] d']; [apply Hk|exact Hm]. Qed.

Lemma raises_ret {A : Type} (a : A) : raises (mret a).
Proof. done. Qed.

Lemma raises_get : raises get.
Proof. done. Qed.

Lemma raises_put (d : Disk) : raises (put d).
Proof. done. Qed.

Lemma raises_of_error {A : Type} (e : E) : φ e -> raises (of_error (A := A) e).
Proof. by intros He d. Qed.

Lemma raises_crash {A : Type} : raises (lift (A := A) (Err Crash)).
Proof. done. Qed.

Lemma raises_of_result {A : Type} (x : Result (option E) A) : (forall e, x = Err (Some e) -> φ e) -> raises (of_result x).
Proof. intros Hx d. destruct x as [a|[e|]]; cbn; [done| |done]. by apply Hx. Qed.

Lemma raises_next_outcome : raises next_outcome.
Proof. intros d. unfold next_outcome. by destruct (d_outcomes d). Qed.

Lemma raises_os_call {A : Type} (e : E) (result : Files -> option (A * Files)) part : φ e -> raises (os_call e result part).
Proof.
  intros He. apply raises_bind; [apply raises_next_outcome|]. intros o. apply raises_bind; [apply raises_get|]. intros d.
  destruct o; [destruct (result (d_files d)) as [[a f]|]; [|by apply raises_of_error]| |];
    (apply raises_bind; [apply raises_put|]; intros []); [apply raises_ret|by apply raises_of_error|apply raises_crash].
Qed.

Lemma raises_write_all (e : E) (path : FileName) (bytes : list byte) : φ e -> raises (write_all e path bytes).
Proof.
  intros He. apply raises_bind; [apply raises_next_outcome|]. intros o. apply raises_bind; [apply raises_get|]. intros d.
  destruct o; (apply raises_bind; [apply raises_put|]; intros []); [|by apply raises_of_error|apply raises_crash].
  destruct (_ <? _); [by apply raises_of_error|apply raises_ret].
Qed.

Lemma raises_path_exists (path : FileName) : raises (path_exists path).
Proof.
  apply raises_bind; [apply raises_next_outcome|]. intros o. apply raises_bind; [apply raises_get|]. intros d.
  destruct o; [apply raises_ret|apply raises_ret|apply raises_crash].
Qed.

(** An error that is kept is one of the operation. *)
Lemma raises_attempt {A B : Type} (m : IO E A) (k : Result E A -> IO E B) :
  raises m -> (forall x, (forall e, x = Err e -> φ e) -> raises (k x)) -> raises (attempt m ≫= k).
Proof.
  intros Hm Hk d. rewrite M_bind_eq. unfold attempt. specialize (Hm d).
  destruct (m d) as [[a|[| |e]] d']; cbn in *; [by apply Hk|done|done|]. apply Hk. by intros e' [= <-].
Qed.

Lemma raises_map_error {E' A : Type} (g : E' -> E) (m : IO E' A) : (forall e, φ (g e)) -> raises (map_error g m).
Proof. intros Hg d. unfold map_error. destruct (m d) as [[a|[| |e]] d']; cbn; [done..|apply Hg]. Qed.

End Raises.

(** ** Which files an operation changes *)

Section Touches.
Context {E : Type} (N : FileName -> Prop).

Definition agree_off (f g : Files) : Prop := forall n, ~ N n -> g !! n = f !! n.
Definition touches {A : Type} (m : IO E A) : Prop := forall d, agree_off (d_files d) (d_files (m d).2).

Lemma agree_off_refl f : agree_off f f.
Proof. done. Qed.

Lemma agree_off_insert f p x : N p -> agree_off f (<[p := x]> f).
Proof. intros Hp n Hn. rewrite lookup_insert_ne; [done|]. intros ->. done. Qed.

Lemma agree_off_delete f p : N p -> agree_off f (delete p f).
Proof. intros Hp n Hn. rewrite lookup_delete_ne; [done|]. intros ->. done. Qed.

Lemma agree_off_trans f g h : agree_off f g -> agree_off g h -> agree_off f h.
Proof. intros H1 H2 n Hn. by rewrite (H2 n Hn), (H1 n Hn). Qed.

Lemma touches_bind {A B : Type} (m : IO E A) (k : A -> IO E B) : touches m -> (forall a, touches (k a)) -> touches (m ≫= k).
Proof.
  intros Hm Hk d. rewrite M_bind_eq. specialize (Hm d). destruct (m d) as [[a|e] d']; [|exact Hm].
  eapply agree_off_trans; [exact Hm|apply Hk].
Qed.

Lemma touches_ret {A : Type} (a : A) : touches (mret a).
Proof. done. Qed.

Lemma touches_of_result {A : Type} (x : Result (option E) A) : touches (of_result x).
Proof. done. Qed.

Lemma touches_of_error {A : Type} (e : E) : touches (of_error (A := A) e).
Proof. done. Qed.

Lemma touches_os_call {A : Type} (e : E) (result : Files -> option (A * Files)) part :
  (forall f, match result f with Some (_, f') => agree_off f f' | None => True end) -> (forall n f, agree_off f (part n f)) ->
  touches (os_call e result part).
Proof.
  intros Hr Hp d. unfold os_call. rewrite M_bind_eq. unfold next_outcome.
  destruct (d_outcomes d) as [|[|n|n] os]; msimpl; cbn [d_files]; try apply Hp;
    specialize (Hr (d_files d)); destruct (result (d_files d)) as [[a f']|]; msimpl; done.
Qed.

Lemma touches_plain_call (e : E) : touches (plain_call e).
Proof. by apply touches_os_call. Qed.

Lemma touches_path_exists (path : FileName) : touches (path_exists path).
Proof.
  intros d. unfold path_exists. rewrite M_bind_eq. unfold next_outcome. by destruct (d_outcomes d) as [|[|n|n] os].
Qed.

Lemma touches_write_all (e : E) (path : FileName) (bytes : list byte) : N path -> touches (write_all e path bytes).
Proof.
  intros Hp d. unfold write_all. rewrite M_bind_eq. unfold next_outcome.
  destruct (d_outcomes d) as [|[|n|n] os]; msimpl; try destruct (_ <? _); msimpl; by apply agree_off_insert.
Qed.

Lemma touches_open_or_create (e : E) (path : FileName) : N path -> touches (open_or_create e path).
Proof.
  intros Hp. apply touches_os_call; [|done]. intros f. destruct (f !! path); [done|by apply agree_off_insert].
Qed.

Lemma touches_create_new (e : E) (path : FileName) : N path -> touches (create_new e path).
Proof. intros Hp. apply touches_os_call; [|done]. intros f. destruct (f !! path); [done|by apply agree_off_insert]. Qed.

Lemma touches_sync_file (e : E) (path : FileName) n : N path -> touches (sync_file e path n).
Proof. intros Hp. apply touches_os_call; [done|]. intros k f. destruct (f !! path); [by apply agree_off_insert|done]. Qed.

Lemma touches_rename (e : E) (from to : FileName) : N from -> N to -> touches (rename e from to).
Proof.
  intros Hf Ht. apply touches_os_call; [|done]. intros f. destruct (f !! from); [|done].
  eapply agree_off_trans; [by apply (agree_off_delete f from)|by apply agree_off_insert].
Qed.

Lemma touches_remove_file (e : E) (path : FileName) : N path -> touches (remove_file e path).
Proof. intros Hp. apply touches_os_call; [|done]. intros f. destruct (f !! path); [by apply agree_off_delete|done]. Qed.

Lemma touches_set_len (e : E) (path : FileName) n : N path -> touches (set_len e path n).
Proof.
  intros Hp. apply touches_os_call; [|done]. intros f m Hm. rewrite lookup_alter_ne; [done|]. intros ->. done.
Qed.

Lemma touches_metadata_len (e : E) (path : FileName) : touches (metadata_len e path).
Proof. apply touches_os_call; [|done]. intros f. by destruct (f !! path). Qed.

Lemma touches_read_file (e : E) (path : FileName) : touches (read_file e path).
Proof. apply touches_os_call; [|done]. intros f. by destruct (f !! path). Qed.

End Touches.

Lemma touches_map_error {E E' A : Type} (N : FileName -> Prop) (g : E -> E') (m : IO E A) :
  touches N m -> touches N (map_error g m).
Proof. intros Hm d. unfold map_error. specialize (Hm d). by destruct (m d). Qed.

Lemma touches_attempt {E E' A : Type} (N : FileName -> Prop) (m : IO E A) : touches N m -> touches N (attempt (E' := E') m).
Proof. intros Hm d. unfold attempt. specialize (Hm d). by destruct (m d) as [[a|[| |e]] d']. Qed.

(** What does not depend on the files an operation changes is kept. *)
Lemma spec_frame {E A : Type} (calm : Mode) (N : FileName -> Prop) (F P : Files -> Prop) (m : IO E A) (Q : A -> Files -> Prop) (R : Fault E -> Files -> Prop) :
  touches N m -> (forall f g, agree_off N f g -> F f -> F g) -> spec calm P m Q R ->
  spec calm (fun f => F f /\ P f) m (fun a f => F f /\ Q a f) (fun e f => F f /\ R e f).
Proof.
  intros Ht HF Hm d Hc [Hf HP]. destruct (Hm d Hc HP) as [Hc' Hr]. split; [exact Hc'|].
  pose proof (HF _ _ (Ht d) Hf) as Hf'. by destruct (m d) as [[a|e] d'].
Qed.

(** ** File names *)

Fixpoint dots (l : list byte) : nat :=
  match l with
  | [] => O
  | b :: l => ((if Byte.eqb b x2e then 1 else 0) + dots l)%nat
  end.

Lemma dots_app (l k : list byte) : dots (l ++ k) = (dots l + dots k)%nat.
Proof. induction l as [|b l IH]; [done|]. cbn [app dots]. lia. Qed.

Lemma rsplit_once_Some (sep : byte) (l before after : list byte) :
  rsplit_once sep l = Some (before, after) -> l = before ++ sep :: after /\ sep ∉ after.
Proof.
  revert before. induction l as [|b l IH]; intros before; cbn [rsplit_once]; [done|].
  destruct (rsplit_once sep l) as [[x y]|] eqn:Hs.
  - intros [= <- <-]. destruct (IH x eq_refl) as [-> Hn]. done.
  - case_bool_decide; [|done]. intros [= <- <-]. subst b. split; [done|]. clear IH.
    induction l as [|b l IH]; [apply not_elem_of_nil|]. cbn [rsplit_once] in Hs.
    destruct (rsplit_once sep l) as [[? ?]|]; [done|]. case_bool_decide; [done|].
    apply not_elem_of_cons. split; [congruence|by apply IH].
Qed.

Lemma dots_none (l : list byte) : x2e ∉ l -> dots l = 0%nat.
Proof.
  induction l as [|b l IH]; [done|]. intros [Hb Hl]%not_elem_of_cons. cbn [dots]. rewrite (IH Hl).
  destruct (Byte.eqb b x2e) eqn:He; [|done]. apply Byte.byte_dec_bl in He. congruence.
Qed.

(** The extension has no dot. *)
Lemma file_split_dots (path : FileName) : (dots path <= S (dots (file_split path).1))%nat.
Proof.
  unfold file_split. destruct (rsplit_once x2f path) as [[directory name]|] eqn:Hd.
  - apply rsplit_once_Some in Hd as [-> _].
    destruct (rsplit_once x2e name) as [[[|b before] after]|] eqn:Hn; cbn [fst]; [lia| |lia].
    apply rsplit_once_Some in Hn as [-> Hn%dots_none].
    repeat (rewrite ?dots_app; cbn [dots app Byte.eqb]). rewrite Hn. cbn. lia.
  - destruct (rsplit_once x2e path) as [[[|b before] after]|] eqn:Hn; cbn [fst]; [lia| |lia].
    apply rsplit_once_Some in Hn as [-> Hn%dots_none].
    repeat (rewrite ?dots_app; cbn [dots app Byte.eqb]). rewrite Hn. cbn. lia.
Qed.

Lemma with_extension_eq (path : FileName) (x suffix : list byte) :
  with_extension path (x ++ [x2e] ++ suffix) = ((file_split path).1 ++ [x2e] ++ x) ++ x2e :: suffix.
Proof. unfold with_extension. rewrite <-!app_assoc. f_equal. by destruct x. Qed.

(** A name with an extension of its own has more dots than the path. *)
Lemma with_extension_dots (path : FileName) (x suffix : list byte) :
  (dots path < dots (with_extension path (x ++ [x2e] ++ suffix)))%nat.
Proof.
  pose proof (file_split_dots path). rewrite with_extension_eq.
  repeat (rewrite ?dots_app; cbn [dots app]). cbn. lia.
Qed.

Lemma last_with_extension (path : FileName) (x suffix : list byte) b :
  last suffix = Some b -> last (with_extension path (x ++ [x2e] ++ suffix)) = Some b.
Proof.
  intros Hl. rewrite with_extension_eq, last_app. change (x2e :: suffix) with ([x2e] ++ suffix).
  by rewrite last_app, Hl.
Qed.

(** The files a store keeps, and the names of temporary files, are different. *)
Section Names.
Context (path : FileName).

Lemma sidecar_not_path suffix : sidecar_path path suffix <> path.
Proof. intros He. pose proof (with_extension_dots path (extension_or_nxpr path) suffix). unfold sidecar_path in He. rewrite He in *. lia. Qed.

Lemma temporary_not_path x suffix : with_extension path (x ++ [x2e] ++ suffix) <> path.
Proof. intros He. pose proof (with_extension_dots path x suffix). rewrite He in *. lia. Qed.

Lemma sidecar_temporary_not_path side x suffix :
  with_extension (sidecar_path path side) (x ++ [x2e] ++ suffix) <> path.
Proof.
  intros He. pose proof (with_extension_dots path (extension_or_nxpr path) side) as H1.
  pose proof (with_extension_dots (sidecar_path path side) x suffix) as H2. unfold sidecar_path in H2 at 1.
  rewrite He in H2. lia.
Qed.

End Names.

Lemma different_last (a b : list byte) x y : last a = Some x -> last b = Some y -> x <> y -> a <> b.
Proof. congruence. Qed.
