(* ===== verification/PrivateJournal.v ===== *)
(** * The journals of a private ledger ([noxis-storage])

    [NXPL] frames of version 1 hold the state after a transfer
    ([private_state_journal.rs]), frames of version 2 also what the transfer did
    ([private_submission_journal.rs]).  The scan, the checks between neighbouring
    frames, the calls of an append and the removal of a partial tail are the same
    code in both and written once over [JournalKind]. *)

From Stdlib Require Import Strings.Byte Strings.String.
From stdpp Require Import gmap.
From S2P Require Import Prelude Arrays Reader Sha256 Types Privacy BabyBear Poseidon2 NullifierTree PrivateState PrivateLedger.
From S2P Require Import PrivateRecord Crc32 Frames CheckpointStore Disk.

Definition state_id (state : CandidatePrivateLedgerStateV1) : StateId := a2_state_id (pl_anchor state).

Definition saturating_add (maximum a b : Z) : Z := Z.min maximum (a + b).

(** ** What the journals share *)

(** A journal with errors [JE] and entries [B]. *)
Record JournalKind (JE B : Type) : Type := mk_JournalKind {
  jk_name : string;
  jk_format : FrameFormat (option JE) B;
  jk_offset : B -> Z;
  jk_sequence : B -> Z;
  jk_previous_state_id : B -> StateId;
  jk_state : B -> CandidatePrivateLedgerStateV1;
  jk_io : string -> JE;
  jk_sequence_overflow : JE;
  jk_sequence_mismatch : Z -> Z -> Z -> JE;
  jk_predecessor_mismatch : Z -> StateId -> StateId -> JE;
  jk_incomplete_tail : JE;
  jk_tail_changed : JE;
  jk_recover : CandidatePrivateLedgerStateV1 -> list B -> Result (option JE) unit
}.
Arguments jk_name {JE B} j.
Arguments jk_format {JE B} j.
Arguments jk_offset {JE B} j b.
Arguments jk_sequence {JE B} j b.
Arguments jk_previous_state_id {JE B} j b.
Arguments jk_state {JE B} j b.
Arguments jk_io {JE B} j operation.
Arguments jk_sequence_overflow {JE B} j.
Arguments jk_sequence_mismatch {JE B} j offset expected actual.
Arguments jk_predecessor_mismatch {JE B} j sequence expected actual.
Arguments jk_incomplete_tail {JE B} j.
Arguments jk_tail_changed {JE B} j.
Arguments jk_recover {JE B} j base entries.

Section Journal.
Context {JE B : Type} (J : JournalKind JE B).

Abbreviation JournalIO := (IO JE).
Abbreviation Scan := (list B * option IncompleteTail)%type.

Definition entry_state_id (entry : B) : StateId := state_id (jk_state J entry).

Definition journal_error (before after : string) : JE := jk_io J (before ++ jk_name J ++ after)%string.

(** The checks of [scan_frames] on an entry after those before it. *)
Definition check_link (entries : list B) (entry : B) : Result (option JE) unit :=
  match last entries with
  | Some previous =>
      expected ← ok_or (checked_add U64_MAX (jk_sequence J previous) 1) (Some (jk_sequence_overflow J));
      if negb (jk_sequence J entry =? expected)
      then Err (Some (jk_sequence_mismatch J (jk_offset J entry) expected (jk_sequence J entry)))
      else if negb (bool_decide (jk_previous_state_id J entry = entry_state_id previous))
      then Err (Some (jk_predecessor_mismatch J (jk_sequence J entry) (entry_state_id previous)
                        (jk_previous_state_id J entry)))
      else Ok tt
  | None =>
      if negb (jk_sequence J entry =? 1)
      then Err (Some (jk_sequence_mismatch J (jk_offset J entry) 1 (jk_sequence J entry)))
      else Ok tt
  end.

(** [scan_frames] of an open journal. *)
Definition scan_file (path : FileName) : JournalIO Scan :=
  _ ← plain_call (journal_error "read " " journal metadata");
  contents ← read_file (journal_error "read " " journal frame") path;
  of_result (scan_checked (jk_format J) check_link contents).

Definition seek_start : JournalIO unit := plain_call (journal_error "seek " " journal start").
Definition seek_end : JournalIO unit := plain_call (journal_error "seek " " journal end").

Definition journal_open (path : FileName) : JournalIO unit :=
  open_or_create (journal_error "open " " journal") path.

Definition scan_recoverable_tail (path : FileName) : JournalIO Scan :=
  _ ← seek_start;
  scan ← scan_file path;
  _ ← seek_end;
  mret scan.

Definition recover_from (path : FileName) (base : CandidatePrivateLedgerStateV1) : JournalIO Scan :=
  scan ← scan_recoverable_tail path;
  _ ← of_result (jk_recover J base scan.1);
  mret scan.

(** The sequence of the next entry after [predecessor]. *)
Definition next_sequence (entries : list B) (predecessor : StateId) : Result (option JE) Z :=
  match last entries with
  | Some latest =>
      if negb (bool_decide (entry_state_id latest = predecessor))
      then Err (Some (jk_predecessor_mismatch J (saturating_add U64_MAX (jk_sequence J latest) 1)
                        (entry_state_id latest) predecessor))
      else ok_or (checked_add U64_MAX (jk_sequence J latest) 1) (Some (jk_sequence_overflow J))
  | None => Ok 1
  end.

(** The scan before an append: the sequence it will have. *)
Definition prepare_append (path : FileName) (predecessor : StateId) : JournalIO Z :=
  scan ← scan_recoverable_tail path;
  match scan.2 with
  | Some _ => of_error (jk_incomplete_tail J)
  | None => of_result (next_sequence scan.1 predecessor)
  end.

(** The calls of an append. *)
Definition append_frame (path : FileName) (frame : list byte) : JournalIO unit :=
  _ ← seek_end;
  _ ← write_all (journal_error "append " " journal frame") path frame;
  _ ← sync_file (journal_error "flush " " journal frame") path (length frame);
  sync_file (journal_error "sync " " journal frame") path (length frame).

Definition truncate_verified_incomplete_tail (path : FileName) (expected : IncompleteTail) : JournalIO unit :=
  _ ← seek_start;
  scan ← scan_file path;
  match scan.2 with
  | None => of_error (jk_tail_changed J)
  | Some actual =>
      if negb (bool_decide (actual = expected))
      then of_error (jk_tail_changed J)
      else
        _ ← set_len (journal_error "truncate incomplete " " journal tail") path (tail_valid_prefix_length actual);
        _ ← plain_call (journal_error "sync recovered " " journal");
        seek_end
  end.

End Journal.

(** ** Version 1 ([private_state_journal.rs]) *)

Definition PRIVATE_STATE_JOURNAL_MAGIC : list byte := bytes_of_string "NXPL".
Definition PRIVATE_STATE_JOURNAL_VERSION : Z := 1.
Definition PRIVATE_STATE_JOURNAL_PAYLOAD_PREFIX_LENGTH : Z := 8 + 32 + 32 + 4.
Definition PRIVATE_STATE_JOURNAL_MAX_PAYLOAD_LENGTH : Z :=
  PRIVATE_STATE_JOURNAL_PAYLOAD_PREFIX_LENGTH + PRIVATE_STATE_RECORD_MAX_BYTES.

Record StoredPrivateState : Type := mk_StoredPrivateState {
  ps_offset : Z;
  ps_sequence : Z;
  ps_previous_state_id : StateId;
  ps_state : CandidatePrivateLedgerStateV1
}.

Module PrivateStateJournalError.
Inductive PrivateStateJournalError (E : Type) : Type :=
| Io (operation : string)
| InvalidMagic (offset : Z)
| UnsupportedFrameVersion (offset version : Z)
| FrameTooLarge (offset actual maximum : Z)
| ChecksumMismatch (offset expected actual : Z)
| PayloadTruncated
| NestedRecordLength (declared actual : Z)
| NestedRecordTooLarge (length : Z)
| Record (error : CandidatePrivateStateRecordError E)
| ResultingStateMismatch (encoded rebuilt : StateId)
| NestedStateMismatch
| SequenceMismatch (offset expected actual : Z)
| PredecessorMismatch (sequence : Z) (expected actual : StateId)
| BaseStateMismatch (expected actual : StateId)
| SequenceOverflow
| OffsetOverflow
| IncompleteTailPresent
| RecoveryTailChanged.
Arguments Io {E} operation.
Arguments InvalidMagic {E} offset.
Arguments UnsupportedFrameVersion {E} offset version.
Arguments FrameTooLarge {E} offset actual maximum.
Arguments ChecksumMismatch {E} offset expected actual.
Arguments PayloadTruncated {E}.
Arguments NestedRecordLength {E} declared actual.
Arguments NestedRecordTooLarge {E} length.
Arguments Record {E} error.
Arguments ResultingStateMismatch {E} encoded rebuilt.
Arguments NestedStateMismatch {E}.
Arguments SequenceMismatch {E} offset expected actual.
Arguments PredecessorMismatch {E} sequence expected actual.
Arguments BaseStateMismatch {E} expected actual.
Arguments SequenceOverflow {E}.
Arguments OffsetOverflow {E}.
Arguments IncompleteTailPresent {E}.
Arguments RecoveryTailChanged {E}.
End PrivateStateJournalError.
Abbreviation PrivateStateJournalError := PrivateStateJournalError.PrivateStateJournalError.

Module PsErr := PrivateStateJournalError.

(** [payload[start..start + n].try_into().expect(...)]. *)
Definition fixed_range {E} (n : nat) (start : Z) (payload : list byte) : Result (option E) (array n) :=
  ok_or (try_into n (slice start (Z.of_nat n) payload)) None.

Section V1.
Context `{Sha2} (tree : P24Manifest) {E : Type} (sparse : SparseManifest E).

Abbreviation JournalError := (PrivateStateJournalError E).

Definition state_record_error {A} (r : Result (option (CandidatePrivateStateRecordError E)) A)
    : Result (option JournalError) A := map_err (option_map PsErr.Record) r.

(** [encode_payload]. *)
Definition encode_state_payload (sequence : Z) (previous_state_id : StateId) (nxpr : list byte)
    : Result (option JournalError) (list byte) :=
  nxpr_length ← ok_or (try_from U32_MAX (len nxpr))
                  (Some (PsErr.FrameTooLarge 0 U32_MAX PRIVATE_STATE_JOURNAL_MAX_PAYLOAD_LENGTH));
  state ← state_record_error (decode_candidate_private_ledger_state tree sparse nxpr);
  Ok (to_be_bytes 8 sequence ++ arr previous_state_id ++ arr (state_id state) ++ to_be_bytes 4 nxpr_length ++ nxpr).

(** [decode_payload] and the entry at an offset. *)
Definition decode_state_payload (offset : Z) (payload : list byte) : Result (option JournalError) StoredPrivateState :=
  if len payload <? PRIVATE_STATE_JOURNAL_PAYLOAD_PREFIX_LENGTH
  then Err (Some PsErr.PayloadTruncated)
  else
    let sequence := from_be_bytes (slice 0 8 payload) in
    previous_state_id ← fixed_range 32 8 payload;
    resulting_state_id ← fixed_range 32 40 payload;
    let nxpr_length := from_be_bytes (slice 72 4 payload) in
    if PRIVATE_STATE_RECORD_MAX_BYTES <? nxpr_length
    then Err (Some (PsErr.NestedRecordTooLarge nxpr_length))
    else
      let nxpr := drop (Z.to_nat PRIVATE_STATE_JOURNAL_PAYLOAD_PREFIX_LENGTH) payload in
      if negb (len nxpr =? nxpr_length)
      then Err (Some (PsErr.NestedRecordLength nxpr_length (len nxpr)))
      else
        state ← state_record_error (decode_candidate_private_ledger_state tree sparse nxpr);
        if negb (bool_decide (state_id state = resulting_state_id))
        then Err (Some (PsErr.ResultingStateMismatch resulting_state_id (state_id state)))
        else Ok (mk_StoredPrivateState offset sequence previous_state_id state).

Definition state_format : FrameFormat (option JournalError) StoredPrivateState := {|
  ff_magic := PRIVATE_STATE_JOURNAL_MAGIC;
  ff_version := PRIVATE_STATE_JOURNAL_VERSION;
  ff_maximum := PRIVATE_STATE_JOURNAL_MAX_PAYLOAD_LENGTH;
  ff_check_magic := exact_magic PRIVATE_STATE_JOURNAL_MAGIC (fun offset => Some (PsErr.InvalidMagic offset));
  ff_invalid_magic := fun offset => Some (PsErr.InvalidMagic offset);
  ff_unsupported_version := fun offset version => Some (PsErr.UnsupportedFrameVersion offset version);
  ff_too_large := fun offset actual maximum => Some (PsErr.FrameTooLarge offset actual maximum);
  ff_checksum_mismatch := fun offset expected actual => Some (PsErr.ChecksumMismatch offset expected actual);
  ff_offset_overflow := Some PsErr.OffsetOverflow;
  ff_decode := decode_state_payload
|}.

(** The check of [recover_from]. *)
Definition recover_states (base : CandidatePrivateLedgerStateV1) (entries : list StoredPrivateState)
    : Result (option JournalError) unit :=
  match entries with
  | first :: _ =>
      if negb (bool_decide (ps_previous_state_id first = state_id base))
      then Err (Some (PsErr.BaseStateMismatch (state_id base) (ps_previous_state_id first)))
      else Ok tt
  | [] => Ok tt
  end.

Definition state_journal : JournalKind JournalError StoredPrivateState := {|
  jk_name := "private-state";
  jk_format := state_format;
  jk_offset := ps_offset;
  jk_sequence := ps_sequence;
  jk_previous_state_id := ps_previous_state_id;
  jk_state := ps_state;
  jk_io := PsErr.Io;
  jk_sequence_overflow := PsErr.SequenceOverflow;
  jk_sequence_mismatch := PsErr.SequenceMismatch;
  jk_predecessor_mismatch := PsErr.PredecessorMismatch;
  jk_incomplete_tail := PsErr.IncompleteTailPresent;
  jk_tail_changed := PsErr.RecoveryTailChanged;
  jk_recover := recover_states
|}.

(** The frame [append_post_state] writes. *)
Definition post_state_frame (sequence : Z) (previous_state_id : StateId) (state : CandidatePrivateLedgerStateV1)
    : Result (option JournalError) (list byte) :=
  nxpr ← state_record_error (encode_candidate_private_ledger_state state);
  rebuilt ← state_record_error (decode_candidate_private_ledger_state tree sparse nxpr);
  if negb (bool_decide (state_id rebuilt = state_id state))
  then Err (Some PsErr.NestedStateMismatch)
  else
    payload ← encode_state_payload sequence previous_state_id nxpr;
    encode_frame state_format payload.

(** [PrivateStateJournalV1::append_post_state]. *)
Definition append_post_state (path : FileName) (previous_state_id : StateId) (state : CandidatePrivateLedgerStateV1)
    : IO JournalError Z :=
  sequence ← prepare_append state_journal path previous_state_id;
  frame ← of_result (post_state_frame sequence previous_state_id state);
  _ ← append_frame state_journal path frame;
  mret sequence.

End V1.

(** ** Version 2 ([private_submission_journal.rs]) *)

Definition PRIVATE_SUBMISSION_JOURNAL_MAGIC : list byte := bytes_of_string "NXPL".
Definition PRIVATE_SUBMISSION_JOURNAL_VERSION : Z := 2.
Definition PRIVATE_SUBMISSION_JOURNAL_PAYLOAD_PREFIX_LENGTH : Z := 396.
Definition PRIVATE_SUBMISSION_JOURNAL_MAX_PAYLOAD_LENGTH : Z :=
  PRIVATE_SUBMISSION_JOURNAL_PAYLOAD_PREFIX_LENGTH + PRIVATE_STATE_RECORD_MAX_BYTES.

Definition PREVIOUS_STATE_ID_OFFSET : Z := 0 + 8.
Definition RESULTING_STATE_ID_OFFSET : Z := PREVIOUS_STATE_ID_OFFSET + 32.
Definition ENVELOPE_ID_OFFSET : Z := RESULTING_STATE_ID_OFFSET + 32.
Definition ASSET_ID_OFFSET : Z := ENVELOPE_ID_OFFSET + 32.
Definition INPUT_NULLIFIER_0_OFFSET : Z := ASSET_ID_OFFSET + 32.
Definition INPUT_NULLIFIER_1_OFFSET : Z := INPUT_NULLIFIER_0_OFFSET + 64.
Definition OUTPUT_COMMITMENT_0_OFFSET : Z := INPUT_NULLIFIER_1_OFFSET + 64.
Definition OUTPUT_COMMITMENT_1_OFFSET : Z := OUTPUT_COMMITMENT_0_OFFSET + 64.
Definition NXPR_LENGTH_OFFSET : Z := OUTPUT_COMMITMENT_1_OFFSET + 64.

(** [PrivateSubmissionMetadataV1]: an envelope id. *)
Abbreviation EnvelopeId := (array 32) (only parsing).

(** What a frame says of the transfer; [[T; 2]] is a pair. *)
Record SubmissionFacts : Type := mk_SubmissionFacts {
  sf_metadata : EnvelopeId;
  sf_asset_id : AssetId;
  sf_input_nullifiers : NullifierV2 * NullifierV2;
  sf_output_commitments : NoteCommitmentV2 * NoteCommitmentV2
}.

Record StoredPrivateSubmissionV2 : Type := mk_StoredPrivateSubmissionV2 {
  su_offset : Z;
  su_sequence : Z;
  su_previous_state_id : StateId;
  su_resulting_state_id : StateId;
  su_facts : SubmissionFacts;
  su_state : CandidatePrivateLedgerStateV1
}.

Module PrivateSubmissionJournalError.
Inductive PrivateSubmissionJournalError (E : Type) : Type :=
| Io (operation : string)
| Record (error : CandidatePrivateStateRecordError E)
| Privacy (error : PrivacyTypesError)
| InvalidMagic (offset : Z)
| UnsupportedFrameVersion (offset version : Z)
| FrameTooLarge (offset actual maximum : Z)
| ChecksumMismatch (offset expected actual : Z)
| PayloadTruncated
| NestedRecordTooLarge (length : Z)
| NestedRecordLength (declared actual : Z)
| ResultingStateMismatch (encoded rebuilt : StateId)
| SequenceMismatch (offset expected actual : Z)
| PredecessorMismatch (sequence : Z) (expected actual : StateId)
| SequenceOverflow
| OffsetOverflow
| IncompleteTailPresent
| RecoveryTailChanged
| ZeroEnvelopeId
| UnknownAsset (asset : AssetId)
| NonCanonicalInputNullifierOrder
| NonCanonicalOutputCommitmentOrder
| CommitmentCountOverflow
| NullifierCountOverflow
| OutputCommitmentDeltaMismatch (previous successor : Z)
| OutputCommitmentsMismatch
| InputNullifierDeltaMismatch (previous successor : Z)
| InputNullifierAlreadySpent
| InputNullifierMissingFromSuccessor.
Arguments Io {E} operation.
Arguments Record {E} error.
Arguments Privacy {E} error.
Arguments InvalidMagic {E} offset.
Arguments UnsupportedFrameVersion {E} offset version.
Arguments FrameTooLarge {E} offset actual maximum.
Arguments ChecksumMismatch {E} offset expected actual.
Arguments PayloadTruncated {E}.
Arguments NestedRecordTooLarge {E} length.
Arguments NestedRecordLength {E} declared actual.
Arguments ResultingStateMismatch {E} encoded rebuilt.
Arguments SequenceMismatch {E} offset expected actual.
Arguments PredecessorMismatch {E} sequence expected actual.
Arguments SequenceOverflow {E}.
Arguments OffsetOverflow {E}.
Arguments IncompleteTailPresent {E}.
Arguments RecoveryTailChanged {E}.
Arguments ZeroEnvelopeId {E}.
Arguments UnknownAsset {E} asset.
Arguments NonCanonicalInputNullifierOrder {E}.
Arguments NonCanonicalOutputCommitmentOrder {E}.
Arguments CommitmentCountOverflow {E}.
Arguments NullifierCountOverflow {E}.
Arguments OutputCommitmentDeltaMismatch {E} previous successor.
Arguments OutputCommitmentsMismatch {E}.
Arguments InputNullifierDeltaMismatch {E} previous successor.
Arguments InputNullifierAlreadySpent {E}.
Arguments InputNullifierMissingFromSuccessor {E}.
End PrivateSubmissionJournalError.
Abbreviation PrivateSubmissionJournalError := PrivateSubmissionJournalError.PrivateSubmissionJournalError.

Module SuErr := PrivateSubmissionJournalError.

Definition pair_list {A} (p : A * A) : list A := [p.1; p.2].

Section V2.
Context `{Sha2} (tree : P24Manifest) {E : Type} (sparse : SparseManifest E).

Abbreviation JournalError := (PrivateSubmissionJournalError E).

Definition submission_record_error {A} (r : Result (option (CandidatePrivateStateRecordError E)) A)
    : Result (option JournalError) A := map_err (option_map SuErr.Record) r.

(** [PrivateSubmissionMetadataV1::new]. *)
Definition metadata_new (envelope_id : EnvelopeId) : Result (option JournalError) EnvelopeId :=
  if bool_decide (arr envelope_id = replicate 32 x00) then Err (Some SuErr.ZeroEnvelopeId) else Ok envelope_id.

(** The body of [for nullifier in input_nullifiers]. *)
Definition check_input (predecessor successor : CandidatePrivateStateSnapshotV1) (nullifier : NullifierV2)
    : Result (option JournalError) unit :=
  if snapshot_is_spent predecessor nullifier then Err (Some SuErr.InputNullifierAlreadySpent)
  else if negb (snapshot_is_spent successor nullifier) then Err (Some SuErr.InputNullifierMissingFromSuccessor)
  else Ok tt.

(** The comparison of the commitments of the two states. *)
Definition check_outputs (predecessor successor : CandidatePrivateStateSnapshotV1) (facts : SubmissionFacts)
    : Result (option JournalError) unit :=
  let old_commitments := sn_commitments predecessor in
  let new_commitments := sn_commitments successor in
  expected ← ok_or (checked_add USIZE_MAX (len old_commitments) 2) (Some SuErr.CommitmentCountOverflow);
  if negb (len new_commitments =? expected)
  then Err (Some (SuErr.OutputCommitmentDeltaMismatch (len old_commitments) (len new_commitments)))
  else if negb (bool_decide (drop (length old_commitments) new_commitments = pair_list (sf_output_commitments facts)))
  then Err (Some SuErr.OutputCommitmentsMismatch)
  else Ok tt.

(** The comparison of their spent nullifiers. *)
Definition check_inputs (predecessor successor : CandidatePrivateStateSnapshotV1) (facts : SubmissionFacts)
    : Result (option JournalError) unit :=
  let old_nullifiers := sn_spent_nullifiers predecessor in
  let new_nullifiers := sn_spent_nullifiers successor in
  let mismatch := SuErr.InputNullifierDeltaMismatch (len old_nullifiers) (len new_nullifiers) in
  expected ← ok_or (checked_add USIZE_MAX (len old_nullifiers) 2) (Some SuErr.NullifierCountOverflow);
  if negb (len new_nullifiers =? expected)
  then Err (Some mismatch)
  else
    _ ← try_map (check_input predecessor successor) (pair_list (sf_input_nullifiers facts));
    let newly_spent := List.filter (fun nullifier => negb (snapshot_is_spent predecessor nullifier)) new_nullifiers in
    if negb (len newly_spent =? 2) then Err (Some mismatch) else Ok tt.

(** [validate_transition]. *)
Definition validate_transition (predecessor successor : CandidatePrivateLedgerStateV1) (facts : SubmissionFacts)
    : Result (option JournalError) unit :=
  if bool_decide (arr (sf_metadata facts) = replicate 32 x00) then Err (Some SuErr.ZeroEnvelopeId)
  else if negb (bool_decide (is_Some (pl_assets predecessor !! sf_asset_id facts)))
  then Err (Some (SuErr.UnknownAsset (sf_asset_id facts)))
  else if negb (bool_decide (array_lt (sf_input_nullifiers facts).1 (sf_input_nullifiers facts).2))
  then Err (Some SuErr.NonCanonicalInputNullifierOrder)
  else if negb (bool_decide (array_lt (sf_output_commitments facts).1 (sf_output_commitments facts).2))
  then Err (Some SuErr.NonCanonicalOutputCommitmentOrder)
  else
    _ ← check_outputs (pl_snapshot predecessor) (pl_snapshot successor) facts;
    check_inputs (pl_snapshot predecessor) (pl_snapshot successor) facts.

(** [encode_payload]. *)
Definition encode_submission_payload (sequence : Z) (previous_state_id resulting_state_id : StateId)
    (facts : SubmissionFacts) (nxpr : list byte) : Result (option JournalError) (list byte) :=
  nxpr_length ← ok_or (try_from U32_MAX (len nxpr))
                  (Some (SuErr.FrameTooLarge 0 U32_MAX PRIVATE_SUBMISSION_JOURNAL_MAX_PAYLOAD_LENGTH));
  rebuilt ← submission_record_error (decode_candidate_private_ledger_state tree sparse nxpr);
  if negb (bool_decide (state_id rebuilt = resulting_state_id))
  then Err (Some (SuErr.ResultingStateMismatch resulting_state_id (state_id rebuilt)))
  else Ok (to_be_bytes 8 sequence ++ arr previous_state_id ++ arr resulting_state_id ++ arr (sf_metadata facts) ++
           arr (sf_asset_id facts) ++ concat (arr <$> pair_list (sf_input_nullifiers facts)) ++
           concat (arr <$> pair_list (sf_output_commitments facts)) ++ to_be_bytes 4 nxpr_length ++ nxpr).

(** [NullifierV2::new(payload[..]...)] and its sibling. *)
Definition fixed_vector (start : Z) (payload : list byte) : Result (option JournalError) Vector :=
  bytes ← fixed_range 64 start payload;
  map_err (fun e => Some (SuErr.Privacy e)) (vector_new bytes).

(** The fields of [decode_payload] between the state ids and the record. *)
Definition decode_facts (payload : list byte) : Result (option JournalError) SubmissionFacts :=
  envelope_id ← fixed_range 32 ENVELOPE_ID_OFFSET payload;
  metadata ← metadata_new envelope_id;
  asset_id ← fixed_range 32 ASSET_ID_OFFSET payload;
  input_0 ← fixed_vector INPUT_NULLIFIER_0_OFFSET payload;
  input_1 ← fixed_vector INPUT_NULLIFIER_1_OFFSET payload;
  output_0 ← fixed_vector OUTPUT_COMMITMENT_0_OFFSET payload;
  output_1 ← fixed_vector OUTPUT_COMMITMENT_1_OFFSET payload;
  Ok (mk_SubmissionFacts metadata asset_id (input_0, input_1) (output_0, output_1)).

(** [decode_payload] and the entry at an offset. *)
Definition decode_submission_payload (offset : Z) (payload : list byte)
    : Result (option JournalError) StoredPrivateSubmissionV2 :=
  if len payload <? PRIVATE_SUBMISSION_JOURNAL_PAYLOAD_PREFIX_LENGTH
  then Err (Some SuErr.PayloadTruncated)
  else
    let sequence := from_be_bytes (slice 0 8 payload) in
    previous_state_id ← fixed_range 32 PREVIOUS_STATE_ID_OFFSET payload;
    resulting_state_id ← fixed_range 32 RESULTING_STATE_ID_OFFSET payload;
    facts ← decode_facts payload;
    let nxpr_length := from_be_bytes (slice NXPR_LENGTH_OFFSET 4 payload) in
    if PRIVATE_STATE_RECORD_MAX_BYTES <? nxpr_length
    then Err (Some (SuErr.NestedRecordTooLarge nxpr_length))
    else
      let nxpr := drop (Z.to_nat PRIVATE_SUBMISSION_JOURNAL_PAYLOAD_PREFIX_LENGTH) payload in
      if negb (len nxpr =? nxpr_length)
      then Err (Some (SuErr.NestedRecordLength nxpr_length (len nxpr)))
      else
        state ← submission_record_error (decode_candidate_private_ledger_state tree sparse nxpr);
        if negb (bool_decide (state_id state = resulting_state_id))
        then Err (Some (SuErr.ResultingStateMismatch resulting_state_id (state_id state)))
        else Ok (mk_StoredPrivateSubmissionV2 offset sequence previous_state_id resulting_state_id facts state).

Definition submission_format : FrameFormat (option JournalError) StoredPrivateSubmissionV2 := {|
  ff_magic := PRIVATE_SUBMISSION_JOURNAL_MAGIC;
  ff_version := PRIVATE_SUBMISSION_JOURNAL_VERSION;
  ff_maximum := PRIVATE_SUBMISSION_JOURNAL_MAX_PAYLOAD_LENGTH;
  ff_check_magic := exact_magic PRIVATE_SUBMISSION_JOURNAL_MAGIC (fun offset => Some (SuErr.InvalidMagic offset));
  ff_invalid_magic := fun offset => Some (SuErr.InvalidMagic offset);
  ff_unsupported_version := fun offset version => Some (SuErr.UnsupportedFrameVersion offset version);
  ff_too_large := fun offset actual maximum => Some (SuErr.FrameTooLarge offset actual maximum);
  ff_checksum_mismatch := fun offset expected actual => Some (SuErr.ChecksumMismatch offset expected actual);
  ff_offset_overflow := Some SuErr.OffsetOverflow;
  ff_decode := decode_submission_payload
|}.

(** The loop of [recover_from] over the entries. *)
Fixpoint recover_submissions (predecessor : CandidatePrivateLedgerStateV1) (entries : list StoredPrivateSubmissionV2)
    : Result (option JournalError) unit :=
  match entries with
  | [] => Ok tt
  | entry :: entries =>
      if negb (bool_decide (su_previous_state_id entry = state_id predecessor))
      then Err (Some (SuErr.PredecessorMismatch (su_sequence entry) (state_id predecessor) (su_previous_state_id entry)))
      else if negb (bool_decide (su_resulting_state_id entry = state_id (su_state entry)))
      then Err (Some (SuErr.ResultingStateMismatch (su_resulting_state_id entry) (state_id (su_state entry))))
      else
        _ ← validate_transition predecessor (su_state entry) (su_facts entry);
        recover_submissions (su_state entry) entries
  end.

Definition submission_journal : JournalKind JournalError StoredPrivateSubmissionV2 := {|
  jk_name := "private-submission";
  jk_format := submission_format;
  jk_offset := su_offset;
  jk_sequence := su_sequence;
  jk_previous_state_id := su_previous_state_id;
  jk_state := su_state;
  jk_io := SuErr.Io;
  jk_sequence_overflow := SuErr.SequenceOverflow;
  jk_sequence_mismatch := SuErr.SequenceMismatch;
  jk_predecessor_mismatch := SuErr.PredecessorMismatch;
  jk_incomplete_tail := SuErr.IncompleteTailPresent;
  jk_tail_changed := SuErr.RecoveryTailChanged;
  jk_recover := recover_submissions
|}.

(** The operations of [PrivateSubmissionJournalV2] that are those of version 1. *)
Definition submission_scan_frames : FileName -> IO JournalError (list StoredPrivateSubmissionV2 * option IncompleteTail) :=
  scan_file submission_journal.
Definition submission_journal_open : FileName -> IO JournalError unit := journal_open submission_journal.
Definition submission_scan_recoverable_tail
    : FileName -> IO JournalError (list StoredPrivateSubmissionV2 * option IncompleteTail) :=
  scan_recoverable_tail submission_journal.
Definition submission_recover_from
    : FileName -> CandidatePrivateLedgerStateV1 -> IO JournalError (list StoredPrivateSubmissionV2 * option IncompleteTail) :=
  recover_from submission_journal.
Definition submission_truncate_tail : FileName -> IncompleteTail -> IO JournalError unit :=
  truncate_verified_incomplete_tail submission_journal.

(** The frame [append_submission] writes. *)
Definition submission_frame (sequence : Z) (predecessor successor : CandidatePrivateLedgerStateV1)
    (facts : SubmissionFacts) : Result (option JournalError) (list byte) :=
  nxpr ← submission_record_error (encode_candidate_private_ledger_state successor);
  payload ← encode_submission_payload sequence (state_id predecessor) (state_id successor) facts nxpr;
  encode_frame submission_format payload.

(** [PrivateSubmissionJournalV2::append_submission]. *)
Definition append_submission (path : FileName) (predecessor successor : CandidatePrivateLedgerStateV1)
    (facts : SubmissionFacts) : IO JournalError Z :=
  _ ← of_result (validate_transition predecessor successor facts);
  sequence ← prepare_append submission_journal path (state_id predecessor);
  frame ← of_result (submission_frame sequence predecessor successor facts);
  _ ← append_frame submission_journal path frame;
  mret sequence.

End V2.
