(* ===== verification/PrivateJournalFacts.v ===== *)
(** * Facts about the journals of a private ledger

    Whatever the outcomes of the calls, an append to a journal leaves the old
    entries, the old entries and the new one, or the old entries and a partial
    frame that the next scan recognises.  Both formats decode exactly the payloads
    they encode. *)

From Stdlib Require Import Strings.Byte Strings.String.
From stdpp Require Import gmap.
From S2P Require Import Prelude Arrays Reader Sha256 Types Ledger Privacy BabyBear Poseidon2 Poseidon2Facts TreeManifestFacts.
From S2P Require Import NullifierTree NullifierTreeFacts PrivateState PrivateLedger PrivateStateFacts PrivateTransitionFacts.
From S2P Require Import PrivateLedgerFacts PrivateRecord PrivateRecordFacts Crc32 Frames FramesFacts CheckpointStore.
From S2P Require Import Disk DiskFacts PrivateJournal.

#[local] Opaque P24_TREE_DEPTH NULLIFIER_SPARSE_TREE_DEPTH_V1.

(** ** What a journal promises *)

(** [record_ok] says which ledgers a record holds, [step] which entry may follow a
    ledger. *)
Class JournalLaws {JE B} (J : JournalKind JE B) (K : EntryKind B B)
    (record_ok : CandidatePrivateLedgerStateV1 -> Prop) (step : CandidatePrivateLedgerStateV1 -> B -> Prop) : Prop := {
  jl_frames : FrameLaws (jk_format J) K;
  jl_sequence offset b : jk_sequence J (ek_at K offset b) = jk_sequence J b;
  jl_previous offset b : jk_previous_state_id J (ek_at K offset b) = jk_previous_state_id J b;
  jl_state offset b : jk_state J (ek_at K offset b) = jk_state J b;
  jl_record b : ek_ok K b -> record_ok (jk_state J b);
  jl_range b : ek_ok K b -> in_range U64_MAX (jk_sequence J b);
  jl_recover_nil base : jk_recover J base [] = Ok tt;
  jl_recover_snoc base entries offset b :
    jk_recover J base entries = Ok tt ->
    let predecessor := match last entries with Some entry => jk_state J entry | None => base end in
    jk_previous_state_id J b = state_id predecessor -> step predecessor b ->
    jk_recover J base (entries ++ [ek_at K offset b]) = Ok tt
}.

Section Laws.
Context {JE B : Type} (J : JournalKind JE B) (K : EntryKind B B).
Context (record_ok : CandidatePrivateLedgerStateV1 -> Prop) (step : CandidatePrivateLedgerStateV1 -> B -> Prop).
Context `{!JournalLaws J K record_ok step}.

Abbreviation F := (jk_format J).
#[local] Instance journal_frames : FrameLaws F K := jl_frames.
Abbreviation log := (log_bytes F K).
Abbreviation placed := (placed F K 0).

(** The ledger after the entries. *)
Definition latest (base : CandidatePrivateLedgerStateV1) (values : list B) : CandidatePrivateLedgerStateV1 :=
  match last values with Some b => jk_state J b | None => base end.

Definition linked (values : list B) : Prop := checked (check_link J) [] (placed values).

(** The entries of a journal over a base. *)
Record history (base : CandidatePrivateLedgerStateV1) (values : list B) : Prop := mk_history {
  hy_storable : Forall (storable F K) values;
  hy_linked : linked values;
  hy_recovers : jk_recover J base (placed values) = Ok tt
}.

Lemma last_placed values : exists offset, last (placed values) = ek_at K offset <$> last values.
Proof.
  destruct values as [|b values _] using rev_ind; [by exists 0|]. rewrite placed_app. cbn [FramesFacts.placed].
  rewrite !last_snoc. by eexists.
Qed.

Lemma latest_placed base values :
  match last (placed values) with Some entry => jk_state J entry | None => base end = latest base values.
Proof.
  destruct (last_placed values) as [o Ho]. rewrite Ho. unfold latest. destruct (last values); [|done].
  cbn. apply jl_state.
Qed.

Lemma checked_snoc (check : list B -> B -> Result (option JE) unit) acc entries b :
  checked check acc (entries ++ [b]) <-> checked check acc entries /\ check (acc ++ entries) b = Ok tt.
Proof.
  revert acc. induction entries as [|x entries IH]; intros acc; cbn [app checked].
  - rewrite app_nil_r. naive_solver.
  - rewrite IH, <-app_assoc. cbn. naive_solver.
Qed.

(** The entry with the next sequence and the right predecessor is linked. *)
Lemma next_sequence_links values offset b :
  next_sequence J (placed values) (jk_previous_state_id J b) = Ok (jk_sequence J b) ->
  check_link J (placed values) (ek_at K offset b) = Ok tt.
Proof.
  unfold next_sequence, check_link. rewrite jl_sequence, jl_previous.
  destruct (last (placed values)) as [previous|].
  - case_bool_decide as He; cbn [negb]; [|done]. intros Hs. rewrite Hs. cbn [mbind result_bind].
    rewrite Z.eqb_refl. cbn [negb]. rewrite bool_decide_true by done. done.
  - intros [= Hs]. by rewrite <-Hs.
Qed.

Lemma journal_history_snoc base values b :
  history base values -> storable F K b ->
  next_sequence J (placed values) (jk_previous_state_id J b) = Ok (jk_sequence J b) ->
  jk_previous_state_id J b = state_id (latest base values) -> step (latest base values) b ->
  history base (values ++ [b]).
Proof.
  intros [Hs Hl Hr] Hb Hn Hp Hstep. split.
  - apply Forall_app_2; [done|by constructor].
  - unfold linked. rewrite placed_app. cbn [FramesFacts.placed]. apply checked_snoc. split; [done|]. by apply next_sequence_links.
  - rewrite placed_app. cbn [FramesFacts.placed]. apply (jl_recover_snoc base (placed values)); rewrite ?latest_placed; done.
Qed.

Lemma latest_snoc base values b : latest base (values ++ [b]) = jk_state J b.
Proof. unfold latest. by rewrite last_snoc. Qed.

(** ** Scans *)

(** The contents of a journal: entries, and what an interrupted append left. *)
Record contents_of (values : list B) (tail : option IncompleteTail) (torn contents : list byte) : Prop := mk_contents_of {
  co_eq : contents = log values ++ torn;
  co_length : len contents <= MAX_FILE_LENGTH;
  co_tail : tail_of F K values tail torn
}.

Lemma scan_contents base values tail torn contents :
  history base values -> contents_of values tail torn contents ->
  scan_checked F (check_link J) contents = Ok (placed values, tail).
Proof.
  intros [Hs Hl _] [-> Hlen Ht]. apply (scan_checked_holds F K); try done.
  rewrite length_app in Hlen. unfold MAX_FILE_LENGTH in Hlen. lia.
Qed.

Section Calls.
Context (calm : Mode) (path : FileName) (P : Files -> Prop).
Context (contents : list byte) (Hfile : forall f, P f -> f !! path = Some contents).
Context (base : CandidatePrivateLedgerStateV1) (values : list B) (tail : option IncompleteTail) (torn : list byte).
Context (Hhistory : history base values) (Hcontents : contents_of values tail torn contents).

Lemma spec_scan_file : spec calm P (scan_file J path) (fun r f => r = (placed values, tail) /\ P f) (failing calm P).
Proof.
  unfold scan_file. eapply spec_bind; [apply spec_plain_call|]. intros [].
  eapply spec_bind.
  { eapply spec_conseq; [apply spec_read_file|done|intros c f Hc; exact Hc|].
    intros e f [HP Hn]. split; [|done]. destruct (is_calm calm); [|done]. destruct (Hn eq_refl) as [_ Hno].
    by rewrite (Hfile f HP) in Hno. }
  intros c. apply spec_of_result.
  destruct (decide (c = contents)) as [->|Hne].
  - rewrite (scan_contents base values tail torn contents Hhistory Hcontents). by intros f [HP _].
  - destruct (scan_checked F (check_link J) c) as [x|[x|]]; intros f [HP Hc]; rewrite (Hfile f HP) in Hc; congruence.
Qed.

Lemma spec_scan :
  spec calm P (scan_recoverable_tail J path) (fun r f => r = (placed values, tail) /\ P f) (failing calm P).
Proof.
  unfold scan_recoverable_tail. eapply spec_bind; [apply spec_plain_call|]. intros [].
  eapply spec_bind; [apply spec_scan_file|]. intros scan. apply spec_fact. intros ->.
  eapply spec_bind; [apply spec_plain_call|]. intros []. by apply spec_ret.
Qed.

Lemma spec_recover_from :
  spec calm P (recover_from J path base) (fun r f => r = (placed values, tail) /\ P f) (failing calm P).
Proof.
  unfold recover_from. eapply spec_bind; [apply spec_scan|]. intros scan. apply spec_fact. intros ->.
  eapply spec_bind; [apply (spec_of_result _ _ _ (fun _ => P))|].
  { cbn [fst]. by rewrite (hy_recovers _ _ Hhistory). }
  intros []. by apply spec_ret.
Qed.

(** Removing the tail that was found leaves the entries. *)
Lemma spec_truncate (t : IncompleteTail) (Q I : Files -> Prop) :
  tail = Some t -> (forall f, P f -> Q (<[path := log values]> f)) -> (forall f, P f -> I f) -> (forall f, Q f -> I f) ->
  spec calm P (truncate_verified_incomplete_tail J path t) (fun _ => Q) (failing calm I).
Proof.
  intros Htail HQ HPI HQI. pose proof (co_eq _ _ _ _ Hcontents) as Heq. pose proof (co_tail _ _ _ _ Hcontents) as Ht.
  rewrite Htail in Ht. destruct Ht as (_ & Ht & _).
  unfold truncate_verified_incomplete_tail.
  eapply spec_bind; [apply (spec_weaken _ P I); [apply spec_plain_call|exact HPI]|]. intros [].
  eapply spec_bind; [apply (spec_weaken _ P I); [apply spec_scan_file|exact HPI]|].
  intros scan. apply spec_fact. intros ->. cbn [snd]. rewrite Htail, bool_decide_true by done. cbn [negb].
  eapply (spec_bind _ _ _ (fun _ => Q)).
  { apply spec_os_call.
    - intros f HP. rewrite Ht. replace (alter (take (Z.to_nat (len (log values)))) path f) with (<[path := log values]> f); [by apply HQ|].
      apply map_eq. intros n. destruct (decide (n = path)) as [->|Hn].
      + rewrite lookup_insert_eq, lookup_alter_eq, (Hfile f HP), Heq. cbn.
        by rewrite Nat2Z.id, take_app_length.
      + by rewrite lookup_insert_ne, lookup_alter_ne.
    - intros Hc f n HP. split; (split; [done|by apply HPI]). }
  intros []. eapply spec_bind; [apply (spec_weaken _ Q I); [apply spec_plain_call|exact HQI]|].
  intros []. apply (spec_weaken _ Q I); [apply spec_plain_call|exact HQI].
Qed.

End Calls.

(** ** Appends *)

(** The sequence of the last entry is the number of entries. *)
Lemma linked_sequence values b :
  linked values -> last values = Some b -> jk_sequence J b = len values.
Proof.
  revert b. induction values as [|x values IH] using rev_ind; intros b; [done|]. unfold linked. rewrite placed_app.
  cbn [FramesFacts.placed]. rewrite checked_snoc. intros [Hl Hc] Hb. rewrite last_snoc in Hb. injection Hb as ->.
  cbn [app] in Hc. unfold check_link in Hc. rewrite jl_sequence in Hc. rewrite length_app. cbn [length].
  destruct (last_placed values) as [o Ho]. rewrite Ho in Hc. destruct (last values) as [y|] eqn:Hy; cbn [fmap option_fmap option_map] in Hc.
  - rewrite jl_sequence, (IH y Hl eq_refl) in Hc.
    destruct (checked_add U64_MAX (len values) 1) as [n|] eqn:Hn; [|done]. cbn [ok_or mbind result_bind] in Hc.
    apply checked_add_Some in Hn as [-> _]. destruct (Z.eqb_spec (jk_sequence J b) (len values + 1)) as [->|]; [lia|done].
  - apply last_None in Hy as ->. destruct (Z.eqb_spec (jk_sequence J b) 1) as [->|]; [done|done].
Qed.

Lemma log_length values : 14 * len values <= len (log values).
Proof.
  induction values as [|b values IH]; [done|]. change (log (b :: values)) with (entry_frame F K b ++ log values).
  rewrite length_app. pose proof (length_entry_frame F K b). cbn [length]. lia.
Qed.

Lemma next_sequence_exact base values :
  linked values -> len (log values) <= MAX_FILE_LENGTH ->
  next_sequence J (placed values) (state_id (latest base values)) = Ok (len values + 1).
Proof.
  intros Hl Hm. pose proof (log_length values) as Hlog. unfold MAX_FILE_LENGTH in Hm. unfold next_sequence.
  pose proof (latest_placed base values) as Hlast. destruct (last_placed values) as [o Ho]. rewrite Ho in *.
  destruct (last values) as [b|] eqn:Hb; cbn [fmap option_fmap option_map] in *.
  - unfold entry_state_id. rewrite Hlast, bool_decide_true by done. cbn [negb].
    rewrite jl_sequence, (linked_sequence values b Hl Hb).
    rewrite (proj2 (checked_add_Some U64_MAX (len values) 1 (len values + 1))); [done|]. lia.
  - apply last_None in Hb as ->. done.
Qed.

(** An entry that may follow the entries so far. *)
Record extends (base : CandidatePrivateLedgerStateV1) (values : list B) (state : CandidatePrivateLedgerStateV1) (b : B)
    : Prop := mk_extends {
  ex_history : history base (values ++ [b]);
  ex_state : jk_state J b = state
}.

Section Append.
Context (calm : Mode) (path : FileName) (P Q I : Files -> Prop).
Context (base : CandidatePrivateLedgerStateV1) (values : list B).
Context (Hhistory : history base values) (Hlength : len (log values) <= MAX_FILE_LENGTH).
Context (Hfile : forall f, P f -> f !! path = Some (log values)) (HPI : forall f, P f -> I f).

Lemma spec_append_frame b :
  storable F K b ->
  (is_calm calm = true -> len (log (values ++ [b])) <= MAX_FILE_LENGTH) ->
  (len (log (values ++ [b])) <= MAX_FILE_LENGTH -> forall f, P f -> Q (<[path := log (values ++ [b])]> f)) ->
  (forall f k, P f -> len (log values ++ take k (entry_frame F K b)) <= MAX_FILE_LENGTH ->
     I (<[path := log values ++ take k (entry_frame F K b)]> f)) ->
  spec calm P (append_frame J path (entry_frame F K b)) (fun _ => Q) (failing calm I).
Proof.
  intros Hb Hroom HQ HI. rewrite log_bytes_snoc in *. set (frame := entry_frame F K b) in *.
  set (P1 := fun f => len (log values ++ frame) <= MAX_FILE_LENGTH /\ exists f0, P f0 /\ f = <[path := log values ++ frame]> f0).
  assert (Hsync : forall e, spec calm P1 (sync_file (E := JE) e path (length frame)) (fun _ => P1) (failing calm I)).
  { intros e. apply spec_os_call; [done|]. intros Hc f n (Hl & f0 & Hf0 & ->). rewrite lookup_insert_eq, insert_insert_eq.
    assert (Hcut : take (length (log values ++ frame) - Nat.min n (length frame)) (log values ++ frame) =
      log values ++ take (length frame - Nat.min n (length frame)) frame).
    { rewrite length_app, take_app_ge by lia. f_equal. f_equal. lia. }
    rewrite Hcut. assert (Hl' : len (log values ++ take (length frame - Nat.min n (length frame)) frame) <= MAX_FILE_LENGTH).
    { rewrite length_app in *. rewrite length_take. lia. }
    split; (split; [done|by apply HI]). }
  unfold append_frame. eapply spec_bind; [apply (spec_weaken _ P I); [apply spec_plain_call|exact HPI]|]. intros [].
  eapply (spec_bind _ _ _ (fun _ => P1)).
  { apply (spec_write_all _ P _ _ (log values)); try done.
    - intros Hl f HP. split; [rewrite length_app; lia|]. by exists f.
    - intros Hc. specialize (Hroom Hc). rewrite length_app in Hroom. lia.
    - intros Hc f k x HP Hl. split; [done|by apply HI]. }
  intros []. eapply spec_bind; [apply Hsync|]. intros [].
  eapply spec_conseq; [apply Hsync|done| |done]. intros [] f (Hl & f0 & Hf0 & ->). by apply HQ.
Qed.

(** The common shape of the appends of both journals. *)
Lemma spec_append state (build : Z -> Result (option JE) (list byte)) :
  match build (len values + 1) with
  | Ok frame => exists b, frame = entry_frame F K b /\ storable F K b /\ jk_sequence J b = len values + 1 /\
      jk_previous_state_id J b = state_id (latest base values) /\ step (latest base values) b /\ jk_state J b = state
  | Err _ => is_calm calm = false
  end ->
  (is_calm calm = true -> forall b, extends base values state b -> len (log (values ++ [b])) <= MAX_FILE_LENGTH) ->
  (forall f b, P f -> extends base values state b -> len (log (values ++ [b])) <= MAX_FILE_LENGTH ->
     Q (<[path := log (values ++ [b])]> f)) ->
  (forall f b k, P f -> extends base values state b -> len (log values ++ take k (entry_frame F K b)) <= MAX_FILE_LENGTH ->
     I (<[path := log values ++ take k (entry_frame F K b)]> f)) ->
  spec calm P
    (sequence ← prepare_append J path (state_id (latest base values));
     frame ← of_result (build sequence);
     _ ← append_frame J path frame;
     mret sequence) (fun _ => Q) (failing calm I).
Proof.
  intros Hbuild Hroom HQ HI. eapply (spec_bind _ _ _ (fun n f => n = len values + 1 /\ P f)).
  { unfold prepare_append. eapply spec_bind.
    { apply (spec_weaken _ P I); [|exact HPI]. apply (spec_scan calm path P (log values) Hfile base values None []); [done|].
      split; [by rewrite app_nil_r|done|done]. }
    intros scan. apply spec_fact. intros ->. cbn [fst snd]. apply spec_of_result.
    rewrite (next_sequence_exact base values (hy_linked _ _ Hhistory) Hlength). done. }
  intros n. apply spec_fact. intros ->.
  eapply (spec_bind _ _ _ (fun frame f => build (len values + 1) = Ok frame /\ P f)).
  { apply spec_of_result. destruct (build (len values + 1)) as [frame|[e|]]; intros f HP; [done|split; auto..]. }
  intros frame. apply spec_fact. intros Hframe. rewrite Hframe in Hbuild.
  destruct Hbuild as (b & -> & Hb & Hseq & Hprev & Hstep & Hstate).
  assert (Hext : extends base values state b).
  { split; [|done]. apply journal_history_snoc; try done. rewrite Hprev, Hseq.
    exact (next_sequence_exact base values (hy_linked _ _ Hhistory) Hlength). }
  eapply spec_bind; [apply (spec_append_frame b); auto|]. intros []. by apply spec_ret.
Qed.

End Append.

(** What a store relies on of an append to the journal: from the entries so far it
    gets to these entries and one more, or stops on the way.  [may] is known of the
    new state and the receipt, and [ready] is what lets every call be done. *)
Definition append_spec (may : CandidatePrivateLedgerStateV1 -> CandidatePrivateTransferAdmissionReceiptV1 -> Prop)
    (ready : CandidatePrivateLedgerStateV1 -> CandidatePrivateLedgerStateV1 -> CandidatePrivateTransferAdmissionReceiptV1 -> Prop)
    (append : FileName -> CandidatePrivateLedgerStateV1 -> CandidatePrivateLedgerStateV1 ->
              CandidatePrivateTransferAdmissionReceiptV1 -> IO JE Z) : Prop :=
  forall (calm : Mode) (path : FileName) (P Q I : Files -> Prop) (base : CandidatePrivateLedgerStateV1) (values : list B)
    (state : CandidatePrivateLedgerStateV1) (receipt : CandidatePrivateTransferAdmissionReceiptV1),
  history base values -> len (log values) <= MAX_FILE_LENGTH ->
  (forall f, P f -> f !! path = Some (log values)) -> (forall f, P f -> I f) ->
  may state receipt -> (is_calm calm = true -> ready (latest base values) state receipt) ->
  (is_calm calm = true -> forall b, extends base values state b -> len (log (values ++ [b])) <= MAX_FILE_LENGTH) ->
  (forall f b, P f -> extends base values state b -> len (log (values ++ [b])) <= MAX_FILE_LENGTH ->
     Q (<[path := log (values ++ [b])]> f)) ->
  (forall f b k, P f -> extends base values state b -> len (log values ++ take k (entry_frame F K b)) <= MAX_FILE_LENGTH ->
     I (<[path := log values ++ take k (entry_frame F K b)]> f)) ->
  spec calm P (append path (latest base values) state receipt) (fun _ => Q) (failing calm I).

End Laws.

(** ** Fields at fixed offsets *)

(** The ranges of the given widths, one after the other, and the rest. *)
Fixpoint ranges (start : Z) (widths : list Z) (l : list byte) : list (list byte) :=
  match widths with
  | [] => [drop (Z.to_nat start) l]
  | n :: widths => slice start n l :: ranges (start + n) widths l
  end.

Lemma concat_ranges start widths l :
  0 <= start -> Forall (Z.le 0) widths -> concat (ranges start widths l) = drop (Z.to_nat start) l.
Proof.
  intros Hs Hw. revert start Hs. induction Hw as [|n widths Hn _ IH]; intros start Hs; cbn [ranges concat].
  - by rewrite app_nil_r.
  - rewrite IH by lia. by rewrite <-slice_split.
Qed.

(** Fields of the right widths are found at their offsets. *)
Lemma ranges_concat start before widths fields rest :
  len before = start -> Forall2 (fun n field => len field = n) widths fields ->
  ranges start widths (before ++ concat fields ++ rest) = fields ++ [rest].
Proof.
  intros Hb Hf. revert start before Hb. induction Hf as [|n field widths fields Hn _ IH]; intros start before Hb.
  - cbn. by rewrite <-Hb, Nat2Z.id, drop_app_length.
  - cbn [ranges concat app]. rewrite <-(app_assoc field). f_equal.
    + apply slice_app; [done|exact Hn].
    + rewrite (app_assoc before field). apply IH. rewrite length_app. lia.
Qed.

Lemma fixed_range_Ok {E} n start payload (a : array n) :
  @fixed_range E n start payload = Ok a <-> arr a = slice start (Z.of_nat n) payload.
Proof.
  unfold fixed_range. rewrite <-try_into_Some. destruct (try_into n _); cbn; split; congruence.
Qed.

Lemma cons_eq_inv {A} (a b : A) l k : a :: l = b :: k -> a = b /\ l = k.
Proof. by intros [= -> ->]. Qed.

Section Records.
Context `{Sha2} (tree : P24Manifest) `{!P24ManifestLaws tree} {E : Type} (sparse : SparseManifest E).
Context `{!SparseManifestLaws sparse} (reference : Poseidon2P24Reference) (Hload : load_reference tree = Ok reference).
Context (r : NullifierSparseTreeReferenceV1) (Hsparse : load_sparse_reference tree sparse = Ok r).

Abbreviation recordable := (recordable tree sparse reference r).

(** ** Version 1 *)

Definition ps_at (offset : Z) (b : StoredPrivateState) : StoredPrivateState :=
  mk_StoredPrivateState offset (ps_sequence b) (ps_previous_state_id b) (ps_state b).

Definition state_kind : EntryKind StoredPrivateState StoredPrivateState :=
  mk_EntryKind
    (fun b => to_be_bytes 8 (ps_sequence b) ++ arr (ps_previous_state_id b) ++ arr (state_id (ps_state b)) ++
       to_be_bytes 4 (len (record_bytes (ps_state b))) ++ record_bytes (ps_state b))
    (fun b => in_range U64_MAX (ps_sequence b) /\ recordable (ps_state b))
    ps_at.

Lemma from_be_8 s : in_range U64_MAX s -> from_be_bytes (to_be_bytes 8 s) = s.
Proof. intros Hs. rewrite from_to_be_bytes, Z.mod_small; [done|]. unfold in_range in Hs. cbn. lia. Qed.

Lemma from_be_4 n : 0 <= n <= PRIVATE_STATE_RECORD_MAX_BYTES -> from_be_bytes (to_be_bytes 4 n) = n.
Proof.
  intros Hn. rewrite from_to_be_bytes, Z.mod_small; [done|].
  assert (PRIVATE_STATE_RECORD_MAX_BYTES < 2 ^ 32) by by vm_compute. cbn in *. lia.
Qed.

Lemma state_payload_split payload :
  PRIVATE_STATE_JOURNAL_PAYLOAD_PREFIX_LENGTH <= len payload ->
  payload = slice 0 8 payload ++ slice 8 32 payload ++ slice 40 32 payload ++ slice 72 4 payload ++
    drop (Z.to_nat PRIVATE_STATE_JOURNAL_PAYLOAD_PREFIX_LENGTH) payload.
Proof.
  intros Hl. pose proof (concat_ranges 0 [8; 32; 32; 4] payload ltac:(lia) ltac:(repeat constructor; lia)) as Hc.
  cbn [ranges concat] in Hc. rewrite app_nil_r in Hc. by symmetry.
Qed.

Lemma state_payload_ranges b :
  ek_ok state_kind b ->
  let payload := ek_payload state_kind b in
  slice 0 8 payload = to_be_bytes 8 (ps_sequence b) /\ slice 8 32 payload = arr (ps_previous_state_id b) /\
  slice 40 32 payload = arr (state_id (ps_state b)) /\
  slice 72 4 payload = to_be_bytes 4 (len (record_bytes (ps_state b))) /\
  drop (Z.to_nat PRIVATE_STATE_JOURNAL_PAYLOAD_PREFIX_LENGTH) payload = record_bytes (ps_state b).
Proof.
  intros _ payload.
  assert (Hr : ranges 0 [8; 32; 32; 4] payload =
    [to_be_bytes 8 (ps_sequence b); arr (ps_previous_state_id b); arr (state_id (ps_state b));
     to_be_bytes 4 (len (record_bytes (ps_state b)))] ++ [record_bytes (ps_state b)]).
  { rewrite <-(ranges_concat 0 [] [8; 32; 32; 4]); [|done|].
    - f_equal. unfold payload. cbn [ek_payload state_kind concat app]. by rewrite app_nil_r, <-!app_assoc.
    - repeat constructor; rewrite ?length_to_be_bytes, ?length_arr; done. }
  cbn [ranges app] in Hr. do 5 (let H := fresh "Hf" in apply cons_eq_inv in Hr as [H Hr]). done.
Qed.

Lemma record_length l : recordable l -> 0 <= len (record_bytes l) <= PRIVATE_STATE_RECORD_MAX_BYTES.
Proof.
  intros Hr. pose proof (record_bytes_bound tree sparse reference r l Hr). lia.
Qed.

Lemma state_decode_complete offset b :
  ek_ok state_kind b -> decode_state_payload tree sparse offset (ek_payload state_kind b) = Ok (ps_at offset b).
Proof.
  intros Hb. destruct (state_payload_ranges b Hb) as (H1 & H2 & H3 & H4 & H5). destruct Hb as [Hs Hr].
  pose proof (record_length _ Hr) as Hlen. unfold decode_state_payload. rewrite (proj2 (Z.ltb_ge _ _)).
  2: { cbn [ek_payload state_kind]. rewrite !length_app, !length_to_be_bytes, !length_arr.
       unfold PRIVATE_STATE_JOURNAL_PAYLOAD_PREFIX_LENGTH. lia. }
  cbv zeta. rewrite H1, H4, H5, from_be_8, from_be_4 by done.
  rewrite (proj2 (fixed_range_Ok 32 8 _ (ps_previous_state_id b))) by done. cbn [mbind result_bind].
  rewrite (proj2 (fixed_range_Ok 32 40 _ (state_id (ps_state b)))) by done. cbn [mbind result_bind].
  rewrite (proj2 (Z.ltb_ge _ _)) by lia. rewrite Z.eqb_refl. cbn [negb].
  rewrite (decode_record_bytes tree sparse reference Hload r Hsparse _ Hr). cbn [state_record_error map_err mbind result_bind].
  by rewrite bool_decide_true.
Qed.

Lemma state_decode_sound offset payload entry :
  len payload <= PRIVATE_STATE_JOURNAL_MAX_PAYLOAD_LENGTH ->
  decode_state_payload tree sparse offset payload = Ok entry ->
  exists b, ek_ok state_kind b /\ payload = ek_payload state_kind b /\ entry = ps_at offset b.
Proof.
  intros Hl. unfold decode_state_payload.
  destruct (Z.ltb_spec (len payload) PRIVATE_STATE_JOURNAL_PAYLOAD_PREFIX_LENGTH) as [|Hp]; [done|]. cbv zeta.
  destruct (fixed_range 32 8 payload) as [previous|] eqn:H2; [|done]. cbn [mbind result_bind].
  destruct (fixed_range 32 40 payload) as [resulting|] eqn:H3; [|done]. cbn [mbind result_bind].
  apply fixed_range_Ok in H2, H3. destruct (_ <? _); [done|].
  destruct (Z.eqb_spec (len (drop (Z.to_nat PRIVATE_STATE_JOURNAL_PAYLOAD_PREFIX_LENGTH) payload))
    (from_be_bytes (slice 72 4 payload))) as [Hn|]; cbn [negb]; [|done].
  destruct (decode_candidate_private_ledger_state _ _ _) as [state|] eqn:Hd; [|done].
  cbn [state_record_error map_err mbind result_bind].
  apply (decode_record_Ok tree sparse reference Hload r Hsparse) in Hd as [Hr Hd].
  2: { rewrite length_drop. assert (PRIVATE_STATE_JOURNAL_MAX_PAYLOAD_LENGTH <= ISIZE_MAX) by by vm_compute. lia. }
  case_bool_decide as Hid; cbn [negb]; [|done]. intros [= <-].
  exists (mk_StoredPrivateState 0 (from_be_bytes (slice 0 8 payload)) previous state). split_and!; [| |done].
  - split; [|done]. unfold in_range. cbn [ps_sequence]. pose proof (from_be_bytes_range (slice 0 8 payload)) as Hrange.
    rewrite slice_length in Hrange by (unfold PRIVATE_STATE_JOURNAL_PAYLOAD_PREFIX_LENGTH in Hp; lia).
    change (256 ^ Z.of_nat (Z.to_nat 8)) with 18446744073709551616 in Hrange. lia.
  - rewrite (state_payload_split payload Hp) at 1. cbn [ek_payload state_kind ps_sequence ps_previous_state_id ps_state].
    unfold PRIVATE_STATE_JOURNAL_PAYLOAD_PREFIX_LENGTH in Hp.
    rewrite <-Hd, Hn, Hid, H2, H3, !to_from_be_bytes by (apply slice_length; lia). done.
Qed.

#[export] Instance state_frames : FrameLaws (state_format tree sparse) state_kind.
Proof.
  split.
  - done.
  - done.
  - by vm_compute.
  - intros offset magic. apply exact_magic_Ok.
  - intros offset payload entry Hl. split; [by apply state_decode_sound|].
    intros (b & Hb & -> & ->). by apply state_decode_complete.
Qed.

(** Any entry may follow. *)
#[export] Instance state_laws :
  JournalLaws (state_journal tree sparse) state_kind recordable (fun _ _ => True).
Proof.
  split; try done.
  - apply state_frames.
  - by intros b [_ Hb].
  - by intros b [Hb _].
  - intros base [|first entries] offset b Hr predecessor Hp _; [|exact Hr].
    cbn. unfold predecessor in Hp. cbn in Hp. by rewrite bool_decide_true.
Qed.

(** What is known of a state before it is encoded. *)
Definition encodable (l : CandidatePrivateLedgerStateV1) : Prop :=
  forall bytes, @encode_candidate_private_ledger_state _ E l = Ok bytes -> recordable l.

Lemma record_length_u32 l : recordable l -> try_from U32_MAX (len (record_bytes l)) = Some (len (record_bytes l)).
Proof.
  intros Hr. pose proof (record_length l Hr). apply try_from_Some. split; [done|]. unfold in_range.
  assert (PRIVATE_STATE_RECORD_MAX_BYTES <= U32_MAX) by by vm_compute. lia.
Qed.

Lemma state_storable b : ek_ok state_kind b -> storable (state_format tree sparse) state_kind b.
Proof.
  intros Hb. split; [exact Hb|]. destruct Hb as [_ Hr]. pose proof (record_length _ Hr) as Hlen.
  cbn [ek_payload state_kind ff_maximum state_format]. rewrite !length_app, !length_to_be_bytes, !length_arr.
  unfold PRIVATE_STATE_JOURNAL_MAX_PAYLOAD_LENGTH, PRIVATE_STATE_JOURNAL_PAYLOAD_PREFIX_LENGTH. lia.
Qed.

Lemma state_payload_encoded b :
  ek_ok state_kind b ->
  encode_state_payload tree sparse (ps_sequence b) (ps_previous_state_id b) (record_bytes (ps_state b)) =
  Ok (ek_payload state_kind b).
Proof.
  intros [_ Hr]. unfold encode_state_payload. rewrite (record_length_u32 _ Hr). cbn [ok_or mbind result_bind].
  by rewrite (decode_record_bytes tree sparse reference Hload r Hsparse _ Hr).
Qed.

Lemma post_state_frame_recorded b :
  ek_ok state_kind b ->
  post_state_frame tree sparse (ps_sequence b) (ps_previous_state_id b) (ps_state b) =
  Ok (entry_frame (state_format tree sparse) state_kind b).
Proof.
  intros Hb. pose proof Hb as [_ Hr]. unfold post_state_frame.
  rewrite (encode_recordable tree sparse reference r _ Hr). cbn [state_record_error map_err mbind result_bind].
  rewrite (decode_record_bytes tree sparse reference Hload r Hsparse _ Hr). cbn [state_record_error map_err mbind result_bind].
  rewrite bool_decide_true by done. cbn [negb]. rewrite (state_payload_encoded b Hb). cbn [mbind result_bind].
  exact (encode_frame_storable _ _ _ (state_storable b Hb)).
Qed.

(** The frame of a state that encodes is that of an entry. *)
Lemma state_frame_entry sequence previous state frame :
  encodable state -> in_range U64_MAX sequence ->
  post_state_frame tree sparse sequence previous state = Ok frame ->
  let b := mk_StoredPrivateState 0 sequence previous state in
  frame = entry_frame (state_format tree sparse) state_kind b /\ storable (state_format tree sparse) state_kind b.
Proof.
  intros He Hseq Hf b.
  assert (Hr : recordable state).
  { unfold post_state_frame in Hf. destruct (encode_candidate_private_ledger_state state) as [nxpr|] eqn:Hn; [|done].
    exact (He nxpr Hn). }
  assert (Hb : ek_ok state_kind b) by by split.
  pose proof (post_state_frame_recorded b Hb) as Hp. cbn [b ps_sequence ps_previous_state_id ps_state] in Hp.
  rewrite Hf in Hp. injection Hp as ->. split; [done|exact (state_storable b Hb)].
Qed.

Lemma sequence_range (n : nat) : 14 * Z.of_nat n <= MAX_FILE_LENGTH -> in_range U64_MAX (Z.of_nat n + 1).
Proof. unfold in_range, MAX_FILE_LENGTH. lia. Qed.

(** [append_post_state] as the store calls it. *)
Lemma state_append_spec :
  append_spec (state_journal tree sparse) state_kind (fun state _ => encodable state) (fun _ state _ => recordable state)
    (fun path predecessor state _ => append_post_state tree sparse path (state_id predecessor) state).
Proof.
  intros calm path P Q I base values state receipt Hh Hl Hf HPI Hmay Hready Hroom HQ HI. unfold append_post_state.
  pose proof (log_length (state_journal tree sparse) state_kind recordable (fun _ _ => True) values) as Hlog.
  assert (Hseq : in_range U64_MAX (len values + 1)) by (apply sequence_range; lia).
  apply (spec_append (state_journal tree sparse) state_kind recordable (fun _ _ => True) calm path P Q I base values Hh Hl Hf HPI
    state (fun sequence => post_state_frame tree sparse sequence _ state)); try done.
  destruct (post_state_frame _ _ _ _ _) as [frame|e] eqn:Hframe.
  - destruct (state_frame_entry _ _ _ _ Hmay Hseq Hframe) as [-> Hs]. by eexists.
  - destruct (is_calm calm); [|done]. specialize (Hready eq_refl).
    pose proof (post_state_frame_recorded (mk_StoredPrivateState 0 (len values + 1)
      (state_id (latest (state_journal tree sparse) base values)) state) (conj Hseq Hready)) as Hok.
    cbn [ps_sequence ps_previous_state_id ps_state] in Hok. by rewrite Hok in Hframe.
Qed.

(** ** Version 2 *)

Definition su_at (offset : Z) (b : StoredPrivateSubmissionV2) : StoredPrivateSubmissionV2 :=
  mk_StoredPrivateSubmissionV2 offset (su_sequence b) (su_previous_state_id b) (su_resulting_state_id b) (su_facts b)
    (su_state b).

Record facts_ok (facts : SubmissionFacts) : Prop := mk_facts_ok {
  fk_metadata : arr (sf_metadata facts) <> replicate 32 x00;
  fk_inputs : vector_wf (sf_input_nullifiers facts).1 /\ vector_wf (sf_input_nullifiers facts).2;
  fk_outputs : vector_wf (sf_output_commitments facts).1 /\ vector_wf (sf_output_commitments facts).2
}.

Definition facts_fields (facts : SubmissionFacts) : list (list byte) :=
  [arr (sf_metadata facts); arr (sf_asset_id facts); arr (sf_input_nullifiers facts).1; arr (sf_input_nullifiers facts).2;
   arr (sf_output_commitments facts).1; arr (sf_output_commitments facts).2].

Definition submission_fields (b : StoredPrivateSubmissionV2) : list (list byte) :=
  [to_be_bytes 8 (su_sequence b); arr (su_previous_state_id b); arr (su_resulting_state_id b)] ++
  facts_fields (su_facts b) ++ [to_be_bytes 4 (len (record_bytes (su_state b)))].

Definition submission_widths : list Z := [8; 32; 32; 32; 32; 64; 64; 64; 64; 4].

Definition submission_kind : EntryKind StoredPrivateSubmissionV2 StoredPrivateSubmissionV2 :=
  mk_EntryKind
    (fun b => concat (submission_fields b) ++ record_bytes (su_state b))
    (fun b => in_range U64_MAX (su_sequence b) /\ recordable (su_state b) /\
       su_resulting_state_id b = state_id (su_state b) /\ facts_ok (su_facts b))
    su_at.

Definition submission_step (predecessor : CandidatePrivateLedgerStateV1) (b : StoredPrivateSubmissionV2) : Prop :=
  su_resulting_state_id b = state_id (su_state b) /\
  @validate_transition E predecessor (su_state b) (su_facts b) = Ok tt.

Lemma submission_fields_widths b : Forall2 (fun n field => len field = n) submission_widths (submission_fields b).
Proof.
  unfold submission_fields, facts_fields, submission_widths. cbn [app].
  repeat constructor; rewrite ?length_to_be_bytes, ?length_arr; done.
Qed.

Lemma submission_ranges b :
  ranges 0 submission_widths (ek_payload submission_kind b) = submission_fields b ++ [record_bytes (su_state b)].
Proof. apply (ranges_concat 0 []); [done|apply submission_fields_widths]. Qed.

Lemma length_submission_fields b : len (concat (submission_fields b)) = PRIVATE_SUBMISSION_JOURNAL_PAYLOAD_PREFIX_LENGTH.
Proof.
  unfold submission_fields, facts_fields. cbn [app concat]. rewrite !length_app, !length_to_be_bytes, !length_arr. done.
Qed.

Lemma submission_payload_split payload :
  payload = concat (ranges 0 submission_widths payload).
Proof. rewrite concat_ranges; [done|done|]. unfold submission_widths. repeat constructor; lia. Qed.

Lemma metadata_new_Ok m m' : @metadata_new E m = Ok m' <-> m' = m /\ arr m <> replicate 32 x00.
Proof. unfold metadata_new. case_bool_decide; split; naive_solver. Qed.

Lemma fixed_vector_Ok start payload v :
  @fixed_vector E start payload = Ok v <-> vector_wf v /\ arr v = slice start 64 payload.
Proof.
  unfold fixed_vector. split.
  - destruct (fixed_range 64 start payload) as [bytes|] eqn:Hb; [|done]. cbn [mbind result_bind].
    intros Hv%map_err_Ok. apply vector_new_Ok in Hv as [-> Hv]. by apply fixed_range_Ok in Hb.
  - intros [Hv Hs]. rewrite (proj2 (fixed_range_Ok 64 start payload v) Hs). cbn [mbind result_bind].
    by apply map_err_Ok, vector_new_Ok.
Qed.

(** The facts are read from their six ranges. *)
Lemma decode_facts_Ok payload facts :
  @decode_facts E payload = Ok facts <->
  facts_ok facts /\
  facts_fields facts = [slice 72 32 payload; slice 104 32 payload; slice 136 64 payload; slice 200 64 payload;
                        slice 264 64 payload; slice 328 64 payload].
Proof.
  unfold decode_facts.
  change ENVELOPE_ID_OFFSET with 72. change ASSET_ID_OFFSET with 104. change INPUT_NULLIFIER_0_OFFSET with 136.
  change INPUT_NULLIFIER_1_OFFSET with 200. change OUTPUT_COMMITMENT_0_OFFSET with 264.
  change OUTPUT_COMMITMENT_1_OFFSET with 328.
  split.
  - intros Hd. inv_ok. rewrite fixed_range_Ok, metadata_new_Ok, fixed_vector_Ok in *. destruct_and?. subst.
    unfold facts_fields. cbn [sf_metadata sf_asset_id sf_input_nullifiers sf_output_commitments fst snd].
    split; [by split|]. change (Z.of_nat 32) with 32 in *. congruence.
  - intros [[Hm [Hi0 Hi1] [Ho0 Ho1]] Hf]. destruct facts as [m a [i0 i1] [o0 o1]]. unfold facts_fields in Hf.
    cbn [sf_metadata sf_asset_id sf_input_nullifiers sf_output_commitments fst snd] in *.
    injection Hf as H1 H2 H3 H4 H5 H6.
    rewrite (proj2 (fixed_range_Ok 32 72 payload m) H1). cbn [mbind result_bind].
    rewrite (proj2 (metadata_new_Ok m m) (conj eq_refl Hm)). cbn [mbind result_bind].
    rewrite (proj2 (fixed_range_Ok 32 104 payload a) H2). cbn [mbind result_bind].
    rewrite (proj2 (fixed_vector_Ok 136 payload i0) (conj Hi0 H3)). cbn [mbind result_bind].
    rewrite (proj2 (fixed_vector_Ok 200 payload i1) (conj Hi1 H4)). cbn [mbind result_bind].
    rewrite (proj2 (fixed_vector_Ok 264 payload o0) (conj Ho0 H5)). cbn [mbind result_bind].
    rewrite (proj2 (fixed_vector_Ok 328 payload o1) (conj Ho1 H6)). done.
Qed.

Lemma submission_payload_ranges b :
  let payload := ek_payload submission_kind b in
  slice 0 8 payload = to_be_bytes 8 (su_sequence b) /\ slice 8 32 payload = arr (su_previous_state_id b) /\
  slice 40 32 payload = arr (su_resulting_state_id b) /\
  [slice 72 32 payload; slice 104 32 payload; slice 136 64 payload; slice 200 64 payload; slice 264 64 payload;
   slice 328 64 payload] = facts_fields (su_facts b) /\
  slice 392 4 payload = to_be_bytes 4 (len (record_bytes (su_state b))) /\
  drop (Z.to_nat PRIVATE_SUBMISSION_JOURNAL_PAYLOAD_PREFIX_LENGTH) payload = record_bytes (su_state b).
Proof.
  intros payload. pose proof (submission_ranges b) as Hr. fold payload in Hr. unfold submission_fields, facts_fields in Hr.
  cbn [ranges submission_widths app] in Hr.
  do 11 (let H := fresh "Hf" in apply cons_eq_inv in Hr as [H Hr]). unfold facts_fields.
  split_and!; [exact Hf|exact Hf0|exact Hf1| |exact Hf8|exact Hf9].
  rewrite <-Hf2, <-Hf3, <-Hf4, <-Hf5, <-Hf6, <-Hf7. done.
Qed.

Lemma submission_decode_complete offset b :
  ek_ok submission_kind b ->
  decode_submission_payload tree sparse offset (ek_payload submission_kind b) = Ok (su_at offset b).
Proof.
  intros (Hs & Hr & Hres & Hfacts). destruct (submission_payload_ranges b) as (H1 & H2 & H3 & H4 & H5 & H6).
  assert (Hl : PRIVATE_SUBMISSION_JOURNAL_PAYLOAD_PREFIX_LENGTH <= len (ek_payload submission_kind b)).
  { cbn [ek_payload submission_kind]. rewrite length_app. pose proof (length_submission_fields b). lia. }
  set (payload := ek_payload submission_kind b) in *.
  pose proof (record_length _ Hr) as Hlen. unfold decode_submission_payload. rewrite (proj2 (Z.ltb_ge _ _) Hl). cbv zeta.
  change PREVIOUS_STATE_ID_OFFSET with 8. change RESULTING_STATE_ID_OFFSET with 40. change NXPR_LENGTH_OFFSET with 392.
  rewrite (proj2 (fixed_range_Ok 32 8 payload _) (eq_sym H2)). cbn [mbind result_bind].
  rewrite (proj2 (fixed_range_Ok 32 40 payload _) (eq_sym H3)). cbn [mbind result_bind].
  rewrite (proj2 (decode_facts_Ok payload (su_facts b)) (conj Hfacts (eq_sym H4))).
  cbn [mbind result_bind]. rewrite H1, H5, from_be_8, from_be_4, H6 by done.
  rewrite (proj2 (Z.ltb_ge _ _)) by lia. rewrite Z.eqb_refl. cbn [negb].
  rewrite (decode_record_bytes tree sparse reference Hload r Hsparse _ Hr).
  cbn [submission_record_error map_err mbind result_bind]. by rewrite bool_decide_true.
Qed.

Lemma submission_decode_sound offset payload entry :
  len payload <= PRIVATE_SUBMISSION_JOURNAL_MAX_PAYLOAD_LENGTH ->
  decode_submission_payload tree sparse offset payload = Ok entry ->
  exists b, ek_ok submission_kind b /\ payload = ek_payload submission_kind b /\ entry = su_at offset b.
Proof.
  intros Hl. unfold decode_submission_payload.
  destruct (Z.ltb_spec (len payload) PRIVATE_SUBMISSION_JOURNAL_PAYLOAD_PREFIX_LENGTH) as [|Hp]; [done|]. cbv zeta.
  change PREVIOUS_STATE_ID_OFFSET with 8. change RESULTING_STATE_ID_OFFSET with 40. change NXPR_LENGTH_OFFSET with 392.
  destruct (fixed_range 32 8 payload) as [previous|] eqn:H2; [|done]. cbn [mbind result_bind].
  destruct (fixed_range 32 40 payload) as [resulting|] eqn:H3; [|done]. cbn [mbind result_bind].
  destruct (decode_facts payload) as [facts|] eqn:Hfacts; [|done]. cbn [mbind result_bind].
  apply fixed_range_Ok in H2, H3. apply decode_facts_Ok in Hfacts as [Hfacts Hff]. destruct (_ <? _); [done|].
  destruct (Z.eqb_spec (len (drop (Z.to_nat PRIVATE_SUBMISSION_JOURNAL_PAYLOAD_PREFIX_LENGTH) payload))
    (from_be_bytes (slice 392 4 payload))) as [Hn|]; cbn [negb]; [|done].
  destruct (decode_candidate_private_ledger_state _ _ _) as [state|] eqn:Hd; [|done].
  cbn [submission_record_error map_err mbind result_bind].
  apply (decode_record_Ok tree sparse reference Hload r Hsparse) in Hd as [Hr Hd].
  2: { rewrite length_drop. assert (PRIVATE_SUBMISSION_JOURNAL_MAX_PAYLOAD_LENGTH <= ISIZE_MAX) by by vm_compute. lia. }
  case_bool_decide as Hid; cbn [negb]; [|done]. intros [= <-].
  unfold PRIVATE_SUBMISSION_JOURNAL_PAYLOAD_PREFIX_LENGTH in Hp.
  exists (mk_StoredPrivateSubmissionV2 0 (from_be_bytes (slice 0 8 payload)) previous resulting facts state).
  split_and!; [| |done].
  - split_and!; cbn; try done. unfold in_range. pose proof (from_be_bytes_range (slice 0 8 payload)) as Hrange.
    rewrite slice_length in Hrange by lia. change (256 ^ Z.of_nat (Z.to_nat 8)) with 18446744073709551616 in Hrange. lia.
  - rewrite (submission_payload_split payload) at 1. cbn [ek_payload submission_kind].
    unfold submission_fields. cbn [su_sequence su_previous_state_id su_resulting_state_id su_facts su_state].
    rewrite Hff, <-Hd, Hn, H2, H3, !to_from_be_bytes by (apply slice_length; lia).
    cbn [ranges submission_widths concat app]. by rewrite !app_nil_r, <-!app_assoc.
Qed.

#[export] Instance submission_frames : FrameLaws (submission_format tree sparse) submission_kind.
Proof.
  split.
  - done.
  - done.
  - by vm_compute.
  - intros offset magic. apply exact_magic_Ok.
  - intros offset payload entry Hl. split; [by apply submission_decode_sound|].
    intros (b & Hb & -> & ->). by apply submission_decode_complete.
Qed.

Lemma recover_submissions_snoc base entries offset b :
  @recover_submissions E base entries = Ok tt ->
  let predecessor := match last entries with Some entry => su_state entry | None => base end in
  su_previous_state_id b = state_id predecessor -> submission_step predecessor b ->
  @recover_submissions E base (entries ++ [su_at offset b]) = Ok tt.
Proof.
  revert base. induction entries as [|e entries IH]; intros base.
  - intros _ predecessor Hp [Hres Hv]. unfold predecessor in *. cbn in Hp, Hv |- *.
    rewrite !bool_decide_true by done. cbn [negb]. by rewrite Hv.
  - cbn [recover_submissions app]. destruct (negb _); [done|]. destruct (negb _); [done|].
    destruct (validate_transition base (su_state e) (su_facts e)) as [[]|]; [|done]. cbn [mbind result_bind].
    intros Hr Hp Hs. rewrite last_cons in Hp, Hs. apply IH; [done|..]; by destruct (last entries).
Qed.

#[export] Instance submission_laws :
  JournalLaws (submission_journal tree sparse) submission_kind recordable submission_step.
Proof.
  split; try done.
  - apply submission_frames.
  - by intros b (_ & Hb & _).
  - by intros b (Hb & _).
  - intros base entries offset b. apply recover_submissions_snoc.
Qed.

Lemma submission_storable b : ek_ok submission_kind b -> storable (submission_format tree sparse) submission_kind b.
Proof.
  intros Hb. split; [exact Hb|]. destruct Hb as (_ & Hr & _). pose proof (record_length _ Hr) as Hlen.
  cbn [ek_payload submission_kind ff_maximum submission_format]. rewrite length_app.
  pose proof (length_submission_fields b). unfold PRIVATE_SUBMISSION_JOURNAL_MAX_PAYLOAD_LENGTH. lia.
Qed.

Lemma submission_payload_encoded b :
  ek_ok submission_kind b ->
  encode_submission_payload tree sparse (su_sequence b) (su_previous_state_id b) (su_resulting_state_id b) (su_facts b)
    (record_bytes (su_state b)) = Ok (ek_payload submission_kind b).
Proof.
  intros (_ & Hr & Hres & _). unfold encode_submission_payload. rewrite (record_length_u32 _ Hr).
  cbn [ok_or mbind result_bind]. rewrite (decode_record_bytes tree sparse reference Hload r Hsparse _ Hr).
  cbn [submission_record_error map_err mbind result_bind]. rewrite bool_decide_true by done. cbn [negb].
  f_equal. cbn [ek_payload submission_kind]. unfold submission_fields, facts_fields, pair_list.
  cbn [app concat fmap list_fmap]. by rewrite !app_nil_r, <-!app_assoc.
Qed.

Lemma result_bind_Ok {E' A B} (a : A) (k : A -> Result E' B) : (Ok a ≫= k) = k a.
Proof. done. Qed.

Lemma submission_frame_recorded b predecessor :
  ek_ok submission_kind b -> su_previous_state_id b = state_id predecessor ->
  submission_frame tree sparse (su_sequence b) predecessor (su_state b) (su_facts b) =
  Ok (entry_frame (submission_format tree sparse) submission_kind b).
Proof.
  intros Hb Hp. pose proof Hb as (_ & Hr & Hres & _).
  assert (Hn : submission_record_error (encode_candidate_private_ledger_state (su_state b)) =
    Ok (E := option (PrivateSubmissionJournalError E)) (record_bytes (su_state b))).
  { by rewrite (encode_recordable tree sparse reference r _ Hr). }
  pose proof (submission_payload_encoded b Hb) as He. rewrite Hp, Hres in He.
  unfold submission_frame. rewrite Hn, result_bind_Ok, He, result_bind_Ok.
  exact (encode_frame_storable _ _ _ (submission_storable b Hb)).
Qed.

(** What a receipt and an envelope id say of the transfer. *)
Definition facts_valid (facts : SubmissionFacts) (predecessor state : CandidatePrivateLedgerStateV1) : Prop :=
  @validate_transition E predecessor state facts = Ok tt.

(** [append_submission] of facts with canonical vectors. *)
Lemma submission_append_spec (facts : SubmissionFacts) :
  vector_wf (sf_input_nullifiers facts).1 /\ vector_wf (sf_input_nullifiers facts).2 ->
  vector_wf (sf_output_commitments facts).1 /\ vector_wf (sf_output_commitments facts).2 ->
  append_spec (submission_journal tree sparse) submission_kind (fun state _ => encodable state)
    (fun predecessor state _ => recordable state /\ facts_valid facts predecessor state)
    (fun path predecessor state _ => append_submission tree sparse path predecessor state facts).
Proof.
  intros Hin Hout calm path P Q I base values state receipt Hh Hl Hf HPI Hmay Hready Hroom HQ HI. unfold append_submission.
  set (predecessor := latest (submission_journal tree sparse) base values) in *.
  destruct (@validate_transition E predecessor state facts) as [[]|e] eqn:Hv; cycle 1.
  { eapply (spec_bind _ _ _ (fun _ _ => False)); [|by intros [] d Hc []]. apply spec_of_result.
    assert (Hc : is_calm calm = false) by (destruct (is_calm calm); [destruct (Hready eq_refl) as [_ Hok]; by rewrite Hok in Hv|done]).
    destruct e as [e|]; intros f HP; (split; [done|by apply HPI]). }
  eapply (spec_bind _ _ _ (fun _ => P)); [by apply spec_of_result|]. intros [].
  pose proof (log_length (submission_journal tree sparse) submission_kind recordable submission_step values) as Hlog.
  assert (Hseq : in_range U64_MAX (len values + 1)) by (apply sequence_range; lia).
  apply (spec_append (submission_journal tree sparse) submission_kind recordable submission_step calm path P Q I base values
    Hh Hl Hf HPI state (fun sequence => submission_frame tree sparse sequence predecessor state facts)); try done.
  set (b := mk_StoredPrivateSubmissionV2 0 (len values + 1) (state_id predecessor) (state_id state) facts state).
  assert (Hm : arr (sf_metadata facts) <> replicate 32 x00).
  { unfold validate_transition in Hv. by case_bool_decide. }
  assert (Hb : recordable state -> ek_ok submission_kind b) by by intros Hr.
  destruct (submission_frame _ _ _ _ _ _) as [frame|e] eqn:Hframe.
  - assert (Hr : recordable state).
    { unfold submission_frame in Hframe. destruct (encode_candidate_private_ledger_state state) as [nxpr|] eqn:Hn; [|done].
      exact (Hmay nxpr Hn). }
    pose proof (submission_frame_recorded b predecessor (Hb Hr) eq_refl) as Hp.
    cbn [b su_sequence su_state su_facts] in Hp. rewrite Hframe in Hp. injection Hp as ->.
    exists b. split_and!; try done. exact (submission_storable b (Hb Hr)).
  - destruct (is_calm calm); [|done]. destruct (Hready eq_refl) as [Hr _].
    pose proof (submission_frame_recorded b predecessor (Hb Hr) eq_refl) as Hp.
    cbn [b su_sequence su_state su_facts] in Hp. by rewrite Hp in Hframe.
Qed.

End Records.
