(* ===== verification/PrivateStore.v ===== *)
(** * The stores of a private ledger ([noxis-storage])

    A store keeps a base record, a journal and a replaceable cache record
    ([private_state_store.rs] over the journal of version 1,
    [private_submission_store.rs] over that of version 2) and the migration from
    the first to the second ([private_submission_migration.rs]).  The two stores
    are the same code up to the journal, the texts of their errors and the name of
    a temporary file, which [StoreKind] collects. *)

From Stdlib Require Import Strings.Byte Strings.String.
From stdpp Require Import gmap.
From S2P Require Import Prelude Arrays Reader Sha256 Types Privacy BabyBear Poseidon2 NullifierTree PrivateState PrivateLedger.
From S2P Require Import PrivateRecord Crc32 Frames CheckpointStore Disk PrivateJournal.

Module PrivateStoreError.
Inductive PrivateStoreError (E JE : Type) : Type :=
| EmptyPath
| NoParent (path : FileName)
| AlreadyInitialized (path : FileName)
| UnexpectedSidecar (cache base journal : FileName)
| PublishedStateMismatch (path : FileName)
| MissingJournalBase (path : FileName)
| JournalBaseMismatch (base cache : StateId)
| JournalCacheMismatch (journal cache : StateId)
| JournalTailPresent
| WriterLocked (path : FileName)
| Oversized (path : FileName) (length : Z)
| Io (operation : string) (path : FileName)
| Record (error : CandidatePrivateStateRecordError E)
| Journal (error : JE)
| InvalidRecord (path : FileName) (source : CandidatePrivateStateRecordError E)
| Ledger (error : CandidatePrivateLedgerError E).
Arguments EmptyPath {E JE}.
Arguments NoParent {E JE} path.
Arguments AlreadyInitialized {E JE} path.
Arguments UnexpectedSidecar {E JE} cache base journal.
Arguments PublishedStateMismatch {E JE} path.
Arguments MissingJournalBase {E JE} path.
Arguments JournalBaseMismatch {E JE} base cache.
Arguments JournalCacheMismatch {E JE} journal cache.
Arguments JournalTailPresent {E JE}.
Arguments WriterLocked {E JE} path.
Arguments Oversized {E JE} path length.
Arguments Io {E JE} operation path.
Arguments Record {E JE} error.
Arguments Journal {E JE} error.
Arguments InvalidRecord {E JE} path source.
Arguments Ledger {E JE} error.
End PrivateStoreError.
Abbreviation PrivateStoreError := PrivateStoreError.PrivateStoreError.

Module StErr := PrivateStoreError.

Definition TEMPORARY_EXTENSION : list byte := bytes_of_string "tmp".
Definition LOCK_EXTENSION : list byte := bytes_of_string "lock".
Definition JOURNAL_EXTENSION : list byte := bytes_of_string "nxpl".
Definition BASE_EXTENSION : list byte := bytes_of_string "base".

Definition lock_path (path : FileName) : FileName := with_extension path LOCK_EXTENSION.
Definition journal_path (path : FileName) : FileName := sidecar_path path JOURNAL_EXTENSION.
Definition base_path (path : FileName) : FileName := sidecar_path path BASE_EXTENSION.

(** A store with its journal: the nouns of its error texts and the middle of the
    name of a temporary file of a process. *)
Record StoreKind (JE B : Type) : Type := mk_StoreKind {
  sk_journal : JournalKind JE B;
  sk_noun : string;
  sk_state_noun : string;
  sk_record_noun : string;
  sk_temporary : FileName -> Z -> Z -> list byte
}.
Arguments sk_journal {JE B} s.
Arguments sk_noun {JE B} s.
Arguments sk_state_noun {JE B} s.
Arguments sk_record_noun {JE B} s.
Arguments sk_temporary {JE B} s path process sequence.

(** The store of an open path; its journal is the file of that name. *)
Record PrivateStore : Type := mk_PrivateStore {
  st_path : FileName;
  st_base_path : FileName;
  st_journal : FileName;
  st_state : CandidatePrivateLedgerStateV1
}.

Section Store.
Context `{Sha2} (tree : P24Manifest) {E : Type} (sparse : SparseManifest E).
Context {JE B : Type} (K : StoreKind JE B).

Abbreviation J := (sk_journal K).
Abbreviation StoreError := (PrivateStoreError E JE).
Abbreviation StoreIO := (IO StoreError).

Definition store_error (before noun after : string) (path : FileName) : StoreError :=
  StErr.Io (before ++ noun ++ after)%string path.

Definition with_journal {A} (m : IO JE A) : StoreIO A := map_error StErr.Journal m.

Definition record_result {A} (r : Result (option (CandidatePrivateStateRecordError E)) A) : StoreIO A :=
  of_result (map_err (option_map StErr.Record) r).

(** ** Paths and locks *)

Definition checked_path (path : FileName) : StoreIO FileName :=
  match path with [] => of_error StErr.EmptyPath | _ => mret path end.

(** [create_dir_all] of the directory the files are in. *)
Definition ensure_parent : StoreIO unit := plain_call (store_error "create " (sk_noun K) " directory" []).

Definition acquire_lock (path : FileName) : StoreIO unit :=
  _ ← ensure_parent;
  _ ← open_or_create (store_error "open " (sk_noun K) " writer lock" (lock_path path)) (lock_path path);
  plain_call (StErr.WriterLocked (lock_path path)).

(** [TEMPORARY_SEQUENCE.fetch_add(1)] in the name. *)
Definition temporary_path (path : FileName) : StoreIO FileName :=
  d ← get;
  _ ← put (mk_Disk (d_files d) (d_outcomes d) (d_process d) (d_sequence d + 1));
  mret (with_extension path (sk_temporary K path (d_process d) (d_sequence d) ++ [x2e] ++ TEMPORARY_EXTENSION)).

(** ** Records in files *)

Definition read_state (path : FileName) : StoreIO CandidatePrivateLedgerStateV1 :=
  length ← metadata_len (store_error "inspect " (sk_record_noun K) "" path) path;
  if PRIVATE_STATE_RECORD_MAX_BYTES <? length
  then of_error (StErr.Oversized path length)
  else
    bytes ← read_file (store_error "read " (sk_record_noun K) "" path) path;
    of_result (map_err (option_map (StErr.InvalidRecord path)) (decode_candidate_private_ledger_state tree sparse bytes)).

(** The closure of [publish_state]. *)
Definition write_and_rename (temporary path : FileName) (encoded : list byte) : StoreIO unit :=
  _ ← create_new (store_error "create temporary " (sk_state_noun K) "" temporary) temporary;
  _ ← write_all (store_error "write temporary " (sk_state_noun K) "" temporary) temporary encoded;
  _ ← sync_file (store_error "sync temporary " (sk_state_noun K) "" temporary) temporary (length encoded);
  _ ← rename (store_error "atomically publish " (sk_state_noun K) "" path) temporary path;
  recovered ← read_state path;
  recovered_bytes ← record_result (encode_candidate_private_ledger_state recovered);
  if negb (bool_decide (recovered_bytes = encoded)) then of_error (StErr.PublishedStateMismatch path) else mret tt.

Definition publish_state (path : FileName) (state : CandidatePrivateLedgerStateV1) : StoreIO unit :=
  encoded ← record_result (encode_candidate_private_ledger_state state);
  temporary ← temporary_path path;
  result ← attempt (write_and_rename temporary path encoded);
  left_over ← path_exists temporary;
  _ ← (if left_over : bool
       then remove_file (store_error "remove temporary " (sk_state_noun K) "" temporary) temporary
       else mret tt);
  match result with Ok _ => mret tt | Err error => of_error error end.

Definition write_or_validate_journal_base (path : FileName) (state : CandidatePrivateLedgerStateV1) : StoreIO unit :=
  present ← path_exists path;
  if present : bool
  then
    base ← read_state path;
    if negb (bool_decide (state_id base = state_id state))
    then of_error (StErr.JournalBaseMismatch (state_id base) (state_id state))
    else mret tt
  else publish_state path state.

Definition read_journal_base (path : FileName) : StoreIO CandidatePrivateLedgerStateV1 :=
  present ← path_exists path;
  if negb present then of_error (StErr.MissingJournalBase path) else read_state path.

(** ** Opening *)

(** [if let Some(tail) = ... { journal.truncate_verified_incomplete_tail(tail)? }]. *)
Definition repair_tail (journal : FileName) (tail : option IncompleteTail) : StoreIO unit :=
  match tail with
  | Some tail => with_journal (truncate_verified_incomplete_tail J journal tail)
  | None => mret tt
  end.

(** The branch of [recover_authoritative_state] for a journal with entries. *)
Definition recover_from_journal (journal base : FileName) : StoreIO CandidatePrivateLedgerStateV1 :=
  base ← read_journal_base base;
  verified ← with_journal (recover_from J journal base);
  latest ← of_result (ok_or (last verified.1) None);
  _ ← repair_tail journal verified.2;
  mret (jk_state J latest).

(** The branch for a journal without entries. *)
Definition recover_from_cache (journal base : FileName) (tail : option IncompleteTail)
    (cache : CandidatePrivateLedgerStateV1) : StoreIO CandidatePrivateLedgerStateV1 :=
  missing ← (match tail with
             | Some _ => present ← path_exists base; mret (negb present)
             | None => mret false
             end);
  if missing : bool
  then of_error (StErr.MissingJournalBase base)
  else
    present ← path_exists base;
    _ ← (if present : bool
         then
           recorded ← read_journal_base base;
           if negb (bool_decide (state_id recorded = state_id cache))
           then of_error (StErr.JournalBaseMismatch (state_id recorded) (state_id cache))
           else mret tt
         else mret tt);
    _ ← repair_tail journal tail;
    mret cache.

Definition recover_authoritative_state (journal base : FileName) (cache : option CandidatePrivateLedgerStateV1)
    : StoreIO CandidatePrivateLedgerStateV1 :=
  scan ← with_journal (scan_recoverable_tail J journal);
  match last scan.1 with
  | Some _ => recover_from_journal journal base
  | None =>
      cache ← of_result (ok_or cache None);
      recover_from_cache journal base scan.2 cache
  end.

(** [read_state(&path).ok()] and [Some(read_state(&path)?)]. *)
Definition read_cache (path : FileName) (has_entries : bool) : StoreIO (option CandidatePrivateLedgerStateV1) :=
  if has_entries
  then result ← attempt (E := StoreError) (read_state path); mret (match result with Ok state => Some state | Err _ => None end)
  else state ← read_state path; mret (Some state).

Definition is_current (cache : option CandidatePrivateLedgerStateV1) (state : CandidatePrivateLedgerStateV1) : bool :=
  bool_decide (state_id <$> cache = Some (state_id state)).

Definition store_open (path : FileName) : StoreIO PrivateStore :=
  path ← checked_path path;
  _ ← acquire_lock path;
  let base := base_path path in
  let journal := journal_path path in
  _ ← with_journal (journal_open J journal);
  first_scan ← with_journal (scan_recoverable_tail J journal);
  cache ← read_cache path (bool_decide (is_Some (last first_scan.1)));
  state ← recover_authoritative_state journal base cache;
  _ ← (if negb (is_current cache state) then publish_state path state else mret tt);
  mret (mk_PrivateStore path base journal state).

(** ** Creating *)

Definition store_initialize (path : FileName) (state : CandidatePrivateLedgerStateV1) : StoreIO PrivateStore :=
  path ← checked_path path;
  _ ← ensure_parent;
  _ ← acquire_lock path;
  present ← path_exists path;
  if present : bool
  then of_error (StErr.AlreadyInitialized path)
  else
    let base := base_path path in
    let journal := journal_path path in
    base_present ← path_exists base;
    sidecar ← (if base_present : bool then mret true else path_exists journal);
    if sidecar : bool
    then of_error (StErr.UnexpectedSidecar path base journal)
    else
      _ ← publish_state path state;
      _ ← with_journal (journal_open J journal);
      mret (mk_PrivateStore path base journal state).

(** ** Transfers *)

Definition prepare_journal_base (self : PrivateStore) : StoreIO unit :=
  scan ← with_journal (scan_recoverable_tail J (st_journal self));
  match scan.2 with
  | Some _ => of_error StErr.JournalTailPresent
  | None =>
      match last scan.1 with
      | Some _ =>
          base ← read_journal_base (st_base_path self);
          verified ← with_journal (recover_from J (st_journal self) base);
          recovered ← of_result (ok_or (last verified.1) None);
          if negb (bool_decide (state_id (jk_state J recovered) = state_id (st_state self)))
          then of_error (StErr.JournalCacheMismatch (state_id (jk_state J recovered)) (state_id (st_state self)))
          else mret tt
      | None => write_or_validate_journal_base (st_base_path self) (st_state self)
      end
  end.

Context {A : Type} `{!CandidatePrivateTransferAuthorizer A}.

(** [apply_transfer] on a clone of the state, an append to the journal and the
    publication of the cache; [append] is the journal's. *)
Definition store_apply
    (append : FileName -> CandidatePrivateLedgerStateV1 -> CandidatePrivateLedgerStateV1 ->
              CandidatePrivateTransferAdmissionReceiptV1 -> IO JE Z)
    (request : CandidatePrivateTransferRequestV1 A) (self : PrivateStore)
    : StoreIO (CandidatePrivateTransferAdmissionReceiptV1 * PrivateStore) :=
  let '(result, successor) := apply_transfer tree sparse request (st_state self) in
  receipt ← of_result (map_err (option_map StErr.Ledger) result);
  _ ← prepare_journal_base self;
  _ ← with_journal (append (st_journal self) (st_state self) successor receipt);
  _ ← publish_state (st_path self) successor;
  mret (receipt, mk_PrivateStore (st_path self) (st_base_path self) (st_journal self) successor).

(** ** History *)

(** [submissions]: the entries, checked against the base. *)
Definition store_submissions (self : PrivateStore) : StoreIO (list B) :=
  scan ← with_journal (scan_recoverable_tail J (st_journal self));
  match scan.2 with
  | Some _ => of_error StErr.JournalTailPresent
  | None =>
      match scan.1 with
      | [] => mret []
      | _ =>
          base ← read_journal_base (st_base_path self);
          recovered ← with_journal (recover_from J (st_journal self) base);
          match recovered.2 with
          | Some _ => of_error StErr.JournalTailPresent
          | None => mret recovered.1
          end
      end
  end.

Definition initialize_with_authenticated_base (path : FileName) (state : CandidatePrivateLedgerStateV1)
    : StoreIO PrivateStore :=
  store ← store_initialize path state;
  _ ← prepare_journal_base store;
  mret store.

End Store.

(** ** The two stores *)

Definition HYPHEN : list byte := [x2d].

Section Kinds.
Context `{Sha2} (tree : P24Manifest) {E : Type} (sparse : SparseManifest E).

Definition state_store : StoreKind (PrivateStateJournalError E) StoredPrivateState := {|
  sk_journal := state_journal tree sparse;
  sk_noun := "private-state";
  sk_state_noun := "private state";
  sk_record_noun := "private-state record";
  sk_temporary := fun path process sequence =>
    decimal process ++ HYPHEN ++ extension_or_nxpr path ++ HYPHEN ++ decimal sequence
|}.

Definition submission_store : StoreKind (PrivateSubmissionJournalError E) StoredPrivateSubmissionV2 := {|
  sk_journal := submission_journal tree sparse;
  sk_noun := "private-submission";
  sk_state_noun := "private-submission state";
  sk_record_noun := "private-submission state";
  sk_temporary := fun _ process sequence => decimal process ++ HYPHEN ++ decimal sequence
|}.

Abbreviation StateStoreError := (PrivateStoreError E (PrivateStateJournalError E)).
Abbreviation SubmissionStoreError := (PrivateStoreError E (PrivateSubmissionJournalError E)).

(** The functions of [private_submission_store.rs] that are those of version 1. *)
Definition submission_acquire_lock : FileName -> IO SubmissionStoreError unit := acquire_lock submission_store.
Definition submission_temporary_path : FileName -> IO SubmissionStoreError FileName := temporary_path submission_store.
Definition submission_read_state : FileName -> IO SubmissionStoreError CandidatePrivateLedgerStateV1 :=
  read_state tree sparse submission_store.
Definition submission_publish_state : FileName -> CandidatePrivateLedgerStateV1 -> IO SubmissionStoreError unit :=
  publish_state tree sparse submission_store.
Definition submission_write_or_validate_base : FileName -> CandidatePrivateLedgerStateV1 -> IO SubmissionStoreError unit :=
  write_or_validate_journal_base tree sparse submission_store.
Definition submission_read_base : FileName -> IO SubmissionStoreError CandidatePrivateLedgerStateV1 :=
  read_journal_base tree sparse submission_store.
Definition submission_recover_authoritative
    : FileName -> FileName -> option CandidatePrivateLedgerStateV1 -> IO SubmissionStoreError CandidatePrivateLedgerStateV1 :=
  recover_authoritative_state tree sparse submission_store.
Definition submission_prepare_base : PrivateStore -> IO SubmissionStoreError unit :=
  prepare_journal_base tree sparse submission_store.

(** [PrivateStateStoreV1]. *)
Definition state_store_initialize : FileName -> CandidatePrivateLedgerStateV1 -> IO StateStoreError PrivateStore :=
  store_initialize tree sparse state_store.
Definition state_store_open : FileName -> IO StateStoreError PrivateStore := store_open tree sparse state_store.

(** [PrivateSubmissionStoreV2]. *)
Definition submission_store_initialize : FileName -> CandidatePrivateLedgerStateV1 -> IO SubmissionStoreError PrivateStore :=
  store_initialize tree sparse submission_store.
Definition submission_store_open : FileName -> IO SubmissionStoreError PrivateStore :=
  store_open tree sparse submission_store.
Definition submission_store_submissions : PrivateStore -> IO SubmissionStoreError (list StoredPrivateSubmissionV2) :=
  store_submissions tree sparse submission_store.

(** [PrivateSubmissionStoreStatusV1]. *)
Record PrivateSubmissionStoreStatusV1 : Type := mk_PrivateSubmissionStoreStatusV1 {
  ss_state_id : StateId;
  ss_commitment_count : Z;
  ss_spent_nullifier_count : Z;
  ss_durable_submission_count : Z
}.

Definition submission_store_status (self : PrivateStore) : IO SubmissionStoreError PrivateSubmissionStoreStatusV1 :=
  submissions ← submission_store_submissions self;
  mret (mk_PrivateSubmissionStoreStatusV1 (state_id (st_state self)) (len (sn_commitments (pl_snapshot (st_state self))))
          (len (sn_spent_nullifiers (pl_snapshot (st_state self)))) (len submissions)).

Section Transfer.
Context {A : Type} `{!CandidatePrivateTransferAuthorizer A}.

(** [PrivateStateStoreV1::apply_transfer]. *)
Definition state_store_apply (request : CandidatePrivateTransferRequestV1 A) (self : PrivateStore)
    : IO StateStoreError (CandidatePrivateTransferAdmissionReceiptV1 * PrivateStore) :=
  store_apply tree sparse state_store
    (fun journal predecessor successor _ => append_post_state tree sparse journal (state_id predecessor) successor)
    request self.

(** [[T; 2]] as a pair. *)
Definition as_pair {T} (l : list T) : option (T * T) := match l with [a; b] => Some (a, b) | _ => None end.

Definition receipt_facts (metadata : EnvelopeId) (receipt : CandidatePrivateTransferAdmissionReceiptV1)
    : Result (option (PrivateSubmissionJournalError E)) SubmissionFacts :=
  input_nullifiers ← ok_or (as_pair (rc_input_nullifiers receipt)) None;
  output_commitments ← ok_or (as_pair (rc_output_commitments receipt)) None;
  Ok (mk_SubmissionFacts metadata (rc_asset_id receipt) input_nullifiers output_commitments).

(** [PrivateSubmissionStoreV2::apply_transfer]. *)
Definition submission_store_apply (metadata : EnvelopeId) (request : CandidatePrivateTransferRequestV1 A)
    (self : PrivateStore) : IO SubmissionStoreError (CandidatePrivateTransferAdmissionReceiptV1 * PrivateStore) :=
  store_apply tree sparse submission_store
    (fun journal predecessor successor receipt =>
       facts ← of_result (receipt_facts metadata receipt);
       append_submission tree sparse journal predecessor successor facts)
    request self.

End Transfer.

(** ** Migration ([private_submission_migration.rs]) *)

Inductive PrivateSubmissionMigrationError : Type :=
| SamePath (path : FileName)
| SourceError (error : StateStoreError)
| TargetError (error : SubmissionStoreError)
| StateMismatch (source target : StateId)
| UnexpectedTargetHistory.

Record PrivateSubmissionMigrationReceiptV1 : Type := mk_PrivateSubmissionMigrationReceiptV1 {
  mr_source_state_id : StateId;
  mr_target_state_id : StateId
}.

Definition migrate_private_state_store_v1_to_submission_store_v2 (source_path target_path : FileName)
    : IO PrivateSubmissionMigrationError PrivateSubmissionMigrationReceiptV1 :=
  if bool_decide (source_path = target_path)
  then of_error (SamePath source_path)
  else
    source ← map_error SourceError (state_store_open source_path);
    let source_state := st_state source in
    let source_state_id := state_id source_state in
    _ ← map_error TargetError
          (initialize_with_authenticated_base tree sparse submission_store target_path source_state);
    reopened ← map_error TargetError (submission_store_open target_path);
    let target_state_id := state_id (st_state reopened) in
    if negb (bool_decide (target_state_id = source_state_id))
    then of_error (StateMismatch source_state_id target_state_id)
    else
      submissions ← map_error TargetError (submission_store_submissions reopened);
      match submissions with
      | [] => mret (mk_PrivateSubmissionMigrationReceiptV1 source_state_id target_state_id)
      | _ => of_error UnexpectedTargetHistory
      end.

End Kinds.
