(* ===== verification/PrivateStoreFacts.v ===== *)
(** * The stores of a private ledger are crash consistent

    For either journal: whatever call of an operation fails, and wherever the
    process ends, the files of a store hold the state before the operation or the
    state after it, the latter if the operation reported success.  Opening the
    store then returns that state.  With every call done, opening succeeds and an
    admitted transfer is stored. *)

From Stdlib Require Import Strings.Byte Strings.String.
From stdpp Require Import gmap.
From S2P Require Import Prelude Arrays Reader Sha256 Types Ledger Privacy BabyBear Poseidon2 Poseidon2Facts TreeManifestFacts.
From S2P Require Import NullifierTree NullifierTreeFacts PrivateState PrivateLedger PrivateStateFacts PrivateTransitionFacts.
From S2P Require Import PrivateLedgerFacts PrivateRecord PrivateRecordFacts Crc32 Frames FramesFacts CheckpointStore.
From S2P Require Import Disk DiskFacts PrivateJournal PrivateJournalFacts PrivateStore.

#[local] Opaque P24_TREE_DEPTH NULLIFIER_SPARSE_TREE_DEPTH_V1 record_bytes.

(** ** Names *)

Section Names.
Context {JE B : Type} (K : StoreKind JE B) (path : FileName).

Definition temporary_name (p : FileName) (process sequence : Z) : FileName :=
  with_extension p (sk_temporary K p process sequence ++ [x2e] ++ TEMPORARY_EXTENSION).

Lemma base_not_path : base_path path <> path.
Proof. apply sidecar_not_path. Qed.

Lemma journal_not_path : journal_path path <> path.
Proof. apply sidecar_not_path. Qed.

Lemma last_base : last (base_path path) = Some x65.
Proof. by apply last_with_extension. Qed.

Lemma last_journal : last (journal_path path) = Some x6c.
Proof. by apply last_with_extension. Qed.

Lemma last_lock : last (lock_path path) = Some x6b.
Proof. unfold lock_path, with_extension. by rewrite last_app. Qed.

Lemma last_temporary p process sequence : last (temporary_name p process sequence) = Some x70.
Proof. by apply last_with_extension. Qed.

Lemma base_not_journal : base_path path <> journal_path path.
Proof. by apply (different_last _ _ _ _ last_base last_journal). Qed.

Lemma lock_not_base : lock_path path <> base_path path.
Proof. by apply (different_last _ _ _ _ last_lock last_base). Qed.

Lemma lock_not_journal : lock_path path <> journal_path path.
Proof. by apply (different_last _ _ _ _ last_lock last_journal). Qed.

Lemma temporary_not_base p process sequence : base_path path <> temporary_name p process sequence.
Proof. by apply (different_last _ _ _ _ last_base (last_temporary p process sequence)). Qed.

Lemma temporary_not_journal p process sequence : journal_path path <> temporary_name p process sequence.
Proof. by apply (different_last _ _ _ _ last_journal (last_temporary p process sequence)). Qed.

Lemma temporary_not_lock p process sequence : lock_path path <> temporary_name p process sequence.
Proof. by apply (different_last _ _ _ _ last_lock (last_temporary p process sequence)). Qed.

Lemma path_not_temporary process sequence : path <> temporary_name path process sequence.
Proof. apply not_eq_sym, temporary_not_path. Qed.

Lemma path_not_base_temporary process sequence : path <> temporary_name (base_path path) process sequence.
Proof. apply not_eq_sym, sidecar_temporary_not_path. Qed.

End Names.

#[local] Hint Resolve base_not_path journal_not_path base_not_journal lock_not_base lock_not_journal temporary_not_base
  temporary_not_journal temporary_not_lock path_not_temporary path_not_base_temporary : names.

(** ** A transfer is refused only by the ledger *)

Section Errors.
Context `{Sha2} (tree : P24Manifest) {E : Type} (sparse : SparseManifest E) {JE B : Type} (K : StoreKind JE B).

Definition from_storage (e : PrivateStoreError E JE) : Prop := match e with StErr.Ledger _ => False | _ => True end.

Abbreviation raises := (raises from_storage).

Lemma raises_with_journal {A : Type} (m : IO JE A) : raises (with_journal (E := E) m).
Proof. by apply raises_map_error. Qed.

Lemma raises_read_state p : raises (read_state tree sparse K p).
Proof.
  apply raises_bind; [by apply raises_os_call|]. intros n. destruct (_ <? _); [by apply raises_of_error|].
  apply raises_bind; [by apply raises_os_call|]. intros c. apply raises_of_result. intros e.
  by destruct (decode_candidate_private_ledger_state tree sparse c) as [|[|]]; intros [= <-].
Qed.

Lemma raises_read_base p : raises (read_journal_base tree sparse K p).
Proof.
  apply raises_bind; [apply raises_path_exists|]. intros b. destruct (negb b); [by apply raises_of_error|apply raises_read_state].
Qed.

Lemma raises_record_result {A : Type} (x : Result (option (CandidatePrivateStateRecordError E)) A) :
  raises (record_result x).
Proof. apply raises_of_result. intros e. by destruct x as [|[|]]; intros [= <-]. Qed.

Lemma raises_write_and_rename t p c : raises (write_and_rename tree sparse K t p c).
Proof.
  apply raises_bind; [by apply raises_os_call|]. intros []. apply raises_bind; [by apply raises_write_all|]. intros [].
  apply raises_bind; [by apply raises_os_call|]. intros []. apply raises_bind; [by apply raises_os_call|]. intros [].
  apply raises_bind; [apply raises_read_state|]. intros l. apply raises_bind; [apply raises_record_result|]. intros c'.
  destruct (negb _); [by apply raises_of_error|apply raises_ret].
Qed.

Lemma raises_publish p s : raises (publish_state tree sparse K p s).
Proof.
  apply raises_bind; [apply raises_record_result|]. intros c. apply raises_bind; [by intros d|]. intros t.
  apply raises_attempt; [apply raises_write_and_rename|]. intros x Hx.
  apply raises_bind; [apply raises_path_exists|]. intros b.
  apply raises_bind; [destruct b; [by apply raises_os_call|apply raises_ret]|]. intros [].
  destruct x as [[]|e]; [apply raises_ret|]. by apply raises_of_error, Hx.
Qed.

Lemma raises_prepare store : raises (prepare_journal_base tree sparse K store).
Proof.
  apply raises_bind; [apply raises_with_journal|]. intros scan. destruct scan.2; [by apply raises_of_error|].
  destruct (last scan.1).
  - apply raises_bind; [apply raises_read_base|]. intros base. apply raises_bind; [apply raises_with_journal|]. intros v.
    apply raises_bind; [apply raises_of_result; by destruct (last v.1)|]. intros e.
    destruct (negb _); [by apply raises_of_error|apply raises_ret].
  - apply raises_bind; [apply raises_path_exists|]. intros [|]; [|apply raises_publish].
    apply raises_bind; [apply raises_read_state|]. intros base. destruct (negb _); [by apply raises_of_error|apply raises_ret].
Qed.

(** An admitted transfer fails only in storage. *)
Lemma raises_store_apply {A : Type} `{!CandidatePrivateTransferAuthorizer A} append
    (request : CandidatePrivateTransferRequestV1 A) (store : PrivateStore) receipt l :
  apply_transfer tree sparse request (st_state store) = (Ok receipt, l) ->
  raises (store_apply tree sparse K append request store).
Proof.
  intros Ha. unfold store_apply. rewrite Ha. apply raises_bind; [by apply raises_of_result|]. intros x.
  apply raises_bind; [apply raises_prepare|]. intros []. apply raises_bind; [apply raises_with_journal|]. intros n.
  apply raises_bind; [apply raises_publish|]. intros []. apply raises_ret.
Qed.

End Errors.

Section Loaded.
Context `{Sha2} (tree : P24Manifest) `{!P24ManifestLaws tree} {E : Type} (sparse : SparseManifest E).
Context `{!SparseManifestLaws sparse} (reference : Poseidon2P24Reference) (Hload : load_reference tree = Ok reference).
Context (r : NullifierSparseTreeReferenceV1) (Hsparse : load_sparse_reference tree sparse = Ok r).
Context {JE B : Type} (K : StoreKind JE B) (EK : EntryKind B B).

Abbreviation recordable := (recordable tree sparse reference r).
Abbreviation J := (sk_journal K).
Context (step : CandidatePrivateLedgerStateV1 -> B -> Prop) `{!JournalLaws J EK recordable step}.
#[local] Instance store_frames : FrameLaws (jk_format J) EK := journal_frames J EK recordable step.

Abbreviation Ledger := CandidatePrivateLedgerStateV1.
Abbreviation log := (log_bytes (jk_format J) EK).
Abbreviation placed := (placed (jk_format J) EK 0).
Abbreviation history := (history J EK).
Abbreviation latest := (latest J).
Abbreviation contents_of := (contents_of J EK).
Abbreviation StoreError := (PrivateStoreError E JE).

(** ** Reading and publishing records *)

Section Records.
Context (calm : Mode) (P : Files -> Prop) (path : FileName).

Lemma spec_read_state (s : Ledger) :
  recordable s -> (forall f, P f -> f !! path = Some (record_bytes s)) ->
  spec calm P (read_state tree sparse K path) (fun x f => x = s /\ P f) (failing calm P).
Proof.
  intros Hs Hf. pose proof (record_bytes_bound tree sparse reference r s Hs) as Hb. unfold read_state.
  eapply spec_bind.
  { eapply spec_conseq; [apply (spec_metadata_len _ P)|auto|intros a f Ha; exact Ha|].
    intros e f [HP Hn]. split; [|done]. destruct (is_calm calm); [|done]. destruct (Hn eq_refl) as [_ Hno]. by rewrite (Hf f HP) in Hno. }
  intros n. apply (spec_pre _ (fun f => n = len (record_bytes s) /\ P f)).
  2: { intros f (HP & c & Hc & ->). rewrite (Hf f HP) in Hc. by injection Hc as <-. }
  apply spec_fact. intros ->. rewrite (proj2 (Z.ltb_ge _ _) Hb).
  eapply spec_bind.
  { eapply spec_conseq; [apply (spec_read_file _ P)|auto|intros a f Ha; exact Ha|].
    intros e f [HP Hn]. split; [|done]. destruct (is_calm calm); [|done]. destruct (Hn eq_refl) as [_ Hno]. by rewrite (Hf f HP) in Hno. }
  intros c. apply (spec_pre _ (fun f => c = record_bytes s /\ P f)).
  2: { intros f [HP Hc]. rewrite (Hf f HP) in Hc. by injection Hc as <-. }
  apply spec_fact. intros ->. apply spec_of_result.
  by rewrite (decode_record_bytes tree sparse reference Hload r Hsparse s Hs).
Qed.

(** A file with any contents: a record, or an error that is not a panic. *)
Lemma spec_read_any :
  spec calm P (read_state tree sparse K path) (fun _ => P)
    (fun e f => P f /\ (is_calm calm = true -> e <> Crash /\ e <> Panic)).
Proof.
  unfold read_state. eapply spec_bind.
  { eapply spec_conseq; [apply (spec_metadata_len _ P)|auto|intros a f Ha; exact Ha|].
    intros e f [HP Hn]. split; [done|]. intros Hc. by destruct (Hn Hc) as [-> _]. }
  intros n. destruct (Z.ltb_spec PRIVATE_STATE_RECORD_MAX_BYTES n) as [Hlt|Hle].
  { apply spec_of_error. by intros f [HP _]. }
  eapply spec_bind.
  { eapply spec_conseq; [apply spec_read_file|intros f Hf; exact Hf|intros a f Ha; exact Ha|].
    intros e f [(HP & _) Hn]. split; [done|]. intros Hc. by destruct (Hn Hc) as [-> _]. }
  intros c'. apply (spec_pre _ (fun f => len c' <= ISIZE_MAX /\ P f)).
  2: { intros f [(HP & c & Hc & ->) Hc']. rewrite Hc in Hc'. injection Hc' as <-. split; [|done].
       etransitivity; [exact Hle|apply record_fits]. }
  apply spec_fact. intros Hl. apply spec_of_result.
  pose proof (decode_no_panic tree sparse reference Hload r Hsparse c' Hl) as Hnp.
  destruct (decode_candidate_private_ledger_state tree sparse c') as [l|[e|]]; cbn; [done|done|congruence].
Qed.

Lemma spec_read_base (s : Ledger) :
  recordable s -> (forall f, P f -> f !! path = Some (record_bytes s)) ->
  spec calm P (read_journal_base tree sparse K path) (fun x f => x = s /\ P f) (failing calm P).
Proof.
  intros Hs Hf. unfold read_journal_base. eapply spec_bind; [apply spec_path_exists|]. intros [|]; cbn [negb].
  - apply (spec_pre _ P); [by apply spec_read_state|]. by intros f (HP & _).
  - apply spec_of_error. intros f (HP & _ & Hc). split; [|done]. destruct (is_calm calm); [|done].
    specialize (Hc eq_refl). rewrite (Hf f HP) in Hc. by rewrite bool_decide_true in Hc.
Qed.

End Records.

Section Publish.
Context (calm : Mode) (p : FileName) (s : Ledger) (Hs : recordable s) (f0 : Files).
Context (Hfree : is_calm calm = true -> forall sequence, f0 !! temporary_name K p (md_process calm) sequence = None).
Context (Hname : forall process sequence, p <> temporary_name K p process sequence).

(** Up to temporary files nothing changed, or only the published file did. *)
Definition agrees (f g : Files) : Prop :=
  forall n, (forall process sequence, n <> temporary_name K p process sequence) -> f !! n = g !! n.
Definition publishing (f : Files) : Prop := agrees f f0 \/ agrees f (<[p := record_bytes s]> f0).

Lemma agrees_refl f : agrees f f.
Proof. by intros n _. Qed.

Lemma agrees_insert f g process sequence x : agrees f g -> agrees (<[temporary_name K p process sequence := x]> f) g.
Proof. intros Hf n Hn. rewrite lookup_insert_ne by (apply not_eq_sym, Hn). by apply Hf. Qed.

Lemma agrees_delete f g process sequence : agrees f g -> agrees (delete (temporary_name K p process sequence) f) g.
Proof. intros Hf n Hn. rewrite lookup_delete_ne by (apply not_eq_sym, Hn). by apply Hf. Qed.

Lemma publishing_delete f process sequence :
  publishing f -> publishing (delete (temporary_name K p process sequence) f).
Proof. intros [Hf|Hf]; [left|right]; by apply agrees_delete. Qed.

Lemma spec_write_and_rename process sequence :
  (is_calm calm = true -> process = md_process calm) ->
  let t := temporary_name K p process sequence in
  spec calm (fun f => f = f0) (write_and_rename tree sparse K t p (record_bytes s))
    (fun _ f => f = <[p := record_bytes s]> f0 /\ f !! t = None) (failing calm publishing).
Proof.
  intros Hpid t. pose proof (record_bytes_bound tree sparse reference r s Hs) as Hb.
  assert (Hmax : len (record_bytes s) <= MAX_FILE_LENGTH) by (etransitivity; [exact Hb|apply record_fits]).
  assert (Htmp : forall x, publishing (<[t := x]> f0)) by (intros x; left; apply agrees_insert, agrees_refl).
  assert (Hsame : publishing f0) by (left; apply agrees_refl).
  unfold write_and_rename.
  eapply (spec_bind _ _ _ (fun _ f => f0 !! t = None /\ f = <[t := []]> f0)).
  { apply spec_os_call.
    - intros f ->. destruct (f0 !! t) eqn:Ht; [|done]. split; [|done]. destruct (is_calm calm); [|done].
      pose proof (Hfree eq_refl sequence) as Hno. unfold t in Ht. rewrite (Hpid eq_refl) in Ht. congruence.
    - intros Hc f n ->. split; (split; [done|exact Hsame]). }
  intros []. apply spec_fact. intros Ht.
  eapply (spec_bind _ _ _ (fun _ f => f = <[t := record_bytes s]> f0)).
  { eapply (spec_write_all _ _ _ _ [] _ (fun f => f = <[t := record_bytes s]> f0)).
    - done.
    - intros f ->. by rewrite lookup_insert_eq.
    - intros _ f ->. by rewrite insert_insert_eq.
    - intros _. exact Hmax.
    - intros Hc f k x -> _. rewrite insert_insert_eq. split; [done|apply Htmp]. }
  intros [].
  eapply (spec_bind _ _ _ (fun _ f => f = <[t := record_bytes s]> f0)).
  { apply spec_os_call; [by intros f ->|]. intros Hc f n ->. rewrite lookup_insert_eq, insert_insert_eq.
    split; (split; [done|apply Htmp]). }
  intros [].
  eapply (spec_bind _ _ _ (fun _ f => f = <[p := record_bytes s]> f0)).
  { apply spec_os_call.
    - intros f ->. by rewrite lookup_insert_eq, delete_insert_eq, (delete_id f0 t Ht).
    - intros Hc f n ->. split; (split; [done|apply Htmp]). }
  intros [].
  eapply spec_bind.
  { apply (spec_weaken _ (fun f => f = <[p := record_bytes s]> f0)).
    - apply spec_read_state; [exact Hs|]. intros f ->. by rewrite lookup_insert_eq.
    - intros f ->. right. apply agrees_refl. }
  intros x. apply spec_fact. intros ->.
  eapply (spec_bind _ _ _ (fun bytes f => bytes = record_bytes s /\ f = <[p := record_bytes s]> f0)).
  { apply spec_of_result. by rewrite (encode_recordable tree sparse reference r s Hs). }
  intros bytes. apply spec_fact. intros ->. rewrite bool_decide_true by done. cbn [negb].
  apply spec_ret. intros f ->. split; [done|]. rewrite lookup_insert_ne; [done|]. apply Hname.
Qed.

(** A publication replaces the file or leaves it, and cleans up. *)
Lemma spec_publish :
  spec calm (fun f => f = f0) (publish_state tree sparse K p s) (fun _ f => f = <[p := record_bytes s]> f0)
    (failing calm publishing).
Proof.
  unfold publish_state.
  eapply (spec_bind _ _ _ (fun bytes f => bytes = record_bytes s /\ f = f0)).
  { apply spec_of_result. by rewrite (encode_recordable tree sparse reference r s Hs). }
  intros bytes. apply spec_fact. intros ->.
  eapply (spec_bind _ _ _ (fun t f => (exists process sequence, (is_calm calm = true -> process = md_process calm) /\ t = temporary_name K p process sequence) /\ f = f0)).
  { intros d Hc Hd. cbn. split; [exact Hc|]. split; [|done]. eexists _, _. split; [|done]. intros Hcalm. apply (Hc Hcalm). }
  intros t. apply spec_fact. intros (process & sequence & Hpid & ->).
  eapply spec_bind.
  { eapply spec_attempt; [by apply spec_write_and_rename|by intros f Hf|by intros f Hf]. }
  intros result. eapply spec_bind; [eapply spec_conseq; [apply spec_path_exists|intros f Hf; exact Hf|intros a f Ha; exact Ha|]|].
  { intros e f [Hc Hf]. split; [done|]. destruct result as [[]|]; [destruct Hf as [-> _]; right; apply agrees_refl|apply Hf]. }
  intros present. destruct result as [[]|e].
  - eapply (spec_bind _ _ _ (fun _ f => f = <[p := record_bytes s]> f0)); [|intros []; by apply spec_ret].
    destruct present; [|apply spec_ret; by intros f [[Hf _] _]].
    intros d Hc ([Hf Hn] & Hp & _). rewrite Hn in Hp. by destruct (Hp eq_refl).
  - eapply (spec_bind _ _ _ (fun _ f => is_calm calm = false /\ publishing f)).
    2: { intros []. by apply spec_of_error. }
    destruct present; [|apply spec_ret; by intros f [Hf _]]. apply spec_os_call.
    + intros f ([Hc Hf] & _). destruct (f !! _); split; try done. by apply publishing_delete.
    + intros Hc f n ([_ Hf] & _). split; by split.
Qed.

End Publish.

(** ** What the files hold *)

Section Store.
Context (path : FileName).

(** The files hold [s]: in the cache while the journal has no entry, else in the
    last entry of the journal, over a base. *)
Record held (f : Files) (base : Ledger) (values : list B) (tail : option IncompleteTail) (torn : list byte) (s : Ledger)
    : Prop := mk_held {
  hd_history : history base values;
  hd_contents : contents_of values tail torn (default [] (f !! journal_path path));
  hd_latest : latest base values = s;
  hd_base : recordable base;
  hd_state : recordable s;
  hd_files : match values with
    | [] => f !! path = Some (record_bytes s) /\
        (f !! base_path path = Some (record_bytes s) \/ f !! base_path path = None /\ tail = None)
    | _ => f !! base_path path = Some (record_bytes base)
    end
}.

Definition durable (f : Files) (s : Ledger) : Prop := exists base values tail torn, held f base values tail torn s.

(** No temporary file is left over. *)
Definition tidy (process : Z) (f : Files) : Prop :=
  forall sequence, f !! temporary_name K path process sequence = None /\
    f !! temporary_name K (base_path path) process sequence = None.

Lemma tidy_insert process f n x :
  (forall p process sequence, n <> temporary_name K p process sequence) -> tidy process f -> tidy process (<[n := x]> f).
Proof. intros Hn Hf sequence. rewrite !lookup_insert_ne by apply Hn. apply Hf. Qed.

Lemma held_proper f f' base values tail torn s :
  default [] (f' !! journal_path path) = default [] (f !! journal_path path) ->
  f' !! base_path path = f !! base_path path ->
  f' !! path = f !! path \/ f' !! path = Some (record_bytes s) \/ values <> [] ->
  held f base values tail torn s -> held f' base values tail torn s.
Proof.
  intros Hj Hb Hp [H1 H2 H3 H4 H5 H6]. split; [done|by rewrite Hj|done..|].
  destruct values as [|b values]; rewrite Hb; [|done]. destruct H6 as [Hc H6]. split; [|done].
  destruct Hp as [->|[Hp|Hp]]; done.
Qed.

(** The cache is published again, or not. *)
Lemma held_publishing f0 f base values tail torn s :
  held f0 base values tail torn s -> publishing path s f0 f -> held f base values tail torn s.
Proof.
  intros Hh [Hf|Hf]; (eapply held_proper; [..|exact Hh]).
  - rewrite Hf; [done|]. auto with names.
  - apply Hf. auto with names.
  - left. apply Hf. auto with names.
  - rewrite Hf by auto with names. by rewrite lookup_insert_ne by auto with names.
  - rewrite Hf by auto with names. by rewrite lookup_insert_ne by auto with names.
  - right. left. rewrite Hf by auto with names. by rewrite lookup_insert_eq.
Qed.

(** The base of an empty journal is published, or not. *)
Lemma held_base_publishing f0 f tail torn s :
  held f0 s [] tail torn s -> publishing (base_path path) s f0 f -> held f s [] tail torn s.
Proof.
  intros [H1 H2 H3 H4 H5 [Hc Hb]] [Hf|Hf]; (split; [done| |done..|]); rewrite ?Hf by auto with names.
  - done.
  - done.
  - by rewrite lookup_insert_ne by auto with names.
  - rewrite lookup_insert_ne, lookup_insert_eq by auto with names. split; [done|by left].
Qed.

Lemma held_lock f base values tail torn s :
  held f base values tail torn s -> f !! lock_path path = None -> held (<[lock_path path := []]> f) base values tail torn s.
Proof.
  intros Hh Hl. eapply held_proper; [..|exact Hh].
  - by rewrite lookup_insert_ne by auto with names.
  - by rewrite lookup_insert_ne by auto with names.
  - destruct (decide (lock_path path = path)) as [He|Hn]; [|left; by rewrite lookup_insert_ne].
    right. right. intros ->. pose proof (hd_files _ _ _ _ _ _ Hh) as [Hc _]. rewrite He in Hl. congruence.
Qed.

Lemma held_empty f base tail torn s : held f base [] tail torn s -> base = s.
Proof. intros Hh. exact (hd_latest _ _ _ _ _ _ Hh). Qed.

(** ** Opening *)

Section Open.
Context (calm : Mode) (base : Ledger) (values : list B) (tail : option IncompleteTail) (torn : list byte) (s : Ledger).

(** The files while the journal is open. *)
Definition opened (tail : option IncompleteTail) (torn : list byte) (f : Files) : Prop :=
  held f base values tail torn s /\ is_Some (f !! journal_path path) /\ (is_calm calm = true -> tidy (md_process calm) f).

Lemma opened_durable tail' torn' f : opened tail' torn' f -> durable f s.
Proof. intros [Hh _]. by eexists _, _, _, _. Qed.

Lemma opened_journal tail' torn' f : opened tail' torn' f -> f !! journal_path path = Some (log values ++ torn').
Proof.
  intros (Hh & [c Hc] & _). pose proof (co_eq _ _ _ _ _ _ (hd_contents _ _ _ _ _ _ Hh)) as He.
  rewrite Hc in *. by f_equal.
Qed.

Lemma opened_contents tail' torn' f : opened tail' torn' f -> contents_of values tail' torn' (log values ++ torn').
Proof.
  intros Ho. pose proof (opened_journal _ _ _ Ho) as Hj. destruct Ho as [Hh _].
  pose proof (hd_contents _ _ _ _ _ _ Hh) as Hc. by rewrite Hj in Hc.
Qed.

(** A fact of the files that hold the state, during an operation on them. *)
Lemma spec_opened {A : Type} (tail' : option IncompleteTail) (torn' : list byte) (m : IO StoreError A) (Q : A -> Files -> Prop) (R : Fault StoreError -> Files -> Prop) :
  (history base values -> contents_of values tail' torn' (log values ++ torn') -> recordable base -> recordable s ->
   latest base values = s -> spec calm (opened tail' torn') m Q R) ->
  spec calm (opened tail' torn') m Q R.
Proof.
  intros Hm d Hc Ho. pose proof (opened_contents _ _ _ Ho) as Hcs. pose proof Ho as [[H1 _ H3 H4 H5 _] _].
  by apply Hm.
Qed.

Lemma spec_store_scan (tail' : option IncompleteTail) (torn' : list byte) :
  spec calm (opened tail' torn') (with_journal (E := E) (scan_recoverable_tail J (journal_path path)))
    (fun x f => x = (placed values, tail') /\ opened tail' torn' f) (failing calm (fun f => durable f s)).
Proof.
  apply spec_opened. intros Hh Hc _ _ _. apply spec_map_error.
  apply (spec_weaken _ (opened tail' torn')); [|apply opened_durable].
  eapply (spec_scan J EK recordable step); [apply opened_journal|exact Hh|exact Hc].
Qed.

(** The tail is removed, if there is one. *)
Lemma spec_repair_tail :
  spec calm (opened tail torn) (repair_tail (E := E) K (journal_path path) tail) (fun _ => opened None [])
    (failing calm (fun f => durable f s)).
Proof.
  apply spec_opened. intros Hh Hc Hb Hs Hl. destruct tail as [t|] eqn:Ht; cbn [repair_tail].
  - apply spec_map_error. eapply (spec_truncate J EK recordable step _ _ _ _ (opened_journal _ _) base values _ _ Hh Hc t);
      [done| |apply opened_durable|apply opened_durable].
    intros f (Hf & Hj & Htidy). split_and!.
    + destruct Hf as [H1 H2 H3 H4 H5 H6]. split; [done| |done..|].
      * rewrite lookup_insert_eq. cbn. split; [by rewrite app_nil_r| |done].
        pose proof (co_length _ _ _ _ _ _ Hc) as Hlen. rewrite length_app in Hlen. lia.
      * destruct values; rewrite ?lookup_insert_ne by auto with names; [|done].
        destruct H6 as [Hcache [Hbase|[_ Hno]]]; [|done]. split; [done|by left].
    + rewrite lookup_insert_eq. by eexists.
    + intros Hcalm. apply tidy_insert; [auto with names|by apply Htidy].
  - apply spec_ret. intros f Hf. pose proof (co_tail _ _ _ _ _ _ Hc) as Htorn. cbn in Htorn. by subst torn.
Qed.

Abbreviation I := (fun f : Files => durable f s).

Lemma opened_base f : opened tail torn f -> values <> [] -> f !! base_path path = Some (record_bytes base).
Proof. intros [Hh _] Hv. pose proof (hd_files _ _ _ _ _ _ Hh) as Hf. by destruct values. Qed.

Lemma last_entry : values <> [] -> exists e, last (placed values) = Some e /\ jk_state J e = latest base values.
Proof.
  intros Hv. pose proof (latest_placed J EK recordable step base values) as Hl.
  destruct (last (placed values)) as [e|] eqn:He; [by exists e|].
  destruct (last_placed J EK values) as [o Ho]. rewrite He in Ho.
  destruct values as [|b vs _] using rev_ind; [done|]. by rewrite last_snoc in Ho.
Qed.

Lemma spec_recover_from_journal :
  values <> [] ->
  spec calm (opened tail torn) (recover_from_journal tree sparse K (journal_path path) (base_path path))
    (fun x f => x = s /\ opened None [] f) (failing calm I).
Proof.
  intros Hv. apply spec_opened. intros Hh Hc Hb Hs Hl. unfold recover_from_journal.
  eapply spec_bind.
  { apply (spec_weaken _ (opened tail torn)); [|apply opened_durable].
    apply spec_read_base; [exact Hb|]. intros f Hf. by apply opened_base. }
  intros x. apply spec_fact. intros ->. eapply spec_bind.
  { apply spec_map_error. apply (spec_weaken _ (opened tail torn)); [|apply opened_durable].
    eapply (spec_recover_from J EK recordable step); [apply opened_journal|exact Hh|exact Hc]. }
  intros x. apply spec_fact. intros ->. cbn [fst snd]. destruct (last_entry Hv) as (e & He & Hes).
  eapply (spec_bind _ _ _ (fun x f => x = e /\ opened tail torn f)); [apply spec_of_result; by rewrite He|].
  intros x. apply spec_fact. intros ->. eapply spec_bind; [apply spec_repair_tail|]. intros [].
  apply spec_ret. intros f Hf. split; [by rewrite Hes|done].
Qed.

Lemma spec_recover_from_cache :
  values = [] ->
  spec calm (opened tail torn) (recover_from_cache tree sparse K (journal_path path) (base_path path) tail s)
    (fun x f => x = s /\ opened None [] f) (failing calm I).
Proof.
  intros Hv. apply spec_opened. intros Hh Hc Hb Hs Hl. unfold recover_from_cache.
  assert (Hbase : forall f, opened tail torn f -> is_Some (f !! base_path path) -> f !! base_path path = Some (record_bytes s)).
  { intros f [Hf _] [c Hsome]. pose proof (hd_files _ _ _ _ _ _ Hf) as Hfiles. rewrite Hv in Hfiles.
    destruct Hfiles as [_ [?|[Hno _]]]; [done|congruence]. }
  eapply (spec_bind _ _ _ (fun missing f => (is_calm calm = true -> missing = false) /\ opened tail torn f)).
  { destruct tail as [t|] eqn:Ht; [|by apply spec_ret].
    eapply spec_bind; [apply (spec_weaken _ (opened (Some t) torn)); [apply spec_path_exists|apply opened_durable]|].
    intros present. apply spec_ret. intros f (Hf & _ & Hcalm). split; [|done]. intros Hc'. rewrite (Hcalm Hc').
    destruct Hf as [Hf _]. pose proof (hd_files _ _ _ _ _ _ Hf) as Hfiles. rewrite Hv in Hfiles.
    destruct Hfiles as [_ [Hsome|[_ Hno]]]; [|done]. by rewrite Hsome, bool_decide_true. }
  intros missing. apply spec_fact. intros Hmissing. destruct missing.
  { apply spec_of_error. intros f Hf. split; [|by apply opened_durable in Hf]. destruct (is_calm calm); [|done]. by specialize (Hmissing eq_refl). }
  eapply spec_bind; [apply (spec_weaken _ (opened tail torn)); [apply spec_path_exists|apply opened_durable]|].
  intros present. eapply (spec_bind _ _ _ (fun _ => opened tail torn)).
  { destruct present; [|apply spec_ret; by intros f [Hf _]].
    apply (spec_pre _ (fun f => opened tail torn f /\ f !! base_path path = Some (record_bytes s))).
    2: { intros f (Hf & Hsome & _). split; [done|]. by apply Hbase, Hsome. }
    eapply spec_bind.
    { apply (spec_weaken _ (fun f => opened tail torn f /\ f !! base_path path = Some (record_bytes s))).
      - apply spec_read_base; [exact Hs|]. by intros f [_ Hf].
      - intros f [Hf _]. by apply opened_durable in Hf. }
    intros x. apply spec_fact. intros ->. rewrite bool_decide_true by done. cbn [negb]. apply spec_ret. by intros f [Hf _]. }
  intros []. eapply spec_bind; [apply spec_repair_tail|]. intros []. by apply spec_ret.
Qed.

Lemma spec_recover_authoritative cache :
  (values = [] -> cache = Some s) ->
  spec calm (opened tail torn) (recover_authoritative_state tree sparse K (journal_path path) (base_path path) cache)
    (fun x f => x = s /\ opened None [] f) (failing calm I).
Proof.
  intros Hcache. unfold recover_authoritative_state. eapply spec_bind; [apply spec_store_scan|].
  intros x. apply spec_fact. intros ->. cbn [fst snd]. destruct (decide (values = [])) as [Hv|Hv].
  - assert (Hlast : last (placed values) = None) by by rewrite Hv. rewrite Hlast, (Hcache Hv).
    eapply (spec_bind _ _ _ (fun x f => x = s /\ opened tail torn f)); [by apply spec_of_result|].
    intros x. apply spec_fact. intros ->. by apply spec_recover_from_cache.
  - destruct (last_entry Hv) as (e & -> & _). by apply spec_recover_from_journal.
Qed.

Lemma spec_read_cache :
  spec calm (opened tail torn) (read_cache tree sparse K path (bool_decide (is_Some (last (placed values)))))
    (fun x f => (values = [] -> x = Some s) /\ opened tail torn f) (failing calm I).
Proof.
  apply spec_opened. intros Hh Hc Hb Hs Hl. destruct (decide (values = [])) as [Hv|Hv].
  - assert (Hlast : last (placed values) = None) by by rewrite Hv. rewrite Hlast.
    rewrite bool_decide_false by by intros [].
    unfold read_cache. eapply spec_bind.
    { apply (spec_weaken _ (opened tail torn)); [|apply opened_durable]. apply spec_read_state; [exact Hs|].
      intros f [Hf _]. pose proof (hd_files _ _ _ _ _ _ Hf) as Hfiles. rewrite Hv in Hfiles. apply Hfiles. }
    intros x. apply spec_fact. intros ->. by apply spec_ret.
  - destruct (last_entry Hv) as (e & -> & _). rewrite bool_decide_true by done. unfold read_cache.
    eapply (spec_bind _ _ _ (fun _ => opened tail torn)).
    2: { intros x. apply spec_ret. intros f Hf. split; [|done]. intros ?. by destruct Hv. }
    eapply spec_conseq; [eapply (spec_attempt _ _ _ _ _ (failing calm I)); [apply (spec_read_any _ (opened tail torn))|..]| | |].
    + intros f [Hf Hn]. split; [|by apply opened_durable in Hf]. destruct (is_calm calm); [|done]. by destruct (Hn eq_refl).
    + intros f [Hf Hn]. split; [|by apply opened_durable in Hf]. destruct (is_calm calm); [|done]. by destruct (Hn eq_refl).
    + done.
    + intros [x|x] f Hf; [exact Hf|apply Hf].
    + done.
Qed.

Definition closed (f : Files) : Prop := held f base values tail torn s /\ (is_calm calm = true -> tidy (md_process calm) f).

Lemma closed_durable f : closed f -> durable f s.
Proof. intros [Hh _]. by eexists _, _, _, _. Qed.

Lemma spec_acquire_lock : spec calm closed (acquire_lock (E := E) K path) (fun _ => closed) (failing calm I).
Proof.
  unfold acquire_lock, ensure_parent.
  eapply spec_bind; [apply (spec_weaken _ closed); [apply spec_plain_call|apply closed_durable]|]. intros [].
  eapply (spec_bind _ _ _ (fun _ => closed)).
  { apply spec_os_call.
    - intros f [Hh Ht]. destruct (f !! lock_path path) eqn:Hl; [done|]. split; [by apply held_lock|].
      intros Hc. apply tidy_insert; [auto with names|by apply Ht].
    - intros Hc f n Hf. split; (split; [done|by apply closed_durable in Hf]). }
  intros []. apply (spec_weaken _ closed); [apply spec_plain_call|apply closed_durable].
Qed.

Lemma spec_journal_open :
  spec calm closed (with_journal (E := E) (journal_open J (journal_path path))) (fun _ => opened tail torn) (failing calm I).
Proof.
  apply spec_map_error, spec_os_call.
  - intros f [Hh Ht]. destruct (f !! journal_path path) as [c|] eqn:Hj; [by split_and!|]. split_and!.
    + eapply held_proper; [..|exact Hh].
      * rewrite lookup_insert_eq, Hj. done.
      * by rewrite lookup_insert_ne by auto with names.
      * left. by rewrite lookup_insert_ne by auto with names.
    + rewrite lookup_insert_eq. by eexists.
    + intros Hc. apply tidy_insert; [auto with names|by apply Ht].
  - intros Hc f n Hf. split; (split; [done|by apply closed_durable in Hf]).
Qed.

(** Publishing the cache of the state that is held. *)
Lemma spec_publish_cache :
  spec calm (opened None []) (publish_state tree sparse K path s) (fun _ => opened None []) (failing calm I).
Proof.
  apply spec_at. intros f0 (Hh & [c Hj] & Ht). pose proof (hd_state _ _ _ _ _ _ Hh) as Hs.
  eapply spec_conseq; [apply (spec_publish calm path s Hs f0)|done| |].
  - intros Hc sequence. apply (Ht Hc).
  - auto with names.
  - intros [] f ->. split_and!.
    + apply (held_publishing f0); [done|]. right. apply agrees_refl.
    + rewrite lookup_insert_ne by auto with names. by eexists.
    + intros Hc sequence. rewrite !lookup_insert_ne by auto with names. apply (Ht Hc).
  - intros e f [Hc Hf]. split; [done|]. eexists _, _, _, _. by apply (held_publishing f0).
Qed.

(** A store whose files hold [s] opens with [s]. *)
Lemma spec_store_open :
  (is_calm calm = true -> path <> []) ->
  spec calm closed (store_open tree sparse K path)
    (fun store f => store = mk_PrivateStore path (base_path path) (journal_path path) s /\ opened None [] f) (failing calm I).
Proof.
  intros Hpath. unfold store_open.
  eapply (spec_bind _ _ _ (fun p f => p = path /\ closed f)).
  { destruct path as [|b p]; cbn [checked_path]; [|by apply spec_ret].
    apply spec_of_error. intros f Hf. split; [|by apply closed_durable in Hf]. destruct (is_calm calm); [by specialize (Hpath eq_refl)|done]. }
  intros p. apply spec_fact. intros ->.
  eapply spec_bind; [apply spec_acquire_lock|]. intros [].
  eapply spec_bind; [apply spec_journal_open|]. intros [].
  eapply spec_bind; [apply spec_store_scan|]. intros scan. apply spec_fact. intros ->. cbn [fst].
  eapply spec_bind; [apply spec_read_cache|]. intros cache. apply spec_fact. intros Hcache.
  eapply spec_bind; [by apply spec_recover_authoritative|]. intros x. apply spec_fact. intros ->.
  eapply (spec_bind _ _ _ (fun _ => opened None [])).
  { destruct (negb _); [apply spec_publish_cache|by apply spec_ret]. }
  intros []. by apply spec_ret.
Qed.

End Open.

(** ** Transfers *)

Definition opened_store (s : Ledger) : PrivateStore := mk_PrivateStore path (base_path path) (journal_path path) s.

Section Prepare.
Context (calm : Mode) (base : Ledger) (values : list B) (s : Ledger).

Abbreviation I := (fun f : Files => durable f s).
Abbreviation open_files := (opened calm base values s None []).

(** The base is in place. *)
Definition prepared (f : Files) : Prop := open_files f /\ f !! base_path path = Some (record_bytes base).

Lemma prepared_durable f : prepared f -> durable f s.
Proof. intros [Ho _]. by eapply opened_durable. Qed.

Lemma spec_validate_base :
  values = [] ->
  spec calm open_files (write_or_validate_journal_base tree sparse K (base_path path) s) (fun _ => prepared) (failing calm I).
Proof.
  intros Hv. apply spec_opened. intros Hh Hc Hb Hs Hl.
  assert (Hbase : base = s) by (rewrite <-Hl, Hv; done).
  unfold write_or_validate_journal_base.
  eapply spec_bind; [apply (spec_weaken _ open_files); [apply spec_path_exists|apply opened_durable]|].
  intros [|].
  - apply (spec_pre _ prepared).
    2: { intros f (Ho & Hsome & _). split; [done|]. destruct (Hsome eq_refl) as [c Hf]. destruct Ho as [Hf' _].
         pose proof (hd_files _ _ _ _ _ _ Hf') as Hfiles. rewrite Hv in Hfiles. rewrite Hbase.
         destruct Hfiles as [_ [?|[Hno _]]]; [done|congruence]. }
    eapply spec_bind.
    { apply (spec_weaken _ prepared); [|apply prepared_durable]. apply spec_read_state; [exact Hs|].
      intros f [_ Hf]. by rewrite <-Hbase. }
    intros x. apply spec_fact. intros ->. rewrite bool_decide_true by done. by apply spec_ret.
  - apply spec_at. intros f0 (Ho & _). destruct Ho as (Hh0 & [c Hj] & Ht).
    assert (Hheld : held f0 s [] None [] s) by (rewrite Hv, Hbase in Hh0; exact Hh0).
    eapply spec_conseq; [apply (spec_publish calm (base_path path) s Hs f0)|done| |].
    + intros Hcalm sequence. apply (Ht Hcalm).
    + auto with names.
    + intros [] f ->. split; [|by rewrite lookup_insert_eq, Hbase]. split_and!.
      * rewrite Hv, Hbase. apply (held_base_publishing f0); [done|]. right. apply agrees_refl.
      * rewrite lookup_insert_ne by auto with names. by eexists.
      * intros Hcalm. apply tidy_insert; [auto with names|by apply Ht].
    + intros e f [Hcalm Hf]. split; [done|]. eexists _, _, _, _. by apply (held_base_publishing f0).
Qed.

Lemma spec_prepare :
  spec calm open_files (prepare_journal_base tree sparse K (opened_store s)) (fun _ => prepared) (failing calm I).
Proof.
  unfold prepare_journal_base. eapply spec_bind; [apply spec_store_scan|].
  intros x. apply spec_fact. intros ->. cbn [fst snd]. destruct (decide (values = [])) as [Hv|Hv].
  { assert (Hlast : last (placed values) = None) by by rewrite Hv. rewrite Hlast. by apply spec_validate_base. }
  apply spec_opened. intros Hh Hc Hb Hs Hl.
  destruct (last_entry base values Hv) as (e & He & Hes). rewrite He.
  apply (spec_pre _ prepared); [|intros f Hf; split; [done|by eapply opened_base]].
  eapply spec_bind.
  { apply (spec_weaken _ prepared); [|apply prepared_durable]. apply spec_read_base; [exact Hb|]. by intros f [_ Hf]. }
  intros x. apply spec_fact. intros ->. eapply spec_bind.
  { apply spec_map_error. apply (spec_weaken _ prepared); [|apply prepared_durable].
    eapply (spec_recover_from J EK recordable step); [|exact Hh|exact Hc]. intros f [Hf _]. by eapply opened_journal. }
  intros x. apply spec_fact. intros ->. cbn [fst snd].
  eapply (spec_bind _ _ _ (fun x f => x = e /\ prepared f)); [apply spec_of_result; by rewrite He|].
  intros x. apply spec_fact. intros ->. rewrite bool_decide_true by (cbn; by rewrite Hes, Hl). by apply spec_ret.
Qed.

End Prepare.

Section Apply.
Context (calm : Mode) (base : Ledger) (values : list B) (s s' : Ledger).

Abbreviation extends := (extends J EK base values s').
Abbreviation I := (fun f : Files => durable f s \/ durable f s').

Lemma extends_recordable b : extends b -> recordable s'.
Proof.
  intros [Hh <-]. pose proof (hy_storable _ _ _ _ Hh) as Hs. apply Forall_app in Hs as [_ Hs].
  apply Forall_singleton in Hs as [Hok _]. exact (jl_record b Hok).
Qed.

(** The new entry is in the journal. *)
Lemma held_appended b f :
  prepared calm base values s f -> extends b -> len (log (values ++ [b])) <= MAX_FILE_LENGTH ->
  opened calm base (values ++ [b]) s' None [] (<[journal_path path := log (values ++ [b])]> f).
Proof.
  intros [(Hh & _ & Ht) Hb] Hex Hlen. pose proof (extends_recordable b Hex) as Hr. destruct Hex as [Hhist Hs].
  split_and!.
  - split; [exact Hhist| | |exact (hd_base _ _ _ _ _ _ Hh)|exact Hr|].
    + rewrite lookup_insert_eq. split; [by rewrite app_nil_r|exact Hlen|done].
    + by rewrite latest_snoc.
    + destruct (values ++ [b]) eqn:He; [by destruct values|]. by rewrite lookup_insert_ne by auto with names.
  - rewrite lookup_insert_eq. by eexists.
  - intros Hc. apply tidy_insert; [auto with names|by apply Ht].
Qed.

(** A part of the new entry is a tail, or nothing, or the entry. *)
Lemma held_torn b k f :
  prepared calm base values s f -> extends b -> len (log values ++ take k (entry_frame (jk_format J) EK b)) <= MAX_FILE_LENGTH ->
  I (<[journal_path path := log values ++ take k (entry_frame (jk_format J) EK b)]> f).
Proof.
  intros Hp Hex Hlen. set (frame := entry_frame (jk_format J) EK b) in *.
  assert (Hold : forall tail torn, tail_of (jk_format J) EK values tail torn -> len (log values ++ torn) <= MAX_FILE_LENGTH ->
    durable (<[journal_path path := log values ++ torn]> f) s).
  { intros tail torn Htail Hl. destruct Hp as [(Hh & _ & _) Hb]. exists base, values, tail, torn.
    destruct Hh as [H1 H2 H3 H4 H5 H6]. split; [done| |done..|].
    - by rewrite lookup_insert_eq.
    - rewrite !lookup_insert_ne by auto with names. destruct values; [|done]. destruct H6 as [Hc _]. split; [done|].
      left. rewrite Hb. cbn in H3. by rewrite H3. }
  destruct (decide (length frame <= k)%nat) as [Hge|Hlt].
  - right. rewrite take_ge in * by done. unfold frame in *. rewrite <-log_bytes_snoc in *.
    eexists _, _, _, _. exact (proj1 (held_appended b f Hp Hex Hlen)).
  - left. destruct (decide (k = 0%nat)) as [->|Hk]; [by apply (Hold None)|].
    pose proof (hy_storable _ _ _ _ (ex_history _ _ _ _ _ _ Hex)) as Hs. apply Forall_app in Hs as [_ Hs].
    apply Forall_singleton in Hs as [_ Hmax].
    destruct (read_frame_torn (jk_format J) EK (len (log values)) (ek_payload EK b) k Hmax) as [section Hread].
    { unfold frame, entry_frame in Hlt. lia. }
    apply (Hold (Some (mk_IncompleteTail (len (log values)) section))); [|exact Hlen]. split_and!; [|done|exact Hread].
    intros Hnil. apply (f_equal length) in Hnil. rewrite length_take in Hnil. cbn in Hnil. lia.
Qed.

Lemma extends_room b :
  extends b -> len (log values) + 14 + ff_maximum (jk_format J) <= MAX_FILE_LENGTH -> len (log (values ++ [b])) <= MAX_FILE_LENGTH.
Proof.
  intros [Hh _] Hroom. pose proof (hy_storable _ _ _ _ Hh) as Hs. apply Forall_app in Hs as [_ Hs].
  apply Forall_singleton in Hs as [_ Hmax]. rewrite log_bytes_snoc, length_app.
  unfold entry_frame. pose proof (length_frame_bytes (jk_format J) EK (ek_payload EK b)). lia.
Qed.

End Apply.

Section Transfer.
Context {A : Type} `{!CandidatePrivateTransferAuthorizer A}.
Context (append : FileName -> Ledger -> Ledger -> CandidatePrivateTransferAdmissionReceiptV1 -> IO JE Z).
Context (may : Ledger -> CandidatePrivateTransferAdmissionReceiptV1 -> Prop)
  (ready : Ledger -> Ledger -> CandidatePrivateTransferAdmissionReceiptV1 -> Prop).
Context (Happend : append_spec J EK may ready append).
Context (calm : Mode) (base : Ledger) (values : list B) (s : Ledger) (request : CandidatePrivateTransferRequestV1 A).

(** A transfer that is not admitted changes nothing. *)
Lemma spec_refused e l :
  apply_transfer tree sparse request s = (Err e, l) ->
  forall P : Files -> Prop,
  spec calm P (store_apply tree sparse K append request (opened_store s)) (fun _ _ => False)
    (fun x f => x = from_option (fun e => Error (StErr.Ledger e)) Panic e /\ P f).
Proof.
  intros He P. unfold store_apply. cbn [st_state opened_store]. rewrite He.
  eapply (spec_bind _ _ _ (fun _ _ => False)); [|by intros x d _ []].
  apply spec_of_result. by destruct e.
Qed.

(** An admitted one gets to its successor, or stops before or after that. *)
Lemma spec_store_apply receipt s' :
  apply_transfer tree sparse request s = (Ok receipt, s') -> may s' receipt ->
  (is_calm calm = true ->
     ready s s' receipt /\ len (log values) + 14 + ff_maximum (jk_format J) <= MAX_FILE_LENGTH) ->
  spec calm (opened calm base values s None []) (store_apply tree sparse K append request (opened_store s))
    (fun x f => x = (receipt, opened_store s') /\ exists b, opened calm base (values ++ [b]) s' None [] f)
    (failing calm (fun f => durable f s \/ durable f s')).
Proof.
  intros Ha Hmay Hready. unfold store_apply. cbn [st_state opened_store]. rewrite Ha.
  apply spec_opened. intros Hh Hc Hb Hs Hl.
  eapply (spec_bind _ _ _ (fun x f => x = receipt /\ opened calm base values s None [] f)); [by apply spec_of_result|].
  intros x. apply spec_fact. intros ->.
  eapply spec_bind; [apply (spec_weaken _ (fun f => durable f s)); [apply spec_prepare|by left]|]. intros [].
  eapply (spec_bind _ _ _ (fun _ f => exists b, opened calm base (values ++ [b]) s' None [] f)).
  { apply spec_map_error. cbn [st_journal opened_store].
    pose proof (fun Q I => Happend calm (journal_path path) (prepared calm base values s) Q I base values s' receipt) as Hap.
    rewrite Hl in Hap. apply Hap; clear Hap.
    - exact Hh.
    - pose proof (co_length _ _ _ _ _ _ Hc) as Hlen. by rewrite app_nil_r in Hlen.
    - intros f [Ho _]. rewrite (opened_journal _ _ _ _ _ _ _ Ho). by rewrite app_nil_r.
    - intros f Hp. left. by eapply prepared_durable.
    - exact Hmay.
    - intros Hcalm. by apply Hready.
    - intros Hcalm b Hex. eapply extends_room; [exact Hex|]. by apply Hready.
    - intros f b Hp Hex Hlen. exists b. by apply (held_appended calm base values s s').
    - intros f b k Hp Hex Hlen. by apply (held_torn calm base values s s'). }
  intros n. apply spec_exists. intros b.
  eapply spec_bind; [apply (spec_weaken _ (fun f => durable f s')); [apply spec_publish_cache|by right]|]. intros [].
  apply spec_ret. intros f Hf. split; [done|]. by exists b.
Qed.

End Transfer.

(** ** Creating *)

Section Create.
Context (calm : Mode) (s : Ledger) (Hs : recordable s).

(** No file of a store is there. *)
Definition vacant (f : Files) : Prop :=
  f !! path = None /\ f !! base_path path = None /\ f !! journal_path path = None.

Abbreviation I := (fun f : Files => vacant f \/ durable f s).
Abbreviation P := (fun f : Files => vacant f /\ (is_calm calm = true -> tidy (md_process calm) f)).

Lemma vacant_I f : P f -> I f.
Proof. intros [Hf _]. by left. Qed.

Lemma vacant_published f0 f :
  vacant f0 -> f !! path = Some (record_bytes s) -> f !! base_path path = f0 !! base_path path ->
  f !! journal_path path = f0 !! journal_path path -> held f s [] None [] s.
Proof.
  intros (_ & H2 & H3) Hp Hb Hj. rewrite H2 in Hb. rewrite H3 in Hj.
  assert (Hh : history s []) by (split; [by apply Forall_nil_2|done|apply jl_recover_nil]).
  split; [exact Hh| |done..|].
  - rewrite Hj. by split.
  - split; [done|]. by right.
Qed.

Lemma spec_first_publish :
  spec calm P (publish_state tree sparse K path s) (fun _ => closed calm s [] None [] s) (failing calm I).
Proof.
  apply spec_at. intros f0 [Hv Ht].
  eapply spec_conseq; [apply (spec_publish calm path s Hs f0)|done| |].
  - intros Hc sequence. apply (Ht Hc).
  - auto with names.
  - intros [] f ->. split.
    + apply (vacant_published f0 _ Hv); rewrite ?lookup_insert_eq, ?lookup_insert_ne by auto with names; done.
    + intros Hc sequence. rewrite !lookup_insert_ne by auto with names. apply (Ht Hc).
  - intros e f [Hc [Hf|Hf]]; (split; [done|]).
    + left. unfold vacant. by rewrite !Hf by auto with names.
    + right. exists s, [], None, []. apply (vacant_published f0 _ Hv);
        rewrite !Hf by auto with names; rewrite ?lookup_insert_eq, ?lookup_insert_ne by auto with names; done.
Qed.

(** What is absent is seen as absent. *)
Lemma spec_absent p :
  (forall f, P f -> f !! p = None) ->
  spec calm P (path_exists (E := StoreError) p) (fun b f => b = false /\ P f) (failing calm I).
Proof.
  intros Hp. eapply spec_conseq; [apply (spec_weaken _ P); [apply spec_path_exists|apply vacant_I]|done| |done].
  intros b f (Hf & Hb & _). split; [|done]. destruct b; [|done]. destruct (Hb eq_refl) as [c Hc].
  rewrite (Hp f Hf) in Hc. done.
Qed.

Lemma spec_first_lock :
  lock_path path <> path ->
  spec calm P (acquire_lock (E := E) K path) (fun _ => P) (failing calm I).
Proof.
  intros Hlock. unfold acquire_lock, ensure_parent.
  eapply spec_bind; [apply (spec_weaken _ P); [apply spec_plain_call|apply vacant_I]|]. intros [].
  eapply (spec_bind _ _ _ (fun _ => P)).
  { apply spec_os_call.
    - intros f [(H1 & H2 & H3) Ht]. destruct (f !! lock_path path) eqn:Hl; [done|]. split.
      + unfold vacant. by rewrite !lookup_insert_ne by (done || auto with names).
      + intros Hc. apply tidy_insert; [auto with names|by apply Ht].
    - intros Hc f n Hf. split; (split; [done|by apply vacant_I]). }
  intros []. apply (spec_weaken _ P); [apply spec_plain_call|apply vacant_I].
Qed.

Lemma spec_store_initialize :
  lock_path path <> path -> (is_calm calm = true -> path <> []) ->
  spec calm P (store_initialize tree sparse K path s)
    (fun store f => store = opened_store s /\ opened calm s [] s None [] f) (failing calm I).
Proof.
  intros Hlock Hpath. unfold store_initialize.
  eapply (spec_bind _ _ _ (fun p f => p = path /\ P f)).
  { destruct path as [|b p]; cbn [checked_path]; [|by apply spec_ret].
    apply spec_of_error. intros f Hf. split; [|by apply vacant_I]. destruct (is_calm calm); [by specialize (Hpath eq_refl)|done]. }
  intros p. apply spec_fact. intros ->.
  eapply spec_bind; [apply (spec_weaken _ P); [apply spec_plain_call|apply vacant_I]|]. intros [].
  eapply spec_bind; [by apply spec_first_lock|]. intros [].
  eapply spec_bind; [apply spec_absent; by intros f [(? & _) _]|]. intros x. apply spec_fact. intros ->.
  eapply spec_bind; [apply spec_absent; by intros f [(_ & ? & _) _]|]. intros x. apply spec_fact. intros ->.
  eapply spec_bind; [apply spec_absent; by intros f [(_ & _ & ?) _]|]. intros x. apply spec_fact. intros ->.
  eapply spec_bind; [apply spec_first_publish|]. intros [].
  eapply spec_bind; [apply (spec_weaken _ (fun f => durable f s)); [apply spec_journal_open|by right]|]. intros [].
  by apply spec_ret.
Qed.

End Create.

End Store.

End Loaded.
