(* ===== verification/PrivateStoreRuns.v ===== *)
(** * Histories of the stores of a private ledger

    A store lives through sessions: a process opens it, submits transfers and
    ends, anywhere, by itself or by a failure.  What is stored is the result of
    admitted transfers, the acknowledged ones among them in their order, and the
    next open finds it.  Without failures every admitted transfer is acknowledged. *)

From Stdlib Require Import Strings.Byte Strings.String.
From stdpp Require Import gmap.
From S2P Require Import Prelude Arrays Reader Sha256 Types Ledger Privacy BabyBear Poseidon2 Poseidon2Facts TreeManifestFacts.
From S2P Require Import NullifierTree NullifierTreeFacts PrivateState PrivateLedger PrivateStateFacts PrivateTransitionFacts.
From S2P Require Import PrivateLedgerFacts PrivateRecord PrivateRecordFacts Crc32 Frames FramesFacts CheckpointStore.
From S2P Require Import Fips180 NoteTreeFacts ChildManifests ChildManifestFacts Disk DiskFacts PrivateJournal PrivateJournalFacts PrivateStore PrivateStoreFacts.

#[local] Opaque P24_TREE_DEPTH NULLIFIER_SPARSE_TREE_DEPTH_V1 record_bytes.

Abbreviation Ledger := CandidatePrivateLedgerStateV1.
Abbreviation Receipt := CandidatePrivateTransferAdmissionReceiptV1.

Lemma bool_filter_Permutation {A} (p : A -> bool) (l k : list A) : l ≡ₚ k -> List.filter p l ≡ₚ List.filter p k.
Proof.
  induction 1 as [|x l k _ IH|x y l|l k m _ IH1 _ IH2]; cbn; [done| | |by etransitivity].
  - destruct (p x); [by constructor|done].
  - destruct (p x), (p y); try done. constructor.
Qed.

Lemma bool_filter_none {A} (p : A -> bool) (l : list A) : Forall (fun x => p x = false) l -> List.filter p l = [].
Proof. induction 1 as [|x l Hx _ IH]; cbn; [done|]. by rewrite Hx. Qed.

(** ** Successors *)

Section Successors.
Context `{Sha2} (tree : P24Manifest) `{!P24ManifestLaws tree} {E : Type} (sparse : SparseManifest E).
Context `{!SparseManifestLaws sparse} (reference : Poseidon2P24Reference) (Hload : load_reference tree = Ok reference).
Context (r : NullifierSparseTreeReferenceV1) (Hsparse : load_sparse_reference tree sparse = Ok r).
Context {A : Type} `{!CandidatePrivateTransferAuthorizer A} (request : CandidatePrivateTransferRequestV1 A).
Context (s s' : Ledger) (receipt : Receipt).

Abbreviation recordable := (recordable tree sparse reference r).
Abbreviation spent l := (sn_spent_nullifiers (pl_snapshot l)).
Context (Hs : recordable s) (Hi : intent_wf (rq_intent request)).
Context (Ht : apply_transfer tree sparse request s = (Ok receipt, s')).

Lemma successor_transferred :
  accepted s request /\ ledger_wf tree sparse reference r s' /\ transferred s (rq_intent request) receipt s'.
Proof. exact (apply_transfer_Ok tree sparse reference Hload r Hsparse s request (rc_wf _ _ _ _ _ Hs) Hi _ _ Ht). Qed.

Lemma spent_NoDup l : ledger_wf tree sparse reference r l -> NoDup (spent l).
Proof. intros [Hsn _ _]. by apply strictly_sorted_NoDup, (snw_sorted _ _ _ Hsn). Qed.

(** The spent nullifiers are the earlier ones and the two of the intent. *)
Lemma successor_spent : spent s' ≡ₚ intent_nullifiers (rq_intent request) ++ spent s.
Proof.
  destruct successor_transferred as ([_ Had _] & Hwf' & Htf). apply NoDup_Permutation.
  - by apply spent_NoDup.
  - apply NoDup_app. split_and!; [by apply intent_nullifiers_NoDup| |apply spent_NoDup, Hs].
    intros n Hn Hin. apply (ad_fresh _ _ _ Had n Hn). by apply elem_of_list_to_set.
  - intros n. pose proof (tf_spent _ _ _ _ Htf) as Hsp. unfold ledger_spent, spent_set in Hsp.
    rewrite elem_of_app, <-(elem_of_list_to_set (C := gset NullifierV2) n (spent s')), Hsp.
    by rewrite elem_of_union, !elem_of_list_to_set.
Qed.

Lemma successor_count : len (spent s') = len (spent s) + 2.
Proof. rewrite successor_spent, length_app. cbn [intent_nullifiers length]. lia. Qed.

Lemma successor_notes : len (ledger_notes s') = len (ledger_notes s) + 2 /\ len (ledger_notes s') <= CANDIDATE_PRIVATE_STATE_MAX_NOTES.
Proof.
  destruct successor_transferred as (_ & [Hsn _ _] & Htf). split; [|apply (snw_bound _ _ _ Hsn)].
  rewrite (tf_notes _ _ _ _ Htf), length_app. cbn. lia.
Qed.

(** The successor of a recordable ledger is one, up to the limit on nullifiers. *)
Lemma successor_recordable : len (spent s) + 2 <= PRIVATE_STATE_RECORD_MAX_NULLIFIERS -> recordable s'.
Proof.
  intros Hlimit. destruct successor_transferred as (_ & Hwf' & Htf). destruct Hs as [_ Hns _ Hok Ha].
  split; [exact Hwf'| | | |].
  - rewrite successor_spent. apply Forall_app. split; [|exact Hns].
    apply Forall_cons. split; [apply Hi|]. apply Forall_singleton, Hi.
  - rewrite successor_count. exact Hlimit.
  - unfold assets_ok. by rewrite (tf_assets _ _ _ _ Htf).
  - by rewrite (tf_assets _ _ _ _ Htf).
Qed.

(** The encoder refuses what is over the limit. *)
Lemma successor_encodable : encodable tree sparse reference r s'.
Proof.
  intros bytes He. unfold encode_candidate_private_ledger_state in He.
  destruct (Z.ltb_spec PRIVATE_STATE_RECORD_MAX_NULLIFIERS (len (spent s'))) as [|Hle]; [done|].
  apply successor_recordable. rewrite <-successor_count. exact Hle.
Qed.

(** ** The facts of a submission *)

Definition intent_facts (metadata : EnvelopeId) : SubmissionFacts :=
  let i := rq_intent request in
  mk_SubmissionFacts metadata (pi_asset_id i) (pi_nullifier0 i, pi_nullifier1 i)
    (out_commitment (pi_output0 i), out_commitment (pi_output1 i)).

Lemma successor_facts metadata : @receipt_facts E metadata receipt = Ok (intent_facts metadata).
Proof. destruct successor_transferred as (_ & _ & Htf). by rewrite (tf_receipt _ _ _ _ Htf). Qed.

Lemma successor_outputs metadata : @check_outputs E (pl_snapshot s) (pl_snapshot s') (intent_facts metadata) = Ok tt.
Proof.
  destruct successor_transferred as (_ & _ & Htf). pose proof (tf_notes _ _ _ _ Htf) as Hn. unfold ledger_notes in Hn.
  destruct Hs as [[Hsn _ _] _ _ _ _]. pose proof (snw_bound _ _ _ Hsn) as Hb. unfold check_outputs.
  rewrite (proj2 (checked_add_Some USIZE_MAX _ 2 (len (sn_commitments (pl_snapshot s)) + 2))).
  2: { unfold CANDIDATE_PRIVATE_STATE_MAX_NOTES in Hb. lia. }
  cbn [ok_or mbind result_bind]. rewrite Hn, length_app, drop_app_length.
  rewrite (proj2 (Z.eqb_eq _ _)) by (cbn; lia). by rewrite bool_decide_true.
Qed.

Lemma successor_fresh n : n ∈ intent_nullifiers (rq_intent request) -> snapshot_is_spent (pl_snapshot s) n = false.
Proof.
  intros Hn. destruct successor_transferred as ([_ Had _] & _ & _). apply bool_decide_eq_false. intros Hin.
  apply (ad_fresh _ _ _ Had n Hn). by apply elem_of_list_to_set.
Qed.

Lemma successor_newly_spent :
  len (List.filter (fun n => negb (snapshot_is_spent (pl_snapshot s) n)) (spent s')) = 2.
Proof.
  rewrite (bool_filter_Permutation _ _ _ successor_spent). unfold intent_nullifiers. cbn [app List.filter].
  rewrite !successor_fresh by (unfold intent_nullifiers; set_solver). cbn [negb length].
  rewrite bool_filter_none; [done|]. apply Forall_forall. intros n Hn. apply negb_false_iff. by apply bool_decide_eq_true.
Qed.

Lemma successor_inputs metadata : @check_inputs E (pl_snapshot s) (pl_snapshot s') (intent_facts metadata) = Ok tt.
Proof.
  pose proof successor_count as Hc. pose proof (rc_nullifiers _ _ _ _ _ Hs) as Hb. unfold check_inputs.
  rewrite (proj2 (checked_add_Some USIZE_MAX _ 2 (len (spent s) + 2))).
  2: { unfold PRIVATE_STATE_RECORD_MAX_NULLIFIERS in Hb. lia. }
  cbn [ok_or mbind result_bind]. rewrite (proj2 (Z.eqb_eq _ _) Hc). cbn [negb].
  assert (Hin : forall n, n ∈ intent_nullifiers (rq_intent request) -> @check_input E (pl_snapshot s) (pl_snapshot s') n = Ok tt).
  { intros n Hn. unfold check_input. rewrite (successor_fresh n Hn). unfold snapshot_is_spent.
    rewrite bool_decide_true; [done|]. rewrite successor_spent. apply elem_of_app. by left. }
  unfold pair_list, intent_facts. cbn [sf_input_nullifiers fst snd try_map].
  rewrite !Hin by (unfold intent_nullifiers; set_solver). cbn [mbind result_bind].
  by rewrite successor_newly_spent.
Qed.

(** The receipt of an admitted transfer passes the journal's validation. *)
Lemma successor_valid metadata :
  arr metadata <> replicate 32 x00 -> facts_valid (E := E) (intent_facts metadata) s s'.
Proof.
  intros Hm. destruct successor_transferred as ([Hasset _ _] & _ & _). unfold facts_valid, validate_transition.
  rewrite bool_decide_false by done. rewrite bool_decide_true by exact Hasset.
  rewrite !bool_decide_true by apply Hi. cbn [negb]. rewrite successor_outputs. cbn [mbind result_bind]. apply successor_inputs.
Qed.

End Successors.

(** ** Sessions *)

Section Sessions.
Context {E JE X : Type}.
Abbreviation SE := (PrivateStoreError E JE).
Context (open : IO SE PrivateStore) (submit : X -> PrivateStore -> IO SE (Receipt * PrivateStore)).

(** Submits transfers one by one.  A refused one changes nothing; after any other
    error the process ends.  The receipts are those the process was given. *)
Fixpoint serve (xs : list X) (store : PrivateStore) (d : Disk) : list Receipt * Disk :=
  match xs with
  | [] => ([], d)
  | x :: xs =>
      match submit x store d with
      | (Ok (receipt, store), d) => let '(receipts, d) := serve xs store d in (receipt :: receipts, d)
      | (Err (Error (StErr.Ledger _)), d) => serve xs store d
      | (Err _, d) => ([], d)
      end
  end.

(** A process with its id, what happens to its calls and what it submits. *)
Record Session : Type := mk_Session {
  ses_process : Z;
  ses_outcomes : list Outcome;
  ses_transfers : list X
}.

Definition start (session : Session) (f : Files) : Disk := mk_Disk f (ses_outcomes session) (ses_process session) 0.

Definition run_session (session : Session) (f : Files) : list Receipt * Files :=
  match open (start session f) with
  | (Ok store, d) => let '(receipts, d) := serve (ses_transfers session) store d in (receipts, d_files d)
  | (Err _, d) => ([], d_files d)
  end.

Fixpoint run_sessions (sessions : list Session) (f : Files) : list Receipt * Files :=
  match sessions with
  | [] => ([], f)
  | session :: sessions =>
      let '(receipts, f) := run_session session f in
      let '(more, f) := run_sessions sessions f in
      (receipts ++ more, f)
  end.

(** A store is created by a process that then submits transfers; the sessions
    follow. *)
Definition life (create : IO SE PrivateStore) (first : Session) (sessions : list Session) (f : Files)
    : option (list Receipt * Files) :=
  match create (start first f) with
  | (Ok store, d) =>
      let '(receipts, d) := serve (ses_transfers first) store d in
      let '(more, f) := run_sessions sessions (d_files d) in
      Some (receipts ++ more, f)
  | (Err _, _) => None
  end.

(** Opening finds the ledger: if it returns, and it does when every call is done
    and no temporary name of the process is taken. *)
Definition reopens {B : Type} (K : StoreKind JE B) (path : FileName) (f : Files) (s : Ledger) : Prop :=
  (forall d, d_files d = f -> match (open d).1 with Ok store => store = opened_store path s | Err _ => True end) /\
  (forall d, d_files d = f -> d_outcomes d = [] -> tidy K path (d_process d) f -> (open d).1 = Ok (opened_store path s)).

End Sessions.
Arguments Session X : clear implicits.

(** The ledger goes from [s] to [s'] by admitted transfers. *)
Inductive admitted_run `{Sha2} (tree : P24Manifest) {E : Type} (sparse : SparseManifest E) {A : Type}
    `{!CandidatePrivateTransferAuthorizer A} : Ledger -> list (CandidatePrivateTransferRequestV1 A) -> list Receipt -> Ledger -> Prop :=
| admitted_nil s : admitted_run tree sparse s [] [] s
| admitted_cons s request requests receipt s1 receipts s2 :
    apply_transfer tree sparse request s = (Ok receipt, s1) -> admitted_run tree sparse s1 requests receipts s2 ->
    admitted_run tree sparse s (request :: requests) (receipt :: receipts) s2.

Section Histories.
Context `{Sha2} (tree : P24Manifest) `{!P24ManifestLaws tree} {E : Type} (sparse : SparseManifest E).
Context `{!SparseManifestLaws sparse} (reference : Poseidon2P24Reference) (Hload : load_reference tree = Ok reference).
Context (r : NullifierSparseTreeReferenceV1) (Hsparse : load_sparse_reference tree sparse = Ok r).
Context {JE B : Type} (K : StoreKind JE B) (EK : EntryKind B B).

Abbreviation recordable := (recordable tree sparse reference r).
Abbreviation J := (sk_journal K).
Context (step : Ledger -> B -> Prop) `{!JournalLaws J EK recordable step}.
#[local] Instance run_frames : FrameLaws (jk_format J) EK := journal_frames J EK recordable step.
Context {A X : Type} `{!CandidatePrivateTransferAuthorizer A} (path : FileName).
Context (request_of : X -> CandidatePrivateTransferRequestV1 A).
Context (append_of : X -> FileName -> Ledger -> Ledger -> Receipt -> IO JE Z).
Context (ready : X -> Ledger -> Ledger -> Receipt -> Prop) (fine : X -> Prop).

(** What is known of the receipt and the successor of an admitted transfer. *)
Definition known (s' : Ledger) (receipt : Receipt) : Prop :=
  encodable tree sparse reference r s' /\ Forall vector_wf (rc_input_nullifiers receipt) /\
  Forall vector_wf (rc_output_commitments receipt).

Context (Happend : forall x, append_spec J EK known (ready x) (append_of x)).
Context (Hready : forall x s s' receipt, fine x -> recordable s -> recordable s' -> intent_wf (rq_intent (request_of x)) ->
  apply_transfer tree sparse (request_of x) s = (Ok receipt, s') -> ready x s s' receipt).

Abbreviation open := (store_open tree sparse K path).
Definition submit (x : X) : PrivateStore -> IO (PrivateStoreError E JE) (Receipt * PrivateStore) :=
  store_apply tree sparse K (append_of x) (request_of x).

Abbreviation durable := (durable tree sparse reference r K EK path).
Abbreviation wf_transfer := (fun x : X => intent_wf (rq_intent (request_of x))).
Abbreviation admitted_run := (admitted_run tree sparse).

Lemma successor_known x s s' receipt :
  recordable s -> wf_transfer x -> apply_transfer tree sparse (request_of x) s = (Ok receipt, s') -> known s' receipt.
Proof.
  intros Hs Hi Ht. split; [exact (successor_encodable tree sparse reference Hload r Hsparse _ _ _ _ Hs Hi Ht)|].
  destruct (successor_transferred tree sparse reference Hload r Hsparse _ _ _ _ Hs Hi Ht) as (_ & _ & Htf).
  rewrite (tf_receipt _ _ _ _ Htf). cbn. split; (apply Forall_cons; split; [apply Hi|]; apply Forall_singleton, Hi).
Qed.

Lemma admitted_snoc s requests receipts s1 request receipt s2 :
  admitted_run s requests receipts s1 -> apply_transfer tree sparse request s1 = (Ok receipt, s2) ->
  admitted_run s (requests ++ [request]) (receipts ++ [receipt]) s2.
Proof. induction 1; intros; econstructor; eauto. constructor. Qed.

Lemma admitted_trans s requests receipts s1 requests' receipts' s2 :
  admitted_run s requests receipts s1 -> admitted_run s1 requests' receipts' s2 ->
  admitted_run s (requests ++ requests') (receipts ++ receipts') s2.
Proof. induction 1; intros; [done|]. econstructor; eauto. Qed.

(** ** Any run *)

Definition storm : Mode := mk_Mode false 0.

Lemma storm_steady d : steady storm d.
Proof. by apply steady_storm. Qed.

Abbreviation opened := (opened tree sparse reference r K EK path storm).

(** What a run from [s] may have done. *)
Definition reached (s : Ledger) (xs : list X) (receipts : list Receipt) (s' : Ledger) : Prop :=
  exists requests all, requests `sublist_of` (request_of <$> xs) /\ admitted_run s requests all s' /\ receipts `sublist_of` all.

Lemma reached_nil s xs : reached s xs [] s.
Proof. exists [], []. split_and!; [apply sublist_nil_l|constructor|done]. Qed.

Lemma reached_skip s x xs receipts s' : reached s xs receipts s' -> reached s (x :: xs) receipts s'.
Proof. intros (requests & all & Hr & Ha & Hs). exists requests, all. split_and!; [by constructor|done|done]. Qed.

Lemma reached_cons s x xs receipt receipts s1 s' :
  apply_transfer tree sparse (request_of x) s = (Ok receipt, s1) -> reached s1 xs receipts s' ->
  reached s (x :: xs) (receipt :: receipts) s'.
Proof.
  intros Hx (requests & all & Hr & Ha & Hs). exists (request_of x :: requests), (receipt :: all).
  split_and!; [by constructor|by econstructor|by constructor].
Qed.

Lemma reached_unreported s x xs receipt receipts s1 s' :
  apply_transfer tree sparse (request_of x) s = (Ok receipt, s1) -> reached s1 xs receipts s' ->
  reached s (x :: xs) receipts s'.
Proof.
  intros Hx Hr. destruct (reached_cons _ _ _ _ _ _ _ Hx Hr) as (requests & all & ? & ? & Hs). exists requests, all.
  split_and!; [done|done|]. etransitivity; [|exact Hs]. by constructor.
Qed.

Lemma reached_trans s xs receipts s1 ys receipts' s2 :
  reached s xs receipts s1 -> reached s1 ys receipts' s2 -> reached s (xs ++ ys) (receipts ++ receipts') s2.
Proof.
  intros (q1 & a1 & H1 & H2 & H3) (q2 & a2 & H4 & H5 & H6). exists (q1 ++ q2), (a1 ++ a2).
  rewrite fmap_app. split_and!; [by apply sublist_app|by eapply admitted_trans|by apply sublist_app].
Qed.

Lemma opened_recordable base values s f : opened base values s None [] f -> recordable s.
Proof. intros [Hh _]. exact (hd_state _ _ _ _ _ _ _ _ _ _ _ _ _ Hh). Qed.

Lemma serve_reached xs base values s d receipts d' :
  Forall wf_transfer xs -> opened base values s None [] (d_files d) ->
  serve submit xs (opened_store path s) d = (receipts, d') ->
  exists s', reached s xs receipts s' /\ durable (d_files d') s'.
Proof.
  revert base values s d receipts. induction xs as [|x xs IH]; intros base values s d receipts Hw Ho; cbn [serve].
  { intros [= <- <-]. exists s. split; [apply reached_nil|]. eapply opened_durable, Ho. }
  apply Forall_cons in Hw as [Hx Hw]. pose proof (opened_recordable _ _ _ _ Ho) as Hs.
  destruct (apply_transfer tree sparse (request_of x) s) as [[receipt|e] s1] eqn:Ha.
  - pose proof (spec_store_apply tree sparse reference Hload r Hsparse K EK step path (append_of x) known (ready x) (Happend x)
      storm base values s (request_of x) receipt s1 Ha (successor_known x s s1 receipt Hs Hx Ha) ltac:(done) d
      (storm_steady d) Ho) as [_ Hr].
    pose proof (raises_store_apply tree sparse K (append_of x) (request_of x) (opened_store path s) receipt s1 Ha d) as Hno.
    change (store_apply tree sparse K (append_of x) (request_of x)) with (submit x) in *.
    destruct (submit x (opened_store path s) d) as [[[receipt' store]|fault] d1]; cbn [fst snd] in Hr, Hno.
    + destruct Hr as [[= -> ->] [b Ho1]]. destruct (serve submit xs (opened_store path s1) d1) as [receipts1 d2] eqn:Hserve.
      intros [= <- <-]. destruct (IH _ _ _ _ _ Hw Ho1 Hserve) as (s' & Hreach & Hd). exists s'.
      split; [by eapply reached_cons|done].
    + destruct Hr as [_ Hd]. intros He.
      assert (Hres : ([], d1) = (receipts, d')) by (destruct fault as [| |[]]; done). injection Hres as <- <-. destruct Hd as [Hd|Hd]; [exists s|exists s1]; (split; [|exact Hd]); [apply reached_nil|].
      eapply reached_unreported; [exact Ha|apply reached_nil].
  - pose proof (spec_refused tree sparse K path (append_of x) storm s (request_of x) e s1 Ha
      (fun f => opened base values s None [] f) d (storm_steady d) Ho) as [_ Hr].
    change (store_apply tree sparse K (append_of x) (request_of x)) with (submit x) in *.
    destruct (submit x (opened_store path s) d) as [[?|fault] d1]; [done|]. cbn [fst snd] in Hr. destruct Hr as [-> Ho1].
    destruct e as [e|]; cbn [from_option].
    + intros Hserve. destruct (IH _ _ _ _ _ Hw Ho1 Hserve) as (s' & Hreach & Hd). exists s'. split; [by apply reached_skip|done].
    + intros [= <- <-]. exists s. split; [apply reached_nil|]. eapply opened_durable, Ho1.
Qed.

(** Whatever happens to its calls, an open that returns has the stored ledger. *)
Lemma open_reads f s d :
  durable f s -> d_files d = f ->
  match open d with
  | (Ok store, d') => store = opened_store path s /\ exists base values, opened base values s None [] (d_files d')
  | (Err _, d') => durable (d_files d') s
  end.
Proof.
  intros (base & values & tail & torn & Hh) <-.
  destruct (spec_store_open tree sparse reference Hload r Hsparse K EK step path storm base values tail torn s ltac:(done) d
    (storm_steady d)) as [_ Hr]; [by split|].
  destruct (open d) as [[store|e] d']; cbn [fst snd] in Hr; [|apply Hr]. destruct Hr as [-> Ho]. split; [done|].
  by eexists _, _.
Qed.

Lemma run_session_reached session f s receipts f' :
  Forall wf_transfer (ses_transfers session) -> durable f s -> run_session open submit session f = (receipts, f') ->
  exists s', reached s (ses_transfers session) receipts s' /\ durable f' s'.
Proof.
  intros Hw Hd. unfold run_session. pose proof (open_reads f s (start session f) Hd eq_refl) as Ho.
  destruct (open (start session f)) as [[store|e] d1].
  - destruct Ho as (-> & base & values & Ho). destruct (serve _ _ _ _) as [acks d2] eqn:Hs. intros [= <- <-].
    by eapply serve_reached.
  - intros [= <- <-]. exists s. split; [apply reached_nil|done].
Qed.

Lemma run_sessions_reached sessions f s receipts f' :
  Forall (fun session => Forall wf_transfer (ses_transfers session)) sessions -> durable f s ->
  run_sessions open submit sessions f = (receipts, f') ->
  exists s', reached s (concat (ses_transfers <$> sessions)) receipts s' /\ durable f' s'.
Proof.
  revert f s receipts. induction sessions as [|session sessions IH]; intros f s receipts Hw Hd; cbn [run_sessions].
  { intros [= <- <-]. exists s. split; [apply reached_nil|done]. }
  apply Forall_cons in Hw as [Hw1 Hw]. destruct (run_session open submit session f) as [acks f1] eqn:Hs.
  destruct (run_sessions open submit sessions f1) as [more f2] eqn:Hrest. intros [= <- <-].
  destruct (run_session_reached session f s acks f1 Hw1 Hd Hs) as (s1 & H1 & Hd1).
  destruct (IH f1 s1 more Hw Hd1 Hrest) as (s2 & H2 & Hd2). exists s2. split; [|done]. by eapply reached_trans.
Qed.

(** ** Calm runs *)

Definition still (process : Z) : Mode := mk_Mode true process.
Abbreviation tidy := (tidy K path).
Abbreviation opened_in process := (PrivateStoreFacts.opened tree sparse reference r K EK path (still process)).

(** A process whose calls are done. *)
Definition at_rest (process : Z) (d : Disk) : Prop := d_outcomes d = [] /\ d_process d = process.

Lemma still_steady process d : at_rest process d -> steady (still process) d.
Proof. by intros Hd _. Qed.

Lemma open_succeeds process f s d :
  path <> [] -> durable f s -> tidy process f -> d_files d = f -> at_rest process d ->
  exists d' base values, open d = (Ok (opened_store path s), d') /\ at_rest process d' /\
    opened_in process base values s None [] (d_files d').
Proof.
  intros Hp (base & values & tail & torn & Hh) Ht <- Hd.
  destruct (spec_store_open tree sparse reference Hload r Hsparse K EK step path (still process) base values tail torn s
    ltac:(done) d (still_steady process d Hd)) as [Hst Hr]; [by split|].
  destruct (open d) as [[store|e] d']; cbn [fst snd] in Hst, Hr; [|by destruct Hr]. destruct Hr as [-> Ho].
  exists d', base, values. split_and!; [done|by apply Hst|exact Ho].
Qed.

Abbreviation log := (log_bytes (jk_format J) EK).
Abbreviation entry_room := (14 + ff_maximum (jk_format J)).

Lemma log_bound values : Forall (storable (jk_format J) EK) values -> len (log values) <= len values * entry_room.
Proof.
  induction 1 as [|b values [_ Hb] _ IH]; [done|].
  change (log (b :: values)) with (entry_frame (jk_format J) EK b ++ log values). rewrite length_app. cbn [length].
  pose proof (length_frame_bytes (jk_format J) EK (ek_payload EK b)) as Hl. unfold entry_frame. lia.
Qed.

Lemma opened_room process base values s f :
  opened_in process base values s None [] f -> len (log values) <= len values * entry_room.
Proof. intros [Hh _]. apply log_bound. exact (hy_storable _ _ _ _ (hd_history _ _ _ _ _ _ _ _ _ _ _ _ _ Hh)). Qed.

(** Every transfer the ledger admits is acknowledged. *)
Lemma serve_succeeds process xs base values s d receipts s' :
  Forall wf_transfer xs -> Forall fine xs -> admitted_run s (request_of <$> xs) receipts s' ->
  len (sn_spent_nullifiers (pl_snapshot s)) + 2 * len xs <= PRIVATE_STATE_RECORD_MAX_NULLIFIERS ->
  (len values + len xs) * entry_room <= MAX_FILE_LENGTH ->
  at_rest process d -> opened_in process base values s None [] (d_files d) ->
  exists d', serve submit xs (opened_store path s) d = (receipts, d') /\ at_rest process d' /\ tidy process (d_files d') /\
    durable (d_files d') s'.
Proof.
  revert base values s d receipts. induction xs as [|x xs IH]; intros base values s d receipts Hw Hf Ha Hn Hroom Hd Ho.
  all: pose proof (frame_maximum_range (F := jk_format J) (K := EK)) as Hmax.
  { cbn [fmap list_fmap] in Ha. inversion Ha; subst. exists d. split_and!; [done|done|by apply Ho|by eapply opened_durable]. }
  apply Forall_cons in Hw as [Hx Hw]. apply Forall_cons in Hf as [Hfx Hf]. cbn [length] in Hn, Hroom.
  cbn [fmap list_fmap] in Ha. inversion Ha as [|? ? ? receipt s1 receipts' ? Hap Hrest]; subst. clear Ha.
  assert (Hs : recordable s) by (destruct Ho as [Hh _]; exact (hd_state _ _ _ _ _ _ _ _ _ _ _ _ _ Hh)).
  assert (Hs1 : recordable s1) by (apply (successor_recordable tree sparse reference Hload r Hsparse _ _ _ _ Hs Hx Hap); lia).
  pose proof (successor_count tree sparse reference Hload r Hsparse _ _ _ _ Hs Hx Hap) as Hcount.
  pose proof (opened_room _ _ _ _ _ Ho) as Hlog. assert (Hfits : len (log values) + 14 + ff_maximum (jk_format J) <= MAX_FILE_LENGTH) by nia.
  destruct (spec_store_apply tree sparse reference Hload r Hsparse K EK step path (append_of x) known (ready x) (Happend x)
    (still process) base values s (request_of x) receipt s1 Hap (successor_known x s s1 receipt Hs Hx Hap)
    (fun _ => conj (Hready x s s1 receipt Hfx Hs Hs1 Hx Hap) Hfits) d (still_steady _ _ Hd) Ho) as [Hst Hr].
  cbn [serve]. change (store_apply tree sparse K (append_of x) (request_of x)) with (submit x) in *.
  destruct (submit x (opened_store path s) d) as [[[receipt1 store]|fault] d1]; cbn [fst snd] in Hst, Hr; [|by destruct Hr].
  destruct Hr as [[= -> ->] [b Ho1]].
  destruct (IH base (values ++ [b]) s1 d1 receipts' Hw Hf Hrest) as (d2 & Hserve & Hrest2); [lia| |by apply Hst|exact Ho1|].
  { rewrite length_app. cbn [length]. nia. }
  exists d2. by rewrite Hserve.
Qed.

(** ** From creation on *)

Section Created.
Context (s : Ledger) (Hs : recordable s) (Hlock : lock_path path <> path).
Context (first : Session X) (f0 : Files) (Hvacant : vacant path f0).

Abbreviation create := (store_initialize tree sparse K path s).

Lemma durable_reopens f s' : path <> [] -> durable f s' -> reopens open K path f s'.
Proof.
  intros Hp Hd. split.
  - intros d Hf. pose proof (open_reads f s' d Hd Hf) as Ho. destruct (open d) as [[store|e] d']; [apply Ho|done].
  - intros d Hf Ho Ht. destruct (open_succeeds (d_process d) f s' d Hp Hd Ht Hf (conj Ho eq_refl)) as (d' & ? & ? & He & _).
    by rewrite He.
Qed.

Lemma created_path store d d' : create d = (Ok store, d') -> path <> [].
Proof. by destruct path. Qed.

Lemma created store d :
  create (start first f0) = (Ok store, d) -> store = opened_store path s /\ opened s [] s None [] (d_files d).
Proof.
  intros Hc. destruct (spec_store_initialize tree sparse reference Hload r Hsparse K EK step path storm s Hs Hlock ltac:(done)
    (start first f0) (storm_steady _)) as [_ Hr]; [by split|]. by rewrite Hc in Hr.
Qed.

Lemma life_reached sessions receipts f :
  Forall (fun session => Forall wf_transfer (ses_transfers session)) (first :: sessions) ->
  life open submit create first sessions f0 = Some (receipts, f) ->
  exists s', reached s (concat (ses_transfers <$> first :: sessions)) receipts s' /\ reopens open K path f s'.
Proof.
  intros [Hw1 Hw]%Forall_cons. unfold life. destruct (create (start first f0)) as [[store|e] d] eqn:Hc; [|done].
  destruct (created store d Hc) as [-> Ho]. destruct (serve _ _ _ _) as [acks d1] eqn:Hserve.
  destruct (run_sessions _ _ _ _) as [more f1] eqn:Hrun. intros [= <- <-].
  destruct (serve_reached _ _ _ _ _ _ _ Hw1 Ho Hserve) as (s1 & H1 & Hd1).
  destruct (run_sessions_reached _ _ _ _ _ Hw Hd1 Hrun) as (s2 & H2 & Hd2).
  exists s2. split; [by eapply reached_trans|]. apply durable_reopens; [|done]. by eapply created_path.
Qed.

(** In a calm life every admitted transfer is acknowledged and kept. *)
Lemma life_succeeds receipts s' :
  path <> [] -> ses_outcomes first = [] -> tidy (ses_process first) f0 ->
  Forall wf_transfer (ses_transfers first) -> Forall fine (ses_transfers first) ->
  admitted_run s (request_of <$> ses_transfers first) receipts s' ->
  len (sn_spent_nullifiers (pl_snapshot s)) + 2 * len (ses_transfers first) <= PRIVATE_STATE_RECORD_MAX_NULLIFIERS ->
  exists f, life open submit create first [] f0 = Some (receipts, f) /\ reopens open K path f s'.
Proof.
  intros Hp Hout Ht Hw Hf Ha Hn. set (process := ses_process first) in *.
  destruct (spec_store_initialize tree sparse reference Hload r Hsparse K EK step path (still process) s Hs Hlock ltac:(done)
    (start first f0)) as [Hst Hr]; [by intros _|by split|].
  unfold life. destruct (create (start first f0)) as [[store|e] d] eqn:Hc; cbn [fst snd] in Hst, Hr; [|by destruct Hr].
  destruct Hr as [-> Ho].
  destruct (serve_succeeds process (ses_transfers first) s [] s d receipts s' Hw Hf Ha Hn) as (d1 & Hserve & _ & _ & Hd1).
  - pose proof (frame_maximum_range (F := jk_format J) (K := EK)). unfold PRIVATE_STATE_RECORD_MAX_NULLIFIERS in Hn.
    unfold MAX_FILE_LENGTH. cbn [length]. nia.
  - by apply Hst.
  - exact Ho.
  - rewrite Hserve. cbn [run_sessions]. exists (d_files d1). split; [by rewrite app_nil_r|]. by apply durable_reopens.
Qed.

End Created.

End Histories.

(** ** The two stores *)

Section Stores.
Context `{Sha2} (tree : P24Manifest) `{!P24ManifestLaws tree} {E : Type} (sparse : SparseManifest E).
Context `{!SparseManifestLaws sparse} (reference : Poseidon2P24Reference) (Hload : load_reference tree = Ok reference).
Context (r : NullifierSparseTreeReferenceV1) (Hsparse : load_sparse_reference tree sparse = Ok r).
Context {A : Type} `{!CandidatePrivateTransferAuthorizer A} (path : FileName).

Abbreviation recordable := (recordable tree sparse reference r).
Abbreviation Request := (CandidatePrivateTransferRequestV1 A).

Lemma append_spec_may {JE B : Type} (J : JournalKind JE B) (EK : EntryKind B B) (may may' : Ledger -> Receipt -> Prop) ready append :
  (forall s receipt, may' s receipt -> may s receipt) -> append_spec J EK may ready append -> append_spec J EK may' ready append.
Proof. intros Hm Ha calm p P Q I base values state receipt H1 H2 H3 H4 H5. apply Ha; auto. Qed.

#[local] Instance state_store_laws :
  JournalLaws (sk_journal (state_store tree sparse)) (state_kind tree sparse reference r) recordable (fun _ _ => True) :=
  state_laws tree sparse reference Hload r Hsparse.
#[local] Instance submission_store_laws :
  JournalLaws (sk_journal (submission_store tree sparse)) (submission_kind tree sparse reference r) recordable submission_step :=
  submission_laws tree sparse reference Hload r Hsparse.

(** ** Version 1 *)

Lemma state_appends (request : Request) :
  append_spec (state_journal tree sparse) (state_kind tree sparse reference r) (known tree sparse reference r)
    (fun _ s' _ => recordable s')
    (fun journal predecessor successor _ => append_post_state tree sparse journal (state_id predecessor) successor).
Proof.
  eapply append_spec_may; [|apply (state_append_spec tree sparse reference Hload r Hsparse)]. by intros s receipt [He _].
Qed.

(** ** Version 2 *)

Definition submission_ready (metadata : EnvelopeId) (s s' : Ledger) (receipt : Receipt) : Prop :=
  exists facts, @receipt_facts E metadata receipt = Ok facts /\ recordable s' /\ facts_valid (E := E) facts s s'.

Lemma receipt_facts_wf metadata receipt facts :
  @receipt_facts E metadata receipt = Ok facts ->
  Forall vector_wf (rc_input_nullifiers receipt) -> Forall vector_wf (rc_output_commitments receipt) ->
  (vector_wf (sf_input_nullifiers facts).1 /\ vector_wf (sf_input_nullifiers facts).2) /\
  (vector_wf (sf_output_commitments facts).1 /\ vector_wf (sf_output_commitments facts).2).
Proof.
  unfold receipt_facts. destruct (rc_input_nullifiers receipt) as [|a [|b [|]]]; try done. cbn [as_pair ok_or mbind result_bind].
  destruct (rc_output_commitments receipt) as [|c [|e [|]]]; try done. cbn [as_pair ok_or mbind result_bind].
  intros [= <-]. rewrite !Forall_cons. cbn. naive_solver.
Qed.

Lemma submission_appends (metadata : EnvelopeId) :
  append_spec (submission_journal tree sparse) (submission_kind tree sparse reference r) (known tree sparse reference r)
    (submission_ready metadata)
    (fun journal predecessor successor receipt =>
       facts ← of_result (receipt_facts metadata receipt);
       append_submission tree sparse journal predecessor successor facts).
Proof.
  intros calm p P Q I base values state receipt Hh Hl Hf HPI (Hmay & Hin & Hout) Hready Hroom HQ HI.
  destruct (@receipt_facts E metadata receipt) as [facts|e] eqn:Hfacts.
  - destruct (receipt_facts_wf metadata receipt facts Hfacts Hin Hout) as [Hi Ho].
    eapply (spec_bind _ _ _ (fun x f => x = facts /\ P f)); [by apply spec_of_result|]. intros x. apply spec_fact. intros ->.
    apply (submission_append_spec tree sparse reference Hload r Hsparse facts Hi Ho calm p P Q I base values state receipt); try done.
    intros Hc. destruct (Hready Hc) as (facts' & Hf' & Hr & Hv). rewrite Hfacts in Hf'. by injection Hf' as <-.
  - assert (Hc : is_calm calm = false).
    { destruct (is_calm calm); [|done]. destruct (Hready eq_refl) as (facts' & Hf' & _). congruence. }
    eapply (spec_bind _ _ _ (fun _ _ => False)); [|by intros x d _ []].
    apply spec_of_result. destruct e; intros f HP; (split; [done|by apply HPI]).
Qed.

Lemma submission_is_ready (metadata : EnvelopeId) (request : Request) s s' receipt :
  arr metadata <> replicate 32 x00 -> recordable s -> recordable s' -> intent_wf (rq_intent request) ->
  apply_transfer tree sparse request s = (Ok receipt, s') -> submission_ready metadata s s' receipt.
Proof.
  intros Hm Hs Hs' Hi Ha. exists (intent_facts request metadata). split_and!; [|exact Hs'|].
  - exact (successor_facts tree sparse reference Hload r Hsparse request s s' receipt Hs Hi Ha metadata).
  - exact (successor_valid tree sparse reference Hload r Hsparse request s s' receipt Hs Hi Ha metadata Hm).
Qed.

Abbreviation wf_session request_of := (fun session => Forall (fun x => intent_wf (rq_intent (request_of x))) (ses_transfers session)).

(** C6: the version 1 store keeps what it acknowledged.  A store is created and lives
    through any number of processes, in which any call may fail and which may end in
    any call, their torn writes and lost unsynced bytes included.  What the next
    open finds is the initial ledger after transfers that were submitted and
    admitted, in the order of their submission, with every acknowledged receipt
    among theirs.  An open that returns finds it, and an open whose calls are done
    returns. *)
Theorem state_store_keeps_acknowledged s first sessions f0 receipts f :
  recordable s -> lock_path path <> path -> vacant path f0 ->
  Forall (wf_session (@id Request)) (first :: sessions) ->
  life (state_store_open tree sparse path) (state_store_apply tree sparse) (state_store_initialize tree sparse path s)
    first sessions f0 = Some (receipts, f) ->
  exists requests all s', requests `sublist_of` concat (ses_transfers <$> first :: sessions) /\
    admitted_run tree sparse s requests all s' /\ receipts `sublist_of` all /\
    reopens (state_store_open tree sparse path) (state_store tree sparse) path f s'.
Proof.
  intros Hs Hl Hv Hw Hlife.
  destruct (life_reached tree sparse reference Hload r Hsparse (state_store tree sparse) (state_kind tree sparse reference r)
    (fun _ _ => True) path (@id Request) _ _ state_appends s Hs Hl first f0 Hv sessions receipts f Hw Hlife)
    as (s' & (requests & all & Hr & Ha & Hacks) & Ho).
  exists requests, all, s'. rewrite list_fmap_id in Hr. done.
Qed.

(** A calm life of the version 1 store. *)
Lemma state_life s process requests f0 receipts s' :
  recordable s -> lock_path path <> path -> path <> [] -> vacant path f0 -> tidy (state_store tree sparse) path process f0 ->
  Forall (fun request : Request => intent_wf (rq_intent request)) requests ->
  admitted_run tree sparse s requests receipts s' ->
  len (sn_spent_nullifiers (pl_snapshot s)) + 2 * len requests <= PRIVATE_STATE_RECORD_MAX_NULLIFIERS ->
  exists f, life (state_store_open tree sparse path) (state_store_apply tree sparse) (state_store_initialize tree sparse path s)
      (mk_Session process [] requests) [] f0 = Some (receipts, f) /\
    reopens (state_store_open tree sparse path) (state_store tree sparse) path f s'.
Proof.
  intros Hs Hl Hp Hv Ht Hw Ha Hn.
  apply (life_succeeds tree sparse reference Hload r Hsparse (state_store tree sparse) (state_kind tree sparse reference r)
    (fun _ _ => True) path (@id Request) _ _ (fun _ => True) state_appends); try done.
  - cbn. by apply Forall_true.
  - cbn. by rewrite list_fmap_id.
Qed.

(** C7: the version 2 store keeps what it acknowledged, as [state_store_keeps_acknowledged],
    for transfers submitted with an envelope. *)
Theorem submission_store_keeps_acknowledged s first sessions f0 receipts f :
  recordable s -> lock_path path <> path -> vacant path f0 ->
  Forall (wf_session (@snd EnvelopeId Request)) (first :: sessions) ->
  life (submission_store_open tree sparse path) (fun x => submission_store_apply tree sparse x.1 x.2)
    (submission_store_initialize tree sparse path s) first sessions f0 = Some (receipts, f) ->
  exists requests all s', requests `sublist_of` (concat (ses_transfers <$> first :: sessions)).*2 /\
    admitted_run tree sparse s requests all s' /\ receipts `sublist_of` all /\
    reopens (submission_store_open tree sparse path) (submission_store tree sparse) path f s'.
Proof.
  intros Hs Hl Hv Hw Hlife.
  destruct (life_reached tree sparse reference Hload r Hsparse (submission_store tree sparse)
    (submission_kind tree sparse reference r) submission_step path (@snd EnvelopeId Request) _ _
    (fun x => submission_appends x.1) s Hs Hl first f0 Hv sessions receipts f Hw Hlife)
    as (s' & (requests & all & Hr & Ha & Hacks) & Ho).
  by exists requests, all, s'.
Qed.

(** A calm life of the version 2 store. *)
Lemma submission_life s process submissions f0 receipts s' :
  recordable s -> lock_path path <> path -> path <> [] -> vacant path f0 -> tidy (submission_store tree sparse) path process f0 ->
  Forall (fun x : EnvelopeId * Request => intent_wf (rq_intent x.2)) submissions ->
  Forall (fun x : EnvelopeId * Request => arr x.1 <> replicate 32 x00) submissions ->
  admitted_run tree sparse s submissions.*2 receipts s' ->
  len (sn_spent_nullifiers (pl_snapshot s)) + 2 * len submissions <= PRIVATE_STATE_RECORD_MAX_NULLIFIERS ->
  exists f, life (submission_store_open tree sparse path) (fun x => submission_store_apply tree sparse x.1 x.2)
      (submission_store_initialize tree sparse path s) (mk_Session process [] submissions) [] f0 = Some (receipts, f) /\
    reopens (submission_store_open tree sparse path) (submission_store tree sparse) path f s'.
Proof.
  intros Hs Hl Hp Hv Ht Hw Hf Ha Hn.
  apply (life_succeeds tree sparse reference Hload r Hsparse (submission_store tree sparse)
    (submission_kind tree sparse reference r) submission_step path (@snd EnvelopeId Request) _
    (fun x => submission_ready x.1) (fun x => arr x.1 <> replicate 32 x00) (fun x => submission_appends x.1)); try done.
  intros x s1 s2 receipt. apply submission_is_ready.
Qed.

(** C12: without failures both stores are complete.  Created where no file of a store
    is, in a process whose calls are done, they acknowledge every transfer of a run
    the ledger admits, within the limit of a record, and the next open finds the
    result.  Version 2 asks only for envelopes with an id beyond that: the validation
    of its journal accepts every transfer the ledger admits. *)
Theorem stores_serve s process (submissions : list (EnvelopeId * Request)) f0 receipts s' :
  recordable s -> lock_path path <> path -> path <> [] -> vacant path f0 ->
  tidy (state_store tree sparse) path process f0 -> tidy (submission_store tree sparse) path process f0 ->
  Forall (fun x => intent_wf (rq_intent x.2)) submissions -> Forall (fun x => arr x.1 <> replicate 32 x00) submissions ->
  admitted_run tree sparse s submissions.*2 receipts s' ->
  len (sn_spent_nullifiers (pl_snapshot s)) + 2 * len submissions <= PRIVATE_STATE_RECORD_MAX_NULLIFIERS ->
  (exists f, life (state_store_open tree sparse path) (state_store_apply tree sparse) (state_store_initialize tree sparse path s)
      (mk_Session process [] submissions.*2) [] f0 = Some (receipts, f) /\
    reopens (state_store_open tree sparse path) (state_store tree sparse) path f s') /\
  (exists f, life (submission_store_open tree sparse path) (fun x => submission_store_apply tree sparse x.1 x.2)
      (submission_store_initialize tree sparse path s) (mk_Session process [] submissions) [] f0 = Some (receipts, f) /\
    reopens (submission_store_open tree sparse path) (submission_store tree sparse) path f s').
Proof.
  intros Hs Hl Hp Hv Ht1 Ht2 Hw Hf Ha Hn. split; [|by apply submission_life].
  apply state_life; try done; [by apply Forall_fmap|]. by rewrite length_fmap.
Qed.

End Stores.

(** Sessions after the first follow on. *)
Lemma life_more {E JE X : Type} (open : IO (PrivateStoreError E JE) PrivateStore) submit create (first : Session X) sessions f0 receipts f :
  life open submit create first [] f0 = Some (receipts, f) ->
  exists more f', life open submit create first sessions f0 = Some (receipts ++ more, f').
Proof.
  unfold life. destruct (create (start first f0)) as [[store|e] d]; [|done].
  destruct (serve _ _ _ _) as [acks d1]. cbn [run_sessions]. intros [= <- <-].
  destruct (run_sessions open submit sessions (d_files d1)) as [more f'] eqn:Hrun. exists more, f'. by rewrite app_nil_r.
Qed.

(** ** Stores over the checked-in manifests *)

#[local] Existing Instance fips_sha2.
#[local] Existing Instance verdict_authorizer.

Lemma sample_admitted :
  exists r l receipt l', load_sparse_reference frozen_manifest frozen_sparse = Ok r /\
    recordable frozen_manifest frozen_sparse frozen_reference r l /\ sn_spent_nullifiers (pl_snapshot l) = [] /\
    intent_wf (rq_intent (sample_request l)) /\
    admitted_run frozen_manifest frozen_sparse l [sample_request l] [receipt] l'.
Proof.
  destruct sample_record as (r & l & Hr & Hid & Hrec & Hns & Hnotes & Hassets). exists r, l.
  pose proof (rc_wf _ _ _ _ _ Hrec) as Hl.
  assert (Hi : intent_wf (rq_intent (sample_request l))).
  { apply (intent_for_wf _ _ _ frozen_manifest_reference _ _ _ _ _ _ _ Hl); try apply sample_vectors_wf; by vm_compute. }
  assert (Hac : accepted l (sample_request l)).
  { split; [rewrite Hassets; by eexists| |done]. unfold ledger_notes in Hnotes. split.
    - apply intent_for_matches.
    - intros n _. unfold spent_set. rewrite Hns. apply not_elem_of_empty.
    - intros c _. rewrite Hnotes. apply not_elem_of_nil.
    - by rewrite Hnotes. }
  destruct (prepare_transfer_complete frozen_manifest frozen_sparse frozen_reference frozen_manifest_reference r Hr
    frozen_nxsm_id Hid l (sample_request l) Hl Hi Hac) as [tr Htr].
  { unfold ledger_spent, spent_set. rewrite Hns. by vm_compute. }
  eexists _, _. split_and!; [exact Hr|exact Hrec|exact Hns|exact Hi|].
  eapply admitted_cons; [|apply admitted_nil]. rewrite apply_transfer_eq, Htr. reflexivity.
Qed.

Definition sample_path : FileName := bytes_of_string "ledger.nxpr".
Definition sample_envelope : EnvelopeId := fill 32 x01.

Lemma sample_vacant : vacant sample_path ∅ /\ lock_path sample_path <> sample_path /\ sample_path <> [].
Proof. by vm_compute. Qed.

Lemma tidy_empty {JE B : Type} (K : StoreKind JE B) path process : tidy K path process ∅.
Proof. intros sequence. by rewrite !lookup_empty. Qed.

Lemma two_sessions {X : Type} (φ : X -> Prop) (x : X) p1 o1 p2 o2 :
  φ x -> Forall (fun session => Forall φ (ses_transfers session)) [mk_Session p1 o1 [x]; mk_Session p2 o2 [x]].
Proof. intros Hx. apply Forall_cons. split; [|apply Forall_singleton]; by apply Forall_singleton. Qed.

(** A store acknowledges a transfer and its next process ends in its fifth call. *)
Lemma state_store_keeps_acknowledged_witness :
  exists l receipts f requests all s',
    life (state_store_open frozen_manifest frozen_sparse sample_path) (state_store_apply frozen_manifest frozen_sparse)
      (state_store_initialize frozen_manifest frozen_sparse sample_path l) (mk_Session 1 [] [sample_request l])
      [mk_Session 2 [Done; Done; Done; Done; Crashed 3] [sample_request l]] ∅ = Some (receipts, f) /\
    receipts <> [] /\ receipts `sublist_of` all /\ admitted_run frozen_manifest frozen_sparse l requests all s'.
Proof.
  destruct sample_admitted as (r & l & receipt & l' & Hr & Hrec & Hns & Hi & Hrun).
  destruct sample_vacant as (Hv & Hl & Hp).
  destruct (state_life frozen_manifest frozen_sparse frozen_reference frozen_manifest_reference r Hr sample_path l 1
    [sample_request l] ∅ [receipt] l' Hrec Hl Hp Hv (tidy_empty _ _ _) ltac:(by apply Forall_singleton) Hrun) as (f & Hlife & _).
  { rewrite Hns. by vm_compute. }
  destruct (life_more _ _ _ _ [mk_Session 2 [Done; Done; Done; Done; Crashed 3] [sample_request l]] _ _ _ Hlife) as (more & f' & Hmore).
  destruct (state_store_keeps_acknowledged frozen_manifest frozen_sparse frozen_reference frozen_manifest_reference r Hr sample_path
    l _ _ ∅ _ _ Hrec Hl Hv (two_sessions (fun x => intent_wf (rq_intent x)) (sample_request l) _ _ _ _ Hi) Hmore)
    as (requests & all & s' & _ & Ha & Hacks & _).
  exists l, ([receipt] ++ more), f', requests, all, s'. split; [exact Hmore|]. split; [done|]. split; [exact Hacks|exact Ha].
Defined.

Lemma submission_store_keeps_acknowledged_witness :
  exists l receipts f requests all s',
    life (submission_store_open frozen_manifest frozen_sparse sample_path)
      (fun x => submission_store_apply frozen_manifest frozen_sparse x.1 x.2)
      (submission_store_initialize frozen_manifest frozen_sparse sample_path l)
      (mk_Session 1 [] [(sample_envelope, sample_request l)])
      [mk_Session 2 [Done; Failed 1] [(sample_envelope, sample_request l)]] ∅ = Some (receipts, f) /\
    receipts <> [] /\ receipts `sublist_of` all /\ admitted_run frozen_manifest frozen_sparse l requests all s'.
Proof.
  destruct sample_admitted as (r & l & receipt & l' & Hr & Hrec & Hns & Hi & Hrun).
  destruct sample_vacant as (Hv & Hl & Hp).
  destruct (submission_life frozen_manifest frozen_sparse frozen_reference frozen_manifest_reference r Hr sample_path l 1
    [(sample_envelope, sample_request l)] ∅ [receipt] l' Hrec Hl Hp Hv (tidy_empty _ _ _) ltac:(by apply Forall_singleton)
    ltac:(by apply Forall_singleton) Hrun) as (f & Hlife & _).
  { rewrite Hns. by vm_compute. }
  destruct (life_more _ _ _ _ [mk_Session 2 [Done; Failed 1] [(sample_envelope, sample_request l)]] _ _ _ Hlife)
    as (more & f' & Hmore).
  destruct (submission_store_keeps_acknowledged frozen_manifest frozen_sparse frozen_reference frozen_manifest_reference r Hr
    sample_path l _ _ ∅ _ _ Hrec Hl Hv
    (two_sessions (fun x => intent_wf (rq_intent x.2)) (sample_envelope, sample_request l) _ _ _ _ Hi) Hmore) as (requests & all & s' & _ & Ha & Hacks & _).
  exists l, ([receipt] ++ more), f', requests, all, s'. split; [exact Hmore|]. split; [done|]. split; [exact Hacks|exact Ha].
Defined.

Lemma stores_serve_witness :
  exists l receipt f, life (submission_store_open frozen_manifest frozen_sparse sample_path)
    (fun x => submission_store_apply frozen_manifest frozen_sparse x.1 x.2)
    (submission_store_initialize frozen_manifest frozen_sparse sample_path l)
    (mk_Session 1 [] [(sample_envelope, sample_request l)]) [] ∅ = Some ([receipt], f).
Proof.
  destruct sample_admitted as (r & l & receipt & l' & Hr & Hrec & Hns & Hi & Hrun).
  destruct sample_vacant as (Hv & Hl & Hp).
  destruct (proj2 (stores_serve frozen_manifest frozen_sparse frozen_reference frozen_manifest_reference r Hr sample_path l 1
    [(sample_envelope, sample_request l)] ∅ [receipt] l' Hrec Hl Hp Hv (tidy_empty _ _ _) (tidy_empty _ _ _) ltac:(by apply Forall_singleton)
    ltac:(by apply Forall_singleton) Hrun ltac:(rewrite Hns; by vm_compute))) as (f & Hlife & _).
  exists l, receipt, f. exact Hlife.
Defined.
