(* ===== verification/PrivateMigration.v ===== *)
(** * The migration between the stores of a private ledger

    A store changes only its own files, so a migration that is interrupted anywhere
    leaves the source as it was, and one that returns has made a target that holds
    the ledger of the source. *)

From Stdlib Require Import Strings.Byte Strings.String.
From stdpp Require Import gmap.
From S2P Require Import Prelude Arrays Reader Sha256 Types Ledger Privacy BabyBear Poseidon2 Poseidon2Facts TreeManifestFacts.
From S2P Require Import NullifierTree NullifierTreeFacts PrivateState PrivateLedger PrivateStateFacts PrivateTransitionFacts.
From S2P Require Import PrivateLedgerFacts PrivateRecord PrivateRecordFacts Crc32 Frames FramesFacts CheckpointStore.
From S2P Require Import Fips180 NoteTreeFacts ChildManifests ChildManifestFacts Disk DiskFacts PrivateJournal PrivateJournalFacts.
From S2P Require Import PrivateStore PrivateStoreFacts PrivateStoreRuns.

#[local] Opaque P24_TREE_DEPTH NULLIFIER_SPARSE_TREE_DEPTH_V1 record_bytes.

(** ** The files of a store *)

Create HintDb touches.
#[local] Hint Resolve touches_ret touches_of_result touches_of_error touches_plain_call touches_path_exists touches_write_all
  touches_open_or_create touches_create_new touches_sync_file touches_rename touches_remove_file touches_set_len
  touches_metadata_len touches_read_file : touches.

Ltac solve_touches :=
  repeat match goal with
  | |- touches _ (_ ≫= _) => apply touches_bind; [|intros ?]
  | |- touches _ (map_error _ _) => apply touches_map_error
  | |- touches _ (attempt _) => apply touches_attempt
  | |- touches _ (let '(_, _) := ?x in _) => destruct x
  | |- touches _ (match ?x with _ => _ end) => destruct x
  | |- touches _ (seek_start _) => apply touches_plain_call
  | |- touches _ (seek_end _) => apply touches_plain_call
  | |- _ => solve [auto with touches]
  end.

Section Touched.
Context `{Sha2} (tree : P24Manifest) {E : Type} (sparse : SparseManifest E) {JE B : Type} (K : StoreKind JE B).
Context (path : FileName).

(** The names a store uses. *)
Definition store_name (n : FileName) : Prop :=
  n = path \/ n = base_path path \/ n = journal_path path \/ n = lock_path path \/
  exists process sequence, n = temporary_name K path process sequence \/ n = temporary_name K (base_path path) process sequence.

Abbreviation touches_store := (touches store_name).

Lemma name_path : store_name path.
Proof. by left. Qed.

Lemma name_base : store_name (base_path path).
Proof. right. by left. Qed.

Lemma name_journal : store_name (journal_path path).
Proof. right. right. by left. Qed.

Lemma name_lock : store_name (lock_path path).
Proof. right. right. right. by left. Qed.

#[local] Hint Resolve name_path name_base name_journal name_lock : touches.

Lemma touches_scan (J : JournalKind JE B) p : touches_store (scan_recoverable_tail J p).
Proof. unfold scan_recoverable_tail, scan_file. solve_touches. Qed.

Lemma touches_recover (J : JournalKind JE B) p base : touches_store (recover_from J p base).
Proof. unfold recover_from, scan_recoverable_tail, scan_file. solve_touches. Qed.

Lemma touches_truncate (J : JournalKind JE B) t : touches_store (truncate_verified_incomplete_tail J (journal_path path) t).
Proof. unfold truncate_verified_incomplete_tail, scan_file. solve_touches. Qed.

Lemma touches_read_state p : touches_store (read_state tree sparse K p).
Proof. unfold read_state. solve_touches. Qed.

#[local] Hint Resolve touches_scan touches_recover touches_truncate touches_read_state : touches.

Lemma touches_write_and_rename t p c : store_name t -> store_name p -> touches_store (write_and_rename tree sparse K t p c).
Proof. intros Ht Hp. unfold write_and_rename, record_result. solve_touches. Qed.

Lemma touches_temporary {A : Type} p (k : FileName -> IO (PrivateStoreError E JE) A) :
  (forall process sequence, touches_store (k (temporary_name K p process sequence))) ->
  touches_store (temporary_path K p ≫= k).
Proof. intros Hk d. exact (Hk _ _ (mk_Disk (d_files d) (d_outcomes d) (d_process d) (d_sequence d + 1))). Qed.

Lemma touches_publish p s : p = path \/ p = base_path path -> touches_store (publish_state tree sparse K p s).
Proof.
  intros Hp. unfold publish_state, record_result. apply touches_bind; [auto with touches|]. intros c.
  apply touches_temporary. intros process sequence.
  assert (Hn : store_name p) by (destruct Hp as [->| ->]; auto with touches).
  assert (Ht : store_name (temporary_name K p process sequence)).
  { do 4 right. exists process, sequence. destruct Hp as [->| ->]; auto. }
  apply touches_bind; [apply touches_attempt; by apply touches_write_and_rename|]. intros x. solve_touches.
Qed.

Lemma touches_publish_path s : touches_store (publish_state tree sparse K path s).
Proof. apply touches_publish. by left. Qed.

Lemma touches_publish_base s : touches_store (publish_state tree sparse K (base_path path) s).
Proof. apply touches_publish. by right. Qed.

#[local] Hint Resolve touches_publish_path touches_publish_base : touches.

Lemma touches_journal_open : touches_store (journal_open (sk_journal K) (journal_path path)).
Proof. unfold journal_open. solve_touches. Qed.

Lemma touches_repair_tail t : touches_store (repair_tail (E := E) K (journal_path path) t).
Proof. unfold repair_tail, with_journal. solve_touches. Qed.

Lemma touches_read_base p : touches_store (read_journal_base tree sparse K p).
Proof. unfold read_journal_base. solve_touches. Qed.

#[local] Hint Resolve touches_journal_open touches_repair_tail touches_read_base : touches.

Lemma touches_recover_authoritative cache :
  touches_store (recover_authoritative_state tree sparse K (journal_path path) (base_path path) cache).
Proof. unfold recover_authoritative_state, recover_from_journal, recover_from_cache, with_journal. solve_touches. Qed.

Lemma touches_acquire_lock : touches_store (acquire_lock (E := E) K path).
Proof. unfold acquire_lock, ensure_parent. solve_touches. Qed.

#[local] Hint Resolve touches_recover_authoritative touches_acquire_lock : touches.

Lemma touches_checked {A : Type} (k : FileName -> IO (PrivateStoreError E JE) A) :
  touches_store (k path) -> touches_store (checked_path path ≫= k).
Proof. intros Hk d. specialize (Hk d). by destruct path. Qed.

(** Opening a store, creating one and preparing it change only its files. *)
Lemma touches_open : touches_store (store_open tree sparse K path).
Proof.
  unfold store_open. apply touches_checked. unfold with_journal, read_cache. solve_touches.
Qed.

Lemma touches_initialize s : touches_store (store_initialize tree sparse K path s).
Proof. unfold store_initialize. apply touches_checked. unfold with_journal, ensure_parent. solve_touches. Qed.

Lemma touches_prepare s : touches_store (prepare_journal_base tree sparse K (opened_store path s)).
Proof. unfold prepare_journal_base, with_journal, write_or_validate_journal_base. cbn [opened_store st_journal st_base_path]. solve_touches. Qed.

(** A created store is that of its path. *)
Lemma initialize_returns s d store d' : store_initialize tree sparse K path s d = (Ok store, d') -> store = opened_store path s.
Proof.
  assert (Hany : forall A (m : IO (PrivateStoreError E JE) A),
    spec storm (fun _ => True) m (fun _ _ => True) (fun _ _ => True)).
  { intros A m d0 _ _. split; [apply storm_steady|]. by destruct (m d0) as [[|] ?]. }
  assert (Hinit : spec storm (fun _ => True) (store_initialize tree sparse K path s)
    (fun store _ => store = opened_store path s) (fun _ _ => True)).
  { unfold store_initialize. eapply (spec_bind _ _ _ (fun p f => p = path /\ True)).
    { destruct path; [by apply spec_of_error|by apply spec_ret]. }
    intros p. apply spec_fact. intros ->.
    do 2 (eapply spec_bind; [apply Hany|]; intros []). eapply spec_bind; [apply Hany|]. intros [|]; [by apply spec_of_error|].
    eapply spec_bind; [apply Hany|]. intros b. eapply spec_bind; [apply Hany|]. intros [|]; [by apply spec_of_error|].
    do 2 (eapply spec_bind; [apply Hany|]; intros []). by apply spec_ret. }
  intros Hi. destruct (Hinit d (storm_steady d) I) as [_ Hr]. by rewrite Hi in Hr.
Qed.

Lemma touches_create s : touches_store (initialize_with_authenticated_base tree sparse K path s).
Proof.
  intros d. unfold initialize_with_authenticated_base. rewrite M_bind_eq. pose proof (touches_initialize s d) as Ht.
  destruct (store_initialize tree sparse K path s d) as [[store|e] d'] eqn:Hi; [|exact Ht].
  apply initialize_returns in Hi as ->. eapply agree_off_trans; [exact Ht|].
  refine (touches_bind _ _ _ (touches_prepare s) _ d'). intros x. apply touches_ret.
Qed.

Lemma touches_submissions s : touches_store (store_submissions tree sparse K (opened_store path s)).
Proof. unfold store_submissions, with_journal. cbn [opened_store st_journal st_base_path]. solve_touches. Qed.

End Touched.

(** ** The history of a store *)

Section History.
Context `{Sha2} (tree : P24Manifest) `{!P24ManifestLaws tree} {E : Type} (sparse : SparseManifest E).
Context `{!SparseManifestLaws sparse} (reference : Poseidon2P24Reference) (Hload : load_reference tree = Ok reference).
Context (r : NullifierSparseTreeReferenceV1) (Hsparse : load_sparse_reference tree sparse = Ok r).
Context {JE B : Type} (K : StoreKind JE B) (EK : EntryKind B B) (path : FileName).

Abbreviation recordable := (recordable tree sparse reference r).
Context (step : Ledger -> B -> Prop) `{!JournalLaws (sk_journal K) EK recordable step}.
Abbreviation held := (held tree sparse reference r K EK path).
Abbreviation durable := (durable tree sparse reference r K EK path).
Context (calm : Mode) (base : Ledger) (values : list B) (s : Ledger).
Abbreviation opened := (opened tree sparse reference r K EK path calm base values s None []).

(** [submissions] returns the entries of the journal. *)
Lemma spec_submissions :
  spec calm opened (store_submissions tree sparse K (opened_store path s))
    (fun x f => x = placed (jk_format (sk_journal K)) EK 0 values /\ opened f) (failing calm (fun f => durable f s)).
Proof.
  unfold store_submissions. cbn [opened_store st_journal st_base_path].
  eapply spec_bind; [apply (spec_store_scan tree sparse reference r K EK step path)|].
  intros x. apply spec_fact. intros ->. cbn [fst snd].
  destruct (placed (jk_format (sk_journal K)) EK 0 values) as [|e es] eqn:Hpl; [by apply spec_ret|].
  apply spec_opened. intros Hh Hc Hb Hs Hl. eapply spec_bind.
  { apply (spec_weaken _ opened); [|apply opened_durable].
    apply (spec_read_base tree sparse reference Hload r Hsparse K calm opened); [exact Hb|].
    intros f Hf. eapply opened_base; [exact Hf|]. by intros ->. }
  intros x. apply spec_fact. intros ->. eapply spec_bind.
  { apply spec_map_error. apply (spec_weaken _ opened); [|apply opened_durable].
    eapply (spec_recover_from (sk_journal K) EK recordable step); [|exact Hh|exact Hc]. intros f Hf. by eapply opened_journal. }
  intros x. apply spec_fact. intros ->. cbn [fst snd]. apply spec_ret. intros f Hf. by rewrite Hpl.
Qed.

(** What a store holds is in its own files. *)
Lemma held_frame N f g base' values' tail torn s' :
  (forall n, store_name K path n -> ~ N n) -> agree_off N f g ->
  held f base' values' tail torn s' -> held g base' values' tail torn s'.
Proof.
  intros HN Ha Hh. eapply held_proper; [..|exact Hh].
  - rewrite Ha; [done|]. apply HN, name_journal.
  - apply Ha, HN, name_base.
  - left. apply Ha, HN, name_path.
Qed.

Lemma durable_frame N f g s' :
  (forall n, store_name K path n -> ~ N n) -> agree_off N f g -> durable f s' -> durable g s'.
Proof. intros HN Ha (b & v & t & x & Hh). exists b, v, t, x. by eapply held_frame. Qed.

Lemma vacant_frame N f g : (forall n, store_name K path n -> ~ N n) -> agree_off N f g -> vacant path f -> vacant path g.
Proof.
  intros HN Ha (H1 & H2 & H3). unfold vacant.
  rewrite !Ha; [done|apply HN, name_journal|apply HN, name_base|apply HN, name_path].
Qed.

Lemma tidy_frame N f g process :
  (forall n, store_name K path n -> ~ N n) -> agree_off N f g -> tidy K path process f -> tidy K path process g.
Proof.
  intros HN Ha Ht sequence. destruct (Ht sequence) as [H1 H2]. split; rewrite Ha; try done; apply HN;
    do 4 right; exists process, sequence; auto.
Qed.

End History.

(** ** The migration *)

Section Migration.
Context `{Sha2} (tree : P24Manifest) `{!P24ManifestLaws tree} {E : Type} (sparse : SparseManifest E).
Context `{!SparseManifestLaws sparse} (reference : Poseidon2P24Reference) (Hload : load_reference tree = Ok reference).
Context (r : NullifierSparseTreeReferenceV1) (Hsparse : load_sparse_reference tree sparse = Ok r).

Abbreviation recordable := (recordable tree sparse reference r).
Abbreviation K1 := (state_store tree sparse).
Abbreviation K2 := (submission_store tree sparse).
Abbreviation EK1 := (state_kind tree sparse reference r).
Abbreviation EK2 := (submission_kind tree sparse reference r).
#[local] Instance source_laws : JournalLaws (sk_journal K1) EK1 recordable (fun _ _ => True) :=
  state_laws tree sparse reference Hload r Hsparse.
#[local] Instance target_laws : JournalLaws (sk_journal K2) EK2 recordable submission_step :=
  submission_laws tree sparse reference Hload r Hsparse.

Context (source target : FileName) (Hapart : forall n, store_name K1 source n -> store_name K2 target n -> False).
Abbreviation source_holds := (durable tree sparse reference r K1 EK1 source).
Abbreviation target_holds := (durable tree sparse reference r K2 EK2 target).
Abbreviation target_opened calm base values s := (opened tree sparse reference r K2 EK2 target calm base values s None []).
Abbreviation TE := (PrivateStoreError E (PrivateSubmissionJournalError E)).

Section Run.
Context (calm : Mode) (s : Ledger).
Abbreviation kept := (fun f : Files => source_holds f s).
Abbreviation free := (fun f : Files => vacant target f /\ (is_calm calm = true -> tidy K2 target (md_process calm) f)).

Lemma kept_frame f g : agree_off (store_name K2 target) f g -> kept f -> kept g.
Proof. apply durable_frame. intros n H1 H2. by apply (Hapart n). Qed.

Lemma free_frame f g : agree_off (store_name K1 source) f g -> free f -> free g.
Proof.
  intros Ha [Hv Ht]. assert (Hn : forall n, store_name K2 target n -> ~ store_name K1 source n) by (intros n H1 H2; by apply (Hapart n)).
  split; [by eapply vacant_frame|]. intros Hc. eapply tidy_frame; [exact Hn|exact Ha|by apply Ht].
Qed.

(** An operation on the target keeps the source. *)
Lemma spec_on_target {A : Type} (m : IO TE A) (P : Files -> Prop) (Q : A -> Files -> Prop) (I : Files -> Prop) :
  touches (store_name K2 target) m -> spec calm P m Q (failing calm I) ->
  spec calm (fun f => kept f /\ P f) (map_error (@TargetError E) m) (fun a f => kept f /\ Q a f) (failing calm kept).
Proof.
  intros Ht Hm. apply spec_map_error. eapply spec_conseq; [exact (spec_frame calm _ kept P m Q _ Ht kept_frame Hm)|done|done|].
  intros e f [Hk [Hc _]]. by split.
Qed.

Lemma spec_open_source base values tail torn :
  (is_calm calm = true -> source <> []) ->
  spec calm (fun f => free f /\ closed tree sparse reference r K1 EK1 source calm base values tail torn s f)
    (map_error (@SourceError E) (state_store_open tree sparse source))
    (fun store f => store = opened_store source s /\ kept f /\ free f) (failing calm kept).
Proof.
  intros Hp. apply spec_map_error.
  pose proof (spec_store_open tree sparse reference Hload r Hsparse K1 EK1 (fun _ _ => True) source calm base values tail torn s Hp)
    as Hopen.
  eapply spec_conseq.
  - exact (spec_frame calm (store_name K1 source) free _ _ _ _ (touches_open tree sparse K1 source) free_frame Hopen).
  - done.
  - intros store f (Hf & -> & Ho). split; [done|]. split; [by eapply opened_durable|exact Hf].
  - intros e f [_ Hk]. exact Hk.
Qed.

(** Creating the target with its base. *)
Lemma spec_create_target :
  recordable s -> lock_path target <> target -> (is_calm calm = true -> target <> []) ->
  spec calm free (initialize_with_authenticated_base tree sparse K2 target s)
    (fun _ => target_opened calm s [] s) (failing calm (fun _ => True)).
Proof.
  intros Hs Hl Hp. unfold initialize_with_authenticated_base. eapply spec_bind.
  { eapply spec_weaken; [by apply (spec_store_initialize tree sparse reference Hload r Hsparse K2 EK2 submission_step target)|done]. }
  intros store. apply spec_fact. intros ->. eapply spec_bind.
  { eapply spec_weaken; [by apply (spec_prepare tree sparse reference Hload r Hsparse K2 EK2 submission_step target)|done]. }
  intros []. apply spec_ret. by intros f [Ho _].
Qed.

Lemma spec_reopen_target :
  (is_calm calm = true -> target <> []) ->
  spec calm (target_opened calm s [] s) (submission_store_open tree sparse target)
    (fun store f => store = opened_store target s /\ target_opened calm s [] s f) (failing calm (fun f => target_holds f s)).
Proof.
  intros Hp. pose proof (spec_store_open tree sparse reference Hload r Hsparse K2 EK2 submission_step target calm s [] None [] s Hp)
    as Hopen.
  eapply spec_pre; [exact Hopen|]. intros f (Hh & _ & Ht). by split.
Qed.

(** The target is made from the source. *)
Lemma spec_migrate base values tail torn :
  recordable s -> lock_path target <> target -> (is_calm calm = true -> source <> [] /\ target <> []) ->
  spec calm (fun f => free f /\ closed tree sparse reference r K1 EK1 source calm base values tail torn s f)
    (migrate_private_state_store_v1_to_submission_store_v2 tree sparse source target)
    (fun receipt f => receipt = mk_PrivateSubmissionMigrationReceiptV1 (state_id s) (state_id s) /\ kept f /\
       target_opened calm s [] s f)
    (failing calm kept).
Proof.
  intros Hs Hl Hp. unfold migrate_private_state_store_v1_to_submission_store_v2.
  rewrite bool_decide_false.
  2: { intros He. apply (Hapart source); [apply name_path|]. rewrite He. apply name_path. }
  eapply spec_bind; [apply spec_open_source; intros Hc; by apply Hp|]. intros store. apply spec_fact. intros ->.
  cbn [opened_store st_state].
  eapply spec_bind.
  { exact (spec_on_target _ _ _ _ (touches_create tree sparse K2 target s)
      (spec_create_target Hs Hl (fun Hc => proj2 (Hp Hc)))). }
  intros store. eapply spec_bind.
  { exact (spec_on_target _ _ _ _ (touches_open tree sparse K2 target) (spec_reopen_target (fun Hc => proj2 (Hp Hc)))). }
  intros reopened. apply (spec_pre _ (fun f => reopened = opened_store target s /\ kept f /\ target_opened calm s [] s f)).
  2: { intros f (Hk & -> & Ho). done. }
  apply spec_fact. intros ->. cbn [opened_store st_state]. rewrite bool_decide_true by done. cbn [negb].
  eapply spec_bind.
  { exact (spec_on_target _ _ _ _ (touches_submissions tree sparse K2 target s)
      (spec_submissions tree sparse reference Hload r Hsparse K2 EK2 target submission_step calm s [] s)). }
  intros entries. apply (spec_pre _ (fun f => entries = [] /\ kept f /\ target_opened calm s [] s f)).
  2: { intros f (Hk & -> & Ho). done. }
  apply spec_fact. intros ->. by apply spec_ret.
Qed.

End Run.
(** C22: the migration from the version 1 store to version 2.  Over any failures, and
    wherever the process ends, the source still holds its ledger.  If the migration
    returns, its receipt names that ledger twice and the target holds it.  With every
    call done it returns. *)
Theorem migration_preserves s d :
  source <> [] -> target <> [] -> lock_path target <> target -> source_holds (d_files d) s -> vacant target (d_files d) ->
  let '(result, d') := migrate_private_state_store_v1_to_submission_store_v2 tree sparse source target d in
  let receipt := mk_PrivateSubmissionMigrationReceiptV1 (state_id s) (state_id s) in
  reopens (state_store_open tree sparse source) K1 source (d_files d') s /\
  match result with
  | Ok x => x = receipt /\ reopens (submission_store_open tree sparse target) K2 target (d_files d') s
  | Err _ => True
  end /\
  (d_outcomes d = [] -> tidy K1 source (d_process d) (d_files d) -> tidy K2 target (d_process d) (d_files d) -> result = Ok receipt).
Proof.
  intros Hsp Htp Hl (base & values & tail & torn & Hh) Hv. pose proof (hd_state _ _ _ _ _ _ _ _ _ _ _ _ _ Hh) as Hs.
  pose proof (fun calm => spec_migrate calm s base values tail torn Hs Hl (fun _ => conj Hsp Htp) d) as Hm.
  destruct (migrate_private_state_store_v1_to_submission_store_v2 tree sparse source target d) as [result d'].
  destruct (Hm storm (storm_steady d)) as [_ Hany]; [by split|]. cbn [fst snd] in *. split; [|split].
  - assert (Hk : source_holds (d_files d') s) by (destruct result as [x|e]; [exact (proj1 (proj2 Hany))|exact (proj2 Hany)]).
    exact (durable_reopens tree sparse reference Hload r Hsparse K1 EK1 (fun _ _ => True) source _ _ Hsp Hk).
  - destruct result as [x|e]; [|done]. destruct Hany as (-> & _ & Ho). split; [done|].
    assert (Hk : target_holds (d_files d') s) by (by eapply opened_durable).
    exact (durable_reopens tree sparse reference Hload r Hsparse K2 EK2 submission_step target _ _ Htp Hk).
  - intros Hout Ht1 Ht2. destruct (Hm (still (d_process d))) as [_ Hr]; [by intros _|by split|]. cbn [fst snd] in Hr.
    destruct result as [x|e]; [|by destruct Hr]. by destruct Hr as [-> _].
Qed.

End Migration.

(** ** Opening a store that is not there *)

Section Missing.
Context `{Sha2} (tree : P24Manifest) `{!P24ManifestLaws tree} {E : Type} (sparse : SparseManifest E).
Context `{!SparseManifestLaws sparse} (reference : Poseidon2P24Reference) (Hload : load_reference tree = Ok reference).
Context (r : NullifierSparseTreeReferenceV1) (Hsparse : load_sparse_reference tree sparse = Ok r).
Context {JE B : Type} (K : StoreKind JE B) (EK : EntryKind B B) (path : FileName) (process : Z).

Abbreviation recordable := (recordable tree sparse reference r).
Context (step : Ledger -> B -> Prop) `{!JournalLaws (sk_journal K) EK recordable step}.
Context (Hpath : path <> []) (Hlock : lock_path path <> path).

Abbreviation StoreError := (PrivateStoreError E JE).
Abbreviation calm := (still process).

(** Only the journal is there, and it is empty. *)
Definition blocked (f : Files) : Prop :=
  f !! path = None /\ f !! base_path path = None /\ f !! journal_path path = Some [].

Lemma spec_calm {A : Type} (P : Files -> Prop) (m : IO StoreError A) Q I R :
  spec calm P m Q (failing calm I) -> spec calm P m Q R.
Proof. intros Hm. eapply spec_conseq; [exact Hm|done|done|]. by intros e f [Hc _]. Qed.

Abbreviation missing := (fun f : Files => vacant path f /\ (is_calm calm = true -> tidy K path process f)).

Lemma empty_history s : history (sk_journal K) EK s [].
Proof. split; [by apply Forall_nil_2|done|apply jl_recover_nil]. Qed.

(** The error is that of the cache; the journal is left behind. *)
Lemma spec_open_missing (s : Ledger) :
  spec calm missing (store_open tree sparse K path)
    (fun _ _ => False) (fun e f => (exists error, e = Error error) /\ blocked f).
Proof.
  unfold store_open. eapply (spec_bind _ _ _ (fun p f => p = path /\ missing f)).
  { destruct path; [done|]. by apply spec_ret. }
  intros p. apply spec_fact. intros ->. eapply spec_bind.
  { eapply spec_calm. exact (spec_first_lock tree sparse reference r K EK path calm s Hlock). }
  intros []. eapply (spec_bind _ _ _ (fun _ => blocked)).
  { apply (spec_calm _ _ _ (fun _ => True)), spec_map_error, spec_os_call; [|done]. intros f [(H1 & H2 & H3) _]. rewrite H3. unfold blocked.
    by rewrite lookup_insert_eq, !lookup_insert_ne by auto using base_not_journal, journal_not_path, not_eq_sym. }
  intros []. eapply (spec_bind _ _ _ (fun x f => x = ([], None) /\ blocked f)).
  { eapply spec_calm, spec_map_error.
    apply (spec_scan (sk_journal K) EK recordable step calm (journal_path path) blocked [] ltac:(by intros f (_ & _ & Hj)) s [] None []).
    - apply empty_history.
    - by split. }
  intros x. apply spec_fact. intros ->. cbn [fst last]. rewrite bool_decide_false by by intros []. unfold read_cache.
  eapply (spec_bind _ _ _ (fun _ _ => False)); [|by intros x d _ []].
  eapply (spec_bind _ _ _ (fun _ _ => False)); [|by intros x d _ []]. unfold read_state.
  eapply (spec_bind _ _ _ (fun _ _ => False)); [|by intros x d _ []].
  eapply spec_conseq; [apply (spec_metadata_len calm blocked)|done| |].
  - intros n f ((H1 & _) & c & Hc & _). by rewrite H1 in Hc.
  - intros e f [Hf He]. split; [|done]. destruct (He eq_refl) as [-> _]. by eexists.
Qed.

Lemma spec_initialize_blocked (s : Ledger) :
  spec calm blocked (store_initialize tree sparse K path s) (fun _ _ => False)
    (fun e f => e = Error (StErr.UnexpectedSidecar path (base_path path) (journal_path path)) /\ blocked f).
Proof.
  unfold store_initialize. eapply (spec_bind _ _ _ (fun p f => p = path /\ blocked f)).
  { destruct path; [done|]. by apply spec_ret. }
  intros p. apply spec_fact. intros ->.
  assert (Hplain : forall e : StoreError, spec calm blocked (plain_call e) (fun _ => blocked) (fun e f => e = Error (StErr.UnexpectedSidecar path (base_path path) (journal_path path)) /\ blocked f)).
  { intros e. eapply spec_calm, spec_plain_call. }
  eapply spec_bind; [apply Hplain|]. intros []. eapply (spec_bind _ _ _ (fun _ => blocked)).
  { unfold acquire_lock, ensure_parent. eapply spec_bind; [apply Hplain|]. intros [].
    eapply (spec_bind _ _ _ (fun _ => blocked)); [|intros []; apply Hplain].
    apply spec_os_call; [|done]. intros f (H1 & H2 & H3). destruct (f !! lock_path path); [done|]. unfold blocked.
    by rewrite !lookup_insert_ne by auto using lock_not_base, lock_not_journal. }
  intros []. assert (Hex : forall p b, (forall f, blocked f -> bool_decide (is_Some (f !! p)) = b) ->
    spec calm blocked (path_exists (E := StoreError) p) (fun x f => x = b /\ blocked f)
      (fun e f => e = Error (StErr.UnexpectedSidecar path (base_path path) (journal_path path)) /\ blocked f)).
  { intros p b Hb. eapply spec_conseq; [eapply spec_calm, (spec_path_exists calm blocked p)|done| |by intros e f Hf; exact Hf].
    intros x f (Hf & _ & Hx). split; [|done]. rewrite (Hx eq_refl). by apply Hb. }
  eapply spec_bind; [apply (Hex path false); intros f (H1 & _); by rewrite H1|]. intros x. apply spec_fact. intros ->.
  eapply spec_bind; [apply (Hex (base_path path) false); intros f (_ & H1 & _); by rewrite H1|]. intros x. apply spec_fact. intros ->.
  eapply spec_bind; [apply (Hex (journal_path path) true); intros f (_ & _ & H1); by rewrite H1|]. intros x. apply spec_fact. intros ->.
  by apply spec_of_error.
Qed.

End Missing.

Section Blocking.
Context `{Sha2} (tree : P24Manifest) `{!P24ManifestLaws tree} {E : Type} (sparse : SparseManifest E).
Context `{!SparseManifestLaws sparse} (reference : Poseidon2P24Reference) (Hload : load_reference tree = Ok reference).
Context (r : NullifierSparseTreeReferenceV1) (Hsparse : load_sparse_reference tree sparse = Ok r).

(** For either store. *)
Lemma open_then_initialize {JE B : Type} (K : StoreKind JE B) (EK : EntryKind B B) (step : Ledger -> B -> Prop)
    `{!JournalLaws (sk_journal K) EK (recordable tree sparse reference r) step} path s d :
  path <> [] -> lock_path path <> path -> vacant path (d_files d) -> d_outcomes d = [] -> tidy K path (d_process d) (d_files d) ->
  exists error d', store_open tree sparse K path d = (Err (Error error), d') /\ d_files d' !! path = None /\
    (store_initialize tree sparse K path s d').1 =
      Err (Error (StErr.UnexpectedSidecar path (base_path path) (journal_path path))).
Proof.
  intros Hp Hl Hv Ho Ht. assert (Hd : steady (still (d_process d)) d) by by intros _.
  destruct (spec_open_missing tree sparse reference r K EK path (d_process d) step Hp Hl s d Hd) as [Hd' Hr]; [by split|].
  destruct (store_open tree sparse K path d) as [[store|e] d']; [done|]. cbn [fst snd] in Hd', Hr.
  destruct Hr as [[error ->] Hb]. exists error, d'. split; [done|]. split; [apply Hb|].
  destruct (spec_initialize_blocked tree sparse K path (d_process d) Hp Hl s d' Hd' Hb) as [_ Hi].
  destruct (store_initialize tree sparse K path s d') as [[store|e] d'']; [done|]. by destruct Hi as [-> _].
Qed.

(** C40: opening a store that is not there leaves an empty journal behind, and no
    store can be created at that path afterwards: the initialization takes the
    journal for a sidecar of a lost record, although no record was ever there. *)
Theorem failed_open_blocks_initialize path s d :
  path <> [] -> lock_path path <> path -> vacant path (d_files d) -> d_outcomes d = [] ->
  (tidy (state_store tree sparse) path (d_process d) (d_files d) ->
   exists error d', state_store_open tree sparse path d = (Err (Error error), d') /\ d_files d' !! path = None /\
     (state_store_initialize tree sparse path s d').1 =
       Err (Error (StErr.UnexpectedSidecar path (base_path path) (journal_path path)))) /\
  (tidy (submission_store tree sparse) path (d_process d) (d_files d) ->
   exists error d', submission_store_open tree sparse path d = (Err (Error error), d') /\ d_files d' !! path = None /\
     (submission_store_initialize tree sparse path s d').1 =
       Err (Error (StErr.UnexpectedSidecar path (base_path path) (journal_path path)))).
Proof.
  intros Hp Hl Hv Ho. split; intros Ht.
  - pose proof (state_laws tree sparse reference Hload r Hsparse) as Hlaws.
    exact (open_then_initialize (state_store tree sparse) _ _ path s d Hp Hl Hv Ho Ht).
  - pose proof (submission_laws tree sparse reference Hload r Hsparse) as Hlaws.
    exact (open_then_initialize (submission_store tree sparse) _ _ path s d Hp Hl Hv Ho Ht).
Qed.

End Blocking.

(** ** Over the checked-in manifests *)

#[local] Existing Instance fips_sha2.

Lemma failed_open_blocks_initialize_witness :
  exists s d, vacant sample_path (d_files d) /\
    exists error d', state_store_open frozen_manifest frozen_sparse sample_path d = (Err (Error error), d') /\
      (state_store_initialize frozen_manifest frozen_sparse sample_path s d').1 =
        Err (Error (StErr.UnexpectedSidecar sample_path (base_path sample_path) (journal_path sample_path))).
Proof.
  destruct sample_record as (r & l & Hr & _). destruct sample_vacant as (Hv & Hl & Hp). exists l, (mk_Disk ∅ [] 1 0).
  split; [exact Hv|].
  destruct (proj1 (failed_open_blocks_initialize frozen_manifest frozen_sparse frozen_reference frozen_manifest_reference r Hr
    sample_path l (mk_Disk ∅ [] 1 0) Hp Hl Hv eq_refl) (tidy_empty _ _ _)) as (error & d' & Ho & _ & Hi).
  exists error, d'. split; [exact Ho|exact Hi].
Defined.

(** The names of a store begin like its path. *)
Lemma name_head {JE B : Type} (K : StoreKind JE B) path n b :
  head path = Some b -> head (file_split path).1 = Some b -> head (file_split (base_path path)).1 = Some b ->
  store_name K path n -> head n = Some b.
Proof.
  intros Hp Hs Hb. assert (Hext : forall p x, head (file_split p).1 = Some b -> head (with_extension p x) = Some b).
  { intros p x Hh. unfold with_extension. by destruct (file_split p).1. }
  intros [->|[->|[->|[->|(process & sequence & [->| ->])]]]]; [exact Hp|by apply Hext..].
Qed.

Definition sample_target : FileName := bytes_of_string "new.nxpr".

Lemma sample_apart {JE JE' B B' : Type} (K : StoreKind JE B) (K' : StoreKind JE' B') n :
  store_name K sample_path n -> store_name K' sample_target n -> False.
Proof.
  intros H1 H2. apply (name_head K sample_path n x6c) in H1; [|by vm_compute..].
  apply (name_head K' sample_target n x6e) in H2; [|by vm_compute..]. congruence.
Qed.

(** A store is created, and a migration of it ends in its tenth call. *)
Lemma migration_preserves_witness :
  exists s d, vacant sample_target (d_files d) /\ d_outcomes d = [Done; Done; Done; Done; Done; Done; Done; Done; Done; Crashed 0] /\
    let '(_, d') := migrate_private_state_store_v1_to_submission_store_v2 frozen_manifest frozen_sparse sample_path sample_target d in
    reopens (state_store_open frozen_manifest frozen_sparse sample_path) (state_store frozen_manifest frozen_sparse) sample_path
      (d_files d') s.
Proof.
  destruct sample_record as (r & l & Hr & _ & Hrec & _). destruct sample_vacant as (Hv & Hl & Hp).
  set (K1 := state_store frozen_manifest frozen_sparse). set (EK1 := state_kind frozen_manifest frozen_sparse frozen_reference r).
  pose proof (state_laws frozen_manifest frozen_sparse frozen_reference frozen_manifest_reference r Hr) as Hlaws.
  set (d0 := mk_Disk ∅ [] 1 0).
  destruct (spec_store_initialize frozen_manifest frozen_sparse frozen_reference frozen_manifest_reference r Hr K1 EK1 (fun _ _ => True)
    sample_path (still 1) l Hrec Hl (fun _ => Hp) d0 (fun _ => conj eq_refl eq_refl) (conj Hv (fun _ => tidy_empty _ _ _))) as [_ Hi].
  pose proof (touches_initialize frozen_manifest frozen_sparse K1 sample_path l d0) as Ht.
  destruct (store_initialize frozen_manifest frozen_sparse K1 sample_path l d0) as [[store|e] d1]; [|by destruct Hi].
  destruct Hi as [_ Ho]. cbn [fst snd] in Ho, Ht.
  set (d := mk_Disk (d_files d1) [Done; Done; Done; Done; Done; Done; Done; Done; Done; Crashed 0] 2 0).
  assert (Hv' : vacant sample_target (d_files d)).
  { apply (vacant_frame (submission_store frozen_manifest frozen_sparse) sample_target (store_name K1 sample_path) ∅);
      [intros n H1 H2; by apply (sample_apart _ _ n H2 H1)|exact Ht|by vm_compute]. }
  exists l, d. split; [exact Hv'|]. split; [reflexivity|].
  pose proof (migration_preserves frozen_manifest frozen_sparse frozen_reference frozen_manifest_reference r Hr sample_path
    sample_target (sample_apart _ _) l d Hp ltac:(by vm_compute) ltac:(by vm_compute) (opened_durable _ _ _ _ _ _ _ _ _ _ _ _ _ _ Ho) Hv')
    as Hm.
  destruct (migrate_private_state_store_v1_to_submission_store_v2 frozen_manifest frozen_sparse sample_path sample_target d) as [result d'].
  exact (proj1 Hm).
Defined.
