(* ===== verification/NoteHashes.v ===== *)
(** * The hashes of private notes ([noxis-poseidon2-privacy-reference])

    Fixed-arity byte interfaces over the dense Poseidon2 evaluator: the recipient of
    a key, the commitment and the nullifier of a note, the commitment to an intent
    and the digest of an envelope frame.  Bytes are packed three to a field element.
    The artifacts below the tree candidate are read through [PrivacyManifest].  The
    preimages of 178 and of 132 bytes are lists, their width is the one the domain
    requires.  An error [None] is a panic. *)

From Stdlib Require Import Strings.Byte.
From S2P Require Import Prelude Arrays Sha256 BabyBear Privacy Poseidon2 TreeManifest NullifierTree ChildManifests.

Definition IntentCommitmentError : Type := ChildCandidateError NoteDomainsError unit.

Module Poseidon2P24PrivacyReferenceError.
Inductive Poseidon2P24PrivacyReferenceError : Type :=
| TreeReference (error : Poseidon2P24ReferenceError)
| Candidate (error : NoteDomainsError)
| IntentCandidate (error : IntentCommitmentError)
| EnvelopeDigestCandidate (error : Poseidon2P24EnvelopeDigestCandidateError)
| PrivacyTypes (error : PrivacyTypesError)
| InvalidInputLength (domain : Poseidon2P24NoteDomainV1) (actual expected : Z)
| InvalidEnvelopeDigestFrameLength (actual minimum maximum : Z).
End Poseidon2P24PrivacyReferenceError.
Abbreviation Poseidon2P24PrivacyReferenceError := Poseidon2P24PrivacyReferenceError.Poseidon2P24PrivacyReferenceError.

Module PrErr := Poseidon2P24PrivacyReferenceError.

(** What the evaluator reads of the artifacts below the tree candidate. *)
Record PrivacyManifest : Type := mk_PrivacyManifest {
  note_domains_encode : Result (option NoteDomainsError) (list byte);
  note_domains_iv : Poseidon2P24NoteDomainV1 -> Result (option NoteDomainsError) (list Z);
  intent_commitment_encode : Result (option IntentCommitmentError) (list byte);
  intent_commitment_iv : Result (option IntentCommitmentError) (list Z);
  envelope_digest_id : Result (option Poseidon2P24EnvelopeDigestCandidateError) (array 32);
  envelope_digest_iv : Result (option Poseidon2P24EnvelopeDigestCandidateError) (list Z)
}.

(** The artifacts of the repository. *)
Definition privacy_manifest `{Sha2} (tree_embedded : option (list byte)) (tree_derived : P24TreeDomain -> list Z)
    (nxph_embedded nxic_embedded : option (list byte)) : PrivacyManifest := {|
  note_domains_encode := parent_encode (nxph_parent tree_embedded tree_derived nxph_embedded);
  note_domains_iv := nxph_iv tree_embedded tree_derived nxph_embedded;
  intent_commitment_encode := nxic_encode tree_embedded tree_derived nxph_embedded nxic_embedded;
  intent_commitment_iv := nxic_iv tree_embedded tree_derived nxph_embedded nxic_embedded IntentDomain.Intent;
  envelope_digest_id := envelope_candidate_id tree_embedded tree_derived nxph_embedded;
  envelope_digest_iv := envelope_iv tree_embedded tree_derived nxph_embedded
|}.

(** ** Packing *)

Definition byte_pack3le_variable (input : list byte) : list Z := pack_chunk <$> chunks P24_BYTE_PACK_WIDTH input.

Definition byte_pack3le_fixed {E} (input : list byte) (expected_bytes : Z) : Result (option E) (list Z) :=
  if negb (len input =? expected_bytes) then Err None else Ok (byte_pack3le_variable input).

(** [Poseidon2P24PrivacyReference::byte_pack3le]. *)
Definition byte_pack3le (domain : Poseidon2P24NoteDomainV1) (input : list byte)
    : Result (option Poseidon2P24PrivacyReferenceError) (list Z) :=
  if negb (len input =? note_input_bytes domain)
  then Err (Some (PrErr.InvalidInputLength domain (len input) (note_input_bytes domain)))
  else Ok (byte_pack3le_variable input).

(** ** The evaluator *)

Record Poseidon2P24PrivacyReference : Type := mk_Poseidon2P24PrivacyReference {
  pr_permutation : Poseidon2P24Reference
}.

Section Evaluator.
Context (tree : P24Manifest) (privacy : PrivacyManifest).

Abbreviation PrivacyError := (option Poseidon2P24PrivacyReferenceError).

(** [Poseidon2P24PrivacyReference::load_candidate]. *)
Definition load_privacy_reference : Result PrivacyError Poseidon2P24PrivacyReference :=
  _ ← map_err (option_map PrErr.Candidate) (note_domains_encode privacy);
  _ ← map_err (option_map PrErr.IntentCandidate) (intent_commitment_encode privacy);
  _ ← map_err (option_map PrErr.EnvelopeDigestCandidate) (envelope_digest_id privacy);
  reference ← map_err (fun e => Some (PrErr.TreeReference e)) (load_reference tree);
  Ok (mk_Poseidon2P24PrivacyReference reference).

Context (self : Poseidon2P24PrivacyReference).

Definition privacy_permute (state : list Z) : Result PrivacyError (list Z) :=
  map_err (fun e => Some (PrErr.TreeReference e)) (reference_permutation (pr_permutation self) state).

(** [hash_elements]: absorb the blocks, squeeze fifteen elements and one more. *)
Definition hash_elements (elements iv : list Z) : Result PrivacyError BabyBearDigestV2 :=
  state ← try_fold (fun state block => privacy_permute (absorb_block field_add state block)) (replicate P24_RATE 0 ++ iv)
            (chunks P24_RATE elements);
  next ← privacy_permute state;
  Ok (take P24_RATE state ++ take 1 next).

Definition privacy_hash_bytes (domain : Poseidon2P24NoteDomainV1) (input : list byte) : Result PrivacyError BabyBearDigestV2 :=
  elements ← byte_pack3le domain input;
  iv ← map_err (option_map PrErr.Candidate) (note_domains_iv privacy domain);
  hash_elements elements iv.

Definition hash_addr (nullifier_key : array 32) : Result PrivacyError BabyBearDigestV2 :=
  privacy_hash_bytes NoteDomain.Addr (arr nullifier_key).

Definition hash_note (note_preimage : list byte) : Result PrivacyError BabyBearDigestV2 :=
  privacy_hash_bytes NoteDomain.Note note_preimage.

Definition hash_nullifier_preimage (nullifier_preimage : list byte) : Result PrivacyError BabyBearDigestV2 :=
  privacy_hash_bytes NoteDomain.Nullifier nullifier_preimage.

(** [hash_intent_encoding]. *)
Definition hash_intent_encoding (input : list byte) : Result PrivacyError BabyBearDigestV2 :=
  elements ← byte_pack3le_fixed input P24_INTENT_COMMITMENT_INPUT_BYTES;
  iv ← map_err (option_map PrErr.IntentCandidate) (intent_commitment_iv privacy);
  hash_elements elements iv.

Definition hash_private_transfer_intent (intent : PrivateTransferIntentV2) : Result PrivacyError Vector :=
  digest ← hash_intent_encoding (intent_encode intent);
  map_err (option_map PrErr.PrivacyTypes) (from_elements digest).

Definition hash_recipient_envelope_digest_frame (frame : list byte) : Result PrivacyError BabyBearDigestV2 :=
  if negb ((P24_ENVELOPE_DIGEST_MIN_INPUT_BYTES <=? len frame) && (len frame <=? P24_ENVELOPE_DIGEST_MAX_INPUT_BYTES))
  then Err (Some (PrErr.InvalidEnvelopeDigestFrameLength (len frame) P24_ENVELOPE_DIGEST_MIN_INPUT_BYTES
                    P24_ENVELOPE_DIGEST_MAX_INPUT_BYTES))
  else
    iv ← map_err (option_map PrErr.EnvelopeDigestCandidate) (envelope_digest_iv privacy);
    hash_elements (byte_pack3le_variable frame) iv.

End Evaluator.
