(* ===== verification/NoteHashesFacts.v ===== *)
(** * Facts about the hashes of private notes

    Packing bytes is injective at a fixed length and gives canonical elements, so over
    a loaded evaluator every hash of an input of the right length is total and
    canonical.  The artifacts of the repository satisfy what this relies on. *)

From Stdlib Require Import Strings.Byte.
From S2P Require Import Prelude Arrays Sha256 BabyBear Privacy Poseidon2 Poseidon2Facts Fips180.
From S2P Require Import TreeManifest P24Parameters Poseidon2Frozen TreeManifestFacts NullifierTree NullifierTreeFacts ChildManifests ChildManifestFacts NoteHashes.

(** ** Packing *)

Lemma lor_shifted k a b : 0 <= k -> 0 <= a < 2 ^ k -> Z.lor a (Z.shiftl b k) = a + 2 ^ k * b.
Proof.
  intros Hk Ha. rewrite (Z.mul_comm (2 ^ k)), <-Z.shiftl_mul_pow2 by done. symmetry. apply Z.add_nocarry_lor.
  apply Z.bits_inj'. intros n Hn. rewrite Z.land_spec, Z.bits_0, Z.shiftl_spec by done.
  destruct (Z.lt_ge_cases n k); [by rewrite (Z.testbit_neg_r b (n - k)), andb_false_r by lia|].
  by rewrite <-(Z.mod_small a (2 ^ k)), Z.mod_pow2_bits_high by lia.
Qed.

(** A group is the little-endian value of its bytes. *)
Lemma pack_chunk_le chunk : (length chunk <= 3)%nat -> pack_chunk chunk = from_le_bytes chunk.
Proof.
  intros Hl. unfold from_le_bytes, pack_chunk.
  destruct chunk as [|a [|b [|c [|]]]]; cbn in Hl; try lia; cbn -[Z.lor Z.shiftl Z.pow Z.mul Z.add]; [done|..].
  - pose proof (Z_of_byte_range a). rewrite Z.lor_0_l, Z.shiftl_0_r. lia.
  - pose proof (Z_of_byte_range a). rewrite Z.lor_0_l, Z.shiftl_0_r, lor_shifted by lia. cbn. lia.
  - pose proof (Z_of_byte_range a). pose proof (Z_of_byte_range b).
    rewrite Z.lor_0_l, Z.shiftl_0_r, (lor_shifted 8), lor_shifted by (cbn; lia). cbn. lia.
Qed.

Lemma pack_chunk_inj a b :
  length a = length b -> (length a <= 3)%nat -> pack_chunk a = pack_chunk b -> a = b.
Proof.
  intros Hl H3 Hp. rewrite !pack_chunk_le in Hp by lia.
  by rewrite <-(to_from_le_bytes a), <-(to_from_le_bytes b), Hl, Hp.
Qed.

Lemma packed_inj fuel a b :
  length a = length b -> (length a <= fuel)%nat ->
  pack_chunk <$> chunks_loop fuel 3 a = pack_chunk <$> chunks_loop fuel 3 b -> a = b.
Proof.
  revert a b. induction fuel as [|fuel IH]; intros [|x a] [|y b] Hl Hf; try (cbn in *; lia); [done..|].
  cbn [chunks_loop]. rewrite !fmap_cons. intros Heq. apply (inj2 cons) in Heq as [Hhead Htail].
  apply pack_chunk_inj in Hhead; [|rewrite !length_take; lia|rewrite length_take; lia].
  apply IH in Htail; [|rewrite !length_drop; lia|rewrite length_drop; cbn in *; lia].
  by rewrite <-(take_drop 3 (x :: a)), <-(take_drop 3 (y :: b)), Hhead, Htail.
Qed.

Lemma byte_pack3le_inj a b :
  length a = length b -> byte_pack3le_variable a = byte_pack3le_variable b -> a = b.
Proof. intros Hl. unfold byte_pack3le_variable, chunks. rewrite <-Hl. by apply packed_inj. Qed.

(** ** Sampled vectors *)

Lemma sample_progress `{Sha2} preimage depth accepted counter accepted' counter' :
  sample preimage depth accepted counter = Some (accepted', counter') ->
  Forall element_wf accepted -> (length accepted <= IV_ELEMENTS)%nat ->
  Forall element_wf accepted' /\ (length accepted' <= IV_ELEMENTS)%nat /\
  (counter' <= U32_MAX \/ counter' = counter) /\
  ((IV_ELEMENTS <= length accepted')%nat \/ counter' = counter + 2 ^ Z.of_nat depth).
Proof.
  revert accepted counter accepted' counter'.
  induction depth as [|depth IH]; intros acc c acc' c'; cbn [sample];
    (destruct (Nat.leb_spec IV_ELEMENTS (length acc)) as [Hfull|Hmore]; [intros [= <- <-]; tauto|]).
  - destruct (checked_add U32_MAX c 1) as [c1|] eqn:Hc; cbn; [|done]. apply checked_add_Some in Hc as [-> Hc].
    intros [= <- <-] Hacc Hl. unfold accept_words. split; [|split; [apply firstn_le_length|split; [lia|right; lia]]].
    apply Forall_take, Forall_app_2; [done|]. apply Forall_forall. intros w [Hw Hin]%list_elem_of_filter.
    unfold digest_words in Hin. apply list_elem_of_fmap in Hin as (chunk & -> & _).
    pose proof (from_be_bytes_range chunk). split; [lia|done].
  - destruct (sample preimage depth acc c) as [[acc1 c1]|] eqn:H1; cbn; [|done]. intros H2 Hacc Hl.
    apply IH in H1 as (Ha1 & Hl1 & Hc1 & Hp1); [|done..].
    destruct (Nat.leb_spec IV_ELEMENTS (length acc1)) as [Hfull|Hopen].
    + assert (acc' = acc1 /\ c' = c1) as [-> ->].
      { destruct depth; cbn [sample] in H2; rewrite (proj2 (Nat.leb_le _ _) Hfull) in H2; by simplify_eq. }
      tauto.
    + apply IH in H2 as (Ha2 & Hl2 & Hc2 & Hp2); [|done..]. split; [done|split; [done|]].
      rewrite Nat2Z.inj_succ, Z.pow_succ_r by lia. split; [destruct Hc1, Hc2; subst; tauto|].
      destruct Hp1 as [|Hp1]; [lia|]. destruct Hp2 as [|Hp2]; [by left|right; lia].
Qed.

(** The counter has 32 bits, so a vector that is returned has nine elements. *)
Lemma derive_iv_wf `{Sha2} preimage iv :
  derive_iv preimage = Some iv -> length iv = IV_ELEMENTS /\ Forall element_wf iv.
Proof.
  unfold derive_iv. intros ([iv' c] & Hs & ->)%fmap_Some. cbn [fst].
  apply sample_progress in Hs as (Hw & Hl & Hc & Hp); [|constructor|cbn; lia].
  split; [|done]. change (2 ^ Z.of_nat 32) with 4294967296 in Hp. change U32_MAX with 4294967295 in Hc. lia.
Qed.

(** ** Loaded artifacts *)

(** What hashing relies on: an artifact that encodes has its vectors. *)
Class PrivacyManifestLaws (p : PrivacyManifest) : Prop := {
  note_iv_total bytes domain : note_domains_encode p = Ok bytes ->
    exists iv, note_domains_iv p domain = Ok iv /\ length iv = IV_ELEMENTS /\ Forall element_wf iv;
  intent_iv_total bytes : intent_commitment_encode p = Ok bytes ->
    exists iv, intent_commitment_iv p = Ok iv /\ length iv = IV_ELEMENTS /\ Forall element_wf iv;
  envelope_iv_wf iv : envelope_digest_iv p = Ok iv -> length iv = IV_ELEMENTS /\ Forall element_wf iv
}.

(** The vectors of an encoded child. *)
Lemma child_iv_encoded `{Sha2} {P D B} (layout : ChildLayout D B) (parent : ParentManifest P) embedded bytes domain :
  layout_wf layout -> child_encode layout parent embedded = Ok bytes ->
  exists iv, child_iv layout parent embedded domain = Ok iv /\ length iv = IV_ELEMENTS /\ Forall element_wf iv.
Proof.
  intros Hl (pb & pid & payload & [_ _ Hp _])%(child_encode_Ok _ _ _ Hl).
  eexists. split; [by apply (child_iv_total _ _ _ Hl)|]. split; [apply length_decode_iv|by eapply iv_slice_wf].
Qed.

#[export] Instance privacy_manifest_laws `{Sha2} tree_embedded tree_derived nxph_embedded nxic_embedded :
  PrivacyManifestLaws (privacy_manifest tree_embedded tree_derived nxph_embedded nxic_embedded).
Proof.
  split; cbn [privacy_manifest note_domains_encode note_domains_iv intent_commitment_encode intent_commitment_iv
    envelope_digest_iv].
  - intros bytes domain Henc. exact (child_iv_encoded _ _ _ _ domain nxph_layout_wf Henc).
  - intros bytes Henc. exact (child_iv_encoded _ _ _ _ _ nxic_layout_wf Henc).
  - intros iv Hiv. unfold envelope_iv in Hiv. inv_ok. by eapply derive_iv_wf.
Qed.

Section Loaded.
Context (tree : P24Manifest) `{!P24ManifestLaws tree} (privacy : PrivacyManifest) `{!PrivacyManifestLaws privacy}.
Context (self : Poseidon2P24PrivacyReference) (Hload : load_privacy_reference tree privacy = Ok self).

Lemma loaded_privacy :
  (exists bytes, note_domains_encode privacy = Ok bytes) /\
  (exists bytes, intent_commitment_encode privacy = Ok bytes) /\
  load_reference tree = Ok (pr_permutation self) /\ reference_wf (pr_permutation self).
Proof.
  unfold load_privacy_reference in Hload. inv_ok. cbn [pr_permutation].
  split; [by eexists|split; [by eexists|split; [done|by eapply loaded_reference_wf]]].
Qed.

Lemma try_fold_map_err {E F S A} (g : E -> F) (f : S -> A -> Result E S) l s :
  try_fold (fun s a => map_err g (f s a)) s l = map_err g (try_fold f s l).
Proof.
  revert s. induction l as [|a l IH]; intros s; cbn [try_fold]; [done|].
  destruct (f s a); cbn [map_err mbind result_bind]; [apply IH|done].
Qed.

(** On a non-empty input the hash is the sponge of the tree evaluator. *)
Lemma hash_elements_sponge input iv :
  input <> [] ->
  hash_elements self input iv =
  map_err (fun e => Some (PrErr.TreeReference e)) (sponge field_add (reference_permutation (pr_permutation self)) iv input).
Proof.
  intros Hne. unfold hash_elements, sponge, privacy_permute. rewrite try_fold_map_err. destruct input as [|x input]; [done|].
  destruct (try_fold _ _ _) as [state|e]; cbn [map_err mbind result_bind]; [|done].
  by destruct (reference_permutation _ state).
Qed.

Lemma hash_packed_total input iv :
  input <> [] -> length iv = IV_ELEMENTS -> Forall element_wf iv ->
  exists d, hash_elements self (byte_pack3le_variable input) iv = Ok d /\ digest_wf d.
Proof.
  intros Hne Hl Hiv. destruct loaded_privacy as (_ & _ & _ & Hr).
  destruct (sponge_total _ iv (byte_pack3le_variable input) Hr Hl Hiv (packed_wf input)) as (d & Hd & Hw).
  exists d. split; [|done]. rewrite hash_elements_sponge; [by rewrite Hd|]. by destruct input.
Qed.

Lemma note_hash_total domain input :
  len input = note_input_bytes domain ->
  exists d, privacy_hash_bytes privacy self domain input = Ok d /\ digest_wf d.
Proof.
  intros Hl. destruct loaded_privacy as ((bytes & Henc) & _).
  destruct (note_iv_total bytes domain Henc) as (iv & Hiv & Hivl & Hivw).
  destruct (hash_packed_total input iv) as (d & Hd & Hw); [|done..|].
  { intros ->. by destruct domain. }
  exists d. split; [|done]. unfold privacy_hash_bytes, byte_pack3le. rewrite (proj2 (Z.eqb_eq _ _) Hl), Hiv. exact Hd.
Qed.

Lemma intent_hash_total intent :
  exists v, hash_private_transfer_intent privacy self intent = Ok v /\ vector_wf v.
Proof.
  destruct loaded_privacy as (_ & (bytes & Henc) & _). destruct (intent_iv_total bytes Henc) as (iv & Hiv & Hivl & Hivw).
  pose proof (length_intent_encode intent) as Hl.
  destruct (hash_packed_total (intent_encode intent) iv) as (d & Hd & Hw); [by intros Hn; rewrite Hn in Hl|done..|].
  destruct (from_elements_total d Hw) as (v & Hv & Hev). exists v.
  unfold hash_private_transfer_intent, hash_intent_encoding, byte_pack3le_fixed. rewrite Hl.
  change (negb (INTENT_ENCODED_LENGTH =? P24_INTENT_COMMITMENT_INPUT_BYTES)) with false.
  cbn [mbind result_bind]. rewrite Hiv. cbn [map_err mbind result_bind]. rewrite Hd. cbn [mbind result_bind].
  rewrite Hv. split; [done|]. unfold vector_wf. rewrite Hev. eapply Forall_impl; [apply Hw|]. by intros e [].
Qed.

End Loaded.

(** The same digest from the allocation-free permutation. *)
Lemma note_hash_core privacy self values domain input iv d :
  parameters_wf values -> pr_permutation self = reference_of values -> note_domains_iv privacy domain = Ok iv ->
  length iv = IV_ELEMENTS -> Forall element_wf iv -> len input = note_input_bytes domain ->
  sponge core_add (core_permutation values) iv (byte_pack3le_variable input) = Ok d ->
  privacy_hash_bytes privacy self domain input = Ok d /\ digest_wf d.
Proof.
  intros Hv Hself Hiv Hl Hw Hlen Hcore.
  destruct (sponge_agree core_add field_add (core_permutation values) (reference_permutation (reference_of values))
    ltac:(intros a b Ha Hb; split; [by apply core_add_canonical|apply field_add_wf]) (permutation_dense _ Hv)
    iv (byte_pack3le_variable input) Hl Hw (packed_wf input)) as (d' & Hc & Hr & Hd).
  rewrite Hcore in Hc. injection Hc as <-. split; [|done].
  unfold privacy_hash_bytes, byte_pack3le. rewrite (proj2 (Z.eqb_eq _ _) Hlen), Hiv. cbn [negb map_err mbind result_bind].
  rewrite hash_elements_sponge, Hself, Hr; [done|]. destruct input; [by destruct domain|done].
Qed.

(** ** The checked-in candidate *)

#[local] Existing Instance fips_sha2.

Definition frozen_privacy : PrivacyManifest :=
  privacy_manifest (Some frozen_payload) (stored_iv frozen_payload) (Some frozen_nxph) (Some frozen_nxic).

Definition frozen_privacy_reference : Poseidon2P24PrivacyReference := mk_Poseidon2P24PrivacyReference frozen_reference.

#[export] Instance frozen_privacy_laws : PrivacyManifestLaws frozen_privacy := privacy_manifest_laws _ _ _ _.

Lemma load_privacy_eq tree privacy bytes0 bytes1 id reference :
  note_domains_encode privacy = Ok bytes0 -> intent_commitment_encode privacy = Ok bytes1 ->
  envelope_digest_id privacy = Ok id -> load_reference tree = Ok reference ->
  load_privacy_reference tree privacy = Ok (mk_Poseidon2P24PrivacyReference reference).
Proof. intros H0 H1 H2 H3. unfold load_privacy_reference. by rewrite H0, H1, H2, H3. Qed.

Lemma envelope_id_total te td ne parent_id :
  parent_candidate_id (nxph_parent te td ne) = Ok parent_id -> exists id, envelope_candidate_id te td ne = Ok id.
Proof. intros Hid. unfold envelope_candidate_id. rewrite Hid. by eexists. Qed.

Lemma frozen_privacy_loads : load_privacy_reference frozen_manifest frozen_privacy = Ok frozen_privacy_reference.
Proof.
  destruct frozen_nxph_facts as [Hph Hid], frozen_nxic_facts as (bytes & Hic & _).
  destruct (envelope_id_total _ _ _ _ Hid) as [id He].
  exact (load_privacy_eq frozen_manifest frozen_privacy _ _ _ _ Hph Hic He frozen_manifest_reference).
Qed.

Lemma frozen_note_iv domain :
  note_domains_iv frozen_privacy domain = Ok (decode_iv (iv_slice nxph_layout frozen_nxph domain)).
Proof. exact (child_iv_total _ _ _ nxph_layout_wf _ domain frozen_nxph_accepted). Qed.

(** The hash of a domain, with its vector in place and the fast permutation. *)
Definition fast_digest (domain : Poseidon2P24NoteDomainV1) (input : list byte) : Result P24CoreError (list Z) :=
  sponge core_add (core_permutation frozen_parameters) (decode_iv (iv_slice nxph_layout frozen_nxph domain))
    (byte_pack3le_variable input).

Lemma fast_digest_eq domain input ds :
  len input = note_input_bytes domain -> fast_digest domain input = Ok ds ->
  privacy_hash_bytes frozen_privacy frozen_privacy_reference domain input = Ok ds /\ digest_wf ds.
Proof.
  intros Hl Hfast.
  exact (note_hash_core frozen_privacy frozen_privacy_reference frozen_parameters domain input _ ds
    frozen_parameters_wf eq_refl (frozen_note_iv domain) (length_decode_iv _)
    (iv_slice_wf _ _ _ nxph_layout_wf _ domain frozen_nxph_accepted) Hl Hfast).
Qed.

Definition ascending (n : nat) : list byte := byte_of_Z <$> (Z.of_nat <$> seq 0 n).

(** the hashes of the model, over the checked-in artifacts, are the digests that an
    independent implementation computed for the repository's test vectors: a key of
    32 ascending bytes, a note of 178 and a nullifier preimage at position 0. *)
Theorem note_hashes_match_vectors :
  privacy_hash_bytes frozen_privacy frozen_privacy_reference NoteDomain.Addr (ascending 32) =
    Ok [115780848; 1488678630; 1399912284; 1219509420; 1345882329; 1837465190; 1967171304; 738411337;
        1437527031; 1923884581; 1024490489; 923711499; 1254496708; 1249780469; 1985204366; 771190060] /\
  hash_note frozen_privacy frozen_privacy_reference (ascending 178) =
    Ok [1727817926; 750994629; 697453727; 566577232; 973445008; 1906707017; 881196045; 1222807235;
        181143227; 959402732; 1792526077; 418591644; 1278989523; 207744150; 1940240553; 1515884781] /\
  hash_nullifier_preimage frozen_privacy frozen_privacy_reference (ascending 128 ++ to_be_bytes 4 0) =
    Ok [2003527154; 1745920045; 113276676; 721087644; 1558321923; 1928665047; 141168681; 253411039;
        1170925763; 387439201; 491313824; 1071531158; 939053051; 145290746; 1291080194; 1095323589].
Proof.
  split; [|split]; apply fast_digest_eq; [done|vm_compute; reflexivity|done|vm_compute; reflexivity|done|vm_compute; reflexivity].
Qed.
