(* ===== verification/NoteOpening.v ===== *)
(** * Note openings and the statement of a private transfer ([noxis-note-opening])

    The openings of notes, the witness that spends one, and the relations a transfer
    of two inputs and two outputs satisfies; and the public inputs the proof contract
    derives from an intent ([noxis-private-proof-contract/src/public_inputs.rs]).
    Wiping secrets on drop has no observable effect here.  An error [None] is a
    panic. *)

From Stdlib Require Import Strings.Byte.
From S2P Require Import Prelude Arrays Sha256 Types BabyBear Privacy Poseidon2 NullifierTree ChildManifests NoteHashes PrivateState.

(** ** Errors *)

Module NoteOpeningError.
Inductive NoteOpeningError : Type :=
| RegularNoteHasZeroValue
| PaddingNoteHasNonZeroValue
| PaddingNoteCannotBeSpent
| RecipientCommitmentMismatch
| MerkleRootMismatch
| RetainedWitnessMismatch
| PrivateReference (error : Poseidon2P24PrivacyReferenceError)
| TreeReference (error : Poseidon2P24ReferenceError)
| TreeCandidate (error : Poseidon2P24CandidateError)
| PublicValue (error : PrivacyTypesError).
End NoteOpeningError.
Abbreviation NoteOpeningError := NoteOpeningError.NoteOpeningError.

Module AirPublicInputsError.
Inductive CandidatePrivateTransferAirPublicInputsError : Type :=
| PrivacyReference (error : Poseidon2P24PrivacyReferenceError)
| Candidate (error : Poseidon2P24CandidateError)
| CandidateTreeParametersMismatch
| IntentCommitmentMismatch
| IntentPackingMismatch.
End AirPublicInputsError.
Abbreviation CandidatePrivateTransferAirPublicInputsError :=
  AirPublicInputsError.CandidatePrivateTransferAirPublicInputsError.

Module PrivateTransferStatementError.
Inductive PrivateTransferStatementError : Type :=
| NoteOpening (error : NoteOpeningError)
| AirPublicInputs (error : CandidatePrivateTransferAirPublicInputsError)
| CandidateTreeParametersMismatch
| IntentCommitmentMismatch
| IntentPackingMismatch
| InputRootMismatch
| InputNullifierMismatch
| DuplicateInputNote
| InputAssetMismatch
| OutputCommitmentMismatch
| OutputAssetMismatch
| OutputReintroducesInputCommitment
| DuplicateLocalRho
| DuplicateLocalRcm
| InputValueOverflow
| OutputValueOverflow
| ValueNotConserved.
End PrivateTransferStatementError.
Abbreviation PrivateTransferStatementError := PrivateTransferStatementError.PrivateTransferStatementError.

Module StErr := PrivateTransferStatementError.

(** ** Data *)

Definition NOTE_VERSION : Z := 1.
Definition U128_MAX : Z := 2 ^ 128 - 1.

(** [NoteOpeningInputV2] and [NoteOpeningV2] have the same fields. *)
Record NoteOpeningV2 : Type := mk_NoteOpeningV2 {
  no_asset_id : AssetId;
  no_value : Z;
  no_recipient_commitment : Vector;
  no_rho : array 32;
  no_rcm : array 32
}.

Record DerivedNotePublicV2 : Type := mk_DerivedNotePublicV2 {
  dn_note_commitment : NoteCommitmentV2;
  dn_nullifier : NullifierV2;
  dn_merkle_root : Vector
}.

#[global] Instance DerivedNotePublicV2_eq_dec : EqDecision DerivedNotePublicV2.
Proof. solve_decision. Defined.

Record SpendingWitnessV2 : Type := mk_SpendingWitnessV2 {
  sw_opening : NoteOpeningV2;
  sw_nullifier_key : array 32;
  sw_leaf_position : Z;
  sw_siblings : list Vector;
  sw_public : DerivedNotePublicV2
}.

Record CandidateP24NoteOpeningEvaluatorV2 : Type := mk_CandidateP24NoteOpeningEvaluatorV2 {
  private_reference : Poseidon2P24PrivacyReference;
  tree_reference : Poseidon2P24Reference
}.

Record CandidatePrivateTransferWitnessV2 : Type := mk_CandidatePrivateTransferWitnessV2 {
  tw_intent : PrivateTransferIntentV2;
  tw_input0 : SpendingWitnessV2;
  tw_input1 : SpendingWitnessV2;
  tw_output0 : NoteOpeningV2;
  tw_output1 : NoteOpeningV2
}.

Record CandidatePrivateTransferAirPublicInputsV1 : Type := mk_CandidatePrivateTransferAirPublicInputsV1 {
  ap_intent : PrivateTransferIntentV2;
  ap_intent_elements : list Z;
  ap_intent_commitment : Vector
}.

(** ** Openings *)

Abbreviation OpeningError := (option NoteOpeningError).

Definition new_regular (input : NoteOpeningV2) : Result OpeningError NoteOpeningV2 :=
  if no_value input =? 0 then Err (Some NoteOpeningError.RegularNoteHasZeroValue) else Ok input.

Definition new_padding (input : NoteOpeningV2) : Result OpeningError NoteOpeningV2 :=
  if negb (no_value input =? 0) then Err (Some NoteOpeningError.PaddingNoteHasNonZeroValue) else Ok input.

Definition note_preimage (self : NoteOpeningV2) : list byte :=
  to_be_bytes 2 NOTE_VERSION ++ arr (no_asset_id self) ++ to_be_bytes 16 (no_value self) ++
  arr (no_recipient_commitment self) ++ arr (no_rho self) ++ arr (no_rcm self).

Definition nullifier_preimage (nullifier_key rho : array 32) (note_commitment : NoteCommitmentV2) (leaf_position : Z)
    : list byte :=
  arr nullifier_key ++ arr rho ++ arr note_commitment ++ to_be_bytes 4 leaf_position.

Definition has_same_rho (self other : NoteOpeningV2) : bool := bool_decide (no_rho self = no_rho other).
Definition has_same_rcm (self other : NoteOpeningV2) : bool := bool_decide (no_rcm self = no_rcm other).

Section Opening.
Context (tree : P24Manifest) (privacy : PrivacyManifest).

Definition from_private {A} (r : Result (option Poseidon2P24PrivacyReferenceError) A) : Result OpeningError A :=
  map_err (option_map NoteOpeningError.PrivateReference) r.
Definition from_tree {A} (r : Result Poseidon2P24ReferenceError A) : Result OpeningError A :=
  map_err (fun e => Some (NoteOpeningError.TreeReference e)) r.
Definition public_value (elements : BabyBearDigestV2) : Result OpeningError Vector :=
  map_err (option_map NoteOpeningError.PublicValue) (from_elements elements).

(** [CandidateP24NoteOpeningEvaluatorV2::load_candidate]. *)
Definition load_evaluator : Result OpeningError CandidateP24NoteOpeningEvaluatorV2 :=
  private_reference ← from_private (load_privacy_reference tree privacy);
  tree_reference ← from_tree (load_reference tree);
  Ok (mk_CandidateP24NoteOpeningEvaluatorV2 private_reference tree_reference).

Definition candidate_tree_parameters_id : Result OpeningError TreeParametersId :=
  map_err (fun e => Some (NoteOpeningError.TreeCandidate e)) (manifest_candidate_id tree).

Context (evaluator : CandidateP24NoteOpeningEvaluatorV2).

Definition recipient_commitment (nullifier_key : array 32) : Result OpeningError Vector :=
  digest ← from_private (hash_addr privacy (private_reference evaluator) nullifier_key);
  public_value digest.

Definition intent_commitment (intent : PrivateTransferIntentV2) : Result OpeningError Vector :=
  from_private (hash_private_transfer_intent privacy (private_reference evaluator) intent).

Definition nullifier (nullifier_key rho : array 32) (note_commitment : NoteCommitmentV2) (leaf_position : Z)
    : Result OpeningError NullifierV2 :=
  digest ← from_private (hash_nullifier_preimage privacy (private_reference evaluator)
             (nullifier_preimage nullifier_key rho note_commitment leaf_position));
  public_value digest.

Definition note_commitment (self : NoteOpeningV2) : Result OpeningError NoteCommitmentV2 :=
  digest ← from_private (hash_note privacy (private_reference evaluator) (note_preimage self));
  public_value digest.

(** ** Spending a note *)

Definition evaluate_witness (opening : NoteOpeningV2) (nullifier_key : array 32) (leaf_position : Z)
    (siblings : list Vector) (expected_root : Vector) : Result OpeningError DerivedNotePublicV2 :=
  derived_recipient ← recipient_commitment nullifier_key;
  if negb (bool_decide (derived_recipient = no_recipient_commitment opening))
  then Err (Some NoteOpeningError.RecipientCommitmentMismatch)
  else
    commitment ← note_commitment opening;
    nf ← nullifier nullifier_key (no_rho opening) commitment leaf_position;
    leaf ← from_tree (reference_leaf (tree_reference evaluator) tree (elements commitment));
    root ← from_tree (root_from_path (tree_reference evaluator) tree leaf leaf_position (elements <$> siblings));
    actual_root ← public_value root;
    if negb (bool_decide (actual_root = expected_root))
    then Err (Some NoteOpeningError.MerkleRootMismatch)
    else Ok (mk_DerivedNotePublicV2 commitment nf actual_root).

(** [SpendingWitnessV2::new]. *)
Definition witness_new (opening : NoteOpeningV2) (nullifier_key : array 32) (leaf_position : Z)
    (siblings : list Vector) (expected_root : Vector) : Result OpeningError SpendingWitnessV2 :=
  if no_value opening =? 0 then Err (Some NoteOpeningError.PaddingNoteCannotBeSpent)
  else
    public ← evaluate_witness opening nullifier_key leaf_position siblings expected_root;
    Ok (mk_SpendingWitnessV2 opening nullifier_key leaf_position siblings public).

(** [SpendingWitnessV2::revalidate]. *)
Definition witness_revalidate (self : SpendingWitnessV2) : Result OpeningError DerivedNotePublicV2 :=
  derived ← evaluate_witness (sw_opening self) (sw_nullifier_key self) (sw_leaf_position self) (sw_siblings self)
              (dn_merkle_root (sw_public self));
  if negb (bool_decide (derived = sw_public self))
  then Err (Some NoteOpeningError.RetainedWitnessMismatch) else Ok derived.

(** ** The statement of a transfer ([statement.rs]) *)

Abbreviation StatementError := (option PrivateTransferStatementError).

Definition from_opening {A} (r : Result OpeningError A) : Result StatementError A :=
  map_err (option_map StErr.NoteOpening) r.

Definition validate_input_bindings (intent : PrivateTransferIntentV2) (public0 public1 : DerivedNotePublicV2)
    : Result StatementError unit :=
  if negb (bool_decide (dn_merkle_root public0 = pi_pre_state_root intent)) ||
     negb (bool_decide (dn_merkle_root public1 = pi_pre_state_root intent))
  then Err (Some StErr.InputRootMismatch)
  else if negb (bool_decide ([dn_nullifier public0; dn_nullifier public1] = intent_nullifiers intent))
  then Err (Some StErr.InputNullifierMismatch)
  else Ok tt.

(** The inner loop of the uniqueness check: one opening against the later ones. *)
Fixpoint unique_against (self : NoteOpeningV2) (rest : list NoteOpeningV2) : Result StatementError unit :=
  match rest with
  | [] => Ok tt
  | other :: rest =>
      if has_same_rho self other then Err (Some StErr.DuplicateLocalRho)
      else if has_same_rcm self other then Err (Some StErr.DuplicateLocalRcm)
      else unique_against self rest
  end.

Fixpoint unique_openings (openings : list NoteOpeningV2) : Result StatementError unit :=
  match openings with
  | [] => Ok tt
  | self :: rest => _ ← unique_against self rest; unique_openings rest
  end.

Definition validate_local_randomness_uniqueness (inputs : list SpendingWitnessV2) (outputs : list NoteOpeningV2)
    : Result StatementError unit :=
  unique_openings ((sw_opening <$> inputs) ++ outputs).

(** [for opening in openings { if opening.asset_id != intent.asset_id() ... }]. *)
Definition check_assets (asset_id : AssetId) (error : PrivateTransferStatementError) (openings : list NoteOpeningV2)
    : Result StatementError unit :=
  if forallb (fun opening => bool_decide (no_asset_id opening = asset_id)) openings then Ok tt else Err (Some error).

Definition validate (intent : PrivateTransferIntentV2) (input0 input1 : SpendingWitnessV2)
    (output0 output1 : NoteOpeningV2) : Result StatementError unit :=
  parameters_id ← from_opening candidate_tree_parameters_id;
  if negb (bool_decide (tree_parameters_id (pi_tree_parameters intent) = parameters_id))
  then Err (Some StErr.CandidateTreeParametersMismatch)
  else
    public0 ← from_opening (witness_revalidate input0);
    public1 ← from_opening (witness_revalidate input1);
    _ ← validate_input_bindings intent public0 public1;
    if bool_decide (dn_note_commitment public0 = dn_note_commitment public1) ||
       (sw_leaf_position input0 =? sw_leaf_position input1)
    then Err (Some StErr.DuplicateInputNote)
    else
      _ ← check_assets (pi_asset_id intent) StErr.InputAssetMismatch [sw_opening input0; sw_opening input1];
      commitment0 ← from_opening (note_commitment output0);
      commitment1 ← from_opening (note_commitment output1);
      let commitments := [commitment0; commitment1] in
      if negb (bool_decide (commitments = output_commitments intent))
      then Err (Some StErr.OutputCommitmentMismatch)
      else if bool_decide (dn_note_commitment public0 ∈ commitments) ||
              bool_decide (dn_note_commitment public1 ∈ commitments)
      then Err (Some StErr.OutputReintroducesInputCommitment)
      else
        _ ← check_assets (pi_asset_id intent) StErr.OutputAssetMismatch [output0; output1];
        _ ← validate_local_randomness_uniqueness [input0; input1] [output0; output1];
        input_total ← ok_or (checked_add U128_MAX (no_value (sw_opening input0)) (no_value (sw_opening input1)))
                        (Some StErr.InputValueOverflow);
        output_total ← ok_or (checked_add U128_MAX (no_value output0) (no_value output1))
                         (Some StErr.OutputValueOverflow);
        if negb (input_total =? output_total) then Err (Some StErr.ValueNotConserved) else Ok tt.

(** [CandidatePrivateTransferWitnessV2::new]. *)
Definition transfer_witness_new (intent : PrivateTransferIntentV2) (input0 input1 : SpendingWitnessV2)
    (output0 output1 : NoteOpeningV2) : Result StatementError CandidatePrivateTransferWitnessV2 :=
  _ ← validate intent input0 input1 output0 output1;
  Ok (mk_CandidatePrivateTransferWitnessV2 intent input0 input1 output0 output1).

(** [CandidatePrivateTransferWitnessV2::revalidate]. *)
Definition transfer_witness_revalidate (self : CandidatePrivateTransferWitnessV2) : Result StatementError unit :=
  validate (tw_intent self) (tw_input0 self) (tw_input1 self) (tw_output0 self) (tw_output1 self).

(** ** Public inputs of the proof ([public_inputs.rs]) *)

Abbreviation AirError := (option CandidatePrivateTransferAirPublicInputsError).

(** Element [index] packs the bytes from [3 * index], at most three. *)
Definition byte_pack3le_intent (intent : PrivateTransferIntentV2) : list Z :=
  let encoded := intent_encode intent in
  (fun index => pack_chunk (drop (index * P24_BYTE_PACK_WIDTH)
     (take (Nat.min ((index + 1) * P24_BYTE_PACK_WIDTH) (length encoded)) encoded)))
  <$> seq 0 (Z.to_nat P24_INTENT_COMMITMENT_INPUT_ELEMENTS).

Definition air_from_intent (intent : PrivateTransferIntentV2)
    : Result AirError CandidatePrivateTransferAirPublicInputsV1 :=
  parameters_id ← map_err (fun e => Some (AirPublicInputsError.Candidate e)) (manifest_candidate_id tree);
  if negb (bool_decide (tree_parameters_id (pi_tree_parameters intent) = parameters_id))
  then Err (Some AirPublicInputsError.CandidateTreeParametersMismatch)
  else
    reference ← map_err (option_map AirPublicInputsError.PrivacyReference) (load_privacy_reference tree privacy);
    commitment ← map_err (option_map AirPublicInputsError.PrivacyReference)
                   (hash_private_transfer_intent privacy reference intent);
    Ok (mk_CandidatePrivateTransferAirPublicInputsV1 intent (byte_pack3le_intent intent) commitment).

(** [CandidatePrivateTransferAirPublicInputsV1::revalidate]. *)
Definition air_revalidate (self : CandidatePrivateTransferAirPublicInputsV1) : Result AirError unit :=
  expected ← air_from_intent (ap_intent self);
  if negb (bool_decide (ap_intent_commitment expected = ap_intent_commitment self))
  then Err (Some AirPublicInputsError.IntentCommitmentMismatch)
  else if negb (bool_decide (ap_intent_elements expected = ap_intent_elements self))
  then Err (Some AirPublicInputsError.IntentPackingMismatch)
  else Ok tt.

(** [CandidatePrivateTransferWitnessV2::air_public_inputs]. *)
Definition air_public_inputs (self : CandidatePrivateTransferWitnessV2)
    : Result StatementError CandidatePrivateTransferAirPublicInputsV1 :=
  _ ← transfer_witness_revalidate self;
  map_err (option_map StErr.AirPublicInputs) (air_from_intent (tw_intent self)).

End Opening.
