(* ===== verification/NoteOpeningFacts.v ===== *)
(** * Note openings are exact

    Over a loaded evaluator the commitment, the recipient and the nullifier of an
    opening are total.  A spending witness is accepted exactly when its key owns the
    note and its path leads to the root, and a transfer exactly when it satisfies a
    statement without any order of evaluation. *)

From Stdlib Require Import Strings.Byte.
From stdpp Require Import gmap.
From S2P Require Import Prelude Arrays Sha256 Types BabyBear Privacy Poseidon2 Poseidon2Facts TreeManifestFacts FullTree NoteTreeFacts.
From S2P Require Import NullifierTree NullifierTreeFacts ChildManifests NoteHashes NoteHashesFacts PrivateState PrivateStateFacts NoteOpening.

#[local] Opaque P24_TREE_DEPTH.

(** ** Preimages *)

Lemma length_note_preimage o : len (note_preimage o) = 178.
Proof. unfold note_preimage. rewrite !length_app, !length_arr, !length_to_be_bytes. done. Qed.

Lemma length_nullifier_preimage key rho c position : len (nullifier_preimage key rho c position) = 132.
Proof. unfold nullifier_preimage. rewrite !length_app, !length_arr, !length_to_be_bytes. done. Qed.

(** The range of the type [u128]. *)
Definition opening_wf (o : NoteOpeningV2) : Prop := 0 <= no_value o <= U128_MAX.

Lemma note_preimage_inj a b : opening_wf a -> opening_wf b -> note_preimage a = note_preimage b -> a = b.
Proof.
  unfold opening_wf, U128_MAX, note_preimage. intros Ha Hb He.
  apply app_inv_head, app_inj_1 in He as [Hasset He]; [|by rewrite !length_arr].
  apply app_inj_1 in He as [Hvalue He]; [|by rewrite !length_to_be_bytes].
  apply app_inj_1 in He as [Hrecipient He]; [|by rewrite !length_arr].
  apply app_inj_1 in He as [Hrho Hrcm]; [|by rewrite !length_arr].
  apply (f_equal from_be_bytes) in Hvalue. rewrite !from_to_be_bytes, !Z.mod_small in Hvalue by (cbn; lia).
  apply array_eq in Hasset, Hrecipient, Hrho, Hrcm. destruct a, b. cbn in *. congruence.
Qed.

(** ** Packing by index *)

Lemma chunks_loop_seq {A} fuel n (l : list A) k :
  (0 < n)%nat -> (length l <= fuel)%nat -> (length l <= k * n)%nat -> (k * n < length l + n)%nat ->
  chunks_loop fuel n l = (fun i => take n (drop (i * n) l)) <$> seq 0 k.
Proof.
  intros Hn. revert l k. induction fuel as [|fuel IH]; intros l k Hf Hlo Hhi.
  - destruct l; cbn in Hf; [|lia]. destruct k; [done|cbn in Hhi; lia].
  - destruct l as [|x l]; cbn [chunks_loop]; [destruct k; [done|cbn in Hhi; lia]|].
    destruct k as [|k]; [cbn in Hlo; lia|]. cbn [seq]. rewrite fmap_cons, <-fmap_S_seq, <-list_fmap_compose.
    rewrite (IH _ k) by (rewrite length_drop; cbn in *; lia). f_equal. apply list_fmap_ext. intros i y _.
    cbn [compose]. rewrite drop_drop. by do 2 f_equal.
Qed.

(** The contract packs an intent as the evaluator does. *)
Lemma byte_pack3le_intent_eq intent : byte_pack3le_intent intent = byte_pack3le_variable (intent_encode intent).
Proof.
  pose proof (length_intent_encode intent) as Hl. unfold INTENT_ENCODED_LENGTH in Hl.
  unfold byte_pack3le_intent, byte_pack3le_variable, chunks, P24_BYTE_PACK_WIDTH.
  rewrite (chunks_loop_seq _ 3 _ 214) by lia. rewrite <-list_fmap_compose. apply list_fmap_ext.
  intros i j [-> Hi]%lookup_seq. cbn [compose]. f_equal. rewrite take_drop_commute. f_equal.
  destruct (Nat.min_spec ((0 + i + 1) * 3) (length (intent_encode intent))) as [[_ ->]|[Hle ->]]; [f_equal; lia|].
  rewrite !take_ge by lia. done.
Qed.

(** ** Total values *)

Definition vector_of {E} (r : Result E Vector) : Vector := match r with Ok v => v | Err _ => fill 64 x00 end.

Section Loaded.
Context (tree : P24Manifest) `{!P24ManifestLaws tree} (privacy : PrivacyManifest) `{!PrivacyManifestLaws privacy}.
Context (ev : CandidateP24NoteOpeningEvaluatorV2) (Hev : load_evaluator tree privacy = Ok ev).

Lemma loaded_evaluator :
  load_privacy_reference tree privacy = Ok (private_reference ev) /\ load_reference tree = Ok (tree_reference ev).
Proof. unfold load_evaluator, from_private, from_tree in Hev. inv_ok. done. Qed.

(** The recipient of a key, the commitment of an opening and the nullifier of a note. *)
Definition recipient_of (key : array 32) : Vector := vector_of (recipient_commitment privacy ev key).
Definition commitment_of (o : NoteOpeningV2) : Vector := vector_of (note_commitment privacy ev o).
Definition nullifier_of (key rho : array 32) (c : Vector) (position : Z) : Vector :=
  vector_of (nullifier privacy ev key rho c position).

Lemma hashed_vector domain input :
  len input = note_input_bytes domain ->
  exists v, (digest ← from_private (privacy_hash_bytes privacy (private_reference ev) domain input);
             public_value digest) = Ok v /\ vector_wf v.
Proof.
  intros Hl. destruct (note_hash_total tree privacy _ (proj1 loaded_evaluator) domain input Hl) as (d & Hd & Hw).
  destruct (from_elements_total d Hw) as (v & Hv & Hve). exists v. rewrite Hd. cbn [from_private map_err mbind result_bind].
  unfold public_value. rewrite Hv. split; [done|]. unfold vector_wf. rewrite Hve. eapply Forall_impl; [apply Hw|]. by intros e [].
Qed.

Lemma recipient_total key : recipient_commitment privacy ev key = Ok (recipient_of key).
Proof.
  unfold recipient_of. destruct (hashed_vector NoteDomain.Addr (arr key)) as (v & Hv & _); [by rewrite length_arr|].
  change (recipient_commitment privacy ev key = Ok v) in Hv. by rewrite Hv.
Qed.

Lemma commitment_total o : note_commitment privacy ev o = Ok (commitment_of o) /\ vector_wf (commitment_of o).
Proof.
  unfold commitment_of.
  destruct (hashed_vector NoteDomain.Note (note_preimage o)) as (v & Hv & Hw); [apply length_note_preimage|].
  change (note_commitment privacy ev o = Ok v) in Hv. by rewrite Hv.
Qed.

Lemma nullifier_total key rho c position :
  nullifier privacy ev key rho c position = Ok (nullifier_of key rho c position) /\ vector_wf (nullifier_of key rho c position).
Proof.
  unfold nullifier_of.
  destruct (hashed_vector NoteDomain.Nullifier (nullifier_preimage key rho c position)) as (v & Hv & Hw);
    [apply length_nullifier_preimage|].
  change (nullifier privacy ev key rho c position = Ok v) in Hv. by rewrite Hv.
Qed.

(** ** Spending witnesses *)

Abbreviation node_value := (NoteTreeFacts.node_value tree (tree_reference ev)).
Abbreviation leaf_value := (NoteTreeFacts.leaf_value tree (tree_reference ev)).

(** The root a path leads to from the leaf of an opening. *)
Definition opening_root (o : NoteOpeningV2) (position : Z) (siblings : list Vector) : list Z :=
  path_root node_value position (elements <$> siblings) (leaf_value (elements (commitment_of o))).

Record owns (o : NoteOpeningV2) (key : array 32) (position : Z) (siblings : list Vector) (root : Vector) : Prop := mk_owns {
  ow_recipient : recipient_of key = no_recipient_commitment o;
  ow_root : elements root = opening_root o position siblings
}.

Definition public_of (o : NoteOpeningV2) (key : array 32) (position : Z) (root : Vector) : DerivedNotePublicV2 :=
  mk_DerivedNotePublicV2 (commitment_of o) (nullifier_of key (no_rho o) (commitment_of o) position) root.

Lemma path_root_wf position siblings current :
  Forall digest_wf siblings -> digest_wf current -> digest_wf (path_root node_value position siblings current).
Proof.
  destruct loaded_evaluator as [_ Ht]. destruct (loaded_payload _ _ Ht) as [payload Hp].
  intros Hs. revert position current. induction Hs as [|sibling siblings Hw _ IH]; intros position current Hc; [done|].
  cbn [path_root]. apply IH. unfold node_pair, path_pair.
  destruct (Z.odd position); by apply (node_total _ _ _ Hp Ht).
Qed.

Lemma opening_root_total o position siblings :
  Forall vector_wf siblings ->
  exists leaf root, from_tree (reference_leaf (tree_reference ev) tree (elements (commitment_of o))) = Ok leaf /\
    from_tree (root_from_path (tree_reference ev) tree leaf position (elements <$> siblings)) =
      Ok (opening_root o position siblings) /\
    public_value (opening_root o position siblings) = Ok root /\ elements root = opening_root o position siblings.
Proof.
  intros Hs. destruct loaded_evaluator as [_ Ht]. destruct (loaded_payload _ _ Ht) as [payload Hp].
  destruct (leaf_total _ _ _ Hp Ht _ (vector_digest_wf _ (proj2 (commitment_total o)))) as (Hl & _ & Hlw).
  destruct (path_loops_exact _ _ _ Hp Ht _ position 0 _ ltac:(lia) (vectors_digest_wf _ Hs) Hlw) as [Hpath _].
  rewrite Z.shiftr_0_r in Hpath.
  destruct (from_elements_total _ (path_root_wf position _ _ (vectors_digest_wf _ Hs) Hlw)) as (root & Hr & Hre).
  exists (leaf_value (elements (commitment_of o))), root. rewrite Hl. split; [done|].
  unfold root_from_path. rewrite validate_with_wf by apply Hlw. cbn [mbind result_bind]. rewrite Hpath.
  split; [done|]. unfold public_value, opening_root. by rewrite Hr.
Qed.

Lemma evaluate_witness_Ok o key position siblings expected d :
  Forall vector_wf siblings ->
  evaluate_witness tree privacy ev o key position siblings expected = Ok d <->
  owns o key position siblings expected /\ d = public_of o key position expected.
Proof.
  intros Hs. destruct (opening_root_total o position siblings Hs) as (leaf & root & Hl & Hr & Hv & Hre).
  unfold evaluate_witness. rewrite recipient_total. cbn [mbind result_bind].
  rewrite (proj1 (commitment_total o)). cbn [mbind result_bind].
  rewrite (proj1 (nullifier_total _ _ _ _)). cbn [mbind result_bind]. rewrite Hl. cbn [mbind result_bind].
  rewrite Hr. cbn [mbind result_bind]. rewrite Hv. cbn [mbind result_bind].
  case_bool_decide as Hrec; cbn [negb]; [|split; [done|by intros [[] _]]].
  case_bool_decide as Hroot; cbn [negb]; [subst root|].
  - split; [intros [= <-]; by split|by intros [_ ->]].
  - split; [done|]. intros [[_ He] _]. destruct Hroot. apply elements_inj. congruence.
Qed.

(** The witness that [new] retains. *)
Lemma witness_new_Ok o key position siblings expected w :
  Forall vector_wf siblings ->
  witness_new tree privacy ev o key position siblings expected = Ok w <->
  no_value o <> 0 /\ owns o key position siblings expected /\
  w = mk_SpendingWitnessV2 o key position siblings (public_of o key position expected).
Proof.
  intros Hs. unfold witness_new. destruct (Z.eqb_spec (no_value o) 0) as [H0|H0]; [split; [done|by intros []]|].
  pose proof (evaluate_witness_Ok o key position siblings expected) as Hex.
  destruct (evaluate_witness _ _ _ _ _ _ _ _) as [d|e]; cbn [mbind result_bind].
  - destruct (proj1 (Hex d Hs) eq_refl) as [Ho ->]. split; [by intros [= <-]|by intros (_ & _ & ->)].
  - split; [done|]. intros (_ & Ho & _). by pose proof (proj2 (Hex _ Hs) (conj Ho eq_refl)).
Qed.

(** A witness whose retained values are the ones it derives. *)
Record spends (w : SpendingWitnessV2) : Prop := mk_spends {
  sp_owns : owns (sw_opening w) (sw_nullifier_key w) (sw_leaf_position w) (sw_siblings w) (dn_merkle_root (sw_public w));
  sp_public : sw_public w =
    public_of (sw_opening w) (sw_nullifier_key w) (sw_leaf_position w) (dn_merkle_root (sw_public w))
}.

Lemma witness_revalidate_Ok w d :
  Forall vector_wf (sw_siblings w) ->
  witness_revalidate tree privacy ev w = Ok d <-> spends w /\ d = sw_public w.
Proof.
  intros Hs. unfold witness_revalidate.
  pose proof (fun d => evaluate_witness_Ok (sw_opening w) (sw_nullifier_key w) (sw_leaf_position w) (sw_siblings w)
    (dn_merkle_root (sw_public w)) d Hs) as Hex.
  destruct (evaluate_witness _ _ _ _ _ _ _ _) as [d'|e]; cbn [mbind result_bind].
  - destruct (proj1 (Hex d') eq_refl) as [Ho Hd].
    case_bool_decide as He; cbn [negb].
    + split; [intros [= <-]; split; [split; congruence|done]|intros [_ ->]; congruence].
    + split; [done|]. intros [[_ Hp] _]. congruence.
  - split; [done|]. intros [[Ho _] _]. by pose proof (proj2 (Hex _) (conj Ho eq_refl)).
Qed.

(** ** The statement of a transfer *)

Definition openings_of (i0 i1 : SpendingWitnessV2) (o0 o1 : NoteOpeningV2) : list NoteOpeningV2 :=
  [sw_opening i0; sw_opening i1; o0; o1].

Record statement (intent : PrivateTransferIntentV2) (i0 i1 : SpendingWitnessV2) (o0 o1 : NoteOpeningV2) : Prop :=
    mk_statement {
  st_parameters : manifest_candidate_id tree = Ok (tree_parameters_id (pi_tree_parameters intent));
  st_spends : spends i0 /\ spends i1;
  st_roots : dn_merkle_root (sw_public i0) = pi_pre_state_root intent /\
             dn_merkle_root (sw_public i1) = pi_pre_state_root intent;
  st_nullifiers : [dn_nullifier (sw_public i0); dn_nullifier (sw_public i1)] = intent_nullifiers intent;
  st_distinct : commitment_of (sw_opening i0) <> commitment_of (sw_opening i1) /\
                sw_leaf_position i0 <> sw_leaf_position i1;
  st_assets : Forall (fun o => no_asset_id o = pi_asset_id intent) (openings_of i0 i1 o0 o1);
  st_outputs : commitment_of <$> [o0; o1] = output_commitments intent;
  st_fresh : Forall (fun i => commitment_of (sw_opening i) ∉ output_commitments intent) [i0; i1];
  st_rho : NoDup (no_rho <$> openings_of i0 i1 o0 o1);
  st_rcm : NoDup (no_rcm <$> openings_of i0 i1 o0 o1);
  st_value : no_value (sw_opening i0) + no_value (sw_opening i1) = no_value o0 + no_value o1;
  st_bound : no_value o0 + no_value o1 <= U128_MAX
}.

Lemma check_assets_Ok asset error os :
  check_assets asset error os = Ok tt <-> Forall (fun o => no_asset_id o = asset) os.
Proof.
  unfold check_assets. rewrite Forall_forall.
  destruct (forallb _ os) eqn:Hall.
  - rewrite forallb_forall in Hall. split; [|done]. intros _ o Ho%list_elem_of_In. by apply Hall, bool_decide_eq_true in Ho.
  - split; [done|]. intros Hos. apply not_true_iff_false in Hall. destruct Hall. apply forallb_forall.
    intros o Ho%list_elem_of_In. by apply bool_decide_eq_true, Hos.
Qed.

Lemma unique_against_Ok o os :
  unique_against o os = Ok tt <-> no_rho o ∉ (no_rho <$> os) /\ no_rcm o ∉ (no_rcm <$> os).
Proof.
  unfold has_same_rho, has_same_rcm. induction os as [|p os IH]; cbn [unique_against].
  - split; [intros _; split; apply not_elem_of_nil|done].
  - unfold has_same_rho, has_same_rcm. rewrite !fmap_cons, !not_elem_of_cons.
    repeat case_bool_decide; [split; [done|tauto]..|]. rewrite IH. tauto.
Qed.

Lemma unique_openings_Ok os :
  unique_openings os = Ok tt <-> NoDup (no_rho <$> os) /\ NoDup (no_rcm <$> os).
Proof.
  induction os as [|o os IH]; cbn [unique_openings]; [split; [intros _; split; constructor|done]|].
  rewrite !fmap_cons, !NoDup_cons. pose proof (unique_against_Ok o os) as Ha.
  destruct (unique_against o os) as [[]|e]; cbn [mbind result_bind].
  - rewrite IH. tauto.
  - split; [done|]. intros [[H1 _] [H2 _]]. by pose proof (proj2 Ha (conj H1 H2)).
Qed.

Section Statement.
Context (intent : PrivateTransferIntentV2) (i0 i1 : SpendingWitnessV2) (o0 o1 : NoteOpeningV2).
Context (Hs0 : Forall vector_wf (sw_siblings i0)) (Hs1 : Forall vector_wf (sw_siblings i1)).

Lemma spends_commitment i : spends i -> dn_note_commitment (sw_public i) = commitment_of (sw_opening i).
Proof. intros [_ Hp]. by rewrite Hp. Qed.

Lemma validate_input_bindings_Ok p0 p1 :
  validate_input_bindings intent p0 p1 = Ok tt <->
  (dn_merkle_root p0 = pi_pre_state_root intent /\ dn_merkle_root p1 = pi_pre_state_root intent) /\
  [dn_nullifier p0; dn_nullifier p1] = intent_nullifiers intent.
Proof. unfold validate_input_bindings. repeat case_bool_decide; cbn [negb orb]; naive_solver. Qed.

Lemma validated_statement : validate tree privacy ev intent i0 i1 o0 o1 = Ok tt -> statement intent i0 i1 o0 o1.
Proof.
  unfold validate, from_opening, candidate_tree_parameters_id. intros Hok.
  rewrite !(proj1 (commitment_total _)) in Hok. inv_ok. destruct_units. zbool.
  repeat match goal with
  | H : witness_revalidate _ _ _ _ = Ok _ |- _ => apply witness_revalidate_Ok in H as [? ->]; [|assumption]
  | H : validate_input_bindings _ _ _ = Ok _ |- _ => apply validate_input_bindings_Ok in H as [? ?]
  | H : check_assets _ _ _ = Ok _ |- _ => apply check_assets_Ok in H
  | H : validate_local_randomness_uniqueness _ _ = Ok _ |- _ => apply unique_openings_Ok in H as [? ?]
  | H : checked_add _ _ _ = Some _ |- _ => apply checked_add_Some in H as [-> ?]
  | H : spends ?i, H' : context [dn_note_commitment (sw_public ?i)] |- _ => rewrite (spends_commitment i H) in H'
  end.
  split; try done.
  - congruence.
  - by apply (Forall_app_2 _ [sw_opening i0; sw_opening i1] [o0; o1]).
  - rewrite <-Hb1. by repeat constructor.
Qed.

Lemma statement_validates : statement intent i0 i1 o0 o1 -> validate tree privacy ev intent i0 i1 o0 o1 = Ok tt.
Proof.
  intros [Hid [Hw0 Hw1] Hroots Hnf [Hc Hp] Hassets Hout Hfresh Hrho Hrcm Hvalue Hbound].
  apply (Forall_app _ [sw_opening i0; sw_opening i1] [o0; o1]) in Hassets as [Hin Hon].
  rewrite !Forall_cons in Hfresh. destruct Hfresh as (Hf0 & Hf1 & _).
  unfold validate, from_opening, candidate_tree_parameters_id. rewrite Hid. cbn [map_err mbind result_bind].
  rewrite bool_decide_true by done. cbn [negb].
  rewrite (proj2 (witness_revalidate_Ok i0 _ Hs0) (conj Hw0 eq_refl)). cbn [map_err mbind result_bind].
  rewrite (proj2 (witness_revalidate_Ok i1 _ Hs1) (conj Hw1 eq_refl)). cbn [map_err mbind result_bind].
  rewrite (proj2 (validate_input_bindings_Ok _ _) (conj Hroots Hnf)). cbn [mbind result_bind].
  rewrite !spends_commitment, (bool_decide_false _ Hc), (proj2 (Z.eqb_neq _ _) Hp) by done. cbn [orb].
  rewrite (proj2 (check_assets_Ok _ _ _) Hin), !(proj1 (commitment_total _)). cbn [map_err mbind result_bind].
  change (commitment_of <$> [o0; o1]) with [commitment_of o0; commitment_of o1] in Hout. rewrite Hout.
  rewrite bool_decide_true, !bool_decide_false by done. cbn [negb orb].
  rewrite (proj2 (check_assets_Ok _ _ _) Hon). cbn [mbind result_bind].
  assert (Hunique : validate_local_randomness_uniqueness [i0; i1] [o0; o1] = Ok tt) by by apply unique_openings_Ok.
  rewrite Hunique. cbn [mbind result_bind].
  pose proof Hbound as Hbound0. rewrite <-Hvalue in Hbound0.
  rewrite (proj2 (checked_add_Some _ _ _ _) (conj eq_refl Hbound0)).
  rewrite (proj2 (checked_add_Some _ _ _ _) (conj eq_refl Hbound)). cbn [ok_or mbind result_bind].
  by rewrite Hvalue, Z.eqb_refl.
Qed.

End Statement.

(** C16: the validator accepts a transfer exactly when it satisfies the statement: the
    intent names the loaded tree; each input is owned by its key and its path leads to
    the intent's root; the two nullifiers and the two output commitments are the
    intent's, in order; the inputs are different notes at different positions; no
    output repeats an input; all four notes have the intent's asset; no randomness is
    shared; and the values balance without overflow. *)
Theorem validate_exact intent i0 i1 o0 o1
    (H0 : Forall vector_wf (sw_siblings i0)) (H1 : Forall vector_wf (sw_siblings i1)) :
  validate tree privacy ev intent i0 i1 o0 o1 = Ok tt <-> statement intent i0 i1 o0 o1.
Proof. split; [by apply validated_statement|by apply statement_validates]. Qed.

(** ** Public inputs of the proof *)

Definition air_frame (intent : PrivateTransferIntentV2) : CandidatePrivateTransferAirPublicInputsV1 :=
  mk_CandidatePrivateTransferAirPublicInputsV1 intent (byte_pack3le_variable (intent_encode intent))
    (vector_of (hash_private_transfer_intent privacy (private_reference ev) intent)).

Lemma air_from_intent_Ok intent f :
  air_from_intent tree privacy intent = Ok f <->
  manifest_candidate_id tree = Ok (tree_parameters_id (pi_tree_parameters intent)) /\ f = air_frame intent.
Proof.
  unfold air_from_intent, air_frame. rewrite (proj1 loaded_evaluator), byte_pack3le_intent_eq.
  destruct (intent_hash_total tree privacy _ (proj1 loaded_evaluator) intent) as (v & Hv & _). rewrite Hv.
  destruct (manifest_candidate_id tree) as [id|e]; cbn [map_err mbind result_bind]; [|by split; [|intros []]].
  case_bool_decide as Hid; cbn [negb map_err mbind result_bind vector_of]; [subst; rewrite Hv|]; split; [|by intros [_ ->]|done|].
  - by intros [= <-].
  - intros [[= Hid'] _]. congruence.
Qed.

Lemma air_revalidate_Ok f :
  air_revalidate tree privacy f = Ok tt <->
  manifest_candidate_id tree = Ok (tree_parameters_id (pi_tree_parameters (ap_intent f))) /\ f = air_frame (ap_intent f).
Proof.
  unfold air_revalidate. pose proof (air_from_intent_Ok (ap_intent f)) as Hex.
  destruct (air_from_intent tree privacy (ap_intent f)) as [g|e]; cbn [mbind result_bind].
  - destruct (proj1 (Hex g) eq_refl) as [Hid Hg]. rewrite Hg. split.
    + intros Hok. inv_ok. zbool. split; [done|]. destruct f; cbn in *. unfold air_frame in *. congruence.
    + intros [_ ->]. cbn [ap_intent air_frame]. by rewrite !bool_decide_true.
  - split; [done|]. intros [Hid _]. by pose proof (proj2 (Hex _) (conj Hid eq_refl)).
Qed.

Lemma intent_encode_inj i j : intent_wf i -> intent_wf j -> intent_encode i = intent_encode j -> i = j.
Proof.
  intros Hi Hj He. pose proof (proj2 (intent_decode_Ok _ _) (conj Hi eq_refl)) as H1.
  rewrite He, (proj2 (intent_decode_Ok _ _) (conj Hj eq_refl)) in H1. by injection H1.
Qed.

(** C33: the public inputs of a proof revalidate exactly when they are those the
    contract derives from their intent, and their 214 packed elements alone determine
    the intent and with it the whole frame: no two frames that revalidate share them. *)
Theorem air_frame_binds_intent f g
    (Hf : intent_wf (ap_intent f)) (Hg : intent_wf (ap_intent g)) :
  (air_revalidate tree privacy f = Ok tt <-> air_from_intent tree privacy (ap_intent f) = Ok f) /\
  (air_revalidate tree privacy f = Ok tt -> air_revalidate tree privacy g = Ok tt ->
   ap_intent_elements f = ap_intent_elements g -> f = g).
Proof.
  rewrite air_from_intent_Ok, !air_revalidate_Ok. split; [done|]. intros [_ Hff] [_ Hgg] He.
  rewrite Hff, Hgg in He. cbn [ap_intent_elements air_frame] in He.
  apply byte_pack3le_inj in He; [|by apply Nat2Z.inj; rewrite !length_intent_encode].
  apply intent_encode_inj in He; [|done..]. by rewrite Hff, Hgg, He.
Qed.

End Loaded.
