(* ===== verification/PrivateValue.v ===== *)
(** * The private ledger conserves value

    The ledger sees commitments and nullifiers only.  When the authorization of every
    transfer proves the statement of [noxis-note-opening], and the hashes show no
    collision on what the run feeds them, the ledger is an account of openings: each
    input is an opening it holds and has not spent, and for every asset the unspent
    value is the same after any sequence of operations. *)

From Stdlib Require Import Strings.Byte.
From stdpp Require Import gmap.
From S2P Require Import Prelude Arrays Sha256 Types BabyBear Privacy Poseidon2 Poseidon2Facts Fips180 TreeManifestFacts FullTree NoteTreeFacts.
From S2P Require Import NullifierTree NullifierTreeFacts ChildManifests ChildManifestFacts NoteHashes NoteHashesFacts.
From S2P Require Import PrivateState PrivateLedger PrivateStateFacts PrivateTransitionFacts PrivateLedgerFacts NoteOpening NoteOpeningFacts.

#[local] Opaque P24_TREE_DEPTH NULLIFIER_SPARSE_TREE_DEPTH_V1 apply_transfer.

(** ** Accounts *)

(** The openings behind the notes of a ledger, and the positions spent. *)
Record Book : Type := mk_Book {
  bk_openings : list NoteOpeningV2;
  bk_spent : gset Z
}.

Definition worth (asset : AssetId) (o : NoteOpeningV2) : Z :=
  if bool_decide (no_asset_id o = asset) then no_value o else 0.

Fixpoint unspent_from (asset : AssetId) (spent : gset Z) (position : Z) (os : list NoteOpeningV2) : Z :=
  match os with
  | [] => 0
  | o :: os =>
      (if bool_decide (position ∈ spent) then 0 else worth asset o) + unspent_from asset spent (position + 1) os
  end.

Definition unspent_value (asset : AssetId) (book : Book) : Z :=
  unspent_from asset (bk_spent book) 0 (bk_openings book).

Section Accounts.
Context (asset : AssetId).

Lemma unspent_app spent position os os' :
  unspent_from asset spent position (os ++ os') =
  unspent_from asset spent position os + unspent_from asset spent (position + len os) os'.
Proof.
  revert position. induction os as [|o os IH]; intros position; cbn [app unspent_from length].
  - by rewrite Z.add_0_r.
  - rewrite IH. replace (position + 1 + len os) with (position + Z.of_nat (S (length os))) by lia. lia.
Qed.

(** A position before the openings does not matter. *)
Lemma unspent_before spent position os p :
  p < position -> unspent_from asset ({[p]} ∪ spent) position os = unspent_from asset spent position os.
Proof.
  revert position. induction os as [|o os IH]; intros position Hp; cbn [unspent_from]; [done|].
  rewrite IH by lia. f_equal. apply (f_equal (fun b : bool => if b then 0 else worth asset o)).
  apply bool_decide_ext. set_unfold. intuition lia.
Qed.

Lemma unspent_spend spent position os k o :
  os !! k = Some o -> position + Z.of_nat k ∉ spent ->
  unspent_from asset ({[position + Z.of_nat k]} ∪ spent) position os =
  unspent_from asset spent position os - worth asset o.
Proof.
  revert position k. induction os as [|o' os IH]; intros position [|k] Hk Hfresh; cbn in Hk; try done; cbn [unspent_from].
  - injection Hk as ->. rewrite Z.add_0_r in *. rewrite unspent_before by lia.
    rewrite bool_decide_true by set_solver. rewrite bool_decide_false by done. lia.
  - replace (position + Z.of_nat (S k)) with (position + 1 + Z.of_nat k) in * by lia. rewrite (IH _ _ Hk Hfresh).
    replace (bool_decide (position ∈ {[position + 1 + Z.of_nat k]} ∪ spent)) with (bool_decide (position ∈ spent)); [lia|].
    apply bool_decide_ext. set_unfold. intuition lia.
Qed.

Lemma unspent_transfer spent os k0 k1 a0 a1 o0 o1 :
  os !! k0 = Some a0 -> os !! k1 = Some a1 -> k0 <> k1 -> Z.of_nat k0 ∉ spent -> Z.of_nat k1 ∉ spent ->
  (forall p, p ∈ spent -> p < len os) ->
  unspent_from asset ({[Z.of_nat k0]} ∪ ({[Z.of_nat k1]} ∪ spent)) 0 (os ++ [o0; o1]) =
  unspent_from asset spent 0 os - worth asset a0 - worth asset a1 + worth asset o0 + worth asset o1.
Proof.
  intros H0 H1 Hne Hf0 Hf1 Hspent. rewrite unspent_app.
  pose proof (unspent_spend ({[Z.of_nat k1]} ∪ spent) 0 os k0 a0 H0) as E0.
  pose proof (unspent_spend spent 0 os k1 a1 H1) as E1. rewrite !Z.add_0_l in *.
  rewrite E0, E1 by (set_unfold; intuition lia). apply lookup_lt_Some in H0, H1. cbn [unspent_from].
  rewrite !bool_decide_false; [lia|..].
  all: intros Hp; rewrite !elem_of_union, !elem_of_singleton in Hp; destruct Hp as [?|[?|?%Hspent]]; lia.
Qed.

End Accounts.

(** ** Transfers *)

Section Loaded.
Context `{Sha2} (tree : P24Manifest) `{!P24ManifestLaws tree} {E : Type} (sparse : SparseManifest E).
Context `{!SparseManifestLaws sparse} (r : NullifierSparseTreeReferenceV1).
Context (Hsparse : load_sparse_reference tree sparse = Ok r).
Context (privacy : PrivacyManifest) `{!PrivacyManifestLaws privacy}.
Context (ev : CandidateP24NoteOpeningEvaluatorV2) (Hev : load_evaluator tree privacy = Ok ev).

Abbreviation ledger_wf := (ledger_wf tree sparse (tree_reference ev) r).
Abbreviation commitment_of := (commitment_of privacy ev).
Abbreviation recipient_of := (recipient_of privacy ev).
Abbreviation nullifier_of := (nullifier_of privacy ev).
Abbreviation leaf_value := (leaf_value tree (tree_reference ev)).
Abbreviation node_value := (node_value tree (tree_reference ev)).

(** The ranges of the types of a witness. *)
Record witness_wf (i : SpendingWitnessV2) : Prop := mk_witness_wf {
  ww_position : 0 <= sw_leaf_position i < 2 ^ Z.of_nat P24_TREE_DEPTH;
  ww_length : length (sw_siblings i) = P24_TREE_DEPTH;
  ww_siblings : Forall vector_wf (sw_siblings i)
}.

(** The path of an input and the tree over some notes show no collision. *)
Record path_honest (notes : list Vector) (i : SpendingWitnessV2) : Prop := mk_path_honest {
  ph_nodes :
    let leaf := note_leaf tree (tree_reference ev) (elements <$> notes) in
    no_collision node_value
      (path_pairs node_value (sw_leaf_position i) (elements <$> sw_siblings i)
        (leaf_value (elements (commitment_of (sw_opening i)))))
      (path_pairs node_value (sw_leaf_position i)
        (tree_siblings node_value leaf 0 (sw_leaf_position i) P24_TREE_DEPTH) (leaf (sw_leaf_position i)));
  ph_leaves : forall n, n ∈ notes ->
    leaf_value (elements n) = leaf_value (elements (commitment_of (sw_opening i))) -> n = commitment_of (sw_opening i);
  ph_empty : leaf_value (elements (commitment_of (sw_opening i))) <> empty_base tree (tree_reference ev)
}.

Lemma ledger_root l : ledger_wf l ->
  elements (a2_note_root (pl_anchor l)) = note_root tree (tree_reference ev) (elements <$> ledger_notes l).
Proof.
  intros [Hsn _ Ha]. unfold ledger_notes. rewrite <-(snw_root _ _ _ Hsn). f_equal.
  unfold anchor2_new in Ha. inv_ok. by apply (f_equal a2_note_root) in Ha.
Qed.

(** An input of an accepted transfer is a note of the ledger. *)
Lemma input_in_ledger l i :
  ledger_wf l -> witness_wf i -> spends tree privacy ev i -> dn_merkle_root (sw_public i) = a2_note_root (pl_anchor l) ->
  path_honest (ledger_notes l) i ->
  ledger_notes l !! Z.to_nat (sw_leaf_position i) = Some (commitment_of (sw_opening i)).
Proof.
  intros Hl [Hp Hlen Hs] [[_ Hroot] _] Hanchor [Hnodes Hleaves Hempty].
  rewrite Hanchor, (ledger_root l Hl) in Hroot. symmetry in Hroot. unfold opening_root in Hroot.
  pose proof (path_root_member tree (tree_reference ev) (elements <$> ledger_notes l) (sw_leaf_position i)
    (elements (commitment_of (sw_opening i))) (elements <$> sw_siblings i)) as Hm.
  assert (Hin : (elements <$> ledger_notes l) !! Z.to_nat (sw_leaf_position i) =
    Some (elements (commitment_of (sw_opening i)))).
  { apply Hm; [by rewrite length_fmap|done|done| |done|done].
    intros e (n & -> & Hn)%list_elem_of_fmap He. by rewrite (Hleaves n Hn He). }
  rewrite list_lookup_fmap in Hin. destruct (ledger_notes l !! _) as [n|]; [|done]. cbn in Hin.
  injection Hin as Hin. by rewrite (elements_inj _ _ Hin).
Qed.

(** ** Runs *)

(** What the hashes are fed along a run; no two of either collide. *)
Context (known : NoteOpeningV2 -> Prop) (keys : array 32 -> Prop).
Context (Hnotes : forall a b, known a -> known b -> commitment_of a = commitment_of b -> a = b).
Context (Hkeys : forall a b, keys a -> keys b -> recipient_of a = recipient_of b -> a = b).

(** The book accounts for the ledger. *)
Record accounts (l : CandidatePrivateLedgerStateV1) (book : Book) : Prop := mk_accounts {
  bw_known : Forall known (bk_openings book);
  bw_notes : commitment_of <$> bk_openings book = ledger_notes l;
  bw_spent : forall p, p ∈ bk_spent book -> exists o key, 0 <= p /\ bk_openings book !! Z.to_nat p = Some o /\
    keys key /\ recipient_of key = no_recipient_commitment o /\
    nullifier_of key (no_rho o) (commitment_of o) p ∈ ledger_spent l
}.

(** What a run feeds the hashes for one input. *)
Record input_honest (l : CandidatePrivateLedgerStateV1) (i : SpendingWitnessV2) : Prop := mk_input_honest {
  ih_known : known (sw_opening i);
  ih_key : keys (sw_nullifier_key i);
  ih_path : path_honest (ledger_notes l) i
}.

Lemma input_unspent l book i :
  ledger_wf l -> accounts l book -> witness_wf i -> spends tree privacy ev i -> input_honest l i ->
  dn_merkle_root (sw_public i) = a2_note_root (pl_anchor l) -> dn_nullifier (sw_public i) ∉ ledger_spent l ->
  bk_openings book !! Z.to_nat (sw_leaf_position i) = Some (sw_opening i) /\ sw_leaf_position i ∉ bk_spent book.
Proof.
  intros Hl [Hknown Hbook Hspent] Hw Hsp [Hk Hkey Hpath] Hroot Hfresh.
  pose proof (input_in_ledger l i Hl Hw Hsp Hroot Hpath) as Hin. rewrite <-Hbook, list_lookup_fmap in Hin.
  destruct (bk_openings book !! _) as [o|] eqn:Ho; cbn in Hin; [|done]. injection Hin as Hin.
  apply Hnotes in Hin as ->; [|by eapply Forall_lookup_1|done]. split; [done|].
  intros (o & key & _ & Ho' & Hkey' & Hrec & Hnf)%Hspent. rewrite Ho in Ho'. injection Ho' as <-.
  destruct Hsp as [[Hrec' _] Hpub]. rewrite <-Hrec' in Hrec. apply Hkeys in Hrec as ->; [|done..].
  apply Hfresh. by rewrite Hpub.
Qed.

Definition book_transfer (w : CandidatePrivateTransferWitnessV2) (book : Book) : Book :=
  mk_Book (bk_openings book ++ [tw_output0 w; tw_output1 w])
    ({[sw_leaf_position (tw_input0 w)]} ∪ ({[sw_leaf_position (tw_input1 w)]} ∪ bk_spent book)).

Record transfer_honest (l : CandidatePrivateLedgerStateV1) (w : CandidatePrivateTransferWitnessV2) : Prop :=
    mk_transfer_honest {
  th_input0 : input_honest l (tw_input0 w);
  th_input1 : input_honest l (tw_input1 w);
  th_output0 : known (tw_output0 w);
  th_output1 : known (tw_output1 w)
}.

Record transfer_wf (w : CandidatePrivateTransferWitnessV2) : Prop := mk_transfer_wf {
  tw_wf0 : witness_wf (tw_input0 w);
  tw_wf1 : witness_wf (tw_input1 w)
}.

Section Step.
Context (l l' : CandidatePrivateLedgerStateV1) (book : Book) (w : CandidatePrivateTransferWitnessV2).
Context (receipt : CandidatePrivateTransferAdmissionReceiptV1).
Context (Hl : ledger_wf l) (Hbook : accounts l book) (Hw : transfer_wf w) (Hhonest : transfer_honest l w).
Context (Hstatement : statement tree privacy ev (tw_intent w) (tw_input0 w) (tw_input1 w) (tw_output0 w) (tw_output1 w)).
Context (Had : admissible (pl_anchor l) (pl_snapshot l) (tw_intent w)).
Context (Htf : transferred l (tw_intent w) receipt l').

Lemma inputs_unspent i :
  i ∈ [tw_input0 w; tw_input1 w] ->
  bk_openings book !! Z.to_nat (sw_leaf_position i) = Some (sw_opening i) /\ sw_leaf_position i ∉ bk_spent book.
Proof.
  destruct Hstatement as [_ [Hs0 Hs1] [Hr0 Hr1] Hnf _ _ _ _ _ _ _ _], Hw as [Hw0 Hw1], Hhonest as [Hh0 Hh1 _ _].
  pose proof (ad_anchor _ _ _ Had) as Hanchor. unfold assert_matches_intent in Hanchor. inv_ok. zbool.
  pose proof (ad_fresh _ _ _ Had) as Hfresh. rewrite <-Hnf in Hfresh.
  intros [->|[->|[]%not_elem_of_nil]%elem_of_cons]%elem_of_cons; apply (input_unspent l); try done; try congruence.
  all: apply Hfresh; set_solver.
Qed.

Lemma input_nullifier i :
  i ∈ [tw_input0 w; tw_input1 w] ->
  recipient_of (sw_nullifier_key i) = no_recipient_commitment (sw_opening i) /\ keys (sw_nullifier_key i) /\
  nullifier_of (sw_nullifier_key i) (no_rho (sw_opening i)) (commitment_of (sw_opening i)) (sw_leaf_position i) ∈
    ledger_spent l'.
Proof.
  destruct Hstatement as [_ [[[Hrec0 _] Hp0] [[Hrec1 _] Hp1]] _ Hnf _ _ _ _ _ _ _ _], Hhonest as [[_ Hk0 _] [_ Hk1 _] _ _].
  rewrite (tf_spent _ _ _ _ Htf), <-Hnf, Hp0, Hp1. cbn [dn_nullifier public_of].
  intros [->|[->|[]%not_elem_of_nil]%elem_of_cons]%elem_of_cons; split; try done; split; try done; set_solver.
Qed.

Lemma book_accounts : accounts l' (book_transfer w book).
Proof.
  split; cbn [bk_openings bk_spent book_transfer].
  - apply Forall_app_2; [apply Hbook|]. apply Forall_cons. split; [apply Hhonest|]. apply Forall_singleton, Hhonest.
  - rewrite fmap_app, (bw_notes _ _ Hbook), (st_outputs _ _ _ _ _ _ _ _ Hstatement). by rewrite (tf_notes _ _ _ _ Htf).
  - assert (Hinput : forall i, i ∈ [tw_input0 w; tw_input1 w] -> 0 <= sw_leaf_position i).
    { destruct Hw as [[Hp0 _ _] [Hp1 _ _]].
      intros i [->|[->|[]%not_elem_of_nil]%elem_of_cons]%elem_of_cons; [apply Hp0|apply Hp1]. }
    intros p Hp. rewrite !elem_of_union, !elem_of_singleton in Hp.
    assert ((exists i, i ∈ [tw_input0 w; tw_input1 w] /\ p = sw_leaf_position i) \/ p ∈ bk_spent book)
      as [(i & Hi & ->)|Hold] by set_solver.
    + exists (sw_opening i), (sw_nullifier_key i). destruct (inputs_unspent i Hi) as [Ho _].
      destruct (input_nullifier i Hi) as (Hrec & Hkey & Hnf).
      split; [by apply Hinput|]. split; [by apply lookup_app_l_Some|done].
    + destruct (bw_spent _ _ Hbook p Hold) as (o & key & Hp0 & Ho & Hkey & Hrec & Hnf). exists o, key.
      split; [done|]. split; [by apply lookup_app_l_Some|]. split; [done|]. split; [done|].
      rewrite (tf_spent _ _ _ _ Htf). set_solver.
Qed.

Lemma book_conserves asset : unspent_value asset (book_transfer w book) = unspent_value asset book.
Proof.
  destruct (inputs_unspent (tw_input0 w) ltac:(set_solver)) as [Ho0 Hf0].
  destruct (inputs_unspent (tw_input1 w) ltac:(set_solver)) as [Ho1 Hf1].
  destruct Hw as [[[Hp0 _] _ _] [[Hp1 _] _ _]].
  destruct Hstatement as [_ _ _ _ [_ Hne] Hassets _ _ _ _ Hvalue _]. unfold openings_of in Hassets.
  rewrite !Forall_cons in Hassets. destruct Hassets as (Ha0 & Ha1 & Hb0 & Hb1 & _).
  unfold unspent_value. cbn [bk_openings bk_spent book_transfer].
  rewrite <-(Z2Nat.id (sw_leaf_position (tw_input0 w))), <-(Z2Nat.id (sw_leaf_position (tw_input1 w))) by done.
  rewrite (unspent_transfer asset _ _ _ _ _ _ _ _ Ho0 Ho1); rewrite ?Z2Nat.id by done; try done; [|lia|].
  - unfold worth. rewrite Ha0, Ha1, Hb0, Hb1. case_bool_decide; lia.
  - intros p (o & key & Hp & Ho & _)%(bw_spent _ _ Hbook). apply lookup_lt_Some in Ho. lia.
Qed.

End Step.

Context {A : Type} `{!CandidatePrivateTransferAuthorizer A}.
(** An authorization that verifies proves knowledge of a witness of the statement. *)
Context (extract : A -> PrivateTransferIntentV2 -> CandidatePrivateTransferWitnessV2).
Context (Hextract : forall a anchor nt intent, authorizer_verify a anchor nt intent = Ok tt ->
  tw_intent (extract a intent) = intent /\ transfer_wf (extract a intent) /\
  transfer_witness_revalidate tree privacy ev (extract a intent) = Ok tt).

Definition witness_of (request : CandidatePrivateTransferRequestV1 A) : CandidatePrivateTransferWitnessV2 :=
  extract (rq_authorization request) (rq_intent request).

(** The ledger and the book over a sequence of operations. *)
Fixpoint run_book (ops : list LedgerOperation) (l : CandidatePrivateLedgerStateV1) (book : Book)
    : CandidatePrivateLedgerStateV1 * Book :=
  match ops with
  | [] => (l, book)
  | RegisterAsset asset :: ops => run_book ops (@register_asset E asset l).2 book
  | Transfer request :: ops =>
      match apply_transfer tree sparse request l with
      | (Ok _, l') => run_book ops l' (book_transfer (witness_of request) book)
      | (Err _, l') => run_book ops l' book
      end
  end.

(** No transfer the run admits shows a collision. *)
Fixpoint run_honest (ops : list (@LedgerOperation A)) (l : CandidatePrivateLedgerStateV1) : Prop :=
  match ops with
  | [] => True
  | RegisterAsset asset :: ops => run_honest ops (@register_asset E asset l).2
  | Transfer request :: ops =>
      match apply_transfer tree sparse request l with
      | (Ok _, l') => transfer_honest l (witness_of request) /\ run_honest ops l'
      | (Err _, l') => run_honest ops l'
      end
  end.

Lemma run_book_ledger ops l book : (run_book ops l book).1 = (run_ledger tree sparse ops l).2.
Proof.
  revert l book. induction ops as [|[asset|request] ops IH]; intros l book; cbn [run_book run_ledger]; [done|apply IH|].
  destruct (apply_transfer tree sparse request l) as [[receipt|e] l1]; rewrite IH; by destruct (run_ledger tree sparse ops l1).
Qed.

Lemma transfer_step l book request receipt l' :
  ledger_wf l -> accounts l book -> intent_wf (rq_intent request) -> transfer_honest l (witness_of request) ->
  apply_transfer tree sparse request l = (Ok receipt, l') ->
  ledger_wf l' /\ accounts l' (book_transfer (witness_of request) book) /\
  forall asset, unspent_value asset (book_transfer (witness_of request) book) = unspent_value asset book.
Proof.
  intros Hl Hbook Hi Hhonest Ht. pose proof (proj2 (loaded_evaluator _ _ _ Hev)) as Hload.
  destruct (apply_transfer_Ok tree sparse _ Hload r Hsparse l request Hl Hi receipt l' Ht) as (Hac & Hl' & Htf).
  destruct (Hextract _ _ _ _ (ac_authorized _ _ Hac)) as (Hintent & Hwf & Hval).
  change (extract _ _) with (witness_of request) in Hintent, Hwf, Hval.
  assert (Hst : statement tree privacy ev (tw_intent (witness_of request)) (tw_input0 (witness_of request))
    (tw_input1 (witness_of request)) (tw_output0 (witness_of request)) (tw_output1 (witness_of request))).
  { destruct Hwf as [[_ _ Hs0] [_ _ Hs1]]. by apply (validated_statement _ _ _ Hev). }
  pose proof (ac_admissible _ _ Hac) as Had. rewrite <-Hintent in Had, Htf.
  split; [done|].
  split; [exact (book_accounts l l' book _ receipt Hl Hbook Hwf Hhonest Hst Had Htf)|].
  exact (book_conserves l l' book _ receipt Hl Hbook Hwf Hhonest Hst Had Htf).
Qed.

Lemma run_book_invariant ops l book :
  ledger_wf l -> accounts l book -> Forall operation_wf ops -> run_honest ops l ->
  accounts (run_book ops l book).1 (run_book ops l book).2 /\
  forall asset, unspent_value asset (run_book ops l book).2 = unspent_value asset book.
Proof.
  revert l book. induction ops as [|[asset|request] ops IH]; intros l book Hl Hbook Hops Hhonest;
    cbn [run_book run_honest] in *; [done|..]; apply Forall_cons in Hops as [Hop Hops].
  - destruct (@register_asset_eq E asset l) as [He|[assets He]]; rewrite He in *; [by apply IH|].
    apply IH; try done. by destruct Hbook.
  - destruct (apply_transfer tree sparse request l) as [[receipt|e] l1] eqn:Ht.
    + destruct Hhonest as [Hh Hhonest].
      destruct (transfer_step l book request receipt l1 Hl Hbook Hop Hh Ht) as (Hl1 & Hbook1 & Hv1).
      destruct (IH l1 _ Hl1 Hbook1 Hops Hhonest) as [Ha Hv]. split; [exact Ha|]. intros a. by rewrite Hv, Hv1.
    + rewrite (apply_transfer_Err tree sparse l request e l1 Ht) in *. by apply IH.
Qed.

(** C8: when every authorization that verifies proves knowledge of a witness of the
    statement, and the hashes show no collision on the openings, the keys and the paths
    that the run uses, no sequence of registrations and transfers creates or destroys
    private value: the openings with the outputs added are always those of the notes of
    the ledger, and for every asset the value not yet spent stays what it was. *)
Theorem private_value_conserved ops l os
    (Hl : ledger_wf l) (Hos : commitment_of <$> os = ledger_notes l) (Hknown : Forall known os)
    (Hops : Forall operation_wf ops) (Hhonest : run_honest ops l) :
  let '(l', book) := run_book ops l (mk_Book os ∅) in
  (run_ledger tree sparse ops l).2 = l' /\
  commitment_of <$> bk_openings book = ledger_notes l' /\
  forall asset, unspent_value asset book = unspent_value asset (mk_Book os ∅).
Proof.
  assert (Hbook : accounts l (mk_Book os ∅)) by (split; set_solver).
  pose proof (run_book_ledger ops l (mk_Book os ∅)) as Hrun.
  destruct (run_book_invariant ops l _ Hl Hbook Hops Hhonest) as [Ha Hv].
  destruct (run_book ops l (mk_Book os ∅)) as [l' book]. cbn [fst snd] in *.
  split; [done|]. split; [apply Ha|exact Hv].
Qed.

End Loaded.
