(* ===== verification/PrivateSpend.v ===== *)
(** * The owner of two notes can spend them

    A note of the tree has a path, so a key that owns it has a witness that the
    evaluator accepts and that shows no collision.  Two such inputs and two outputs of
    the same value make a transfer that the statement and the ledger both accept. *)

From Stdlib Require Import Strings.Byte.
From stdpp Require Import gmap.
From S2P Require Import Prelude Arrays Sha256 Types BabyBear Privacy Poseidon2 Poseidon2Facts TreeManifestFacts FullTree NoteTreeFacts.
From S2P Require Import NullifierTree NullifierTreeFacts ChildManifests NoteHashes NoteHashesFacts.
From S2P Require Import PrivateState PrivateLedger PrivateStateFacts PrivateTransitionFacts PrivateLedgerFacts NoteOpening NoteOpeningFacts PrivateValue.

#[local] Opaque P24_TREE_DEPTH NULLIFIER_SPARSE_TREE_DEPTH_V1 apply_transfer.

(** ** Vectors with given elements *)

Definition digest_vector (ds : list Z) : Vector := default (fill 64 x00) (try_into 64 (concat (to_le_bytes 4 <$> ds))).

Lemma digest_vector_elements ds : digest_wf ds -> elements (digest_vector ds) = ds.
Proof.
  intros [Hl Hw]. unfold digest_vector.
  destruct (try_into_is_Some 64 (concat (to_le_bytes 4 <$> ds))) as (v & -> & Hv); [by rewrite length_concat_le, Hl|].
  cbn. unfold elements. rewrite Hv. by apply elements_of_concat.
Qed.

Lemma digest_vector_wf ds : digest_wf ds -> vector_wf (digest_vector ds).
Proof.
  intros Hw. unfold vector_wf. rewrite digest_vector_elements by done. eapply Forall_impl; [apply Hw|]. by intros e [].
Qed.

Lemma digest_vectors ds :
  Forall digest_wf ds -> Forall vector_wf (digest_vector <$> ds) /\ elements <$> (digest_vector <$> ds) = ds.
Proof.
  intros Hw. split; [apply Forall_fmap; eapply Forall_impl; [exact Hw|apply digest_vector_wf]|].
  induction Hw as [|d ds Hd _ IH]; [done|]. rewrite !fmap_cons, IH. f_equal. by apply digest_vector_elements.
Qed.

Section Loaded.
Context `{Sha2} (tree : P24Manifest) `{!P24ManifestLaws tree} {E : Type} (sparse : SparseManifest E).
Context `{!SparseManifestLaws sparse} (r : NullifierSparseTreeReferenceV1).
Context (Hsparse : load_sparse_reference tree sparse = Ok r).
Context (candidate : array 32) (Hcandidate : sparse_candidate_id sparse = Ok candidate).
Context (privacy : PrivacyManifest) `{!PrivacyManifestLaws privacy}.
Context (ev : CandidateP24NoteOpeningEvaluatorV2) (Hev : load_evaluator tree privacy = Ok ev).

Abbreviation ledger_wf := (ledger_wf tree sparse (tree_reference ev) r).
Abbreviation commitment_of := (commitment_of privacy ev).
Abbreviation recipient_of := (recipient_of privacy ev).
Abbreviation nullifier_of := (nullifier_of privacy ev).
Abbreviation leaf_value := (leaf_value tree (tree_reference ev)).
Abbreviation node_value := (node_value tree (tree_reference ev)).

(** ** The witness of an owner *)

Definition note_path (notes : list Vector) (position : Z) : list Vector :=
  digest_vector <$> tree_siblings node_value (note_leaf tree (tree_reference ev) (elements <$> notes)) 0 position P24_TREE_DEPTH.

Definition owner_input (notes : list Vector) (root : Vector) (o : NoteOpeningV2) (key : array 32) (position : Z)
    : SpendingWitnessV2 :=
  mk_SpendingWitnessV2 o key position (note_path notes position) (public_of privacy ev o key position root).

(** The key owns the note at a position. *)
Record holds (notes : list Vector) (o : NoteOpeningV2) (key : array 32) (position : Z) : Prop := mk_holds {
  hd_position : 0 <= position < 2 ^ Z.of_nat P24_TREE_DEPTH;
  hd_note : notes !! Z.to_nat position = Some (commitment_of o);
  hd_key : recipient_of key = no_recipient_commitment o
}.

Section Owner.
Context (notes : list Vector) (Hnotes : Forall vector_wf notes) (root : Vector).
Context (Hroot : elements root = note_root tree (tree_reference ev) (elements <$> notes)).
Context (o : NoteOpeningV2) (key : array 32) (position : Z) (Hh : holds notes o key position).

Lemma note_path_wf :
  Forall vector_wf (note_path notes position) /\ length (note_path notes position) = P24_TREE_DEPTH /\
  elements <$> note_path notes position =
    tree_siblings node_value (note_leaf tree (tree_reference ev) (elements <$> notes)) 0 position P24_TREE_DEPTH.
Proof.
  pose proof (proj2 (loaded_evaluator _ _ _ Hev)) as Hload. destruct (loaded_payload _ _ Hload) as [payload Hp].
  assert (Hd : Forall digest_wf (tree_siblings node_value
    (note_leaf tree (tree_reference ev) (elements <$> notes)) 0 position P24_TREE_DEPTH)).
  { apply (tree_siblings_wf _ _ _ Hp Hload). intros i. by apply (note_leaf_wf _ _ _ Hp Hload), vectors_digest_wf. }
  destruct (digest_vectors _ Hd) as [Hw He]. split; [exact Hw|]. split; [|exact He].
  unfold note_path. rewrite length_fmap. apply length_tree_siblings.
Qed.

Lemma owner_leaf :
  note_leaf tree (tree_reference ev) (elements <$> notes) position = leaf_value (elements (commitment_of o)).
Proof. unfold note_leaf. by rewrite list_lookup_fmap, (hd_note _ _ _ _ Hh). Qed.

Lemma owner_input_wf : witness_wf (owner_input notes root o key position).
Proof. destruct note_path_wf as (Hw & Hl & _). split; [apply Hh|exact Hl|exact Hw]. Qed.

Lemma owner_spends : spends tree privacy ev (owner_input notes root o key position).
Proof.
  split; [|reflexivity]. split; [apply Hh|]. cbn [owner_input sw_opening sw_leaf_position sw_siblings sw_public
    public_of dn_merkle_root]. unfold opening_root. destruct note_path_wf as (_ & _ & ->).
  rewrite Hroot, <-owner_leaf, <-(full_root_leaf node_value), path_complete.
  by rewrite shiftr_depth by apply Hh.
Qed.

Lemma owner_path_honest :
  (forall n, n ∈ notes -> leaf_value (elements n) = leaf_value (elements (commitment_of o)) -> n = commitment_of o) ->
  leaf_value (elements (commitment_of o)) <> empty_base tree (tree_reference ev) ->
  path_honest tree privacy ev notes (owner_input notes root o key position).
Proof.
  intros Hleaves Hempty. split; [|exact Hleaves|exact Hempty]. cbv zeta.
  cbn [owner_input sw_opening sw_leaf_position sw_siblings]. destruct note_path_wf as (_ & _ & ->).
  rewrite owner_leaf. apply no_collision_refl.
Qed.

End Owner.

(** ** The transfer of an owner *)

Record payable (l : CandidatePrivateLedgerStateV1) (intent : PrivateTransferIntentV2) (i0 i1 : SpendingWitnessV2)
    (o0 o1 : NoteOpeningV2) : Prop := mk_payable {
  py_parameters : manifest_candidate_id tree = Ok (tree_parameters_id (a2_note_tree_parameters (pl_anchor l)));
  py_asset : is_Some (pl_assets l !! pi_asset_id intent);
  py_anchor : assert_matches_intent (pl_anchor l) intent = Ok tt;
  py_nullifiers : intent_nullifiers intent = [dn_nullifier (sw_public i0); dn_nullifier (sw_public i1)];
  py_unspent : forall n, n ∈ intent_nullifiers intent -> n ∉ ledger_spent l;
  py_positions : sw_leaf_position i0 <> sw_leaf_position i1;
  py_outputs : output_commitments intent = commitment_of <$> [o0; o1];
  py_new : forall c, c ∈ output_commitments intent -> c ∉ ledger_notes l;
  py_room : len (ledger_notes l) + 2 <= CANDIDATE_PRIVATE_STATE_MAX_NOTES;
  py_assets : Forall (fun o => no_asset_id o = pi_asset_id intent) (openings_of i0 i1 o0 o1);
  py_rho : NoDup (no_rho <$> openings_of i0 i1 o0 o1);
  py_rcm : NoDup (no_rcm <$> openings_of i0 i1 o0 o1);
  py_value : no_value (sw_opening i0) + no_value (sw_opening i1) = no_value o0 + no_value o1;
  py_bound : no_value o0 + no_value o1 <= U128_MAX
}.

Section Transfer.
Context {A : Type} `{!CandidatePrivateTransferAuthorizer A}.
Context (l : CandidatePrivateLedgerStateV1) (Hl : ledger_wf l) (Hsize : Z.of_nat (size (ledger_spent l)) + 2 <= U64_MAX).
Context (in0 in1 out0 out1 : NoteOpeningV2) (k0 k1 : array 32) (p0 p1 : Z).
Context (H0 : holds (ledger_notes l) in0 k0 p0) (H1 : holds (ledger_notes l) in1 k1 p1).

Abbreviation i0 := (owner_input (ledger_notes l) (a2_note_root (pl_anchor l)) in0 k0 p0).
Abbreviation i1 := (owner_input (ledger_notes l) (a2_note_root (pl_anchor l)) in1 k1 p1).

Lemma ledger_notes_wf : Forall vector_wf (ledger_notes l).
Proof. exact (snw_commitments _ _ _ (pw_snapshot _ _ _ _ _ _ _ Hl)). Qed.

Lemma payable_statement intent :
  payable l intent i0 i1 out0 out1 -> statement tree privacy ev intent i0 i1 out0 out1.
Proof.
  intros [Hid Hasset Hanchor Hnf Hun Hpos Hout Hnew Hroom Hassets Hrho Hrcm Hvalue Hbound].
  unfold assert_matches_intent in Hanchor. inv_ok. zbool.
  pose proof (ledger_root tree sparse r ev l Hl) as Hroot. pose proof ledger_notes_wf as Hnw.
  assert (Hin : forall o k p, holds (ledger_notes l) o k p -> commitment_of o ∉ output_commitments intent).
  { intros o k p Hh Ho. apply (Hnew _ Ho). by eapply list_elem_of_lookup_2, (hd_note _ _ _ _ Hh). }
  split; try done.
  - congruence.
  - split; by apply owner_spends.
  - split; [|done]. cbn [owner_input sw_opening]. intros He. apply Hpos. cbn [owner_input sw_leaf_position].
    pose proof (hd_note _ _ _ _ H0) as Hn0. pose proof (hd_note _ _ _ _ H1) as Hn1. rewrite <-He in Hn1.
    pose proof (NoDup_lookup _ _ _ _ (snw_distinct _ _ _ (pw_snapshot _ _ _ _ _ _ _ Hl)) Hn0 Hn1) as Hp.
    apply Z2Nat.inj in Hp; [done|apply H0|apply H1].
  - apply Forall_cons. split; [by eapply Hin|]. apply Forall_singleton. by eapply Hin.
Qed.

Lemma payable_admitted (request : CandidatePrivateTransferRequestV1 A) :
  intent_wf (rq_intent request) -> payable l (rq_intent request) i0 i1 out0 out1 ->
  authorizer_verify (rq_authorization request) (pl_anchor l) (pl_nullifier_tree l) (rq_intent request) = Ok tt ->
  exists receipt l', apply_transfer tree sparse request l = (Ok receipt, l').
Proof.
  intros Hintent Hpay Hauth. pose proof (proj2 (loaded_evaluator _ _ _ Hev)) as Hload.
  assert (Hac : accepted l request).
  { destruct Hpay. split; [done| |done]. by split. }
  destruct (prepare_transfer_complete tree sparse _ Hload r Hsparse candidate Hcandidate l request Hl Hintent Hac Hsize)
    as [tr Hprep].
  rewrite apply_transfer_eq, Hprep. by eexists _, _.
Qed.

(** C13: the owner of two unspent notes of a registered asset can always spend them: with
    the paths of the tree both inputs are accepted, two new outputs of the same total
    make a witness that the statement accepts, and a ledger whose authorizer verifies
    the request admits it. *)
Theorem owner_can_transfer (request : CandidatePrivateTransferRequestV1 A)
    (Hintent : intent_wf (rq_intent request)) (Hpay : payable l (rq_intent request) i0 i1 out0 out1)
    (Hv0 : no_value in0 <> 0) (Hv1 : no_value in1 <> 0) :
  let root := a2_note_root (pl_anchor l) in
  witness_new tree privacy ev in0 k0 p0 (note_path (ledger_notes l) p0) root = Ok i0 /\
  witness_new tree privacy ev in1 k1 p1 (note_path (ledger_notes l) p1) root = Ok i1 /\
  transfer_witness_new tree privacy ev (rq_intent request) i0 i1 out0 out1 =
    Ok (mk_CandidatePrivateTransferWitnessV2 (rq_intent request) i0 i1 out0 out1) /\
  (authorizer_verify (rq_authorization request) (pl_anchor l) (pl_nullifier_tree l) (rq_intent request) = Ok tt ->
   exists receipt l', apply_transfer tree sparse request l = (Ok receipt, l')).
Proof.
  cbv zeta. pose proof ledger_notes_wf as Hnw. pose proof (proj2 (loaded_evaluator _ _ _ Hev)) as Hload.
  pose proof (ledger_root tree sparse r ev l Hl) as Hroot. split; [|split; [|split]].
  - apply (witness_new_Ok _ _ _ Hev); [by apply note_path_wf|]. split; [done|]. split; [|done].
    by apply (sp_owns _ _ _ _ (owner_spends _ Hnw _ Hroot _ _ _ H0)).
  - apply (witness_new_Ok _ _ _ Hev); [by apply note_path_wf|]. split; [done|]. split; [|done].
    by apply (sp_owns _ _ _ _ (owner_spends _ Hnw _ Hroot _ _ _ H1)).
  - unfold transfer_witness_new. rewrite (statement_validates _ _ _ Hev); [done|by apply note_path_wf..|].
    by apply payable_statement.
  - intros Hauth. by apply payable_admitted.
Qed.

End Transfer.

End Loaded.
