(* ===== verification/SampleNotes.v ===== *)
(** * Notes over the checked-in artifacts

    Two notes of 5 and 7 and two of 4 and 8 under one key, with their recipient,
    commitments and nullifiers evaluated. *)

From Stdlib Require Import Strings.Byte.
From stdpp Require Import gmap.
From S2P Require Import Prelude Arrays Sha256 Types BabyBear Privacy Poseidon2 Poseidon2Facts Fips180.
From S2P Require Import TreeManifest P24Parameters Poseidon2Frozen TreeManifestFacts FullTree NoteTreeFacts.
From S2P Require Import NullifierTree NullifierTreeFacts ChildManifests ChildManifestFacts NoteHashes NoteHashesFacts.
From S2P Require Import NoteOpening NoteOpeningFacts PrivateSpend.

#[local] Existing Instance fips_sha2.
#[local] Opaque P24_TREE_DEPTH NULLIFIER_SPARSE_TREE_DEPTH_V1.

Definition frozen_evaluator : CandidateP24NoteOpeningEvaluatorV2 :=
  mk_CandidateP24NoteOpeningEvaluatorV2 frozen_privacy_reference frozen_reference.

Lemma load_evaluator_eq tree privacy private_reference tree_reference :
  load_privacy_reference tree privacy = Ok private_reference -> load_reference tree = Ok tree_reference ->
  load_evaluator tree privacy = Ok (mk_CandidateP24NoteOpeningEvaluatorV2 private_reference tree_reference).
Proof. intros Hp Ht. unfold load_evaluator. by rewrite Hp, Ht. Qed.

Lemma frozen_evaluator_loads : load_evaluator frozen_manifest frozen_privacy = Ok frozen_evaluator.
Proof. exact (load_evaluator_eq _ _ _ _ frozen_privacy_loads frozen_manifest_reference). Qed.

Lemma tree_parent_id embedded derived id :
  parent_candidate_id (tree_parent embedded derived) = Ok id -> manifest_candidate_id (p24_manifest embedded derived) = Ok id.
Proof. cbn [tree_parent parent_candidate_id p24_manifest manifest_candidate_id]. by intros Hid%map_err_Ok. Qed.

Lemma frozen_manifest_id : manifest_candidate_id frozen_manifest = Ok frozen_tree_id.
Proof. exact (tree_parent_id _ _ _ frozen_tree_candidate_id). Qed.

(** ** Evaluating the hashes *)

Lemma hashed_literal domain input ds :
  len input = note_input_bytes domain -> fast_digest domain input = Ok ds ->
  (digest ← from_private (privacy_hash_bytes frozen_privacy (private_reference frozen_evaluator) domain input);
   public_value digest) = Ok (digest_vector ds) /\ digest_wf ds.
Proof.
  intros Hl Hfast. destruct (fast_digest_eq domain input ds Hl Hfast) as [Hd Hw]. split; [|done].
  cbn [frozen_evaluator private_reference]. rewrite Hd. cbn [from_private map_err mbind result_bind].
  destruct (from_elements_total ds Hw) as (v & Hv & Hev). unfold public_value. rewrite Hv. cbn [map_err].
  f_equal. apply elements_inj. by rewrite digest_vector_elements.
Qed.

(** ** The notes *)

Definition sample_key : array 32 := fill 32 x07.
Definition sample_recipient : list Z :=
  [209403353; 372139484; 1455576733; 1312541244; 1138959219; 215415835; 1256142341; 1704168629;
   822121638; 1474186323; 127849117; 73912953; 812876252; 1410594011; 992590591; 1586994200].

Definition sample_opening (value : Z) (b : byte) : NoteOpeningV2 :=
  mk_NoteOpeningV2 (fill 32 x00) value (digest_vector sample_recipient) (fill 32 b) (fill 32 b).
Definition in0 : NoteOpeningV2 := sample_opening 5 x01.
Definition in1 : NoteOpeningV2 := sample_opening 7 x02.
Definition out0 : NoteOpeningV2 := sample_opening 4 x03.
Definition out1 : NoteOpeningV2 := sample_opening 8 x04.

Definition sample_in0 : list Z :=
  [1362333229; 1816353244; 944696652; 1175358574; 2011872222; 1471175954; 596670627; 1352423509;
   363919903; 1330793748; 712488445; 1128382569; 973853325; 1386182894; 1658287983; 1383245069].
Definition sample_in1 : list Z :=
  [1800251375; 1867019864; 1270352905; 759968611; 96891127; 1908026438; 1805272003; 404007875;
   762005888; 1977365326; 1812012364; 1876544657; 1378221317; 852365201; 1015031917; 1901719820].
Definition sample_out0 : list Z :=
  [973146044; 1723834754; 759840805; 166147347; 439640814; 2008423906; 100114445; 896760107;
   726839375; 1160191981; 691366472; 187076019; 147852939; 654614484; 1476273981; 136930455].
Definition sample_out1 : list Z :=
  [868480969; 563279442; 153023347; 855757920; 1571515934; 578429642; 603056560; 231461618;
   317453255; 1002273826; 1221964829; 743198817; 1195322217; 1406136908; 1515974896; 668084346].
Definition sample_nf0 : list Z :=
  [1695026470; 506522719; 1667711843; 1951202764; 1033184132; 1215035562; 1989262602; 1724024073;
   204440415; 556592201; 1341959953; 946719050; 1652667996; 8589215; 304880961; 568080487].
Definition sample_nf1 : list Z :=
  [1760247200; 176805262; 1281513577; 402640095; 615271436; 819612337; 906529600; 1101664823;
   873730156; 1535219050; 1070917615; 736199874; 1070425059; 1471767558; 1050386479; 179807393].

#[local] Abbreviation commitment_of := (commitment_of frozen_privacy frozen_evaluator).
#[local] Abbreviation recipient_of := (recipient_of frozen_privacy frozen_evaluator).
#[local] Abbreviation nullifier_of := (nullifier_of frozen_privacy frozen_evaluator).

Lemma recipient_literal key ds :
  fast_digest NoteDomain.Addr (arr key) = Ok ds -> recipient_of key = digest_vector ds.
Proof.
  intros Hf. destruct (hashed_literal NoteDomain.Addr (arr key) ds) as [Hv _]; [by rewrite length_arr|done|].
  unfold NoteOpeningFacts.recipient_of.
  change (recipient_commitment frozen_privacy frozen_evaluator key = Ok (digest_vector ds)) in Hv. by rewrite Hv.
Qed.

Lemma commitment_literal o ds :
  fast_digest NoteDomain.Note (note_preimage o) = Ok ds -> commitment_of o = digest_vector ds /\ digest_wf ds.
Proof.
  intros Hf. destruct (hashed_literal NoteDomain.Note (note_preimage o) ds) as [Hv Hw]; [apply length_note_preimage|done|].
  unfold NoteOpeningFacts.commitment_of.
  change (note_commitment frozen_privacy frozen_evaluator o = Ok (digest_vector ds)) in Hv. by rewrite Hv.
Qed.

Lemma nullifier_literal key rho c position ds :
  fast_digest NoteDomain.Nullifier (nullifier_preimage key rho c position) = Ok ds ->
  nullifier_of key rho c position = digest_vector ds.
Proof.
  intros Hf. destruct (hashed_literal NoteDomain.Nullifier (nullifier_preimage key rho c position) ds) as [Hv _];
    [apply length_nullifier_preimage|done|].
  unfold NoteOpeningFacts.nullifier_of.
  change (nullifier frozen_privacy frozen_evaluator key rho c position = Ok (digest_vector ds)) in Hv. by rewrite Hv.
Qed.

Lemma sample_recipient_eq : recipient_of sample_key = digest_vector sample_recipient.
Proof. apply recipient_literal. vm_compute. reflexivity. Qed.
Lemma sample_in0_eq : commitment_of in0 = digest_vector sample_in0 /\ digest_wf sample_in0.
Proof. apply commitment_literal. vm_compute. reflexivity. Qed.
Lemma sample_in1_eq : commitment_of in1 = digest_vector sample_in1 /\ digest_wf sample_in1.
Proof. apply commitment_literal. vm_compute. reflexivity. Qed.
Lemma sample_out0_eq : commitment_of out0 = digest_vector sample_out0 /\ digest_wf sample_out0.
Proof. apply commitment_literal. vm_compute. reflexivity. Qed.
Lemma sample_out1_eq : commitment_of out1 = digest_vector sample_out1 /\ digest_wf sample_out1.
Proof. apply commitment_literal. vm_compute. reflexivity. Qed.
Lemma sample_nf0_eq : nullifier_of sample_key (no_rho in0) (digest_vector sample_in0) 0 = digest_vector sample_nf0.
Proof. apply nullifier_literal. vm_compute. reflexivity. Qed.
Lemma sample_nf1_eq : nullifier_of sample_key (no_rho in1) (digest_vector sample_in1) 1 = digest_vector sample_nf1.
Proof. apply nullifier_literal. vm_compute. reflexivity. Qed.
