(* ===== verification/PrivateValueSample.v ===== *)
(** * A private transfer over the checked-in artifacts

    A ledger holds the notes of 5 and 7 and spends them for the notes of 4 and 8: the
    transfer satisfies the statement, the ledger admits it, and the value is
    conserved. *)

From Stdlib Require Import Strings.Byte.
From stdpp Require Import gmap.
From S2P Require Import Prelude Arrays Sha256 Types BabyBear Privacy Poseidon2 Poseidon2Facts Fips180.
From S2P Require Import TreeManifest TreeManifestFacts FullTree NoteTreeFacts.
From S2P Require Import NullifierTree NullifierTreeFacts ChildManifests ChildManifestFacts NoteHashes NoteHashesFacts.
From S2P Require Import PrivateState PrivateLedger PrivateStateFacts PrivateTransitionFacts PrivateLedgerFacts.
From S2P Require Import NoteOpening NoteOpeningFacts PrivateValue PrivateSpend SampleNotes.

#[local] Existing Instance fips_sha2.
#[local] Opaque P24_TREE_DEPTH NULLIFIER_SPARSE_TREE_DEPTH_V1.

(** ** A ledger with notes *)

Lemma ledger_with_notes `{Sha2} (tree : P24Manifest) `{!P24ManifestLaws tree} {E} (sparse : SparseManifest E)
    `{!SparseManifestLaws sparse} reference r candidate (genesis : GenesisId) (context : ValidationContextId)
    (parameters : TreeParametersV2) assets (notes : list Vector) :
  load_reference tree = Ok reference -> load_sparse_reference tree sparse = Ok r ->
  sparse_candidate_id sparse = Ok candidate ->
  Forall vector_wf notes -> NoDup notes -> len notes <= CANDIDATE_PRIVATE_STATE_MAX_NOTES ->
  exists l, ledger_wf tree sparse reference r l /\ ledger_spent l = ∅ /\ ledger_notes l = notes /\ pl_assets l = assets /\
    a2_note_tree_parameters (pl_anchor l) = parameters.
Proof.
  intros Hload Hsparse Hcandidate Hw Hdup Hbound. destruct (new_candidate_Ok tree sparse r Hsparse) as (nt & _ & Hnt).
  destruct (from_elements_total _ (commitments_root_wf tree reference Hload notes Hw)) as (root & _ & Hroot).
  set (sn := mk_CandidatePrivateStateSnapshotV1 notes [] root).
  assert (Hsn : snapshot_wf tree reference sn) by (split; done).
  destruct (anchor2_new_exact tree sparse r Hsparse candidate Hcandidate genesis context
    parameters sn nt eq_refl Hnt) as (nroot & _ & Hanchor).
  exists (mk_CandidatePrivateLedgerStateV1 assets sn nt (anchor_of candidate genesis context parameters sn nroot)).
  split; [|done]. split; [exact Hsn|exact Hnt|exact Hanchor].
Qed.

(** ** A transfer of two notes *)

Record Pair : Type := mk_Pair {
  pd_key : array 32;
  pd_asset : AssetId;
  pd_in0 : NoteOpeningV2;
  pd_in1 : NoteOpeningV2;
  pd_out0 : NoteOpeningV2;
  pd_out1 : NoteOpeningV2;
  pd_c0 : Vector;
  pd_c1 : Vector;
  pd_d0 : Vector;
  pd_d1 : Vector;
  pd_n0 : Vector;
  pd_n1 : Vector
}.

Section Pair.
Context `{Sha2} (tree : P24Manifest) `{!P24ManifestLaws tree} {E : Type} (sparse : SparseManifest E).
Context `{!SparseManifestLaws sparse} (r : NullifierSparseTreeReferenceV1).
Context (Hsparse : load_sparse_reference tree sparse = Ok r).
Context (candidate : array 32) (Hcandidate : sparse_candidate_id sparse = Ok candidate).
Context (privacy : PrivacyManifest) `{!PrivacyManifestLaws privacy}.
Context (ev : CandidateP24NoteOpeningEvaluatorV2) (Hev : load_evaluator tree privacy = Ok ev).
Context (parameters : TreeParametersV2).

(** Four notes of one key and one asset, with their hashes. *)
Context (pair : Pair).
Abbreviation key := (pd_key pair).
Abbreviation asset := (pd_asset pair).
Abbreviation in0 := (pd_in0 pair).
Abbreviation in1 := (pd_in1 pair).
Abbreviation out0 := (pd_out0 pair).
Abbreviation out1 := (pd_out1 pair).
Abbreviation c0 := (pd_c0 pair).
Abbreviation c1 := (pd_c1 pair).
Abbreviation d0 := (pd_d0 pair).
Abbreviation d1 := (pd_d1 pair).
Abbreviation n0 := (pd_n0 pair).
Abbreviation n1 := (pd_n1 pair).

Record pair_ok : Prop := mk_pair_ok {
  po_id : manifest_candidate_id tree = Ok (tree_parameters_id parameters);
  po_commitments : commitment_of privacy ev <$> [in0; in1; out0; out1] = [c0; c1; d0; d1];
  po_nullifier0 : nullifier_of privacy ev key (no_rho in0) c0 0 = n0;
  po_nullifier1 : nullifier_of privacy ev key (no_rho in1) c1 1 = n1;
  po_key0 : recipient_of privacy ev key = no_recipient_commitment in0;
  po_key1 : recipient_of privacy ev key = no_recipient_commitment in1;
  po_distinct : NoDup [c0; c1; d0; d1];
  po_nullifiers : array_lt n0 n1;
  po_outputs : array_lt d0 d1;
  po_assets : Forall (fun o => no_asset_id o = asset) [in0; in1; out0; out1];
  po_rho : NoDup (no_rho <$> [in0; in1; out0; out1]);
  po_rcm : NoDup (no_rcm <$> [in0; in1; out0; out1]);
  po_value : no_value in0 + no_value in1 = no_value out0 + no_value out1;
  po_bound : no_value out0 + no_value out1 <= U128_MAX;
  po_positive : no_value in0 <> 0 /\ no_value in1 <> 0;
  po_leaves : leaf_value tree (tree_reference ev) (elements c0) <> leaf_value tree (tree_reference ev) (elements c1) /\
    leaf_value tree (tree_reference ev) (elements c0) <> empty_base tree (tree_reference ev) /\
    leaf_value tree (tree_reference ev) (elements c1) <> empty_base tree (tree_reference ev)
}.
Context (Hok : pair_ok) (definition : AssetDefinition).

Lemma pair_commitments :
  commitment_of privacy ev in0 = c0 /\ commitment_of privacy ev in1 = c1 /\
  commitment_of privacy ev out0 = d0 /\ commitment_of privacy ev out1 = d1.
Proof. pose proof (po_commitments Hok) as Hc. cbn in Hc. by injection Hc. Qed.

(** A ledger with the first two notes, and the intent that spends them. *)
Definition pair_ledger (l : CandidatePrivateLedgerStateV1) : Prop :=
  ledger_wf tree sparse (tree_reference ev) r l /\ ledger_spent l = ∅ /\ ledger_notes l = [c0; c1] /\
  pl_assets l = {[asset := definition]} /\ a2_note_tree_parameters (pl_anchor l) = parameters.

Definition pair_intent (l : CandidatePrivateLedgerStateV1) : PrivateTransferIntentV2 := intent_for l asset n0 n1 d0 d1.

Definition pair_input (l : CandidatePrivateLedgerStateV1) (o : NoteOpeningV2) (position : Z) : SpendingWitnessV2 :=
  owner_input tree privacy ev [c0; c1] (a2_note_root (pl_anchor l)) o key position.

Lemma pair_wf : Forall vector_wf [c0; c1; d0; d1].
Proof. rewrite <-(po_commitments Hok). apply Forall_fmap, Forall_true. intros o. by apply (commitment_total tree). Qed.

Lemma pair_ledger_exists : exists l, pair_ledger l.
Proof.
  pose proof pair_wf as Hw. pose proof (proj2 (loaded_evaluator _ _ _ Hev)) as Hload.
  apply (Forall_app _ [c0; c1] [d0; d1]) in Hw as [Hw _].
  pose proof (proj1 (NoDup_app [c0; c1] [d0; d1]) (po_distinct Hok)) as Hdup.
  destruct (ledger_with_notes tree sparse _ r candidate (fill 32 x00) (fill 32 x00) parameters
    ({[asset := definition]} : gmap AssetId AssetDefinition) [c0; c1] Hload Hsparse Hcandidate Hw (proj1 Hdup)) as (l & Hl);
    [by vm_compute|]. by exists l.
Qed.

Section Spend.
Context (l : CandidatePrivateLedgerStateV1) (Hl : pair_ledger l).

Lemma pair_holds : holds privacy ev [c0; c1] in0 key 0 /\ holds privacy ev [c0; c1] in1 key 1.
Proof.
  destruct pair_commitments as (E0 & E1 & _ & _). assert (Hdepth : 1 < 2 ^ Z.of_nat P24_TREE_DEPTH) by by vm_compute.
  split; split; [lia|by rewrite E0|apply Hok|lia|by rewrite E1|apply Hok].
Qed.

Lemma pair_intent_wf : intent_wf (pair_intent l).
Proof.
  destruct Hl as (Hwf & _). pose proof pair_wf as Hw. rewrite !Forall_cons in Hw. destruct Hw as (_ & _ & Hd0 & Hd1 & _).
  pose proof (proj2 (loaded_evaluator _ _ _ Hev)) as Hload.
  apply (intent_for_wf tree sparse _ Hload r); try done; try apply Hok.
  - rewrite <-(po_nullifier0 Hok). by apply (nullifier_total tree).
  - rewrite <-(po_nullifier1 Hok). by apply (nullifier_total tree).
Qed.

Lemma pair_payable : payable tree privacy ev l (pair_intent l) (pair_input l in0 0) (pair_input l in1 1) out0 out1.
Proof.
  destruct Hl as (_ & Hspent & Hnotes & Hasset & Hpar), pair_commitments as (E0 & E1 & E2 & E3).
  split; try done; try apply Hok.
  - rewrite Hpar. apply Hok.
  - rewrite Hasset. cbn [pair_intent intent_for pi_asset_id]. rewrite lookup_singleton_eq. by eexists.
  - apply intent_for_matches.
  - cbn. by rewrite E0, E1, (po_nullifier0 Hok), (po_nullifier1 Hok).
  - intros n _. rewrite Hspent. apply not_elem_of_empty.
  - cbn. by rewrite E2, E3.
  - intros c Hin. rewrite Hnotes. destruct (proj1 (NoDup_app [c0; c1] [d0; d1]) (po_distinct Hok)) as (_ & Hno & _).
    intros Hc'. by apply (Hno c Hc').
  - by rewrite Hnotes.
Qed.

Lemma pair_paths_honest :
  path_honest tree privacy ev [c0; c1] (pair_input l in0 0) /\ path_honest tree privacy ev [c0; c1] (pair_input l in1 1).
Proof.
  destruct pair_commitments as (E0 & E1 & _ & _), pair_holds as [Hh0 Hh1], (po_leaves Hok) as (Hne & He0 & He1).
  pose proof pair_wf as Hw. apply (Forall_app _ [c0; c1] [d0; d1]) in Hw as [Hw _].
  split; apply (owner_path_honest tree privacy ev Hev); try done; rewrite ?E0, ?E1; try done.
  all: intros n; rewrite !elem_of_cons, elem_of_nil; intros [->|[->|[]]]; congruence.
Qed.

Definition pair_witness : CandidatePrivateTransferWitnessV2 :=
  mk_CandidatePrivateTransferWitnessV2 (pair_intent l) (pair_input l in0 0) (pair_input l in1 1) out0 out1.

Lemma pair_inputs_wf : witness_wf (pair_input l in0 0) /\ witness_wf (pair_input l in1 1).
Proof.
  destruct pair_holds as [Hh0 Hh1]. pose proof pair_wf as Hw. apply (Forall_app _ [c0; c1] [d0; d1]) in Hw as [Hw _].
  split; by apply (owner_input_wf tree privacy ev Hev).
Qed.

Lemma pair_statement : statement tree privacy ev (pair_intent l) (pair_input l in0 0) (pair_input l in1 1) out0 out1.
Proof.
  destruct pair_holds as [Hh0 Hh1]. pose proof pair_payable as Hpay. destruct Hl as (Hwf & _ & Hnotes & _).
  unfold pair_input in *. rewrite <-Hnotes in *. by apply (payable_statement tree sparse r privacy ev Hev).
Qed.

Lemma pair_witness_ok :
  transfer_wf pair_witness /\ transfer_witness_revalidate tree privacy ev pair_witness = Ok tt.
Proof.
  destruct pair_inputs_wf as [Hw0 Hw1]. split; [by split|].
  apply (statement_validates _ _ _ Hev); [apply Hw0|apply Hw1|apply pair_statement].
Qed.

Definition pair_known (o : NoteOpeningV2) : Prop := o ∈ [in0; in1; out0; out1].

(** The same, over the notes of the ledger. *)
Lemma pair_owned :
  Z.of_nat (size (ledger_spent l)) + 2 <= U64_MAX /\
  (holds privacy ev (ledger_notes l) in0 key 0 /\ holds privacy ev (ledger_notes l) in1 key 1) /\
  payable tree privacy ev l (pair_intent l)
    (owner_input tree privacy ev (ledger_notes l) (a2_note_root (pl_anchor l)) in0 key 0)
    (owner_input tree privacy ev (ledger_notes l) (a2_note_root (pl_anchor l)) in1 key 1) out0 out1.
Proof.
  pose proof pair_holds as Hh. pose proof pair_payable as Hpay. destruct Hl as (_ & Hspent & Hnotes & _).
  unfold pair_input in Hpay. rewrite <-Hnotes in Hh, Hpay. split; [by rewrite Hspent, size_empty|done].
Qed.

Lemma pair_opened : commitment_of privacy ev <$> [in0; in1] = ledger_notes l /\ Forall pair_known [in0; in1].
Proof.
  destruct pair_commitments as (E0 & E1 & _ & _), Hl as (_ & _ & Hnotes & _). split.
  - by rewrite Hnotes, !fmap_cons, E0, E1.
  - unfold pair_known. repeat constructor; set_solver.
Qed.

(** An authorization that carries its own witness. *)
Definition Certificate : Type :=
  { w : CandidatePrivateTransferWitnessV2 | transfer_wf w /\ transfer_witness_revalidate tree privacy ev w = Ok tt }.

#[export] Instance certificate_authorizer : CandidatePrivateTransferAuthorizer Certificate := {|
  authorizer_verify := fun (c : Certificate) _ _ intent =>
    if bool_decide (tw_intent (proj1_sig c) = intent) then Ok tt
    else Err CandidatePrivateTransferAuthorizationError.Rejected
|}.

Definition certified (c : Certificate) (_ : PrivateTransferIntentV2) : CandidatePrivateTransferWitnessV2 := proj1_sig c.

Lemma certificate_sound (c : Certificate) anchor nt intent :
  authorizer_verify c anchor nt intent = Ok tt ->
  tw_intent (certified c intent) = intent /\ transfer_wf (certified c intent) /\
  transfer_witness_revalidate tree privacy ev (certified c intent) = Ok tt.
Proof. cbn. case_bool_decide as Hi; [|done]. intros _. split; [exact Hi|]. exact (proj2_sig c). Qed.

Definition pair_request : CandidatePrivateTransferRequestV1 Certificate :=
  mk_CandidatePrivateTransferRequestV1 (pair_intent l) (exist _ pair_witness pair_witness_ok).

Lemma pair_authorized : authorizer_verify (rq_authorization pair_request) (pl_anchor l) (pl_nullifier_tree l) (rq_intent pair_request) = Ok tt.
Proof. cbn. by rewrite bool_decide_true. Qed.

Lemma pair_known_inj o o' :
  pair_known o -> pair_known o' -> commitment_of privacy ev o = commitment_of privacy ev o' -> o = o'.
Proof.
  intros (i & Hi)%list_elem_of_lookup (j & Hj)%list_elem_of_lookup He.
  pose proof (po_distinct Hok) as Hdup. rewrite <-(po_commitments Hok) in Hdup.
  assert (i = j) as ->; [|congruence]. eapply (NoDup_lookup _ _ _ _ Hdup); rewrite list_lookup_fmap.
  - by rewrite Hi.
  - by rewrite Hj, He.
Qed.

Lemma pair_run_honest :
  run_honest tree sparse privacy ev pair_known (fun k => k = key) certified [Transfer pair_request] l.
Proof.
  destruct pair_paths_honest as [Hh0 Hh1]. destruct Hl as (_ & _ & Hnotes & _). cbn [run_honest].
  destruct (apply_transfer tree sparse pair_request l) as [[receipt|e] l']; [|done].
  split; [|done]. split; [split|split|..]; cbn [witness_of certified pair_request rq_authorization proj1_sig pair_witness
    tw_input0 tw_input1 tw_output0 tw_output1 pair_input owner_input sw_opening sw_nullifier_key].
  all: try (unfold pair_known; set_solver).
  all: try reflexivity.
  - by rewrite Hnotes.
  - by rewrite Hnotes.
Qed.

Lemma pair_admitted : exists receipt l', apply_transfer tree sparse pair_request l = (Ok receipt, l').
Proof.
  destruct pair_owned as (Hsize & _ & Hpay).
  exact (payable_admitted tree sparse r Hsparse candidate Hcandidate privacy ev Hev l (proj1 Hl) Hsize _ _ _ _ _ _ _ _
    pair_request pair_intent_wf Hpay pair_authorized).
Qed.

(** One admitted transfer adds two openings. *)
Lemma run_one_length {A} `{!CandidatePrivateTransferAuthorizer A} extract (request : CandidatePrivateTransferRequestV1 A)
    os spent receipt l' :
  apply_transfer tree sparse request l = (Ok receipt, l') ->
  length (bk_openings (run_book tree sparse extract [Transfer request] l (mk_Book os spent)).2) = (length os + 2)%nat.
Proof. intros Ht. cbn [run_book]. rewrite Ht. cbn. by rewrite length_app. Qed.

End Spend.

End Pair.

(** ** The checked-in artifacts *)

Lemma fmap_four {A B} (f : A -> B) a b c d a' b' c' d' :
  f a = a' -> f b = b' -> f c = c' -> f d = d' -> f <$> [a; b; c; d] = [a'; b'; c'; d'].
Proof. by intros <- <- <- <-. Qed.

Definition sample_commitments : list Vector :=
  [digest_vector sample_in0; digest_vector sample_in1; digest_vector sample_out0; digest_vector sample_out1].

Lemma sample_commitments_eq :
  commitment_of frozen_privacy frozen_evaluator <$> [in0; in1; out0; out1] = sample_commitments.
Proof.
  exact (fmap_four _ _ _ _ _ _ _ _ _ (proj1 sample_in0_eq) (proj1 sample_in1_eq) (proj1 sample_out0_eq) (proj1 sample_out1_eq)).
Qed.

Lemma sample_commitments_distinct : NoDup sample_commitments.
Proof. apply (bool_decide_unpack _). vm_compute. exact I. Qed.

Lemma sample_orders :
  array_lt (digest_vector sample_nf0) (digest_vector sample_nf1) /\ array_lt (digest_vector sample_out0) (digest_vector sample_out1).
Proof. split; vm_compute; reflexivity. Qed.

Lemma sample_random :
  NoDup (no_rho <$> [in0; in1; out0; out1]) /\ NoDup (no_rcm <$> [in0; in1; out0; out1]).
Proof. split; apply (bool_decide_unpack _); vm_compute; exact I. Qed.

Lemma sample_assets : Forall (fun o => no_asset_id o = sample_id) [in0; in1; out0; out1].
Proof. repeat constructor. Qed.

Lemma sample_leaves_differ :
  bool_decide (NoDup [first_element (core_leaf (elements_of frozen_payload) sample_in0);
    first_element (core_leaf (elements_of frozen_payload) sample_in1);
    first_element (core_hash16 (elements_of frozen_payload) P24TreeDomain.EmptyBase [])]) = true.
Proof. vm_compute. reflexivity. Qed.

Lemma heads_differ (a b c : list Z) : NoDup [nth 0 a 0; nth 0 b 0; nth 0 c 0] -> a <> b /\ a <> c /\ b <> c.
Proof.
  rewrite !NoDup_cons, !not_elem_of_cons. intros Hd. split; [|split]; intros He; rewrite He in Hd; tauto.
Qed.

(** Leaves that the fast evaluator tells apart. *)
Lemma leaves_apart m `{!P24ManifestLaws m} payload self a b va vb :
  parameter_payload m = Ok payload -> load_reference m = Ok self ->
  digest_wf a -> digest_wf b -> elements va = a -> elements vb = b ->
  bool_decide (NoDup [first_element (core_leaf (elements_of payload) a); first_element (core_leaf (elements_of payload) b);
    first_element (core_hash16 (elements_of payload) P24TreeDomain.EmptyBase [])]) = true ->
  leaf_value m self (elements va) <> leaf_value m self (elements vb) /\
  leaf_value m self (elements va) <> empty_base m self /\ leaf_value m self (elements vb) <> empty_base m self.
Proof.
  intros Hp Hload Ha Hb -> -> Hd%bool_decide_eq_true.
  destruct (leaf_total m payload self Hp Hload a Ha) as (_ & Ea & _), (leaf_total m payload self Hp Hload b Hb) as (_ & Eb & _).
  destruct (hash16_total m payload self Hp Hload P24TreeDomain.EmptyBase [] eq_refl (Forall_nil_2 _)) as (e & He & Hr & _).
  rewrite Ea, Eb, He in Hd. unfold empty_base. rewrite Hr. exact (heads_differ _ _ _ Hd).
Qed.

Definition sample_leaves := leaves_apart frozen_manifest frozen_payload frozen_reference sample_in0 sample_in1
  (digest_vector sample_in0) (digest_vector sample_in1) frozen_manifest_payload frozen_manifest_reference
  (proj2 sample_in0_eq) (proj2 sample_in1_eq) (digest_vector_elements _ (proj2 sample_in0_eq))
  (digest_vector_elements _ (proj2 sample_in1_eq)) sample_leaves_differ.

Definition sample_pair : Pair :=
  mk_Pair sample_key sample_id in0 in1 out0 out1 (digest_vector sample_in0) (digest_vector sample_in1)
    (digest_vector sample_out0) (digest_vector sample_out1) (digest_vector sample_nf0) (digest_vector sample_nf1).

Definition sample_parameters : TreeParametersV2 := mk_TreeParametersV2 frozen_tree_id.
Definition sample_asset : AssetDefinition := mk_AssetDefinition sample_id [] NativeBacked.

Lemma sample_pair_ok : pair_ok frozen_manifest frozen_privacy frozen_evaluator sample_parameters sample_pair.
Proof.
  exact (mk_pair_ok frozen_manifest frozen_privacy frozen_evaluator sample_parameters sample_pair
    frozen_manifest_id sample_commitments_eq sample_nf0_eq sample_nf1_eq sample_recipient_eq sample_recipient_eq
    sample_commitments_distinct (proj1 sample_orders) (proj2 sample_orders) sample_assets (proj1 sample_random)
    (proj2 sample_random) eq_refl ltac:(by vm_compute) ltac:(by split) sample_leaves).
Qed.

(** The ledger of the sample. *)
Lemma sample_setup :
  exists r l, load_sparse_reference frozen_manifest frozen_sparse = Ok r /\
    pair_ledger frozen_manifest frozen_sparse r frozen_evaluator sample_parameters sample_pair sample_asset l.
Proof.
  destruct frozen_sparse_loads as [r Hr], frozen_nxsm_facts as (bytes & _ & Hid).
  destruct (pair_ledger_exists frozen_manifest frozen_sparse r Hr frozen_nxsm_id Hid frozen_privacy frozen_evaluator
    frozen_evaluator_loads sample_parameters sample_pair sample_pair_ok sample_asset) as [l Hl].
  exists r, l. exact (conj Hr Hl).
Qed.

(** The inputs of the sample over a ledger. *)
Definition sample_input (l : CandidatePrivateLedgerStateV1) (o : NoteOpeningV2) (position : Z) : SpendingWitnessV2 :=
  pair_input frozen_manifest frozen_privacy frozen_evaluator sample_pair l o position.

Lemma validate_exact_witness :
  exists l, validate frozen_manifest frozen_privacy frozen_evaluator (pair_intent sample_pair l)
    (sample_input l (pd_in0 sample_pair) 0) (sample_input l (pd_in1 sample_pair) 1)
    (pd_out0 sample_pair) (pd_out1 sample_pair) = Ok tt.
Proof.
  destruct sample_setup as (r & l & _ & Hl). exists l.
  pose proof (pair_inputs_wf frozen_manifest frozen_privacy frozen_evaluator frozen_evaluator_loads sample_parameters
    sample_pair sample_pair_ok l) as Hw.
  exact (proj2 (validate_exact frozen_manifest frozen_privacy frozen_evaluator frozen_evaluator_loads
      (pair_intent sample_pair l) (sample_input l (pd_in0 sample_pair) 0) (sample_input l (pd_in1 sample_pair) 1)
      (pd_out0 sample_pair) (pd_out1 sample_pair) (ww_siblings _ (proj1 Hw)) (ww_siblings _ (proj2 Hw)))
    (pair_statement frozen_manifest frozen_sparse r frozen_privacy frozen_evaluator frozen_evaluator_loads
      sample_parameters sample_pair sample_pair_ok sample_asset l Hl)).
Defined.

Lemma air_frame_binds_intent_witness :
  exists l, let f := air_frame frozen_privacy frozen_evaluator (pair_intent sample_pair l) in
    air_revalidate frozen_manifest frozen_privacy f = Ok tt /\
    air_from_intent frozen_manifest frozen_privacy (ap_intent f) = Ok f.
Proof.
  destruct sample_setup as (r & l & Hr & Hl). exists l. cbv zeta.
  pose proof (pair_intent_wf frozen_manifest frozen_sparse r frozen_privacy frozen_evaluator frozen_evaluator_loads
    sample_parameters sample_pair sample_pair_ok sample_asset l Hl) as Hi.
  pose proof (pair_statement frozen_manifest frozen_sparse r frozen_privacy frozen_evaluator frozen_evaluator_loads
    sample_parameters sample_pair sample_pair_ok sample_asset l Hl) as Hst.
  pose proof (proj2 (air_revalidate_Ok frozen_manifest frozen_privacy frozen_evaluator frozen_evaluator_loads
    (air_frame frozen_privacy frozen_evaluator (pair_intent sample_pair l)))
    (conj (st_parameters _ _ _ _ _ _ _ _ Hst) eq_refl)) as Hre.
  split; [exact Hre|].
  exact (proj1 (proj1 (air_frame_binds_intent frozen_manifest frozen_privacy frozen_evaluator frozen_evaluator_loads
    (air_frame frozen_privacy frozen_evaluator (pair_intent sample_pair l))
    (air_frame frozen_privacy frozen_evaluator (pair_intent sample_pair l)) Hi Hi)) Hre).
Defined.

(** The notes of 5 and 7 are spent. *)
Lemma owner_can_transfer_witness :
  exists r l (Hl : pair_ledger frozen_manifest frozen_sparse r frozen_evaluator sample_parameters sample_pair sample_asset l)
    receipt l', apply_transfer frozen_manifest frozen_sparse
      (pair_request frozen_manifest frozen_sparse r frozen_privacy frozen_evaluator frozen_evaluator_loads
        sample_parameters sample_pair sample_pair_ok sample_asset l Hl) l = (Ok receipt, l').
Proof.
  destruct sample_setup as (r & l & Hr & Hl), frozen_nxsm_facts as (bytes & _ & Hid). exists r, l, Hl.
  destruct (pair_owned frozen_manifest frozen_sparse r frozen_privacy frozen_evaluator sample_parameters
    sample_pair sample_pair_ok sample_asset l Hl) as (Hsize & [Hh0 Hh1] & Hpay).
  pose proof (pair_intent_wf frozen_manifest frozen_sparse r frozen_privacy frozen_evaluator frozen_evaluator_loads
    sample_parameters sample_pair sample_pair_ok sample_asset l Hl) as Hi.
  destruct (po_positive frozen_manifest frozen_privacy frozen_evaluator sample_parameters sample_pair sample_pair_ok)
    as [Hv0 Hv1].
  exact (proj2 (proj2 (proj2 (owner_can_transfer frozen_manifest frozen_sparse r Hr frozen_nxsm_id Hid frozen_privacy
    frozen_evaluator frozen_evaluator_loads l (proj1 Hl) Hsize _ _ _ _ _ _ _ _ Hh0 Hh1
    (pair_request frozen_manifest frozen_sparse r frozen_privacy frozen_evaluator frozen_evaluator_loads
        sample_parameters sample_pair sample_pair_ok sample_asset l Hl) Hi Hpay Hv0 Hv1)))
    (pair_authorized frozen_manifest frozen_sparse r frozen_privacy frozen_evaluator frozen_evaluator_loads
        sample_parameters sample_pair sample_pair_ok sample_asset l Hl)).
Defined.

(** They are spent for 4 and 8, and the total stays 12. *)
Lemma private_value_conserved_witness :
  exists r l (Hl : pair_ledger frozen_manifest frozen_sparse r frozen_evaluator sample_parameters sample_pair sample_asset l),
    let request := pair_request frozen_manifest frozen_sparse r frozen_privacy frozen_evaluator frozen_evaluator_loads
      sample_parameters sample_pair sample_pair_ok sample_asset l Hl in
    let before := mk_Book [pd_in0 sample_pair; pd_in1 sample_pair] ∅ in
    let after := (run_book frozen_manifest frozen_sparse (certified frozen_manifest frozen_privacy frozen_evaluator)
      [Transfer request] l before).2 in
    length (bk_openings after) = 4%nat /\ forall asset, unspent_value asset after = unspent_value asset before.
Proof.
  destruct sample_setup as (r & l & Hr & Hl), frozen_nxsm_facts as (bytes & _ & Hid). exists r, l, Hl. cbv zeta.
  pose proof (pair_intent_wf frozen_manifest frozen_sparse r frozen_privacy frozen_evaluator frozen_evaluator_loads
    sample_parameters sample_pair sample_pair_ok sample_asset l Hl) as Hi.
  destruct (pair_opened frozen_manifest frozen_sparse r frozen_privacy frozen_evaluator sample_parameters
    sample_pair sample_pair_ok sample_asset l Hl) as [Hopened Hknown].
  set (request := pair_request frozen_manifest frozen_sparse r frozen_privacy frozen_evaluator frozen_evaluator_loads
      sample_parameters sample_pair sample_pair_ok sample_asset l Hl).
  assert (Hops : Forall operation_wf [Transfer request]) by (apply Forall_singleton; exact Hi).
  pose proof (private_value_conserved frozen_manifest frozen_sparse r Hr frozen_privacy frozen_evaluator
    frozen_evaluator_loads (pair_known sample_pair) (fun k => k = pd_key sample_pair)
    (pair_known_inj frozen_manifest frozen_privacy frozen_evaluator sample_parameters sample_pair sample_pair_ok)
    (fun a b Ha Hb _ => eq_trans Ha (eq_sym Hb)) (certified frozen_manifest frozen_privacy frozen_evaluator)
    (certificate_sound frozen_manifest frozen_privacy frozen_evaluator) [Transfer request] l
    [pd_in0 sample_pair; pd_in1 sample_pair] (proj1 Hl) Hopened Hknown Hops
    (pair_run_honest frozen_manifest frozen_sparse r Hr frozen_nxsm_id Hid frozen_privacy frozen_evaluator frozen_evaluator_loads
        sample_parameters sample_pair sample_pair_ok sample_asset l Hl)) as Hc.
  destruct (pair_admitted frozen_manifest frozen_sparse r Hr frozen_nxsm_id Hid frozen_privacy frozen_evaluator
    frozen_evaluator_loads sample_parameters sample_pair sample_pair_ok sample_asset l Hl) as (receipt & l' & Ht).
  split; [exact (run_one_length _ _ _ _ _ _ _ _ _ Ht)|].
  destruct (run_book _ _ _ _ _ _) as [l1 book]. exact (proj2 (proj2 Hc)).
Defined.
